(* ===== verification/_CoqProject ===== *)
-Q . S2P
Prelude.v
CppStd.v
Logger.v
Binary32.v
Doubles.v
Memory.v
Table.v
Nodes.v
Races.v
Scanner.v
Rescan.v
Engine.v
Clients.v
Wire.v
Persistence.v
Pubsub.v
Admin.v
Dispatcher.v
Calls.v
Atomicity.v
Session.v
Isolation.v
Net.v
Accept.v
Schedulers.v
Server.v
Lifecycle.v
Crash.v
Durability.v
Program.v
Bench.v
