(* ===== verification/Prelude.v ===== *)
(** * VoltDBX: a verification library

    VoltDBX (src/src, src/include/voltdbx) is a key-value server in C++.  A TCP
    listener hands connections to a pool of threads; each thread runs the request
    loop of one session; a line is parsed into a command; the dispatcher runs the
    handler of the command on the shared storage engine, publish/subscribe broker,
    metrics, password gate, runtime configuration and append-only log; background
    threads sweep expired keys and write snapshots; at start-up the data is
    restored from a snapshot or from the log.

    This library translates the program into executable definitions and proves
    theorems about them.  A C++ expression has an [Outcome]: a value, an exception,
    or undefined behaviour (signed overflow, a dangling pointer).  Machine integers are numbers with
    their wrap-around or range check written out.  The clock, the environment, the
    results of system calls and the hash function [std::hash] are arguments.

    ** Files

    - [Prelude.v] (this file): outcomes and their monad, 64-bit arithmetic,
      tactics ([bsimp], [msimp], [str_simpl]), the hint database [volt], lemmas on
      strings, lists and folds.
    - [CppStd.v]: the parts of the C++ standard library the sources use (character
      classes, [std::to_string], [std::stoll], [std::stoull], [std::atoi], string
      searches, [std::getline], stream extraction), with printing/parsing lemmas.
    - [Logger.v]: severities, what is printed (src/util/logger.cpp).
    - [Binary32.v]: the single-precision load factor test of the hash table.
    - [Doubles.v]: durations and rates in double precision, and the six-digit text that a
      stream prints for them.
    - [Memory.v]: [ArenaAllocator], [ArenaObjectPool], [BufferPool], [StringPool]
      (src/memory).
    - [Table.v]: [HashTable] (src/storage/hash_table.cpp), refining a finite map.
    - [Nodes.v]: the same table with its allocated nodes and [next] pointers, over a
      class [Allocator] for the addresses that [new] returns, refining [Table.v].
    - [Races.v]: [insert] (with the growth of the table), [find] and [erase] as threads
      that take one memory access at a time on those nodes.
    - [Scanner.v]: [KeyScanner] (src/storage/key_scanner.cpp).
    - [Rescan.v]: a scan whose pages are read while the table changes.
    - [Engine.v]: the interface [Storage] with its laws [StorageLaws], the
      specification [spec_run] of sequences of operations, and the engine
      (src/storage/storage_engine.cpp) as an instance.
    - [Clients.v]: batches, counters, expiration, the sweep; proved against the
      interface, as are the next files.
    - [Wire.v]: command names, parser, replies, and a reference reader of replies.
    - [Persistence.v]: the append-only log, snapshots and [StorageHooks] over a
      file system that maps paths to contents.
    - [Pubsub.v]: channel registry, broker, mailboxes.
    - [Admin.v]: configuration, command line, authentication, metrics, admission.
    - [Dispatcher.v]: every command handler and [dispatch] over one state.
    - [Calls.v]: the engine's operations and the handlers that use the storage alone as
      sequences of calls of the hash table, refining [Engine.v] and [Dispatcher.v].
    - [Atomicity.v]: such requests on several threads, taking turns call by call.
    - [Session.v]: sessions with their descriptors, reading and writing lines, the
      request loop.
    - [Isolation.v]: sessions as sequences of table calls, taking turns call by call.
    - [Net.v]: [TcpServer] in a process with live objects, the global pointer to the
      active server, signal dispositions and open listening descriptors.
    - [Accept.v]: [IoMultiplexer], [AcceptLoop], [AsyncAcceptLoop] over the answers of
      [epoll_wait] (with its timeout) and [accept].
    - [Schedulers.v]: the start/stop protocol that both schedulers share, over a class
      [Program] of thread bodies with its laws; [SnapshotScheduler] and
      [ExpirationScheduler] are its instances.
    - [Server.v]: the thread pool as a transition system, with workers that sleep on the
      condition variable and are notified, the accept handler, start-up and the final
      snapshot.
    - [Lifecycle.v]: [DatabaseServer::run] as a transition system of its threads: the
      main thread, four workers, two schedulers, signals, and clients that send more.
    - [Crash.v]: what a start makes of the files a crash leaves behind.
    - [Durability.v]: invariants of the data in every reachable state of the server, and
      with them a clean shutdown and a crash at any moment.
    - [Program.v]: [main] (src/main.cpp), from the environment and the command line to
      the runs of the server, and an executor [Schedule.play_all] of the step
      relation of [Lifecycle.v] with its soundness lemma.
    - [Bench.v]: the latency runner and its program (src/bench).

    ** What the theorems show

    - Storage: the hash table (with its rehashing) answers like a finite map, keeps
      its load factor, and its nested rehash is at most one deep; the engine
      refines a map of entries with deadlines for every sequence of operations and
      every clock; expiration hides a key from its deadline on, and sweeping is
      invisible to readers; scanning reports each matching key once, also over the
      wire, and while keys are only added no key that was there is missed; arena ranges, pooled objects and pool blocks never overlap and no block
      is leaked.
    - The table's memory: no operation follows a dangling pointer, frees a node twice
      or leaks one, and the nodes are those of the lists in [Table.v]; lookups on
      several threads do not disturb each other.
    - Clients: MSET/MGET, counters on every branch (sum, exception, overflow), what
      a sweep removes and logs.
    - Persistence: replaying the log of hooked operations, a rewritten log and a
      snapshot each restore the keys and values (of keys and values the text formats
      can hold); a restart restores the data; what is lost when a rename fails, what a
      key with a space becomes, and what a start reads from a torn file.
    - Protocol: parsing inverts printing, replies read back, an error reply has no
      effect, which commands can throw, what each command may change.
    - Sessions and threads: a connection is served in order and to its end, whatever
      bytes arrive and whichever writes fail, and its descriptor is closed once;
      requests on different keys are atomic and sessions on different keys isolated
      even when their table calls interleave; the pool runs every accepted task once
      and in order, and loses no wake-up.
    - Listener: [bind_and_listen] succeeds completely or leaves nothing behind; a
      signal never reaches a destroyed server and stops the active one; the two
      accept loops hand over the same connections, and a stop ends the loop within the
      timeout of its wait.
    - Schedulers: one thread each, which returns a bounded number of its own steps
      after [stop], whatever the others do; snapshots come at their interval.
    - Whole server: when [run] returns 0, every accepted connection has been served
      and closed, no thread or descriptor is left, and the next start restores the
      data; once stopped, the process ends under every interleaving if its clients
      stop sending; after a crash at any moment the next start finds the old snapshot,
      a snapshot of an earlier moment of the run, or the beginning of one that was cut
      short.
    - Program: in every state a process can reach from any environment and command line
      the configuration is within its machine types and the listener, the pool, the
      sessions and the schedulers are well formed; started again after a
      clean end, the program has its data back; leaving [run] never destroys a thread
      that is still joinable and leaves no server, descriptor or pointer behind.
    - Logger and benchmark: lines are filtered by severity; the benchmark performs
      the operations it counts, its percentiles are among the samples, and the rate
      it prints is exact to five millionths.
    - Publish/subscribe, configuration and authentication: registry as a set of
      pairs, first-in first-out mailboxes, publishing to each subscriber once,
      settings read back, a password is needed where it is asked for.
    - Where the code does less than its documentation says (commands are not
      logged, authentication and the client limit are not enforced, messages are
      not delivered, deadlines do not survive a restart, an expired key still
      exists, a torn snapshot loads, the log is ignored once there is a snapshot,
      the sweep's count wraps, a scan misses a key when another is deleted or the table grows, a lookup
      reads freed memory and an insertion is lost when threads share the unlocked
      table, a lookup misses a key or divides by zero while the table grows, two INCR
      count once, a sweep deletes a value that was just stored, a client that keeps
      sending blocks the shutdown, binding a running server leaks its descriptor, a
      key with a space is replayed wrongly, an oversized pool hands out blocks beyond
      its slab), a theorem states what it does.

    ** Bounds and fuel

    - [HashTable.insert] runs the mutual recursion of [insert] and
      [rehash_if_needed] with fuel 2; [insert_nesting_bounded] shows that more fuel
      changes nothing.
    - The loops along the nodes of a chain in [Nodes.v] have [walk_bound] rounds, the
      number of allocated nodes plus one; running out is undefined behaviour there,
      and [nodes_refine_chains] shows that it does not happen.
    - [KeyScanner.scan] gives its loop one round per bucket, the tokenizer and the
      line readers one per character, [handle_session] one per byte of input plus
      one; each has a lemma that this is enough ([scan_loop_spec],
      [tokenize_words], [lines_fuel_enough], [handle_session_terminates]).
    - [ArenaAllocator.allocate] recurses at most once ([allocate_terminates]).
    - The accept loops run over a list of answers of the system and return [None] when
      it ends first; [stop_ends_accept_loop] shows that a stop makes them return.
    - A scheduler's thread returns within [patience] steps after its flag is cleared
      (at most 3 for snapshots, 5 for the sweep), a law of the class [ProgramLaws].
    - [Run.shutdown_completes] is by a measure on the work left; it has no fuel.
    - [Bench.percentile_index] rounds as double precision does ([round53]); it is shown to
      be a valid index for up to [2^53] samples, more than fit in memory.
    - The decimal exponent of a double is searched from -40 upwards with fuel 100
      ([ilog10_spec]): rates and latencies of 64-bit counts and times lie between
      [10^-10] and [10^28].
    - Counters that are only incremented by one ([rejected_], [commands_], copies)
      are natural numbers.

    ** Not modelled

    Interleaving is modelled at three levels: single memory accesses of the table
    ([Races.v]: [insert], [find] and [erase]; the other operations are one step there),
    calls of the table ([Atomicity.v] and [Isolation.v], where a call is one step), and
    the threads of the whole server ([Lifecycle.v], where a request, a snapshot and a
    sweep are each one step; the two counts around a sweep are separate steps, a
    snapshot may fail after some bytes, and a crash may cut one short).  The storage
    has no lock, so what [Lifecycle.v] and the files after it say of the data is about
    runs in which these steps do not overlap; [Races.v] and [Atomicity.v] show what
    happens when they do.  The string pool and the metrics, which threads also share,
    are not interleaved.

    A session carries the results of its coming reads as a finite list, which
    [Run.arrive_step] extends; a read past its end closes the session, as a read
    without data does on a non-blocking socket.  That a socket stays blocking when
    [fcntl] fails is recorded ([flags_set]) but has no effect on the reads.  In
    [ThreadPool], a notification takes effect in the step of the unlock it follows.

    A line appended to an open log is taken to reach the file, and so is the last
    snapshot of [run] when its file can be opened.  [create_directories], which the
    constructors of the log and of the snapshot writer call and which may throw, is
    taken to succeed.  The kqueue branch of [IoMultiplexer] does not compile and is not
    modelled.  The descriptor of the multiplexer is closed by its destructor
    ([Accept.v]) but is not part of the state of [Lifecycle.v].  The implementation
    files without definitions of their own only declare what the others define. *)

From Stdlib Require Export ZArith Lia.
From Stdlib Require Export Ascii (ascii(..)).
From Stdlib Require String Ascii.
Export (notations) Ascii.
From stdpp Require Export base tactics numbers strings gmap fin_maps.
From stdpp Require Export list.

(** ** Outcomes of C++ code *)

(** The standard exceptions the program can raise. *)
Inductive Exception : Type :=
| invalid_argument
| out_of_range.

#[global] Instance Exception_eq_dec : EqDecision Exception.
Proof. solve_decision. Defined.

(** A C++ expression returns a value, throws, or has undefined behaviour
    (signed overflow, an index out of range or the use of a destroyed object). *)
Inductive Outcome (A : Type) : Type :=
| Ret (a : A)
| Throw (e : Exception)
| Undefined.
Arguments Ret {A} _.
Arguments Throw {A} _.
Arguments Undefined {A}.

#[global] Instance Outcome_eq_dec `{EqDecision A} : EqDecision (Outcome A).
Proof. solve_decision. Defined.

#[global] Instance Outcome_ret : MRet Outcome := @Ret.
#[global] Instance Outcome_bind : MBind Outcome := λ A B f m,
  match m with
  | Ret a => f a
  | Throw e => Throw e
  | Undefined => Undefined
  end.

#[global] Instance Outcome_fmap : FMap Outcome := λ A B f m,
  match m with
  | Ret a => Ret (f a)
  | Throw e => Throw e
  | Undefined => Undefined
  end.

(** A loop body that may throw, run over a container from left to right. *)
Fixpoint fold_outcome {A B} (f : B → A → Outcome B) (b : B) (l : list A) : Outcome B :=
  match l with
  | [] => Ret b
  | a :: l' => b' ← f b a; fold_outcome f b' l'
  end.

Declare Scope volt_scope.
Delimit Scope volt_scope with volt.
(** [m ⇓ v]: the expression [m] returns [v], without exception or undefined
    behaviour. *)
Notation "m ⇓ v" := (m = Ret v) (at level 70, no associativity) : volt_scope.
Open Scope volt_scope.

(** ** Machine integers *)

Definition int64_min : Z := -(2 ^ 63).
Definition int64_max : Z := 2 ^ 63 - 1.
Definition uint64_max : Z := 2 ^ 64 - 1.

Definition in_int64 (z : Z) : bool := (int64_min <=? z)%Z && (z <=? int64_max)%Z.

(** Signed 64-bit arithmetic: the result, or undefined behaviour. *)
Definition checked64 (z : Z) : Outcome Z := if in_int64 z then Ret z else Undefined.

(** Conversion to an unsigned type of [w] bits: reduction modulo [2^w]. *)
Definition wrap (w : Z) (z : Z) : Z := z mod 2 ^ w.

Create HintDb volt.

(** ** Tactics *)

(** Split conjunctions of the goal and boolean connectives of hypotheses. *)
Ltac bsimp :=
  repeat match goal with
  | H : _ && _ = true |- _ => apply andb_true_iff in H; destruct H
  | H : _ || _ = false |- _ => apply orb_false_iff in H; destruct H
  | H : (_ <=? _)%Z = true |- _ => apply Z.leb_le in H
  | H : (_ <=? _)%Z = false |- _ => apply Z.leb_gt in H
  | H : (_ <? _)%Z = true |- _ => apply Z.ltb_lt in H
  | H : (_ <? _)%Z = false |- _ => apply Z.ltb_ge in H
  | H : (_ <=? _)%nat = true |- _ => apply Nat.leb_le in H
  | H : (_ <=? _)%nat = false |- _ => apply Nat.leb_gt in H
  | H : (_ <? _)%nat = true |- _ => apply Nat.ltb_lt in H
  | H : (_ <? _)%nat = false |- _ => apply Nat.ltb_ge in H
  | H : (_ =? _)%string = true |- _ => apply String.eqb_eq in H
  | H : (_ =? _)%string = false |- _ => apply String.eqb_neq in H
  | H : negb _ = true |- _ => apply negb_true_iff in H
  | H : negb _ = false |- _ => apply negb_false_iff in H
  end.

(** Reduce the binds of the outcome monad on known results. *)
Ltac msimp := cbn [mbind mret fmap Outcome_bind Outcome_ret Outcome_fmap].
Ltac msimp_all := cbn [mbind mret fmap Outcome_bind Outcome_ret Outcome_fmap] in *.

Lemma in_int64_spec z : in_int64 z = true ↔ (int64_min ≤ z ≤ int64_max)%Z.
Proof.
  unfold in_int64. rewrite andb_true_iff, !Z.leb_le. lia.
Qed.

Lemma checked64_Ret z v : checked64 z ⇓ v ↔ (int64_min ≤ z ≤ int64_max)%Z ∧ v = z.
Proof.
  unfold checked64. rewrite <-in_int64_spec. destruct (in_int64 z); naive_solver.
Qed.

Lemma checked64_in z : (int64_min ≤ z ≤ int64_max)%Z → checked64 z ⇓ z.
Proof. intros. by apply checked64_Ret. Qed.

Lemma bind_Ret {A B} (m : Outcome A) (f : A → Outcome B) (b : B) :
  (m ≫= f) ⇓ b ↔ ∃ a, m ⇓ a ∧ f a ⇓ b.
Proof. destruct m; naive_solver. Qed.

Lemma bind_assoc {A B C} (m : Outcome A) (f : A → Outcome B) (g : B → Outcome C) :
  ((m ≫= f) ≫= g) = (m ≫= λ a, f a ≫= g).
Proof. by destruct m. Qed.

Lemma fold_outcome_app {A B} (f : B → A → Outcome B) b l1 l2 :
  fold_outcome f b (l1 ++ l2) = fold_outcome f b l1 ≫= λ b', fold_outcome f b' l2.
Proof.
  revert b. induction l1 as [|a l1 IH]; intros b; [done|].
  simpl. rewrite bind_assoc. by destruct (f b a); simpl.
Qed.

#[export] Hint Resolve checked64_in : volt.

(** ** Strings *)

Lemma string_app_cons c (s t : string) : String c s +:+ t = String c (s +:+ t).
Proof. done. Qed.

(** [String.append] is opaque to [simpl]; this unfolds it on a constructor. *)
Ltac str_simpl := simpl; rewrite ?string_app_cons; simpl.

Lemma string_app_nil_r s : s +:+ "" = s.
Proof. induction s as [|c s IH]; [done|]. by rewrite string_app_cons, IH. Qed.

Lemma string_app_assoc (s t u : string) : s +:+ (t +:+ u) = (s +:+ t) +:+ u.
Proof. induction s as [|c s IH]; [done|]. by rewrite !string_app_cons, IH. Qed.

Lemma string_app_length (s t : string) :
  String.length (s +:+ t) = String.length s + String.length t.
Proof. induction s as [|c s IH]; [done|]. str_simpl. by rewrite IH. Qed.

(** ** Lists *)

Lemma elem_of_concat {A} (x : A) (ls : list (list A)) :
  x ∈ concat ls ↔ ∃ i l, ls !! i = Some l ∧ x ∈ l.
Proof.
  rewrite list_elem_of_In, in_concat. split.
  - intros (l & Hl & Hx). apply list_elem_of_In in Hl, Hx.
    apply list_elem_of_lookup in Hl as [i Hi]. eauto.
  - intros (i & l & Hi & Hx). exists l.
    split; apply list_elem_of_In; [apply list_elem_of_lookup; eauto|done].
Qed.

(** Keys are distinct in a list of lists when they are distinct in each list
    and each key determines the index of its list. *)
Lemma NoDup_concat_keys {A B} (f : A → B) (ls : list (list A)) :
  (∀ i l, ls !! i = Some l → NoDup (f <$> l)) →
  (∀ i j l1 l2 a b, ls !! i = Some l1 → ls !! j = Some l2 → a ∈ l1 → b ∈ l2 →
     f a = f b → i = j) →
  NoDup (f <$> concat ls).
Proof.
  induction ls as [|l ls IH]; intros Hin Hdisj; [constructor|].
  simpl. rewrite fmap_app. apply list.NoDup_app. split_and!.
  - by apply (Hin 0).
  - intros b (x & -> & Hx)%list_elem_of_fmap (y & Hf & Hy)%list_elem_of_fmap.
    apply elem_of_concat in Hy as (j & l' & Hj & Hy).
    assert (0 = S j); [|done]. by apply (Hdisj 0 (S j) l l' x y).
  - apply IH; [intros i l' Hl'; by apply (Hin (S i))|].
    intros i j l1 l2 a b H1 H2 Ha Hb Hf.
    assert (S i = S j); [|lia]. by apply (Hdisj (S i) (S j) l1 l2 a b).
Qed.

(** Replacing one list of a list of lists, up to order. *)
Lemma concat_insert_perm {A} (ls : list (list A)) i l l' :
  ls !! i = Some l → concat (<[i:=l']> ls) ++ l ≡ₚ concat ls ++ l'.
Proof.
  revert i. induction ls as [|m ls IH]; intros [|i] Hi; simplify_eq/=.
  - rewrite (comm (++) l' (concat ls)), (comm (++) l (concat ls)).
    rewrite <-!(assoc_L (++)). by rewrite (comm (++) l').
  - rewrite <-!(assoc_L (++)). by rewrite IH.
Qed.

(** A sum over a list in which one element is replaced. *)
Lemma sum_list_insert {A} (f : A → nat) (l : list A) i x y :
  l !! i = Some x → sum_list (f <$> <[i := y]> l) + f x = sum_list (f <$> l) + f y.
Proof.
  revert i. induction l as [|z l IH]; intros [|i] Hi; simplify_eq/=; csimpl; [lia|]. specialize (IH i Hi). lia.
Qed.

(** A fold that appends. *)
Lemma foldl_collect {A B} (f : A → B) (l : list A) acc :
  foldl (λ acc a, acc ++ [f a]) acc l = acc ++ (f <$> l).
Proof.
  revert acc. induction l as [|a l IH]; intros acc; csimpl; [by rewrite app_nil_r|].
  by rewrite IH, <-(assoc_L (++)).
Qed.

(** A fold that counts. *)
Lemma foldl_count {A} (P : A → Prop) `{Hdec : ∀ x, Decision (P x)} (l : list A) n :
  foldl (λ n a, if decide (P a) then S n else n) n l = (n + length (filter P l))%nat.
Proof.
  revert n. induction l as [|a l IH]; intros n; simpl; [lia|].
  rewrite IH, filter_cons. case_decide; simpl; lia.
Qed.

Lemma foldl_ext {A B} (f g : B → A → B) (l : list A) b :
  (∀ b a, f b a = g b a) → foldl f b l = foldl g b l.
Proof.
  intros Hfg. revert b. induction l as [|a l IH]; intros b; simpl; [done|]. by rewrite Hfg.
Qed.
