(* ===== verification/CppStd.v ===== *)
(** * The C++ standard library functions the program calls

    Executable models of the parts of <cctype>, <string>, <cstdlib> and
    <sstream> that the sources use, in the "C" locale: character classes,
    decimal printing ([std::to_string], [operator<<] on integers), the numeric
    parsers ([std::stoll], [std::stoull], [std::atoi], [operator>>] into a
    [std::size_t]), searching and slicing of strings, [std::getline] and
    whitespace-delimited extraction.  A [std::string] is a [string]: a finite
    sequence of 8-bit characters. *)

From S2P Require Import Prelude.

(** ** Characters *)

Definition code (c : ascii) : N := Ascii.N_of_ascii c.

(** [std::isspace]: space and the characters 9 to 13. *)
Definition isspace (c : ascii) : bool :=
  (code c =? 32)%N || ((9 <=? code c)%N && (code c <=? 13)%N).

(** [std::toupper]. *)
Definition toupper (c : ascii) : ascii :=
  if ((97 <=? code c)%N && (code c <=? 122)%N)
  then Ascii.ascii_of_N (code c - 32) else c.

Definition digit_char (d : N) : ascii := Ascii.ascii_of_N (48 + d).

Definition digit_val (c : ascii) : option N :=
  if ((48 <=? code c)%N && (code c <=? 57)%N) then Some (code c - 48)%N else None.

Definition newline : ascii := Ascii.ascii_of_N 10.
Definition carriage_return : ascii := Ascii.ascii_of_N 13.
Definition space : ascii := Ascii.ascii_of_N 32.
Definition crlf : string := String carriage_return (String newline "").
Definition lf : string := String newline "".
Definition sp : string := String space "".

(** ** Slices and searches *)

Fixpoint str_take (n : nat) (s : string) : string :=
  match n, s with
  | S n', String c s' => String c (str_take n' s')
  | _, _ => ""
  end.

Fixpoint str_drop (n : nat) (s : string) : string :=
  match n, s with
  | S n', String _ s' => str_drop n' s'
  | _, _ => s
  end.

(** [s.substr(pos, len)], for [pos <= s.size()]. *)
Definition substr (pos len : nat) (s : string) : string := str_take len (str_drop pos s).

(** [s.rfind(p, 0) == 0]: [p] is a prefix of [s]. *)
Fixpoint starts_with (p s : string) : bool :=
  match p, s with
  | "", _ => true
  | String a p', String b s' => Ascii.eqb a b && starts_with p' s'
  | String _ _, "" => false
  end.

(** [s.find(p) != npos]. *)
Fixpoint contains_str (p s : string) : bool :=
  starts_with p s ||
  match s with
  | "" => false
  | String _ s' => contains_str p s'
  end.

(** [s.find(c)]: the first position of [c]. *)
Fixpoint find_char (c : ascii) (s : string) : option nat :=
  match s with
  | "" => None
  | String b s' => if Ascii.eqb b c then Some 0 else S <$> find_char c s'
  end.

Definition front (s : string) : option ascii :=
  match s with "" => None | String c _ => Some c end.

Fixpoint back (s : string) : option ascii :=
  match s with
  | "" => None
  | String c "" => Some c
  | String _ s' => back s'
  end.

Fixpoint str_forallb (p : ascii → bool) (s : string) : bool :=
  match s with
  | "" => true
  | String c s' => p c && str_forallb p s'
  end.

(** The longest prefix whose characters satisfy [p], and the rest. *)
Fixpoint str_span (p : ascii → bool) (s : string) : string * string :=
  match s with
  | "" => ("", "")
  | String c s' =>
      if p c then let '(a, b) := str_span p s' in (String c a, b) else ("", s)
  end.

Definition skip_space (s : string) : string := (str_span isspace s).2.

(** ** Printing and parsing of integers *)

Fixpoint print_digits (fuel : nat) (n : N) (acc : string) : string :=
  match fuel with
  | O => acc
  | S fuel' =>
      let acc' := String (digit_char (n mod 10)) acc in
      if (n <? 10)%N then acc' else print_digits fuel' (n / 10) acc'
  end.

(** Decimal digits of [n]; a number has at most as many decimal digits as
    binary ones, which bounds the recursion. *)
Definition print_N (n : N) : string := print_digits (S (N.to_nat (N.log2 n))) n "".

(** [std::to_string]. *)
Definition to_string (z : Z) : string :=
  match z with
  | Zneg p => String "-"%char (print_N (Npos p))
  | _ => print_N (Z.to_N z)
  end.

(** [std::to_string] of a [std::size_t]. *)
Definition size_to_string (n : nat) : string := to_string (Z.of_nat n).

Fixpoint parse_digits (acc : N) (s : string) : N * string :=
  match s with
  | "" => (acc, "")
  | String c s' =>
      match digit_val c with
      | Some d => parse_digits (acc * 10 + d)%N s'
      | None => (acc, s)
      end
  end.

(** The subject sequence of [strtoll] and [strtoull] in base ten: white space,
    a sign and at least one digit; the result is the sign and magnitude. *)
Definition scan_integer (s : string) : option (bool * N) :=
  let s1 := skip_space s in
  let '(neg, s2) :=
    match s1 with
    | String "-"%char r => (true, r)
    | String "+"%char r => (false, r)
    | _ => (false, s1)
    end in
  match s2 with
  | String c _ =>
      match digit_val c with
      | Some _ => Some (neg, (parse_digits 0 s2).1)
      | None => None
      end
  | "" => None
  end.

Definition signed (neg : bool) (m : N) : Z := if neg then - Z.of_N m else Z.of_N m.

(** [std::stoll]. *)
Definition stoll (s : string) : Outcome Z :=
  match scan_integer s with
  | None => Throw invalid_argument
  | Some (neg, m) =>
      if in_int64 (signed neg m) then Ret (signed neg m) else Throw out_of_range
  end.

(** [std::stoull]: a minus sign negates the magnitude modulo [2^64]. *)
Definition stoull (s : string) : Outcome Z :=
  match scan_integer s with
  | None => Throw invalid_argument
  | Some (neg, m) =>
      if (Z.of_N m <=? uint64_max)%Z then Ret (wrap 64 (signed neg m)) else Throw out_of_range
  end.

(** [std::atoi] and [std::atol]: 0 when there is no number, undefined when the
    value does not fit the result type. *)
Definition ato (w : Z) (s : string) : Outcome Z :=
  match scan_integer s with
  | None => Ret 0%Z
  | Some (neg, m) =>
      let z := signed neg m in
      if ((- 2 ^ (w - 1) <=? z) && (z <? 2 ^ (w - 1)))%Z then Ret z else Undefined
  end.
Definition atoi (s : string) : Outcome Z := ato 32 s.
Definition atol (s : string) : Outcome Z := ato 64 s.

(** [stream >> n] for a [std::size_t n] on a fresh string stream: 0 when there
    is no number, the largest value when it does not fit. *)
Definition extract_size (s : string) : Z :=
  match scan_integer s with
  | None => 0
  | Some (neg, m) =>
      if (Z.of_N m <=? uint64_max)%Z then wrap 64 (signed neg m) else uint64_max
  end.

(** ** Streams *)

(** [std::getline]: fails at the end of the stream, otherwise the characters up
    to the next newline (or the end), and what follows it. *)
Definition getline (s : string) : option (string * string) :=
  match s with
  | "" => None
  | _ =>
      let '(line, rest) := str_span (λ c, negb (Ascii.eqb c newline)) s in
      Some (line, str_drop 1 rest)
  end.

(** [stream >> token]: skips white space, then reads up to white space. *)
Definition extract_token (s : string) : option (string * string) :=
  match skip_space s with
  | "" => None
  | s1 => Some (str_span (λ c, negb (isspace c)) s1)
  end.

(** ** Facts *)

Lemma str_forallb_app p s t : str_forallb p (s +:+ t) = str_forallb p s && str_forallb p t.
Proof.
  induction s as [|c s IH]; [done|].
  str_simpl. by rewrite IH, andb_assoc.
Qed.

Lemma str_forallb_impl (p q : ascii → bool) s :
  (∀ c, p c = true → q c = true) → str_forallb p s = true → str_forallb q s = true.
Proof. intros Hpq. induction s as [|c s IH]; simpl; [done|]. intros; bsimp. rewrite Hpq, IH; auto. Qed.

Lemma str_span_app p s t :
  str_forallb p s = true → (∀ c, front t = Some c → p c = false) →
  str_span p (s +:+ t) = (s, t).
Proof.
  intros Hs Ht. induction s as [|c s IH]; simpl in *.
  - destruct t as [|c t]; [done|]. simpl. by rewrite Ht.
  - bsimp. str_simpl. by rewrite H, IH.
Qed.

Lemma str_span_all p s : str_forallb p s = true → str_span p s = (s, "").
Proof.
  intros. rewrite <-(string_app_nil_r s) at 1. by apply str_span_app.
Qed.

Lemma str_span_spec p s a b :
  str_span p s = (a, b) →
  s = a +:+ b ∧ str_forallb p a = true ∧ (∀ c, front b = Some c → p c = false).
Proof.
  revert a b. induction s as [|c s IH]; intros a b H; simpl in *; [naive_solver|].
  destruct (p c) eqn:Hc.
  - destruct (str_span p s) as [a' b'] eqn:E. simplify_eq.
    destruct (IH a' b eq_refl) as (-> & Ha & Hb). simpl. by rewrite Hc, Ha.
  - simplify_eq. naive_solver.
Qed.

Lemma str_take_drop n s : str_take n s +:+ str_drop n s = s.
Proof.
  revert s. induction n as [|n IH]; intros [|c s]; simpl; try done.
  by rewrite string_app_cons, IH.
Qed.

Lemma str_drop_app s t : str_drop (String.length s) (s +:+ t) = t.
Proof. induction s as [|c s IH]; [by destruct t|]. by rewrite string_app_cons. Qed.

Lemma str_drop_sep k c v : str_drop (String.length k + 1) (k +:+ String c v) = v.
Proof. induction k as [|a k IH]; [by destruct v|]. by rewrite string_app_cons. Qed.

Lemma str_take_app s t : str_take (String.length s) (s +:+ t) = s.
Proof. induction s as [|c s IH]; [by destruct t|]. str_simpl. by rewrite IH. Qed.

Lemma str_take_all s : str_take (String.length s) s = s.
Proof. by rewrite <-(string_app_nil_r s) at 2; rewrite str_take_app. Qed.

Lemma str_drop_length n s : String.length (str_drop n s) = String.length s - n.
Proof. revert s. induction n as [|n IH]; intros [|c s]; simpl; auto. Qed.

Lemma starts_with_spec p s : starts_with p s = true ↔ ∃ t, s = p +:+ t.
Proof.
  revert s. induction p as [|a p IH]; intros s; simpl; [naive_solver|].
  destruct s as [|b s]; [naive_solver|].
  rewrite andb_true_iff, Ascii.eqb_eq, IH.
  setoid_rewrite string_app_cons. naive_solver.
Qed.

Lemma contains_str_spec p s : contains_str p s = true ↔ ∃ a b, s = a +:+ (p +:+ b).
Proof.
  induction s as [|c s IH]; simpl; rewrite orb_true_iff, starts_with_spec.
  - split; [intros [[t ->]|]; [by exists "", t|done]|].
    intros ([|c a] & b & H); [left; by exists b|by rewrite string_app_cons in H].
  - rewrite IH. split.
    + intros [[t ->]|(a & b & ->)]; [by exists "", t|by exists (String c a), b].
    + intros ([|c' a] & b & H); [left; by exists b|].
      rewrite string_app_cons in H. right. naive_solver.
Qed.

Lemma find_char_Some c s i :
  find_char c s = Some i →
  s = str_take i s +:+ String c (str_drop (S i) s) ∧
  str_forallb (λ b, negb (Ascii.eqb b c)) (str_take i s) = true ∧
  i < String.length s.
Proof.
  revert i. induction s as [|b s IH]; intros i H; simpl in *; [done|].
  destruct (Ascii.eqb_spec b c) as [->|Hne]; simplify_eq/=; [split_and!; [done|done|lia]|].
  apply fmap_Some in H as (j & Hj & ->).
  destruct (IH j Hj) as (Hs & Hf & Hl). simpl.
  apply Ascii.eqb_neq in Hne. rewrite Hne, Hf. split_and!; [|done|lia].
  rewrite string_app_cons. by rewrite <-Hs.
Qed.

Lemma find_char_app c s t :
  str_forallb (λ b, negb (Ascii.eqb b c)) s = true →
  find_char c (s +:+ String c t) = Some (String.length s).
Proof.
  induction s as [|b s IH]; simpl; intros H.
  - change ("" +:+ String c t) with (String c t). simpl. by rewrite Ascii.eqb_refl.
  - bsimp. str_simpl. rewrite H, IH; done.
Qed.

Lemma find_char_None c s :
  str_forallb (λ b, negb (Ascii.eqb b c)) s = true ↔ find_char c s = None.
Proof.
  induction s as [|b s IH]; simpl; [done|].
  rewrite andb_true_iff, IH. destruct (Ascii.eqb b c); simpl; [naive_solver|].
  rewrite fmap_None. naive_solver.
Qed.

Lemma getline_app line rest :
  str_forallb (λ c, negb (Ascii.eqb c newline)) line = true →
  getline (line +:+ lf +:+ rest) = Some (line, rest).
Proof.
  intros H. unfold getline.
  rewrite (str_span_app _ line); [|done|].
  - by destruct line.
  - unfold lf. rewrite string_app_cons. intros c [= <-]. by rewrite Ascii.eqb_refl.
Qed.

(** *** Numbers *)

Lemma digit_val_char d : (d < 10)%N → digit_val (digit_char d) = Some d.
Proof.
  intros H. unfold digit_val, digit_char, code.
  rewrite Ascii.N_ascii_embedding by lia.
  destruct (N.leb_spec 48 (48 + d)); [|lia].
  destruct (N.leb_spec (48 + d) 57); [|lia].
  simpl. f_equal. lia.
Qed.

Lemma print_digits_parse fuel n acc :
  fuel ≠ 0 → (n < 2 ^ N.of_nat fuel)%N →
  ∃ k, ∀ a, parse_digits a (print_digits fuel n acc) = parse_digits (a * 10 ^ k + n) acc.
Proof.
  revert n acc. induction fuel as [|fuel IH]; [done|]. intros n acc _ Hn.
  cbn [print_digits].
  assert (n mod 10 < 10)%N by (apply N.mod_upper_bound; lia).
  pose proof (N.div_mod n 10).
  destruct (N.ltb_spec n 10).
  - exists 1%N. intros a. simpl. rewrite digit_val_char by done. f_equal.
    rewrite N.mod_small by lia. lia.
  - rewrite Nat2N.inj_succ, N.pow_succ_r' in Hn.
    destruct (IH (n / 10)%N (String (digit_char (n mod 10)) acc)) as [k Hk].
    + intros ->. simpl in Hn. lia.
    + apply N.Div0.div_lt_upper_bound. lia.
    + exists (N.succ k). intros a. rewrite Hk. simpl. rewrite digit_val_char by done.
      rewrite N.pow_succ_r'. f_equal. lia.
Qed.

Lemma print_digits_forallb p fuel n acc :
  (∀ d, (d < 10)%N → p (digit_char d) = true) →
  str_forallb p acc = true → str_forallb p (print_digits fuel n acc) = true.
Proof.
  intros Hp. revert n acc. induction fuel as [|fuel IH]; intros n acc Hacc; simpl; [done|].
  assert (str_forallb p (String (digit_char (n mod 10)) acc) = true).
  { simpl. rewrite Hp, Hacc; [done|]. apply N.mod_upper_bound. lia. }
  destruct (n <? 10)%N; [done|]. by apply IH.
Qed.

Lemma print_digits_front fuel n acc :
  fuel ≠ 0 → ∃ d s, (d < 10)%N ∧ print_digits fuel n acc = String (digit_char d) s.
Proof.
  revert n acc. induction fuel as [|fuel IH]; [done|]. intros n acc _. simpl.
  assert (n mod 10 < 10)%N by (apply N.mod_upper_bound; lia).
  destruct (n <? 10)%N; [eauto|].
  destruct fuel; [eauto|]. by apply IH.
Qed.

Lemma print_N_parse n : parse_digits 0 (print_N n) = (n, "").
Proof.
  unfold print_N.
  destruct (print_digits_parse (S (N.to_nat (N.log2 n))) n "") as [k Hk]; [done| |].
  - rewrite Nat2N.inj_succ, N2Nat.id.
    destruct (decide (n = 0)%N) as [->|]; [done|].
    pose proof (N.log2_spec n). lia.
  - rewrite Hk. f_equal.
Qed.

Lemma print_N_front n : ∃ d s, (d < 10)%N ∧ print_N n = String (digit_char d) s.
Proof. by apply print_digits_front. Qed.

Lemma digit_char_not_space d : (d < 10)%N → isspace (digit_char d) = false.
Proof.
  intros. unfold isspace, digit_char, code. rewrite Ascii.N_ascii_embedding by lia.
  destruct (N.eqb_spec (48 + d) 32); [lia|]. destruct (N.leb_spec (48 + d) 13); [lia|].
  by rewrite andb_comm.
Qed.

Lemma skip_space_front s :
  (∀ c, front s = Some c → isspace c = false) → skip_space s = s.
Proof.
  intros H. unfold skip_space. change s with ("" +:+ s) at 1.
  by rewrite str_span_app.
Qed.

Lemma digit_char_not_sign d :
  (d < 10)%N → digit_char d ≠ "-"%char ∧ digit_char d ≠ "+"%char.
Proof.
  intros H. unfold digit_char.
  split; intros Heq%(f_equal code); unfold code in Heq;
    rewrite Ascii.N_ascii_embedding in Heq by lia.
  - change (Ascii.N_of_ascii "-") with 45%N in Heq. lia.
  - change (Ascii.N_of_ascii "+") with 43%N in Heq. lia.
Qed.

Lemma scan_integer_digits n : scan_integer (print_N n) = Some (false, n).
Proof.
  destruct (print_N_front n) as (d & s & Hd & Hs). unfold scan_integer.
  rewrite skip_space_front; [|rewrite Hs; intros c [= <-]; by apply digit_char_not_space].
  destruct (digit_char_not_sign d Hd) as [Hm Hp].
  assert (match print_N n with
          | String "-"%char r => (true, r)
          | String "+"%char r => (false, r)
          | _ => (false, print_N n) end = (false, print_N n)) as ->.
  { rewrite Hs. repeat (case_match; simplify_eq; try done). }
  rewrite Hs at 1. rewrite digit_val_char by done. by rewrite print_N_parse.
Qed.

Lemma scan_integer_neg n : scan_integer (String "-" (print_N n)) = Some (true, n).
Proof.
  destruct (print_N_front n) as (d & s & Hd & Hs). unfold scan_integer.
  rewrite skip_space_front by (intros c [= <-]; done).
  rewrite Hs at 1. rewrite digit_val_char by done. by rewrite print_N_parse.
Qed.

Lemma scan_integer_to_string z :
  scan_integer (to_string z) = Some (bool_decide (z < 0)%Z, Z.to_N (Z.abs z)).
Proof.
  destruct z as [|p|p]; unfold to_string; [done| |].
  - by rewrite scan_integer_digits.
  - by rewrite scan_integer_neg.
Qed.

Lemma signed_abs z : signed (bool_decide (z < 0)%Z) (Z.to_N (Z.abs z)) = z.
Proof. unfold signed. case_bool_decide; lia. Qed.

(** Printing and parsing back. *)
Lemma stoll_to_string z : (int64_min ≤ z ≤ int64_max)%Z → stoll (to_string z) ⇓ z.
Proof.
  intros H. unfold stoll. rewrite scan_integer_to_string, signed_abs.
  by apply in_int64_spec in H as ->.
Qed.

Lemma stoull_to_string z : (0 ≤ z ≤ uint64_max)%Z → stoull (to_string z) ⇓ z.
Proof.
  intros H. unfold stoull. rewrite scan_integer_to_string, signed_abs.
  unfold wrap. unfold uint64_max in *.
  destruct (Z.leb_spec (Z.of_N (Z.to_N (Z.abs z))) (2 ^ 64 - 1)); [|lia].
  f_equal. apply Z.mod_small. lia.
Qed.

Lemma extract_size_to_string z : (0 ≤ z ≤ uint64_max)%Z → extract_size (to_string z) = z.
Proof.
  intros H. unfold extract_size. rewrite scan_integer_to_string, signed_abs.
  unfold wrap. unfold uint64_max in *.
  destruct (Z.leb_spec (Z.of_N (Z.to_N (Z.abs z))) (2 ^ 64 - 1)); [|lia].
  apply Z.mod_small. lia.
Qed.

(** The characters of a printed number are digits or a sign. *)
Lemma to_string_forallb p z :
  (∀ d, (d < 10)%N → p (digit_char d) = true) → p "-"%char = true →
  str_forallb p (to_string z) = true.
Proof.
  intros Hd Hm. destruct z; unfold to_string; [| |cbn [str_forallb]; rewrite Hm];
    by apply print_digits_forallb.
Qed.

#[export] Hint Resolve stoll_to_string stoull_to_string extract_size_to_string
  getline_app : volt.
