(* ===== verification/Logger.v ===== *)
(** * The logger (src/util/logger.cpp)

    A global level and the standard error stream it filters. *)

From S2P Require Import Prelude CppStd.

Module Logger.

(** [enum class LogLevel]. *)
Inductive LogLevel := Debug | Info | Warn | Error.

#[global] Instance LogLevel_eq_dec : EqDecision LogLevel.
Proof. solve_decision. Defined.

(** [static_cast<int>(level)]. *)
Definition level_value (l : LogLevel) : Z :=
  match l with Debug => 0 | Info => 1 | Warn => 2 | Error => 3 end.

(** The global variable, and what has been written to [std::cerr]. *)
Record t := mk { g_level : LogLevel; cerr : string }.

Definition initial : t := mk Info "".

(** [None] is the null pointer. *)
Definition parse_level (s : option string) : LogLevel :=
  match s with
  | None => Info
  | Some s =>
      if (s =? "debug")%string then Debug
      else if (s =? "warn")%string then Warn
      else if (s =? "error")%string then Error
      else Info
  end.

Definition print (text : string) (l : t) : t := mk (g_level l) (cerr l +:+ text).

Definition emit (tag msg : string) (l : t) : t := print ("[" +:+ tag +:+ "] " +:+ msg +:+ lf) l.

Definition set_log_level (level : LogLevel) (l : t) : t := mk level (cerr l).
Definition current_log_level (l : t) : LogLevel := g_level l.

Definition log_info (msg : string) (l : t) : t :=
  if (level_value (g_level l) <=? level_value Info)%Z then emit "info" msg l else l.
Definition log_warn (msg : string) (l : t) : t :=
  if (level_value (g_level l) <=? level_value Warn)%Z then emit "warn" msg l else l.
Definition log_error (msg : string) (l : t) : t := emit "error" msg l.

(** ** What is printed *)

(** A message with its severity, and the line it is printed as. *)
Inductive Message := message (severity : LogLevel) (text : string).

Definition tag_of (l : LogLevel) : string :=
  match l with Debug => "debug" | Info => "info" | Warn => "warn" | Error => "error" end.

Definition line_of (m : Message) : string :=
  let '(message s text) := m in "[" +:+ tag_of s +:+ "] " +:+ text +:+ lf.

(** The messages a level lets through: at least as severe as the level. *)
Definition passes (level : LogLevel) (m : Message) : bool :=
  let '(message s _) := m in (level_value level <=? level_value s)%Z.

(** The three functions as one; there is no function for debug messages. *)
Definition log (m : Message) (l : t) : t :=
  match m with
  | message Info text => log_info text l
  | message Warn text => log_warn text l
  | message Error text => log_error text l
  | message Debug _ => l
  end.

Definition can_log (m : Message) : bool :=
  let '(message s _) := m in negb (bool_decide (s = Debug)).

Lemma log_one m l :
  can_log m = true →
  log m l = mk (g_level l) (cerr l +:+ (if passes (g_level l) m then line_of m else "")).
Proof.
  intros Hm. destruct m as [s text], l as [level out]. unfold log, log_info, log_warn, log_error.
  destruct s, level; simpl in *; rewrite ?string_app_nil_r; done.
Qed.

(** The log is filtered by severity: under a level, the lines written for any
    messages are the lines of those at least as severe as the level, complete and
    in order; so a lower level prints a superset, errors are printed at every
    level, and logging never changes the level. *)
Theorem log_filters_by_severity (ms : list Message) (l : t) :
  forallb can_log ms = true →
  foldl (flip log) l ms =
  mk (g_level l) (cerr l +:+ foldr String.append "" (line_of <$> filter (λ m, passes (g_level l) m = true) ms)).
Proof.
  revert l. induction ms as [|m ms IH]; intros l Hl; cbn [foldl forallb] in *.
  { simpl. rewrite string_app_nil_r. by destruct l. }
  apply andb_true_iff in Hl as [Hm Hl]. rewrite IH by done. change (flip log l m) with (log m l).
  rewrite log_one by done.
  cbn [g_level cerr]. f_equal. rewrite <-string_app_assoc. f_equal.
  rewrite filter_cons. destruct (passes (g_level l) m) eqn:E.
  - by rewrite decide_True.
  - by rewrite decide_False.
Qed.

Lemma log_filters_by_severity_witness :
  cerr (foldl (flip log) (set_log_level Warn initial)
    [message Info "client connected"; message Warn "accept failed"; message Error "no listener"]) =
  "[warn] accept failed" +:+ lf +:+ "[error] no listener" +:+ lf.
Proof.
  rewrite (log_filters_by_severity
    [message Info "client connected"; message Warn "accept failed"; message Error "no listener"]
    (set_log_level Warn initial)); reflexivity.
Defined.

(** Names of levels are read back; every other name, and a missing one, means [Info]. *)
Lemma parse_level_tag l : parse_level (Some (tag_of l)) = l.
Proof. by destruct l. Qed.

End Logger.
