(* ===== verification/Binary32.v ===== *)
(** * The load-factor test, in single precision

    [HashTable::rehash_if_needed] converts the number of entries and the number
    of buckets to [float], divides, and compares with [0.75f].  The conversions
    and the division are those of IEEE 754 binary32 (24 bits of precision,
    exponents up to 128, round to nearest even), taken from the standard
    library's [SpecFloat].  The facts below show what the test decides: it is
    exact for fewer than [2^24] entries, and above that it still separates
    tables that are fuller than their buckets from tables at most half full. *)

From S2P Require Import Prelude.
From Stdlib Require Import SpecFloat.

Local Open Scope Z_scope.

(** [static_cast<float>(n)]. *)
Definition float_of_size (n : nat) : spec_float := binary_normalize 24 128 (Z.of_nat n) 0 false.

(** [max_load_factor_ = 0.75f]. *)
Definition max_load_factor : spec_float := S754_finite false 12582912 (-24).

(** [static_cast<float>(size) / static_cast<float>(buckets) <= max_load_factor_]. *)
Definition load_ok (size buckets : nat) : bool :=
  SFleb (SFdiv 24 128 (float_of_size size) (float_of_size buckets)) max_load_factor.

(** ** Digits and shifts *)

Lemma digits2_log2 p : Zpos (digits2_pos p) = Z.log2 (Zpos p) + 1.
Proof.
  induction p as [p IH|p IH|]; [| |done];
    cbn [digits2_pos]; rewrite Pos2Z.inj_succ, IH.
  - change (Z.pos p~1) with (2 * Z.pos p + 1). rewrite Z.log2_succ_double by lia. lia.
  - change (Z.pos p~0) with (2 * Z.pos p). rewrite Z.log2_double by lia. lia.
Qed.

Lemma digits2_bounds p d :
  0 < d → (Zpos (digits2_pos p) = d ↔ 2 ^ (d - 1) ≤ Zpos p < 2 ^ d).
Proof.
  intros Hd. rewrite digits2_log2. split.
  - intros H. pose proof (Z.log2_spec (Zpos p) ltac:(lia)).
    replace (Z.succ (Z.log2 (Zpos p))) with d in * by lia.
    replace (d - 1) with (Z.log2 (Zpos p)) by lia. lia.
  - intros H. rewrite (Z.log2_unique (Zpos p) (d - 1)); [lia|lia|].
    by replace (Z.succ (d - 1)) with d by lia.
Qed.

Lemma pos_iter_xO m q : Zpos (Pos.iter xO m q) = Zpos m * 2 ^ Zpos q.
Proof.
  induction q as [|q IH] using Pos.peano_ind; [simpl; lia|].
  rewrite Pos.iter_succ, Pos2Z.inj_succ, Z.pow_succ_r by lia.
  change (Z.pos (Pos.iter xO m q)~0) with (2 * Z.pos (Pos.iter xO m q)). lia.
Qed.

Lemma shr_1_m mrs : 0 ≤ shr_m mrs → shr_m (shr_1 mrs) = shr_m mrs / 2.
Proof.
  rewrite <-Z.div2_div. destruct mrs as [[|[]|] r s]; simpl; try done.
Qed.

Lemma iter_pos_shr_m p mrs :
  0 ≤ shr_m mrs → shr_m (iter_pos shr_1 p mrs) = shr_m mrs / 2 ^ Zpos p.
Proof.
  revert mrs. induction p as [p IH|p IH|]; intros mrs H; cbn [iter_pos].
  - assert (0 ≤ shr_m mrs / 2) by (apply Z.div_pos; lia).
    rewrite !IH; rewrite ?shr_1_m by done; rewrite ?IH; rewrite ?shr_1_m by done;
      try done; try (apply Z.div_pos; lia).
    rewrite !Z.div_div by lia. f_equal.
    replace (Z.pos p~1) with (1 + (Z.pos p + Z.pos p)) by lia. by rewrite !Z.pow_add_r by lia.
  - rewrite !IH; rewrite ?IH; try done; try (apply Z.div_pos; lia).
    rewrite !Z.div_div by lia. f_equal.
    replace (Z.pos p~0) with (Z.pos p + Z.pos p) by lia. by rewrite Z.pow_add_r by lia.
  - by rewrite shr_1_m.
Qed.

(** ** Conversion from an integer *)

Lemma shr_fexp_24 m e l :
  2 ^ 23 ≤ Zpos m < 2 ^ 24 → -149 ≤ e →
  shr_fexp 24 128 (Zpos m) e l = (shr_record_of_loc (Zpos m) l, e).
Proof.
  intros Hm He. apply (digits2_bounds m 24) in Hm; [|done].
  unfold shr_fexp, Zdigits2, fexp, emin. rewrite Hm.
  by replace (Z.max (24 + e - 24) (3 - 128 - 24) - e) with 0 by lia.
Qed.

(** One digit too many: the mantissa loses its last bit. *)
Lemma shr_fexp_25 m e :
  2 ^ 23 ≤ Zpos m < 2 ^ 24 → -149 ≤ e →
  shr_fexp 24 128 (Zpos (xO m)) e loc_Exact = (Build_shr_record (Zpos m) false false, e + 1).
Proof.
  intros Hm He.
  assert (Zpos (digits2_pos (xO m)) = 25) as Hd.
  { apply digits2_bounds; [done|]. change (Zpos (xO m)) with (2 * Zpos m). lia. }
  unfold shr_fexp, Zdigits2, fexp, emin. rewrite Hd.
  by replace (Z.max (25 + e - 24) (3 - 128 - 24) - e) with 1 by lia.
Qed.

(** A 24-bit mantissa with an exponent in range is already rounded. *)
Lemma round_aux_exact m e :
  2 ^ 23 ≤ Zpos m < 2 ^ 24 → -149 ≤ e ≤ 104 →
  binary_round_aux 24 128 false (Zpos m) e loc_Exact = S754_finite false m e.
Proof.
  intros Hm He. unfold binary_round_aux.
  rewrite shr_fexp_24 by lia. simpl. rewrite shr_fexp_24 by lia. simpl.
  destruct (Z.leb_spec e (128 - 24)); [done|lia].
Qed.

(** A 25-bit even mantissa is halved. *)
Lemma round_aux_even m e :
  2 ^ 23 ≤ Zpos m < 2 ^ 24 → -149 ≤ e ≤ 103 →
  binary_round_aux 24 128 false (Zpos (xO m)) e loc_Exact = S754_finite false m (e + 1).
Proof.
  intros Hm He. unfold binary_round_aux.
  rewrite shr_fexp_25 by lia. simpl. rewrite shr_fexp_24 by lia. simpl.
  destruct (Z.leb_spec (e + 1) (128 - 24)); [done|lia].
Qed.

(** Rounding a mantissa of more than 24 digits. *)
Lemma round_aux_long m d :
  Zpos (digits2_pos m) = d → 24 < d ≤ 100 →
  ∃ m' e', binary_round_aux 24 128 false (Zpos m) 0 loc_Exact = S754_finite false m' e' ∧
    2 ^ 23 ≤ Zpos m' < 2 ^ 24 ∧ (e' = d - 24 ∨ e' = d - 23 ∧ Zpos m' = 2 ^ 23).
Proof.
  intros Hd Hr.
  pose proof (proj1 (digits2_bounds m d ltac:(lia)) Hd) as Hm.
  unfold binary_round_aux. unfold shr_fexp at 1. unfold Zdigits2, fexp at 1, emin at 1.
  rewrite Hd. replace (Z.max (d + 0 - 24) (3 - 128 - 24) - 0) with (d - 24) by lia.
  destruct (d - 24) as [|q|q] eqn:Eq; [lia| |lia].
  cbn [shr shr_record_of_loc]. rewrite Z.add_0_l.
  set (mrs := iter_pos shr_1 q _).
  assert (2 ^ 23 ≤ shr_m mrs < 2 ^ 24) as Hq.
  { subst mrs. rewrite iter_pos_shr_m by (simpl; lia). cbn [shr_m].
    replace (d - 1) with (23 + Zpos q) in Hm by lia. replace d with (24 + Zpos q) in Hm by lia.
    rewrite !Z.pow_add_r in Hm by lia.
    split; [apply Z.div_le_lower_bound; lia|apply Z.div_lt_upper_bound; lia]. }
  assert (round_nearest_even (shr_m mrs) (loc_of_shr_record mrs) = shr_m mrs ∨
          round_nearest_even (shr_m mrs) (loc_of_shr_record mrs) = shr_m mrs + 1) as Hrr.
  { unfold round_nearest_even. repeat case_match; auto. }
  destruct (round_nearest_even _ _) as [|r|r]; [lia| |lia].
  destruct (decide (Zpos r < 2 ^ 24)) as [Hlt|Hge].
  - rewrite shr_fexp_24 by lia. simpl. exists r, (Zpos q).
    destruct (Z.leb_spec (Zpos q) (128 - 24)); [|lia]. split; [done|]. lia.
  - assert (r = xO (2 ^ 23)) as -> by lia.
    rewrite shr_fexp_25 by lia. cbn [shr_m]. exists (2 ^ 23)%positive, (Zpos q + 1).
    destruct (Z.leb_spec (Zpos q + 1) (128 - 24)); [|lia]. split; [done|]. lia.
Qed.

(** Converting an integer of [d] binary digits gives a 24-bit mantissa scaled
    by [2^(d-24)]: exactly the integer when it fits, and otherwise possibly
    rounded up to the next power of two. *)
Lemma normalize_spec m d :
  Zpos (digits2_pos m) = d → d ≤ 100 →
  ∃ m' e', binary_normalize 24 128 (Zpos m) 0 false = S754_finite false m' e' ∧
    2 ^ 23 ≤ Zpos m' < 2 ^ 24 ∧
    (e' = d - 24 ∧ (d ≤ 24 → Zpos m' = Zpos m * 2 ^ (24 - d)) ∨
     24 < d ∧ e' = d - 23 ∧ Zpos m' = 2 ^ 23).
Proof.
  intros Hd Hle. assert (0 < d) by lia.
  pose proof (proj1 (digits2_bounds m d ltac:(lia)) Hd) as Hm.
  unfold binary_normalize, binary_round, fexp, emin.
  rewrite Hd. replace (Z.max (d + 0 - 24) (3 - 128 - 24)) with (d - 24) by lia.
  unfold shl_align. rewrite Z.sub_0_r.
  destruct (d - 24) as [|q|q] eqn:Eq.
  - assert (d = 24) as -> by lia. exists m, 0.
    rewrite round_aux_exact by lia. split; [done|]. split; [lia|]. left. lia.
  - destruct (round_aux_long m d) as (m' & e' & -> & Hm' & He'); [done|lia|].
    exists m', e'. split; [done|]. split; [done|]. lia.
  - assert (2 ^ 23 ≤ Zpos (Pos.iter xO m q) < 2 ^ 24).
    { rewrite pos_iter_xO. replace d with (24 - Zpos q) in Hm by lia.
      replace (2 ^ 23) with (2 ^ (24 - Z.pos q - 1) * 2 ^ Z.pos q)
        by (rewrite <-Z.pow_add_r by lia; f_equal; lia).
      replace (2 ^ 24) with (2 ^ (24 - Z.pos q) * 2 ^ Z.pos q)
        by (rewrite <-Z.pow_add_r by lia; f_equal; lia). nia. }
    exists (Pos.iter xO m q), (Z.neg q). rewrite round_aux_exact by lia.
    split; [done|]. split; [done|]. left. split; [lia|].
    intros _. rewrite pos_iter_xO. do 2 f_equal. lia.
Qed.

(** ** Division by a power of two *)

Lemma float_of_pow2 k :
  (k < 100)%nat → float_of_size (2 ^ k) = S754_finite false (2 ^ 23) (Z.of_nat k - 23).
Proof.
  intros Hk. unfold float_of_size. rewrite Nat2Z.inj_pow. change (Z.of_nat 2) with 2.
  do 100 (destruct k as [|k]; [vm_compute; reflexivity|]). lia.
Qed.

Lemma SFdiv_pow2 m e k :
  2 ^ 23 ≤ Zpos m < 2 ^ 24 → -23 ≤ e ≤ 100 → 0 ≤ k < 100 →
  SFdiv 24 128 (S754_finite false m e) (S754_finite false (2 ^ 23) (k - 23)) =
  S754_finite false m (e - k).
Proof.
  intros Hm He Hk. unfold SFdiv, SFdiv_core_binary, Zdigits2.
  pose proof (proj2 (digits2_bounds m 24 ltac:(lia)) Hm) as Hd. rewrite Hd.
  change (Z.pos (digits2_pos (2 ^ 23))) with 24. unfold fexp, emin.
  replace (Z.min _ _) with (e - k - 1) by lia.
  replace (e - (k - 23) - (e - k - 1)) with 24 by lia.
  rewrite Z.shiftl_mul_pow2 by lia.
  assert (Z.div_eucl (Zpos m * 2 ^ 24) (Zpos (2 ^ 23)) = (Zpos (xO m), 0)) as ->.
  { pose proof (Z_div_mod (Zpos m * 2 ^ 24) (Zpos (2 ^ 23)) ltac:(lia)) as Hdm.
    destruct (Z.div_eucl _ _) as [a b].
    change (Zpos (xO m)) with (2 * Zpos m). f_equal; lia. }
  change (new_location (Z.pos (2 ^ 23)) 0) with loc_Exact. simpl xorb.
  rewrite round_aux_even by lia. f_equal. lia.
Qed.

(** ** What the test decides *)

Lemma load_ok_finite s k m e :
  float_of_size s = S754_finite false m e →
  2 ^ 23 ≤ Zpos m < 2 ^ 24 → -23 ≤ e ≤ 100 → (k < 100)%nat →
  load_ok s (2 ^ k) = true ↔
  e - Z.of_nat k < -24 ∨ e - Z.of_nat k = -24 ∧ Zpos m ≤ 12582912.
Proof.
  intros Hs Hm He Hk. unfold load_ok. rewrite Hs, float_of_pow2, SFdiv_pow2 by lia.
  unfold SFleb, SFcompare, max_load_factor.
  destruct (Z.compare_spec (e - Z.of_nat k) (-24)) as [Heq| |]; [|split; [lia|done]|split; [done|lia]].
  assert (∀ n, Pos.compare_cont Eq m n = (m ?= n)%positive) as Hc by done.
  rewrite Hc. clear Hc. generalize 12582912%positive as n. intros n.
  destruct (Pos.compare_spec m n); split; try done; lia.
Qed.

Lemma load_ok_zero k : (k < 100)%nat → load_ok 0 (2 ^ k) = true.
Proof. intros Hk. unfold load_ok. by rewrite float_of_pow2. Qed.

Lemma of_nat_digits s :
  (0 < s)%nat → ∃ p d, Z.of_nat s = Zpos p ∧ Zpos (digits2_pos p) = d ∧ 0 < d ∧
    2 ^ (d - 1) ≤ Z.of_nat s < 2 ^ d.
Proof.
  intros Hs. destruct (Z.of_nat s) as [|p|p] eqn:E; [lia| |lia].
  exists p, (Zpos (digits2_pos p)). split; [done|]. split; [done|]. split; [done|].
  by apply digits2_bounds.
Qed.

(** Up to [2^24] entries the test decides the real quotient. *)
Lemma load_ok_exact s k :
  Z.of_nat s < 2 ^ 24 → (k < 100)%nat →
  load_ok s (2 ^ k) = true ↔ 4 * Z.of_nat s ≤ 3 * 2 ^ Z.of_nat k.
Proof.
  intros Hs Hk. destruct (decide (s = 0%nat)) as [->|Hs0].
  { rewrite load_ok_zero by done. split; [lia|done]. }
  destruct (of_nat_digits s ltac:(lia)) as (p & d & Hp & Hd & Hd0 & Hb).
  assert (d ≤ 24).
  { destruct (decide (d ≤ 24)); [done|].
    pose proof (Z.pow_le_mono_r 2 24 (d - 1)). lia. }
  destruct (normalize_spec p d Hd ltac:(lia)) as (m & e & Hf & Hm & [[He Hv]|]); [|lia].
  rewrite <-Hp in Hf. rewrite (load_ok_finite s k m e Hf) by lia.
  specialize (Hv ltac:(lia)). rewrite <-Hp in Hv.
  set (K := Z.of_nat k) in *. destruct (Z.lt_trichotomy d K) as [Hlt|[Heq|Hgt]].
  - pose proof (Z.pow_le_mono_r 2 d (K - 1)).
    assert (2 ^ K = 2 * 2 ^ (K - 1)) by (rewrite <-Z.pow_succ_r by lia; f_equal; lia). lia.
  - rewrite Heq in *. assert (2 ^ 24 = 2 ^ K * 2 ^ (24 - K)).
    { rewrite <-Z.pow_add_r by lia. f_equal. lia. }
    rewrite (Z.mul_le_mono_pos_r (4 * Z.of_nat s) (3 * 2 ^ K) (2 ^ (24 - K))) by lia. lia.
  - pose proof (Z.pow_le_mono_r 2 K (d - 1)). lia.
Qed.

(** A non-empty table's size as a float, with the bounds of its exponent. *)
Lemma float_of_size_bounds s :
  (0 < s)%nat → Z.of_nat s < 2 ^ 99 →
  ∃ m e d, float_of_size s = S754_finite false m e ∧ 2 ^ 23 ≤ Zpos m < 2 ^ 24 ∧
    0 < d ≤ 99 ∧ 2 ^ (d - 1) ≤ Z.of_nat s < 2 ^ d ∧
    (e = d - 24 ∨ e = d - 23 ∧ Zpos m = 2 ^ 23).
Proof.
  intros Hs Hb. destruct (of_nat_digits s Hs) as (p & d & Hp & Hd & Hd0 & Hr).
  assert (d ≤ 99).
  { destruct (decide (d ≤ 99)); [done|]. pose proof (Z.pow_le_mono_r 2 99 (d - 1)). lia. }
  destruct (normalize_spec p d Hd ltac:(lia)) as (m & e & Hf & Hm & He).
  exists m, e, d. unfold float_of_size. rewrite Hp. split; [done|]. lia.
Qed.

(** A table that passes the test has fewer entries than buckets. *)
Lemma load_ok_lt s k :
  load_ok s (2 ^ k) = true → (k < 100)%nat → Z.of_nat s < 2 ^ 99 →
  Z.of_nat s < 2 ^ Z.of_nat k.
Proof.
  intros Hok Hk Hb. destruct (decide (s = 0%nat)) as [->|]; [simpl; lia|].
  destruct (float_of_size_bounds s) as (m & e & d & Hf & Hm & Hd & Hr & He); [lia|done|].
  rewrite (load_ok_finite s k m e) in Hok by (done || lia).
  assert (d ≤ Z.of_nat k) by lia.
  pose proof (Z.pow_le_mono_r 2 d (Z.of_nat k)). lia.
Qed.

(** A table at most half full passes the test. *)
Lemma load_ok_half s k :
  Z.of_nat s ≤ 2 ^ Z.of_nat k → (k < 99)%nat → load_ok s (2 ^ S k) = true.
Proof.
  intros Hs Hk. destruct (decide (s = 0%nat)) as [->|]; [apply load_ok_zero; lia|].
  pose proof (Z.pow_le_mono_r 2 (Z.of_nat k) 98).
  destruct (float_of_size_bounds s) as (m & e & d & Hf & Hm & Hd & Hr & He); [lia|lia|].
  rewrite (load_ok_finite s (S k) m e) by (done || lia).
  assert (d ≤ Z.of_nat k ∨ Z.of_nat s = 2 ^ Z.of_nat k) as [|Heq].
  { destruct (decide (d ≤ Z.of_nat k)); [by left|right].
    pose proof (Z.pow_le_mono_r 2 (Z.of_nat k) (d - 1)). lia. }
  - lia.
  - assert (s = (2 ^ k)%nat) as -> by (apply Nat2Z.inj; rewrite Nat2Z.inj_pow; done).
    rewrite float_of_pow2 in Hf by lia. simplify_eq. right. lia.
Qed.

#[export] Hint Resolve load_ok_lt load_ok_half : volt.
