(* ===== verification/Doubles.v ===== *)
(** * Doubles and their decimal text

    Positive [double] values as rationals: the nearest value with 53 significant bits
    to a quotient, and the text that [std::ostream << d] prints with its default
    precision of six significant digits.  The values of the program are counts,
    durations and their quotients, far inside the range of exponents. *)

From Stdlib Require Import QArith Qabs Qpower Qround Lqa.
From S2P Require Import Prelude CppStd.

Local Open Scope Q_scope.

(** The nearest integer, ties to even. *)
Definition rne (x : Q) : Z :=
  let q := Qfloor x in
  let r := x - inject_Z q in
  match Qcompare r (1 # 2) with
  | Lt => q
  | Gt => (q + 1)%Z
  | Eq => if Z.even q then q else (q + 1)%Z
  end.

(** The exponent of the binade of a positive number. *)
Definition ilog2 (x : Q) : Z :=
  let k := (Z.log2 (Qnum x) - Z.log2 (Zpos (Qden x)))%Z in
  if Qle_bool (2 ^ k) x then k else (k - 1)%Z.

(** The [double] nearest to a number that is not negative. *)
Definition to_double (x : Q) : Q :=
  if Qeq_bool x 0 then 0
  else let u := 2 ^ (ilog2 x - 52) in Qred (inject_Z (rne (x / u)) * u).

(** The decimal exponent, searched from [X] on. *)
Fixpoint ilog10_from (fuel : nat) (X : Z) (x : Q) : Z :=
  match fuel with
  | O => X
  | S fuel' => if Qle_bool (10 ^ (X + 1)) x then ilog10_from fuel' (X + 1) x else X
  end.

Definition ilog10 (x : Q) : Z := ilog10_from 100 (-40) x.

(** Six significant digits and the exponent of the first. *)
Definition six_digits (x : Q) : Z * Z :=
  let X := ilog10 x in
  let D := rne (x / 10 ^ (X - 5)) in
  if (D =? 1000000)%Z then (100000%Z, (X + 1)%Z) else (D, X).

Fixpoint strip_trailing (s : string) : string :=
  match s with
  | "" => ""
  | String c s' =>
      match strip_trailing s' with
      | "" => if Ascii.eqb c "0"%char then "" else String c ""
      | t => String c t
      end
  end.

Definition with_fraction (whole fraction : string) : string :=
  let f := strip_trailing fraction in
  if (f =? "")%string then whole else whole +:+ "." +:+ f.

Fixpoint zeros (n : nat) : string := match n with O => "" | S n' => String "0"%char (zeros n') end.

(** The digits laid out: in scientific notation for exponents below -4 and from 6 on. *)
Definition layout (D X : Z) : string :=
  let digits := print_N (Z.to_N D) in
  if (X <? -4)%Z || (6 <=? X)%Z then
    with_fraction (str_take 1 digits) (str_drop 1 digits) +:+ (if (X <? 0)%Z then "e-" else "e+") +:+
    (if (Z.abs X <? 10)%Z then "0" else "") +:+ print_N (Z.to_N (Z.abs X))
  else if (X <? 0)%Z then with_fraction "0" (zeros (Z.to_nat (- X - 1)) +:+ digits)
  else with_fraction (str_take (Z.to_nat X + 1) digits) (str_drop (Z.to_nat X + 1) digits).

(** [out << x]. *)
Definition double_text (x : Q) : string :=
  if Qeq_bool x 0 then "0" else let '(D, X) := six_digits x in layout D X.

Example texts :
  double_text <$> [0; 1; 10000; 1234567 # 1; 1 # 3; 12 # 10; to_double (1 # 10); 5 # 100000; 999999499 # 1000;
    9999995 # 10; 123456 # 10000000000] =
  ["0"; "1"; "10000"; "1.23457e+06"; "0.333333"; "1.2"; "0.1"; "5e-05"; "999999"; "1e+06"; "1.23456e-05"].
Proof. vm_compute. reflexivity. Qed.

(** ** Rounding to an integer *)

Lemma rne_spec x : Qabs (inject_Z (rne x) - x) <= 1 # 2.
Proof.
  pose proof (Qfloor_le x) as Hl. pose proof (Qlt_floor x) as Hu. rewrite inject_Z_plus in Hu. unfold rne.
  apply Qabs_Qle_condition.
  destruct (Qcompare_spec (x - inject_Z (Qfloor x)) (1 # 2)) as [He|He|He]; [destruct (Z.even _)|..];
    rewrite ?inject_Z_plus; change (inject_Z 1) with 1 in *; split; lra.
Qed.

Lemma rne_int n : rne (inject_Z n) = n.
Proof.
  unfold rne. rewrite Qfloor_Z. destruct (Qcompare_spec (inject_Z n - inject_Z n) (1 # 2)) as [He|He|He]; [lra|done|lra].
Qed.

Lemma rne_mono x y : x <= y → (rne x ≤ rne y)%Z.
Proof.
  intros Hxy. pose proof (Qfloor_le x) as Hlx. pose proof (Qlt_floor x) as Hux. pose proof (Qfloor_le y) as Hly.
  pose proof (Qlt_floor y) as Huy. rewrite inject_Z_plus in Hux, Huy. change (inject_Z 1) with 1 in *.
  pose proof (Qfloor_resp_le x y Hxy) as Hf.
  assert (Qfloor x = Qfloor y ∨ (Qfloor x + 1 ≤ Qfloor y)%Z) as [He|Hlt] by lia; unfold rne.
  - rewrite He in *. set (q := Qfloor y) in *.
    destruct (Qcompare_spec (x - inject_Z q) (1 # 2)), (Qcompare_spec (y - inject_Z q) (1 # 2)); destruct (Z.even q); try lia; exfalso; lra.
  - destruct (Qcompare (x - _) _), (Qcompare (y - _) _); destruct (Z.even (Qfloor x)), (Z.even (Qfloor y)); lia.
Qed.

(** ** Exponents *)

Lemma pow2_pos k : 0 < 2 ^ k.
Proof. by apply Qpower_0_lt. Qed.
Lemma pow10_pos k : 0 < 10 ^ k.
Proof. by apply Qpower_0_lt. Qed.

Lemma pow_succ a k : ~ a == 0 → a ^ (k + 1) == a ^ k * a.
Proof. intros Ha. rewrite Qpower_plus by done. by rewrite Qpower_1_r. Qed.

Lemma ilog2_spec x : 0 < x → 2 ^ ilog2 x <= x < 2 ^ (ilog2 x + 1).
Proof.
  intros Hx. assert (0 < Qnum x)%Z as Hn by (unfold Qlt in Hx; simpl in Hx; lia).
  set (n := Qnum x) in *. set (d := Zpos (Qden x)).
  assert (0 < d)%Z as Hd by done. unfold ilog2. fold n d. set (k := (Z.log2 n - Z.log2 d)%Z).
  assert (x * inject_Z d == inject_Z n) as Hxd by (unfold Qeq, n, d; destruct x; simpl; lia).
  destruct (Z.log2_spec n Hn) as [Hn1 Hn2], (Z.log2_spec d Hd) as [Hd1 Hd2].
  assert (∀ z, (0 < z)%Z → 2 ^ Z.log2 z <= inject_Z z /\ inject_Z z < 2 ^ Z.log2 z * 2) as Hlog.
  { intros z Hz. destruct (Z.log2_spec z Hz) as [Hz1 Hz2]. pose proof (Z.log2_nonneg z).
    assert (inject_Z (2 ^ Z.log2 z) == 2 ^ Z.log2 z) as Hp by (by apply Zpower_Qpower).
    rewrite <-Hp. rewrite Z.pow_succ_r in Hz2 by done. split; [by rewrite <-Zle_Qle|].
    change 2 with (inject_Z 2). rewrite <-inject_Z_mult, <-Zlt_Qlt. lia. }
  destruct (Hlog n Hn) as [HnA HnB], (Hlog d Hd) as [HdA HdB].
  assert (2 ^ Z.log2 n == 2 ^ k * 2 ^ Z.log2 d) as HA.
  { rewrite <-Qpower_plus by done. unfold k. by replace (Z.log2 n - Z.log2 d + Z.log2 d)%Z with (Z.log2 n) by lia. }
  pose proof (pow2_pos k) as Hk. pose proof (pow2_pos (Z.log2 d)) as Hb.
  set (P := 2 ^ k) in *. set (B := 2 ^ Z.log2 d) in *. set (A := 2 ^ Z.log2 n) in *. set (dq := inject_Z d) in *.
  assert (0 < dq) as Hdq by lra.
  assert (x < P * 2) as Hup by (apply (Qmult_lt_r _ _ dq Hdq); nra).
  assert (P < x * 2) as Hlo by (apply (Qmult_lt_r _ _ dq Hdq); nra).
  destruct (Qle_bool P x) eqn:E.
  - apply Qle_bool_iff in E. split; [done|]. rewrite pow_succ by done. done.
  - assert (x < P) as Hxp. { apply Qnot_le_lt. intros Hle. apply Qle_bool_iff in Hle. congruence. }
    replace (k - 1 + 1)%Z with k by lia. split; [|done].
    assert (2 ^ (k - 1) * 2 == P) as Hh. { rewrite <-pow_succ by done. by replace (k - 1 + 1)%Z with k by lia. }
    lra.
Qed.

Lemma ilog10_spec x : 10 ^ (-40) <= x → x < 10 ^ 60 → 10 ^ ilog10 x <= x < 10 ^ (ilog10 x + 1).
Proof.
  unfold ilog10. intros Hl Hu. change 60%Z with (-40 + Z.of_nat 100)%Z in Hu. revert Hl Hu.
  generalize 100%nat, (-40)%Z. intros fuel. induction fuel as [|fuel IH]; intros X Hl Hu.
  - exfalso. rewrite Z.add_0_r in Hu. lra.
  - cbn [ilog10_from]. destruct (Qle_bool (10 ^ (X + 1)) x) eqn:E.
    + apply Qle_bool_iff in E. apply IH; [done|]. by replace (X + 1 + Z.of_nat fuel)%Z with (X + Z.of_nat (S fuel))%Z by lia.
    + split; [done|]. apply Qnot_le_lt. intros Hle. apply Qle_bool_iff in Hle. congruence.
Qed.

(** ** The nearest double *)

Lemma Qeq_bool_pos x : 0 < x → Qeq_bool x 0 = false.
Proof. intros Hx. apply not_true_iff_false. intros E%Qeq_bool_iff. lra. Qed.

(** The mantissa of a positive number has 53 bits. *)
Lemma mantissa x :
  0 < x → let u := 2 ^ (ilog2 x - 52) in
  0 < u /\ to_double x == inject_Z (rne (x / u)) * u /\ inject_Z (2 ^ 52) * u == 2 ^ ilog2 x /\
  inject_Z (2 ^ 52) <= x / u /\ x / u < inject_Z (2 ^ 53).
Proof.
  intros Hx u. pose proof (pow2_pos (ilog2 x - 52)) as Hu. fold u in Hu. destruct (ilog2_spec x Hx) as [Hl Hh].
  assert (inject_Z (2 ^ 52) * u == 2 ^ ilog2 x) as He.
  { change (inject_Z (2 ^ 52)) with (2 ^ 52). unfold u. rewrite <-Qpower_plus by done.
    by replace (52 + (ilog2 x - 52))%Z with (ilog2 x) by lia. }
  rewrite pow_succ in Hh by done.
  split; [done|]. split; [unfold to_double; rewrite Qeq_bool_pos by done; apply Qred_correct|]. split; [done|]. split.
  - apply Qle_shift_div_l; [done|]. lra.
  - apply Qlt_shift_div_r; [done|]. change (2 ^ 53)%Z with (2 ^ 52 * 2)%Z. rewrite inject_Z_mult. change (inject_Z 2) with 2. lra.
Qed.

Lemma to_double_close x : 0 < x → Qabs (to_double x - x) <= x * (1 # 9007199254740992).
Proof.
  intros Hx. destruct (mantissa x Hx) as (Hu & -> & He & Hl & _). set (u := 2 ^ (ilog2 x - 52)) in *.
  pose proof (rne_spec (x / u)) as Hr. set (r := inject_Z (rne (x / u))) in *.
  assert (x == x / u * u) as Hxu by (field; lra). apply Qabs_Qle_condition in Hr as [Hr1 Hr2].
  set (y := x / u) in *. change (inject_Z (2 ^ 52)) with (4503599627370496 # 1) in *.
  apply Qabs_Qle_condition. rewrite Hxu. split; nra.
Qed.

Lemma to_double_pos x : 0 < x → 0 < to_double x.
Proof. intros Hx. pose proof (to_double_close x Hx) as Hc. apply Qabs_Qle_condition in Hc as [H1 H2]. lra. Qed.

(** Conversion keeps the order. *)
Lemma to_double_mono x y : 0 <= x → x <= y → to_double x <= to_double y.
Proof.
  intros Hx Hxy. destruct (Qlt_le_dec 0 x) as [Hp|Hz].
  2: { assert (x == 0) as E by lra. unfold to_double at 1. rewrite (proj2 (Qeq_bool_iff x 0) E).
    destruct (Qlt_le_dec 0 y) as [Hy|Hy]; [apply Qlt_le_weak; by apply to_double_pos|].
    unfold to_double. rewrite (proj2 (Qeq_bool_iff y 0)) by lra. lra. }
  destruct (mantissa x Hp) as (Hu & -> & He & Hl & Hh), (mantissa y ltac:(lra)) as (Hu' & -> & He' & Hl' & Hh').
  set (u := 2 ^ (ilog2 x - 52)) in *. set (w := 2 ^ (ilog2 y - 52)) in *.
  destruct (Z.eq_dec (ilog2 x) (ilog2 y)) as [E|Hne].
  - assert (u = w) as Huw by (unfold u, w; by rewrite E). rewrite <-Huw in *. apply Qmult_le_compat_r; [|lra].
    rewrite <-Zle_Qle. apply rne_mono. unfold Qdiv. apply Qmult_le_compat_r; [done|]. apply Qlt_le_weak, Qinv_lt_0_compat. done.
  - assert (ilog2 x + 1 ≤ ilog2 y)%Z as Hlt.
    { destruct (ilog2_spec x Hp) as [H1 _], (ilog2_spec y ltac:(lra)) as [_ H2].
      destruct (Z.le_gt_cases (ilog2 x + 1) (ilog2 y)) as [|Hgt]; [done|]. exfalso.
      assert (2 ^ (ilog2 y + 1) <= 2 ^ ilog2 x) as Hm by (apply Qpower_le_compat_l; [lia|lra]). lra. }
    assert (2 ^ (ilog2 x + 1) <= 2 ^ ilog2 y) as Hm by (apply Qpower_le_compat_l; [lia|lra]). rewrite pow_succ in Hm by done.
    assert (rne (x / u) ≤ 2 ^ 53)%Z as Hr1.
    { rewrite <-(rne_int (2 ^ 53)). apply rne_mono. lra. }
    assert (2 ^ 52 ≤ rne (y / w))%Z as Hr2.
    { rewrite <-(rne_int (2 ^ 52)). by apply rne_mono. }
    rewrite Zle_Qle in Hr1, Hr2. change (inject_Z (2 ^ 53)) with (2 * inject_Z (2 ^ 52)) in Hr1. nra.
Qed.

(** ** Six digits *)

Lemma six_digits_spec x :
  10 ^ (-40) <= x → x < 10 ^ 60 →
  let '(D, X) := six_digits x in
  (10 ^ 5 ≤ D < 10 ^ 6)%Z /\ Qabs (inject_Z D * 10 ^ (X - 5) - x) <= x * (5 # 1000000).
Proof.
  intros Hl Hu. destruct (ilog10_spec x Hl Hu) as [H1 H2]. unfold six_digits. set (X := ilog10 x) in *.
  pose proof (pow10_pos (X - 5)) as Hp. set (v := 10 ^ (X - 5)) in *.
  assert (10 ^ X == inject_Z (10 ^ 5) * v) as Hv.
  { change (inject_Z (10 ^ 5)) with (10 ^ 5). unfold v. rewrite <-Qpower_plus by done. by replace (5 + (X - 5))%Z with X by lia. }
  rewrite pow_succ, Hv in H2 by done. rewrite Hv in H1. assert (x == x / v * v) as Hx by (field; lra).
  pose proof (rne_spec (x / v)) as Hr.
  assert (inject_Z (10 ^ 5) <= x / v) as Hlo by (by apply Qle_shift_div_l).
  assert (x / v <= inject_Z (10 ^ 6)) as Hhi.
  { apply Qle_shift_div_r; [done|]. change (inject_Z (10 ^ 6)) with (inject_Z (10 ^ 5) * 10). lra. }
  apply rne_mono in Hlo as HD1. apply rne_mono in Hhi as HD2. rewrite rne_int in HD1, HD2.
  assert (Qabs (inject_Z (rne (x / v)) * v - x) <= x * (5 # 1000000)) as Hclose.
  { set (r := inject_Z (rne (x / v))) in *. set (y := x / v) in *. apply Qabs_Qle_condition in Hr as [Hr1 Hr2].
    change (inject_Z (10 ^ 5)) with 100000 in *. apply Qabs_Qle_condition. rewrite Hx. split; nra. }
  destruct (Z.eqb_spec (rne (x / v)) 1000000) as [E|Hne]; [|split; [lia|done]].
  split; [lia|]. rewrite E in Hclose.
  assert (inject_Z 100000 * 10 ^ (X + 1 - 5) == inject_Z 1000000 * v) as ->; [|done].
  replace (X + 1 - 5)%Z with (X - 5 + 1)%Z by lia. rewrite pow_succ by done. fold v. change (inject_Z 1000000) with (inject_Z 100000 * 10). ring.
Qed.

(** ** Durations and rates *)

(** [static_cast<double>(n)] for a count. *)
Definition double_of (n : Z) : Q := to_double (inject_Z n).

(** A [std::chrono::duration] of nanoseconds in seconds and in milliseconds. *)
Definition seconds (ns : Z) : Q := to_double (double_of ns / 1000000000).
Definition milliseconds (ns : Z) : Q := to_double (double_of ns / 1000000).

(** Operations per second; [None] is infinity, the quotient of a positive count by zero. *)
Definition rate (operations ns : Z) : option Q :=
  if (ns =? 0)%Z then None else Some (to_double (double_of operations / seconds ns)).

Definition rate_text (r : option Q) : string := match r with Some q => double_text q | None => "inf" end.

(** The text of a count that is held in a [double]. *)
Definition count_text (n : N) : string := double_text (double_of (Z.of_N n)).

Lemma milliseconds_mono x y : (0 ≤ x ≤ y)%Z → milliseconds x <= milliseconds y.
Proof.
  intros [Hx Hxy]. rewrite Zle_Qle in Hx, Hxy. change (inject_Z 0) with 0 in Hx.
  assert (0 <= double_of x) as H0. { change 0 with (to_double 0). apply to_double_mono; lra. }
  apply to_double_mono; [apply Qle_shift_div_l; lra|]. unfold Qdiv. apply Qmult_le_compat_r; [|done].
  by apply to_double_mono.
Qed.

(** The quotient of two numbers with small relative errors. *)
Lemma quotient_close w t r ops s e :
  0 < s → 0 < t → 0 < ops →
  Qabs (w - ops) <= ops * (1 # 9007199254740992) → Qabs (t - s) <= s * (3 # 9007199254740992) →
  r * t == w → e * s == ops → Qabs (r - e) <= e * (5 # 9007199254740992).
Proof.
  intros Hs Ht Ho Hw Hts Hr He. apply Qabs_Qle_condition in Hw as [Hw1 Hw2], Hts as [Ht1 Ht2].
  set (c := 1 # 9007199254740992) in *. assert (0 < e) as Hep by (apply (Qmult_lt_r _ _ s Hs); lra).
  assert (0 < r) as Hrp by (apply (Qmult_lt_r _ _ t Ht); unfold c in *; lra).
  assert (r * (1 - 3 * c) <= e * (1 + c)) as Hu. { apply (Qmult_le_r _ _ s Hs). unfold c in *. nra. }
  assert (e * (1 - c) <= r * (1 + 3 * c)) as Hl. { apply (Qmult_le_r _ _ s Hs). unfold c in *. nra. }
  unfold c in *. apply Qabs_Qle_condition. split; lra.
Qed.

Lemma rate_close ops ns :
  (0 < ops)%Z → (0 < ns)%Z →
  ∃ q, rate ops ns = Some q /\
    Qabs (q - inject_Z ops * 1000000000 / inject_Z ns) <= inject_Z ops * 1000000000 / inject_Z ns * (7 # 9007199254740992).
Proof.
  intros Hops Hns. unfold rate. destruct (Z.eqb_spec ns 0) as [|_]; [lia|]. eexists. split; [done|].
  rewrite Zlt_Qlt in Hops, Hns. change (inject_Z 0) with 0 in *. unfold seconds, double_of.
  set (n := inject_Z ns) in *. set (o := inject_Z ops) in *. set (s := n / 1000000000).
  assert (n == s * 1000000000) as Hn by (unfold s; field). assert (0 < s) as Hs by lra.
  pose proof (to_double_close n Hns) as H1. pose proof (to_double_close o Hops) as H2.
  pose proof (to_double_pos n Hns) as P1. pose proof (to_double_pos o Hops) as P2.
  set (N := to_double n) in *. set (W := to_double o) in *. set (t := N / 1000000000).
  assert (N == t * 1000000000) as HN by (unfold t; field). assert (0 < t) as Ht by lra.
  pose proof (to_double_close t Ht) as H3. pose proof (to_double_pos t Ht) as P3. set (T := to_double t) in *.
  assert (0 < W / T) as Hr by (apply Qlt_shift_div_l; lra).
  pose proof (to_double_close (W / T) Hr) as H4. set (r := W / T) in *.
  assert (r * T == W) as HrT by (unfold r; field; lra). set (e := o * 1000000000 / n).
  assert (e * s == o) as He by (unfold e, s; field; lra).
  assert (Qabs (T - s) <= s * (3 # 9007199254740992)) as H5.
  { apply Qabs_Qle_condition in H1 as [A1 A2], H3 as [B1 B2]. apply Qabs_Qle_condition. split; lra. }
  pose proof (quotient_close W T r o s e Hs P3 Hops H2 H5 HrT He) as H6. assert (0 < e) by (apply (Qmult_lt_r _ _ s Hs); lra).
  apply Qabs_Qle_condition in H6 as [A1 A2], H4 as [B1 B2]. apply Qabs_Qle_condition. split; lra.
Qed.

(** C28: the printed rate is right to its last digit: for a positive count of operations
    and a positive time of less than [2^63] nanoseconds, the number that is printed,
    six digits and an exponent after two conversions and two divisions in double
    precision, differs from the exact number of operations per second by at most 5.01
    millionths of it. *)
Theorem rate_printed_accurately ops ns :
  (0 < ops < 2 ^ 63)%Z → (0 < ns < 2 ^ 63)%Z →
  ∃ q, rate ops ns = Some q /\
    let '(D, X) := six_digits q in
    rate_text (rate ops ns) = layout D X /\ (10 ^ 5 ≤ D < 10 ^ 6)%Z /\
    let exact := inject_Z ops * 1000000000 / inject_Z ns in
    Qabs (inject_Z D * 10 ^ (X - 5) - exact) <= exact * (501 # 100000000).
Proof.
  intros Ho Hn. destruct (rate_close ops ns) as (q & Hq & Hc); [lia..|]. exists q. split; [done|]. rewrite Hq.
  destruct Ho as [Ho1 Ho2], Hn as [Hn1 Hn2]. rewrite Zlt_Qlt in Ho2, Hn1, Hn2. assert (1 ≤ ops)%Z as Ho3 by lia.
  assert (1 ≤ ns)%Z as Hn3 by (rewrite <-Zlt_Qlt in Hn1; lia). rewrite Zle_Qle in Ho3, Hn3. change (inject_Z 1) with 1 in *.
  change (inject_Z 0) with 0 in *. change (inject_Z (2 ^ 63)) with (9223372036854775808 # 1) in *.
  set (e := inject_Z ops * 1000000000 / inject_Z ns) in *.
  assert (e * inject_Z ns == inject_Z ops * 1000000000) as He by (unfold e; field; lra).
  set (n := inject_Z ns) in *. set (o := inject_Z ops) in *.
  assert (1 # 10000000000 <= e) as Hlo by (apply (Qmult_le_r _ _ n ltac:(lra)); lra).
  assert (e <= 9223372036854775808000000000 # 1) as Hhi by (apply (Qmult_le_r _ _ n ltac:(lra)); lra).
  apply Qabs_Qle_condition in Hc as [C1 C2].
  assert (10 ^ (-40) <= q) as Hq1 by (change (10 ^ (-40)) with (1 # 10000000000000000000000000000000000000000); lra).
  assert (q < 10 ^ 60) as Hq2 by (change (10 ^ 60) with (1000000000000000000000000000000000000000000000000000000000000 # 1); lra).
  pose proof (six_digits_spec q Hq1 Hq2) as Hd. unfold rate_text, double_text. rewrite Qeq_bool_pos by lra.
  destruct (six_digits q) as [D X]. destruct Hd as [HD Hx]. split; [done|]. split; [done|].
  apply Qabs_Qle_condition in Hx as [X1 X2]. apply Qabs_Qle_condition. split; lra.
Qed.

Lemma rate_printed_accurately_witness :
  rate_text (rate 10000 3333333) = "3e+06" ∧
  ∃ q, rate 10000 3333333 = Some q /\
    let '(D, X) := six_digits q in
    rate_text (rate 10000 3333333) = layout D X /\ (10 ^ 5 ≤ D < 10 ^ 6)%Z /\
    let exact := inject_Z 10000 * 1000000000 / inject_Z 3333333 in
    Qabs (inject_Z D * 10 ^ (X - 5) - exact) <= exact * (501 # 100000000).
Proof. split; [vm_compute; reflexivity|]. apply rate_printed_accurately; lia. Defined.
