(* ===== verification/Memory.v ===== *)
(** * Memory management (src/memory, include/voltdbx/memory)

    [ArenaAllocator] hands out aligned ranges of its last block and adds a block
    when the range does not fit; [BufferPool] keeps a stack of free fixed-size
    blocks carved out of slabs; [StringPool] copies a string through a pooled
    block.  An address is a slab (or block) index with a byte offset, so that
    ranges in different allocations never overlap.  Sizes are 64-bit unsigned
    integers, written as [Z] with the wrap-around of the alignment computation
    explicit. *)

From S2P Require Import Prelude CppStd.

Local Open Scope Z_scope.

(** A range of bytes: allocation index, first byte, number of bytes. *)
Record Region := { r_slab : nat; r_off : Z; r_len : Z }.

#[global] Instance Region_eq_dec : EqDecision Region.
Proof. solve_decision. Defined.

Definition disjoint_regions (r1 r2 : Region) : Prop :=
  r_slab r1 ≠ r_slab r2 ∨ r_off r1 + r_len r1 ≤ r_off r2 ∨ r_off r2 + r_len r2 ≤ r_off r1.

(** All ranges of a list are pairwise disjoint. *)
Definition pairwise_disjoint (rs : list Region) : Prop := ForallOrdPairs disjoint_regions rs.

Lemma disjoint_regions_sym r1 r2 : disjoint_regions r1 r2 → disjoint_regions r2 r1.
Proof. unfold disjoint_regions. intuition lia. Qed.

Lemma pairwise_disjoint_cons r rs :
  pairwise_disjoint (r :: rs) ↔ (∀ r', r' ∈ rs → disjoint_regions r r') ∧ pairwise_disjoint rs.
Proof.
  unfold pairwise_disjoint. rewrite <-list.Forall_forall. split; [by inversion 1|].
  intros []; by constructor.
Qed.

#[global] Instance pairwise_disjoint_perm : Proper ((≡ₚ) ==> iff) pairwise_disjoint.
Proof.
  assert (∀ l1 l2, l1 ≡ₚ l2 → pairwise_disjoint l1 → pairwise_disjoint l2) as Himp.
  { induction 1 as [|x l1 l2 Hp IH|x y l|l1 l2 l3]; auto.
    - rewrite !pairwise_disjoint_cons. intros [Hx Hl]. split; [|auto].
      intros r' Hr. apply Hx. by rewrite Hp.
    - rewrite !pairwise_disjoint_cons. setoid_rewrite elem_of_cons.
      intros [Hy [Hx Hl]]. split_and!; [|naive_solver|done].
      intros r' [->|Hr]; [|by apply Hx]. apply disjoint_regions_sym. auto. }
  intros l1 l2 Hp. by split; apply Himp.
Qed.

Lemma pairwise_disjoint_app l1 l2 :
  pairwise_disjoint l1 → pairwise_disjoint l2 →
  (∀ r1 r2, r1 ∈ l1 → r2 ∈ l2 → disjoint_regions r1 r2) → pairwise_disjoint (l1 ++ l2).
Proof.
  induction l1 as [|r l1 IH]; intros H1 H2 H12; [done|]. simpl.
  apply pairwise_disjoint_cons in H1 as [Hr H1]. apply pairwise_disjoint_cons. split.
  - intros r' [|]%elem_of_app; [by apply Hr|]. apply H12; [by left|done].
  - apply IH; [done|done|]. intros; apply H12; [by right|done].
Qed.

(** ** ArenaAllocator *)
Module ArenaAllocator.

(** A block is a [std::vector<char>] of [data_size] bytes and the offset of its
    first free byte. *)
Record Block := { data_size : Z; offset : Z }.

Record t := mk {
  block_size_ : Z;
  blocks_ : list Block;
  bytes_allocated_ : Z
}.

Definition make (block_size : Z) : t := mk block_size [Build_Block block_size 0] 0.

(** [(offset + alignment - 1) & ~(alignment - 1)] on [std::size_t]. *)
Definition align_up (off alignment : Z) : Z :=
  Z.land (wrap 64 (off + alignment - 1)) (wrap 64 (Z.lnot (wrap 64 (alignment - 1)))).

Definition with_block (a : t) (size : Z) : t :=
  mk (block_size_ a) (blocks_ a ++ [Build_Block size 0]) (bytes_allocated_ a).

(** [blocks_.back()] and its index. *)
Definition back_block (a : t) : option (nat * Block) :=
  b ← last (blocks_ a); Some (length (blocks_ a) - 1, b)%nat.

(** The first statement of [allocate]: an empty arena gets a block. *)
Definition ensure_block (a : t) : t :=
  match blocks_ a with [] => with_block a (block_size_ a) | _ => a end.

(** The range [start, start + size) of block [i] is handed out. *)
Definition take_range (a : t) (i : nat) (block : Block) (start size : Z) : t * Region :=
  (mk (block_size_ a)
      (<[i := Build_Block (data_size block) (start + size)]> (blocks_ a))
      (wrap 64 (bytes_allocated_ a + size)),
   Build_Region i start size).

(** [allocate]: the range handed out and the new state; [None] when the
    recursion runs out of fuel. *)
Fixpoint allocate_fuel (fuel : nat) (size alignment : Z) (a : t) : option (t * Region) :=
  match fuel with
  | O => None
  | S fuel' =>
      let a := ensure_block a in
      '(i, block) ← back_block a;
      let aligned := align_up (offset block) alignment in
      if data_size block <? wrap 64 (aligned + size) then
        allocate_fuel fuel' size alignment (with_block a (Z.max (block_size_ a) size))
      else
        Some (take_range a i block aligned size)
  end.

#[local] Arguments allocate_fuel : simpl never.

(** The recursion of the source adds at most one block, so two calls suffice
    (theorem [allocate_terminates]). *)
Definition allocate (size alignment : Z) (a : t) : option (t * Region) :=
  allocate_fuel 2 size alignment a.

Definition reset (a : t) : t :=
  mk (block_size_ a) ((λ b, Build_Block (data_size b) 0) <$> blocks_ a) 0.

Definition block_count (a : t) : nat := length (blocks_ a).

(** Every block's offset lies within its data, and the data fits the address
    space with room for any request of at most [2^62] bytes. *)
Definition wf (a : t) : Prop :=
  0 ≤ block_size_ a < 2 ^ 62 ∧
  Forall (λ b, 0 ≤ offset b ≤ data_size b ∧ data_size b < 2 ^ 62) (blocks_ a).

(** The ranges handed out since the last reset lie below the offsets of their
    blocks and do not overlap. *)
Definition owns (a : t) (rs : list Region) : Prop :=
  pairwise_disjoint rs ∧
  Forall (λ r, 0 ≤ r_off r ∧ ∃ b, blocks_ a !! r_slab r = Some b ∧
                               r_off r + r_len r ≤ offset b) rs.

(** *** Alignment *)

Lemma land_wrap_lnot x y :
  0 ≤ x < 2 ^ 64 → Z.land x (wrap 64 (Z.lnot y)) = Z.ldiff x y.
Proof.
  intros Hx. unfold wrap. rewrite <-Z.land_ones by lia.
  rewrite (Z.land_comm (Z.lnot y)), Z.land_assoc, Z.land_ones, Z.mod_small by lia.
  by rewrite Z.ldiff_land.
Qed.

Lemma wrap_range z : 0 ≤ wrap 64 z < 2 ^ 64.
Proof. apply Z.mod_pos_bound. lia. Qed.

Lemma wrap_small z : 0 ≤ z < 2 ^ 64 → wrap 64 z = z.
Proof. intros. by apply Z.mod_small. Qed.

(** The first byte of a block satisfies every alignment. *)
Lemma align_up_0 alignment : align_up 0 alignment = 0.
Proof.
  unfold align_up. rewrite land_wrap_lnot by apply wrap_range.
  rewrite Z.add_0_l. apply Z.ldiff_diag.
Qed.

Lemma align_up_spec off j :
  0 ≤ off < 2 ^ 62 → 0 ≤ j ≤ 62 →
  off ≤ align_up off (2 ^ j) < off + 2 ^ j ∧ align_up off (2 ^ j) mod 2 ^ j = 0.
Proof.
  intros Hoff Hj. unfold align_up. pose proof (Z.pow_le_mono_r 2 j 62 ltac:(lia) ltac:(lia)).
  assert (0 < 2 ^ j) by lia.
  rewrite land_wrap_lnot by apply wrap_range. rewrite !wrap_small by lia.
  replace (2 ^ j - 1) with (Z.ones j) by (rewrite Z.ones_equiv; lia).
  rewrite Z.ldiff_ones_r, Z.shiftl_mul_pow2, Z.shiftr_div_pow2 by lia.
  pose proof (Z.div_mod (off + 2 ^ j - 1) (2 ^ j) ltac:(lia)).
  pose proof (Z.mod_pos_bound (off + 2 ^ j - 1) (2 ^ j) ltac:(lia)).
  split; [lia|]. apply Z.mod_mul. lia.
Qed.

(** *** Allocation *)

Lemma back_block_Some a i b :
  back_block a = Some (i, b) → blocks_ a !! i = Some b ∧ length (blocks_ a) = S i.
Proof.
  unfold back_block. intros (b' & Hl & [= <- <-])%bind_Some.
  rewrite last_lookup in Hl. rewrite Nat.sub_1_r. split; [done|].
  apply lookup_lt_Some in Hl. lia.
Qed.

Lemma back_block_with a n : back_block (with_block a n) = Some (length (blocks_ a), Build_Block n 0).
Proof.
  unfold back_block. simpl. rewrite last_snoc, length_app. simpl. do 2 f_equal. lia.
Qed.

Lemma allocate_fuel_S fuel size alignment a :
  allocate_fuel (S fuel) size alignment a =
  '(i, block) ← back_block (ensure_block a);
  let aligned := align_up (offset block) alignment in
  if data_size block <? wrap 64 (aligned + size) then
    allocate_fuel fuel size alignment
      (with_block (ensure_block a) (Z.max (block_size_ (ensure_block a)) size))
  else Some (take_range (ensure_block a) i block aligned size).
Proof. done. Qed.

(** On a freshly added block of sufficient size the allocation succeeds. *)
Lemma allocate_fresh fuel size alignment a n :
  0 ≤ size < 2 ^ 62 → size ≤ n →
  allocate_fuel (S fuel) size alignment (with_block a n) =
  Some (take_range (with_block a n) (length (blocks_ a)) (Build_Block n 0) 0 size).
Proof.
  intros Hs Hn. rewrite allocate_fuel_S.
  assert (ensure_block (with_block a n) = with_block a n) as ->.
  { unfold ensure_block. simpl. by destruct (blocks_ a). }
  rewrite back_block_with. simpl. rewrite align_up_0, Z.add_0_l, wrap_small by lia.
  by destruct (Z.ltb_spec n size); [lia|].
Qed.

Lemma back_block_ensure a : is_Some (back_block (ensure_block a)).
Proof.
  unfold ensure_block. destruct (blocks_ a) eqn:E; [rewrite back_block_with; eauto|].
  unfold back_block. rewrite E. destruct (last _) eqn:Hl; [simpl; eauto|].
  by apply last_None in Hl.
Qed.

Lemma wf_with_block a n : wf a → 0 ≤ n < 2 ^ 62 → wf (with_block a n).
Proof.
  intros [Hb Hf] Hn. split; [done|]. simpl. apply Forall_app. split; [done|].
  apply Forall_singleton. simpl. lia.
Qed.

Lemma wf_ensure a : wf a → wf (ensure_block a).
Proof.
  intros Hwf. unfold ensure_block. destruct (blocks_ a); [|done].
  apply wf_with_block; [done|]. apply Hwf.
Qed.

Lemma owns_with_block a n rs : owns a rs → owns (with_block a n) rs.
Proof.
  intros [Hd Hf]. split; [done|]. eapply Forall_impl; [done|].
  intros r [H0 (b & Hb & Hle)]. split; [done|]. exists b. split; [|done].
  simpl. by apply lookup_app_l_Some.
Qed.

Lemma owns_ensure a rs : owns a rs → owns (ensure_block a) rs.
Proof. unfold ensure_block. destruct (blocks_ a); eauto using owns_with_block. Qed.

(** Taking a range of block [i] at or above its offset. *)
Lemma owns_take a rs i b start size :
  owns a rs → blocks_ a !! i = Some b → 0 ≤ offset b ≤ start → 0 ≤ size →
  owns (take_range a i b start size).1 ((take_range a i b start size).2 :: rs).
Proof.
  intros [Hd Hf] Hb Hs Hsize. rewrite Forall_forall in Hf.
  pose proof (lookup_lt_Some _ _ _ Hb). split.
  - apply pairwise_disjoint_cons. split; [|done]. intros r Hr.
    destruct (Hf r Hr) as [_ (b' & Hb' & Hle)]. unfold disjoint_regions. simpl.
    destruct (decide (i = r_slab r)) as [->|]; [right; right|by left].
    simplify_eq. lia.
  - apply Forall_cons. simpl. split.
    + split; [lia|]. eexists. rewrite list_lookup_insert_eq by done. split; [done|]. simpl. lia.
    + apply Forall_forall. intros r Hr. destruct (Hf r Hr) as [H0 (b' & Hb' & Hle)].
      split; [done|]. destruct (decide (i = r_slab r)) as [->|].
      * eexists. rewrite list_lookup_insert_eq by done. split; [done|]. simplify_eq/=. lia.
      * exists b'. by rewrite list_lookup_insert_ne.
Qed.

Lemma wf_take a i b start size :
  wf a → blocks_ a !! i = Some b → 0 ≤ start + size ≤ data_size b →
  wf (take_range a i b start size).1.
Proof.
  intros [Hb Hf] Hi Hs. split; [done|]. apply Forall_insert; [done|]. simpl.
  rewrite Forall_lookup in Hf. destruct (Hf i b Hi). lia.
Qed.

Lemma take_range_in_block a i b start size :
  blocks_ a !! i = Some b → start + size ≤ data_size b →
  let '(a', r) := take_range a i b start size in
  ∃ b', blocks_ a' !! r_slab r = Some b' ∧ r_off r + r_len r ≤ data_size b'.
Proof.
  intros Hi Hle. eexists. simpl. rewrite list_lookup_insert_eq by (by eapply lookup_lt_Some).
  by split.
Qed.

(** What a successful allocation promises. *)
Definition allocated (rs : list Region) (size al : Z) (res : t * Region) : Prop :=
  let '(a', r) := res in
  wf a' ∧ owns a' (r :: rs) ∧ r_len r = size ∧ r_off r mod al = 0 ∧
  ∃ b, blocks_ a' !! r_slab r = Some b ∧ r_off r + r_len r ≤ data_size b.

Lemma take_range_allocated a rs i b start size al :
  wf a → owns a rs → blocks_ a !! i = Some b → offset b ≤ start → 0 ≤ size →
  start + size ≤ data_size b → start mod al = 0 →
  allocated rs size al (take_range a i b start size).
Proof.
  intros Hwf Hown Hi Hst Hsz Hle Hmod.
  pose proof (proj2 Hwf) as Hf. rewrite Forall_lookup in Hf. destruct (Hf i b Hi) as [Hoff _].
  split; [apply wf_take; [done|done|lia]|]. split; [apply owns_take; [done|done|lia|done]|].
  split; [done|]. split; [done|]. by apply (take_range_in_block a).
Qed.

(** [allocate] returns for every size below [2^62] and every alignment,
    from any state of the arena: the recursive call is made on a block that was
    just added with enough room, so it does not recurse again. *)
Theorem allocate_terminates size alignment a :
  0 ≤ size < 2 ^ 62 → is_Some (allocate size alignment a).
Proof.
  intros Hs. unfold allocate. rewrite allocate_fuel_S.
  destruct (back_block_ensure a) as [[i b] ->]. simpl.
  case_match; [|eauto]. rewrite allocate_fresh by lia. eauto.
Qed.

(** The range [allocate] hands out is aligned, lies inside a block and overlaps no range
    handed out before; the arena stays well formed. *)
Theorem allocate_spec size j a rs :
  wf a → owns a rs → 0 ≤ size < 2 ^ 62 → 0 ≤ j ≤ 62 →
  ∃ res, allocate size (2 ^ j) a = Some res ∧ allocated rs size (2 ^ j) res.
Proof.
  intros Hwf%wf_ensure Hown%owns_ensure Hs Hj. unfold allocate. rewrite allocate_fuel_S.
  destruct (back_block_ensure a) as [[i b] Hback]. rewrite Hback. simpl.
  apply back_block_Some in Hback as [Hi Hlen].
  set (a1 := ensure_block a) in *. clearbody a1.
  pose proof (proj2 Hwf) as Hf. rewrite Forall_lookup in Hf. destruct (Hf i b Hi) as [Hoff Hds].
  destruct (align_up_spec (offset b) j) as [Hal Hmod]; [lia|done|].
  pose proof (Z.pow_le_mono_r 2 j 62 ltac:(lia) ltac:(lia)). pose proof (proj1 Hwf).
  rewrite wrap_small by lia. case_match; bsimp.
  - rewrite allocate_fresh by lia. eexists. split; [done|].
    apply (take_range_allocated (with_block a1 (block_size_ a1 `max` size)));
      simpl; try lia; [apply wf_with_block; [done|lia]|by apply owns_with_block| |].
    + by rewrite lookup_app_r, Nat.sub_diag by lia.
    + by rewrite Z.mod_0_l by lia.
  - eexists. split; [done|]. apply (take_range_allocated a1); try done; lia.
Qed.

(** [reset] keeps the blocks and makes every byte available again. *)
Theorem reset_spec a :
  wf a → wf (reset a) ∧ owns (reset a) [] ∧ block_count (reset a) = block_count a ∧
  bytes_allocated_ (reset a) = 0.
Proof.
  intros [Hb Hf]. split_and!; [split; [done|]| | |done].
  - apply Forall_fmap. eapply Forall_impl; [done|]. simpl. lia.
  - split; constructor.
  - apply length_fmap.
Qed.

(** ** Witnesses *)

Lemma arena_make_wf : wf (make 64) ∧ owns (make 64) [].
Proof. split; [split; [done|]|split; constructor]. by apply Forall_singleton. Qed.

Lemma allocate_terminates_witness : is_Some (allocate 100 8 (make 64)).
Proof. apply allocate_terminates. lia. Defined.

Lemma allocate_spec_witness :
  ∃ res, allocate 100 8 (make 64) = Some res ∧ allocated [] 100 8 res.
Proof.
  apply (allocate_spec 100 3 (make 64) []); [apply arena_make_wf|apply arena_make_wf|lia|lia].
Defined.

Lemma reset_spec_witness :
  wf (reset (make 64)) ∧ owns (reset (make 64)) [] ∧
  block_count (reset (make 64)) = block_count (make 64) ∧ bytes_allocated_ (reset (make 64)) = 0.
Proof. apply reset_spec, arena_make_wf. Defined.

End ArenaAllocator.

(** The template [ArenaObjectPool<T>]: objects of one type placed in an arena. *)
Module ArenaObjectPool.
Section Objects.
(** [sizeof(T)], and [alignof(T)] as a power of two. *)
Variables (sizeof align_log : Z).

Definition create (arena : ArenaAllocator.t) : option (ArenaAllocator.t * Region) :=
  ArenaAllocator.allocate sizeof (2 ^ align_log) arena.

Definition reset (arena : ArenaAllocator.t) : ArenaAllocator.t := ArenaAllocator.reset arena.

(** [n] objects, the last one first. *)
Fixpoint create_many (n : nat) (arena : ArenaAllocator.t) : option (ArenaAllocator.t * list Region) :=
  match n with
  | O => Some (arena, [])
  | S n' =>
      '(arena, objects) ← create_many n' arena;
      '(arena, object) ← create arena;
      Some (arena, object :: objects)
  end.

(** Objects of a pool never overlap: creating any number of objects in an arena
    that already holds allocations succeeds; each object has its size and
    alignment and lies inside a block, and no two of them, and none of them and an
    earlier allocation, share a byte. *)
Theorem created_objects_disjoint n arena rs :
  0 ≤ sizeof < 2 ^ 62 → 0 ≤ align_log ≤ 62 → ArenaAllocator.wf arena → ArenaAllocator.owns arena rs →
  ∃ arena' objects, create_many n arena = Some (arena', objects) ∧ length objects = n ∧
    ArenaAllocator.wf arena' ∧ pairwise_disjoint (objects ++ rs) ∧ ArenaAllocator.owns arena' (objects ++ rs) ∧
    Forall (λ r, r_len r = sizeof ∧ r_off r mod 2 ^ align_log = 0) objects.
Proof.
  intros Hs Ha Hwf Hown. induction n as [|n (a1 & os & Hc & Hl & Hwf1 & _ & Hown1 & Hf)]; cbn [create_many].
  - exists arena, []. split_and!; [done|done|done|apply Hown|done|constructor].
  - rewrite Hc. cbn [mbind option_bind].
    destruct (ArenaAllocator.allocate_spec sizeof align_log a1 (os ++ rs)) as ([a2 r] & Hal & Hwf2 & Hown2 & Hr & Hm & _);
      [done|done|done|done|].
    unfold create. rewrite Hal. exists a2, (r :: os).
    split_and!; [done|simpl; by rewrite Hl|done|apply Hown2|done|by constructor].
Qed.

End Objects.

Lemma created_objects_disjoint_witness :
  ∃ arena' objects, create_many 24 3 3 (ArenaAllocator.make 64) = Some (arena', objects) ∧ pairwise_disjoint (objects ++ []).
Proof.
  destruct (created_objects_disjoint 24 3 3 (ArenaAllocator.make 64) []) as (a & os & Hc & _ & _ & Hd & _);
    [lia|lia|apply ArenaAllocator.arena_make_wf|apply ArenaAllocator.arena_make_wf|].
  exists a, os. split; [exact Hc|exact Hd].
Defined.

End ArenaObjectPool.

(** ** BufferPool *)
Module BufferPool.

(** [free_list_] is kept with its back first; a pointer is a slab index with a
    byte offset; [memory] holds the bytes written so far (the others are 0). *)
Record t := mk {
  block_size_ : Z;
  free_list_ : list (nat * Z);
  slabs_ : list Z;
  memory : gmap (nat * Z) ascii
}.

(** The pointers [base + i * block_size] for [i < n], last one first; the products are
    of type [size_t] here and below. *)
Fixpoint carve (slab : nat) (block_size : Z) (n : nat) : list (nat * Z) :=
  match n with
  | O => []
  | S n' => (slab, wrap 64 (Z.of_nat n' * block_size)) :: carve slab block_size n'
  end.

Definition make (block_size : Z) (initial_blocks : nat) : t :=
  mk block_size (carve 0 block_size initial_blocks) [wrap 64 (Z.of_nat initial_blocks * block_size)] ∅.

(** The refill of an empty free list: a slab of 64 blocks. *)
Definition refill (p : t) : t :=
  match free_list_ p with
  | [] => mk (block_size_ p) (carve (length (slabs_ p)) (block_size_ p) 64)
             (slabs_ p ++ [wrap 64 (block_size_ p * 64)]) (memory p)
  | _ => p
  end.

Definition acquire (min_size : Z) (p : t) : t * (nat * Z) :=
  if block_size_ p <? min_size then
    (mk (block_size_ p) (free_list_ p) (slabs_ p ++ [min_size]) (memory p),
     (length (slabs_ p), 0))
  else
    let p := refill p in
    match free_list_ p with
    | block :: rest => (mk (block_size_ p) rest (slabs_ p) (memory p), block)
    | [] => (p, (0%nat, 0)) (* not reached: [refill] leaves a block *)
    end.

(** [release(nullptr)] does nothing. *)
Definition release (block : option (nat * Z)) (p : t) : t :=
  match block with
  | None => p
  | Some b => mk (block_size_ p) (b :: free_list_ p) (slabs_ p) (memory p)
  end.

Definition allocated_blocks (p : t) : Z :=
  foldl (λ total slab, wrap 64 (total + slab / block_size_ p)) 0 (slabs_ p).

Definition free_blocks (p : t) : nat := length (free_list_ p).

(** [std::memcpy(block, s.data(), s.size())]. *)
Fixpoint write_bytes (slab : nat) (off : Z) (s : string) (m : gmap (nat * Z) ascii) :=
  match s with
  | "" => m
  | String c s' => write_bytes slab (off + 1) s' (<[(slab, off) := c]> m)
  end.

(** [std::string(block, n)]. *)
Fixpoint read_bytes (slab : nat) (off : Z) (n : nat) (m : gmap (nat * Z) ascii) : string :=
  match n with
  | O => ""
  | S n' => String (default Ascii.zero (m !! (slab, off))) (read_bytes slab (off + 1) n' m)
  end.

Definition block_region (p : t) (b : nat * Z) : Region := Build_Region b.1 b.2 (block_size_ p).

(** A block size of which 64 blocks fit into the address space. *)
Definition sound_size (bs : Z) : Prop := 0 < bs ∧ bs * 64 < 2 ^ 64.

(** The blocks of the free list and the ranges in use lie inside their slabs
    and do not overlap. *)
Definition wf (p : t) (used : list Region) : Prop :=
  sound_size (block_size_ p) ∧
  pairwise_disjoint ((block_region p <$> free_list_ p) ++ used) ∧
  Forall (λ r, 0 ≤ r_off r ∧ ∃ sz, slabs_ p !! r_slab r = Some sz ∧ r_off r + r_len r ≤ sz)
         ((block_region p <$> free_list_ p) ++ used).

Lemma carve_S slab bs n :
  carve slab bs (S n) = (slab, wrap 64 (Z.of_nat n * bs)) :: carve slab bs n.
Proof. done. Qed.

#[local] Arguments carve : simpl never.

Lemma carve_elem slab bs n b :
  0 < bs → Z.of_nat n * bs < 2 ^ 64 →
  b ∈ carve slab bs n → ∃ i, (i < n)%nat ∧ b = (slab, Z.of_nat i * bs).
Proof.
  intros Hbs. induction n as [|n IH]; intros Hn; [by intros ?%not_elem_of_nil|]. rewrite carve_S.
  rewrite ArenaAllocator.wrap_small by nia.
  intros [->|(i & Hi & ->)%IH]%elem_of_cons; [eauto with lia|eauto with lia|nia].
Qed.

Lemma carve_disjoint p slab n :
  0 < block_size_ p → Z.of_nat n * block_size_ p < 2 ^ 64 →
  pairwise_disjoint (block_region p <$> carve slab (block_size_ p) n).
Proof.
  intros Hbs. induction n as [|n IH]; intros Hn; [constructor|].
  rewrite carve_S, fmap_cons, ArenaAllocator.wrap_small by nia. apply pairwise_disjoint_cons. split; [|apply IH; nia].
  intros r (b & -> & (i & Hi & ->)%carve_elem)%list_elem_of_fmap; [|nia..].
  right. right. simpl. nia.
Qed.

Lemma pool_make_wf bs n : sound_size bs → Z.of_nat n * bs < 2 ^ 64 → wf (make bs n) [].
Proof.
  intros Hbs Hn. unfold wf. simpl. rewrite app_nil_r. split; [done|]. destruct Hbs as [Hbs _].
  split; [by apply (carve_disjoint (make bs n))|].
  apply Forall_forall. intros r (b & -> & (i & Hi & ->)%carve_elem)%list_elem_of_fmap; [|done..].
  simpl. split; [nia|]. eexists. split; [done|]. rewrite ArenaAllocator.wrap_small by nia. nia.
Qed.

(** A fresh slab is disjoint from every range of the pool. *)
Lemma wf_fresh_slab p used sz rs :
  wf p used → pairwise_disjoint rs →
  Forall (λ r, r_slab r = length (slabs_ p) ∧ 0 ≤ r_off r ∧ r_off r + r_len r ≤ sz) rs →
  let p' := mk (block_size_ p) (free_list_ p) (slabs_ p ++ [sz]) (memory p) in
  pairwise_disjoint (rs ++ (block_region p' <$> free_list_ p') ++ used) ∧
  Forall (λ r, 0 ≤ r_off r ∧ ∃ sz, slabs_ p' !! r_slab r = Some sz ∧ r_off r + r_len r ≤ sz)
         (rs ++ (block_region p' <$> free_list_ p') ++ used).
Proof.
  intros (Hbs & Hd & Hin) Hrs Hf. simpl. rewrite Forall_forall in Hf, Hin. split.
  - apply pairwise_disjoint_app; [done|done|]. intros r1 r2 H1 H2. left.
    destruct (Hf r1 H1) as [-> _]. destruct (Hin r2 H2) as [_ (sz' & Hs & _)].
    apply lookup_lt_Some in Hs. lia.
  - apply Forall_forall. intros r [Hr|Hr]%elem_of_app.
    + destruct (Hf r Hr) as (Hs & H0 & Hle). split; [done|]. exists sz. rewrite Hs.
      by rewrite lookup_app_r, Nat.sub_diag by lia.
    + destruct (Hin r Hr) as [H0 (sz' & Hs & Hle)]. split; [done|].
      exists sz'. split; [by apply lookup_app_l_Some|done].
Qed.

Lemma wf_carved_slab p used n :
  wf p used → free_list_ p = [] → block_size_ p * Z.of_nat n < 2 ^ 64 →
  wf (mk (block_size_ p) (carve (length (slabs_ p)) (block_size_ p) n)
         (slabs_ p ++ [wrap 64 (block_size_ p * Z.of_nat n)]) (memory p)) used.
Proof.
  intros Hwf E Hn. pose proof Hwf as [[Hbs Hbs'] _]. split; [done|]. rewrite ArenaAllocator.wrap_small by nia.
  pose proof (wf_fresh_slab p used (block_size_ p * Z.of_nat n)
    (block_region p <$> carve (length (slabs_ p)) (block_size_ p) n) Hwf) as H.
  simpl in H. rewrite E in H. apply H; [apply carve_disjoint; nia|].
  apply Forall_forall. intros r (b & -> & (i & Hi & ->)%carve_elem)%list_elem_of_fmap; [|nia..].
  simpl. split; [done|]. nia.
Qed.

Lemma refill_wf p used : wf p used → wf (refill p) used ∧ free_list_ (refill p) ≠ [].
Proof.
  intros Hwf. unfold refill. destruct (free_list_ p) eqn:E; [|by rewrite E].
  split; [apply (wf_carved_slab p used 64); [done|done|apply Hwf]|]. cbn [free_list_]. by rewrite (carve_S _ _ 63).
Qed.

(** An acquired block is large enough, lies in its slab and overlaps neither
    the free blocks nor the ranges in use. *)
Lemma acquire_wf min_size p used :
  wf p used → 0 ≤ min_size →
  let '(p', b) := acquire min_size p in
  block_size_ p' = block_size_ p ∧
  wf p' (Build_Region b.1 b.2 (Z.max min_size (block_size_ p)) :: used).
Proof.
  intros Hwf Hm. pose proof Hwf as [[Hbs Hbs'] _]. unfold acquire.
  destruct (Z.ltb_spec (block_size_ p) min_size).
  - split; [done|]. split; [done|]. simpl. rewrite Z.max_l by lia.
    rewrite <-Permutation_middle.
    apply (wf_fresh_slab p used min_size [Build_Region (length (slabs_ p)) 0 min_size] Hwf).
    + apply pairwise_disjoint_cons. split; [by intros r' ?%not_elem_of_nil|constructor].
    + apply Forall_singleton. by simpl.
  - apply refill_wf in Hwf as [Hwf Hne].
    assert (block_size_ (refill p) = block_size_ p) as Hb by (unfold refill; by case_match).
    destruct (free_list_ (refill p)) as [|b rest] eqn:E; [done|].
    simpl. split; [done|]. destruct Hwf as (? & Hd & Hin). rewrite E in Hd, Hin.
    split; [done|]. simpl. rewrite Z.max_r, <-Hb, <-Permutation_middle by lia. by split.
Qed.

(** Releasing an acquired block makes it free again. *)
Lemma release_wf min_size b p used :
  wf p (Build_Region b.1 b.2 (Z.max min_size (block_size_ p)) :: used) →
  wf (release (Some b) p) used.
Proof.
  intros (Hbs & Hd & Hin). rewrite <-Permutation_middle in Hd, Hin. split; [done|]. simpl.
  apply pairwise_disjoint_cons in Hd as [Hr Hd]. apply Forall_cons in Hin as [[H0 (sz & Hs & Hle)] Hin].
  simpl in *. split.
  - apply pairwise_disjoint_cons. split; [|done]. intros r' Hr'.
    specialize (Hr r' Hr'). unfold disjoint_regions in *. simpl in *. lia.
  - apply Forall_cons. split; [|done]. simpl. split; [done|]. exists sz. split; [done|]. lia.
Qed.

(** *** Clients of the pool *)

(** A step of the pool's clients, with the ranges they hold: one acquires a
    block of at least [n] bytes, or one gives back a range it holds. *)
Inductive client_step : t * list Region → t * list Region → Prop :=
| client_acquire p used n p' b :
    0 ≤ n → acquire n p = (p', b) →
    client_step (p, used) (p', Build_Region b.1 b.2 (Z.max n (block_size_ p)) :: used)
| client_release p used1 r used2 :
    client_step (p, used1 ++ r :: used2)
                (release (Some (r_slab r, r_off r)) p, used1 ++ used2).

Definition large_enough (p : t) (used : list Region) : Prop :=
  Forall (λ r, block_size_ p ≤ r_len r) used.

Lemma wf_used_perm p used used' : used ≡ₚ used' → wf p used → wf p used'.
Proof. intros Hp (? & Hd & Hf). split; [done|]. by rewrite <-Hp. Qed.

Lemma client_step_wf p used p' used' :
  client_step (p, used) (p', used') → wf p used → large_enough p used →
  wf p' used' ∧ large_enough p' used' ∧ block_size_ p' = block_size_ p.
Proof.
  unfold large_enough. intros Hs Hwf Hl. inversion Hs as [? ? n ? b Hn Ha|? used1 r used2]; subst.
  - pose proof (acquire_wf n p used Hwf Hn) as H. rewrite Ha in H. destruct H as [Hb Hw].
    split_and!; [done| |done]. rewrite Hb. constructor; [simpl; lia|done].
  - rewrite Forall_app, Forall_cons in Hl. destruct Hl as (H1 & Hr & H2).
    split_and!; [|by apply Forall_app|done].
    apply (release_wf (r_len r) (r_slab r, r_off r)). rewrite Z.max_l by done. destruct r.
    eapply wf_used_perm; [|done]. by rewrite <-Permutation_middle.
Qed.

(** C34: take a pool of blocks of [bs > 0] bytes for which neither the first slab of [n]
    blocks nor a slab of 64 blocks is too large for [size_t] ([n * bs] and [64 * bs]
    below [2^64]; for larger ones the product wraps, see [overflowing_pool]).  However
    clients interleave acquisitions and releases of what they hold, the blocks they
    hold and the free blocks lie inside their slabs and never overlap, and every block
    held has at least the pool's block size. *)
Theorem pool_blocks_disjoint bs n p used :
  0 < bs → bs * 64 < 2 ^ 64 → Z.of_nat n * bs < 2 ^ 64 → rtc client_step (make bs n, []) (p, used) →
  wf p used ∧ Forall (λ r, bs ≤ r_len r) used.
Proof.
  intros Hbs Hbs64 Hn Hr.
  assert (∀ x y, rtc client_step x y → wf x.1 x.2 → large_enough x.1 x.2 →
    wf y.1 y.2 ∧ large_enough y.1 y.2 ∧ block_size_ y.1 = block_size_ x.1) as Hinv.
  { clear. intros x y. induction 1 as [|[p1 u1] [p2 u2] y Hs _ IH]; intros Hwf Hl; [done|].
    destruct (client_step_wf _ _ _ _ Hs Hwf Hl) as (Hw & Hl' & Hb).
    destruct (IH Hw Hl') as (? & ? & ->). done. }
  destruct (Hinv _ _ Hr (pool_make_wf bs n (conj Hbs Hbs64) Hn)) as (Hw & Hl & Hb); [constructor|].
  split; [done|]. simpl in Hb. by rewrite <-Hb.
Qed.

(** A block of the slab and one larger than the block size. *)
Lemma pool_blocks_disjoint_witness :
  ∃ p used, rtc client_step (make 8 2, []) (p, used) ∧ length used = 2%nat ∧
    wf p used ∧ Forall (λ r, 8 ≤ r_len r) used.
Proof.
  destruct (acquire 8 (make 8 2)) as [p1 b1] eqn:E1.
  destruct (acquire 20 p1) as [p2 b2] eqn:E2.
  assert (rtc client_step (make 8 2, [])
    (p2, [Build_Region b2.1 b2.2 (Z.max 20 (block_size_ p1));
          Build_Region b1.1 b1.2 (Z.max 8 (block_size_ (make 8 2)))])) as Hr.
  { eapply rtc_l; [by apply (client_acquire _ _ 8)|].
    eapply rtc_l; [by apply (client_acquire _ _ 20)|]. constructor. }
  eexists _, _. split; [exact Hr|]. split; [done|].
  apply (pool_blocks_disjoint 8 2 _ _ ltac:(lia) ltac:(lia) ltac:(lia) Hr).
Defined.

(** The bound on the block size is needed: 64 blocks of [2^58] bytes are a slab of
    no bytes, and the block that [acquire] hands out lies outside of it. *)
Lemma overflowing_pool :
  let '(p, b) := acquire 1 (make (2 ^ 58) 0) in slabs_ p !! b.1 = Some 0 ∧ b.2 = 63 * 2 ^ 58.
Proof. vm_compute. done. Qed.

(** *** The bytes of a block *)

Lemma write_bytes_other slab off s m k :
  (∀ i, (i < String.length s)%nat → k ≠ (slab, off + Z.of_nat i)) →
  write_bytes slab off s m !! k = m !! k.
Proof.
  revert off m. induction s as [|c s IH]; intros off m Hk; [done|]. simpl.
  rewrite IH.
  - apply lookup_insert_ne. intros <-. apply (Hk 0%nat); simpl; [lia|]. f_equal. lia.
  - intros i Hi ->. apply (Hk (S i)); simpl; [lia|]. f_equal. lia.
Qed.

Lemma read_write_bytes slab off s m :
  read_bytes slab off (String.length s) (write_bytes slab off s m) = s.
Proof.
  revert off m. induction s as [|c s IH]; intros off m; [done|]. simpl.
  rewrite IH, write_bytes_other, lookup_insert_eq; [done|].
  intros i _ [= Heq]. lia.
Qed.

End BufferPool.

(** ** StringPool *)
Module StringPool.

(** The pool and the count of copies; the buffer pool is shared by reference. *)
Definition copy (source : string) (st : BufferPool.t * nat) : (BufferPool.t * nat) * string :=
  let '(pool, copies) := st in
  let copies := S copies in
  if Z.of_nat (String.length source) <=? BufferPool.block_size_ pool then
    let '(pool, block) := BufferPool.acquire (Z.of_nat (String.length source)) pool in
    let pool := BufferPool.mk (BufferPool.block_size_ pool) (BufferPool.free_list_ pool)
                  (BufferPool.slabs_ pool)
                  (BufferPool.write_bytes block.1 block.2 source (BufferPool.memory pool)) in
    let result := BufferPool.read_bytes block.1 block.2 (String.length source)
                    (BufferPool.memory pool) in
    (BufferPool.release (Some block) pool, copies, result)
  else ((pool, copies), source).

Definition reset_stats (st : BufferPool.t * nat) : BufferPool.t * nat := (st.1, 0%nat).

Lemma copy_result source st : (copy source st).2 = source.
Proof.
  destruct st as [pool copies]. unfold copy. case_match; [|done].
  destruct (BufferPool.acquire _ _). apply BufferPool.read_write_bytes.
Qed.

(** [copy] returns its argument and gives the block back: the pool's free list
    is as it was, or is the refilled one when it was empty. *)
Lemma copy_frame source pool copies used :
  BufferPool.wf pool used →
  let '((pool', copies'), result) := copy source (pool, copies) in
  result = source ∧ copies' = S copies ∧ BufferPool.wf pool' used ∧
  (BufferPool.free_list_ pool ≠ [] →
   BufferPool.free_list_ pool' = BufferPool.free_list_ pool ∧
   BufferPool.slabs_ pool' = BufferPool.slabs_ pool).
Proof.
  intros Hwf. unfold copy. destruct (Z.leb_spec (Z.of_nat (String.length source))
    (BufferPool.block_size_ pool)) as [Hle|]; [|done].
  pose proof (BufferPool.acquire_wf (Z.of_nat (String.length source)) pool used Hwf) as Ha.
  destruct (BufferPool.acquire _ pool) as [pool1 block] eqn:E.
  destruct Ha as [Hb Hwf1]; [lia|]. split; [apply BufferPool.read_write_bytes|].
  split; [done|]. split.
  - rewrite <-Hb in Hwf1. by eapply BufferPool.release_wf.
  - intros Hne. unfold BufferPool.acquire, BufferPool.refill in E.
    destruct (Z.ltb_spec (BufferPool.block_size_ pool) (Z.of_nat (String.length source))); [lia|].
    destruct (BufferPool.free_list_ pool) as [|b rest] eqn:Ef; [done|].
    rewrite Ef in E. by simplify_eq.
Qed.

End StringPool.
