(* ===== verification/Table.v ===== *)
(** * The hash table (src/storage/hash_table.cpp, include/voltdbx/storage)

    A vector of buckets, each a singly linked chain of nodes.  New keys go to
    the front of their chain; when the load factor exceeds 0.75 after an
    insertion, the bucket vector is doubled and every node is inserted again.
    A chain is the list of its nodes, from the head on; the bucket vector is a
    list of chains.  [std::hash] is a parameter: nothing is assumed about it.

    The refinement theorems relate the table to a finite map from keys to
    entries. *)

From S2P Require Import Prelude CppStd Binary32.

(** [std::hash<std::string_view>]. *)
Class StdHash := std_hash : string → N.

(** A point of [std::chrono::steady_clock], in nanoseconds. *)
Definition time_point : Type := Z.

Record StorageEntry := mkEntry { value : string; expires_at : option time_point }.

#[global] Instance StorageEntry_eq_dec : EqDecision StorageEntry.
Proof. unfold EqDecision, Decision. intros [] []. unfold time_point in *. decide equality; solve_decision. Defined.

Module HashTable.

(** [struct Node]; [next] is the tail of the chain. *)
Record Node := mkNode { key : string; entry : StorageEntry }.

Record t := mk { buckets_ : list (list Node); size_ : nat }.

Section WithHash.
Context `{StdHash}.

(** The constructor; at least 16 buckets. *)
Definition make (bucket_count : nat) : t :=
  mk (replicate (if (bucket_count <? 16)%nat then 16%nat else bucket_count) []) 0.

Definition hash_key (k : string) : N := std_hash k.

Definition bucket_count (h : t) : nat := length (buckets_ h).

Definition bucket_index (k : string) (h : t) : nat :=
  N.to_nat (hash_key k mod N.of_nat (bucket_count h)).

(** [buckets_[idx]]; the index is always in range. *)
Definition bucket (idx : nat) (h : t) : list Node := default [] (buckets_ h !! idx).

(** The walk of [insert]: replaces the entry of the first node with key [k]. *)
Fixpoint chain_assign (k : string) (e : StorageEntry) (chain : list Node) : option (list Node) :=
  match chain with
  | [] => None
  | n :: next =>
      if decide (key n = k) then Some (mkNode (key n) e :: next)
      else cons n <$> chain_assign k e next
  end.

(** The walk of [find]. *)
Fixpoint chain_find (k : string) (chain : list Node) : option StorageEntry :=
  match chain with
  | [] => None
  | n :: next => if decide (key n = k) then Some (entry n) else chain_find k next
  end.

(** The walk of [erase]: unlinks the first node with key [k]. *)
Fixpoint chain_erase (k : string) (chain : list Node) : option (list Node) :=
  match chain with
  | [] => None
  | n :: next => if decide (key n = k) then Some next else cons n <$> chain_erase k next
  end.

(** [rehash_if_needed], with the [insert] it calls on every node of the old
    buckets as an argument. *)
Definition rehash_with (ins : t → string → StorageEntry → t * bool) (h : t) : t :=
  if load_ok (size_ h) (bucket_count h) then h
  else
    foldl (λ h' n, (ins h' (key n) (entry n)).1)
          (mk (replicate (length (buckets_ h) * 2) []) 0)
          (concat (buckets_ h)).

(** [insert] and [rehash_if_needed] call each other; [fuel] bounds the nesting,
    and an insertion at fuel 0 does not look at the load factor.  See
    [insert_fuel_enough]: the insertions of a rehash never rehash again. *)
Fixpoint insert_fuel (fuel : nat) (h : t) (k : string) (e : StorageEntry) : t * bool :=
  let idx := bucket_index k h in
  match chain_assign k e (bucket idx h) with
  | Some chain => (mk (<[idx := chain]> (buckets_ h)) (size_ h), false)
  | None =>
      let h := mk (<[idx := mkNode k e :: bucket idx h]> (buckets_ h)) (S (size_ h)) in
      match fuel with
      | O => (h, true)
      | S fuel' => (rehash_with (insert_fuel fuel') h, true)
      end
  end.

Definition insert (h : t) (k : string) (e : StorageEntry) : t * bool := insert_fuel 2 h k e.

Definition rehash_if_needed (h : t) : t := rehash_with (insert_fuel 1) h.

Definition find (k : string) (h : t) : option StorageEntry :=
  chain_find k (bucket (bucket_index k h) h).

Definition erase (k : string) (h : t) : t * bool :=
  let idx := bucket_index k h in
  match chain_erase k (bucket idx h) with
  | Some chain => (mk (<[idx := chain]> (buckets_ h)) (size_ h - 1), true)
  | None => (h, false)
  end.

Definition contains (k : string) (h : t) : bool :=
  match find k h with Some _ => true | None => false end.

Definition size (h : t) : nat := size_ h.

Definition clear (h : t) : t := mk (replicate (length (buckets_ h)) []) 0.

(** [for_each]: the callback's captured state is threaded through. *)
Definition for_each {A} (fn : A → string → StorageEntry → A) (h : t) (a : A) : A :=
  foldl (λ a n, fn a (key n) (entry n)) a (concat (buckets_ h)).

Fixpoint for_each_node {A} (fn : A → string → N → A) (chain : list Node) (index : N) (a : A) : A :=
  match chain with
  | [] => a
  | n :: next => for_each_node fn next (index + 1) (fn a (key n) index)
  end.

(** [for_each_bucket]: nothing when the index is out of range. *)
Definition for_each_bucket {A} (fn : A → string → N → A) (bucket_index : N) (h : t) (a : A) : A :=
  if (N.of_nat (length (buckets_ h)) <=? bucket_index)%N then a
  else for_each_node fn (bucket (N.to_nat bucket_index) h) 0 a.

(** ** Abstraction *)

Definition binding (n : Node) : string * StorageEntry := (key n, entry n).

Definition nodes (h : t) : list Node := concat (buckets_ h).

(** The finite map a table represents. *)
Definition to_map (h : t) : gmap string StorageEntry := list_to_map (binding <$> nodes h).

(** Every node sits in the bucket of its key's hash, a chain holds a key once,
    and [size_] counts the nodes. *)
Record wf (h : t) : Prop := {
  wf_buckets : bucket_count h ≠ 0;
  wf_placed i c n : buckets_ h !! i = Some c → n ∈ c → bucket_index (key n) h = i;
  wf_chain i c : buckets_ h !! i = Some c → NoDup (key <$> c);
  wf_size : size_ h = length (nodes h)
}.

(** ** Chains *)

Lemma chain_find_Some k e c :
  NoDup (key <$> c) → chain_find k c = Some e ↔ mkNode k e ∈ c.
Proof.
  induction c as [|[k' e'] c IH]; csimpl; [by rewrite elem_of_nil|].
  rewrite NoDup_cons, elem_of_cons. intros [Hk Hnd]. case_decide as Heq; simplify_eq.
  - split; [naive_solver|]. intros [?|Hin]; [naive_solver|].
    destruct Hk. apply list_elem_of_fmap. by exists (mkNode k e).
  - rewrite IH by done. naive_solver.
Qed.

Lemma chain_assign_Some k e c c' :
  chain_assign k e c = Some c' →
  key <$> c' = key <$> c ∧ is_Some (chain_find k c) ∧
  ∀ k', chain_find k' c' = if decide (k' = k) then Some e else chain_find k' c.
Proof.
  revert c'. induction c as [|n c IH]; intros c'; csimpl; [done|].
  case_decide as Hk.
  - intros [= <-]. simpl. split; [done|]. split; [eauto|].
    intros k'. repeat case_decide; congruence.
  - intros (c1 & Hc & ->)%fmap_Some. destruct (IH c1 Hc) as (Hkeys & Hs & Hf). csimpl.
    split; [by rewrite Hkeys|]. split; [done|].
    intros k'. rewrite Hf. repeat case_decide; congruence.
Qed.

Lemma chain_assign_None k e c : chain_assign k e c = None ↔ k ∉ (key <$> c).
Proof.
  induction c as [|n c IH]; csimpl; [by rewrite elem_of_nil; split; [intros _ []|]|].
  rewrite elem_of_cons. case_decide; [naive_solver|]. rewrite fmap_None, IH. naive_solver.
Qed.

Lemma chain_find_None k c : chain_find k c = None ↔ k ∉ (key <$> c).
Proof.
  induction c as [|n c IH]; csimpl; [by rewrite elem_of_nil; split; [intros _ []|]|].
  rewrite elem_of_cons. case_decide; naive_solver.
Qed.

Lemma chain_erase_Some k c c' :
  NoDup (key <$> c) → chain_erase k c = Some c' →
  NoDup (key <$> c') ∧ (∀ n, n ∈ c' → n ∈ c) ∧ length c = S (length c') ∧ k ∈ (key <$> c) ∧
  ∀ k', chain_find k' c' = if decide (k' = k) then None else chain_find k' c.
Proof.
  revert c'. induction c as [|n c IH]; intros c'; csimpl; [done|].
  rewrite NoDup_cons. intros [Hn Hnd]. case_decide as Hk.
  - intros [= <-]. split_and!; [done|set_solver|done|set_solver|]. intros k'.
    repeat case_decide; subst; try congruence. by apply chain_find_None.
  - intros (c1 & Hc & ->)%fmap_Some. destruct (IH c1 Hnd Hc) as (Hnd1 & Hin & Hlen & Hk1 & Hf).
    simpl. rewrite NoDup_cons. split_and!; [|done|set_solver|lia|set_solver|].
    + intros (m & Hm & Hmin)%list_elem_of_fmap. destruct Hn.
      apply list_elem_of_fmap. exists m. auto.
    + intros k'. rewrite Hf. repeat case_decide; congruence.
Qed.

Lemma chain_erase_None k c : chain_erase k c = None ↔ k ∉ (key <$> c).
Proof.
  induction c as [|n c IH]; csimpl; [by rewrite elem_of_nil; split; [intros _ []|]|].
  rewrite elem_of_cons. case_decide; [naive_solver|]. rewrite fmap_None, IH. naive_solver.
Qed.

(** ** Buckets *)

Lemma bucket_index_lt k h : bucket_count h ≠ 0 → bucket_index k h < bucket_count h.
Proof.
  intros Hb. unfold bucket_index.
  pose proof (N.mod_upper_bound (hash_key k) (N.of_nat (bucket_count h))). lia.
Qed.

Lemma bucket_lookup i h : i < bucket_count h → buckets_ h !! i = Some (bucket i h).
Proof.
  intros Hi. unfold bucket. by destruct (lookup_lt_is_Some_2 (buckets_ h) i Hi) as [c ->].
Qed.

(** [h] with the chain of bucket [idx] replaced. *)
Definition set_bucket (idx : nat) (c : list Node) (sz : nat) (h : t) : t :=
  mk (<[idx := c]> (buckets_ h)) sz.

Lemma bucket_count_set idx c sz h : bucket_count (set_bucket idx c sz h) = bucket_count h.
Proof. apply length_insert. Qed.

Lemma bucket_index_set k idx c sz h : bucket_index k (set_bucket idx c sz h) = bucket_index k h.
Proof. unfold bucket_index. by rewrite bucket_count_set. Qed.

Lemma bucket_set i idx c sz h :
  idx < bucket_count h → bucket i (set_bucket idx c sz h) = if decide (i = idx) then c else bucket i h.
Proof.
  intros Hi. unfold bucket, set_bucket. simpl. case_decide; subst.
  - by rewrite list_lookup_insert_eq.
  - by rewrite list_lookup_insert_ne.
Qed.

Lemma find_set k idx c sz h :
  idx < bucket_count h →
  find k (set_bucket idx c sz h) =
  if decide (bucket_index k h = idx) then chain_find k c else find k h.
Proof.
  intros Hi. unfold find. rewrite bucket_index_set, bucket_set by done. by case_decide.
Qed.

Lemma wf_set idx c sz h :
  wf h → idx < bucket_count h → (∀ n, n ∈ c → bucket_index (key n) h = idx) →
  NoDup (key <$> c) → sz + length (bucket idx h) = size_ h + length c →
  wf (set_bucket idx c sz h).
Proof.
  intros Hwf Hi Hc Hnd Hsz. split.
  - rewrite bucket_count_set. apply Hwf.
  - intros i c' n. rewrite bucket_index_set. unfold set_bucket. simpl.
    intros [(-> & -> & _)|[Hne Hl]]%list_lookup_insert_Some; [intros; by apply Hc|].
    apply (wf_placed h Hwf i c' n Hl).
  - unfold set_bucket. simpl. intros i c'.
    intros [(-> & -> & _)|[Hne Hl]]%list_lookup_insert_Some; [done|].
    apply (wf_chain h Hwf i c' Hl).
  - pose proof (concat_insert_perm (buckets_ h) idx (bucket idx h) c
      (bucket_lookup idx h Hi)) as Hp%Permutation_length.
    rewrite !length_app in Hp. unfold nodes, set_bucket. simpl.
    pose proof (wf_size h Hwf) as Hs. unfold nodes in Hs. lia.
Qed.

(** ** The table as a map *)

Lemma wf_keys h : wf h → NoDup ((binding <$> nodes h).*1).
Proof.
  intros Hwf. rewrite <-list_fmap_compose. apply NoDup_concat_keys.
  - intros i l Hl. apply (wf_chain h Hwf i l Hl).
  - intros i j l1 l2 a b H1 H2 Ha Hb Hk. simpl in Hk.
    rewrite <-(wf_placed h Hwf i l1 a H1 Ha), <-(wf_placed h Hwf j l2 b H2 Hb). by rewrite Hk.
Qed.

Lemma find_elem k e h : wf h → find k h = Some e ↔ mkNode k e ∈ nodes h.
Proof.
  intros Hwf. pose proof (bucket_index_lt k h (wf_buckets h Hwf)) as Hi.
  pose proof (bucket_lookup _ h Hi) as Hl. unfold find.
  rewrite chain_find_Some by (by eapply wf_chain). unfold nodes. rewrite elem_of_concat. split.
  - intros Hin. eauto.
  - intros (i & c & Hc & Hin). pose proof (wf_placed h Hwf i c _ Hc Hin) as Hp. simpl in Hp.
    subst i. by simplify_eq.
Qed.

Lemma to_map_find k h : wf h → to_map h !! k = find k h.
Proof.
  intros Hwf. apply option_eq. intros e. rewrite find_elem by done. unfold to_map.
  rewrite <-elem_of_list_to_map by (by apply wf_keys).
  rewrite list_elem_of_fmap. split.
  - by intros ([k' e'] & [= -> ->] & Hin).
  - intros Hin. by exists (mkNode k e).
Qed.

(** Two well-formed tables, or a table and a map, are compared by lookups. *)
Lemma to_map_ext h m : wf h → (∀ k, find k h = m !! k) → to_map h = m.
Proof. intros Hwf Hf. apply map_eq. intros k. by rewrite to_map_find. Qed.

Lemma to_map_size h : wf h → base.size (to_map h) = size h.
Proof.
  intros Hwf. unfold size. rewrite (wf_size h Hwf). unfold to_map.
  rewrite <-length_map_to_list, map_to_list_to_map by (by apply wf_keys).
  apply length_fmap.
Qed.

(** ** Insertion *)

(** What an insertion function promises of a table. *)
Definition inserts (ins : t → string → StorageEntry → t * bool) : Prop :=
  ∀ h k e, wf h →
    wf (ins h k e).1 ∧ to_map (ins h k e).1 = <[k := e]> (to_map h) ∧
    (ins h k e).2 = bool_decide (to_map h !! k = None).

(** Refilling a table from a list of nodes with distinct keys. *)
Lemma refill_spec ins l h :
  inserts ins → wf h →
  let h' := foldl (λ h n, (ins h (key n) (entry n)).1) h l in
  wf h' ∧ to_map h' = list_to_map (reverse (binding <$> l)) ∪ to_map h.
Proof.
  intros Hins. revert h. induction l as [|n l IH]; intros h Hwf; simpl.
  - split; [done|]. by rewrite (left_id_L ∅ (∪)).
  - destruct (Hins h (key n) (entry n) Hwf) as (Hwf1 & Hm1 & _).
    destruct (IH _ Hwf1) as (Hwf2 & Hm2). split; [done|].
    rewrite Hm2, Hm1, reverse_cons, list_to_map_app, <-(assoc_L (∪)). simpl.
    by rewrite insert_empty, <-insert_union_singleton_l.
Qed.

Lemma wf_empty n : n ≠ 0 → wf (mk (replicate n []) 0) ∧ to_map (mk (replicate n []) 0) = ∅.
Proof.
  intros Hn. assert (nodes (mk (replicate n []) 0) = []) as Hnodes.
  { unfold nodes. simpl. clear Hn. induction n; simpl; [done|]. done. }
  split; [|unfold to_map; by rewrite Hnodes].
  split; [|intros i c m [-> _]%lookup_replicate; by intros ?%not_elem_of_nil| |by rewrite Hnodes].
  - unfold bucket_count. simpl. by rewrite length_replicate.
  - intros i c [-> _]%lookup_replicate. constructor.
Qed.

Lemma rehash_with_spec ins h :
  inserts ins → wf h → wf (rehash_with ins h) ∧ to_map (rehash_with ins h) = to_map h.
Proof.
  intros Hins Hwf. unfold rehash_with. case_match; [done|].
  destruct (wf_empty (length (buckets_ h) * 2)) as [Hw0 Hm0].
  { pose proof (wf_buckets h Hwf). unfold bucket_count in *. lia. }
  destruct (refill_spec ins (nodes h) _ Hins Hw0) as [Hw Hm].
  split; [done|]. unfold nodes in Hm at 1. rewrite Hm, Hm0, (right_id_L ∅ (∪)).
  unfold to_map. apply list_to_map_proper; [|by rewrite reverse_Permutation].
  rewrite fmap_reverse, reverse_Permutation. by apply wf_keys.
Qed.

(** The key is present: its entry is replaced. *)
Lemma assign_spec h k e c :
  wf h → chain_assign k e (bucket (bucket_index k h) h) = Some c →
  let h' := set_bucket (bucket_index k h) c (size_ h) h in
  wf h' ∧ to_map h' = <[k := e]> (to_map h) ∧ is_Some (to_map h !! k).
Proof.
  intros Hwf Ha. pose proof (bucket_index_lt k h (wf_buckets h Hwf)) as Hi.
  pose proof (bucket_lookup _ h Hi) as Hl. apply chain_assign_Some in Ha as (Hkeys & Hs & Hf).
  assert (wf (set_bucket (bucket_index k h) c (size_ h) h)) as Hwf'.
  { apply wf_set; [done|done| |rewrite Hkeys; by eapply wf_chain|].
    - intros n Hn. assert (key n ∈ (key <$> bucket (bucket_index k h) h)) as Hin.
      { rewrite <-Hkeys. by apply list_elem_of_fmap_2. }
      apply list_elem_of_fmap in Hin as (n' & -> & Hn'). by eapply wf_placed.
    - apply (f_equal length) in Hkeys. rewrite !length_fmap in Hkeys. lia. }
  split; [done|]. split; [|by rewrite to_map_find].
  apply to_map_ext; [done|]. intros k'. rewrite find_set, Hf, lookup_insert by done.
  rewrite to_map_find by done. unfold find. repeat case_decide; congruence.
Qed.

(** The key is absent: a node is put in front of its chain. *)
Lemma push_spec h k e :
  wf h → chain_assign k e (bucket (bucket_index k h) h) = None →
  let h' := set_bucket (bucket_index k h) (mkNode k e :: bucket (bucket_index k h) h) (S (size_ h)) h in
  wf h' ∧ to_map h' = <[k := e]> (to_map h) ∧ to_map h !! k = None.
Proof.
  intros Hwf Ha. pose proof (bucket_index_lt k h (wf_buckets h Hwf)) as Hi.
  pose proof (bucket_lookup _ h Hi) as Hl. apply chain_assign_None in Ha.
  assert (wf (set_bucket (bucket_index k h)
    (mkNode k e :: bucket (bucket_index k h) h) (S (size_ h)) h)) as Hwf'.
  { apply wf_set; [done|done| | |simpl; lia].
    - intros n [->|Hn]%elem_of_cons; [done|]. by eapply wf_placed.
    - csimpl. apply NoDup_cons. split; [done|]. by eapply wf_chain. }
  split; [done|]. split; [|rewrite to_map_find by done; by apply chain_find_None].
  apply to_map_ext; [done|]. intros k'. rewrite find_set, lookup_insert by done.
  rewrite to_map_find by done. simpl. unfold find. repeat case_decide; congruence.
Qed.

(** [insert], at every nesting depth, implements the insertion of the map. *)
Lemma insert_fuel_inserts fuel : inserts (insert_fuel fuel).
Proof.
  induction fuel as [|fuel IH]; intros h k e Hwf; simpl;
    (destruct (chain_assign k e _) as [c|] eqn:Ha;
     [destruct (assign_spec h k e c Hwf Ha) as (Hw & Hm & [e0 He0]);
      split; [done|]; split; [done|]; by rewrite He0|
      destruct (push_spec h k e Hwf Ha) as (Hw & Hm & Hn); rewrite Hn]).
  - done.
  - destruct (rehash_with_spec _ _ IH Hw) as [Hw' Hm'].
    split; [done|]. split; [|done]. by rewrite <-Hm, <-Hm'.
Qed.

(** ** Deletion *)

Lemma erase_wf h k :
  wf h → wf (erase k h).1 ∧ to_map (erase k h).1 = delete k (to_map h) ∧
  (erase k h).2 = bool_decide (is_Some (to_map h !! k)).
Proof.
  intros Hwf. pose proof (bucket_index_lt k h (wf_buckets h Hwf)) as Hi.
  pose proof (bucket_lookup _ h Hi) as Hl. unfold erase.
  rewrite to_map_find by done. destruct (chain_erase k _) as [c|] eqn:He; simpl.
  - apply chain_erase_Some in He as (Hnd & Hin & Hlen & Hk & Hf); [|by eapply wf_chain].
    change (mk _ _) with (set_bucket (bucket_index k h) c (size_ h - 1) h).
    assert (size_ h ≠ 0).
    { rewrite (wf_size h Hwf). intros Hz%nil_length_inv.
      assert (∃ n, n ∈ bucket (bucket_index k h) h) as [n Hn].
      { apply list_elem_of_fmap in Hk as (n & _ & Hn). eauto. }
      assert (n ∈ nodes h) as Hn' by (apply elem_of_concat; eauto).
      rewrite Hz in Hn'. by apply not_elem_of_nil in Hn'. }
    assert (wf (set_bucket (bucket_index k h) c (size_ h - 1) h)) as Hwf'.
    { apply wf_set; [done|done| |done|lia]. intros n Hn. eapply wf_placed; [done|done|auto]. }
    split; [done|]. split.
    + apply to_map_ext; [done|]. intros k'. rewrite find_set, Hf, lookup_delete by done.
      rewrite to_map_find by done. unfold find. repeat case_decide; congruence.
    + rewrite bool_decide_eq_true_2; [done|]. unfold find.
      destruct (chain_find k _) eqn:E; [eauto|]. by apply chain_find_None in E.
  - apply chain_erase_None, chain_find_None in He. split; [done|]. unfold find. rewrite He.
    split; [|by rewrite bool_decide_eq_false_2 by (by intros [? ?])].
    rewrite delete_id; [done|]. by rewrite to_map_find.
Qed.

(** ** Other operations *)

Lemma clear_wf h : wf h → wf (clear h) ∧ to_map (clear h) = ∅.
Proof. intros Hwf. apply wf_empty. apply (wf_buckets h Hwf). Qed.

Lemma make_wf n : wf (make n) ∧ to_map (make n) = ∅.
Proof. apply wf_empty. case_match; bsimp; lia. Qed.

Lemma contains_spec k h : wf h → contains k h = bool_decide (is_Some (to_map h !! k)).
Proof.
  intros Hwf. unfold contains. rewrite to_map_find by done.
  by destruct (find k h); [rewrite bool_decide_eq_true_2 by eauto|
                           rewrite bool_decide_eq_false_2 by (by intros [])].
Qed.

(** [for_each] runs the callback on the list of bindings, each exactly once. *)
Lemma for_each_bindings {A} (fn : A → string → StorageEntry → A) h a :
  for_each fn h a = foldl (λ a b, fn a b.1 b.2) a (binding <$> nodes h).
Proof.
  unfold for_each, nodes. revert a. induction (concat (buckets_ h)) as [|n l IH]; intros a; [done|].
  csimpl. apply IH.
Qed.

Lemma bindings_perm h : wf h → binding <$> nodes h ≡ₚ map_to_list (to_map h).
Proof. intros Hwf. unfold to_map. symmetry. apply map_to_list_to_map. by apply wf_keys. Qed.

(** ** Nesting of insertions *)

(** Fewer entries than buckets, whose number is a power of two.  (The default
    bucket count is 4096, and a rehash doubles it.) *)
Definition balanced (h : t) : Prop :=
  ∃ k, k < 98 ∧ bucket_count h = 2 ^ k ∧ size_ h < 2 ^ k.

Lemma of_nat_pow2 k : Z.of_nat (2 ^ k) = (2 ^ Z.of_nat k)%Z.
Proof. by rewrite Nat2Z.inj_pow. Qed.

Lemma insert_fuel_counts h k e :
  bucket_count (insert_fuel 0 h k e).1 = bucket_count h ∧
  size_ h ≤ size_ (insert_fuel 0 h k e).1 ≤ S (size_ h).
Proof.
  simpl. destruct (chain_assign k e _); simpl;
    (split; [apply (bucket_count_set _ _ 0)|lia]).
Qed.

(** An insertion into a table that stays at most half full does not rehash. *)
Lemma insert_fuel_half fuel h k e j :
  j < 98 → bucket_count h = 2 ^ S j → size_ h < 2 ^ j →
  insert_fuel fuel h k e = insert_fuel 0 h k e.
Proof.
  intros Hj Hb Hs. destruct fuel as [|fuel]; [done|]. simpl.
  destruct (chain_assign k e _) as [c|]; [done|]. f_equal.
  unfold rehash_with. simpl.
  replace (bucket_count _) with (2 ^ S j) by (by rewrite <-Hb; symmetry; apply (bucket_count_set _ _ 0)).
  rewrite load_ok_half; [done| |lia]. rewrite <-of_nat_pow2. lia.
Qed.

Lemma refill_fuel fuel l h j :
  j < 98 → bucket_count h = 2 ^ S j → size_ h + length l ≤ 2 ^ j →
  foldl (λ h n, (insert_fuel fuel h (key n) (entry n)).1) h l =
  foldl (λ h n, (insert_fuel 0 h (key n) (entry n)).1) h l ∧
  bucket_count (foldl (λ h n, (insert_fuel 0 h (key n) (entry n)).1) h l) = 2 ^ S j ∧
  size_ (foldl (λ h n, (insert_fuel 0 h (key n) (entry n)).1) h l) ≤ size_ h + length l.
Proof.
  intros Hj. revert h. induction l as [|n l IH]; intros h Hb Hs; [split_and!; [done|done|simpl; lia]|].
  cbn [foldl length] in *. rewrite (insert_fuel_half fuel h _ _ j) by (done || lia).
  destruct (insert_fuel_counts h (key n) (entry n)) as [Hb1 Hs1].
  destruct (IH (insert_fuel 0 h (key n) (entry n)).1) as (H1 & H2 & H3); [by rewrite Hb1|lia|].
  split_and!; [done|done|lia].
Qed.

(** The rehash of a balanced table with one more entry: the nested insertions
    do not rehash, and the result is balanced again. *)
Lemma rehash_fuel fuel h j :
  wf h → j < 98 → bucket_count h = 2 ^ j → size_ h ≤ 2 ^ j →
  rehash_with (insert_fuel fuel) h = rehash_with (insert_fuel 0) h ∧
  let h' := rehash_with (insert_fuel 0) h in
  load_ok (size_ h') (bucket_count h') = true ∧
  ∃ k, (k = j ∨ k = S j ∧ 2 ^ j < 2 * size_ h) ∧ bucket_count h' = 2 ^ k ∧ size_ h' < 2 ^ k.
Proof.
  intros Hwf Hj Hb Hs. unfold rehash_with. destruct (load_ok _ _) eqn:Hl.
  - split; [done|]. split; [done|]. exists j. split_and!; [by left|done|].
    rewrite Hb in Hl. apply load_ok_lt in Hl; [|lia|].
    + rewrite <-of_nat_pow2 in Hl. lia.
    + pose proof (Z.pow_lt_mono_r 2 (Z.of_nat j) 99). rewrite <-of_nat_pow2 in *. lia.
  - assert (2 ^ j < 2 * size_ h) as Hbig.
    { destruct j as [|j]; [destruct (size_ h); [by rewrite Hb in Hl|simpl; lia]|].
      destruct (decide (2 ^ S j < 2 * size_ h)) as [|Hn]; [done|].
      rewrite Hb, load_ok_half in Hl; [done| |lia]. rewrite <-of_nat_pow2. simpl in Hn. lia. }
    rewrite (wf_size h Hwf) in Hs.
    destruct (refill_fuel fuel (nodes h) (mk (replicate (length (buckets_ h) * 2) []) 0) j)
      as (H1 & H2 & H3); [done| |done|].
    { unfold bucket_count in *. simpl buckets_. rewrite length_replicate, Hb. simpl. lia. }
    split; [done|]. cbv zeta. unfold nodes in *. cbn [size_] in H3. split.
    + rewrite H2. apply load_ok_half; [|lia]. rewrite <-of_nat_pow2. lia.
    + exists (S j). split; [by right|]. split; [done|].
      assert (2 ^ j < 2 ^ S j) by (apply Nat.pow_lt_mono_r; lia). lia.
Qed.

Lemma insert_fuel_S fuel h k e :
  wf h → balanced h → insert_fuel (S fuel) h k e = insert_fuel 1 h k e.
Proof.
  intros Hwf (j & Hj & Hb & Hs). simpl.
  destruct (chain_assign k e _) as [c|] eqn:Ha; [done|]. f_equal.
  destruct (push_spec h k e Hwf Ha) as (Hw & _).
  apply (rehash_fuel fuel _ j); [done|done|rewrite <-Hb; apply length_insert|simpl; lia].
Qed.

Lemma insert_balanced h k e :
  wf h → balanced h → (Z.of_nat (size_ h) < 2 ^ 64 - 1)%Z →
  balanced (insert h k e).1 ∧
  ((insert h k e).2 = true →
   load_ok (size_ (insert h k e).1) (bucket_count (insert h k e).1) = true).
Proof.
  intros Hwf Hbal Hcap. unfold insert. rewrite (insert_fuel_S 1) by done.
  destruct Hbal as (j & Hj & Hb & Hs). simpl.
  destruct (chain_assign k e _) as [c|] eqn:Ha; simpl.
  { split; [|done]. exists j. split_and!; [done|by rewrite <-Hb; apply (bucket_count_set _ _ 0)|done]. }
  destruct (push_spec h k e Hwf Ha) as (Hw & _).
  destruct (rehash_fuel 0 _ j Hw) as (_ & Hl & i & Hi & Hbi & Hsi);
    [done|rewrite <-Hb; apply length_insert|simpl; lia|].
  split; [|done]. exists i. split_and!; [|done|done].
  destruct Hi as [->|[-> Hbig%inj_lt]]; [done|]. rewrite of_nat_pow2 in Hbig. cbn [size_ set_bucket] in Hbig.
  assert (¬ 97 ≤ j); [|lia]. intros Hge.
  pose proof (Z.pow_le_mono_r 2 97 (Z.of_nat j)). lia.
Qed.

(** ** Refinement of a finite map *)

(** The public operations, and their answers. *)
Inductive op :=
| Insert (k : string) (e : StorageEntry)
| Find (k : string)
| Erase (k : string)
| Contains (k : string)
| Size
| Clear.

Inductive answer :=
| ABool (b : bool)
| AEntry (e : option StorageEntry)
| ACount (n : nat)
| ADone.

Definition step (h : t) (o : op) : t * answer :=
  match o with
  | Insert k e => let '(h', b) := insert h k e in (h', ABool b)
  | Find k => (h, AEntry (find k h))
  | Erase k => let '(h', b) := erase k h in (h', ABool b)
  | Contains k => (h, ABool (contains k h))
  | Size => (h, ACount (size h))
  | Clear => (clear h, ADone)
  end.

(** The specification: the same operations on a map. *)
Definition spec_step (m : gmap string StorageEntry) (o : op) : gmap string StorageEntry * answer :=
  match o with
  | Insert k e => (<[k := e]> m, ABool (bool_decide (m !! k = None)))
  | Find k => (m, AEntry (m !! k))
  | Erase k => (delete k m, ABool (bool_decide (is_Some (m !! k))))
  | Contains k => (m, ABool (bool_decide (is_Some (m !! k))))
  | Size => (m, ACount (base.size m))
  | Clear => (∅, ADone)
  end.

Fixpoint run {S} (step : S → op → S * answer) (s : S) (os : list op) : S * list answer :=
  match os with
  | [] => (s, [])
  | o :: os' =>
      let '(s1, a) := step s o in
      let '(s2, l) := run step s1 os' in (s2, a :: l)
  end.

Lemma step_simulates h o :
  wf h → wf (step h o).1 ∧ to_map (step h o).1 = (spec_step (to_map h) o).1 ∧
  (step h o).2 = (spec_step (to_map h) o).2.
Proof.
  intros Hwf. destruct o as [k e|k|k|k| |]; simpl.
  - destruct (insert_fuel_inserts 2 h k e Hwf) as (Hw & Hm & Hb). unfold insert.
    destruct (insert_fuel 2 h k e) as [h' b]. simpl in *. by rewrite Hb.
  - by rewrite to_map_find.
  - destruct (erase_wf h k Hwf) as (Hw & Hm & Hb).
    destruct (erase k h) as [h' b]. simpl in *. by rewrite Hb.
  - by rewrite contains_spec.
  - by rewrite to_map_size.
  - by destruct (clear_wf h Hwf).
Qed.

(** C1: every sequence of table operations (insert with its rehashes, find,
    erase, contains, size, clear) gives the answers of a finite map from keys
    to entries, and the table keeps representing that map. *)
Theorem table_refines_map os h :
  wf h →
  let '(h', answers) := run step h os in
  wf h' ∧ run spec_step (to_map h) os = (to_map h', answers).
Proof.
  revert h. induction os as [|o os IH]; intros h Hwf; simpl; [done|].
  destruct (step_simulates h o Hwf) as (Hw & Hm & Ha).
  destruct (step h o) as [h1 a], (spec_step (to_map h) o) as [m1 a']. simpl in *. subst.
  specialize (IH h1 Hw). destruct (run step h1 os) as [h2 l]. destruct IH as [Hw2 ->].
  done.
Qed.

(** The insertions a rehash performs never rehash in turn, whatever depth of
    nesting the recursion is given: on a table with fewer entries than buckets
    the result of [insert] does not depend on the fuel. *)
Theorem insert_nesting_bounded fuel h k e :
  wf h → balanced h → insert_fuel (S fuel) h k e = insert h k e.
Proof.
  intros Hwf Hb. unfold insert. by rewrite (insert_fuel_S fuel), (insert_fuel_S 1).
Qed.

(** C27: [insert] keeps the bucket count a power of two above the number of
    entries, and after a new key the single-precision load factor is at most
    0.75 (for a [size_t] count below its maximum). *)
Theorem insert_keeps_load_factor h k e :
  wf h → balanced h → (Z.of_nat (size_ h) < 2 ^ 64 - 1)%Z →
  let '(h', fresh) := insert h k e in
  wf h' ∧ balanced h' ∧ (fresh = true → load_ok (size_ h') (bucket_count h') = true).
Proof.
  intros Hwf Hb Hcap. destruct (insert_balanced h k e Hwf Hb Hcap) as [Hb' Hl].
  destruct (insert_fuel_inserts 2 h k e Hwf) as (Hw & _). unfold insert in *.
  by destruct (insert_fuel 2 h k e).
Qed.

(** [for_each] visits every key of the map exactly once, with its entry. *)
Theorem for_each_visits_map {A} (fn : A → string → StorageEntry → A) h a :
  wf h → ∃ l, l ≡ₚ map_to_list (to_map h) ∧ for_each fn h a = foldl (λ a b, fn a b.1 b.2) a l.
Proof.
  intros Hwf. exists (binding <$> nodes h). split; [by apply bindings_perm|apply for_each_bindings].
Qed.

End WithHash.

(** ** Witnesses, with a concrete hash function *)

Definition sum_hash : StdHash := λ s,
  (fix go (s : string) : N :=
     match s with "" => 7%N | String c s' => (code c + 31 * go s')%N end) s.

Definition demo_ops : list op :=
  [Insert "a" (mkEntry "1" None); Insert "b" (mkEntry "2" None); Insert "a" (mkEntry "3" None);
   Find "a"; Erase "b"; Contains "b"; Size].

Lemma table_refines_map_witness :
  (run (@step sum_hash) (make 16) demo_ops).2 =
    [ABool true; ABool true; ABool false; AEntry (Some (mkEntry "3" None)); ABool true;
     ABool false; ACount 1] ∧
  (let '(h', answers) := run (@step sum_hash) (make 16) demo_ops in
   @wf sum_hash h' ∧ run spec_step (to_map (make 16)) demo_ops = (to_map h', answers)).
Proof.
  split; [vm_compute; reflexivity|].
  apply (@table_refines_map sum_hash demo_ops (make 16)). apply make_wf.
Defined.

(** Twelve keys in sixteen buckets: the next key makes the table grow. *)
Definition demo_nodes : list Node :=
  (λ k, mkNode k (mkEntry "v" None)) <$>
  ["k0"; "k1"; "k2"; "k3"; "k4"; "k5"; "k6"; "k7"; "k8"; "k9"; "ka"; "kb"].

Definition demo_table : t :=
  foldl (λ h n, (@insert sum_hash h (key n) (entry n)).1) (make 16) demo_nodes.

Lemma demo_table_wf : @wf sum_hash demo_table.
Proof.
  apply (@refill_spec sum_hash (@insert sum_hash)); [apply (@insert_fuel_inserts sum_hash 2)|apply make_wf].
Qed.

Lemma demo_table_balanced : balanced demo_table.
Proof. exists 4. split; [lia|]. split; [vm_compute; reflexivity|vm_compute; lia]. Qed.

Lemma insert_nesting_bounded_witness :
  @insert_fuel sum_hash 7 demo_table "k" (mkEntry "v" None) =
  @insert sum_hash demo_table "k" (mkEntry "v" None).
Proof. apply (@insert_nesting_bounded sum_hash); [apply demo_table_wf|apply demo_table_balanced]. Defined.

Lemma insert_keeps_load_factor_witness :
  bucket_count demo_table = 16 ∧
  bucket_count (@insert sum_hash demo_table "k" (mkEntry "v" None)).1 = 32 ∧
  let '(h', fresh) := @insert sum_hash demo_table "k" (mkEntry "v" None) in
  @wf sum_hash h' ∧ balanced h' ∧ (fresh = true → load_ok (size_ h') (bucket_count h') = true).
Proof.
  split; [vm_compute; reflexivity|]. split; [vm_compute; reflexivity|].
  apply (@insert_keeps_load_factor sum_hash);
    [apply demo_table_wf|apply demo_table_balanced|vm_compute; reflexivity].
Defined.

Lemma for_each_visits_map_witness :
  for_each (λ n _ _, S n) demo_table 0 = 12 ∧
  ∃ l, l ≡ₚ map_to_list (to_map demo_table) ∧
    for_each (λ n _ _, S n) demo_table 0 = foldl (λ a _, S a) 0 l.
Proof.
  split; [vm_compute; reflexivity|]. apply (@for_each_visits_map sum_hash). apply demo_table_wf.
Defined.

End HashTable.
