(* ===== verification/Nodes.v ===== *)
(** * The nodes of the hash table (src/storage/hash_table.cpp)

    [Table.v] takes a chain for the list of its nodes.  This file keeps the pointers:
    a node is an allocated block with a [next] pointer, a bucket holds the address
    of the first node or null, [new] and [delete] change the set of allocated
    blocks, and reading or freeing a block that is not allocated is undefined
    behaviour.  The theorem relates every sequence of operations on the pointers to
    the same operations on lists: no dangling pointer is ever followed, nothing is
    freed twice, and exactly the nodes in the chains are allocated. *)

From S2P Require Import Prelude CppStd Binary32 Table.

Abbreviation loc := positive.

(** [operator new]: an address that is not in use. *)
Class Allocator := {
  alloc : gset loc → loc;
  alloc_fresh s : alloc s ∉ s
}.

Module NodeTable.

(** [struct Node]. *)
Record Node := mkNode { key : string; entry : StorageEntry; next : option loc }.

#[global] Instance Node_eq_dec : EqDecision Node.
Proof. solve_decision. Defined.

Abbreviation Heap := (gmap loc Node).

(** The members of the table, and the nodes that are allocated. *)
Record t := mk { heap : Heap; buckets_ : list (option loc); size_ : nat }.

(** [*p], [delete p] and [v[i]]. *)
Definition load (p : loc) (m : Heap) : Outcome Node :=
  match m !! p with Some n => Ret n | None => Undefined end.
Definition free (p : loc) (m : Heap) : Outcome Heap :=
  match m !! p with Some _ => Ret (delete p m) | None => Undefined end.
Definition at_ {A} (v : list A) (i : nat) : Outcome A :=
  match v !! i with Some a => Ret a | None => Undefined end.

(** A loop along [next] visits each node at most once. *)
Definition walk_bound (m : Heap) : nat := S (base.size m).
#[global] Arguments walk_bound : simpl never.

Section Operations.
Context `{StdHash, Allocator}.

Definition make (bucket_count : nat) : t :=
  mk ∅ (replicate (if (bucket_count <? 16)%nat then 16%nat else bucket_count) None) 0.

Definition bucket_index (k : string) (x : t) : nat :=
  N.to_nat (HashTable.hash_key k mod N.of_nat (length (buckets_ x))).

(** The [while] loop of [insert]; the new heap when the key is found. *)
Fixpoint assign_loop (fuel : nat) (k : string) (e : StorageEntry) (current : option loc) (m : Heap)
    : Outcome (option Heap) :=
  match current, fuel with
  | None, _ => Ret None
  | Some _, O => Undefined
  | Some p, S fuel' =>
      n ← load p m;
      if decide (key n = k) then Ret (Some (<[p := mkNode (key n) e (next n)]> m))
      else assign_loop fuel' k e (next n) m
  end.

(** [new Node{key, entry, buckets_[idx]}], [buckets_[idx] = node], [++size_]. *)
Definition push (idx : nat) (k : string) (e : StorageEntry) (x : t) : Outcome t :=
  head ← at_ (buckets_ x) idx;
  let node := alloc (dom (heap x)) in
  Ret (mk (<[node := mkNode k e head]> (heap x)) (<[idx := Some node]> (buckets_ x)) (S (size_ x))).

(** The inner loop of [rehash_if_needed] over one old chain, with the [insert] it
    calls; the moved-from key and entry of [head] are not read again. *)
Fixpoint move_loop (ins : t → string → StorageEntry → Outcome (t * bool)) (fuel : nat) (head : option loc) (x : t)
    : Outcome t :=
  match head, fuel with
  | None, _ => Ret x
  | Some _, O => Undefined
  | Some p, S fuel' =>
      n ← load p (heap x);
      '(x, _) ← ins x (key n) (entry n);
      m ← free p (heap x);
      move_loop ins fuel' (next n) (mk m (buckets_ x) (size_ x))
  end.

Definition rehash_with (ins : t → string → StorageEntry → Outcome (t * bool)) (x : t) : Outcome t :=
  if load_ok (size_ x) (length (buckets_ x)) then Ret x
  else
    fold_outcome (λ x' head, move_loop ins (walk_bound (heap x')) head x')
      (mk (heap x) (replicate (length (buckets_ x) * 2) None) 0) (buckets_ x).

(** [insert] and [rehash_if_needed] call each other, as in [Table.v]. *)
Fixpoint insert_fuel (fuel : nat) (x : t) (k : string) (e : StorageEntry) : Outcome (t * bool) :=
  let idx := bucket_index k x in
  current ← at_ (buckets_ x) idx;
  found ← assign_loop (walk_bound (heap x)) k e current (heap x);
  match found with
  | Some m => Ret (mk m (buckets_ x) (size_ x), false)
  | None =>
      x ← push idx k e x;
      match fuel with
      | O => Ret (x, true)
      | S fuel' => x ← rehash_with (insert_fuel fuel') x; Ret (x, true)
      end
  end.

Definition insert (x : t) (k : string) (e : StorageEntry) : Outcome (t * bool) := insert_fuel 2 x k e.

Definition rehash_if_needed (x : t) : Outcome t := rehash_with (insert_fuel 1) x.

Lemma insert_unfold x k e :
  insert x k e =
  (current ← at_ (buckets_ x) (bucket_index k x);
   found ← assign_loop (walk_bound (heap x)) k e current (heap x);
   match found with
   | Some m => Ret (mk m (buckets_ x) (size_ x), false)
   | None => x ← push (bucket_index k x) k e x; x ← rehash_if_needed x; Ret (x, true)
   end).
Proof. done. Qed.

Fixpoint find_loop (fuel : nat) (k : string) (current : option loc) (m : Heap) : Outcome (option StorageEntry) :=
  match current, fuel with
  | None, _ => Ret None
  | Some _, O => Undefined
  | Some p, S fuel' =>
      n ← load p m;
      if decide (key n = k) then Ret (Some (entry n)) else find_loop fuel' k (next n) m
  end.

Definition find (k : string) (x : t) : Outcome (option StorageEntry) :=
  current ← at_ (buckets_ x) (bucket_index k x);
  find_loop (walk_bound (heap x)) k current (heap x).

(** [prev->next = next], or [buckets_[idx] = next] when there is no [prev]. *)
Definition unlink (idx : nat) (prev : option loc) (nxt : option loc) (x : t) : Outcome t :=
  match prev with
  | Some q => n ← load q (heap x); Ret (mk (<[q := mkNode (key n) (entry n) nxt]> (heap x)) (buckets_ x) (size_ x))
  | None => Ret (mk (heap x) (<[idx := nxt]> (buckets_ x)) (size_ x))
  end.

(** [erase]'s loop; when it finds the key it unlinks and deletes the node. *)
Fixpoint erase_loop (fuel : nat) (k : string) (idx : nat) (prev current : option loc) (x : t)
    : Outcome (t * bool) :=
  match current, fuel with
  | None, _ => Ret (x, false)
  | Some _, O => Undefined
  | Some p, S fuel' =>
      n ← load p (heap x);
      if decide (key n = k) then
        x ← unlink idx prev (next n) x;
        m ← free p (heap x);
        Ret (mk m (buckets_ x) (size_ x - 1), true)
      else erase_loop fuel' k idx (Some p) (next n) x
  end.

Definition erase (k : string) (x : t) : Outcome (t * bool) :=
  current ← at_ (buckets_ x) (bucket_index k x);
  erase_loop (walk_bound (heap x)) k (bucket_index k x) None current x.

Definition contains (k : string) (x : t) : Outcome bool :=
  r ← find k x; Ret (match r with Some _ => true | None => false end).

(** The inner loop of [clear]. *)
Fixpoint delete_loop (fuel : nat) (head : option loc) (m : Heap) : Outcome Heap :=
  match head, fuel with
  | None, _ => Ret m
  | Some _, O => Undefined
  | Some p, S fuel' => n ← load p m; m ← free p m; delete_loop fuel' (next n) m
  end.

Definition clear (x : t) : Outcome t :=
  m ← fold_outcome (λ m head, delete_loop (walk_bound m) head m) (heap x) (buckets_ x);
  Ret (mk m (replicate (length (buckets_ x)) None) 0).

(** [for_each]: the calls of the callback, in order. *)
Fixpoint each_loop (fuel : nat) (current : option loc) (m : Heap) (out : list (string * StorageEntry))
    : Outcome (list (string * StorageEntry)) :=
  match current, fuel with
  | None, _ => Ret out
  | Some _, O => Undefined
  | Some p, S fuel' => n ← load p m; each_loop fuel' (next n) m (out ++ [(key n, entry n)])
  end.

Definition for_each (x : t) : Outcome (list (string * StorageEntry)) :=
  fold_outcome (λ out head, each_loop (walk_bound (heap x)) head (heap x) out) [] (buckets_ x).

(** The class has no destructor: the vector goes, the nodes stay allocated. *)
Definition destroy (x : t) : Heap := heap x.

(** ** Operations *)

Definition step (x : t) (o : HashTable.op) : Outcome (t * HashTable.answer) :=
  match o with
  | HashTable.Insert k e => '(x, b) ← insert x k e; Ret (x, HashTable.ABool b)
  | HashTable.Find k => r ← find k x; Ret (x, HashTable.AEntry r)
  | HashTable.Erase k => '(x, b) ← erase k x; Ret (x, HashTable.ABool b)
  | HashTable.Contains k => b ← contains k x; Ret (x, HashTable.ABool b)
  | HashTable.Size => Ret (x, HashTable.ACount (size_ x))
  | HashTable.Clear => x ← clear x; Ret (x, HashTable.ADone)
  end.

Fixpoint run (x : t) (os : list HashTable.op) : Outcome (t * list HashTable.answer) :=
  match os with
  | [] => Ret (x, [])
  | o :: os' => '(x, a) ← step x o; '(x, l) ← run x os'; Ret (x, a :: l)
  end.

End Operations.

(** ** Chains of nodes *)

(** From [current] on, the heap holds the nodes [c] at their addresses, in order, up
    to the pointer [q]. *)
Fixpoint seg (m : Heap) (current : option loc) (c : list (loc * HashTable.Node)) (q : option loc) : Prop :=
  match c with
  | [] => current = q
  | (p, n) :: c' =>
      current = Some p ∧
      ∃ nxt, m !! p = Some (mkNode (HashTable.key n) (HashTable.entry n) nxt) ∧ seg m nxt c' q
  end.

Lemma seg_frame m m' current c q :
  (∀ p, p ∈ c.*1 → m' !! p = m !! p) → seg m current c q → seg m' current c q.
Proof.
  revert current. induction c as [|[p n] c IH]; intros current Hm; [done|]. csimpl.
  intros [-> (nxt & Hp & Hs)]. split; [done|]. exists nxt. split; [by rewrite Hm by set_solver|].
  apply IH; [|done]. intros; apply Hm; set_solver.
Qed.

Lemma seg_app m current c1 c2 q :
  seg m current (c1 ++ c2) q ↔ ∃ mid, seg m current c1 mid ∧ seg m mid c2 q.
Proof.
  revert current. induction c1 as [|[p n] c1 IH]; intros current; csimpl; [naive_solver|].
  setoid_rewrite IH. naive_solver.
Qed.

Lemma seg_dom m current c q p : seg m current c q → p ∈ c.*1 → p ∈ dom m.
Proof.
  revert current. induction c as [|[p' n] c IH]; intros current; csimpl; [by intros _ ?%elem_of_nil|].
  intros [_ (nxt & Hp & Hs)] [->|Hin]%elem_of_cons; [by apply elem_of_dom_2 in Hp|by eapply IH].
Qed.

Lemma seg_short m current c q : seg m current c q → NoDup c.*1 → length c < walk_bound m.
Proof.
  intros Hs Hnd. unfold walk_bound. rewrite <-(length_fmap fst), <-size_dom.
  rewrite <-(size_list_to_set (C:=gset loc) c.*1) by done.
  assert (list_to_set c.*1 ⊆@{gset loc} dom m) as Hsub.
  { intros p Hp%elem_of_list_to_set. by eapply seg_dom. }
  apply subseteq_size in Hsub. lia.
Qed.

Lemma load_seg m p n nxt : m !! p = Some (mkNode (HashTable.key n) (HashTable.entry n) nxt) →
  load p m ⇓ mkNode (HashTable.key n) (HashTable.entry n) nxt.
Proof. intros Hp. unfold load. by rewrite Hp. Qed.

(** *** The loops along a chain *)

Lemma find_loop_spec fuel k current c m :
  seg m current c None → length c < fuel →
  find_loop fuel k current m ⇓ HashTable.chain_find k c.*2.
Proof.
  revert current fuel. induction c as [|[p n] c IH]; intros current fuel; csimpl; [intros -> _; by destruct fuel|].
  intros [-> (nxt & Hp & Hs)] Hf. destruct fuel as [|fuel]; [lia|]. simpl. rewrite (load_seg _ _ _ _ Hp). msimp.
  simpl. case_decide; [done|]. apply IH; [done|lia].
Qed.

Lemma each_loop_spec fuel current c m out :
  seg m current c None → length c < fuel →
  each_loop fuel current m out ⇓ (out ++ (HashTable.binding <$> c.*2)).
Proof.
  revert current fuel out. induction c as [|[p n] c IH]; intros current fuel out; csimpl;
    [intros -> _; rewrite app_nil_r; by destruct fuel|].
  intros [-> (nxt & Hp & Hs)] Hf. destruct fuel as [|fuel]; [lia|]. simpl. rewrite (load_seg _ _ _ _ Hp). msimp.
  simpl. rewrite IH by (done || lia). by rewrite <-(assoc_L (++)).
Qed.

Lemma assign_loop_spec fuel k e current c m :
  seg m current c None → NoDup c.*1 → length c < fuel →
  match HashTable.chain_assign k e c.*2 with
  | None => assign_loop fuel k e current m ⇓ None
  | Some l => ∃ c' p n, assign_loop fuel k e current m ⇓ Some (<[p := n]> m) ∧
      p ∈ c.*1 ∧ c'.*1 = c.*1 ∧ c'.*2 = l ∧ seg (<[p := n]> m) current c' None
  end.
Proof.
  revert current fuel. induction c as [|[p n] c IH]; intros current fuel; csimpl; [intros -> _ _; by destruct fuel|].
  intros [-> (nxt & Hp & Hs)] [Hp' Hnd]%NoDup_cons Hf. destruct fuel as [|fuel]; [lia|].
  simpl. rewrite (load_seg _ _ _ _ Hp). msimp. simpl. case_decide as Hk.
  - exists ((p, HashTable.mkNode (HashTable.key n) e) :: c), p, (mkNode (HashTable.key n) e nxt). csimpl.
    split_and!; [done|set_solver|done|done|done|]. exists nxt. rewrite lookup_insert_eq. split; [done|].
    eapply seg_frame; [|exact Hs]. intros p1 Hp1. rewrite lookup_insert_ne; [done|set_solver].
  - specialize (IH nxt fuel Hs Hnd ltac:(lia)). destruct (HashTable.chain_assign k e c.*2) as [l|]; simpl; [|done].
    destruct IH as (c' & p1 & n1 & -> & Hin & H1 & H2 & Hs'). exists ((p, n) :: c'), p1, n1. csimpl.
    split_and!; [done|set_solver|by rewrite H1|by rewrite H2|done|].
    exists nxt. split; [|done]. rewrite lookup_insert_ne; [done|set_solver].
Qed.

Lemma delete_loop_spec fuel current c m :
  seg m current c None → NoDup c.*1 → length c < fuel →
  ∃ m', delete_loop fuel current m ⇓ m' ∧
    (∀ p, p ∈ c.*1 → m' !! p = None) ∧ (∀ p, p ∉ c.*1 → m' !! p = m !! p).
Proof.
  revert current fuel m. induction c as [|[p n] c IH]; intros current fuel m; csimpl.
  { intros -> _ _. exists m. split_and!; [by destruct fuel|by intros p ?%not_elem_of_nil|done]. }
  intros [-> (nxt & Hp & Hs)] [Hp' Hnd]%NoDup_cons Hf. destruct fuel as [|fuel]; [lia|].
  simpl. rewrite (load_seg _ _ _ _ Hp). msimp. unfold free. rewrite Hp. msimp. simpl.
  destruct (IH nxt fuel (delete p m)) as (m' & -> & Hin & Hout); [|done|lia|].
  { eapply seg_frame; [|exact Hs]. intros p1 Hp1. rewrite lookup_delete_ne; [done|set_solver]. }
  exists m'. split_and!; [done| |].
  - intros p1 [->|Hp1]%elem_of_cons; [|by apply Hin]. by rewrite Hout, lookup_delete_eq.
  - intros p1 Hp1. rewrite Hout by set_solver. rewrite lookup_delete_ne; [done|set_solver].
Qed.

(** The node before the one that is unlinked: the end of the part already walked. *)
Definition prev_of (c : list (loc * HashTable.Node)) : option loc := fst <$> last c.

Lemma prev_of_snoc c p n : prev_of (c ++ [(p, n)]) = Some p.
Proof. unfold prev_of. by rewrite last_snoc. Qed.

(** What unlinking and deleting a node leaves: the chain without it, and the rest of
    the heap as it was. *)
Definition unlinked (m m' : Heap) (c c' : list (loc * HashTable.Node)) (head' : option loc) : Prop :=
  seg m' head' c' None ∧ NoDup c'.*1 ∧ (∀ p, p ∈ c'.*1 → p ∈ c.*1) ∧
  (∀ p, p ∉ c.*1 → m' !! p = m !! p) ∧ (∀ p, p ∈ c.*1 → p ∉ c'.*1 → m' !! p = None).

Lemma unlink_first m p n c nxt :
  seg m nxt c None → NoDup ((p, n) :: c).*1 → unlinked m (delete p m) ((p, n) :: c) c nxt.
Proof.
  csimpl. intros Hs [Hp Hnd]%NoDup_cons. unfold unlinked. csimpl. split_and!.
  - eapply seg_frame; [|exact Hs]. intros p1 Hp1. rewrite lookup_delete_ne; [done|set_solver].
  - done.
  - set_solver.
  - intros p1 Hp1. rewrite lookup_delete_ne; [done|set_solver].
  - intros p1 [->|Hin]%elem_of_cons Hn; [apply lookup_delete_eq|done].
Qed.

Lemma unlink_inner m head d q nq p n c nxt :
  seg m head (d ++ [(q, nq)]) (Some p) → seg m nxt c None → NoDup ((d ++ [(q, nq)]) ++ (p, n) :: c).*1 →
  let m1 := <[q := mkNode (HashTable.key nq) (HashTable.entry nq) nxt]> m in
  unlinked m (delete p m1) ((d ++ [(q, nq)]) ++ (p, n) :: c) (d ++ (q, nq) :: c) head.
Proof.
  intros Hd Hs Hnd m1. rewrite !fmap_app in Hnd. csimpl. rewrite <-(assoc_L (++)) in Hnd.
  apply NoDup_app in Hnd as (Hnd1 & Hdis & [Hq [Hp Hnd2]%NoDup_cons]%NoDup_cons).
  apply seg_app in Hd as (mid & Hd & -> & nx & Hqm & ->).
  assert (p ≠ q) as Hpq by set_solver.
  assert (∀ p1, p1 ≠ p → p1 ≠ q → delete p m1 !! p1 = m !! p1) as Hm.
  { intros p1 H1 H2. subst m1. by rewrite lookup_delete_ne, lookup_insert_ne by done. }
  unfold unlinked. rewrite !fmap_app. csimpl. split_and!.
  - apply seg_app. exists (Some q). split.
    + eapply seg_frame; [|exact Hd]. intros p1 Hp1. apply Hm; set_solver.
    + csimpl. split; [done|]. exists nxt. subst m1.
      rewrite lookup_delete_ne, lookup_insert_eq by done. split; [done|].
      eapply seg_frame; [|exact Hs]. intros p1 Hp1. apply Hm; set_solver.
  - apply NoDup_app. split_and!; [done|set_solver|]. apply NoDup_cons. split; [set_solver|done].
  - set_solver.
  - intros p1 Hp1. apply Hm; set_solver.
  - intros p1 Hin Hn. assert (p1 = p) as -> by set_solver. apply lookup_delete_eq.
Qed.

Lemma erase_loop_spec fuel k idx walked c x current head :
  seg (heap x) head walked current → seg (heap x) current c None → NoDup (walked ++ c).*1 →
  length c < fuel → buckets_ x !! idx = Some head →
  match HashTable.chain_erase k c.*2 with
  | None => erase_loop fuel k idx (prev_of walked) current x ⇓ (x, false)
  | Some l => ∃ m c' head', erase_loop fuel k idx (prev_of walked) current x ⇓
        (mk m (<[idx := head']> (buckets_ x)) (size_ x - 1), true) ∧
      c'.*2 = walked.*2 ++ l ∧ unlinked (heap x) m (walked ++ c) c' head'
  end.
Proof.
  revert walked current fuel. induction c as [|[p n] c IH]; intros walked current fuel; csimpl;
    [intros _ -> _ _ _; by destruct fuel|].
  intros Hd [-> (nxt & Hp & Hs)] Hnd Hf Hb. destruct fuel as [|fuel]; [lia|].
  simpl. rewrite (load_seg _ _ _ _ Hp). msimp. simpl. case_decide as Hk.
  - destruct walked as [|[q nq] d _] using rev_ind.
    + simpl in Hd. subst head. simpl. msimp. simpl. unfold free. rewrite Hp. msimp.
      exists (delete p (heap x)), c, nxt. split_and!; [done|done|by apply unlink_first].
    + rewrite prev_of_snoc. simpl.
      pose proof Hd as Hd'. apply seg_app in Hd' as (mid & _ & -> & nx & Hq & ->).
      rewrite (load_seg _ _ _ _ Hq). msimp. simpl.
      assert (q ≠ p) as Hqp by (rewrite !fmap_app in Hnd; csimpl; apply NoDup_app in Hnd; set_solver).
      unfold free. rewrite lookup_insert_ne, Hp by done. msimp.
      eexists _, (d ++ (q, nq) :: c), head. rewrite (list_insert_id _ _ _ Hb).
      split_and!; [done|rewrite !fmap_app; csimpl; by rewrite <-(assoc_L (++))|by apply unlink_inner].
  - specialize (IH (walked ++ [(p, n)]) nxt fuel). rewrite <-(assoc_L (++)) in IH.
    rewrite prev_of_snoc in IH. rewrite !fmap_app in IH. csimpl.
    assert (seg (heap x) head (walked ++ [(p, n)]) nxt) as Hd1
      by (apply seg_app; exists (Some p); split; [done|]; split; [done|]; by exists nxt).
    rewrite fmap_app in Hnd. csimpl. specialize (IH Hd1 Hs Hnd ltac:(lia) Hb).
    destruct (HashTable.chain_erase k c.*2) as [l|]; simpl; [|done].
    destruct IH as (m & c' & head' & He & H2 & Hu). exists m, c', head'. split_and!; [done| |done].
    by rewrite H2, <-(assoc_L (++)).
Qed.

(** ** Tables *)

Lemma concat_split {A} (ls : list (list A)) i l :
  ls !! i = Some l →
  ∃ rest, concat ls ≡ₚ l ++ rest ∧ (∀ l', concat (<[i := l']> ls) ≡ₚ l' ++ rest) ∧
    (∀ j l' a, j ≠ i → ls !! j = Some l' → a ∈ l' → a ∈ rest).
Proof.
  intros Hi. exists (concat (take i ls) ++ concat (drop (S i) ls)).
  assert (∀ l', concat (take i ls ++ l' :: drop (S i) ls) ≡ₚ l' ++ concat (take i ls) ++ concat (drop (S i) ls)) as Hc.
  { intros l'. rewrite concat_app, concat_cons. solve_Permutation. }
  split_and!.
  - rewrite <-(take_drop_middle ls i l Hi) at 1. apply Hc.
  - intros l'. rewrite insert_take_drop by (by eapply lookup_lt_Some). apply Hc.
  - intros j l' a Hj Hl Ha. rewrite elem_of_app. destruct (decide (j < i)) as [Hlt|Hge].
    + left. apply elem_of_concat. exists j, l'. by rewrite lookup_take_lt.
    + right. apply elem_of_concat. exists (j - S i), l'. rewrite lookup_drop.
      replace (S i + (j - S i)) with j by lia. done.
Qed.

Lemma concat_snd {A B} (cs : list (list (A * B))) : concat ((λ c, c.*2) <$> cs) = (concat cs).*2.
Proof. induction cs as [|c cs IH]; [done|]. csimpl. by rewrite IH, fmap_app. Qed.

(** The table [x] holds the chains [cs], which stand for the table [h] of lists;
    besides their nodes, exactly the blocks [X] are allocated. *)
Record rep (X : gset loc) (x : t) (cs : list (list (loc * HashTable.Node))) (h : HashTable.t) : Prop := {
  rep_chains : Forall2 (λ current c, seg (heap x) current c None) (buckets_ x) cs;
  rep_nodup : NoDup (concat cs).*1;
  rep_dom p : p ∈ dom (heap x) ↔ p ∈ (concat cs).*1 ∨ p ∈ X;
  rep_extra p : p ∈ X → p ∉ (concat cs).*1;
  rep_buckets : HashTable.buckets_ h = (λ c, c.*2) <$> cs;
  rep_size : size_ x = HashTable.size_ h
}.

Definition agree (X : gset loc) (m m' : Heap) : Prop := ∀ p, p ∈ X → m' !! p = m !! p.

Section Rep.
Context `{StdHash, Allocator}.

Lemma rep_length X x cs h : rep X x cs h → length (buckets_ x) = HashTable.bucket_count h.
Proof.
  intros Hr. unfold HashTable.bucket_count. rewrite (rep_buckets _ _ _ _ Hr), length_fmap.
  by eapply Forall2_length, rep_chains.
Qed.

Lemma rep_index X x cs h k : rep X x cs h → bucket_index k x = HashTable.bucket_index k h.
Proof. intros Hr. unfold bucket_index, HashTable.bucket_index. by rewrite (rep_length _ _ _ _ Hr). Qed.

(** The chain of a key. *)
Lemma rep_bucket X x cs h k :
  rep X x cs h → HashTable.bucket_count h ≠ 0 →
  ∃ current c, at_ (buckets_ x) (bucket_index k x) ⇓ current ∧ cs !! bucket_index k x = Some c ∧
    buckets_ x !! bucket_index k x = Some current ∧ seg (heap x) current c None ∧ NoDup c.*1 ∧
    HashTable.bucket (HashTable.bucket_index k h) h = c.*2.
Proof.
  intros Hr Hb. rewrite (rep_index _ _ _ _ _ Hr).
  pose proof (HashTable.bucket_index_lt k h Hb) as Hi. rewrite <-(rep_length _ _ _ _ Hr) in Hi.
  destruct (lookup_lt_is_Some_2 _ _ Hi) as [current Hc].
  destruct (Forall2_lookup_l _ _ _ _ _ (rep_chains _ _ _ _ Hr) Hc) as (c & Hcs & Hs).
  exists current, c. unfold at_. rewrite Hc. split_and!; try done.
  - pose proof (rep_nodup _ _ _ _ Hr) as Hnd. destruct (concat_split cs _ c Hcs) as (rest & Hp & _).
    rewrite Hp, fmap_app in Hnd. by apply NoDup_app in Hnd as [? _].
  - unfold HashTable.bucket. by rewrite (rep_buckets _ _ _ _ Hr), list_lookup_fmap, Hcs.
Qed.

(** Replacing one chain: its nodes may change, disappear, or be new blocks. *)
Lemma rep_set X x cs h i c m' c' current' sz :
  rep X x cs h → cs !! i = Some c → seg m' current' c' None → NoDup c'.*1 →
  (∀ p, p ∈ c'.*1 → p ∈ c.*1 ∨ p ∉ dom (heap x)) →
  (∀ p, p ∉ c.*1 → p ∉ c'.*1 → m' !! p = heap x !! p) →
  (∀ p, p ∈ c.*1 → p ∉ c'.*1 → m' !! p = None) →
  rep X (mk m' (<[i := current']> (buckets_ x)) sz) (<[i := c']> cs)
    (HashTable.mk (<[i := c'.*2]> (HashTable.buckets_ h)) sz) ∧ agree X (heap x) m'.
Proof.
  intros [Hch Hnd Hdom Hex Hbk Hsz] Hi Hs Hnd' Hnew Hsame Hgone.
  destruct (concat_split cs i c Hi) as (rest & Hp & Hp' & Hrest). specialize (Hp' c').
  rewrite Hp, fmap_app in Hnd. apply NoDup_app in Hnd as (_ & Hdis & Hndr).
  assert (∀ p, p ∈ (concat cs).*1 ↔ p ∈ c.*1 ∨ p ∈ rest.*1) as Hin by (intros p; by rewrite Hp, fmap_app, elem_of_app).
  assert (∀ p, p ∈ (concat (<[i := c']> cs)).*1 ↔ p ∈ c'.*1 ∨ p ∈ rest.*1) as Hin'
    by (intros p; by rewrite Hp', fmap_app, elem_of_app).
  assert (∀ p, p ∈ rest.*1 → p ∉ c'.*1) as Hdis'.
  { intros p Hr Hc. destruct (Hnew p Hc) as [Hc0|Hnd0]; [by apply (Hdis p)|]. apply Hnd0, Hdom. left. apply Hin. by right. }
  assert (agree X (heap x) m') as Hag.
  { intros p HX. pose proof (Hex p HX) as Hn. rewrite Hin in Hn. apply Hsame; [tauto|].
    intros Hc. destruct (Hnew p Hc) as [|Hnd0]; [tauto|]. apply Hnd0, Hdom. by right. }
  split; [|done]. split; simpl.
  - apply Forall2_same_length_lookup_2; [rewrite !length_insert; by eapply Forall2_length|].
    intros j cur cj Hj Hcj. destruct (decide (i = j)) as [<-|Hne].
    + pose proof (lookup_lt_Some _ _ _ Hi) as Hlt. rewrite list_lookup_insert_eq in Hcj by done. injection Hcj as <-.
      rewrite list_lookup_insert_eq in Hj; [by injection Hj as <-|]. by rewrite (Forall2_length _ _ _ Hch).
    + rewrite list_lookup_insert_ne in Hj by done. rewrite list_lookup_insert_ne in Hcj by done.
      pose proof (Forall2_lookup_lr _ _ _ _ _ _ Hch Hj Hcj) as Hsj. simpl in Hsj.
      eapply seg_frame; [|exact Hsj]. intros p (b & -> & Hb)%list_elem_of_fmap.
      assert (b.1 ∈ rest.*1) as Hbr by (apply list_elem_of_fmap_2; by eapply Hrest).
      apply Hsame; [|by apply Hdis']. intros Hc. by apply (Hdis b.1).
  - rewrite Hp', fmap_app. apply NoDup_app. split_and!; [done| |done]. intros p Hc Hr. by apply (Hdis' p).
  - intros p. rewrite Hin'. destruct (decide (p ∈ c'.*1)) as [Hc|Hc].
    + split; [by auto|]. intros _. by eapply seg_dom.
    + destruct (decide (p ∈ c.*1)) as [Hc0|Hc0].
      * rewrite elem_of_dom, Hgone by done. split; [by intros [? [=]]|]. intros [[?|Hr]|HX]; [done|by destruct (Hdis p)|].
        destruct (Hex p HX). apply Hin. by left.
      * rewrite elem_of_dom, Hsame, <-elem_of_dom, Hdom, Hin by done. tauto.
  - intros p HX. rewrite Hin'. intros [Hc|Hr].
    + destruct (Hnew p Hc) as [Hc0|Hn]; [apply (Hex p HX), Hin; by left|]. apply Hn, Hdom. by right.
    + apply (Hex p HX), Hin. by right.
  - by rewrite Hbk, list_fmap_insert.
  - done.
Qed.

(** A block of [X] is freed. *)
Lemma rep_free X p x cs h :
  rep ({[ p ]} ∪ X) x cs h → p ∉ X →
  ∃ m, free p (heap x) ⇓ m ∧ rep X (mk m (buckets_ x) (size_ x)) cs h ∧ agree X (heap x) m.
Proof.
  intros [Hch Hnd Hdom Hex Hbk Hsz] HpX. assert (p ∈ dom (heap x)) as [n Hn]%elem_of_dom by (apply Hdom; set_solver).
  assert (p ∉ (concat cs).*1) as Hpc by (apply Hex; set_solver).
  unfold free. rewrite Hn. exists (delete p (heap x)). split_and!; [done| |].
  - split; simpl; [|done| | |done|done].
    + eapply Forall2_same_length_lookup_2; [by eapply Forall2_length|]. intros j cur cj Hj Hcj.
      pose proof (Forall2_lookup_lr _ _ _ _ _ _ Hch Hj Hcj) as Hs. simpl in Hs.
      eapply seg_frame; [|exact Hs]. intros q (b & -> & Hb)%list_elem_of_fmap. rewrite lookup_delete_ne; [done|].
      intros ->. apply Hpc, list_elem_of_fmap_2, elem_of_concat. eauto.
    + intros q. rewrite dom_delete_L, elem_of_difference, Hdom. set_solver.
    + intros q Hq. apply Hex. set_solver.
  - intros q Hq. rewrite lookup_delete_ne; [done|]. by intros ->.
Qed.

(** ** Insertion *)

(** An insertion on pointers that does what [hins] does on lists, and leaves the
    other blocks alone. *)
Definition simulates (ins : t → string → StorageEntry → Outcome (t * bool))
    (hins : HashTable.t → string → StorageEntry → HashTable.t * bool) : Prop :=
  ∀ X x cs h k e, rep X x cs h → HashTable.bucket_count h ≠ 0 →
    ∃ x' cs', ins x k e ⇓ (x', (hins h k e).2) ∧ rep X x' cs' (hins h k e).1 ∧
      agree X (heap x) (heap x') ∧ HashTable.bucket_count (hins h k e).1 ≠ 0.

Lemma agree_trans X m1 m2 m3 : agree X m1 m2 → agree X m2 m3 → agree X m1 m3.
Proof. intros H12 H23 p Hp. by rewrite H23, H12. Qed.

Lemma agree_subset X Y m m' : Y ⊆ X → agree X m m' → agree Y m m'.
Proof. intros Hs Ha p Hp. apply Ha. set_solver. Qed.

Lemma agree_seg X m m' current c q : agree X m m' → (∀ p, p ∈ c.*1 → p ∈ X) → seg m current c q → seg m' current c q.
Proof. intros Ha Hc. apply seg_frame. intros p Hp. by apply Ha, Hc. Qed.

(** Moving one old chain into the new table. *)
Lemma move_loop_spec ins hins fuel X c x cs h head :
  simulates ins hins → rep (list_to_set c.*1 ∪ X) x cs h → HashTable.bucket_count h ≠ 0 →
  seg (heap x) head c None → NoDup c.*1 → (∀ p, p ∈ X → p ∉ c.*1) → length c < fuel →
  let h' := foldl (λ h n, (hins h (HashTable.key n) (HashTable.entry n)).1) h c.*2 in
  ∃ x' cs', move_loop ins fuel head x ⇓ x' ∧ rep X x' cs' h' ∧ agree X (heap x) (heap x') ∧
    HashTable.bucket_count h' ≠ 0.
Proof.
  intros Hsim. revert x cs h head fuel. induction c as [|[p n] c IH]; intros x cs h head fuel Hr Hb Hs Hnd HX Hf; csimpl.
  { simpl in Hs. subst head. exists x, cs. split_and!; [by destruct fuel| |done|done].
    simpl in Hr. by rewrite (left_id_L ∅ (∪)) in Hr. }
  destruct Hs as [-> (nxt & Hp & Hs)]. csimpl. simpl in Hf. apply NoDup_cons in Hnd as [Hpc Hnd].
  destruct fuel as [|fuel]; [lia|]. simpl. rewrite (load_seg _ _ _ _ Hp). msimp. simpl.
  assert (list_to_set ((p, n) :: c).*1 ∪ X = {[ p ]} ∪ (list_to_set c.*1 ∪ X)) as Heq by (csimpl; by rewrite (assoc_L (∪))).
  rewrite Heq in Hr. destruct (Hsim _ x cs h (HashTable.key n) (HashTable.entry n) Hr Hb) as (x1 & cs1 & -> & Hr1 & Ha1 & Hb1). msimp.
  destruct (rep_free (list_to_set c.*1 ∪ X) p x1 cs1 _ Hr1) as (m & -> & Hr2 & Ha2); [set_solver|]. msimp.
  assert (agree (list_to_set c.*1 ∪ X) (heap x) m) as Ha.
  { eapply agree_trans; [|exact Ha2]. eapply agree_subset; [|exact Ha1]. set_solver. }
  destruct (IH (mk m (buckets_ x1) (size_ x1)) cs1 _ nxt fuel Hr2 Hb1) as (x' & cs' & -> & Hr' & Ha' & Hb');
    [|done|set_solver|lia|].
  { eapply agree_seg; [exact Ha| |exact Hs]. set_solver. }
  exists x', cs'. split_and!; [done|done| |done]. eapply agree_trans; [|exact Ha'].
  eapply agree_subset; [|exact Ha]. set_solver.
Qed.

(** Moving all old chains. *)
Lemma move_all_spec ins hins X old heads x cs h :
  simulates ins hins → rep (list_to_set (concat old).*1 ∪ X) x cs h → HashTable.bucket_count h ≠ 0 →
  Forall2 (λ head c, seg (heap x) head c None) heads old → NoDup (concat old).*1 →
  (∀ p, p ∈ X → p ∉ (concat old).*1) →
  let h' := foldl (λ h n, (hins h (HashTable.key n) (HashTable.entry n)).1) h (concat old).*2 in
  ∃ x' cs', fold_outcome (λ x' head, move_loop ins (walk_bound (heap x')) head x') x heads ⇓ x' ∧
    rep X x' cs' h' ∧ agree X (heap x) (heap x') ∧ HashTable.bucket_count h' ≠ 0.
Proof.
  intros Hsim. revert heads x cs h. induction old as [|c old IH]; intros heads x cs h Hr Hb Hf Hnd HX;
    simpl in Hr; cbn [concat].
  { apply Forall2_nil_inv_r in Hf as ->. exists x, cs. rewrite (left_id_L ∅ (∪)) in Hr. done. }
  apply Forall2_cons_inv_r in Hf as (head & heads' & Hs & Hf & ->). simpl in HX, Hnd.
  rewrite fmap_app in Hnd. apply NoDup_app in Hnd as (Hnd1 & Hdis & Hnd2). rewrite fmap_app in Hr, HX.
  rewrite list_to_set_app_L, <-(assoc_L (∪)) in Hr. rewrite fmap_app, foldl_app. cbn [fold_outcome].
  destruct (move_loop_spec ins hins (walk_bound (heap x)) (list_to_set (concat old).*1 ∪ X) c x cs h head)
    as (x1 & cs1 & -> & Hr1 & Ha1 & Hb1); [done|done|done|done|done|set_solver|by eapply seg_short|]. msimp.
  destruct (IH heads' x1 cs1 _ Hr1 Hb1) as (x' & cs' & -> & Hr' & Ha' & Hb'); [|done|set_solver|].
  { eapply Forall2_same_length_lookup_2; [by eapply Forall2_length|]. intros j cur cj Hj Hcj.
    pose proof (Forall2_lookup_lr _ _ _ _ _ _ Hf Hj Hcj) as Hsj. simpl in Hsj.
    eapply agree_seg; [exact Ha1| |exact Hsj]. intros p (b & -> & Hbc)%list_elem_of_fmap.
    apply elem_of_union_l, elem_of_list_to_set, list_elem_of_fmap_2, elem_of_concat. eauto. }
  exists x', cs'. split_and!; [done|done| |done]. eapply agree_trans; [|exact Ha'].
  eapply agree_subset; [|exact Ha1]. set_solver.
Qed.

Lemma rep_empty X m n : (∀ p, p ∈ dom m ↔ p ∈ X) → rep X (mk m (replicate n None) 0) (replicate n []) (HashTable.mk (replicate n []) 0).
Proof.
  intros Hd. assert (concat (replicate n ([] : list (loc * HashTable.Node))) = []) as Hc by (by induction n).
  split; simpl; rewrite ?Hc; [|constructor| | |by rewrite fmap_replicate|done].
  - apply Forall2_replicate. done.
  - intros p. rewrite Hd. csimpl. rewrite elem_of_nil. tauto.
  - intros p _. apply not_elem_of_nil.
Qed.

Lemma rehash_sim ins hins X x cs h :
  simulates ins hins → rep X x cs h → HashTable.bucket_count h ≠ 0 →
  ∃ x' cs', rehash_with ins x ⇓ x' ∧ rep X x' cs' (HashTable.rehash_with hins h) ∧
    agree X (heap x) (heap x') ∧ HashTable.bucket_count (HashTable.rehash_with hins h) ≠ 0.
Proof.
  intros Hsim Hr Hb. unfold rehash_with, HashTable.rehash_with.
  rewrite (rep_size _ _ _ _ Hr), (rep_length _ _ _ _ Hr). case_match; [by exists x, cs|].
  assert (concat (HashTable.buckets_ h) = (concat cs).*2) as -> by (by rewrite (rep_buckets _ _ _ _ Hr), concat_snd).
  pose proof Hr as [Hch Hnd Hdom Hex Hbk Hsz].
  apply (move_all_spec ins hins X cs (buckets_ x)
    (mk (heap x) (replicate (HashTable.bucket_count h * 2) None) 0) (replicate (HashTable.bucket_count h * 2) [])
    (HashTable.mk (replicate (length (HashTable.buckets_ h) * 2) []) 0)); [done| | |done|done|done].
  - apply rep_empty. intros p. rewrite Hdom. set_solver.
  - unfold HashTable.bucket_count in *. simpl. rewrite length_replicate. lia.
Qed.

Lemma push_sim X x cs h k e :
  rep X x cs h → HashTable.bucket_count h ≠ 0 →
  ∃ x' cs', push (bucket_index k x) k e x ⇓ x' ∧
    rep X x' cs' (HashTable.mk (<[HashTable.bucket_index k h := HashTable.mkNode k e :: HashTable.bucket (HashTable.bucket_index k h) h]> (HashTable.buckets_ h)) (S (HashTable.size_ h))) ∧
    agree X (heap x) (heap x').
Proof.
  intros Hr Hb. destruct (rep_bucket X x cs h k Hr Hb) as (current & c & Hat & Hcs & Hcur & Hs & Hnd & Hbk).
  unfold push. rewrite Hat. msimp. set (p := alloc (dom (heap x))).
  assert (p ∉ dom (heap x)) as Hp by apply alloc_fresh.
  assert (p ∉ c.*1) as Hpc by (intros Hpc; by eapply Hp, seg_dom).
  destruct (rep_set X x cs h (bucket_index k x) c (<[p := mkNode k e current]> (heap x))
    ((p, HashTable.mkNode k e) :: c) (Some p) (S (size_ x)) Hr Hcs) as [Hr' Ha].
  - split; [done|]. exists current. rewrite lookup_insert_eq. split; [done|].
    eapply seg_frame; [|exact Hs]. intros q Hq. rewrite lookup_insert_ne; [done|]. by intros ->.
  - csimpl. by apply NoDup_cons.
  - csimpl. intros q [->|Hq]%elem_of_cons; auto.
  - csimpl. intros q Hq Hn. rewrite lookup_insert_ne; [done|]. intros ->. apply Hn. by left.
  - csimpl. intros q Hq Hn. destruct Hn. by right.
  - rewrite Hbk, <-(rep_index _ _ _ _ _ Hr), <-(rep_size _ _ _ _ Hr). eexists _, _. split_and!; [done|exact Hr'|exact Ha].
Qed.

(** The key is there: its node is overwritten. *)
Lemma assign_sim X x cs h i current c c' p n :
  rep X x cs h → cs !! i = Some c → buckets_ x !! i = Some current → p ∈ c.*1 → c'.*1 = c.*1 → NoDup c.*1 →
  seg (<[p := n]> (heap x)) current c' None →
  let m := <[p := n]> (heap x) in
  rep X (mk m (buckets_ x) (size_ x)) (<[i := c']> cs)
    (HashTable.mk (<[i := c'.*2]> (HashTable.buckets_ h)) (HashTable.size_ h)) ∧ agree X (heap x) m.
Proof.
  intros Hr Hcs Hcur Hp H1 Hnd Hs m.
  destruct (rep_set X x cs h i c m c' current (size_ x) Hr Hcs Hs) as [Hr' Ha]; rewrite ?H1; try done; [by auto| |].
  - intros q Hq _. subst m. rewrite lookup_insert_ne; [done|]. by intros ->.
  - rewrite (list_insert_id _ _ _ Hcur) in Hr'. by rewrite <-(rep_size _ _ _ _ Hr).
Qed.

(** At every depth of nesting, [insert] on pointers does what it does on lists. *)
Lemma insert_fuel_sim fuel : simulates (insert_fuel fuel) (HashTable.insert_fuel fuel).
Proof.
  induction fuel as [|fuel IH]; intros X x cs h k e Hr Hb;
    destruct (rep_bucket X x cs h k Hr Hb) as (current & c & Hat & Hcs & Hcur & Hs & Hnd & Hbk);
    pose proof (assign_loop_spec (walk_bound (heap x)) k e current c (heap x) Hs Hnd (seg_short _ _ _ _ Hs Hnd)) as Ha;
    destruct (push_sim X x cs h k e Hr Hb) as (x1 & cs1 & Hpush & Hr1 & Ha1);
    cbn [insert_fuel HashTable.insert_fuel]; rewrite Hat; msimp; rewrite Hbk in *;
    (destruct (HashTable.chain_assign k e c.*2) as [l|];
      [destruct Ha as (c' & p & n & -> & Hp & H1 & <- & Hs'); msimp;
       destruct (assign_sim X x cs h _ current c c' p n Hr Hcs Hcur Hp H1 Hnd Hs') as [Hr2 Ha2];
       rewrite <-(rep_index _ _ _ _ _ Hr); eexists _, _; split_and!; [done|exact Hr2|exact Ha2|];
       unfold HashTable.bucket_count in *; simpl; by rewrite length_insert|rewrite Ha; msimp; rewrite Hpush; msimp]).
  - exists x1, cs1. split_and!; [done|done|done|]. unfold HashTable.bucket_count in *. simpl. by rewrite length_insert.
  - destruct (rehash_sim _ _ X x1 cs1 _ IH Hr1) as (x2 & cs2 & -> & Hr2 & Ha2 & Hb2).
    { unfold HashTable.bucket_count in *. simpl. by rewrite length_insert. }
    msimp. exists x2, cs2. split_and!; [done|done|by eapply agree_trans|done].
Qed.

(** ** The other operations *)

Lemma find_sim X x cs h k :
  rep X x cs h → HashTable.bucket_count h ≠ 0 → find k x ⇓ HashTable.find k h.
Proof.
  intros Hr Hb. destruct (rep_bucket X x cs h k Hr Hb) as (current & c & Hat & Hcs & Hcur & Hs & Hnd & Hbk).
  unfold find, HashTable.find. rewrite Hat, Hbk. msimp. apply find_loop_spec; [done|by eapply seg_short].
Qed.

Lemma erase_sim X x cs h k :
  rep X x cs h → HashTable.bucket_count h ≠ 0 →
  ∃ x' cs', erase k x ⇓ (x', (HashTable.erase k h).2) ∧ rep X x' cs' (HashTable.erase k h).1 ∧
    agree X (heap x) (heap x') ∧ HashTable.bucket_count (HashTable.erase k h).1 ≠ 0.
Proof.
  intros Hr Hb. destruct (rep_bucket X x cs h k Hr Hb) as (current & c & Hat & Hcs & Hcur & Hs & Hnd & Hbk).
  unfold erase, HashTable.erase. rewrite Hat, Hbk. msimp.
  pose proof (erase_loop_spec (walk_bound (heap x)) k (bucket_index k x) [] c x current current
    eq_refl Hs Hnd (seg_short _ _ _ _ Hs Hnd) Hcur) as He.
  change (prev_of []) with (@None loc) in He. change ([] ++ c) with c in He.
  destruct (HashTable.chain_erase k c.*2) as [l|]; [|by rewrite He; exists x, cs].
  destruct He as (m & c' & head' & -> & Hl & Hs' & Hnd' & Hsub & Hsame & Hgone).
  destruct (rep_set X x cs h (bucket_index k x) c m c' head' (size_ x - 1) Hr Hcs Hs' Hnd') as [Hr' Ha]; [by auto|by auto|done|].
  change ([].*2 ++ l) with l in Hl. subst l. rewrite <-(rep_index _ _ _ _ _ Hr), <-(rep_size _ _ _ _ Hr). eexists _, _. split_and!; [done|exact Hr'|exact Ha|].
  unfold HashTable.bucket_count in *. simpl. by rewrite length_insert.
Qed.

Lemma delete_all_spec heads old m :
  Forall2 (λ head c, seg m head c None) heads old → NoDup (concat old).*1 →
  ∃ m', fold_outcome (λ m head, delete_loop (walk_bound m) head m) m heads ⇓ m' ∧
    (∀ p, p ∈ (concat old).*1 → m' !! p = None) ∧ (∀ p, p ∉ (concat old).*1 → m' !! p = m !! p).
Proof.
  revert heads m. induction old as [|c old IH]; intros heads m Hf Hnd.
  { apply Forall2_nil_inv_r in Hf as ->. exists m. split_and!; [done|by intros p ?%not_elem_of_nil|done]. }
  apply Forall2_cons_inv_r in Hf as (head & heads' & Hs & Hf & ->). cbn [concat fold_outcome] in *.
  rewrite fmap_app in Hnd |- *. apply NoDup_app in Hnd as (Hnd1 & Hdis & Hnd2).
  destruct (delete_loop_spec (walk_bound m) head c m Hs Hnd1 (seg_short _ _ _ _ Hs Hnd1)) as (m1 & -> & Hin1 & Hout1). msimp.
  destruct (IH heads' m1) as (m' & -> & Hin & Hout); [|done|].
  { eapply Forall2_same_length_lookup_2; [by eapply Forall2_length|]. intros j cur cj Hj Hcj.
    pose proof (Forall2_lookup_lr _ _ _ _ _ _ Hf Hj Hcj) as Hsj. simpl in Hsj.
    eapply seg_frame; [|exact Hsj]. intros p (b & -> & Hbc)%list_elem_of_fmap. apply Hout1. intros Hc.
    apply (Hdis b.1 Hc), list_elem_of_fmap_2, elem_of_concat. eauto. }
  exists m'. split_and!; [done| |].
  - intros p [Hp|Hp]%elem_of_app; [|by apply Hin]. rewrite Hout; [by apply Hin1|]. by apply Hdis.
  - intros p Hp. rewrite Hout, Hout1; [done|set_solver|set_solver].
Qed.

Lemma clear_sim X x cs h :
  rep X x cs h → ∃ x' cs', clear x ⇓ x' ∧ rep X x' cs' (HashTable.clear h) ∧ agree X (heap x) (heap x').
Proof.
  intros Hr. pose proof Hr as [Hch Hnd Hdom Hex Hbk Hsz].
  destruct (delete_all_spec (buckets_ x) cs (heap x) Hch Hnd) as (m & Hm & Hin & Hout).
  unfold clear. rewrite Hm. msimp. unfold HashTable.clear. rewrite (rep_length _ _ _ _ Hr).
  eexists _, _. split_and!; [done|apply (rep_empty X m)|].
  - intros p. destruct (decide (p ∈ (concat cs).*1)) as [Hp|Hp].
    + rewrite elem_of_dom, (Hin p Hp). split; [by intros [? [=]]|]. intros HX. by destruct (Hex p HX).
    + rewrite elem_of_dom, (Hout p Hp), <-elem_of_dom, Hdom. tauto.
  - intros p HX. simpl. apply Hout. by apply Hex.
Qed.

Lemma for_each_sim X x cs h : rep X x cs h → for_each x ⇓ (HashTable.binding <$> HashTable.nodes h).
Proof.
  intros [Hch Hnd _ _ Hbk _]. unfold for_each, HashTable.nodes. rewrite Hbk.
  change (HashTable.binding <$> ?l) with ([] ++ (HashTable.binding <$> l)). generalize (@nil (string * StorageEntry)).
  revert Hch. generalize (buckets_ x). clear Hbk. induction cs as [|c cs IH]; intros heads Hf out.
  { apply Forall2_nil_inv_r in Hf as ->. simpl. by rewrite app_nil_r. }
  apply Forall2_cons_inv_r in Hf as (head & heads' & Hs & Hf & ->). cbn [concat fold_outcome] in *.
  rewrite fmap_app in Hnd. apply NoDup_app in Hnd as (Hnd1 & _ & Hnd2).
  rewrite (each_loop_spec _ _ c) by (done || by eapply seg_short). msimp. rewrite IH by done.
  csimpl. by rewrite fmap_app, (assoc_L (++)).
Qed.

(** ** Sequences of operations *)

Lemma step_sim X x cs h o :
  rep X x cs h → HashTable.bucket_count h ≠ 0 →
  ∃ x' cs', step x o ⇓ (x', (HashTable.step h o).2) ∧ rep X x' cs' (HashTable.step h o).1 ∧
    agree X (heap x) (heap x') ∧ HashTable.bucket_count (HashTable.step h o).1 ≠ 0.
Proof.
  intros Hr Hb. destruct o as [k e|k|k|k| |]; simpl.
  - destruct (insert_fuel_sim 2 X x cs h k e Hr Hb) as (x' & cs' & Hi & Hr' & Ha & Hb').
    unfold insert, HashTable.insert. rewrite Hi. msimp. destruct (HashTable.insert_fuel 2 h k e). by exists x', cs'.
  - rewrite (find_sim _ _ _ _ _ Hr Hb). msimp. by exists x, cs.
  - destruct (erase_sim X x cs h k Hr Hb) as (x' & cs' & He & Hr' & Ha & Hb'). rewrite He. msimp.
    destruct (HashTable.erase k h). by exists x', cs'.
  - unfold contains. rewrite (find_sim _ _ _ _ _ Hr Hb). msimp. by exists x, cs.
  - exists x, cs. unfold HashTable.size. by rewrite <-(rep_size _ _ _ _ Hr).
  - destruct (clear_sim X x cs h Hr) as (x' & cs' & -> & Hr' & Ha). msimp. exists x', cs'. split_and!; try done.
    unfold HashTable.bucket_count, HashTable.clear in *. simpl. by rewrite length_replicate.
Qed.

Lemma run_sim X x cs h os :
  rep X x cs h → HashTable.bucket_count h ≠ 0 →
  let '(h', answers) := HashTable.run HashTable.step h os in
  ∃ x' cs', run x os ⇓ (x', answers) ∧ rep X x' cs' h' ∧ HashTable.bucket_count h' ≠ 0.
Proof.
  revert x cs h. induction os as [|o os IH]; intros x cs h Hr Hb; cbn [run HashTable.run]; [by exists x, cs|].
  destruct (step_sim X x cs h o Hr Hb) as (x1 & cs1 & -> & Hr1 & _ & Hb1). msimp.
  destruct (HashTable.step h o) as [h1 a]. specialize (IH x1 cs1 h1 Hr1 Hb1).
  destruct (HashTable.run HashTable.step h1 os) as [h2 l]. destruct IH as (x2 & cs2 & -> & Hr2 & Hb2).
  msimp. by exists x2, cs2.
Qed.

(** As many nodes are allocated as the table counts. *)
Lemma rep_count x cs h : rep ∅ x cs h → HashTable.wf h → base.size (heap x) = size_ x.
Proof.
  intros [Hch Hnd Hdom _ Hbk Hsz] Hwf. rewrite Hsz, (HashTable.wf_size h Hwf). unfold HashTable.nodes.
  rewrite Hbk, concat_snd, length_fmap, <-(length_fmap fst), <-size_dom.
  rewrite <-(size_list_to_set (C:=gset loc)) by done. f_equal. apply set_eq. intros p. rewrite Hdom, elem_of_list_to_set. set_solver.
Qed.

Lemma run_wf h os : HashTable.wf h → HashTable.wf (HashTable.run HashTable.step h os).1.
Proof.
  revert h. induction os as [|o os IH]; intros h Hw; simpl; [done|].
  destruct (HashTable.step_simulates h o Hw) as (Hw1 & _). destruct (HashTable.step h o) as [h1 a]. specialize (IH h1 Hw1).
  by destruct (HashTable.run HashTable.step h1 os).
Qed.

Lemma make_rep n : rep ∅ (make n) (replicate (if (n <? 16)%nat then 16 else n) []) (HashTable.make n).
Proof. apply rep_empty. intros p. rewrite dom_empty_L. set_solver. Qed.

(** C2: the pointers of the table are right: from a new table, every sequence of
    operations runs without following a dangling or null pointer, without freeing
    a block twice and without a loop that does not end, whatever addresses [new]
    returns and whatever the hash function is; it gives the answers of the table of
    lists; and afterwards exactly one node is allocated for each stored entry, so
    that nothing leaks until the table is destroyed, when all of them do. *)
Theorem nodes_refine_chains n os :
  let '(h, answers) := HashTable.run HashTable.step (HashTable.make n) os in
  ∃ x, run (make n) os ⇓ (x, answers) ∧ size_ x = HashTable.size h ∧
    for_each x ⇓ (HashTable.binding <$> HashTable.nodes h) ∧
    base.size (heap x) = size_ x ∧ base.size (destroy x) = base.size (HashTable.to_map h).
Proof.
  destruct (HashTable.make_wf n) as [Hw _].
  pose proof (run_sim ∅ _ _ _ os (make_rep n) (HashTable.wf_buckets _ Hw)) as Hs. pose proof (run_wf _ os Hw) as Hw'.
  destruct (HashTable.run HashTable.step (HashTable.make n) os) as [h answers]. simpl in Hw'.
  destruct Hs as (x & cs & Hrun & Hr & _). exists x. pose proof (rep_count x cs h Hr Hw') as Hc.
  split_and!; [done|by apply Hr|by eapply for_each_sim|done|].
  unfold destroy. rewrite Hc, HashTable.to_map_size by done. apply Hr.
Qed.

End Rep.

(** A hash that puts every key into one bucket, and an allocator. *)
Definition one_hash : StdHash := λ _, 0%N.

#[local] Instance first_free : Allocator := {| alloc := fresh; alloc_fresh := is_fresh |}.

Definition demo_ops : list HashTable.op :=
  [HashTable.Insert "a" (mkEntry "1" None); HashTable.Insert "b" (mkEntry "2" None);
   HashTable.Insert "c" (mkEntry "3" None); HashTable.Erase "b"; HashTable.Find "a"].

Lemma nodes_refine_chains_witness :
  ∃ x, @run one_hash first_free (make 16) demo_ops ⇓
    (x, [HashTable.ABool true; HashTable.ABool true; HashTable.ABool true; HashTable.ABool true;
         HashTable.AEntry (Some (mkEntry "1" None))]) ∧ base.size (heap x) = 2.
Proof.
  pose proof (@nodes_refine_chains one_hash first_free 16 demo_ops) as Hn.
  destruct (HashTable.run HashTable.step (HashTable.make 16) demo_ops) as [h answers] eqn:E.
  destruct Hn as (x & Hrun & Hs & _ & Hsz & _).
  vm_compute in E. injection E as Eh Ea. subst h answers.
  exists x. split; [exact Hrun|]. rewrite Hsz. exact Hs.
Defined.
End NodeTable.
