(* ===== verification/Races.v ===== *)
(** * Threads on one table (src/storage/hash_table.cpp)

    Four workers share the storage engine, and no lock protects its table.  Here the
    operations of the table are threads that take one memory access at a time on the
    nodes of [Nodes.v], also while they grow the table.  A thread that runs alone does
    what the operation does; any number of readers may interleave; but a reader and a
    deletion, two insertions, or a reader and an insertion that grows the table may
    not: the theorems construct, on every table, the interleavings in which a reader
    follows a freed pointer, in which a stored key is lost, and in which a reader
    misses a key or divides by zero. *)

From S2P Require Import Prelude CppStd Binary32 Table Nodes.

Module Races.
Import NodeTable.

(** A growth of the table that waits for the insertion of one of its nodes: the node,
    the one after it, and the old buckets still to be moved. *)
Record growth := mkGrowth { moving : loc; following : option loc; remaining : list (option loc) }.

(** Where a thread is: at the call; in the loop of [find], [insert] or [erase] at
    [current]; before [new Node], [buckets_[idx] = node], [++size_] and
    [rehash_if_needed()]; in [rehash_if_needed] before [buckets_.resize], [size_ = 0],
    in its outer and its inner loop, and before [delete head]; before the unlinking
    of [current], [delete current] and [--size_]; or returned.  An insertion has the
    stack [ret] of the growths that called it. *)
Inductive thread :=
| Call (o : HashTable.op)
| FindAt (k : string) (current : option loc)
| InsertCall (k : string) (e : StorageEntry) (ret : list growth)
| InsertAt (k : string) (e : StorageEntry) (idx : nat) (current : option loc) (ret : list growth)
| InsertNew (k : string) (e : StorageEntry) (idx : nat) (ret : list growth)
| InsertLink (idx : nat) (node : loc) (ret : list growth)
| InsertCount (ret : list growth)
| InsertGrow (ret : list growth)
| GrowResize (old : list (option loc)) (ret : list growth)
| GrowReset (old : list (option loc)) (ret : list growth)
| GrowNext (old : list (option loc)) (ret : list growth)
| GrowAt (head : option loc) (old : list (option loc)) (ret : list growth)
| GrowDelete (g : growth) (ret : list growth)
| EraseAt (k : string) (idx : nat) (prev current : option loc)
| EraseUnlink (idx : nat) (prev : option loc) (current : loc)
| EraseDelete (current : loc)
| EraseCount
| Returned (a : HashTable.answer).

(** Where [insert] returns to. *)
Definition returns (ret : list growth) (b : bool) : thread :=
  match ret with [] => Returned (HashTable.ABool b) | g :: ret' => GrowDelete g ret' end.

Section Threads.
Context `{StdHash, Allocator}.

Definition with_size (n : nat) (x : t) : t := mk (heap x) (buckets_ x) n.

(** One step of a thread; operations other than [find], [insert] and [erase] run as
    one step.  The key and the entry that a growth moves out of a node are left in
    place: what a moved-from object holds is unspecified. *)
Definition tstep (th : thread) (x : t) : Outcome (thread * t) :=
  match th with
  | Call (HashTable.Find k) =>
      current ← at_ (buckets_ x) (bucket_index k x); Ret (FindAt k current, x)
  | Call (HashTable.Insert k e) => Ret (InsertCall k e [], x)
  | Call (HashTable.Erase k) =>
      current ← at_ (buckets_ x) (bucket_index k x); Ret (EraseAt k (bucket_index k x) None current, x)
  | Call o => '(x, a) ← step x o; Ret (Returned a, x)
  | FindAt k None => Ret (Returned (HashTable.AEntry None), x)
  | FindAt k (Some p) =>
      n ← load p (heap x);
      Ret (if decide (key n = k) then Returned (HashTable.AEntry (Some (entry n))) else FindAt k (next n), x)
  | InsertCall k e ret =>
      current ← at_ (buckets_ x) (bucket_index k x); Ret (InsertAt k e (bucket_index k x) current ret, x)
  | InsertAt k e idx None ret => Ret (InsertNew k e idx ret, x)
  | InsertAt k e idx (Some p) ret =>
      n ← load p (heap x);
      if decide (key n = k) then
        Ret (returns ret false, mk (<[p := mkNode (key n) e (next n)]> (heap x)) (buckets_ x) (size_ x))
      else Ret (InsertAt k e idx (next n) ret, x)
  | InsertNew k e idx ret =>
      head ← at_ (buckets_ x) idx;
      let node := alloc (dom (heap x)) in
      Ret (InsertLink idx node ret, mk (<[node := mkNode k e head]> (heap x)) (buckets_ x) (size_ x))
  | InsertLink idx node ret => Ret (InsertCount ret, mk (heap x) (<[idx := Some node]> (buckets_ x)) (size_ x))
  | InsertCount ret => Ret (InsertGrow ret, with_size (S (size_ x)) x)
  | InsertGrow ret =>
      Ret (if load_ok (size_ x) (length (buckets_ x)) then (returns ret true, x)
           else (GrowResize (buckets_ x) ret, mk (heap x) [] (size_ x)))
  | GrowResize old ret => Ret (GrowReset old ret, mk (heap x) (replicate (length old * 2) None) (size_ x))
  | GrowReset old ret => Ret (GrowNext old ret, with_size 0 x)
  | GrowNext [] ret => Ret (returns ret true, x)
  | GrowNext (head :: old) ret => Ret (GrowAt head old ret, x)
  | GrowAt None old ret => Ret (GrowNext old ret, x)
  | GrowAt (Some p) old ret =>
      n ← load p (heap x);
      Ret (InsertCall (key n) (entry n) (mkGrowth p (next n) old :: ret), x)
  | GrowDelete g ret =>
      m ← free (moving g) (heap x);
      Ret (GrowAt (following g) (remaining g) ret, mk m (buckets_ x) (size_ x))
  | EraseAt k idx prev None => Ret (Returned (HashTable.ABool false), x)
  | EraseAt k idx prev (Some p) =>
      n ← load p (heap x);
      Ret (if decide (key n = k) then EraseUnlink idx prev p else EraseAt k idx (Some p) (next n), x)
  | EraseUnlink idx prev p =>
      n ← load p (heap x);
      x ← unlink idx prev (next n) x;
      Ret (EraseDelete p, x)
  | EraseDelete p => m ← free p (heap x); Ret (EraseCount, mk m (buckets_ x) (size_ x))
  | EraseCount => Ret (Returned (HashTable.ABool true), with_size (size_ x - 1) x)
  | Returned a => Ret (Returned a, x)
  end.

(** One thread alone, and several on one table. *)
Definition solo (s s' : thread * t) : Prop := tstep s.1 s.2 ⇓ s'.

Inductive pstep : list thread * t → list thread * t → Prop :=
| pstep_thread i ths th th' x x' :
    ths !! i = Some th → tstep th x ⇓ (th', x') → pstep (ths, x) (<[i := th']> ths, x').

(** A thread that is about to do what has no defined behaviour. *)
Definition goes_wrong (s : list thread * t) (i : nat) : Prop :=
  ∃ th, s.1 !! i = Some th ∧ tstep th s.2 = Undefined.

(** Steps of one thread are steps of the pool. *)
Lemma solo_pool i ths th th' x x' :
  ths !! i = Some th → rtc solo (th, x) (th', x') → rtc pstep (ths, x) (<[i := th']> ths, x').
Proof.
  intros Hi Hr. remember (th, x) as s eqn:Es. remember (th', x') as s' eqn:Es'.
  revert ths th x Hi Es. induction Hr as [s|s1 [th2 x2] s3 Hs _ IH]; intros ths th x Hi Es; simplify_eq.
  - rewrite (list_insert_id _ _ _ Hi). constructor.
  - eapply rtc_l; [by eapply pstep_thread|]. specialize (IH eq_refl (<[i := th2]> ths) th2 x2).
    rewrite list_insert_insert_eq in IH. apply IH; [|done].
    apply list_lookup_insert_eq. by eapply lookup_lt_Some.
Qed.

(** ** A thread alone *)

Lemma find_solo fuel k current x r :
  find_loop fuel k current (heap x) ⇓ r → rtc solo (FindAt k current, x) (Returned (HashTable.AEntry r), x).
Proof.
  revert current. induction fuel as [|fuel IH]; intros [p|]; simpl; try done;
    try (intros [= <-]; by apply rtc_once).
  intros (n & Hn & Hr)%bind_Ret. case_decide as Hk.
  - injection Hr as <-. apply rtc_once. unfold solo. simpl. rewrite Hn. msimp. by rewrite decide_True.
  - eapply rtc_l; [|by apply IH]. unfold solo. simpl. rewrite Hn. msimp. by rewrite decide_False.
Qed.

Lemma assign_solo fuel k e idx current ret x r :
  assign_loop fuel k e current (heap x) ⇓ r →
  rtc solo (InsertAt k e idx current ret, x)
    (match r with
     | Some m => (returns ret false, mk m (buckets_ x) (size_ x))
     | None => (InsertNew k e idx ret, x)
     end).
Proof.
  revert current. induction fuel as [|fuel IH]; intros [p|]; simpl; try done;
    try (intros [= <-]; by apply rtc_once).
  intros (n & Hn & Hr)%bind_Ret. case_decide as Hk.
  - injection Hr as <-. apply rtc_once. unfold solo. simpl. rewrite Hn. msimp. by rewrite decide_True.
  - eapply rtc_l; [|by apply IH]. unfold solo. simpl. rewrite Hn. msimp. by rewrite decide_False.
Qed.

Lemma erase_solo fuel k idx prev current x x' b :
  erase_loop fuel k idx prev current x ⇓ (x', b) →
  rtc solo (EraseAt k idx prev current, x) (Returned (HashTable.ABool b), x').
Proof.
  revert prev current. induction fuel as [|fuel IH]; intros prev [p|]; simpl; try done;
    try (intros [= <- <-]; by apply rtc_once).
  intros (n & Hn & Hr)%bind_Ret. case_decide as Hk.
  - apply bind_Ret in Hr as (x1 & Hu & (m & Hm & [= <- <-])%bind_Ret).
    eapply rtc_l; [unfold solo; simpl; rewrite Hn; msimp; by rewrite decide_True|].
    eapply rtc_l; [unfold solo; simpl; rewrite Hn; msimp; simpl; rewrite Hu; done|].
    eapply rtc_l; [unfold solo; simpl; rewrite Hm; done|]. by apply rtc_once.
  - eapply rtc_l; [|by eapply IH]. unfold solo. simpl. rewrite Hn. msimp. by rewrite decide_False.
Qed.

(** *** Growing *)

(** An insertion up to the test of the load factor. *)
Lemma push_solo k e idx ret x x1 :
  push idx k e x ⇓ x1 → rtc solo (InsertNew k e idx ret, x) (InsertGrow ret, x1).
Proof.
  intros (head & Hc & [= <-])%bind_Ret. eapply rtc_l; [unfold solo; simpl; rewrite Hc; done|].
  do 2 (eapply rtc_l; [done|]). constructor.
Qed.

(** An insertion that does not grow the table. *)
Lemma insert_solo k e ret x x' b :
  insert_fuel 0 x k e ⇓ (x', b) → load_ok (size_ x') (length (buckets_ x')) = true →
  rtc solo (InsertCall k e ret, x) (returns ret b, x').
Proof.
  cbn [insert_fuel]. intros (current & Hc & (found & Hf & Hi)%bind_Ret)%bind_Ret Hl.
  eapply rtc_l; [unfold solo; simpl; rewrite Hc; done|]. etrans; [by eapply assign_solo|].
  destruct found as [m|]; [injection Hi as <- <-; constructor|].
  apply bind_Ret in Hi as (x1 & Hp & [= <- <-]). etrans; [by eapply push_solo|].
  apply rtc_once. unfold solo. simpl. by rewrite Hl.
Qed.

(** Insertions that do not grow keep the buckets and never lower the count. *)
Lemma insert_counts x k e x' b :
  insert_fuel 0 x k e ⇓ (x', b) → length (buckets_ x') = length (buckets_ x) ∧ size_ x ≤ size_ x'.
Proof.
  cbn [insert_fuel]. intros (current & _ & ([m|] & _ & Hi)%bind_Ret)%bind_Ret; [injection Hi as <- <-; simpl; split; [done|lia]|].
  apply bind_Ret in Hi as (x1 & (head & _ & [= <-])%bind_Ret & [= <- <-]). simpl. rewrite length_insert. lia.
Qed.

Lemma move_counts fuel head x x' :
  move_loop (insert_fuel 0) fuel head x ⇓ x' → length (buckets_ x') = length (buckets_ x) ∧ size_ x ≤ size_ x'.
Proof.
  revert head x. induction fuel as [|fuel IH]; intros [p|] x; cbn [move_loop]; try done; try (by intros [= <-]).
  intros (n & _ & ([x1 b] & Hi & (m & _ & Hm)%bind_Ret)%bind_Ret)%bind_Ret.
  apply insert_counts in Hi as [Hl Hs]. apply IH in Hm as [Hl' Hs']. simpl in *. split; [congruence|lia].
Qed.

Lemma moves_counts heads x x' :
  fold_outcome (λ x' head, move_loop (insert_fuel 0) (walk_bound (heap x')) head x') x heads ⇓ x' →
  length (buckets_ x') = length (buckets_ x) ∧ size_ x ≤ size_ x'.
Proof.
  revert x. induction heads as [|head heads IH]; intros x; cbn [fold_outcome]; [by intros [= <-]|].
  intros (x1 & [Hl Hs]%move_counts & [Hl' Hs']%IH)%bind_Ret. split; [congruence|lia].
Qed.

(** A table with room for its entries: with as many or fewer, it does not grow. *)
Definition roomy (x : t) : Prop := ∀ s, s ≤ size_ x → load_ok s (length (buckets_ x)) = true.

Lemma roomy_before x x' : roomy x' → length (buckets_ x') = length (buckets_ x) ∧ size_ x ≤ size_ x' → roomy x.
Proof. intros Hr [Hl Hs] s Hs'. rewrite <-Hl. apply Hr. lia. Qed.

(** The moves of a growth whose insertions have room: step by step, and with
    insertions that could grow the table again. *)
Lemma move_solo fuel head x x' old ret :
  move_loop (insert_fuel 0) fuel head x ⇓ x' → roomy x' →
  rtc solo (GrowAt head old ret, x) (GrowNext old ret, x') ∧ move_loop (insert_fuel 1) fuel head x ⇓ x'.
Proof.
  revert head x. induction fuel as [|fuel IH]; intros [p|] x; cbn [move_loop]; try done;
    try (intros [= <-] _; split; [by apply rtc_once|done]).
  intros (n & Hn & ([x1 b] & Hi & (m & Hm & Hmv)%bind_Ret)%bind_Ret)%bind_Ret Hr.
  pose proof (roomy_before _ _ Hr (move_counts _ _ _ _ Hmv)) as Hr1. destruct (IH _ _ Hmv Hr) as [Hgo Hone].
  assert (load_ok (size_ x1) (length (buckets_ x1)) = true) as Hl by (by apply Hr1). split.
  - eapply rtc_l; [unfold solo; simpl; by rewrite Hn|]. etrans; [by apply insert_solo|].
    eapply rtc_l; [unfold solo; simpl; by rewrite Hm|]. exact Hgo.
  - rewrite Hn. msimp.
    assert (insert_fuel 1 x (key n) (entry n) ⇓ (x1, b)) as ->; [|msimp; rewrite Hm; by msimp].
    clear -Hi Hl. cbn [insert_fuel] in Hi |- *. apply bind_Ret in Hi as (cur & -> & (found & Hf & Hi)%bind_Ret). msimp. rewrite Hf. msimp.
    destruct found; [done|]. apply bind_Ret in Hi as (y & -> & [= <- <-]). msimp. unfold rehash_with. by rewrite Hl.
Qed.

Lemma moves_solo heads x x' ret :
  fold_outcome (λ x' head, move_loop (insert_fuel 0) (walk_bound (heap x')) head x') x heads ⇓ x' → roomy x' →
  rtc solo (GrowNext heads ret, x) (GrowNext [] ret, x') ∧
  fold_outcome (λ x' head, move_loop (insert_fuel 1) (walk_bound (heap x')) head x') x heads ⇓ x'.
Proof.
  revert x. induction heads as [|head heads IH]; intros x; cbn [fold_outcome]; [intros [= <-] _; split; [constructor|done]|].
  intros (x1 & Hm & Hf)%bind_Ret Hr. destruct (IH _ Hf Hr) as [Hgo Hone].
  destruct (move_solo _ _ _ _ heads ret Hm (roomy_before _ _ Hr (moves_counts _ _ _ Hf))) as [Hgo1 Hone1].
  split; [|rewrite Hone1; by msimp]. eapply rtc_l; [done|]. by etrans.
Qed.

(** The test of the load factor and the growth after it, alone. *)
Lemma grow_solo X x cs h j ret :
  rep X x cs h → HashTable.wf h → j < 98 → HashTable.bucket_count h = 2 ^ j → HashTable.size_ h ≤ 2 ^ j →
  ∃ x', rehash_if_needed x ⇓ x' ∧ rtc solo (InsertGrow ret, x) (returns ret true, x') ∧
    (load_ok (size_ x) (length (buckets_ x)) = false →
     rtc solo (GrowReset (buckets_ x) ret, mk (heap x) (replicate (length (buckets_ x) * 2) None) (size_ x)) (returns ret true, x')).
Proof.
  intros Hr Hwf Hj Hb Hs. assert (2 ^ j ≠ 0) as Hpos by (by apply Nat.pow_nonzero).
  destruct (rehash_sim _ _ X x cs h (insert_fuel_sim 0) Hr) as (x' & cs' & Hx & Hr' & _); [congruence|].
  unfold rehash_with in Hx. unfold rehash_if_needed, rehash_with. destruct (load_ok (size_ x) _) eqn:Hl.
  { exists x. split_and!; [done| |done]. apply rtc_once. unfold solo. simpl. by rewrite Hl. }
  assert (roomy x') as Hroom.
  { destruct (moves_counts _ _ _ Hx) as [Hlen _]. intros s Hss.
    rewrite Hlen. simpl. rewrite length_replicate, (rep_length _ _ _ _ Hr), Hb, Nat.mul_comm.
    apply load_ok_half; [|lia]. rewrite <-HashTable.of_nat_pow2. rewrite (rep_size _ _ _ _ Hr') in Hss.
    unfold HashTable.rehash_with in Hss. rewrite <-(rep_size _ _ _ _ Hr), <-(rep_length _ _ _ _ Hr), Hl in Hss.
    destruct (HashTable.refill_fuel 0 (HashTable.nodes h) (HashTable.mk (replicate (length (HashTable.buckets_ h) * 2) []) 0) j)
      as (_ & _ & H3); [done| |simpl; by rewrite <-(HashTable.wf_size h Hwf)|].
    - unfold HashTable.bucket_count in *. simpl. rewrite length_replicate, Hb. lia.
    - unfold HashTable.nodes in *. cbn [HashTable.size_] in H3. pose proof (HashTable.wf_size h Hwf) as Hsz. unfold HashTable.nodes in Hsz. lia. }
  destruct (moves_solo _ _ _ ret Hx Hroom) as [Hgo Hone]. exists x'.
  assert (rtc solo (GrowReset (buckets_ x) ret, mk (heap x) (replicate (length (buckets_ x) * 2) None) (size_ x)) (returns ret true, x')) as Hreset.
  { eapply rtc_l; [done|]. etrans; [exact Hgo|]. by apply rtc_once. }
  split_and!; [exact Hone| |done]. eapply rtc_l; [unfold solo; simpl; by rewrite Hl|]. eapply rtc_l; [done|]. exact Hreset.
Qed.

(** What an operation does in one go, a thread does when it runs alone, growth of the
    table included. *)
Lemma call_solo X x cs h o x' a :
  rep X x cs h → HashTable.wf h → HashTable.balanced h → step x o ⇓ (x', a) → rtc solo (Call o, x) (Returned a, x').
Proof.
  intros Hr Hwf (j & Hj & Hb & Hsz). assert (2 ^ j ≠ 0) as Hpos by (by apply Nat.pow_nonzero).
  destruct o as [k e|k|k|k| |]; simpl.
  - intros ([x1 b] & Hi & [= <- <-])%bind_Ret. rewrite insert_unfold in Hi.
    apply bind_Ret in Hi as (current & Hc & (found & Hf & Hi)%bind_Ret).
    eapply rtc_l; [done|]. eapply rtc_l; [unfold solo; simpl; rewrite Hc; done|]. etrans; [by eapply assign_solo|].
    destruct found as [m|]; [injection Hi as <- <-; constructor|].
    apply bind_Ret in Hi as (x2 & Hp & (x3 & Hre & [= <- <-])%bind_Ret). etrans; [by eapply push_solo|].
    destruct (rep_bucket X x cs h k Hr) as (cur & c & Hat & Hcs & _ & Hs & Hnd & Hbk); [congruence|].
    rewrite Hc in Hat. injection Hat as <-.
    pose proof (assign_loop_spec (walk_bound (heap x)) k e current c (heap x) Hs Hnd (seg_short _ _ _ _ Hs Hnd)) as Ha.
    destruct (HashTable.chain_assign k e c.*2) as [l|] eqn:Eca; [destruct Ha as (? & ? & ? & Ha & _); by rewrite Hf in Ha|].
    destruct (push_sim X x cs h k e Hr) as (y & cs1 & Hpush & Hr1 & _); [congruence|]. rewrite Hp in Hpush. injection Hpush as <-.
    destruct (grow_solo X x2 cs1 _ j [] Hr1) as (y & Hy & Hgo & _); [| |by rewrite <-Hb; apply length_insert|simpl; lia|].
    + by apply HashTable.push_spec; [|rewrite Hbk].
    + done.
    + rewrite Hre in Hy. by injection Hy as <-.
  - intros (r & Hf & [= <- <-])%bind_Ret. unfold find in Hf. apply bind_Ret in Hf as (current & Hc & Hf).
    eapply rtc_l; [unfold solo; simpl; rewrite Hc; done|]. by eapply find_solo.
  - intros ([x1 b] & He & [= <- <-])%bind_Ret. unfold erase in He. apply bind_Ret in He as (current & Hc & He).
    eapply rtc_l; [unfold solo; simpl; rewrite Hc; done|]. by eapply erase_solo.
  - intros Hs. apply rtc_once. unfold solo. simpl. apply bind_Ret in Hs as (b & -> & [= <- <-]). done.
  - intros [= <- <-]. by apply rtc_once.
  - intros (x1 & Hc & [= <- <-])%bind_Ret. apply rtc_once. unfold solo. simpl. by rewrite Hc.
Qed.

(** ** Readers *)

(** A reader on its way: from where it is, the chain still gives its answer. *)
Definition reading (x : t) (h : HashTable.t) (th : thread) : Prop :=
  match th with
  | Call (HashTable.Find _) => True
  | FindAt k current => ∃ c, seg (heap x) current c None ∧ HashTable.chain_find k c.*2 = HashTable.find k h
  | Returned (HashTable.AEntry _) => True
  | _ => False
  end.

(** The key a reader looks for, while it looks. *)
Definition answers (h : HashTable.t) (o : HashTable.op) (th : thread) : Prop :=
  match o, th with
  | HashTable.Find k, Call (HashTable.Find k') | HashTable.Find k, FindAt k' _ => k = k'
  | HashTable.Find k, Returned (HashTable.AEntry r) => r = HashTable.find k h
  | _, _ => False
  end.

Lemma reader_step X x cs h k th :
  rep X x cs h → HashTable.bucket_count h ≠ 0 → reading x h th → answers h (HashTable.Find k) th →
  ∃ th', tstep th x ⇓ (th', x) ∧ reading x h th' ∧ answers h (HashTable.Find k) th'.
Proof.
  intros Hr Hb Hrd Ha. destruct th as [[]|k1 [p|]| | | | | | | | | | | | | | | |[]]; try done; simpl in Hrd, Ha |- *; subst.
  - destruct (rep_bucket X x cs h k0 Hr Hb) as (current & c & -> & _ & _ & Hs & _ & Hbk). msimp.
    exists (FindAt k0 current). split_and!; [done| |done]. exists c. split; [done|]. unfold HashTable.find. by rewrite Hbk.
  - destruct Hrd as ([|[q n] c] & Hs & Hf); [done|]. destruct Hs as [[= <-] (nxt & Hp & Hs)].
    rewrite (load_seg _ _ _ _ Hp). msimp. simpl. csimpl. simpl in Hf. case_decide; eexists; (split; [done|]); simpl.
    + by rewrite Hf.
    + split; [|done]. by exists c.
  - destruct Hrd as ([|[q n] c] & Hs & Hf); [|by destruct Hs]. eexists. split; [done|]. simpl in Hf |- *. done.
  - eauto.
Qed.

(** C18: readers do not disturb each other: any number of lookups on one table, however
    their steps interleave, leave the table as it is, never follow a dangling
    pointer, and each that has returned has the answer the table gives for its key. *)
Theorem readers_are_safe x cs h ks ths x' :
  rep ∅ x cs h → HashTable.bucket_count h ≠ 0 →
  rtc pstep ((λ k, Call (HashTable.Find k)) <$> ks, x) (ths, x') →
  x' = x ∧ (∀ i, ¬ goes_wrong (ths, x') i) ∧
  ∀ i k r, ks !! i = Some k → ths !! i = Some (Returned (HashTable.AEntry r)) → r = HashTable.find k h.
Proof.
  intros Hr Hb Hrun.
  assert (x' = x ∧ Forall2 (λ k th, reading x h th ∧ answers h (HashTable.Find k) th) ks ths) as [-> Hf].
  { remember ((λ k, Call (HashTable.Find k)) <$> ks, x) as s eqn:Es. remember (ths, x') as s' eqn:Es'.
    assert (s.2 = x ∧ Forall2 (λ k th, reading x h th ∧ answers h (HashTable.Find k) th) ks s.1) as Hs.
    { subst s. simpl. split; [done|]. apply Forall2_fmap_r, Forall_Forall2_diag, Forall_true. done. }
    clear Es. revert ths x' Es'. induction Hrun as [s|s1 s2 s3 Hst _ IH]; intros ths x' ->; [done|].
    apply IH; [|done]. destruct Hst as [i l th th' x1 x2 Hi Ht]. simpl in *. destruct Hs as [-> Hf].
    destruct (Forall2_lookup_r _ _ _ _ _ Hf Hi) as (k & Hk & Hrd & Ha).
    destruct (reader_step _ _ _ _ _ _ Hr Hb Hrd Ha) as (th1 & Ht1 & Hrd1 & Ha1). rewrite Ht in Ht1. injection Ht1 as -> ->.
    split; [done|]. rewrite <-(list_insert_id ks i k Hk). by apply Forall2_insert. }
  split_and!; [done| |].
  - intros i (th & Hi & Hu). simpl in *. destruct (Forall2_lookup_r _ _ _ _ _ Hf Hi) as (k & Hk & Hrd & Ha).
    destruct (reader_step _ _ _ _ _ _ Hr Hb Hrd Ha) as (th1 & Ht1 & _). by rewrite Hu in Ht1.
  - intros i k r Hk Hi. by destruct (Forall2_lookup_lr _ _ _ _ _ _ Hf Hk Hi).
Qed.

(** ** A reader and a deletion *)

(** The node of a key in its chain. *)
Lemma chain_split k e (c : list (loc * HashTable.Node)) :
  HashTable.chain_find k c.*2 = Some e →
  ∃ c1 p n c2, c = c1 ++ (p, n) :: c2 ∧ HashTable.key n = k ∧ Forall (λ b, HashTable.key b.2 ≠ k) c1.
Proof.
  induction c as [|[p n] c IH]; csimpl; [done|]. case_decide as Hk.
  - intros _. exists [], p, n, c. by split_and!.
  - intros (c1 & p' & n' & c2 & -> & Hk' & Hf)%IH. exists ((p, n) :: c1), p', n', c2. split_and!; [done|done|by constructor].
Qed.

Lemma find_walks k x current c q :
  seg (heap x) current c q → Forall (λ b, HashTable.key b.2 ≠ k) c →
  rtc solo (FindAt k current, x) (FindAt k q, x).
Proof.
  intros Hs Hf. revert current Hs. induction Hf as [|[p n] c Hk _ IH]; intros current Hs; [by rewrite Hs|].
  destruct Hs as [-> (nxt & Hp & Hs)]. eapply rtc_l; [|by apply IH].
  unfold solo. simpl. rewrite (load_seg _ _ _ _ Hp). msimp. by rewrite decide_False.
Qed.

Lemma erase_walks k idx x prev current c q :
  seg (heap x) current c q → Forall (λ b, HashTable.key b.2 ≠ k) c →
  ∃ prev', rtc solo (EraseAt k idx prev current, x) (EraseAt k idx prev' q, x) ∧
    (prev' = prev ∨ ∃ p, prev' = Some p ∧ p ∈ c.*1).
Proof.
  intros Hs Hf. revert prev current Hs. induction Hf as [|[p n] c Hk _ IH]; intros prev current Hs.
  { simpl in Hs. subst q. exists prev. split; [constructor|by left]. }
  destruct Hs as [-> (nxt & Hp & Hs)]. destruct (IH (Some p) nxt Hs) as (prev' & Hr & Hpr).
  exists prev'. split.
  - eapply rtc_l; [|exact Hr]. unfold solo. simpl. rewrite (load_seg _ _ _ _ Hp). msimp. by rewrite decide_False.
  - right. csimpl. destruct Hpr as [->|(p' & -> & Hin)]; [exists p|exists p']; set_solver.
Qed.

(** A deletion that runs until it has freed the node of its key. *)
Lemma erase_frees k idx x current c1 p n c2 :
  seg (heap x) current (c1 ++ (p, n) :: c2) None → NoDup (c1 ++ (p, n) :: c2).*1 →
  HashTable.key n = k → Forall (λ b, HashTable.key b.2 ≠ k) c1 →
  ∃ x', rtc solo (EraseAt k idx None current, x) (EraseCount, x') ∧ heap x' !! p = None.
Proof.
  intros Hs Hnd Hk Hf. pose proof Hs as Hs'. apply seg_app in Hs' as (mid & Hs1 & -> & nxt & Hp & _).
  destruct (erase_walks k idx x None current c1 (Some p) Hs1 Hf) as (prev & Hw & Hprev).
  assert (∃ x1, unlink idx prev nxt x ⇓ x1 ∧ heap x1 !! p = heap x !! p) as (x1 & Hu & Hpx).
  { destruct Hprev as [->|(q & -> & Hq)]; [by eexists|].
    assert (is_Some (heap x !! q)) as [nq Hnq] by (by apply elem_of_dom; eapply seg_dom).
    simpl. unfold load. rewrite Hnq. msimp. eexists. split; [done|]. simpl. rewrite lookup_insert_ne; [done|].
    intros ->. rewrite fmap_app in Hnd. csimpl. apply NoDup_app in Hnd as (_ & Hd & _). apply (Hd p Hq). by left. }
  exists (mk (delete p (heap x1)) (buckets_ x1) (size_ x1)). split; [|simpl; apply lookup_delete_eq].
  etrans; [exact Hw|]. eapply rtc_l; [unfold solo; simpl; rewrite (load_seg _ _ _ _ Hp); msimp; by rewrite decide_True|].
  eapply rtc_l; [unfold solo; simpl; rewrite (load_seg _ _ _ _ Hp); msimp; simpl; by rewrite Hu|].
  apply rtc_once. unfold solo. simpl. unfold free. by rewrite Hpx, Hp.
Qed.

(** C37: a lookup may follow a freed pointer: on every table and for every key it
    holds, a GET and a DEL of that key on two threads have an interleaving in which
    the reader's next access is to a node that the other thread has deleted. *)
Theorem lookup_after_free x cs h k e :
  rep ∅ x cs h → HashTable.bucket_count h ≠ 0 → HashTable.find k h = Some e →
  ∃ s, rtc pstep ([Call (HashTable.Find k); Call (HashTable.Erase k)], x) s ∧ goes_wrong s 0.
Proof.
  intros Hr Hb Hf. destruct (rep_bucket ∅ x cs h k Hr Hb) as (current & c & Hat & _ & _ & Hs & Hnd & Hbk).
  unfold HashTable.find in Hf. rewrite Hbk in Hf. destruct (chain_split k e c Hf) as (c1 & p & n & c2 & -> & Hk & Hn).
  destruct (erase_frees k (bucket_index k x) x current c1 p n c2 Hs Hnd Hk Hn) as (x' & He & Hp).
  pose proof Hs as Hs'. apply seg_app in Hs' as (mid & Hs1 & -> & _).
  exists ([FindAt k (Some p); EraseCount], x'). split.
  - etrans; [apply (solo_pool 0 _ (Call (HashTable.Find k)) (FindAt k (Some p)) x x); [done|]|].
    { eapply rtc_l; [unfold solo; simpl; rewrite Hat; done|]. by apply find_walks with (c := c1). }
    apply (solo_pool 1 [FindAt k (Some p); Call (HashTable.Erase k)] (Call (HashTable.Erase k)) EraseCount x x'); [done|].
    eapply rtc_l; [unfold solo; simpl; rewrite Hat; done|]. exact He.
  - exists (FindAt k (Some p)). split; [done|]. simpl. unfold load. by rewrite Hp.
Qed.

(** ** Two insertions *)

(** A block that no chain holds is allocated. *)
Lemma rep_leak X x cs h p n :
  rep X x cs h → p ∉ dom (heap x) → rep ({[ p ]} ∪ X) (mk (<[p := n]> (heap x)) (buckets_ x) (size_ x)) cs h.
Proof.
  intros [Hch Hnd Hdom Hex Hbk Hsz] Hp. split; simpl; [|done| | |done|done].
  - eapply Forall2_same_length_lookup_2; [by eapply Forall2_length|]. intros j cur cj Hj Hcj.
    pose proof (Forall2_lookup_lr _ _ _ _ _ _ Hch Hj Hcj) as Hs. simpl in Hs.
    eapply seg_frame; [|exact Hs]. intros q Hq. rewrite lookup_insert_ne; [done|].
    intros ->. by eapply Hp, seg_dom.
  - intros q. rewrite dom_insert_L, !elem_of_union, elem_of_singleton, Hdom. tauto.
  - intros q [->%elem_of_singleton|Hq]%elem_of_union; [|by apply Hex]. intros Hq. apply Hp, Hdom. by left.
Qed.

Lemma insert_walks k e idx x current c :
  seg (heap x) current c None → k ∉ (HashTable.key <$> c.*2) →
  rtc solo (InsertAt k e idx current [], x) (InsertNew k e idx [], x).
Proof.
  revert current. induction c as [|[p n] c IH]; intros current; csimpl; [intros -> _; by apply rtc_once|].
  intros [-> (nxt & Hp & Hs)] Hk. eapply rtc_l; [|apply IH; [exact Hs|set_solver]].
  unfold solo. simpl. rewrite (load_seg _ _ _ _ Hp). msimp. rewrite decide_False; [done|]. simpl. set_solver.
Qed.

(** The call of [insert] for an absent key, up to the allocation of its node. *)
Lemma insert_reaches_new X x cs h k e :
  rep X x cs h → HashTable.bucket_count h ≠ 0 → HashTable.find k h = None →
  rtc solo (Call (HashTable.Insert k e), x) (InsertNew k e (bucket_index k x) [], x).
Proof.
  intros Hr Hb Hf. destruct (rep_bucket X x cs h k Hr Hb) as (current & c & Hat & _ & _ & Hs & _ & Hbk).
  eapply rtc_l; [done|]. eapply rtc_l; [unfold solo; simpl; rewrite Hat; done|]. eapply insert_walks; [exact Hs|].
  apply HashTable.chain_find_None. unfold HashTable.find in Hf. by rewrite Hbk in Hf.
Qed.

(** The table after both threads have read the same head and the second has linked
    its node over the first one's. *)
Lemma both_linked x cs h k1 k2 e1 e2 head c sz :
  rep ∅ x cs h → cs !! bucket_index k2 x = Some c → seg (heap x) head c None → NoDup c.*1 →
  let p1 := alloc (dom (heap x)) in
  let m1 := <[p1 := mkNode k1 e1 head]> (heap x) in
  let p2 := alloc (dom m1) in
  rep {[ p1 ]} (mk (<[p2 := mkNode k2 e2 head]> m1) (<[bucket_index k2 x := Some p2]> (buckets_ x)) sz)
    (<[bucket_index k2 x := (p2, HashTable.mkNode k2 e2) :: c]> cs)
    (HashTable.mk (<[bucket_index k2 x := HashTable.mkNode k2 e2 :: c.*2]> (HashTable.buckets_ h)) sz).
Proof.
  intros Hr Hcs Hs Hnd p1 m1 p2.
  assert (p1 ∉ dom (heap x)) as Hp1 by apply alloc_fresh. assert (p2 ∉ dom m1) as Hp2 by apply alloc_fresh.
  pose proof (rep_leak ∅ x cs h p1 (mkNode k1 e1 head) Hr Hp1) as Hr1. rewrite (right_id_L ∅ (∪)) in Hr1.
  assert (seg m1 head c None) as Hs1.
  { eapply seg_frame; [|exact Hs]. intros q Hq. subst m1. rewrite lookup_insert_ne; [done|].
    intros ->. by eapply Hp1, seg_dom. }
  assert (p2 ∉ c.*1) as Hpc by (intros Hpc; by eapply Hp2, seg_dom).
  destruct (rep_set {[ p1 ]} (mk m1 (buckets_ x) (size_ x)) cs h (bucket_index k2 x) c
    (<[p2 := mkNode k2 e2 head]> m1) ((p2, HashTable.mkNode k2 e2) :: c) (Some p2) sz Hr1 Hcs) as [Hr' _]; [| | | | |exact Hr'].
  - split; [done|]. exists head. rewrite lookup_insert_eq. split; [done|].
    eapply seg_frame; [|exact Hs1]. intros q Hq. rewrite lookup_insert_ne; [done|]. by intros ->.
  - csimpl. by apply NoDup_cons.
  - csimpl. intros q [->|Hq]%elem_of_cons; auto.
  - csimpl. intros q Hq Hn. rewrite lookup_insert_ne; [done|]. intros ->. apply Hn. by left.
  - csimpl. intros q Hq Hn. destruct Hn. by right.
Qed.

(** Thread [i] takes a step. *)
Ltac turn i tac := eapply rtc_l; [eapply (pstep_thread i); [reflexivity|tac]|]; simpl.

(** An insertion may be lost: on every table with room for two more entries, two
    threads that insert different absent keys of one bucket have an interleaving
    in which both return true and the table counts two more entries, but one of the
    keys is not found any more; its node stays allocated and no chain holds it. *)
Theorem insertion_lost x cs h k1 k2 e1 e2 :
  rep ∅ x cs h → HashTable.bucket_count h ≠ 0 → k1 ≠ k2 →
  HashTable.bucket_index k1 h = HashTable.bucket_index k2 h →
  HashTable.find k1 h = None → HashTable.find k2 h = None →
  load_ok (S (S (size_ x))) (HashTable.bucket_count h) = true →
  ∃ x', rtc pstep ([Call (HashTable.Insert k1 e1); Call (HashTable.Insert k2 e2)], x)
      ([Returned (HashTable.ABool true); Returned (HashTable.ABool true)], x') ∧
    size_ x' = size_ x + 2 ∧ find k1 x' ⇓ None ∧ find k2 x' ⇓ Some e2 ∧
    base.size (heap x') = base.size (heap x) + 2.
Proof.
  intros Hr Hb Hne Hidx Hf1 Hf2 Hload.
  destruct (rep_bucket ∅ x cs h k2 Hr Hb) as (head & c & Hat & Hcs & Hcur & Hs & Hnd & Hbk).
  assert (bucket_index k1 x = bucket_index k2 x) as Hi by (by rewrite !(rep_index _ _ _ _ _ Hr)).
  pose proof (both_linked x cs h k1 k2 e1 e2 head c (S (S (size_ x))) Hr Hcs Hs Hnd) as Hr'. cbv zeta in Hr'.
  set (p1 := alloc (dom (heap x))) in *. set (m1 := <[p1 := mkNode k1 e1 head]> (heap x)) in *.
  set (p2 := alloc (dom m1)) in *.
  match type of Hr' with rep _ ?y _ ?g => set (x' := y) in *; set (h' := g) in * end.
  assert (HashTable.bucket_count h' = HashTable.bucket_count h) as Hb'
    by (unfold h', HashTable.bucket_count; simpl; by rewrite length_insert).
  assert (tstep (InsertGrow []) x' ⇓ (Returned (HashTable.ABool true), x')) as Hgrow.
  { unfold x'. simpl. by rewrite length_insert, (rep_length _ _ _ _ Hr), Hload. }
  exists x'. split_and!.
  - etrans; [apply (solo_pool 0 _ (Call (HashTable.Insert k1 e1)) (InsertNew k1 e1 (bucket_index k2 x) []) x x); [done|]|].
    { rewrite <-Hi. by eapply insert_reaches_new. }
    etrans; [apply (solo_pool 1 _ (Call (HashTable.Insert k2 e2)) (InsertNew k2 e2 (bucket_index k2 x) []) x x); [done|]|].
    { by eapply insert_reaches_new. }
    simpl. turn 0 ltac:(simpl; by rewrite Hat). turn 1 ltac:(simpl; by rewrite Hat).
    turn 0 ltac:(done). turn 1 ltac:(done). turn 0 ltac:(done). turn 1 ltac:(done).
    unfold with_size. simpl. rewrite list_insert_insert_eq.
    turn 0 ltac:(exact Hgrow). turn 1 ltac:(exact Hgrow). constructor.
  - simpl. lia.
  - rewrite (find_sim _ _ _ _ k1 Hr') by (by rewrite Hb'). f_equal. unfold HashTable.find.
    assert (HashTable.bucket_index k1 h' = bucket_index k2 x) as -> by
      (rewrite <-Hi, (rep_index _ _ _ _ _ Hr); unfold HashTable.bucket_index; by rewrite Hb').
    unfold h', HashTable.bucket. simpl. rewrite list_lookup_insert_eq.
    + simpl. rewrite decide_False by done. unfold HashTable.find in Hf1. by rewrite Hidx, Hbk in Hf1.
    + fold (HashTable.bucket_count h). rewrite (rep_index _ _ _ _ _ Hr). by apply HashTable.bucket_index_lt.
  - rewrite (find_sim _ _ _ _ k2 Hr') by (by rewrite Hb'). f_equal. unfold HashTable.find.
    assert (HashTable.bucket_index k2 h' = bucket_index k2 x) as -> by
      (rewrite (rep_index _ _ _ _ _ Hr); unfold HashTable.bucket_index; by rewrite Hb').
    unfold h', HashTable.bucket. simpl. rewrite list_lookup_insert_eq.
    + simpl. by rewrite decide_True.
    + fold (HashTable.bucket_count h). rewrite (rep_index _ _ _ _ _ Hr). by apply HashTable.bucket_index_lt.
  - unfold x'. simpl. rewrite map_size_insert_None by (apply not_elem_of_dom, alloc_fresh).
    unfold m1. rewrite map_size_insert_None by (apply not_elem_of_dom, alloc_fresh). lia.
Qed.

(** ** A reader and a growing table *)

(** An insertion of an absent key up to the test of the load factor, and its result. *)
Lemma insert_reaches_grow x cs h k e :
  rep ∅ x cs h → HashTable.wf h → HashTable.balanced h → HashTable.find k h = None →
  ∃ y x' cs', rtc solo (Call (HashTable.Insert k e), x) (InsertGrow [], y) ∧
    size_ y = S (size_ x) ∧ length (buckets_ y) = HashTable.bucket_count h ∧
    rep ∅ x' cs' (HashTable.insert h k e).1 ∧
    (load_ok (S (size_ x)) (HashTable.bucket_count h) = false →
     rtc solo (GrowReset (buckets_ y) [], mk (heap y) (replicate (length (buckets_ y) * 2) None) (size_ y))
       (Returned (HashTable.ABool true), x')).
Proof.
  intros Hr Hwf (j & Hj & Hb & Hsz) Hf. assert (HashTable.bucket_count h ≠ 0) as Hb0 by (rewrite Hb; by apply Nat.pow_nonzero).
  destruct (rep_bucket ∅ x cs h k Hr Hb0) as (current & c & Hat & _ & _ & Hs & Hnd & Hbk).
  unfold HashTable.find in Hf. rewrite Hbk in Hf.
  assert (HashTable.chain_assign k e c.*2 = None) as Hca by (by apply HashTable.chain_assign_None, HashTable.chain_find_None).
  pose proof (assign_loop_spec (walk_bound (heap x)) k e current c (heap x) Hs Hnd (seg_short _ _ _ _ Hs Hnd)) as Ha.
  rewrite Hca in Ha. destruct (push_sim ∅ x cs h k e Hr Hb0) as (y & cs1 & Hp & Hr1 & _).
  destruct (grow_solo ∅ y cs1 _ j [] Hr1) as (x1 & Hx1 & _ & Hgo); [| |by rewrite <-Hb; apply length_insert|simpl; lia|];
    [by apply HashTable.push_spec; [|rewrite Hbk]|done|].
  destruct (insert_fuel_sim 2 ∅ x cs h k e Hr Hb0) as (x' & cs' & Hi & Hr' & _).
  change (insert_fuel 2 x k e) with (insert x k e) in Hi. rewrite insert_unfold, Hat in Hi. msimp_all.
  rewrite Ha in Hi. msimp_all. rewrite Hp in Hi. msimp_all. rewrite Hx1 in Hi. msimp_all. injection Hi as <- _.
  assert (size_ y = S (size_ x)) as Hsy by (by rewrite (rep_size _ _ _ _ Hr1), (rep_size _ _ _ _ Hr)).
  assert (length (buckets_ y) = HashTable.bucket_count h) as Hly by (rewrite (rep_length _ _ _ _ Hr1); apply length_insert).
  exists y, x1, cs'. split_and!; [|done|done|done|intros Hl; apply Hgo; by rewrite Hsy, Hly].
  eapply rtc_l; [done|]. eapply rtc_l; [unfold solo; simpl; rewrite Hat; done|].
  etrans; [by eapply assign_solo|]. by apply push_solo.
Qed.

(** C38: a table that grows loses sight of its keys: on every table that the next new
    key makes grow, and for every key it holds, a lookup of that key on another
    thread has an interleaving in which it divides by the bucket count zero of the
    moved-from vector, and one in which it returns and has not found the key,
    although the key is in the table before and when the insertion has returned. *)
Theorem growth_hides_keys x cs h k e k0 e0 :
  rep ∅ x cs h → HashTable.wf h → HashTable.balanced h →
  HashTable.find k h = None → HashTable.find k0 h = Some e0 →
  load_ok (S (size_ x)) (HashTable.bucket_count h) = false →
  (∃ s, rtc pstep ([Call (HashTable.Insert k e); Call (HashTable.Find k0)], x) s ∧
     buckets_ s.2 = [] ∧ goes_wrong s 1) ∧
  ∃ x', rtc pstep ([Call (HashTable.Insert k e); Call (HashTable.Find k0)], x)
      ([Returned (HashTable.ABool true); Returned (HashTable.AEntry None)], x') ∧
    find k0 x' ⇓ Some e0.
Proof.
  intros Hr Hwf Hbal Hk Hk0 Hl.
  destruct (insert_reaches_grow x cs h k e Hr Hwf Hbal Hk) as (y & x' & cs' & Hy & Hsy & Hly & Hr' & Hgo).
  specialize (Hgo Hl). rewrite <-Hly, <-Hsy in Hl. assert (HashTable.bucket_count h ≠ 0) as Hb0 by apply HashTable.wf_buckets, Hwf.
  assert (rtc pstep ([Call (HashTable.Insert k e); Call (HashTable.Find k0)], x)
    ([GrowResize (buckets_ y) []; Call (HashTable.Find k0)], mk (heap y) [] (size_ y))) as Hstart.
  { etrans; [apply (solo_pool 0 _ (Call (HashTable.Insert k e)) (InsertGrow []) x y); [done|exact Hy]|].
    turn 0 ltac:(simpl; by rewrite Hl). constructor. }
  split; [eexists; split; [exact Hstart|]; split; [done|]; by exists (Call (HashTable.Find k0))|].
  exists x'. split.
  - etrans; [exact Hstart|]. turn 0 ltac:(done). set (z := mk _ (replicate _ _) _) in *.
    assert (at_ (buckets_ z) (bucket_index k0 z) ⇓ None) as Hat.
    { unfold at_, z, bucket_index. simpl. rewrite length_replicate, lookup_replicate_2; [done|].
      pose proof (N.mod_lt (HashTable.hash_key k0) (N.of_nat (length (buckets_ y) * 2))). lia. }
    clearbody z. turn 1 ltac:(simpl; by rewrite Hat). turn 1 ltac:(done).
    by apply (solo_pool 0 [GrowReset (buckets_ y) []; Returned (HashTable.AEntry None)] (GrowReset (buckets_ y) []) (Returned (HashTable.ABool true)) z x').
  - destruct (HashTable.insert_fuel_inserts 2 h k e Hwf) as (Hw' & Hm & _).
    fold (HashTable.insert h k e) in Hw', Hm.
    rewrite (find_sim _ _ _ _ k0 Hr') by (by apply HashTable.wf_buckets). f_equal.
    rewrite <-HashTable.to_map_find, Hm by done. rewrite lookup_insert_ne by congruence. by rewrite HashTable.to_map_find.
Qed.

End Threads.

(** ** A table with one key *)

Section Witnesses.
#[local] Existing Instances one_hash first_free.

Definition one : StorageEntry := mkEntry "1" None.
Definition small_table : HashTable.t := (HashTable.insert (HashTable.make 16) "a" one).1.

Lemma small_rep : ∃ x cs, insert (make 16) "a" one ⇓ (x, true) ∧ rep ∅ x cs small_table.
Proof.
  destruct (insert_fuel_sim 2 ∅ (make 16) _ (HashTable.make 16) "a" one (make_rep 16)) as (x & cs & Hi & Hr & _);
    [vm_compute; discriminate|]. exists x, cs. split; [exact Hi|exact Hr].
Qed.

Lemma small_wf : HashTable.wf small_table.
Proof. apply (HashTable.insert_fuel_inserts 2), HashTable.make_wf. Qed.

Lemma small_balanced : HashTable.balanced small_table.
Proof. exists 4. split_and!; [lia|reflexivity|vm_compute; lia]. Qed.

Lemma readers_are_safe_witness :
  ∃ x, insert (make 16) "a" one ⇓ (x, true) ∧
    rtc pstep ([Call (HashTable.Find "a"); Call (HashTable.Find "b")], x)
      ([Returned (HashTable.AEntry (Some one)); Call (HashTable.Find "b")], x) ∧
    Some one = HashTable.find "a" small_table.
Proof.
  destruct small_rep as (x & cs & Hi & Hr). exists x. split; [exact Hi|].
  assert (rtc pstep ([Call (HashTable.Find "a"); Call (HashTable.Find "b")], x)
      ([Returned (HashTable.AEntry (Some one)); Call (HashTable.Find "b")], x)) as Hrun.
  { apply (solo_pool 0 [Call (HashTable.Find "a"); Call (HashTable.Find "b")] (Call (HashTable.Find "a"))
      (Returned (HashTable.AEntry (Some one)))); [reflexivity|].
    apply (call_solo ∅ x cs small_table); [done|apply small_wf|apply small_balanced|]. simpl. rewrite (find_sim _ _ _ _ "a" Hr) by (vm_compute; discriminate). vm_compute. reflexivity. }
  split; [exact Hrun|].
  destruct (readers_are_safe x cs small_table ["a"; "b"]
    [Returned (HashTable.AEntry (Some one)); Call (HashTable.Find "b")] x Hr) as (_ & _ & Ha);
    [vm_compute; discriminate|exact Hrun|]. by apply (Ha 0).
Defined.

Lemma lookup_after_free_witness :
  ∃ x s, insert (make 16) "a" one ⇓ (x, true) ∧
    rtc pstep ([Call (HashTable.Find "a"); Call (HashTable.Erase "a")], x) s ∧ goes_wrong s 0.
Proof.
  destruct small_rep as (x & cs & Hi & Hr).
  destruct (lookup_after_free x cs small_table "a" one Hr) as (s & Hs & Hw);
    [vm_compute; discriminate|vm_compute; reflexivity|]. exists x, s. auto.
Defined.

(** Twelve keys in sixteen buckets. *)
Definition full_ops : list HashTable.op :=
  (λ k, HashTable.Insert k one) <$> ["a"; "b"; "c"; "d"; "e"; "f"; "g"; "h"; "i"; "j"; "k"; "l"].
Definition full_table : HashTable.t := (HashTable.run HashTable.step (HashTable.make 16) full_ops).1.

Lemma growth_hides_keys_witness :
  ∃ x answers x', run (make 16) full_ops ⇓ (x, answers) ∧
    rtc pstep ([Call (HashTable.Insert "m" one); Call (HashTable.Find "a")], x)
      ([Returned (HashTable.ABool true); Returned (HashTable.AEntry None)], x') ∧
    find "a" x' ⇓ Some one.
Proof.
  pose proof (run_sim ∅ _ _ _ full_ops (make_rep 16)) as Hs. destruct (HashTable.make_wf 16) as [Hw _].
  pose proof (run_wf _ full_ops Hw) as Hw'. fold full_table in Hw'.
  destruct (HashTable.run HashTable.step (HashTable.make 16) full_ops) as [h answers] eqn:E.
  assert (h = full_table) as -> by (unfold full_table; by rewrite E).
  destruct Hs as (x & cs & Hx & Hr & _); [vm_compute; discriminate|].
  destruct (growth_hides_keys x cs full_table "m" one "a" one Hr Hw') as (_ & x' & Hrun & Hf).
  - exists 4. split_and!; [lia|vm_compute; reflexivity|vm_compute; lia].
  - vm_compute. reflexivity.
  - vm_compute. reflexivity.
  - rewrite (rep_size _ _ _ _ Hr). vm_compute. reflexivity.
  - exists x, answers, x'. split; [exact Hx|]. split; [exact Hrun|exact Hf].
Defined.

Lemma insertion_lost_witness :
  ∃ x', rtc pstep ([Call (HashTable.Insert "a" one); Call (HashTable.Insert "b" one)], make 16)
      ([Returned (HashTable.ABool true); Returned (HashTable.ABool true)], x') ∧
    size_ x' = 2 ∧ find "a" x' ⇓ None.
Proof.
  destruct (insertion_lost (make 16) _ (HashTable.make 16) "a" "b" one one (make_rep 16)) as (x' & Hr & Hs & Hf & _);
    [vm_compute; discriminate|discriminate|vm_compute; reflexivity|vm_compute; reflexivity|vm_compute; reflexivity
    |vm_compute; reflexivity|].
  exists x'. split; [exact Hr|]. split; [exact Hs|exact Hf].
Defined.

End Witnesses.
End Races.
