(* ===== verification/Scanner.v ===== *)
(** * Incremental key scanning (src/storage/key_scanner.cpp)

    [KeyScanner::scan] walks the buckets from a cursor (bucket, position in the
    chain), collects the keys that match a pattern until the page holds
    [count] keys, and reports where to continue.  The theorems show what a
    page contains and that iterating from the first cursor until a page is
    finished reports every matching key exactly once. *)

From S2P Require Import Prelude CppStd Table.

Module KeyScanner.

Record ScanCursor := mkCursor { bucket : N; chain : N }.

Record ScanPage := mkPage { next : ScanCursor; keys : list string; finished : bool }.

#[global] Instance ScanCursor_eq_dec : EqDecision ScanCursor.
Proof. solve_decision. Defined.

Definition star : ascii := "*"%char.

Definition is_star (c : option ascii) : bool :=
  match c with Some a => Ascii.eqb a star | None => false end.

(** [matches]: the empty pattern and [*] match everything, [*x*] matches keys
    containing [x], [*x] keys ending in [x], [x*] keys starting with [x], and
    any other pattern itself. *)
Definition matches (key pattern : string) : bool :=
  if (pattern =? "")%string || (pattern =? "*")%string then true
  else if is_star (front pattern) && is_star (back pattern) && (2 <? String.length pattern)%nat then
    contains_str (substr 1 (String.length pattern - 2) pattern) key
  else if is_star (front pattern) then
    let suffix := str_drop 1 pattern in
    if (String.length key <? String.length suffix)%nat then false
    else (substr (String.length key - String.length suffix) (String.length suffix) key =? suffix)%string
  else if is_star (back pattern) then
    starts_with (substr 0 (String.length pattern - 1) pattern) key
  else (key =? pattern)%string.

(** The variables the scanning loop updates: the page and [chain]. *)
Record state := mkState { st_next : ScanCursor; st_keys : list string; st_chain : N }.

Definition count_keys (s : state) : N := N.of_nat (length (st_keys s)).

(** The callback passed to [for_each_bucket]. *)
Definition visit (count : N) (pattern : string) (b : N) (s : state) (key : string) (index : N) : state :=
  if (index <? st_chain s)%N then s
  else if (count <=? count_keys s)%N then s
  else
    mkState (mkCursor b (index + 1))
            (if matches key pattern then st_keys s ++ [key] else st_keys s)
            (index + 1).

(** The [while] loop; [None] when it runs out of fuel. *)
Fixpoint scan_loop (fuel : nat) (h : HashTable.t) (count : N) (pattern : string)
    (b : N) (s : state) : option state :=
  if (b <? N.of_nat (HashTable.bucket_count h))%N && (count_keys s <? count)%N then
    match fuel with
    | O => None
    | S fuel' =>
        let s := HashTable.for_each_bucket (visit count pattern b) b h s in
        if (count_keys s <? count)%N then
          scan_loop fuel' h count pattern (b + 1)
            (mkState (mkCursor (b + 1) 0) (st_keys s) 0)
        else scan_loop fuel' h count pattern b s
    end
  else Some s.

(** [scan]: at most one iteration per bucket, see [scan_loop_spec]. *)
Definition scan (h : HashTable.t) (cursor : ScanCursor) (count : N) (pattern : string) : ScanPage :=
  if (count =? 0)%N then mkPage cursor [] true
  else
    match scan_loop (HashTable.bucket_count h) h count pattern (bucket cursor)
            (mkState cursor [] (chain cursor)) with
    | Some s =>
        mkPage (st_next s) (st_keys s)
               (N.of_nat (HashTable.bucket_count h) <=? bucket (st_next s))%N
    | None => mkPage cursor [] true (* not reached *)
    end.

(** ** What is left to scan *)

(** The keys from a cursor on, in the order of the walk. *)
Definition remaining (h : HashTable.t) (c : ScanCursor) : list string :=
  drop (N.to_nat (chain c)) (HashTable.key <$> HashTable.bucket (N.to_nat (bucket c)) h) ++
  (HashTable.key <$> concat (drop (S (N.to_nat (bucket c))) (HashTable.buckets_ h))).

Definition matching (pattern : string) (l : list string) : list string :=
  filter (λ k, matches k pattern = true) l.

(** A client's iteration: scan from a cursor until a page is finished. *)
Fixpoint scan_all (fuel : nat) (h : HashTable.t) (c : ScanCursor) (count : N) (pattern : string)
    : option (list string) :=
  match fuel with
  | O => None
  | S fuel' =>
      let page := scan h c count pattern in
      if finished page then Some (keys page)
      else (keys page ++.) <$> scan_all fuel' h (next page) count pattern
  end.

Lemma matching_app pattern l1 l2 :
  matching pattern (l1 ++ l2) = matching pattern l1 ++ matching pattern l2.
Proof. apply filter_app. Qed.

(** ** One bucket *)

Section walk.
Context (count : N) (pattern : string) (b : N).

Lemma walk_full l i s :
  (count ≤ count_keys s)%N → HashTable.for_each_node (visit count pattern b) l i s = s.
Proof.
  intros Hfull. revert i. induction l as [|n l IH]; intros i; simpl; [done|].
  assert (visit count pattern b s (HashTable.key n) i = s) as ->; [|apply IH].
  unfold visit. case_match; [done|].
  by destruct (N.leb_spec count (count_keys s)); [|lia].
Qed.

(** The walk visits a stretch [v] of the chain from position [st_chain s] on,
    and stops early only on a full page. *)
Lemma walk_spec l i s :
  (i ≤ st_chain s)%N → (count_keys s < count)%N →
  ∃ v r, drop (N.to_nat (st_chain s - i)) (HashTable.key <$> l) = v ++ r ∧
    let s' := HashTable.for_each_node (visit count pattern b) l i s in
    st_keys s' = st_keys s ++ matching pattern v ∧
    st_chain s' = (st_chain s + N.of_nat (length v))%N ∧
    st_next s' = match v with [] => st_next s | _ => mkCursor b (st_chain s') end ∧
    (count_keys s' ≤ count)%N ∧ (r ≠ [] → count_keys s' = count).
Proof.
  revert i s. induction l as [|n l IH]; intros i s Hi Hc; csimpl.
  { exists [], []. rewrite drop_nil. simpl. rewrite app_nil_r.
    split; [done|]. split; [done|]. split; [lia|]. split; [done|]. split; [lia|done]. }
  destruct (decide (i < st_chain s)%N) as [Hlt|Hge].
  - assert (visit count pattern b s (HashTable.key n) i = s) as ->.
    { unfold visit. by destruct (N.ltb_spec i (st_chain s)); [|lia]. }
    replace (N.to_nat (st_chain s - i)) with (S (N.to_nat (st_chain s - (i + 1)))) by lia.
    simpl. apply IH; [lia|done].
  - assert (i = st_chain s) as -> by lia. rewrite N.sub_diag. simpl.
    set (s1 := visit count pattern b s (HashTable.key n) (st_chain s)).
    assert (s1 = mkState (mkCursor b (st_chain s + 1))
      (st_keys s ++ matching pattern [HashTable.key n]) (st_chain s + 1)) as Hs1.
    { subst s1. unfold visit. rewrite N.ltb_irrefl.
      destruct (N.leb_spec count (count_keys s)); [lia|]. f_equal.
      unfold matching. rewrite filter_cons, filter_nil.
      destruct (matches (HashTable.key n) pattern); simpl; [done|by rewrite app_nil_r]. }
    assert (count_keys s1 ≤ count)%N as Hle.
    { rewrite Hs1. unfold count_keys in *. simpl. rewrite length_app.
      unfold matching. rewrite filter_cons, filter_nil. case_decide; simpl; lia. }
    destruct (decide (count_keys s1 = count)) as [Heq|Hne].
    + exists [HashTable.key n], (HashTable.key <$> l). rewrite walk_full by lia.
      rewrite Hs1 in *. simpl. split_and!; done.
    + destruct (IH (st_chain s + 1)%N s1) as (v & r & Hd & Hk & Hch & Hn & Hcnt & Hr);
        [by rewrite Hs1|lia|].
      exists (HashTable.key n :: v), r.
      replace (st_chain s1 - (st_chain s + 1))%N with 0%N in Hd by (rewrite Hs1; simpl; lia).
      change (N.to_nat 0) with 0 in *. rewrite drop_0 in *. split; [csimpl; by rewrite Hd|].
      split; [rewrite Hk, Hs1; simpl; by rewrite <-(assoc_L (++)), <-matching_app|].
      split; [rewrite Hch, Hs1; simpl; lia|].
      split; [|done]. rewrite Hn. destruct v; [|done]. rewrite Hch, Hs1. simpl. by rewrite N.add_0_r.
Qed.

End walk.

(** ** The loop *)

Lemma remaining_end h c : (N.of_nat (HashTable.bucket_count h) ≤ bucket c)%N → remaining h c = [].
Proof.
  intros Hb. unfold remaining, HashTable.bucket, HashTable.bucket_count in *.
  rewrite lookup_ge_None_2, (drop_ge (HashTable.buckets_ h)) by lia. simpl.
  by rewrite drop_nil.
Qed.

Lemma remaining_next_bucket h b :
  (b < N.of_nat (HashTable.bucket_count h))%N →
  HashTable.key <$> concat (drop (S (N.to_nat b)) (HashTable.buckets_ h)) =
  remaining h (mkCursor (b + 1) 0).
Proof.
  intros Hb. unfold remaining. simpl. rewrite drop_0. rewrite N2Nat.inj_add. simpl.
  rewrite Nat.add_1_r. unfold HashTable.bucket.
  destruct (HashTable.buckets_ h !! S (N.to_nat b)) as [c|] eqn:E; simpl.
  - by rewrite (drop_S _ _ _ E), concat_cons, fmap_app.
  - apply lookup_ge_None in E. by rewrite !drop_ge by lia.
Qed.

(** Moving the cursor inside its chain. *)
Lemma remaining_advance h b c v r :
  drop (N.to_nat c) (HashTable.key <$> HashTable.bucket (N.to_nat b) h) = v ++ r →
  remaining h (mkCursor b c) = v ++ remaining h (mkCursor b (c + N.of_nat (length v))).
Proof.
  intros Hd. unfold remaining. simpl. rewrite Hd, <-(assoc_L (++)). do 2 f_equal.
  rewrite N2Nat.inj_add, Nat2N.id, <-drop_drop, Hd. symmetry. apply drop_app_length.
Qed.

Lemma scan_loop_spec fuel h count pattern b s :
  st_next s = mkCursor b (st_chain s) → (count_keys s ≤ count)%N →
  HashTable.bucket_count h - N.to_nat b ≤ fuel →
  ∃ s' v, scan_loop fuel h count pattern b s = Some s' ∧
    remaining h (st_next s) = v ++ remaining h (st_next s') ∧
    st_keys s' = st_keys s ++ matching pattern v ∧ (count_keys s' ≤ count)%N ∧
    ((bucket (st_next s') < N.of_nat (HashTable.bucket_count h))%N → count_keys s' = count).
Proof.
  revert b s. induction fuel as [|fuel IH]; intros b s Hn Hle Hf; simpl;
    destruct (N.ltb_spec b (N.of_nat (HashTable.bucket_count h))) as [Hb|Hb]; simpl; [lia| | |].
  1, 3: exists s, []; rewrite app_nil_r, Hn; simpl; split_and!; [done|done|done|done|lia].
  destruct (N.ltb_spec (count_keys s) count) as [Hc|Hc].
  2: { exists s, []. rewrite app_nil_r, Hn. split_and!; [done|done|done|done|lia]. }
  unfold HashTable.for_each_bucket.
  destruct (N.leb_spec (N.of_nat (length (HashTable.buckets_ h))) b);
    [unfold HashTable.bucket_count in *; lia|].
  destruct (walk_spec count pattern b (HashTable.bucket (N.to_nat b) h) 0 s)
    as (v & r & Hd & Hk & Hch & Hnx & Hcnt & Hr); [lia|done|].
  rewrite N.sub_0_r in Hd. pose proof (remaining_advance _ _ _ _ _ Hd) as Hadv.
  set (s1 := HashTable.for_each_node _ _ _ _) in *.
  destruct (N.ltb_spec (count_keys s1) count) as [Hc1|Hc1].
  - assert (r = []) as ->. { destruct r; [done|]. specialize (Hr ltac:(done)). lia. }
    destruct (IH (b + 1)%N (mkState (mkCursor (b + 1) 0) (st_keys s1) 0))
      as (s' & v' & Hs' & Hrem & Hk' & Hcnt' & Hfull); [done|done|lia|].
    exists s', (v ++ v'). split; [done|]. split_and!; [|simpl in Hk'; by rewrite Hk', Hk, matching_app, (assoc_L (++))|done|done].
    rewrite Hn, <-(assoc_L (++)), <-Hrem. unfold remaining at 1. simpl.
    rewrite Hd, app_nil_r. f_equal. by apply remaining_next_bucket.
  - assert (st_next s1 = mkCursor b (st_chain s1)) as Hnx1.
    { rewrite Hnx. destruct v; [|done]. rewrite Hn, Hch. simpl. by rewrite N.add_0_r. }
    exists s1, v. rewrite Hnx1, Hn. split_and!; [|by rewrite Hadv, Hch|done|done|lia].
    destruct fuel; simpl; by destruct (N.ltb_spec (count_keys s1) count); [lia|rewrite andb_false_r].
Qed.

(** ** Patterns *)

Lemma back_app_char s c : back (s +:+ String c "") = Some c.
Proof.
  induction s as [|a s IH]; [done|]. rewrite string_app_cons.
  destruct s as [|a' s]; [done|]. exact IH.
Qed.

Lemma back_cons c s : s ≠ "" → back (String c s) = back s.
Proof. by destruct s. Qed.

Lemma ends_with_spec k p :
  (if (String.length k <? String.length p)%nat then false
   else (substr (String.length k - String.length p) (String.length p) k =? p)%string) = true ↔
  ∃ a, k = a +:+ p.
Proof.
  split.
  - case_match; [done|]. intros; bsimp. exists (str_take (String.length k - String.length p) k).
    unfold substr in *. assert (str_drop (String.length k - String.length p) k = p) as Hd.
    { transitivity (str_take (String.length p) (str_drop (String.length k - String.length p) k)); [|done].
      symmetry. rewrite <-(str_take_all (str_drop _ k)) at 2. f_equal. rewrite str_drop_length. lia. }
    by rewrite <-Hd at 2; rewrite str_take_drop.
  - intros [a ->]. rewrite string_app_length.
    destruct (Nat.ltb_spec (String.length a + String.length p) (String.length p)); [lia|].
    rewrite Nat.add_sub. unfold substr. rewrite str_drop_app, str_take_all. apply String.eqb_refl.
Qed.

Lemma matches_infix k p : p ≠ "" → matches k (String star (p +:+ "*")) = contains_str p k.
Proof.
  intros Hp. unfold matches.
  assert (p +:+ "*" ≠ "") as Hne by (destruct p; [done|by rewrite string_app_cons]).
  assert ((String star (p +:+ "*") =? "*")%string = false) as ->.
  { apply String.eqb_neq. by intros [= ?]. }
  assert (String.length (String star (p +:+ "*")) = S (S (String.length p))) as ->.
  { simpl. rewrite string_app_length. simpl. lia. }
  cbn [String.eqb orb front is_star]. rewrite back_cons, back_app_char by done.
  destruct (Nat.ltb_spec 2 (S (S (String.length p)))); [|destruct p; [done|simpl in *; lia]].
  unfold substr. simpl. by rewrite Nat.sub_0_r, str_take_app.
Qed.

Lemma matches_suffix k p :
  p ≠ "" → is_star (back p) = false → matches k (String star p) = true ↔ ∃ a, k = a +:+ p.
Proof.
  intros Hp Hb. rewrite <-ends_with_spec. unfold matches.
  assert ((String star p =? "*")%string = false) as ->.
  { apply String.eqb_neq. by intros [= ?]. }
  cbn [String.eqb orb front is_star]. rewrite back_cons, Hb by done. done.
Qed.

Lemma matches_prefix k p :
  p ≠ "" → is_star (front p) = false → matches k (p +:+ "*") = starts_with p k.
Proof.
  intros Hp Hf. unfold matches.
  destruct p as [|c p]; [done|]. rewrite string_app_cons. cbn [front is_star] in *.
  assert ((String c (p +:+ "*") =? "*")%string = false) as ->.
  { apply String.eqb_neq. intros [= -> ?]. by rewrite Ascii.eqb_refl in Hf. }
  cbn [String.eqb orb]. rewrite Hf. cbn [andb].
  rewrite <-string_app_cons, back_app_char. cbn [is_star].
  change (Ascii.eqb "*" star) with true. cbn [andb].
  rewrite string_app_length. change (String.length "*") with 1. rewrite Nat.add_sub.
  unfold substr. cbn [str_drop]. by rewrite str_take_app.
Qed.

Lemma matches_literal k p :
  p ≠ "" → is_star (front p) = false → is_star (back p) = false → matches k p = (k =? p)%string.
Proof.
  intros Hp Hf Hb. unfold matches.
  destruct (String.eqb_spec p ""); [done|]. destruct (String.eqb_spec p "*"); [by subst|].
  simpl. by rewrite Hf, Hb.
Qed.

(** The pattern language of SCAN: the empty pattern and [*] match every key;
    [*p*], [*p], [p*] and [p] match the keys that contain, end in, start with
    and are [p]. *)
Theorem matches_spec k p :
  (matches k "" = true ∧ matches k "*" = true) ∧
  (p ≠ "" →
   (matches k (String star (p +:+ "*")) = true ↔ ∃ a b, k = a +:+ (p +:+ b)) ∧
   (is_star (back p) = false → matches k (String star p) = true ↔ ∃ a, k = a +:+ p) ∧
   (is_star (front p) = false → matches k (p +:+ "*") = true ↔ ∃ b, k = p +:+ b) ∧
   (is_star (front p) = false → is_star (back p) = false → matches k p = true ↔ k = p)).
Proof.
  split; [done|]. intros Hp. split_and!.
  - by rewrite matches_infix, contains_str_spec.
  - by apply matches_suffix.
  - intros Hf. by rewrite matches_prefix, starts_with_spec.
  - intros Hf Hb. by rewrite matches_literal, String.eqb_eq.
Qed.

(** ** Pages and iteration *)

Lemma scan_page h c count pattern :
  (0 < count)%N →
  let page := scan h c count pattern in
  ∃ v, remaining h c = v ++ remaining h (next page) ∧ keys page = matching pattern v ∧
    (N.of_nat (length (keys page)) ≤ count)%N ∧
    (finished page = false → N.of_nat (length (keys page)) = count) ∧
    (finished page = true → remaining h (next page) = []).
Proof.
  intros Hc. unfold scan. destruct (N.eqb_spec count 0); [lia|].
  destruct (scan_loop_spec (HashTable.bucket_count h) h count pattern (bucket c)
    (mkState c [] (chain c))) as (s & v & -> & Hrem & Hk & Hle & Hfull);
    [by destruct c|unfold count_keys; simpl; lia|lia|].
  exists v. simpl. split_and!; [done|done|done|..].
  - intros Hf. apply Hfull. by apply N.leb_gt.
  - intros Hf%N.leb_le. by apply remaining_end.
Qed.

Lemma remaining_0 h : remaining h (mkCursor 0 0) = HashTable.key <$> HashTable.nodes h.
Proof.
  unfold remaining, HashTable.nodes, HashTable.bucket. simpl. rewrite drop_0.
  destruct (HashTable.buckets_ h) as [|c cs]; [done|]. simpl. by rewrite drop_0, fmap_app.
Qed.

Lemma remaining_length h c : length (remaining h c) ≤ length (HashTable.nodes h).
Proof.
  unfold remaining, HashTable.nodes, HashTable.bucket. rewrite length_app, length_drop, !length_fmap.
  rewrite <-(take_drop (N.to_nat (bucket c)) (HashTable.buckets_ h)) at 3.
  rewrite concat_app, length_app.
  destruct (HashTable.buckets_ h !! N.to_nat (bucket c)) as [l|] eqn:E; simpl.
  - rewrite (drop_S _ _ _ E), concat_cons, length_app. lia.
  - apply lookup_ge_None in E. rewrite !drop_ge by lia. simpl. lia.
Qed.

(** A page that is not finished makes progress. *)
Lemma scan_progress h c count pattern :
  (0 < count)%N → finished (scan h c count pattern) = false →
  length (remaining h (next (scan h c count pattern))) < length (remaining h c).
Proof.
  intros Hc Hf. destruct (scan_page h c count pattern Hc) as (v & Hrem & Hk & _ & Hfull & _).
  rewrite Hrem, length_app. destruct v; [|simpl; lia].
  specialize (Hfull Hf). rewrite Hk in Hfull. simpl in Hfull. lia.
Qed.

Lemma scan_all_remaining fuel h c count pattern :
  (0 < count)%N → length (remaining h c) < fuel →
  scan_all fuel h c count pattern = Some (matching pattern (remaining h c)).
Proof.
  intros Hc. revert c. induction fuel as [|fuel IH]; intros c Hf; [lia|]. simpl.
  destruct (scan_page h c count pattern Hc) as (v & Hrem & Hk & _ & _ & Hfin).
  destruct (finished (scan h c count pattern)) eqn:E.
  - by rewrite Hk, Hrem, (Hfin eq_refl), app_nil_r.
  - pose proof (scan_progress h c count pattern Hc E).
    rewrite IH by lia. simpl. by rewrite Hk, <-matching_app, <-Hrem.
Qed.

(** An unfinished page does not return the start cursor. *)
Lemma scan_next_nonzero h c count pattern :
  (0 < count)%N → finished (scan h c count pattern) = false →
  next (scan h c count pattern) ≠ mkCursor 0 0.
Proof.
  intros Hc Hf Heq. pose proof (scan_progress h c count pattern Hc Hf) as Hp.
  rewrite Heq, remaining_0, length_fmap in Hp. pose proof (remaining_length h c). lia.
Qed.

(** *** Bounds on the cursors of a page *)

Definition cursor_bound (h : HashTable.t) (c : ScanCursor) : Prop :=
  (bucket c ≤ N.of_nat (HashTable.bucket_count h))%N ∧
  (chain c ≤ N.of_nat (length (HashTable.nodes h)))%N.

Lemma bucket_length h i : length (HashTable.bucket i h) ≤ length (HashTable.nodes h).
Proof.
  pose proof (remaining_length h (mkCursor (N.of_nat i) 0)) as Hl. unfold remaining in Hl.
  rewrite length_app, length_drop, !length_fmap in Hl. simpl in Hl. rewrite Nat2N.id in Hl. lia.
Qed.

Lemma walk_bound h count pattern b l i s :
  (b ≤ N.of_nat (HashTable.bucket_count h))%N →
  (i + N.of_nat (length l) ≤ N.of_nat (length (HashTable.nodes h)))%N →
  cursor_bound h (st_next s) →
  cursor_bound h (st_next (HashTable.for_each_node (visit count pattern b) l i s)).
Proof.
  intros Hb. revert i s. induction l as [|n l IH]; intros i s Hi Hs; [done|].
  simpl in Hi |- *. apply IH; [lia|]. unfold visit. repeat (case_match; [done|]).
  split; simpl; lia.
Qed.

Lemma scan_loop_bound fuel h count pattern b s s' :
  scan_loop fuel h count pattern b s = Some s' → cursor_bound h (st_next s) →
  cursor_bound h (st_next s').
Proof.
  revert b s. induction fuel as [|fuel IH]; intros b s; simpl.
  { case_match; [done|]. by intros [= <-]. }
  case_match eqn:Hb; [|by intros [= <-]]. apply andb_true_iff in Hb as [Hb%N.ltb_lt _].
  intros Hs Hc. assert (cursor_bound h
    (st_next (HashTable.for_each_bucket (visit count pattern b) b h s))) as Hw.
  { unfold HashTable.for_each_bucket. destruct (_ <=? _)%N; [done|]. apply walk_bound; [lia| |done].
    pose proof (bucket_length h (N.to_nat b)). lia. }
  case_match; (eapply IH; [exact Hs|]); [|done]. split; simpl; lia.
Qed.

(** The cursors of an iteration stay within the table. *)
Lemma scan_next_bound h c count pattern :
  cursor_bound h c → cursor_bound h (next (scan h c count pattern)).
Proof.
  intros Hc. unfold scan. case_match; [done|].
  destruct (scan_loop _ _ _ _ _ _) eqn:E; [|done]. by apply scan_loop_bound in E.
Qed.

(** What an iteration from the start reports. *)
Lemma scan_keys_NoDup `{StdHash} h pattern :
  HashTable.wf h → NoDup (matching pattern (remaining h (mkCursor 0 0))).
Proof.
  intros Hwf. unfold matching. apply NoDup_filter. rewrite remaining_0.
  pose proof (HashTable.wf_keys h Hwf) as Hnd. by rewrite <-list_fmap_compose in Hnd.
Qed.

Lemma scan_keys_elem `{StdHash} h pattern k :
  HashTable.wf h →
  k ∈ matching pattern (remaining h (mkCursor 0 0)) ↔
  is_Some (HashTable.to_map h !! k) ∧ matches k pattern = true.
Proof.
  intros Hwf. unfold matching. rewrite list_elem_of_filter, remaining_0, list_elem_of_fmap.
  rewrite HashTable.to_map_find by done. split.
  - intros [Hm ([k' e] & -> & Hin)]. split; [|done]. exists e. by apply HashTable.find_elem.
  - intros [[e He] Hm]. split; [done|]. exists (HashTable.mkNode k e).
    split; [done|]. by apply HashTable.find_elem.
Qed.

(** A page reports, in walk order, the matching keys of the stretch between
    its cursor and the cursor it returns; it never exceeds [count] keys, and a
    page that is not finished is full. *)
Theorem scan_page_spec h c count pattern :
  (0 < count)%N →
  let page := scan h c count pattern in
  ∃ v, remaining h c = v ++ remaining h (next page) ∧ keys page = matching pattern v ∧
    (N.of_nat (length (keys page)) ≤ count)%N ∧
    (finished page = false → N.of_nat (length (keys page)) = count) ∧
    (finished page = true → remaining h (next page) = []).
Proof. apply scan_page. Qed.

(** Iterating SCAN over an unchanged table from cursor 0 terminates (after
    at most one page per key) and reports every matching key of the map exactly
    once; an unfinished page never returns the start cursor, whose token [0]
    means the end of the iteration. *)
Theorem scan_all_complete `{StdHash} h count pattern :
  HashTable.wf h → (0 < count)%N →
  ∃ l, scan_all (S (HashTable.size h)) h (mkCursor 0 0) count pattern = Some l ∧ NoDup l ∧
    (∀ k, k ∈ l ↔ is_Some (HashTable.to_map h !! k) ∧ matches k pattern = true) ∧
    (∀ c, finished (scan h c count pattern) = false → next (scan h c count pattern) ≠ mkCursor 0 0).
Proof.
  intros Hwf Hc. exists (matching pattern (remaining h (mkCursor 0 0))). split_and!.
  - apply scan_all_remaining; [done|]. rewrite remaining_0, length_fmap.
    unfold HashTable.size. rewrite (HashTable.wf_size h Hwf). lia.
  - by apply scan_keys_NoDup.
  - intros k. by apply scan_keys_elem.
  - intros c Hf. by apply scan_next_nonzero.
Qed.

Lemma matches_spec_witness :
  matches "session:42" "session:*" = true ∧ matches "session:42" "*:4*" = true ∧
  matches "session:42" "*:4" = false ∧
  (matches "session:42" "*:4*" = true ↔ ∃ a b, "session:42" = a +:+ (":4" +:+ b)).
Proof.
  split; [reflexivity|]. split; [reflexivity|]. split; [reflexivity|].
  apply (proj1 (proj2 (matches_spec "session:42" ":4") ltac:(done))).
Defined.

Lemma scan_page_spec_witness :
  keys (scan HashTable.demo_table (mkCursor 0 0) 3 "k*") ≠ [] ∧
  let page := scan HashTable.demo_table (mkCursor 0 0) 3 "k*" in
  ∃ v, remaining HashTable.demo_table (mkCursor 0 0) = v ++ remaining HashTable.demo_table (next page) ∧
    keys page = matching "k*" v ∧ (N.of_nat (length (keys page)) ≤ 3)%N ∧
    (finished page = false → N.of_nat (length (keys page)) = 3%N) ∧
    (finished page = true → remaining HashTable.demo_table (next page) = []).
Proof. split; [vm_compute; congruence|]. apply scan_page_spec. lia. Defined.

Lemma scan_all_complete_witness :
  length <$> scan_all 13 HashTable.demo_table (mkCursor 0 0) 5 "k*" = Some 12 ∧
  ∃ l, scan_all (S (HashTable.size HashTable.demo_table)) HashTable.demo_table (mkCursor 0 0) 5 "k*"
       = Some l ∧ NoDup l ∧
    (∀ k, k ∈ l ↔ is_Some (HashTable.to_map HashTable.demo_table !! k) ∧ matches k "k*" = true) ∧
    (∀ c, finished (scan HashTable.demo_table c 5 "k*") = false →
          next (scan HashTable.demo_table c 5 "k*") ≠ mkCursor 0 0).
Proof.
  split; [vm_compute; reflexivity|].
  apply (@scan_all_complete HashTable.sum_hash); [apply HashTable.demo_table_wf|lia].
Defined.

End KeyScanner.
