(* ===== verification/Rescan.v ===== *)
(** * Scanning a table that changes (src/storage/key_scanner.cpp)

    A client reads one page per request, and other clients may change the table
    between two pages.  A cursor is a position (bucket, place in the chain), so what
    an iteration reports depends on how positions move: insertions push keys back
    in their chain and lose none, a deletion pulls the keys behind it forward, over
    the cursor. *)

From S2P Require Import Prelude CppStd Table Scanner.

Module Rescan.
Import KeyScanner.

(** The iteration of a client when page [i] is read from the [i]-th table; [None]
    when the tables end before the iteration does. *)
Fixpoint scan_changing (hs : list HashTable.t) (c : ScanCursor) (count : N) (pattern : string)
    : option (list string) :=
  match hs with
  | [] => None
  | h :: hs' =>
      let page := scan h c count pattern in
      if finished page then Some (keys page)
      else (keys page ++.) <$> scan_changing hs' (next page) count pattern
  end.

(** ** Positions *)

Definition chain_keys (b : nat) (h : HashTable.t) : list string := HashTable.key <$> HashTable.bucket b h.

(** A key is left to scan when its position is not before the cursor. *)
Lemma remaining_elem h c k :
  k ∈ remaining h c ↔
  ∃ b i, chain_keys b h !! i = Some k ∧
    (b = N.to_nat (bucket c) ∧ N.to_nat (chain c) ≤ i ∨ N.to_nat (bucket c) < b).
Proof.
  unfold remaining. rewrite elem_of_app. split.
  - intros [Hin|Hin].
    + apply list_elem_of_lookup in Hin as [i Hi]. rewrite lookup_drop in Hi.
      exists (N.to_nat (bucket c)), (N.to_nat (chain c) + i). split; [done|]. left. split; [done|lia].
    + apply list_elem_of_fmap in Hin as (n & -> & (j & l & Hl & Hn)%elem_of_concat).
      rewrite lookup_drop in Hl. apply list_elem_of_lookup in Hn as [i Hi].
      exists (S (N.to_nat (bucket c)) + j), i. split; [|right; lia].
      unfold chain_keys, HashTable.bucket. rewrite Hl. simpl. by rewrite list_lookup_fmap, Hi.
  - intros (b & i & Hk & [[-> Hi]|Hb]).
    + left. apply list_elem_of_lookup. exists (i - N.to_nat (chain c)). rewrite lookup_drop.
      by replace (N.to_nat (chain c) + (i - N.to_nat (chain c))) with i by lia.
    + right. unfold chain_keys, HashTable.bucket in Hk. destruct (HashTable.buckets_ h !! b) as [l|] eqn:Hl; [|done].
      simpl in Hk. apply list_elem_of_lookup_2 in Hk as (n & -> & Hn)%list_elem_of_fmap.
      apply list_elem_of_fmap_2, elem_of_concat. exists (b - S (N.to_nat (bucket c))), l.
      rewrite lookup_drop. by replace (S (N.to_nat (bucket c)) + (b - S (N.to_nat (bucket c)))) with b by lia.
Qed.

(** From one table to the next, no key moves towards the front of its chain. *)
Definition stays (h h' : HashTable.t) : Prop :=
  ∀ b i k, chain_keys b h !! i = Some k → ∃ j, i ≤ j ∧ chain_keys b h' !! j = Some k.

Lemma stays_refl h : stays h h.
Proof. intros b i k Hk. eauto. Qed.

Lemma stays_trans h1 h2 h3 : stays h1 h2 → stays h2 h3 → stays h1 h3.
Proof.
  intros H12 H23 b i k Hk. destruct (H12 b i k Hk) as (j & Hj & Hk2). destruct (H23 b j k Hk2) as (l & Hl & Hk3).
  exists l. split; [lia|done].
Qed.

Lemma stays_remaining h h' c k : stays h h' → k ∈ remaining h c → k ∈ remaining h' c.
Proof.
  intros Hs (b & i & Hk & Hpos)%remaining_elem. destruct (Hs b i k Hk) as (j & Hj & Hk').
  apply remaining_elem. exists b, j. split; [done|]. destruct Hpos as [[-> Hi]|Hb]; [left; split; [done|lia]|by right].
Qed.

(** ** Insertions that do not make the table grow *)

Section Inserts.
Context `{StdHash}.

Lemma stays_set idx c sz h :
  idx < HashTable.bucket_count h →
  (∀ i k, chain_keys idx h !! i = Some k → ∃ j, i ≤ j ∧ (HashTable.key <$> c) !! j = Some k) →
  stays h (HashTable.set_bucket idx c sz h).
Proof.
  intros Hi Hc b i k Hk. unfold chain_keys. rewrite HashTable.bucket_set by done.
  case_decide as Hb; [subst b; by apply Hc|by exists i].
Qed.

Lemma rehash_grows ins h :
  (∀ h k e, HashTable.bucket_count h ≤ HashTable.bucket_count (ins h k e).1) →
  HashTable.rehash_with ins h = h ∨ 2 * HashTable.bucket_count h ≤ HashTable.bucket_count (HashTable.rehash_with ins h).
Proof.
  intros Hins. unfold HashTable.rehash_with. case_match; [by left|right].
  assert (∀ l h0, HashTable.bucket_count h0 ≤
    HashTable.bucket_count (foldl (λ h' n, (ins h' (HashTable.key n) (HashTable.entry n)).1) h0 l)) as Hl.
  { intros l. induction l as [|n l IH]; intros h0; simpl; [done|]. etrans; [apply Hins|apply IH]. }
  etrans; [|apply Hl]. unfold HashTable.bucket_count. simpl. rewrite length_replicate. lia.
Qed.

Lemma insert_grows fuel h k e : HashTable.bucket_count h ≤ HashTable.bucket_count (HashTable.insert_fuel fuel h k e).1.
Proof.
  revert h k e. induction fuel as [|fuel IH]; intros h k e; cbn [HashTable.insert_fuel]; case_match; cbn [fst];
    try (unfold HashTable.bucket_count; simpl; by rewrite length_insert).
  match goal with |- _ ≤ HashTable.bucket_count (HashTable.rehash_with _ ?g) => destruct (rehash_grows (HashTable.insert_fuel fuel) g IH) as [-> | Hg];
    assert (HashTable.bucket_count g = HashTable.bucket_count h) as Hgh by (unfold HashTable.bucket_count; simpl; apply length_insert) end; lia.
Qed.

(** One turn of [insert]. *)
Lemma insert_turn h k e :
  let idx := HashTable.bucket_index k h in
  HashTable.insert h k e =
  match HashTable.chain_assign k e (HashTable.bucket idx h) with
  | Some c => (HashTable.set_bucket idx c (HashTable.size_ h) h, false)
  | None =>
      (HashTable.rehash_with (HashTable.insert_fuel 1)
        (HashTable.set_bucket idx (HashTable.mkNode k e :: HashTable.bucket idx h) (S (HashTable.size_ h)) h), true)
  end.
Proof. reflexivity. Qed.

Lemma insert_stays h k e :
  HashTable.wf h → HashTable.bucket_count (HashTable.insert h k e).1 = HashTable.bucket_count h →
  stays h (HashTable.insert h k e).1.
Proof.
  intros Hwf. pose proof (HashTable.wf_buckets h Hwf). rewrite insert_turn. cbv zeta.
  pose proof (HashTable.bucket_index_lt k h (HashTable.wf_buckets h Hwf)) as Hi.
  destruct (HashTable.chain_assign k e _) as [c|] eqn:Ea; cbn [fst]; intros Hb.
  - apply stays_set; [done|]. intros i k' Hk. apply HashTable.chain_assign_Some in Ea as [Hks _].
    exists i. split; [done|]. rewrite Hks. exact Hk.
  - match type of Hb with HashTable.bucket_count (HashTable.rehash_with ?ins ?g) = _ =>
      destruct (rehash_grows ins g) as [Hg|Hg]; [intros; apply insert_grows| |] end.
    + rewrite Hg. apply stays_set; [done|]. intros i k' Hk. exists (S i). split; [lia|exact Hk].
    + rewrite HashTable.bucket_count_set in Hg. lia.
Qed.

(** The operations that remove nothing. *)
Definition adds (o : HashTable.op) : Prop :=
  match o with HashTable.Erase _ | HashTable.Clear => False | _ => True end.

Lemma adds_step h o :
  HashTable.wf h → adds o →
  let h' := (HashTable.step h o).1 in
  HashTable.wf h' ∧ HashTable.bucket_count h ≤ HashTable.bucket_count h' ∧
  (HashTable.bucket_count h' = HashTable.bucket_count h → stays h h').
Proof.
  intros Hwf Ho. split; [by apply HashTable.step_simulates|].
  destruct o as [k e|k|k|k| |]; try done; cbn [HashTable.step fst]; [|by eauto using stays_refl..].
  pose proof (insert_stays h k e Hwf) as Hs. pose proof (insert_grows 2 h k e) as Hg.
  change (HashTable.insert_fuel 2 h k e) with (HashTable.insert h k e) in Hg.
  destruct (HashTable.insert h k e) as [h' b]. done.
Qed.

Lemma adds_run os h :
  HashTable.wf h → Forall adds os →
  let h' := (HashTable.run HashTable.step h os).1 in
  HashTable.wf h' ∧ HashTable.bucket_count h ≤ HashTable.bucket_count h' ∧
  (HashTable.bucket_count h' = HashTable.bucket_count h → stays h h').
Proof.
  revert h. induction os as [|o os IH]; intros h Hwf Hos; cbn [HashTable.run fst];
    [by eauto using stays_refl|].
  inversion_clear Hos as [|?? Ho Hos']. destruct (adds_step h o Hwf Ho) as (Hw1 & Hb1 & Hs1).
  destruct (HashTable.step h o) as [h1 a]. cbn [fst] in *. destruct (IH h1 Hw1 Hos') as (Hw2 & Hb2 & Hs2).
  destruct (HashTable.run HashTable.step h1 os) as [h2 l]. cbn [fst] in *.
  split_and!; [done|lia|]. intros Hb. apply (stays_trans _ h1); [apply Hs1|apply Hs2]; lia.
Qed.

(** The tables the pages are read from, when [segs] lists the operations that run
    between one page and the next, and the table at the end. *)
Fixpoint tables (h : HashTable.t) (segs : list (list HashTable.op)) : list HashTable.t :=
  h :: match segs with
       | [] => []
       | os :: segs' => tables (HashTable.run HashTable.step h os).1 segs'
       end.

Fixpoint final (h : HashTable.t) (segs : list (list HashTable.op)) : HashTable.t :=
  match segs with [] => h | os :: segs' => final (HashTable.run HashTable.step h os).1 segs' end.

Lemma adds_final segs h :
  HashTable.wf h → Forall (Forall adds) segs →
  HashTable.wf (final h segs) ∧ HashTable.bucket_count h ≤ HashTable.bucket_count (final h segs) ∧
  (HashTable.bucket_count (final h segs) = HashTable.bucket_count h → stays h (final h segs)).
Proof.
  revert h. induction segs as [|os segs IH]; intros h Hwf Hsegs; cbn [final]; [by eauto using stays_refl|].
  inversion_clear Hsegs as [|?? Hos Hsegs']. destruct (adds_run os h Hwf Hos) as (Hw1 & Hb1 & Hs1).
  destruct (IH _ Hw1 Hsegs') as (Hw2 & Hb2 & Hs2). split_and!; [done|lia|].
  intros Hb. eapply stays_trans; [apply Hs1|apply Hs2]; lia.
Qed.

Lemma scan_changing_replicate n h c count pattern :
  scan_changing (replicate n h) c count pattern = scan_all n h c count pattern.
Proof.
  revert c. induction n as [|n IH]; intros c; [done|]. cbn [replicate scan_changing scan_all].
  case_match; [done|]. by rewrite IH.
Qed.

Lemma matching_elem pattern l k : k ∈ matching pattern l ↔ matches k pattern = true ∧ k ∈ l.
Proof. unfold matching. by rewrite list_elem_of_filter. Qed.

Lemma elem_of_app_matching pattern l1 l2 k :
  k ∈ matching pattern (l1 ++ l2) → k ∈ matching pattern l1 ∨ k ∈ matching pattern l2.
Proof. rewrite matching_app. apply elem_of_app. Qed.

Lemma remaining_start h c k : k ∈ remaining h c → k ∈ remaining h (mkCursor 0 0).
Proof.
  intros (b & i & Hk & _)%remaining_elem. apply remaining_elem. exists b, i. split; [done|]. simpl.
  destruct b; [left|right]; lia.
Qed.

(** What the pages report, from any cursor on. *)
Lemma scan_grows count pattern segs h c :
  (0 < count)%N → HashTable.wf h → Forall (Forall adds) segs →
  HashTable.bucket_count (final h segs) = HashTable.bucket_count h →
  let last := final h segs in
  ∃ l, scan_changing (tables h segs ++ replicate (HashTable.size last) last) c count pattern = Some l ∧
    (∀ k, k ∈ matching pattern (remaining h c) → k ∈ l) ∧
    (∀ k, k ∈ l → k ∈ matching pattern (remaining last (mkCursor 0 0))).
Proof.
  intros Hc. revert h c. induction segs as [|os segs IH]; intros h c Hwf Hsegs Hb; cbv zeta.
  { cbn [tables final app]. change (h :: replicate ?n h) with (replicate (S n) h).
    rewrite scan_changing_replicate, scan_all_remaining; [eexists; split; [done|]|done|].
    - split; [done|]. intros k [Hm Hk]%matching_elem. apply matching_elem. by eauto using remaining_start.
    - pose proof (remaining_length h c). unfold HashTable.size. rewrite (HashTable.wf_size h Hwf). lia. }
  cbn [final] in *. pose proof Hsegs as Hall. inversion_clear Hsegs as [|?? Hos Hsegs'].
  destruct (adds_run os h Hwf Hos) as (Hw1 & Hb1 & Hs1). set (h1 := (HashTable.run HashTable.step h os).1) in *.
  destruct (adds_final segs h1 Hw1 Hsegs') as (_ & Hb2 & Hs2).
  assert (stays h h1) as Hsh by (apply Hs1; lia).
  assert (stays h (final h1 segs)) as Hsf by (apply (stays_trans _ h1); [done|apply Hs2; lia]).
  assert (HashTable.bucket_count (final h1 segs) = HashTable.bucket_count h1) as Hbf by lia.
  destruct (IH h1 (next (scan h c count pattern)) Hw1 Hsegs' Hbf) as (l & Hl & Hin & Hout).
  destruct (scan_page h c count pattern Hc) as (v & Hrem & Hk & _ & _ & Hfin).
  assert (∀ k, k ∈ matching pattern v → k ∈ matching pattern (remaining (final h1 segs) (mkCursor 0 0))) as Hv.
  { intros k [Hm Hkv]%matching_elem. apply matching_elem. split; [done|].
    apply (stays_remaining h); [done|]. apply (remaining_start h c). rewrite Hrem. apply elem_of_app. by left. }
  cbn [tables app scan_changing]. cbv zeta. fold h1. destruct (finished _) eqn:E.
  - eexists. split; [done|]. rewrite Hk, Hrem, (Hfin eq_refl), app_nil_r. done.
  - cbv zeta in Hl. rewrite Hl. eexists. split; [done|]. rewrite Hk, Hrem. split.
    + intros k [Hkv|Hkr]%elem_of_app_matching; apply elem_of_app; [by left|right].
      apply Hin, matching_elem. apply matching_elem in Hkr as [Hm Hkr]. split; [done|]. by apply (stays_remaining h).
    + intros k [Hkv|Hkl]%elem_of_app; [by apply Hv|by apply Hout].
Qed.

(** C17: an iteration of SCAN with a positive count, during which other clients only add
    and assign keys between its pages and no insertion makes the table grow, ends.  It
    needs at most one page for each time the table changed between two pages, one for
    each key at the end, and one more.  It reports every matching key that was there
    when it started, and no key that does not match or is not there when it ends. *)
Theorem scan_under_inserts h segs count pattern :
  HashTable.wf h → (0 < count)%N → Forall (Forall adds) segs →
  HashTable.bucket_count (final h segs) = HashTable.bucket_count h →
  let last := final h segs in
  ∃ l, scan_changing (tables h segs ++ replicate (HashTable.size last) last) (mkCursor 0 0) count pattern = Some l ∧
    (∀ k, is_Some (HashTable.to_map h !! k) → matches k pattern = true → k ∈ l) ∧
    (∀ k, k ∈ l → is_Some (HashTable.to_map last !! k) ∧ matches k pattern = true).
Proof.
  intros Hwf Hc Hsegs Hb last. destruct (adds_final segs h Hwf Hsegs) as (Hwl & _ & _).
  destruct (scan_grows count pattern segs h (mkCursor 0 0) Hc Hwf Hsegs Hb) as (l & Hl & Hin & Hout).
  exists l. split; [exact Hl|]. split.
  - intros k Hk Hm. apply Hin, scan_keys_elem; done.
  - intros k Hk. apply scan_keys_elem; [done|]. by apply Hout.
Qed.

(** ** Deletions between two pages *)

(** A page of one key, read from the first position of a chain with two keys. *)
Lemma page_of_one h b n1 n2 c :
  HashTable.buckets_ h !! b = Some (n1 :: n2 :: c) →
  scan h (mkCursor (N.of_nat b) 0) 1 "*" = mkPage (mkCursor (N.of_nat b) 1) [HashTable.key n1] false.
Proof.
  intros Hl. pose proof (lookup_lt_Some _ _ _ Hl) as Hb. unfold scan. cbn [N.eqb bucket chain].
  assert (∀ fuel, scan_loop (S fuel) h 1 "*" (N.of_nat b) (mkState (mkCursor (N.of_nat b) 0) [] 0) =
    Some (mkState (mkCursor (N.of_nat b) 1) [HashTable.key n1] 1)) as Hloop.
  { intros fuel. cbn [scan_loop]. rewrite (proj2 (N.ltb_lt _ _)) by (unfold HashTable.bucket_count; lia).
    unfold HashTable.for_each_bucket, HashTable.bucket. rewrite (proj2 (N.leb_gt _ _)) by lia.
    rewrite Nat2N.id, Hl. change (default [] (Some ?x)) with x. cbn [HashTable.for_each_node].
    change (visit 1 "*" (N.of_nat b) (mkState (mkCursor (N.of_nat b) 0) [] 0) (HashTable.key n1) 0)
      with (mkState (mkCursor (N.of_nat b) 1) [HashTable.key n1] 1).
    change (HashTable.for_each_node ?f c ?i (?f ?s (HashTable.key n2) ?j)) with (HashTable.for_each_node f (n2 :: c) j s).
    rewrite walk_full by done. change (count_keys (mkState ?x [] ?y) <? 1)%N with true.
    change (count_keys (mkState ?x [?k] ?y) <? 1)%N with false. cbn [andb].
    destruct fuel; cbn [scan_loop]; change (count_keys (mkState ?x [?k] ?y) <? 1)%N with false; by rewrite andb_false_r. }
  destruct (HashTable.bucket_count h) as [|m] eqn:Hm; [unfold HashTable.bucket_count in Hm; lia|].
  rewrite Hloop. cbn [st_next st_keys bucket]. f_equal. apply N.leb_gt. unfold HashTable.bucket_count in Hm. lia.
Qed.

Lemma erase_front h b n1 n2 c :
  HashTable.wf h → HashTable.buckets_ h !! b = Some (n1 :: n2 :: c) →
  HashTable.buckets_ (HashTable.erase (HashTable.key n1) h).1 !! b = Some (n2 :: c).
Proof.
  intros Hwf Hl. assert (HashTable.bucket_index (HashTable.key n1) h = b) as Hi.
  { apply (HashTable.wf_placed h Hwf b _ n1 Hl). apply list_elem_of_here. }
  unfold HashTable.erase, HashTable.bucket. rewrite Hi, Hl. change (default [] (Some ?x)) with x.
  assert (HashTable.chain_erase (HashTable.key n1) (n1 :: n2 :: c) = Some (n2 :: c)) as ->
    by (simpl; by rewrite decide_True).
  cbn [fst HashTable.buckets_]. apply list_lookup_insert_eq. by eapply lookup_lt_Some.
Qed.

(** A key before the cursor in its chain is not left to scan. *)
Lemma passed_over h b n c i :
  HashTable.wf h → HashTable.buckets_ h !! b = Some (n :: c) → (0 < i)%N →
  HashTable.key n ∉ remaining h (mkCursor (N.of_nat b) i).
Proof.
  intros Hwf Hl Hi (b' & j & Hk & Hpos)%remaining_elem. cbn [bucket chain] in Hpos. rewrite Nat2N.id in Hpos.
  unfold chain_keys, HashTable.bucket in Hk. destruct (HashTable.buckets_ h !! b') as [c'|] eqn:Hl'; [|done].
  simpl in Hk. pose proof Hk as Hk'. apply list_lookup_fmap_Some in Hk' as (n' & Hkn & Hn').
  pose proof (HashTable.wf_placed h Hwf b' c' n' Hl' (list_elem_of_lookup_2 _ _ _ Hn')) as Hp'.
  pose proof (HashTable.wf_placed h Hwf b _ n Hl (list_elem_of_here _ _)) as Hp.
  assert (b' = b) as -> by congruence. assert (c' = n :: c) as -> by congruence.
  pose proof (NoDup_lookup _ 0 j _ (HashTable.wf_chain h Hwf b _ Hl) eq_refl Hk). lia.
Qed.

(** A key may be missed although it is in the table during the whole iteration:
    when the key a page ended on is deleted before the next page, the key behind it in
    the chain moves to a position before the cursor, and no later page, whatever its
    size and pattern, reports it. *)
Theorem scan_misses_key h b n1 n2 c count pattern :
  HashTable.wf h → HashTable.buckets_ h !! b = Some (n1 :: n2 :: c) → (0 < count)%N →
  let page := scan h (mkCursor (N.of_nat b) 0) 1 "*" in
  let h' := (HashTable.erase (HashTable.key n1) h).1 in
  keys page = [HashTable.key n1] ∧ finished page = false ∧
  is_Some (HashTable.to_map h !! HashTable.key n2) ∧ is_Some (HashTable.to_map h' !! HashTable.key n2) ∧
  ∃ l, scan_all (S (HashTable.size h')) h' (next page) count pattern = Some l ∧ HashTable.key n2 ∉ l.
Proof.
  intros Hwf Hl Hc page h'. subst page. rewrite (page_of_one h b n1 n2 c Hl). cbn [keys finished next].
  destruct (HashTable.erase_wf h (HashTable.key n1) Hwf) as (Hwf' & Hmap & _). fold h' in Hwf', Hmap.
  pose proof (erase_front h b n1 n2 c Hwf Hl) as Hl'. fold h' in Hl'.
  assert (∀ g c', HashTable.wf g → HashTable.buckets_ g !! b = Some c' → n2 ∈ c' →
    is_Some (HashTable.to_map g !! HashTable.key n2)) as Hin.
  { intros g c' Hg Hgl Hgn. exists (HashTable.entry n2). rewrite HashTable.to_map_find by done.
    apply HashTable.find_elem; [done|]. destruct n2. apply elem_of_concat. eauto. }
  split; [done|]. split; [done|]. split; [by apply (Hin h _ Hwf Hl); set_solver|].
  split; [by apply (Hin h' _ Hwf' Hl'); set_solver|].
  rewrite scan_all_remaining; [eexists; split; [done|]|done|].
  - intros [_ Hr]%matching_elem. by apply (passed_over h' b n2 c 1 Hwf' Hl') in Hr.
  - pose proof (remaining_length h' (mkCursor (N.of_nat b) 1)). unfold HashTable.size.
    rewrite (HashTable.wf_size h' Hwf'). lia.
Qed.

End Inserts.

(** ** Witnesses *)

(** Two keys of one chain: of sixteen buckets, "a" and "q" meet in the eleventh. *)
Definition two_chained : HashTable.t :=
  (HashTable.run (@HashTable.step HashTable.sum_hash) (HashTable.make 16)
    [HashTable.Insert "a" (mkEntry "1" None); HashTable.Insert "q" (mkEntry "2" None)]).1.

Lemma two_chained_wf : @HashTable.wf HashTable.sum_hash two_chained.
Proof. apply (@adds_run HashTable.sum_hash); [apply HashTable.make_wf|]. repeat constructor. Qed.

(** A key added to the chain between two pages pushes the key already reported behind
    the cursor again: it is reported twice. *)
Lemma scan_under_inserts_witness :
  let segs := [[HashTable.Insert (String (Ascii.ascii_of_N 129) "") (mkEntry "3" None)]; []] in
  let last := @final HashTable.sum_hash two_chained segs in
  HashTable.size last = 3 ∧
  scan_changing (@tables HashTable.sum_hash two_chained segs ++ replicate (HashTable.size last) last)
    (mkCursor 0 0) 1 "*" = Some ["q"; "q"; "a"] ∧
  ∃ l, scan_changing (@tables HashTable.sum_hash two_chained segs ++ replicate (HashTable.size last) last)
         (mkCursor 0 0) 1 "*" = Some l ∧
    (∀ k, is_Some (HashTable.to_map two_chained !! k) → matches k "*" = true → k ∈ l) ∧
    (∀ k, k ∈ l → is_Some (HashTable.to_map last !! k) ∧ matches k "*" = true).
Proof.
  intros segs last. split; [vm_compute; reflexivity|]. split; [vm_compute; reflexivity|].
  apply (@scan_under_inserts HashTable.sum_hash); [apply two_chained_wf|lia|repeat constructor|vm_compute; reflexivity].
Defined.

Lemma scan_misses_key_witness :
  let page := scan two_chained (mkCursor 10 0) 1 "*" in
  let h' := (@HashTable.erase HashTable.sum_hash "q" two_chained).1 in
  @HashTable.find HashTable.sum_hash "a" h' = Some (mkEntry "1" None) ∧
  scan_all (S (HashTable.size h')) h' (next page) 1 "*" = Some [] ∧
  keys page = ["q"] ∧ finished page = false ∧
  is_Some (HashTable.to_map two_chained !! "a") ∧ is_Some (HashTable.to_map h' !! "a") ∧
  ∃ l, scan_all (S (HashTable.size h')) h' (next page) 1 "*" = Some l ∧ "a" ∉ l.
Proof.
  intros page h'. split; [vm_compute; reflexivity|]. split; [vm_compute; reflexivity|].
  apply (@scan_misses_key HashTable.sum_hash two_chained 10
    (HashTable.mkNode "q" (mkEntry "2" None)) (HashTable.mkNode "a" (mkEntry "1" None)) [] 1 "*");
    [apply two_chained_wf|vm_compute; reflexivity|lia].
Defined.

(** Growth reverses the order of the keys that stay together.  Twelve keys in sixteen
    buckets, "Q" before "1" in one of them: after a page that ends on "Q", a
    thirteenth key doubles the buckets, "1" comes to stand before "Q", and the rest of
    the iteration reports "Q" again and "1" never. *)
Definition before_growth : HashTable.t :=
  foldl (λ h k, (@HashTable.insert HashTable.sum_hash h k (mkEntry "v" None)).1) (HashTable.make 16)
    ["1"; "Q"; "0"; "2"; "3"; "4"; "5"; "6"; "7"; "8"; "9"; "b"].
Definition after_growth : HashTable.t :=
  (@HashTable.insert HashTable.sum_hash before_growth "z" (mkEntry "v" None)).1.

Example growth_loses_key :
  let page := scan before_growth (mkCursor 10 0) 1 "*" in
  HashTable.bucket_count before_growth = 16 ∧ HashTable.bucket_count after_growth = 32 ∧
  keys page = ["Q"] ∧ finished page = false ∧
  @HashTable.find HashTable.sum_hash "1" after_growth = Some (mkEntry "v" None) ∧
  ((λ l, bool_decide ("1" ∈ l)) <$> scan_all 14 after_growth (next page) 1 "*") = Some false ∧
  ((λ l, bool_decide ("Q" ∈ l)) <$> scan_all 14 after_growth (next page) 1 "*") = Some true.
Proof. vm_compute. repeat split. Qed.

End Rescan.
