(* ===== verification/Engine.v ===== *)
(** * The storage engine (src/storage/storage_engine.cpp, include/voltdbx/storage.hpp)

    [StorageEngine] owns an arena, a buffer pool, a string pool and the hash
    table; keys and values go through the string pool before they are stored,
    and an entry may carry an expiration time.  The readings of
    [std::chrono::steady_clock::now()] are arguments of the operations that
    consult the clock: a single reading, two for [touch], and for the sweep of
    [purge_expired] one per visited entry.

    The class [Storage] states what the engine promises to its clients (batch
    operations, counters, expiration, persistence and the command handlers):
    its operations, the map from keys to entries it represents, and the effect
    of each operation on that map.  The engine is an instance. *)

From S2P Require Import Prelude CppStd Memory Table Scanner.

Local Open Scope Z_scope.

(** An entry whose expiration time has come. *)
Definition expired (now : time_point) (e : StorageEntry) : bool :=
  match expires_at e with
  | Some at_ => at_ <=? now
  | None => false
  end.

(** The value a reader sees at a given time. *)
Definition live (now : time_point) (o : option StorageEntry) : option string :=
  match o with
  | Some e => if expired now e then None else Some (value e)
  | None => None
  end.

Definition nanos_per_second : Z := 1000000000.

(** [now + std::chrono::seconds(ttl)], on 64-bit counts of nanoseconds. *)
Definition deadline (now : time_point) (ttl : Z) : Outcome time_point :=
  ns ← checked64 (ttl * nanos_per_second);
  checked64 (now + ns).

(** [now2 + (at - now1)], the deadline [touch] computes. *)
Definition extended (now1 now2 at_ : time_point) : Outcome time_point :=
  remaining ← checked64 (at_ - now1);
  checked64 (now2 + remaining).

(** ** The interface the engine offers to its clients *)

Class Storage (S : Type) := {
  st_set : string → string → S → S * bool;
  st_get : time_point → string → S → option string;
  st_remove : string → S → S * bool;
  st_exists : string → S → bool;
  st_count : S → nat;
  st_dump : S → list (string * string);
  st_set_ttl : time_point → string → Z → S → Outcome (S * bool);
  st_is_expired : time_point → string → S → bool;
  st_touch : time_point → time_point → string → S → Outcome S;
  st_ttl_count : S → nat;
  st_purge : (nat → time_point) → S → S;
  st_scan : KeyScanner.ScanCursor → N → string → S → KeyScanner.ScanPage;
  st_clear : S → S;
  (** The map from keys to entries, and the states in which it is meaningful. *)
  st_view : S → gmap string StorageEntry;
  st_ok : S → Prop
}.

(** A new deadline given to a key of the map. *)
Definition retimed (k : string) (at_ : time_point) (m : gmap string StorageEntry)
    : gmap string StorageEntry :=
  alter (λ e, mkEntry (value e) (Some at_)) k m.

(** Expired at every reading, and at some reading, of a clock. *)
Definition never_expired (clock : nat → time_point) (e : StorageEntry) : Prop :=
  ∀ i, expired (clock i) e = false.
Definition always_expired (clock : nat → time_point) (e : StorageEntry) : Prop :=
  ∀ i, expired (clock i) e = true.

Class StorageLaws (S : Type) `{!Storage S} : Prop := {
  set_ok k v s : st_ok s → st_ok (st_set k v s).1;
  set_view k v s : st_ok s → st_view (st_set k v s).1 = <[k := mkEntry v None]> (st_view s);
  set_true k v s : (st_set k v s).2 = true;
  get_view now k s : st_ok s → st_get now k s = live now (st_view s !! k);
  remove_ok k s : st_ok s → st_ok (st_remove k s).1;
  remove_view k s : st_ok s → st_view (st_remove k s).1 = delete k (st_view s);
  remove_result k s :
    st_ok s → (st_remove k s).2 = bool_decide (is_Some (st_view s !! k));
  exists_view k s : st_ok s → st_exists k s = bool_decide (is_Some (st_view s !! k));
  count_view s : st_ok s → st_count s = base.size (st_view s);
  dump_view s :
    st_ok s → st_dump s ≡ₚ prod_map id value <$> map_to_list (st_view s);
  set_ttl_absent now k ttl s :
    st_ok s → st_view s !! k = None → st_set_ttl now k ttl s = Ret (s, false);
  set_ttl_present now k ttl s e :
    st_ok s → st_view s !! k = Some e →
    ∃ f, st_set_ttl now k ttl s = (deadline now ttl ≫= λ at_, Ret (f at_, true)) ∧
      ∀ at_, st_ok (f at_) ∧ st_view (f at_) = retimed k at_ (st_view s);
  touch_untimed now1 now2 k s :
    st_ok s → st_view s !! k ≫= expires_at = None → st_touch now1 now2 k s = Ret s;
  touch_timed now1 now2 k s at_ :
    st_ok s → st_view s !! k ≫= expires_at = Some at_ →
    ∃ f, st_touch now1 now2 k s = (extended now1 now2 at_ ≫= λ at', Ret (f at')) ∧
      ∀ at', st_ok (f at') ∧ st_view (f at') = retimed k at' (st_view s);
  is_expired_view now k s :
    st_ok s → st_is_expired now k s =
      match st_view s !! k with Some e => expired now e | None => false end;
  ttl_count_view s :
    st_ok s → st_ttl_count s = length (filter (λ b, is_Some (expires_at b.2)) (map_to_list (st_view s)));
  purge_ok clock s : st_ok s → st_ok (st_purge clock s);
  purge_subset clock s : st_ok s → st_view (st_purge clock s) ⊆ st_view s;
  purge_keeps clock s k e :
    st_ok s → st_view s !! k = Some e → never_expired clock e →
    st_view (st_purge clock s) !! k = Some e;
  purge_drops clock s k e :
    st_ok s → st_view s !! k = Some e → always_expired clock e →
    st_view (st_purge clock s) !! k = None;
  clear_ok s : st_ok s → st_ok (st_clear s);
  clear_view s : st_ok s → st_view (st_clear s) = ∅
}.

#[export] Hint Resolve set_ok remove_ok purge_ok clear_ok : volt.

(** ** Sequences of storage operations *)

Inductive storage_op :=
| OSet (k v : string)
| OGet (now : time_point) (k : string)
| ORemove (k : string)
| OExists (k : string)
| OCount
| ODump
| OSetTtl (now : time_point) (k : string) (ttl : Z)
| OIsExpired (now : time_point) (k : string)
| OTouch (now1 now2 : time_point) (k : string)
| OTtlCount
| OPurge (clock : nat → time_point)
| OClear.

Inductive storage_answer :=
| RBool (b : bool)
| RValue (v : option string)
| RCount (n : nat)
| RPairs (l : list (string * string))
| RUnit.

(** The specification of one operation on the map of entries.  It fixes the
    result of every operation but two: the dump may come in any order, and a
    sweep whose clock advances may or may not take an entry that expires while
    it runs. *)
Inductive spec_op (m : gmap string StorageEntry) :
    storage_op → Outcome (gmap string StorageEntry * storage_answer) → Prop :=
| spec_set k v : spec_op m (OSet k v) (Ret (<[k := mkEntry v None]> m, RBool true))
| spec_get now k : spec_op m (OGet now k) (Ret (m, RValue (live now (m !! k))))
| spec_remove k : spec_op m (ORemove k) (Ret (delete k m, RBool (bool_decide (is_Some (m !! k)))))
| spec_exists k : spec_op m (OExists k) (Ret (m, RBool (bool_decide (is_Some (m !! k)))))
| spec_count : spec_op m OCount (Ret (m, RCount (base.size m)))
| spec_dump l : l ≡ₚ prod_map id value <$> map_to_list m → spec_op m ODump (Ret (m, RPairs l))
| spec_ttl_absent now k ttl :
    m !! k = None → spec_op m (OSetTtl now k ttl) (Ret (m, RBool false))
| spec_ttl_present now k ttl e :
    m !! k = Some e →
    spec_op m (OSetTtl now k ttl) ((λ at_, (retimed k at_ m, RBool true)) <$> deadline now ttl)
| spec_is_expired now k :
    spec_op m (OIsExpired now k)
      (Ret (m, RBool match m !! k with Some e => expired now e | None => false end))
| spec_touch_untimed now1 now2 k :
    m !! k ≫= expires_at = None → spec_op m (OTouch now1 now2 k) (Ret (m, RUnit))
| spec_touch_timed now1 now2 k at_ :
    m !! k ≫= expires_at = Some at_ →
    spec_op m (OTouch now1 now2 k) ((λ at', (retimed k at' m, RUnit)) <$> extended now1 now2 at_)
| spec_ttl_count :
    spec_op m OTtlCount
      (Ret (m, RCount (length (filter (λ b, is_Some (expires_at b.2)) (map_to_list m)))))
| spec_purge clock m' :
    m' ⊆ m →
    (∀ k e, m !! k = Some e → never_expired clock e → m' !! k = Some e) →
    (∀ k e, m !! k = Some e → always_expired clock e → m' !! k = None) →
    spec_op m (OPurge clock) (Ret (m', RUnit))
| spec_clear : spec_op m OClear (Ret (∅, RUnit)).

(** A run stops at the first operation whose arithmetic overflows. *)
Inductive spec_run :
    gmap string StorageEntry → list storage_op →
    Outcome (gmap string StorageEntry * list storage_answer) → Prop :=
| spec_run_nil m : spec_run m [] (Ret (m, []))
| spec_run_cons m o m1 a os r :
    spec_op m o (Ret (m1, a)) → spec_run m1 os r →
    spec_run m (o :: os) (prod_map id (cons a) <$> r)
| spec_run_undefined m o os : spec_op m o Undefined → spec_run m (o :: os) Undefined.

Section Runs.
Context {S : Type} `{StorageLaws S}.

Definition op_step (s : S) (o : storage_op) : Outcome (S * storage_answer) :=
  match o with
  | OSet k v => let '(s', b) := st_set k v s in Ret (s', RBool b)
  | OGet now k => Ret (s, RValue (st_get now k s))
  | ORemove k => let '(s', b) := st_remove k s in Ret (s', RBool b)
  | OExists k => Ret (s, RBool (st_exists k s))
  | OCount => Ret (s, RCount (st_count s))
  | ODump => Ret (s, RPairs (st_dump s))
  | OSetTtl now k ttl => prod_map id RBool <$> st_set_ttl now k ttl s
  | OIsExpired now k => Ret (s, RBool (st_is_expired now k s))
  | OTouch now1 now2 k => (., RUnit) <$> st_touch now1 now2 k s
  | OTtlCount => Ret (s, RCount (st_ttl_count s))
  | OPurge clock => Ret (st_purge clock s, RUnit)
  | OClear => Ret (st_clear s, RUnit)
  end.

Fixpoint op_run (s : S) (os : list storage_op) : Outcome (S * list storage_answer) :=
  match os with
  | [] => Ret (s, [])
  | o :: os' => '(s1, a) ← op_step s o; prod_map id (cons a) <$> op_run s1 os'
  end.

Lemma deadline_no_throw now ttl e : deadline now ttl ≠ Throw e.
Proof. unfold deadline, checked64. by repeat (case_match; msimp). Qed.

Lemma extended_no_throw now1 now2 at_ e : extended now1 now2 at_ ≠ Throw e.
Proof. unfold extended, checked64. by repeat (case_match; msimp). Qed.

(** One step of an implementation is a step of the specification. *)
Lemma op_step_spec s o :
  st_ok s →
  spec_op (st_view s) o (prod_map st_view id <$> op_step s o) ∧
  (∀ s' a, op_step s o ⇓ (s', a) → st_ok s') ∧ (∀ e, op_step s o ≠ Throw e).
Proof.
  intros Hok. destruct o as [k v|now k|k|k| | |now k ttl|now k|now1 now2 k| |clock|]; simpl.
  - pose proof (set_true k v s) as Ht. pose proof (set_view k v s Hok) as Hv.
    pose proof (set_ok k v s Hok). destruct (st_set k v s) as [s' b]. simpl in *. subst b.
    split; [rewrite Hv; constructor|naive_solver].
  - rewrite get_view by done. split; [constructor|naive_solver].
  - pose proof (remove_result k s Hok) as Ht. pose proof (remove_view k s Hok) as Hv.
    pose proof (remove_ok k s Hok). destruct (st_remove k s) as [s' b]. simpl in *. subst b.
    split; [rewrite Hv; constructor|naive_solver].
  - rewrite exists_view by done. split; [constructor|naive_solver].
  - rewrite count_view by done. split; [constructor|naive_solver].
  - split; [constructor; by apply dump_view|naive_solver].
  - destruct (st_view s !! k) as [e|] eqn:He.
    + destruct (set_ttl_present now k ttl s e Hok He) as (f & -> & Hf).
      pose proof (spec_ttl_present (st_view s) now k ttl e He) as Hs.
      pose proof (deadline_no_throw now ttl).
      destruct (deadline now ttl) as [at_| |]; msimp_all; [|naive_solver..].
      simpl. rewrite (proj2 (Hf at_)). naive_solver.
    + rewrite set_ttl_absent by done. split; [by constructor|naive_solver].
  - rewrite is_expired_view by done. split; [constructor|naive_solver].
  - destruct (st_view s !! k ≫= expires_at) as [at_|] eqn:He.
    + destruct (touch_timed now1 now2 k s at_ Hok He) as (f & -> & Hf).
      pose proof (spec_touch_timed (st_view s) now1 now2 k at_ He) as Hs.
      pose proof (extended_no_throw now1 now2 at_).
      destruct (extended now1 now2 at_) as [at'| |]; msimp_all; [|naive_solver..].
      simpl. rewrite (proj2 (Hf at')). naive_solver.
    + rewrite touch_untimed by done. split; [by constructor|naive_solver].
  - rewrite ttl_count_view by done. split; [constructor|naive_solver].
  - split; [|naive_solver eauto with volt]. constructor;
      eauto using purge_subset, purge_keeps, purge_drops.
  - rewrite clear_view by done. split; [constructor|naive_solver eauto with volt].
Qed.

Lemma op_run_spec os s :
  st_ok s → spec_run (st_view s) os (prod_map st_view id <$> op_run s os).
Proof.
  revert s. induction os as [|o os IH]; intros s Hok; cbn [op_run]; [constructor|].
  destruct (op_step_spec s o Hok) as (Hs & Hk & Hn).
  destruct (op_step s o) as [[s1 a]|e|]; msimp; [|naive_solver|by constructor].
  specialize (IH s1 (Hk _ _ eq_refl)).
  pose proof (spec_run_cons _ o _ a os _ Hs IH) as Hr.
  by destruct (op_run s1 os) as [[s2 l]| |].
Qed.

End Runs.

Module StorageEngine.

(** [class StorageEngine::Impl]; the string pool is its count of copies. *)
Record t := mk {
  arena : ArenaAllocator.t;
  buffer_pool : BufferPool.t;
  string_pool : nat;
  table : HashTable.t
}.

Definition make : t :=
  mk (ArenaAllocator.make 8192) (BufferPool.make 512 256) 0 (HashTable.make 4096).

Definition with_table (e : t) (h : HashTable.t) : t :=
  mk (arena e) (buffer_pool e) (string_pool e) h.

(** [impl_->string_pool.copy(s)]. *)
Definition copy (s : string) (e : t) : t * string :=
  let '(pool, copies, r) := StringPool.copy s (buffer_pool e, string_pool e) in
  (mk (arena e) pool copies (table e), r).

Section WithHash.
Context `{StdHash}.

Definition set (k v : string) (e : t) : t * bool :=
  let '(e, v') := copy v e in
  let '(e, k') := copy k e in
  (with_table e (HashTable.insert (table e) k' (mkEntry v' None)).1, true).

Definition is_expired (now : time_point) (k : string) (e : t) : bool :=
  match HashTable.find k (table e) with
  | Some found =>
      match expires_at found with
      | Some at_ => at_ <=? now
      | None => false
      end
  | None => false
  end.

Definition get (now : time_point) (k : string) (e : t) : option string :=
  if is_expired now k e then None
  else
    match HashTable.find k (table e) with
    | Some found => Some (value found)
    | None => None
    end.

Definition remove (k : string) (e : t) : t * bool :=
  let '(h, b) := HashTable.erase k (table e) in (with_table e h, b).

Definition exists_ (k : string) (e : t) : bool := HashTable.contains k (table e).

Definition entry_count (e : t) : nat := HashTable.size (table e).

Definition set_ttl (now : time_point) (k : string) (ttl : Z) (e : t) : Outcome (t * bool) :=
  match HashTable.find k (table e) with
  | None => Ret (e, false)
  | Some found =>
      at_ ← deadline now ttl;
      Ret (with_table e (HashTable.insert (table e) k (mkEntry (value found) (Some at_))).1, true)
  end.

(** [touch] reads the clock twice. *)
Definition touch (now1 now2 : time_point) (k : string) (e : t) : Outcome t :=
  match HashTable.find k (table e) with
  | None => Ret e
  | Some found =>
      match expires_at found with
      | None => Ret e
      | Some at_ =>
          at' ← extended now1 now2 at_;
          Ret (with_table e (HashTable.insert (table e) k (mkEntry (value found) (Some at'))).1)
      end
  end.

Definition ttl_key_count (e : t) : nat :=
  HashTable.for_each (λ n _ entry, match expires_at entry with Some _ => S n | None => n end)
    (table e) 0%nat.

(** The sweep: [clock i] is the reading made at the [i]-th visited entry. *)
Definition expired_keys (clock : nat → time_point) (e : t) : list string :=
  (HashTable.for_each
     (λ '(i, l) k entry, (S i, if expired (clock i) entry then l ++ [k] else l))
     (table e) (0%nat, [])).2.

Definition purge_expired (clock : nat → time_point) (e : t) : t :=
  with_table e (foldl (λ h k, (HashTable.erase k h).1) (table e) (expired_keys clock e)).

Definition scan_keys (c : KeyScanner.ScanCursor) (count : N) (pattern : string) (e : t)
    : KeyScanner.ScanPage :=
  KeyScanner.scan (table e) c count pattern.

Definition clear_all (e : t) : t :=
  mk (ArenaAllocator.reset (arena e)) (buffer_pool e) (string_pool e) (HashTable.clear (table e)).

Definition dump_entries (e : t) : list (string * string) :=
  HashTable.for_each (λ l k entry, l ++ [(k, value entry)]) (table e) [].

(** ** The engine implements the interface *)

Definition view (e : t) : gmap string StorageEntry := HashTable.to_map (table e).

Definition wf (e : t) : Prop := HashTable.wf (table e).

#[export] Instance engine_storage : Storage t := {|
  st_set := set;
  st_get := get;
  st_remove := remove;
  st_exists := exists_;
  st_count := entry_count;
  st_dump := dump_entries;
  st_set_ttl := set_ttl;
  st_is_expired := is_expired;
  st_touch := touch;
  st_ttl_count := ttl_key_count;
  st_purge := purge_expired;
  st_scan := scan_keys;
  st_clear := clear_all;
  st_view := view;
  st_ok := wf
|}.

Lemma make_ok : wf make ∧ view make = ∅.
Proof. apply HashTable.make_wf. Qed.

Lemma copy_spec s e : (copy s e).2 = s ∧ table (copy s e).1 = table e.
Proof.
  unfold copy. pose proof (StringPool.copy_result s (buffer_pool e, string_pool e)) as Hr.
  by destruct (StringPool.copy s _) as [[pool n] r].
Qed.

Lemma set_table k v e :
  table (set k v e).1 = (HashTable.insert (table e) k (mkEntry v None)).1.
Proof.
  unfold set. destruct (copy_spec v e) as [Hv Ht]. destruct (copy v e) as [e1 v']. simpl in *.
  destruct (copy_spec k e1) as [Hk Ht1]. destruct (copy k e1) as [e2 k']. simpl in *. by rewrite Ht1, Ht, Hv, Hk.
Qed.

Lemma is_expired_spec now k e :
  is_expired now k e =
  match HashTable.find k (table e) with Some f => expired now f | None => false end.
Proof. done. Qed.

Lemma get_spec now k e : get now k e = live now (HashTable.find k (table e)).
Proof.
  unfold get. rewrite is_expired_spec. unfold live. by destruct (HashTable.find k (table e)).
Qed.

Lemma dump_bindings e :
  dump_entries e = prod_map id value <$> (HashTable.binding <$> HashTable.nodes (table e)).
Proof.
  unfold dump_entries. rewrite HashTable.for_each_bindings.
  rewrite (foldl_collect (λ b : string * StorageEntry, (b.1, value b.2))). simpl.
  apply list_fmap_ext. intros i [k0 f0] _. done.
Qed.

Lemma ttl_count_bindings e :
  ttl_key_count e =
  length (filter (λ b, is_Some (expires_at b.2)) (HashTable.binding <$> HashTable.nodes (table e))).
Proof.
  unfold ttl_key_count. rewrite HashTable.for_each_bindings.
  etrans; [|apply (foldl_count (λ b : string * StorageEntry, is_Some (expires_at b.2)) _ 0)].
  apply foldl_ext. intros n b. case_decide as Hd; destruct (expires_at b.2); naive_solver.
Qed.

(** *** The sweep *)

(** The keys the sweep collects, as a recursion over the bindings. *)
Fixpoint sweep (clock : nat → time_point) (i : nat) (l : list (string * StorageEntry)) : list string :=
  match l with
  | [] => []
  | (k, f) :: l' => (if expired (clock i) f then [k] else []) ++ sweep clock (S i) l'
  end.

Lemma sweep_fold clock l i acc :
  (foldl (λ (a : nat * list string) (b : string * StorageEntry),
      (S a.1, if expired (clock a.1) b.2 then a.2 ++ [b.1] else a.2)) (i, acc) l).2 =
  acc ++ sweep clock i l.
Proof.
  revert i acc. induction l as [|[k f] l IH]; intros i acc; simpl; [by rewrite app_nil_r|].
  rewrite IH. by case_match; simpl; rewrite <-?(assoc_L (++)).
Qed.

Lemma expired_keys_sweep clock e :
  expired_keys clock e = sweep clock 0 (HashTable.binding <$> HashTable.nodes (table e)).
Proof.
  unfold expired_keys. rewrite HashTable.for_each_bindings.
  etrans; [|apply (sweep_fold clock _ 0 [])]. f_equal. apply foldl_ext. by intros [].
Qed.

Lemma sweep_elem clock i l k :
  k ∈ sweep clock i l → ∃ j f, (k, f) ∈ l ∧ expired (clock j) f = true.
Proof.
  revert i. induction l as [|[k' f] l IH]; intros i; simpl; [by intros ?%not_elem_of_nil|].
  intros [Hk|Hk]%elem_of_app.
  - case_match; [|by apply not_elem_of_nil in Hk]. apply list_elem_of_singleton in Hk as ->.
    exists i, f. split; [by left|done].
  - destruct (IH _ Hk) as (j & f' & Hin & He). exists j, f'. split; [by right|done].
Qed.

Lemma elem_sweep clock i l k f :
  (k, f) ∈ l → always_expired clock f → k ∈ sweep clock i l.
Proof.
  intros Hin Hf. revert i. induction l as [|[k' f'] l IH]; intros i; simpl.
  { by apply not_elem_of_nil in Hin. }
  apply elem_of_app. apply elem_of_cons in Hin as [[= <- <-]|Hin]; [left|right; by apply IH].
  rewrite Hf. by apply list_elem_of_singleton.
Qed.

Lemma erase_all ks h :
  HashTable.wf h →
  let h' := foldl (λ h k, (HashTable.erase k h).1) h ks in
  HashTable.wf h' ∧ ∀ k, HashTable.to_map h' !! k =
    if decide (k ∈ ks) then None else HashTable.to_map h !! k.
Proof.
  revert h. induction ks as [|k0 ks IH]; intros h Hwf; cbn [foldl].
  - split; [done|]. intros k. case_decide; set_solver.
  - destruct (HashTable.erase_wf h k0 Hwf) as (Hw & Hm & _).
    destruct (IH _ Hw) as [Hw' Hm']. split; [done|]. intros k. rewrite Hm', Hm, lookup_delete.
    repeat case_decide; set_solver.
Qed.

Lemma binding_elem e k f :
  wf e → (k, f) ∈ (HashTable.binding <$> HashTable.nodes (table e)) ↔ view e !! k = Some f.
Proof. intros Hwf. rewrite HashTable.bindings_perm by done. apply elem_of_map_to_list. Qed.

Lemma purge_spec clock e :
  wf e → wf (purge_expired clock e) ∧
  ∀ k, view (purge_expired clock e) !! k =
    if decide (k ∈ expired_keys clock e) then None else view e !! k.
Proof. intros Hwf. apply (erase_all (expired_keys clock e) (table e) Hwf). Qed.

Lemma retime_table e k f at_ :
  wf e → HashTable.to_map (table e) !! k = Some f →
  let e' := with_table e (HashTable.insert (table e) k (mkEntry (value f) (Some at_))).1 in
  wf e' ∧ view e' = retimed k at_ (view e).
Proof.
  intros Hwf Hk. destruct (HashTable.insert_fuel_inserts 2 (table e) k
    (mkEntry (value f) (Some at_)) Hwf) as (Hw & Hm & _). split; [done|].
  unfold view. simpl. unfold HashTable.insert. rewrite Hm. unfold retimed. apply map_eq. intros k'.
  rewrite lookup_insert, lookup_alter. case_decide; subst; [by rewrite Hk|done].
Qed.

#[export] Instance engine_laws : StorageLaws t.
Proof.
  split; simpl; intros.
  - unfold wf. rewrite set_table. by apply HashTable.insert_fuel_inserts.
  - unfold view. rewrite set_table. by apply HashTable.insert_fuel_inserts.
  - unfold set. by destruct (copy v s) as [e1 v'], (copy k _) as [e2 k'].
  - rewrite get_spec. unfold view. by rewrite HashTable.to_map_find.
  - unfold remove. destruct (HashTable.erase_wf (table s) k H0) as (Hw & _).
    by destruct (HashTable.erase k (table s)).
  - unfold remove, view. destruct (HashTable.erase_wf (table s) k H0) as (_ & Hm & _).
    by destruct (HashTable.erase k (table s)).
  - unfold remove, view. destruct (HashTable.erase_wf (table s) k H0) as (_ & _ & Hb).
    by destruct (HashTable.erase k (table s)).
  - by apply HashTable.contains_spec.
  - symmetry. by apply HashTable.to_map_size.
  - rewrite dump_bindings. by rewrite HashTable.bindings_perm.
  - unfold set_ttl, view in *. rewrite <-HashTable.to_map_find by done. by rewrite H1.
  - unfold set_ttl, view in *. rewrite <-HashTable.to_map_find, H1 by done.
    eexists. split; [done|]. intros at_. by apply retime_table.
  - unfold touch, view in *. rewrite <-HashTable.to_map_find by done.
    destruct (HashTable.to_map (table s) !! k) as [e|]; [|done]. simpl in *. by rewrite H1.
  - unfold touch, view in *. rewrite <-HashTable.to_map_find by done.
    destruct (HashTable.to_map (table s) !! k) as [e|] eqn:He; [|done]. simpl in *. rewrite H1.
    eexists. split; [done|]. intros at'. by apply retime_table.
  - rewrite is_expired_spec. unfold view. by rewrite HashTable.to_map_find.
  - rewrite ttl_count_bindings. by rewrite HashTable.bindings_perm.
  - by apply purge_spec.
  - apply map_subseteq_spec. intros k f. rewrite (proj2 (purge_spec clock s H0)).
    by case_decide.
  - rewrite (proj2 (purge_spec clock s H0)). rewrite decide_False; [done|].
    rewrite expired_keys_sweep. intros (j & f & Hin & He)%sweep_elem.
    apply binding_elem in Hin; [|done]. rewrite H1 in Hin. simplify_eq. by rewrite H2 in He.
  - rewrite (proj2 (purge_spec clock s H0)). rewrite decide_True; [done|].
    rewrite expired_keys_sweep. eapply elem_sweep; [|done]. by apply binding_elem.
  - by apply HashTable.clear_wf.
  - by apply HashTable.clear_wf.
Qed.

Lemma exists_spec e k : wf e → exists_ k e = true ↔ is_Some (HashTable.to_map (table e) !! k).
Proof. intros Hwf. unfold exists_. rewrite HashTable.contains_spec by done. apply bool_decide_eq_true. Qed.

(** C3: from the empty engine, every sequence of operations (set, get, remove,
    exists, entry_count, dump_entries, set_ttl, is_expired, touch,
    ttl_key_count, purge_expired, clear_all, at any clock readings) behaves as
    the specification on a map from keys to entries: the same answers, the same
    map, and undefined behaviour exactly where a deadline leaves 64 bits. *)
Theorem engine_refines_map os :
  spec_run ∅ os (prod_map view id <$> op_run make os).
Proof. rewrite <-(proj2 make_ok). exact (op_run_spec os make (proj1 make_ok)). Qed.

(** [set] then [set_ttl] at time [now]: the key reads as its value strictly
    before [now + ttl] seconds and as absent from that instant on, and every
    other key reads as before; a [set] alone leaves no deadline behind. *)
Theorem set_expire_get e k v now ttl :
  wf e → int64_min ≤ ttl * nanos_per_second ≤ int64_max →
  int64_min ≤ now + ttl * nanos_per_second ≤ int64_max →
  ∃ e', set_ttl now k ttl (set k v e).1 ⇓ (e', true) ∧ wf e' ∧
  ∀ t, get t k (set k v e).1 = Some v ∧
    get t k e' = (if now + ttl * nanos_per_second <=? t then None else Some v) ∧
    ∀ k', k' ≠ k → get t k' e' = get t k' e.
Proof.
  intros Hwf Hns Hat. pose proof (set_ok k v e Hwf) as Hok. pose proof (set_view k v e Hwf) as Hv.
  simpl in Hv. destruct (set_ttl_present now k ttl (set k v e).1 (mkEntry v None) Hok) as (f & Hf & Hs).
  { simpl. by rewrite Hv, lookup_insert_eq. }
  destruct (Hs (now + ttl * nanos_per_second)) as [Hok' Hv']. eexists. split; [|split; [done|]].
  - simpl in Hf. rewrite Hf. unfold deadline. rewrite checked64_in by done. msimp.
    by rewrite checked64_in.
  - intros t. pose proof (get_view t) as Hg. simpl in *. rewrite !Hg by done. rewrite Hv', Hv.
    unfold retimed. split_and!.
    + by rewrite lookup_insert_eq.
    + by rewrite lookup_alter_eq, lookup_insert_eq.
    + intros k' Hne. rewrite !Hg by done. rewrite Hv', Hv. unfold retimed. by rewrite lookup_alter_ne, lookup_insert_ne.
Qed.

(** A sweep is invisible to readers: whatever its clock readings, as long as
    they are not later than [now], [get] at [now] gives the same result before
    and after it, and no key is added. *)
Theorem purge_invisible_to_get clock e now k :
  wf e → (∀ i, clock i ≤ now) →
  get now k (purge_expired clock e) = get now k e ∧
  (exists_ k (purge_expired clock e) = true → exists_ k e = true).
Proof.
  intros Hwf Hclock. pose proof (purge_ok clock e Hwf) as Hok. simpl in Hok.
  pose proof (get_view now k) as Hg. pose proof (exists_view k) as He. simpl in *.
  rewrite !Hg, !He by done. destruct (purge_spec clock e Hwf) as [_ ->]. case_decide as Hin; [|done].
  rewrite expired_keys_sweep in Hin. apply sweep_elem in Hin as (j & f & Hf & Hx).
  apply binding_elem in Hf; [|done]. rewrite Hf. simpl. unfold expired in *.
  destruct (expires_at f) as [at_|]; [|done]. specialize (Hclock j). bsimp.
  rewrite (proj2 (Z.leb_le at_ now)) by lia. done.
Qed.

(** Until a sweep takes it, an expired key is hidden from [get] but still
    answers [exists] and is still counted. *)
Theorem exists_sees_expired e k f now :
  wf e → view e !! k = Some f → expired now f = true →
  get now k e = None ∧ is_expired now k e = true ∧ exists_ k e = true ∧ (1 ≤ entry_count e)%nat.
Proof.
  intros Hwf Hk Hx. pose proof (get_view now k e Hwf) as Hg. pose proof (exists_view k e Hwf) as He.
  pose proof (is_expired_view now k e Hwf) as Hi. pose proof (count_view e Hwf) as Hc.
  simpl in *. rewrite Hg, He, Hi, Hc, Hk. simpl. rewrite Hx. split_and!; try done.
  apply Nat.le_succ_l, Nat.neq_0_lt_0. intros Hz%map_size_empty_inv. by rewrite Hz, lookup_empty in Hk.
Qed.

(** *** The pools behind the engine *)

(** The string pool gives back the block of every copy. *)
Definition pool_intact (e : t) : Prop :=
  BufferPool.wf (buffer_pool e) [] ∧ BufferPool.free_list_ (buffer_pool e) ≠ [] ∧
  BufferPool.free_list_ (buffer_pool e) = BufferPool.free_list_ (BufferPool.make 512 256) ∧
  BufferPool.slabs_ (buffer_pool e) = BufferPool.slabs_ (BufferPool.make 512 256).

Lemma copy_pool_intact s e : pool_intact e → pool_intact (copy s e).1.
Proof.
  intros (Hwf & Hne & Hf & Hs). unfold copy.
  pose proof (StringPool.copy_frame s (buffer_pool e) (string_pool e) [] Hwf) as Hc.
  destruct (StringPool.copy s _) as [[pool n] r]. destruct Hc as (_ & _ & Hwf' & Hkeep).
  destruct (Hkeep Hne) as [Hf' Hs']. unfold pool_intact. simpl. rewrite Hf', Hs'. done.
Qed.

Lemma op_step_pool e o e' a : op_step e o ⇓ (e', a) → pool_intact e → pool_intact e'.
Proof.
  intros Hstep Hp. destruct o; simpl in Hstep; simplify_eq; try done.
  - unfold set in Hstep. pose proof (copy_pool_intact v e Hp) as H1.
    destruct (copy v e) as [e1 v']. pose proof (copy_pool_intact k e1 H1) as H2.
    destruct (copy k e1) as [e2 k']. by simplify_eq/=.
  - unfold remove in Hstep. destruct (HashTable.erase k (table e)). by simplify_eq/=.
  - unfold set_ttl in Hstep. destruct (HashTable.find _ _); [|by simplify_eq/=].
    by destruct (deadline _ _); simplify_eq/=.
  - unfold touch in Hstep. destruct (HashTable.find _ _) as [f|]; [|by simplify_eq/=].
    destruct (expires_at f); [|by simplify_eq/=]. by destruct (extended _ _ _); simplify_eq/=.
Qed.

(** No sequence of engine operations leaks pool memory: after it the buffer
    pool is well formed with no block in use, holds the free list it was built
    with and has allocated no further slab. *)
Theorem engine_pool_never_leaks os :
  match op_run make os with
  | Ret (e, _) => pool_intact e
  | _ => True
  end.
Proof.
  assert (pool_intact make) as Hp.
  { split_and!; [by apply BufferPool.pool_make_wf; [split|]|done..]. }
  revert Hp. generalize make. induction os as [|o os IH]; intros e Hp; cbn [op_run]; [done|].
  destruct (op_step e o) as [[e1 a]| |] eqn:Ho; msimp; [|done..].
  specialize (IH e1 (op_step_pool e o e1 a Ho Hp)). by destruct (op_run e1 os) as [[]| |].
Qed.

End WithHash.

(** ** Witnesses *)

#[local] Existing Instance HashTable.sum_hash.

(** An engine over a small table, with one key that expires at time 50. *)
Definition small : t :=
  mk (ArenaAllocator.make 64) (BufferPool.make 8 2) 0 (HashTable.make 4).
Definition timed : t :=
  with_table small (HashTable.insert (HashTable.make 4) "k" (mkEntry "v" (Some 50))).1.

Lemma small_ok : st_ok small.
Proof. apply HashTable.make_wf. Qed.

Lemma timed_ok : st_ok timed.
Proof. apply HashTable.insert_fuel_inserts, HashTable.make_wf. Qed.

Lemma set_expire_get_witness :
  ∃ e', set_ttl 7 "k" 3 (set "k" "v" small).1 ⇓ (e', true) ∧
    get 3000000006 "k" e' = Some "v" ∧ get 3000000007 "k" e' = None.
Proof.
  destruct (set_expire_get small "k" "v" 7 3) as (e' & He & _ & Hget);
    [apply small_ok|vm_compute; intuition congruence..|].
  exists e'. split; [done|].
  destruct (Hget 3000000006) as (_ & -> & _), (Hget 3000000007) as (_ & -> & _). clear. split; reflexivity.
Defined.

Lemma purge_invisible_to_get_witness :
  exists_ "k" timed = true ∧ exists_ "k" (purge_expired (λ _, 60) timed) = false ∧
  get 60 "k" (purge_expired (λ _, 60) timed) = get 60 "k" timed.
Proof.
  split; [vm_compute; done|]. split; [vm_compute; done|].
  apply (purge_invisible_to_get (λ _, 60) timed 60 "k"); [apply timed_ok|lia].
Defined.

Lemma exists_sees_expired_witness :
  get 50 "k" timed = None ∧ is_expired 50 "k" timed = true ∧ exists_ "k" timed = true ∧
  (1 ≤ entry_count timed)%nat.
Proof.
  apply (exists_sees_expired timed "k" (mkEntry "v" (Some 50)) 50);
    [apply timed_ok|vm_compute; done|done].
Defined.

End StorageEngine.

#[export] Existing Instances StorageEngine.engine_storage StorageEngine.engine_laws.
