(* ===== verification/Clients.v ===== *)
(** * Clients of the storage engine

    [BatchOperations] (src/storage/batch_ops.cpp), [CounterStore]
    (src/storage/counter_store.cpp), [ExpirationService] (src/ttl/expiration.cpp)
    and the sweeping loop of [ExpirationScheduler] (src/ttl/scheduler.cpp).
    Each holds a reference to the engine; the model passes the state of the
    engine through them.  Everything is stated and proved against the interface
    [Storage] with its laws, and holds of the engine as an instance. *)

From S2P Require Import Prelude CppStd Memory Table Scanner Engine.

Local Open Scope Z_scope.

Section Clients.
Context {S : Type} `{StorageLaws S}.

(** ** BatchOperations *)

Record BatchSetPair := mkPair { pair_key : string; pair_value : string }.

(** [clock i] is the reading of the clock at the [i]-th key. *)
Definition mget (clock : nat → time_point) (keys : list string) (s : S) : list (option string) :=
  imap (λ i key, st_get (clock i) key s) keys.

Definition mset (pairs : list BatchSetPair) (s : S) : S * nat :=
  foldl (λ '(s, written) pair,
    let '(s, ok) := st_set (pair_key pair) (pair_value pair) s in
    (s, if ok : bool then Datatypes.S written else written)) (s, 0%nat) pairs.

(** ** CounterStore *)

Definition parse_value (raw : option string) : Outcome Z :=
  match raw with
  | None => Ret 0
  | Some "" => Ret 0
  | Some r => stoll r
  end.

Definition format_value (v : Z) : string := to_string v.

Definition increment (now : time_point) (key : string) (delta : Z) (s : S) : Outcome (S * Z) :=
  current ← parse_value (st_get now key s);
  next ← checked64 (current + delta);
  Ret ((st_set key (format_value next) s).1, next).

Definition decrement (now : time_point) (key : string) (delta : Z) (s : S) : Outcome (S * Z) :=
  d ← checked64 (- delta);
  increment now key d s.

Definition read (now : time_point) (key : string) (s : S) : Outcome (option Z) :=
  match st_get now key s with
  | None => Ret None
  | Some raw => Some <$> parse_value (Some raw)
  end.

(** ** ExpirationService *)

Definition expire_after (now : time_point) (key : string) (ttl : Z) (s : S) : Outcome (S * bool) :=
  if negb (st_exists key s) then Ret (s, false) else st_set_ttl now key ttl s.

Definition expiration_is_expired (now : time_point) (key : string) (s : S) : bool := st_is_expired now key s.

Definition expiration_touch (now1 now2 : time_point) (key : string) (s : S) : Outcome S :=
  st_touch now1 now2 key s.

Definition active_ttl_keys (s : S) : nat := st_ttl_count s.

(** ** ExpirationScheduler *)

(** One iteration of [loop]: the sweep, and the count it logs when it removed
    something. *)
Definition sweep_iteration (clock : nat → time_point) (s : S) : S * option nat :=
  let before := st_count s in
  let s' := st_purge clock s in
  let after := st_count s' in
  (s', if decide (before = after) then None else Some (before - after)%nat).

(** ** Batches *)

(** The map after the pairs have been written in order. *)
Definition write_pairs (pairs : list BatchSetPair) (m : gmap string StorageEntry) :=
  foldl (λ m p, <[pair_key p := mkEntry (pair_value p) None]> m) m pairs.

Lemma mset_fold pairs s n :
  st_ok s →
  let '(s', written) :=
    foldl (λ '(s, written) pair,
      let '(s, ok) := st_set (pair_key pair) (pair_value pair) s in
      (s, if ok : bool then Datatypes.S written else written)) (s, n) pairs in
  st_ok s' ∧ written = (n + length pairs)%nat ∧ st_view s' = write_pairs pairs (st_view s).
Proof.
  revert s n. induction pairs as [|[k v] pairs IH]; intros s n Hok; cbn [foldl].
  { split_and!; [done|simpl; lia|done]. }
  pose proof (set_true k v s) as Ht. pose proof (set_view k v s Hok) as Hv.
  pose proof (set_ok k v s Hok) as Hok'. cbn [pair_key pair_value].
  destruct (st_set k v s) as [s1 b]. simpl in Ht, Hv, Hok'. subst b.
  specialize (IH s1 (Datatypes.S n) Hok'). case_match. destruct IH as (? & -> & ->).
  split_and!; [done|simpl; lia|]. unfold write_pairs. simpl. by rewrite Hv.
Qed.

(** The last pair with a given key decides what it reads as. *)
Lemma write_pairs_lookup pairs m k :
  write_pairs pairs m !! k =
  match list_find (λ p, pair_key p = k) (reverse pairs) with
  | Some (_, p) => Some (mkEntry (pair_value p) None)
  | None => m !! k
  end.
Proof.
  induction pairs as [|p pairs IH] using rev_ind; [done|]. unfold write_pairs in *.
  rewrite foldl_app, reverse_app. simpl. case_decide as Hk; [subst; by rewrite lookup_insert_eq|].
  rewrite lookup_insert_ne by done. rewrite IH. by destruct (list_find _ (reverse pairs)) as [[]|].
Qed.

(** [mset] writes every pair and reports as many; [mget] then gives, for each
    requested key in order, the value of the last pair with that key, and for the
    other keys what [get] gave before, whatever the clock reads. *)
Theorem mset_then_mget pairs keys clock s :
  st_ok s →
  let '(s', written) := mset pairs s in
  st_ok s' ∧ written = length pairs ∧
  mget clock keys s' =
  imap (λ i k, match list_find (λ p, pair_key p = k) (reverse pairs) with
               | Some (_, p) => Some (pair_value p)
               | None => st_get (clock i) k s
               end) keys.
Proof.
  intros Hok. pose proof (mset_fold pairs s 0 Hok) as Hm. unfold mset. case_match.
  destruct Hm as (Hok' & -> & Hv). split_and!; [done|done|]. unfold mget. apply imap_ext.
  intros i k _. simpl. rewrite !get_view, Hv, write_pairs_lookup by done.
  by destruct (list_find _ _) as [[]|].
Qed.

(** ** Counters *)

(** What a counter reads as: 0 for an absent, expired or empty value. *)
Lemma parse_value_format v : in_int64 v = true → parse_value (Some (to_string v)) ⇓ v.
Proof.
  intros Hv. unfold parse_value. pose proof (stoll_to_string v (proj1 (in_int64_spec v) Hv)) as Hs.
  by destruct (to_string v).
Qed.

(** [increment] on every branch.  A value that is no number throws
    [invalid_argument] (one out of range [out_of_range]); a sum outside 64 bits
    is undefined; otherwise the sum is returned and stored in decimal, without a
    deadline, and the other keys are untouched. *)
Theorem increment_spec now key delta s :
  st_ok s →
  match parse_value (live now (st_view s !! key)) with
  | Ret current =>
      if in_int64 (current + delta) then
        ∃ s', increment now key delta s ⇓ (s', current + delta) ∧ st_ok s' ∧
          st_view s' = <[key := mkEntry (to_string (current + delta)) None]> (st_view s)
      else increment now key delta s = Undefined
  | Throw e => increment now key delta s = Throw e
  | Undefined => False
  end.
Proof.
  intros Hok. unfold increment. rewrite get_view by done.
  destruct (parse_value _) as [cur|e|] eqn:Hp; msimp; [|done|].
  - unfold checked64. destruct (in_int64 _); msimp; [|done]. eexists. split; [done|].
    split; [by apply set_ok|by apply set_view].
  - unfold parse_value, stoll in Hp. repeat case_match; done.
Qed.

Lemma increment_stored now key v delta s :
  st_ok s → st_view s !! key = Some (mkEntry (to_string v) None) → in_int64 v = true →
  in_int64 (v + delta) = true →
  ∃ s', increment now key delta s ⇓ (s', v + delta) ∧ st_ok s' ∧
    st_view s' = <[key := mkEntry (to_string (v + delta)) None]> (st_view s).
Proof.
  intros Hok Hk Hv Hs. unfold increment. rewrite get_view, Hk by done. cbn [live expired expires_at value].
  rewrite (parse_value_format v) by done. msimp. unfold checked64. rewrite Hs. msimp.
  eexists. split; [done|]. split; [by apply set_ok|by apply set_view].
Qed.

(** A sequence of increments of one key, each at its own time. *)
Fixpoint increments (key : string) (ds : list (time_point * Z)) (s : S) : Outcome S :=
  match ds with
  | [] => Ret s
  | (now, d) :: ds' => '(s', _) ← increment now key d s; increments key ds' s'
  end.

Fixpoint sums_fit (v : Z) (ds : list (time_point * Z)) : bool :=
  match ds with
  | [] => true
  | (_, d) :: ds' => in_int64 (v + d) && sums_fit (v + d) ds'
  end.

Definition total (v : Z) (ds : list (time_point * Z)) : Z := foldl (λ v d, v + d.2) v ds.

Lemma increments_stored key ds s v :
  st_ok s → st_view s !! key = Some (mkEntry (to_string v) None) → in_int64 v = true →
  sums_fit v ds = true →
  ∃ s', increments key ds s ⇓ s' ∧ st_ok s' ∧ in_int64 (total v ds) = true ∧
    st_view s' = <[key := mkEntry (to_string (total v ds)) None]> (st_view s).
Proof.
  revert s v. induction ds as [|[now d] ds IH]; intros s v Hok Hk Hv Hfit; simpl in *.
  { exists s. split_and!; try done. symmetry. by apply insert_id. }
  bsimp. destruct (increment_stored now key v d s) as (s1 & -> & Hok1 & Hv1); try done. msimp.
  destruct (IH s1 (v + d)) as (s2 & -> & Hok2 & Hf & Hv2); try done.
  { by rewrite Hv1, lookup_insert_eq. }
  exists s2. split_and!; try done. rewrite Hv2, Hv1. by rewrite insert_insert_eq.
Qed.

(** A run of increments and decrements adds up: from an absent key, when every
    partial sum fits 64 bits, the counter holds and reads back as the sum,
    whatever the times of the operations, and no other key changes. *)
Theorem increments_add_up key ds s now0 d0 :
  st_ok s → st_view s !! key = None → sums_fit 0 ((now0, d0) :: ds) = true →
  ∃ s', increments key ((now0, d0) :: ds) s ⇓ s' ∧ st_ok s' ∧
    (∀ now, read now key s' ⇓ Some (total d0 ds)) ∧
    ∀ k, k ≠ key → st_view s' !! k = st_view s !! k.
Proof.
  intros Hok Hk Hfit. cbn [sums_fit] in Hfit. rewrite Z.add_0_l in Hfit.
  apply andb_true_iff in Hfit as [Hd0 Hfit].
  cbn [increments]. unfold increment at 1. rewrite get_view, Hk by done. cbn [live expired expires_at value].
  cbn [parse_value]. msimp. rewrite Z.add_0_l. unfold checked64. rewrite Hd0. msimp.
  destruct (increments_stored key ds (st_set key (format_value d0) s).1 d0)
    as (s' & -> & Hok' & Hf & Hv); try done.
  - by apply set_ok.
  - rewrite set_view by done. by rewrite lookup_insert_eq.
  - exists s'. split_and!; [done|done| |].
    + intros now. unfold read. rewrite get_view, Hv, lookup_insert_eq by done. cbn [live expired expires_at value].
      cbn match. by rewrite parse_value_format.
    + intros k Hne. rewrite Hv, set_view by done. by rewrite !lookup_insert_ne.
Qed.

(** ** Expiration *)

(** [expire_after] reports whether the key is stored, and [set_ttl]'s deadline
    is the only change it makes; an overflowing deadline is undefined. *)
Theorem expire_after_spec now key ttl s :
  st_ok s →
  match st_view s !! key with
  | None => expire_after now key ttl s ⇓ (s, false)
  | Some e =>
      match deadline now ttl with
      | Ret at_ => ∃ s', expire_after now key ttl s ⇓ (s', true) ∧ st_ok s' ∧
          st_view s' = <[key := mkEntry (value e) (Some at_)]> (st_view s)
      | _ => expire_after now key ttl s = Undefined
      end
  end.
Proof.
  intros Hok. unfold expire_after. rewrite exists_view by done.
  destruct (st_view s !! key) as [e|] eqn:He; [|done].
  rewrite bool_decide_true by eauto. simpl.
  destruct (set_ttl_present now key ttl s e Hok He) as (f & -> & Hf).
  pose proof (deadline_no_throw now ttl) as Hn.
  destruct (deadline now ttl) as [at_|ex|]; [|by destruct (Hn ex)|done]. msimp.
  destruct (Hf at_) as [Hok' Hv]. eexists. split_and!; [done|done|]. rewrite Hv.
  unfold retimed. apply map_eq. intros k. rewrite lookup_insert, lookup_alter.
  case_decide; subst; [by rewrite He|done].
Qed.

(** One iteration of the sweeping loop logs exactly the number of keys it
    removed, logs nothing when it removed none, and never touches a key without
    a deadline. *)
Theorem sweep_iteration_counts clock s :
  st_ok s →
  let '(s', logged) := sweep_iteration clock s in
  st_ok s' ∧
  (base.size (st_view s) = base.size (st_view s') + default 0 logged)%nat ∧
  (logged = None ↔ st_view s' = st_view s) ∧
  (∀ k e, st_view s !! k = Some e → expires_at e = None → st_view s' !! k = Some e).
Proof.
  intros Hok. pose proof (purge_ok clock s Hok) as Hok'.
  pose proof (purge_subset clock s Hok) as Hsub. pose proof (map_subseteq_size _ _ Hsub) as Hle.
  unfold sweep_iteration. rewrite !count_view by done. split; [done|]. split_and!.
  - case_decide; simpl; lia.
  - case_decide as Hc; split; try done.
    + intros _. apply map_subseteq_size_eq; [done|lia].
    + intros Heq. by rewrite Heq in Hc.
  - intros k e Hk He. apply purge_keeps; [done|done|]. intros i. unfold expired. by rewrite He.
Qed.

End Clients.

(** ** Witnesses: the clients over the engine *)

Section Witnesses.
#[local] Existing Instance HashTable.sum_hash.
#[local] Abbreviation small := StorageEngine.small.
#[local] Abbreviation timed := StorageEngine.timed.

Lemma mset_then_mget_witness :
  let '(s', written) := mset [mkPair "a" "1"; mkPair "b" "2"; mkPair "a" "3"] small in
  written = 3%nat ∧ mget (λ _, 0) ["a"; "b"; "c"] s' = [Some "3"; Some "2"; None].
Proof.
  pose proof (mset_then_mget [mkPair "a" "1"; mkPair "b" "2"; mkPair "a" "3"] ["a"; "b"; "c"]
    (λ _, 0) small StorageEngine.small_ok) as Hm.
  case_match. destruct Hm as (_ & -> & ->). split; reflexivity.
Defined.

(** The key has expired at time 60, so that counting restarts from zero. *)
Lemma increment_spec_witness :
  ∃ s', increment 60 "k" 5 timed ⇓ (s', 5) ∧
    st_view s' = <[ "k" := mkEntry "5" None]> (st_view timed).
Proof.
  pose proof (increment_spec 60 "k" 5 timed StorageEngine.timed_ok) as Hi.
  assert (live 60 (st_view timed !! "k") = None) as Hl by reflexivity.
  rewrite Hl in Hi. destruct Hi as (s' & Hs & _ & Hv). exists s'. split; [exact Hs|exact Hv].
Defined.

Lemma increments_add_up_witness :
  sums_fit 0 [(0, 5); (1, -2); (2, 7)] = true ∧
  ∃ s', increments "c" [(0, 5); (1, -2); (2, 7)] small ⇓ s' ∧ ∀ now, read now "c" s' ⇓ Some 10.
Proof.
  split; [reflexivity|].
  destruct (increments_add_up "c" [(1, -2); (2, 7)] small 0 5 StorageEngine.small_ok)
    as (s' & Hs & _ & Hr & _); [reflexivity..|].
  exists s'. split; [exact Hs|exact Hr].
Defined.

Lemma expire_after_spec_witness :
  expire_after 7 "absent" 3 timed ⇓ (timed, false) ∧
  ∃ s', expire_after 7 "k" 3 timed ⇓ (s', true) ∧
    st_view s' = <[ "k" := mkEntry "v" (Some 3000000007)]> (st_view timed).
Proof.
  split; [exact (expire_after_spec 7 "absent" 3 timed StorageEngine.timed_ok)|].
  pose proof (expire_after_spec 7 "k" 3 timed StorageEngine.timed_ok) as He.
  assert (st_view timed !! "k" = Some (mkEntry "v" (Some 50))) as Hk by reflexivity.
  rewrite Hk in He. assert (deadline 7 3 = Ret 3000000007) as Hd by reflexivity.
  rewrite Hd in He. destruct He as (s' & Hs & _ & Hv). exists s'. split; [exact Hs|exact Hv].
Defined.

Lemma sweep_iteration_counts_witness :
  let '(s', logged) := sweep_iteration (λ _, 60) timed in
  logged = Some 1%nat ∧ (base.size (st_view timed) = base.size (st_view s') + 1)%nat.
Proof.
  pose proof (sweep_iteration_counts (λ _, 60) timed StorageEngine.timed_ok) as Hs.
  assert ((sweep_iteration (λ _, 60) timed).2 = Some 1%nat) as Hl by (vm_compute; reflexivity).
  destruct (sweep_iteration (λ _, 60) timed) as [s' logged]. simpl in Hl. subst logged.
  destruct Hs as (_ & Hc & _). split; [reflexivity|exact Hc].
Defined.

End Witnesses.
