(* ===== verification/Wire.v ===== *)
(** * The wire protocol (src/protocol/command.cpp, parser.cpp, response.cpp)

    Command names, the line parser and the reply encoders.  The parser trims a
    line and splits it at white space; the replies are simple strings, errors,
    integers and length-prefixed bulk strings.  A reference reader of replies,
    [read_reply], states what a client can recover from them. *)

From S2P Require Import Prelude CppStd.

(** ** Commands *)

Inductive CommandType :=
| Unknown | Ping | Get | Set_ | Delete | Exists_ | Expire | Subscribe | Publish | Info
| Mget | Mset | Incr | Decr | Incrby | Scan | Auth | Config | Flushdb | Dbsize | Bgrewriteaof.

#[global] Instance CommandType_eq_dec : EqDecision CommandType.
Proof. solve_decision. Defined.

Record ParsedCommand := mkCommand { type : CommandType; name : string; args : list string }.

Fixpoint upper (s : string) : string :=
  match s with
  | "" => ""
  | String c s' => String (toupper c) (upper s')
  end.

Definition command_type_from_name (nm : string) : CommandType :=
  let key := upper nm in
  if (key =? "PING")%string then Ping
  else if (key =? "GET")%string then Get
  else if (key =? "SET")%string then Set_
  else if (key =? "DEL")%string || (key =? "DELETE")%string then Delete
  else if (key =? "EXISTS")%string then Exists_
  else if (key =? "EXPIRE")%string then Expire
  else if (key =? "SUBSCRIBE")%string then Subscribe
  else if (key =? "PUBLISH")%string then Publish
  else if (key =? "INFO")%string then Info
  else if (key =? "MGET")%string then Mget
  else if (key =? "MSET")%string then Mset
  else if (key =? "INCR")%string then Incr
  else if (key =? "DECR")%string then Decr
  else if (key =? "INCRBY")%string then Incrby
  else if (key =? "SCAN")%string then Scan
  else if (key =? "AUTH")%string then Auth
  else if (key =? "CONFIG")%string then Config
  else if (key =? "FLUSHDB")%string then Flushdb
  else if (key =? "DBSIZE")%string then Dbsize
  else if (key =? "BGREWRITEAOF")%string then Bgrewriteaof
  else Unknown.

(** ** The parser *)

(** [while (start < s.size() && isspace(s[start])) ++start]. *)
Fixpoint scan_start (s : string) : nat :=
  match s with
  | "" => 0
  | String c s' => if isspace c then S (scan_start s') else 0
  end.

(** [while (end > start && isspace(s[end - 1])) --end]. *)
Fixpoint scan_end (s : string) (start e : nat) : nat :=
  match e with
  | O => O
  | S e' =>
      if (start <? e) && match String.get e' s with Some c => isspace c | None => false end
      then scan_end s start e' else e
  end.

Definition trim (s : string) : string :=
  let start := scan_start s in
  let e := scan_end s start (String.length s) in
  substr start (e - start) s.

(** [while (stream >> token) tokens.push_back(token)]; each token takes at least
    one character of the stream. *)
Fixpoint tokenize_fuel (fuel : nat) (stream : string) : list string :=
  match fuel with
  | O => []
  | S fuel' =>
      match extract_token stream with
      | None => []
      | Some (token, rest) => token :: tokenize_fuel fuel' rest
      end
  end.
Definition tokenize (line : string) : list string := tokenize_fuel (S (String.length line)) line.

Definition parse_line (raw : string) : option ParsedCommand :=
  let line := trim raw in
  if (line =? "")%string then None
  else
    match tokenize line with
    | [] => None
    | nm :: rest => Some (mkCommand (command_type_from_name nm) nm rest)
    end.

(** ** Replies *)

Definition ok_response : string := "+OK".
Definition err_response (message : string) : string := "-ERR " +:+ message.
Definition integer_response (v : Z) : string := ":" +:+ to_string v.
Definition bulk_string_response (v : string) : string :=
  "$" +:+ size_to_string (String.length v) +:+ crlf +:+ v.
Definition null_bulk_response : string := "$-1".

(** ** Words *)

(** A reference for the tokenizer: the maximal runs of characters that are not
    white space; [cur] is the run being read. *)
Fixpoint words (cur : string) (s : string) : list string :=
  match s with
  | "" => if (cur =? "")%string then [] else [cur]
  | String c s' =>
      if isspace c then (if (cur =? "")%string then [] else [cur]) ++ words "" s'
      else words (cur +:+ String c "") s'
  end.

Definition blank (s : string) : bool := str_forallb isspace s.
Definition is_token (s : string) : bool :=
  negb (s =? "")%string && str_forallb (λ c, negb (isspace c)) s.

Lemma words_blank_l a s : blank a = true → words "" (a +:+ s) = words "" s.
Proof.
  unfold blank. induction a as [|c a IH]; [done|]. simpl. intros H; bsimp. str_simpl.
  rewrite H. simpl. auto.
Qed.

Lemma words_token_l t cur s :
  str_forallb (λ c, negb (isspace c)) t = true → words cur (t +:+ s) = words (cur +:+ t) s.
Proof.
  revert cur. induction t as [|c t IH]; intros cur H; [by rewrite string_app_nil_r|].
  simpl in H. bsimp. str_simpl. rewrite H, IH by done. f_equal. by rewrite <-string_app_assoc.
Qed.

Lemma words_blank cur b : blank b = true → words cur b = words cur "".
Proof.
  intros Hb. destruct b as [|c b]; [done|]. unfold blank in Hb. simpl in *. bsimp. rewrite H.
  rewrite <-(string_app_nil_r b), words_blank_l by done. simpl. by rewrite app_nil_r.
Qed.

Lemma words_blank_r s cur b : blank b = true → words cur (s +:+ b) = words cur s.
Proof.
  intros Hb. revert cur. induction s as [|c s IH]; intros cur; [by apply words_blank|].
  str_simpl. by rewrite !IH.
Qed.

Lemma words_cut t r :
  t ≠ "" → (∀ c, front r = Some c → isspace c = true) → words t r = t :: words "" r.
Proof.
  intros Ht Hr. assert ((t =? "")%string = false) as Hn by by apply String.eqb_neq.
  destruct r as [|c r]; simpl; [by rewrite Hn|]. rewrite (Hr c) by done. by rewrite Hn.
Qed.

Lemma skip_space_spec s :
  ∃ a, s = a +:+ skip_space s ∧ blank a = true ∧
    ∀ c, front (skip_space s) = Some c → isspace c = false.
Proof.
  unfold skip_space. destruct (str_span isspace s) as [a b] eqn:E.
  apply str_span_spec in E as (-> & Ha & Hb). eauto.
Qed.

Lemma extract_token_None s : extract_token s = None → words "" s = [].
Proof.
  unfold extract_token. destruct (skip_space_spec s) as (a & Hs & Ha & _).
  destruct (skip_space s); [|done]. intros _. rewrite Hs, words_blank_l by done. done.
Qed.

Lemma extract_token_Some s t r :
  extract_token s = Some (t, r) →
  is_token t = true ∧ words "" s = t :: words "" r ∧ String.length r < String.length s.
Proof.
  unfold extract_token. destruct (skip_space_spec s) as (a & Hs & Ha & Hf).
  destruct (skip_space s) as [|c s1] eqn:E; [done|]. intros H.
  apply (inj Some) in H. rewrite Hs.
  assert (isspace c = false) as Hc by by apply Hf.
  apply str_span_spec in H as (H1 & Ht & Hr).
  assert (t ≠ "") as Hne.
  { intros ->. assert (r = String c s1) as -> by done. specialize (Hr c eq_refl). by rewrite Hc in Hr. }
  split_and!.
  - unfold is_token. apply String.eqb_neq in Hne. by rewrite Hne, Ht.
  - rewrite words_blank_l by done. rewrite H1, words_token_l by done. apply words_cut; [done|].
    intros c' Hc'. specialize (Hr c' Hc'). by apply negb_false_iff in Hr.
  - rewrite string_app_length, H1, string_app_length. destruct t; [done|simpl; lia].
Qed.

Lemma tokenize_fuel_words fuel s :
  String.length s < fuel → tokenize_fuel fuel s = words "" s.
Proof.
  revert s. induction fuel as [|fuel IH]; intros s Hl; [lia|]. simpl.
  destruct (extract_token s) as [[t r]|] eqn:E.
  - apply extract_token_Some in E as (_ & -> & Hr). by rewrite IH by lia.
  - by rewrite extract_token_None.
Qed.

(** The loop of [tokenize] ends with all the words of the line. *)
Lemma tokenize_words s : tokenize s = words "" s.
Proof. apply tokenize_fuel_words. lia. Qed.

Lemma tokenize_fuel_tokens fuel s : Forall (λ t, is_token t = true) (tokenize_fuel fuel s).
Proof.
  revert s. induction fuel as [|fuel IH]; intros s; simpl; [constructor|].
  destruct (extract_token s) as [[t r]|] eqn:E; [|constructor].
  apply extract_token_Some in E as (Ht & _). by constructor.
Qed.

(** ** Trimming *)

Lemma get_app_r s t i : String.get (String.length s + i) (s +:+ t) = String.get i t.
Proof. induction s as [|c s IH]; [done|]. str_simpl. done. Qed.

Lemma str_take_snoc n s c :
  String.get n s = Some c → str_take (S n) s = str_take n s +:+ String c "".
Proof.
  revert n. induction s as [|b s IH]; intros [|n] H; simpl in *; simplify_eq; [done|].
  rewrite string_app_cons. f_equal. by apply IH.
Qed.

Lemma get_drop n k s c :
  String.get n s = Some c → k ≤ n → String.get (n - k) (str_drop k s) = Some c.
Proof.
  revert n k. induction s as [|b s IH]; intros [|n] [|k] H Hk; simpl in *; try done; [lia|].
  apply IH; [done|lia].
Qed.

Lemma scan_start_spec s :
  ∃ a r, s = a +:+ r ∧ blank a = true ∧ scan_start s = String.length a ∧
    ∀ c, front r = Some c → isspace c = false.
Proof.
  induction s as [|c s (a & r & Hs & Ha & Hl & Hf)]; [by exists "", ""|]. simpl.
  destruct (isspace c) eqn:Hc.
  - exists (String c a), r. rewrite string_app_cons, <-Hs. unfold blank in *. simpl.
    rewrite Hc, Ha, Hl. done.
  - exists "", (String c s). split_and!; try done. by intros c' [= <-].
Qed.

(** Past the leading white space, the second loop leaves a prefix and cuts off
    white space only. *)
Lemma scan_end_spec a r n :
  n ≤ String.length r →
  ∃ k, k ≤ n ∧ scan_end (a +:+ r) (String.length a) (String.length a + n) = String.length a + k ∧
    blank (str_take (n - k) (str_drop k r)) = true.
Proof.
  revert r. induction n as [|n IH]; intros r Hn.
  - exists 0. rewrite Nat.add_0_r. split_and!; [done| |done].
    destruct (String.length a) as [|l]; [done|]. cbn [scan_end].
    by rewrite Nat.ltb_irrefl.
  - rewrite Nat.add_succ_r. cbn [scan_end].
    rewrite (proj2 (Nat.ltb_lt _ _)) by lia. rewrite get_app_r. cbn [andb].
    destruct (String.get n r) as [c|] eqn:Hg; [|exists (S n)].
    + destruct (isspace c) eqn:Hc; [|exists (S n)].
      * destruct (IH r) as (k & Hk & He & Hb); [lia|]. exists k. split_and!; [lia|done|].
        rewrite Nat.sub_succ_l by done. unfold blank in *.
        rewrite (str_take_snoc _ _ c) by (by apply get_drop). rewrite str_forallb_app, Hb. simpl.
        by rewrite Hc.
      * split_and!; [lia|done|]. by rewrite Nat.sub_diag.
    + split_and!; [lia|done|]. by rewrite Nat.sub_diag.
Qed.

Lemma trim_words s : words "" (trim s) = words "" s.
Proof.
  destruct (scan_start_spec s) as (a & r & -> & Ha & Hl & _). unfold trim. rewrite Hl.
  rewrite string_app_length.
  destruct (scan_end_spec a r (String.length r)) as (k & Hk & -> & Hb); [done|].
  replace (String.length a + k - String.length a) with k by lia. unfold substr.
  rewrite str_drop_app, words_blank_l by done.
  rewrite <-(str_take_drop k r) at 2. rewrite words_blank_r; [done|].
  rewrite <-(str_take_all (str_drop k r)), str_drop_length. done.
Qed.

Lemma parse_line_words s :
  parse_line s =
  match words "" s with
  | [] => None
  | nm :: rest => Some (mkCommand (command_type_from_name nm) nm rest)
  end.
Proof.
  unfold parse_line. rewrite <-(trim_words s), tokenize_words.
  destruct (String.eqb_spec (trim s) "") as [->|]; done.
Qed.

(** ** Properties of the parser *)

(** A line made of words, each preceded by white space, and trailing white space. *)
Fixpoint layout (l : list (string * string)) (trail : string) : string :=
  match l with
  | [] => trail
  | (w, t) :: l' => w +:+ t +:+ layout l' trail
  end.

Definition layout_ok (l : list (string * string)) : bool :=
  forallb (λ '(w, t), blank w && is_token t && negb (w =? "")%string) l.

Lemma layout_words t l trail :
  is_token t = true → layout_ok l = true → blank trail = true →
  words "" (t +:+ layout l trail) = t :: (l.*2).
Proof.
  intros Ht Hl Hb. revert t Ht Hl. induction l as [|[w u] l IH]; intros t Ht Hl; simpl.
  - rewrite words_blank_r by done. unfold is_token in Ht. bsimp.
    rewrite <-(string_app_nil_r t), words_token_l by done. change ("" +:+ t) with t. simpl.
    rewrite string_app_nil_r. by rewrite (proj2 (String.eqb_neq t "")).
  - simpl in Hl. bsimp. rename H into Hw. unfold is_token in Ht. bsimp.
    rewrite words_token_l by done. change ("" +:+ t) with t. rewrite words_cut; [|done|].
    + f_equal. rewrite words_blank_l by done. by apply IH.
    + destruct w as [|c w]; [done|]. rewrite string_app_cons. intros ? [= <-].
      unfold blank in Hw. simpl in Hw. by bsimp.
Qed.

(** C33: parsing inverts printing: a line whose words are separated by any white
    space, with any white space around it, parses to the command of its first
    word with the other words as arguments, in order. *)
Theorem parse_line_layout w nm l trail :
  blank w = true → is_token nm = true → layout_ok l = true → blank trail = true →
  parse_line (w +:+ nm +:+ layout l trail) =
  Some (mkCommand (command_type_from_name nm) nm (l.*2)).
Proof.
  intros Hw Hn Hl Ht. rewrite parse_line_words, words_blank_l by done.
  by rewrite layout_words.
Qed.

Lemma parse_line_layout_witness :
  parse_line (" " +:+ "set" +:+ layout [("  ", "k"); (" ", "a"); (" ", "b")] crlf) =
  Some (mkCommand Set_ "set" ["k"; "a"; "b"]).
Proof. apply (parse_line_layout " " "set" [("  ", "k"); (" ", "a"); (" ", "b")] crlf); reflexivity. Defined.

Lemma words_nil s cur : words cur s = [] ↔ cur = "" ∧ blank s = true.
Proof.
  revert cur. induction s as [|c s IH]; intros cur; unfold blank in *; simpl.
  - destruct (String.eqb_spec cur ""); naive_solver.
  - destruct (isspace c); simpl.
    + destruct (String.eqb_spec cur ""); simpl; [rewrite IH; naive_solver|naive_solver].
    + rewrite IH. destruct cur; rewrite ?string_app_cons; naive_solver.
Qed.

(** The parser is total and rejects exactly the blank lines; every word of
    the command it returns is non-empty and free of white space, and its type is
    that of its name. *)
Theorem parse_line_total s :
  (parse_line s = None ↔ blank s = true) ∧
  ∀ cmd, parse_line s = Some cmd →
    type cmd = command_type_from_name (name cmd) ∧
    Forall (λ t, is_token t = true) (name cmd :: args cmd).
Proof.
  split.
  - rewrite parse_line_words. pose proof (words_nil s "") as Hn.
    destruct (words "" s); naive_solver.
  - intros cmd H. rewrite parse_line_words, <-tokenize_words in H.
    pose proof (tokenize_fuel_tokens (S (String.length s)) s) as Hf. fold (tokenize s) in Hf.
    destruct (tokenize s); simplify_eq. done.
Qed.

(** ** A reference reader of replies *)

(** A decimal number: digits and signs, and what follows them. *)
Definition number_char (c : ascii) : bool :=
  match digit_val c with Some _ => true | None => Ascii.eqb c "-"%char end.

Definition read_number (s : string) : option (Z * string) :=
  let '(digits, rest) := str_span number_char s in
  match scan_integer digits with
  | Some (neg, m) => Some (signed neg m, rest)
  | None => None
  end.

(** The rest of [s] after the prefix [p]. *)
Definition expect (p s : string) : option string :=
  if starts_with p s then Some (str_drop (String.length p) s) else None.

(** A bulk string: a length, a line break and that many bytes; the length -1
    stands for no value. *)
Definition read_bulk (s : string) : option (option string * string) :=
  s ← expect "$" s;
  '(n, s) ← read_number s;
  if (n <? 0)%Z then Some (None, s)
  else
    s ← expect crlf s;
    if String.length s <? Z.to_nat n then None
    else Some (Some (str_take (Z.to_nat n) s), str_drop (Z.to_nat n) s).

(** [n] bulk strings, each followed by a line break. *)
Fixpoint read_bulks (n : nat) (s : string) : option (list (option string) * string) :=
  match n with
  | O => Some ([], s)
  | S n' =>
      '(v, s) ← read_bulk s;
      s ← expect crlf s;
      '(vs, s) ← read_bulks n' s;
      Some (v :: vs, s)
  end.

Definition read_array (s : string) : option (list (option string) * string) :=
  s ← expect "*" s;
  '(n, s) ← read_number s;
  s ← expect crlf s;
  read_bulks (Z.to_nat n) s.

Definition read_integer (s : string) : option (Z * string) :=
  s ← expect ":" s; read_number s.

(** Reduce the binds of the option monad on known results. *)
#[local] Ltac osimp := cbn [mbind option_bind].

Lemma expect_app p s : expect p (p +:+ s) = Some s.
Proof.
  unfold expect. rewrite (proj2 (starts_with_spec p (p +:+ s))) by eauto.
  by rewrite str_drop_app.
Qed.

Lemma read_number_to_string z rest :
  (∀ c, front rest = Some c → number_char c = false) →
  read_number (to_string z +:+ rest) = Some (z, rest).
Proof.
  intros Hr. unfold read_number. rewrite str_span_app; [|apply to_string_forallb; [|done]|done].
  - by rewrite scan_integer_to_string, signed_abs.
  - intros d Hd. unfold number_char. by rewrite digit_val_char.
Qed.

Lemma size_to_string_Z n : size_to_string n = to_string (Z.of_nat n).
Proof. done. Qed.

Lemma crlf_front s c : front (crlf +:+ s) = Some c → number_char c = false.
Proof. by intros [= <-]. Qed.

Lemma read_bulk_response v rest :
  read_bulk (bulk_string_response v +:+ rest) = Some (Some v, rest).
Proof.
  unfold bulk_string_response, read_bulk. rewrite <-!string_app_assoc, expect_app. osimp.
  rewrite size_to_string_Z, read_number_to_string by apply crlf_front. osimp.
  rewrite (proj2 (Z.ltb_ge _ _)) by lia. rewrite expect_app. osimp.
  rewrite Nat2Z.id, string_app_length, (proj2 (Nat.ltb_ge _ _)) by lia.
  by rewrite str_take_app, str_drop_app.
Qed.

Lemma read_bulk_null rest :
  (∀ c, front rest = Some c → number_char c = false) →
  read_bulk (null_bulk_response +:+ rest) = Some (None, rest).
Proof.
  intros Hr. unfold read_bulk, null_bulk_response.
  change ("$-1" +:+ rest) with ("$" +:+ (to_string (-1) +:+ rest)). rewrite expect_app. osimp.
  by rewrite read_number_to_string.
Qed.

(** The encoding of an optional value in an array. *)
Definition bulk_of (v : option string) : string :=
  match v with Some x => bulk_string_response x | None => null_bulk_response end.

Definition bulk_lines (vs : list (option string)) : string :=
  foldr (λ v out, bulk_of v +:+ crlf +:+ out) "" vs.

Lemma read_bulks_lines vs rest :
  read_bulks (length vs) (bulk_lines vs +:+ rest) = Some (vs, rest).
Proof.
  induction vs as [|v vs IH]; [done|]. cbn [length read_bulks bulk_lines foldr].
  rewrite <-!string_app_assoc.
  assert (read_bulk (bulk_of v +:+ (crlf +:+ (bulk_lines vs +:+ rest))) =
    Some (v, crlf +:+ (bulk_lines vs +:+ rest))) as Hv.
  { destruct v; [apply read_bulk_response|apply read_bulk_null, crlf_front]. }
  unfold bulk_lines in Hv, IH. rewrite Hv. osimp. rewrite expect_app. osimp. by rewrite IH.
Qed.

Lemma read_array_lines vs rest :
  read_array ("*" +:+ size_to_string (length vs) +:+ crlf +:+ bulk_lines vs +:+ rest) =
  Some (vs, rest).
Proof.
  unfold read_array. rewrite expect_app. osimp.
  rewrite size_to_string_Z, read_number_to_string by apply crlf_front. osimp.
  rewrite expect_app. osimp. rewrite Nat2Z.id. apply read_bulks_lines.
Qed.

(** Replies can be read back: a client recovers the integer of an integer
    reply, and the exact bytes of a bulk reply whatever they are (line breaks
    included), with what follows left unread; a null reply is told apart from
    every value. *)
Theorem replies_read_back :
  (∀ z rest, (∀ c, front rest = Some c → number_char c = false) →
     read_integer (integer_response z +:+ rest) = Some (z, rest)) ∧
  (∀ v rest, read_bulk (bulk_string_response v +:+ rest) = Some (Some v, rest)) ∧
  (∀ v, bulk_string_response v ≠ null_bulk_response).
Proof.
  split_and!.
  - intros z rest Hr. unfold read_integer, integer_response. rewrite <-string_app_assoc, expect_app.
    osimp. by apply read_number_to_string.
  - intros. apply read_bulk_response.
  - intros v Heq. pose proof (read_bulk_response v "") as Hv.
    rewrite string_app_nil_r, Heq in Hv. by vm_compute in Hv.
Qed.
