(* ===== verification/Persistence.v ===== *)
(** * Persistence (src/persistence/, src/storage/storage_hooks.cpp)

    The append-only log, the snapshot writer and loader, and the hooks that log
    what they do to the storage.  The file system is a map from paths to
    contents; which opens, removals and renames succeed is an argument of the
    operations that depend on it.  A line written to the open log is taken to reach
    the file; the output of a snapshot may fail after some bytes.

    The theorems say what a restart recovers: the log of a run of hooked
    operations, a rewritten log and a snapshot all restore the keys and values
    of the storage, without their deadlines, provided keys and values do not
    contain the characters the formats use as separators. *)

From S2P Require Import Prelude CppStd Memory Table Scanner Engine.

(** ** Files *)

Abbreviation Disk := (gmap string string).

(** What the operating system lets the program do. *)
Record Io := mkIo {
  can_open : string → bool;     (** open for writing *)
  can_read : string → bool;     (** open for reading *)
  can_remove : bool;            (** [std::filesystem::remove] *)
  can_rename : bool             (** [std::filesystem::rename] *)
}.

(** [std::filesystem::path::operator/] with a relative right-hand side. *)
Definition path_join (dir file : string) : string :=
  if (dir =? "")%string then file
  else if bool_decide (back dir = Some "/"%char) then dir +:+ file
  else dir +:+ "/" +:+ file.

(** The lines a loop [while (std::getline(in, line))] reads. *)
Fixpoint lines_fuel (fuel : nat) (stream : string) : list string :=
  match fuel with
  | O => []
  | S fuel' =>
      match getline stream with
      | None => []
      | Some (line, rest) => line :: lines_fuel fuel' rest
      end
  end.
Definition lines (stream : string) : list string := lines_fuel (S (String.length stream)) stream.

Definition unlines (ls : list string) : string := foldr (λ l out, l +:+ lf +:+ out) "" ls.

Section Persistence.
Context {S : Type} `{StorageLaws S}.

(** ** AofLog *)

Record AofLog := mkAof { log_path_ : string; stream_open : bool }.

(** Opening in append mode creates the file when it is missing. *)
Definition open_append (path : string) (disk : Disk) : Disk :=
  <[path := default "" (disk !! path)]> disk.

Definition aof_make (io : Io) (data_dir : string) (disk : Disk) : AofLog * Disk :=
  let path := path_join data_dir "append.aof" in
  if can_open io path then (mkAof path true, open_append path disk)
  else (mkAof path false, disk).

Definition aof_write_line (io : Io) (line : string) (a : AofLog) (disk : Disk) : AofLog * Disk :=
  let '(a, disk) :=
    if negb (stream_open a) then
      if can_open io (log_path_ a) then
        (mkAof (log_path_ a) true, open_append (log_path_ a) disk)
      else (a, disk)
    else (a, disk) in
  if stream_open a then
    (a, <[log_path_ a := default "" (disk !! log_path_ a) +:+ line +:+ lf]> disk)
  else (a, disk).

Definition set_line (key value : string) : string := "SET " +:+ key +:+ " " +:+ value.
Definition del_line (key : string) : string := "DEL " +:+ key.

Definition append_set (io : Io) (key value : string) (a : AofLog) (disk : Disk) : AofLog * Disk :=
  aof_write_line io (set_line key value) a disk.

Definition append_del (io : Io) (key : string) (a : AofLog) (disk : Disk) : AofLog * Disk :=
  aof_write_line io (del_line key) a disk.

(** The body of the loop of [replay]. *)
Definition replay_line (s : S) (line : string) : S :=
  if starts_with "SET " line then
    match Nat.add 4 <$> find_char space (str_drop 4 line) with
    | None => s
    | Some sep => (st_set (substr 4 (sep - 4) line) (str_drop (sep + 1) line) s).1
    end
  else if starts_with "DEL " line then (st_remove (str_drop 4 line) s).1
  else s.

Definition replay (io : Io) (a : AofLog) (disk : Disk) (s : S) : S * bool :=
  match disk !! log_path_ a with
  | Some content =>
      if can_read io (log_path_ a) then (foldl replay_line s (lines content), true)
      else (s, false)
  | None => (s, false)
  end.

Definition rewrite_content (entries : list (string * string)) : string :=
  "AOFREWRITE_V1" +:+ lf +:+ unlines ((λ e, set_line e.1 e.2) <$> entries).

Definition rewrite_from (io : Io) (s : S) (a : AofLog) (disk : Disk) : AofLog * Disk * bool :=
  let temp_path := log_path_ a +:+ ".rewrite" in
  if negb (can_open io temp_path) then (a, disk, false)
  else
    let content := rewrite_content (st_dump s) in
    let disk := <[temp_path := content]> disk in
    let disk := if can_remove io then delete (log_path_ a) disk else disk in
    if can_rename io then
      let disk := <[log_path_ a := content]> (delete temp_path disk) in
      if can_open io (log_path_ a) then (mkAof (log_path_ a) true, disk, true)
      else (mkAof (log_path_ a) false, disk, true)
    else (mkAof (log_path_ a) false, disk, false).

Definition bytes_on_disk (a : AofLog) (disk : Disk) : nat :=
  match disk !! log_path_ a with
  | None => 0
  | Some content => String.length content
  end.

(** ** Snapshots *)

Definition snapshot_path (data_dir : string) : string := path_join data_dir "snapshot.vdb".

Definition snapshot_content (pairs : list (string * string)) : string :=
  "VOLTDBX_SNAPSHOT_V1" +:+ lf +:+ size_to_string (length pairs) +:+ lf +:+
  foldr (λ p out, p.1 +:+ lf +:+ p.2 +:+ lf +:+ out) "" pairs.

(** [SnapshotWriter::write].  [failure] says how the output fares: [None] when all of it
    reaches the file; [Some (n, good)] when only the first [n] bytes do, with what
    [out.good()] answers, which is true when the failure is that of the last flush, by
    the destructor of [out]. *)
Definition snapshot_attempt (failure : option (nat * bool)) (io : Io) (path : string) (s : S) (disk : Disk)
    : Disk * bool :=
  if negb (can_open io path) then (disk, false)
  else
    let content := snapshot_content (st_dump s) in
    match failure with
    | None => (<[path := content]> disk, true)
    | Some (n, good) => (<[path := str_take n content]> disk, good)
    end.

(** A write whose output does not fail. *)
Definition snapshot_write (io : Io) (path : string) (s : S) (disk : Disk) : Disk * bool :=
  snapshot_attempt None io path s disk.

Definition has_snapshot (path : string) (disk : Disk) : bool :=
  bool_decide (is_Some (disk !! path)).

(** The loop of [load_into]; a failed [getline] ends it.  Each round takes two
    lines of the stream, which bounds the number of rounds besides [count]. *)
Fixpoint load_pairs (fuel : nat) (count : Z) (stream : string) (s : S) : S :=
  match fuel with
  | O => s
  | Datatypes.S fuel' =>
      if (0 <? count)%Z then
        match getline stream with
        | None => s
        | Some (key, stream) =>
            match getline stream with
            | None => s
            | Some (value, stream) => load_pairs fuel' (count - 1) stream (st_set key value s).1
            end
        end
      else s
  end.

(** A [getline] at the end of the stream leaves the empty string. *)
Definition getline_or_empty (stream : string) : string * string :=
  default ("", "") (getline stream).

Definition load_into (io : Io) (path : string) (disk : Disk) (s : S) : S * bool :=
  match disk !! path with
  | None => (s, false)
  | Some content =>
      if negb (can_read io path) then (s, false)
      else
        let '(header, stream) := getline_or_empty content in
        if negb (header =? "VOLTDBX_SNAPSHOT_V1")%string then (s, false)
        else
          let '(count_line, stream) := getline_or_empty stream in
          (load_pairs (Datatypes.S (String.length stream)) (extract_size count_line) stream s, true)
  end.

(** ** StorageHooks *)

Definition hook_set (io : Io) (key value : string) (s : S) (a : AofLog) (disk : Disk)
    : S * AofLog * Disk * bool :=
  let '(s, ok) := st_set key value s in
  if ok : bool then let '(a, disk) := append_set io key value a disk in (s, a, disk, ok)
  else (s, a, disk, ok).

Definition hook_remove (io : Io) (key : string) (s : S) (a : AofLog) (disk : Disk)
    : S * AofLog * Disk * bool :=
  let '(s, ok) := st_remove key s in
  if ok : bool then let '(a, disk) := append_del io key a disk in (s, a, disk, ok)
  else (s, a, disk, ok).

(** ** Lines *)

Definition no_newline (s : string) : bool := str_forallb (λ c, negb (Ascii.eqb c newline)) s.
Definition no_space (s : string) : bool := str_forallb (λ c, negb (Ascii.eqb c space)) s.

Lemma getline_shorter s l r : getline s = Some (l, r) → String.length r < String.length s.
Proof.
  unfold getline. destruct s as [|c s]; [done|]. destruct (str_span _ (String c s)) as [a b] eqn:E.
  intros Heq. assert (r = str_drop 1 b) as -> by congruence. apply str_span_spec in E as (Hs & _ & Hb).
  rewrite str_drop_length, Hs, string_app_length. destruct b as [|c' b]; simpl; [|lia].
  destruct a; [done|simpl; lia].
Qed.

Lemma lines_fuel_enough n m s :
  String.length s < n → String.length s < m → lines_fuel n s = lines_fuel m s.
Proof.
  revert m s. induction n as [|n IH]; intros [|m] s Hn Hm; try lia. simpl.
  destruct (getline s) as [[l r]|] eqn:E; [|done].
  apply getline_shorter in E. f_equal. apply IH; lia.
Qed.

Lemma lines_cons l rest : no_newline l = true → lines (l +:+ lf +:+ rest) = l :: lines rest.
Proof.
  intros Hl. unfold lines at 1. cbn [lines_fuel]. rewrite getline_app by done.
  f_equal. apply lines_fuel_enough; [|lia]. rewrite !string_app_length. simpl. lia.
Qed.

Lemma lines_unlines ls rest :
  Forall (λ l, no_newline l = true) ls → lines (unlines ls +:+ rest) = ls ++ lines rest.
Proof.
  induction 1 as [|l ls Hl _ IH]; [done|]. cbn [unlines foldr].
  rewrite <-!string_app_assoc, lines_cons by done. simpl. f_equal. exact IH.
Qed.

Lemma unlines_app ls ls' : unlines (ls ++ ls') = unlines ls +:+ unlines ls'.
Proof.
  induction ls as [|l ls IH]; [done|]. cbn [unlines foldr app] in *.
  unfold unlines in *. by rewrite IH, <-!string_app_assoc.
Qed.

(** ** Replaying lines *)

Lemma replay_set_line k v s :
  no_space k = true → replay_line s (set_line k v) = (st_set k v s).1.
Proof.
  intros Hk. unfold replay_line, set_line.
  rewrite (proj2 (starts_with_spec "SET " _)) by (by eexists).
  change (str_drop 4 ("SET " +:+ ?x)) with x. change (" " +:+ v) with (String space v).
  rewrite find_char_app by done. cbn [fmap option_fmap option_map]. unfold substr.
  change (str_drop 4 ("SET " +:+ ?x)) with x. rewrite Nat.add_comm, Nat.add_sub, str_take_app.
  f_equal. f_equal. replace (String.length k + 4 + 1) with (4 + (String.length k + 1)) by lia.
  change (str_drop (4 + ?n) ("SET " +:+ ?x)) with (str_drop n x). apply str_drop_sep.
Qed.

Lemma replay_del_line k s : replay_line s (del_line k) = (st_remove k s).1.
Proof. done. Qed.

Lemma replay_other_line s : replay_line s "AOFREWRITE_V1" = s.
Proof. done. Qed.

(** ** What the formats keep of a storage *)

(** Keys and values without deadlines. *)
Definition persisted (m : gmap string StorageEntry) : gmap string StorageEntry :=
  (λ e, mkEntry (value e) None) <$> m.

(** Entries written one after the other. *)
Definition restore (entries : list (string * string)) (m : gmap string StorageEntry) :=
  foldl (λ m e, <[e.1 := mkEntry e.2 None]> m) m entries.

Definition set_all (entries : list (string * string)) (s : S) : S :=
  foldl (λ s e, (st_set e.1 e.2 s).1) s entries.

Lemma set_all_spec entries s :
  st_ok s → st_ok (set_all entries s) ∧ st_view (set_all entries s) = restore entries (st_view s).
Proof.
  revert s. induction entries as [|[k v] l IH]; intros s Hok; [done|].
  destruct (IH (st_set k v s).1) as [Ha Hv]; [by apply set_ok|]. split; [done|].
  unfold set_all, restore in *. simpl. by rewrite Hv, set_view.
Qed.

Lemma restore_list_to_map entries m :
  restore entries m =
  list_to_map (reverse ((λ e, (e.1, mkEntry e.2 None)) <$> entries)) ∪ m.
Proof.
  unfold restore. induction entries as [|e l IH] using rev_ind; [symmetry; apply (left_id_L ∅ (∪))|].
  rewrite foldl_app, fmap_app, reverse_app, IH. simpl. by rewrite <-insert_union_l.
Qed.

(** The dump of a storage restores it in whatever order it comes. *)
Lemma restore_dump entries m :
  entries ≡ₚ prod_map id value <$> map_to_list m → restore entries ∅ = persisted m.
Proof.
  intros Hp. rewrite restore_list_to_map, (right_id_L ∅ (∪)).
  set (f := λ e : StorageEntry, mkEntry (value e) None).
  assert (reverse ((λ e, (e.1, mkEntry e.2 None)) <$> entries) ≡ₚ prod_map id f <$> map_to_list m) as Hl.
  { rewrite reverse_Permutation, Hp, <-list_fmap_compose. done. }
  transitivity (list_to_map (M:=gmap string StorageEntry) (prod_map id f <$> map_to_list m));
    [|by rewrite list_to_map_fmap, list_to_map_to_list].
  symmetry. apply list_to_map_proper; [|by rewrite Hl].
  rewrite <-list_fmap_compose. apply (NoDup_fst_map_to_list m).
Qed.

(** Keys and values the text formats can hold. *)
Definition clean (m : gmap string StorageEntry) : Prop :=
  map_Forall (λ k e, no_space k && no_newline k && no_newline (value e) = true) m.

Lemma clean_dump entries m :
  entries ≡ₚ prod_map id value <$> map_to_list m → clean m →
  Forall (λ e, no_space e.1 && no_newline e.1 && no_newline e.2 = true) entries.
Proof.
  intros Hp Hc. rewrite Hp. apply Forall_fmap, Forall_forall.
  intros [k e] Hin%elem_of_map_to_list. apply (Hc k e Hin).
Qed.

Lemma set_line_no_newline k v :
  no_newline k = true → no_newline v = true → no_newline (set_line k v) = true.
Proof.
  intros Hk Hv. unfold set_line, no_newline in *. rewrite !str_forallb_app, Hk, Hv. done.
Qed.

Lemma del_line_no_newline k : no_newline k = true → no_newline (del_line k) = true.
Proof. intros Hk. unfold del_line, no_newline in *. by rewrite str_forallb_app, Hk. Qed.

Lemma replay_set_lines entries s :
  Forall (λ e, no_space e.1 && no_newline e.1 && no_newline e.2 = true) entries →
  foldl replay_line s ((λ e, set_line e.1 e.2) <$> entries) = set_all entries s ∧
  Forall (λ l, no_newline l = true) ((λ e, set_line e.1 e.2) <$> entries).
Proof.
  intros Hf. revert s. induction Hf as [|[k v] l Hkv _ IH]; intros s; [done|].
  csimpl. simpl in Hkv. bsimp. rewrite replay_set_line by done.
  destruct (IH (st_set k v s).1) as [-> Hl]. split; [done|].
  constructor; [by apply set_line_no_newline|done].
Qed.

(** ** Durability of the log *)

(** A log file that restores the storage when it is replayed. *)
Definition restores (content : string) (m : gmap string StorageEntry) : Prop :=
  ∃ ls, content = unlines ls ∧ Forall (λ l, no_newline l = true) ls ∧
    ∀ s0, st_ok s0 → st_view s0 = ∅ →
      st_ok (foldl replay_line s0 ls) ∧ st_view (foldl replay_line s0 ls) = persisted m.

Definition durable (st : S * AofLog * Disk) : Prop :=
  let '(s, a, disk) := st in
  st_ok s ∧ clean (st_view s) ∧ stream_open a = true ∧
  ∃ content, disk !! log_path_ a = Some content ∧ restores content (st_view s).

(** What a process does that changes the storage through the hooks, gives keys deadlines,
    and rewrites its log, each rewrite with the answers it gets from the system. *)
Inductive HookOp :=
| HookSet (key value : string)
| HookRemove (key : string)
| HookExpire (now : time_point) (key : string) (ttl_seconds : Z)
| HookRewrite (io' : Io).

Definition hook_apply (io : Io) (st : S * AofLog * Disk) (op : HookOp) : Outcome (S * AofLog * Disk) :=
  let '(s, a, disk) := st in
  match op with
  | HookSet k v => let '(s, a, disk, _) := hook_set io k v s a disk in Ret (s, a, disk)
  | HookRemove k => let '(s, a, disk, _) := hook_remove io k s a disk in Ret (s, a, disk)
  | HookExpire now k ttl => '(s, _) ← st_set_ttl now k ttl s; Ret (s, a, disk)
  | HookRewrite io' => let '(a, disk, _) := rewrite_from io' s a disk in Ret (s, a, disk)
  end.

(** What the log format can record, and the rewrites that keep the log: those that do
    not get as far as removing it, and those that put the new one in its place. *)
Definition recordable (path : string) (op : HookOp) : bool :=
  match op with
  | HookSet k v => no_space k && no_newline k && no_newline v
  | HookRewrite io' => negb (can_open io' (path +:+ ".rewrite")) || can_rename io' && can_open io' path
  | _ => true
  end.

Lemma restores_snoc content m m' line :
  restores content m → no_newline line = true →
  (∀ s, st_ok s → st_view s = persisted m →
     st_ok (replay_line s line) ∧ st_view (replay_line s line) = persisted m') →
  restores (content +:+ line +:+ lf) m'.
Proof.
  intros (ls & -> & Hls & Hr) Hl Hstep. exists (ls ++ [line]). split_and!.
  - rewrite unlines_app. cbn [unlines foldr]. by rewrite string_app_nil_r.
  - apply Forall_app. by rewrite Forall_singleton.
  - intros s0 Hok Hv. rewrite foldl_app. simpl. destruct (Hr s0 Hok Hv). by apply Hstep.
Qed.

Lemma write_line_open io line a disk content :
  stream_open a = true → disk !! log_path_ a = Some content →
  aof_write_line io line a disk = (a, <[log_path_ a := content +:+ line +:+ lf]> disk).
Proof. intros Ho Hd. unfold aof_write_line. rewrite Ho. simpl. by rewrite Ho, Hd. Qed.

Lemma persisted_insert m k v :
  persisted (<[k := mkEntry v None]> m) = <[k := mkEntry v None]> (persisted m).
Proof. unfold persisted. by rewrite fmap_insert. Qed.

Lemma persisted_delete m k : persisted (delete k m) = delete k (persisted m).
Proof. unfold persisted. by rewrite fmap_delete. Qed.

Lemma persisted_retimed m k at_ : persisted (retimed k at_ m) = persisted m.
Proof.
  unfold persisted, retimed. apply map_eq. intros k'. rewrite !lookup_fmap, lookup_alter.
  case_decide; subst; [|done]. by destruct (m !! k').
Qed.

Lemma durable_set io k v s a disk s' a' disk' ok :
  durable (s, a, disk) → no_space k && no_newline k && no_newline v = true →
  hook_set io k v s a disk = (s', a', disk', ok) → durable (s', a', disk').
Proof.
  intros (Hok & Hc & Ho & content & Hd & Hr) Hkv. unfold hook_set, append_set.
  pose proof (set_true k v s) as Ht. pose proof (set_view k v s Hok) as Hv.
  pose proof (set_ok k v s Hok) as Hok'. destruct (st_set k v s) as [s1 b]. simpl in Ht, Hv, Hok'.
  subst b. rewrite (write_line_open io _ a disk content) by done. intros [= <- <- <- <-].
  split_and!; [done| |done|].
  - rewrite Hv. by apply map_Forall_insert_2.
  - eexists. rewrite lookup_insert_eq. split; [done|]. bsimp.
    eapply restores_snoc; [done|by apply set_line_no_newline|]. intros s2 Hs2 Hv2.
    rewrite replay_set_line by done. split; [by apply set_ok|].
    by rewrite set_view, Hv2, Hv, persisted_insert.
Qed.

Lemma durable_remove io k s a disk s' a' disk' ok :
  durable (s, a, disk) → hook_remove io k s a disk = (s', a', disk', ok) → durable (s', a', disk').
Proof.
  intros (Hok & Hc & Ho & content & Hd & Hr). unfold hook_remove, append_del.
  pose proof (remove_result k s Hok) as Ht. pose proof (remove_view k s Hok) as Hv.
  pose proof (remove_ok k s Hok) as Hok'. destruct (st_remove k s) as [s1 b].
  simpl in Ht, Hv, Hok'. subst b. case_bool_decide as Hk.
  - destruct Hk as [e Hk]. pose proof (Hc k e Hk) as Hkc. simpl in Hkc. bsimp.
    rewrite (write_line_open io _ a disk content) by done. intros [= <- <- <- <-].
    split_and!; [done| |done|]; [rewrite Hv; by apply map_Forall_delete|].
    eexists. rewrite lookup_insert_eq. split; [done|].
    eapply restores_snoc; [done|by apply del_line_no_newline|]. intros s2 Hs2 Hv2.
    rewrite replay_del_line. split; [by apply remove_ok|].
    by rewrite remove_view, Hv2, Hv, persisted_delete.
  - intros [= <- <- <- <-]. rewrite delete_id in Hv by (by apply eq_None_not_Some).
    split_and!; [done|by rewrite Hv|done|]. exists content. by rewrite Hv.
Qed.

Lemma clean_persisted m m' : persisted m = persisted m' → clean m → clean m'.
Proof.
  intros Hp Hc k e He. assert (persisted m !! k = Some (mkEntry (value e) None)) as Hk.
  { rewrite Hp. unfold persisted. by rewrite lookup_fmap, He. }
  unfold persisted in Hk. rewrite lookup_fmap in Hk. apply fmap_Some in Hk as (e' & He' & [= Hve]).
  rewrite Hve. apply (Hc k e' He').
Qed.

Lemma restores_persisted content m m' :
  persisted m = persisted m' → restores content m → restores content m'.
Proof. intros Hp (ls & Hls). exists ls. by rewrite <-Hp. Qed.

Lemma set_ttl_persisted now k ttl s s' ok :
  st_ok s → st_set_ttl now k ttl s ⇓ (s', ok) →
  st_ok s' ∧ persisted (st_view s) = persisted (st_view s').
Proof.
  intros Hok He. destruct (st_view s !! k) as [e|] eqn:Hk.
  - destruct (set_ttl_present now k ttl s e Hok Hk) as (f & Hf & Hs). rewrite Hf in He.
    apply bind_Ret in He as (at_ & _ & [= <- <-]). destruct (Hs at_) as [Hok' ->].
    by rewrite persisted_retimed.
  - rewrite set_ttl_absent in He by done. by simplify_eq.
Qed.

Lemma durable_rewrite io s a disk a' disk' ok :
  recordable (log_path_ a) (HookRewrite io) = true → durable (s, a, disk) →
  rewrite_from io s a disk = (a', disk', ok) → durable (s, a', disk') ∧ log_path_ a' = log_path_ a.
Proof.
  simpl. intros Hrec Hdur. pose proof Hdur as (Hok & Hc & Ho & content & Hd & Hr). unfold rewrite_from.
  destruct (can_open io (log_path_ a +:+ ".rewrite")); simpl in *; [|by intros [= <- <- <-]].
  apply andb_true_iff in Hrec as [-> ->].
  intros [= <- <- <-].
  split; [|done]. split_and!; [done|done|done|]. eexists. rewrite lookup_insert_eq. split; [done|].
  pose proof (dump_view s Hok) as Hdump. pose proof (clean_dump _ _ Hdump Hc) as Hcl.
  exists ("AOFREWRITE_V1" :: ((λ e, set_line e.1 e.2) <$> st_dump s)). split_and!; [done| |].
  - constructor; [done|]. by apply (replay_set_lines _ s).
  - intros s0 Hok0 Hv0. cbn [foldl]. rewrite replay_other_line.
    rewrite (proj1 (replay_set_lines _ s0 Hcl)). destruct (set_all_spec (st_dump s) s0 Hok0) as [Ha ->].
    split; [done|]. rewrite Hv0. by apply restore_dump.
Qed.

Lemma hook_apply_durable io st op st' :
  recordable (log_path_ st.1.2) op = true → durable st → hook_apply io st op ⇓ st' →
  durable st' ∧ log_path_ st'.1.2 = log_path_ st.1.2.
Proof.
  destruct st as [[s a] disk]. intros Hrec Hd. destruct op as [k v|k|now k ttl|io']; cbn [hook_apply fst snd] in *.
  - destruct (hook_set io k v s a disk) as [[[s1 a1] d1] ok] eqn:E. intros [= <-]. split; [by eapply durable_set|].
    unfold hook_set, append_set, aof_write_line in E. destruct (st_set k v s) as [s2 []]; [|by simplify_eq].
    destruct Hd as (_ & _ & Ho & _). rewrite Ho in E. simpl in E. rewrite Ho in E. by simplify_eq.
  - destruct (hook_remove io k s a disk) as [[[s1 a1] d1] ok] eqn:E. intros [= <-]. split; [by eapply durable_remove|].
    unfold hook_remove, append_del, aof_write_line in E. destruct (st_remove k s) as [s2 []]; [|by simplify_eq].
    destruct Hd as (_ & _ & Ho & _). rewrite Ho in E. simpl in E. rewrite Ho in E. by simplify_eq.
  - intros ([s1 ok] & Hs & [= <-])%bind_Ret. split; [|done]. destruct Hd as (Hok & Hc & Ho & content & Hd & Hr).
    destruct (set_ttl_persisted now k ttl s s1 ok Hok Hs) as [Hok' Hp].
    split_and!; [done|by eapply clean_persisted|done|]. exists content.
    split; [done|by eapply restores_persisted].
  - destruct (rewrite_from io' s a disk) as [[a1 d1] ok] eqn:E. intros [= <-]. by eapply durable_rewrite.
Qed.

Lemma hook_run_durable io path ops st st' :
  Forall (λ op, recordable path op = true) ops → fold_outcome (hook_apply io) st ops ⇓ st' →
  durable st → log_path_ st.1.2 = path → durable st' ∧ log_path_ st'.1.2 = path.
Proof.
  intros Hf. revert st. induction Hf as [|op ops Hop _ IH]; intros st; cbn [fold_outcome]; [by intros [= <-]|].
  intros (st1 & Hs & Hrun)%bind_Ret Hd Hp. rewrite <-Hp in Hop.
  destruct (hook_apply_durable io st op st1 Hop Hd Hs) as [Hd1 Hp1]. apply (IH st1); [done|done|congruence].
Qed.

(** C6: the hooks are durable for keys without space or newline and values without
    newline.  Start from an empty storage and a log created in a data directory
    without one; after any sequence of hooked sets of such keys and values, hooked
    removals of any key, new deadlines, and log rewrites that succeed or fail to open
    their temporary file, replaying the log into an empty storage gives exactly the
    keys and values of the running one (without deadlines), and reports success.
    Every line is taken to reach the file. *)
Theorem hooks_durable io data_dir disk0 s_init ops s a disk :
  let path := path_join data_dir "append.aof" in
  can_open io path = true → can_read io path = true → disk0 !! path = None →
  st_ok s_init → st_view s_init = ∅ →
  Forall (λ op, recordable path op = true) ops →
  fold_outcome (hook_apply io) (s_init, (aof_make io data_dir disk0).1, (aof_make io data_dir disk0).2) ops
    ⇓ (s, a, disk) →
  ∀ s0, st_ok s0 → st_view s0 = ∅ →
  ∃ s', replay io a disk s0 = (s', true) ∧ st_ok s' ∧ st_view s' = persisted (st_view s).
Proof.
  intros path Hopen Hread Hno Hok Hv Hrec Hrun s0 Hok0 Hv0. unfold aof_make in Hrun.
  fold path in Hrun. rewrite Hopen in Hrun. cbn [fst snd] in Hrun.
  destruct (hook_run_durable io path ops _ _ Hrec Hrun) as [(_ & _ & _ & content & Hd & ls & -> & Hls & Hr) Hp]; [|done|].
  - split_and!; [done|rewrite Hv; apply map_Forall_empty|done|]. exists "". unfold open_append. simpl.
    rewrite lookup_insert_eq, Hno. split; [done|]. exists []. split_and!; [done|constructor|].
    intros s1 Hs1 Hv1. split; [done|]. simpl. rewrite Hv1, Hv. done.
  - simpl in Hp. unfold replay. rewrite Hd, Hp, Hread. destruct (Hr s0 Hok0 Hv0) as [Hr1 Hr2].
    rewrite <-(string_app_nil_r (unlines ls)), lines_unlines by done.
    rewrite app_nil_r. eauto.
Qed.

(** A key with a space is replayed wrongly: the line that is logged for it is read back
    as a set of the part before the space, to the rest of the key and the value. *)
Lemma spaced_key_replays k1 k2 v s :
  no_space k1 = true →
  replay_line s (set_line (k1 +:+ " " +:+ k2) v) = (st_set k1 (k2 +:+ " " +:+ v) s).1.
Proof.
  intros Hk. rewrite <-(replay_set_line k1 (k2 +:+ " " +:+ v) s Hk). unfold set_line. by rewrite <-!string_app_assoc.
Qed.

(** A log rewrite on each way it can fail.  When the temporary file cannot be
    opened nothing changes; when the rename fails after the old log has been removed,
    the log is gone (its contents are in the temporary file only), and a restart
    replays nothing; when both fail, the old log is as it was. *)
Theorem rewrite_failures io s a disk :
  (can_open io (log_path_ a +:+ ".rewrite") = false → rewrite_from io s a disk = (a, disk, false)) ∧
  (can_open io (log_path_ a +:+ ".rewrite") = true → can_rename io = false →
   ∃ a' disk', rewrite_from io s a disk = (a', disk', false) ∧
     disk' !! (log_path_ a +:+ ".rewrite") = Some (rewrite_content (st_dump s)) ∧
     if can_remove io then bytes_on_disk a' disk' = 0 ∧ ∀ io' s0, replay io' a' disk' s0 = (s0, false)
     else ∀ io' s0, replay io' a' disk' s0 = replay io' a disk s0).
Proof.
  assert (log_path_ a ≠ log_path_ a +:+ ".rewrite") as Hne.
  { intros Heq%(f_equal String.length). rewrite string_app_length in Heq. simpl in Heq. lia. }
  unfold rewrite_from. split; [by intros ->|]. intros -> ->. simpl. eexists _, _. split; [done|].
  unfold bytes_on_disk, replay. destruct (can_remove io); simpl.
  - rewrite lookup_delete_ne, lookup_insert_eq, lookup_delete_eq by done. done.
  - rewrite lookup_insert_eq, lookup_insert_ne by done. done.
Qed.

(** ** Snapshots *)

Lemma load_pairs_content fuel pairs rest s :
  Forall (λ p, no_newline p.1 && no_newline p.2 = true) pairs → length pairs < fuel →
  load_pairs fuel (Z.of_nat (length pairs))
    (foldr (λ p out, p.1 +:+ lf +:+ p.2 +:+ lf +:+ out) "" pairs +:+ rest) s = set_all pairs s.
Proof.
  intros Hf. revert fuel s. induction Hf as [|[k v] l Hkv _ IH]; intros [|fuel] s Hl; simpl in Hl; try lia.
  { done. }
  cbn [length load_pairs foldr]. rewrite (proj2 (Z.ltb_lt _ _)) by lia.
  simpl in Hkv. bsimp. cbn [fst snd]. rewrite <-!string_app_assoc, !getline_app by done.
  replace (Z.of_nat (Datatypes.S (length l)) - 1)%Z with (Z.of_nat (length l)) by lia.
  rewrite IH by lia. done.
Qed.

Lemma snapshot_body_length pairs :
  length pairs ≤ String.length (foldr (λ p out, p.1 +:+ lf +:+ p.2 +:+ lf +:+ out) "" pairs).
Proof.
  induction pairs as [|p l IH]; [done|]. cbn [foldr length]. rewrite !string_app_length. simpl in *. lia.
Qed.

Lemma size_no_newline n : no_newline (size_to_string n) = true.
Proof.
  unfold no_newline, size_to_string. apply to_string_forallb; [|done]. intros d Hd.
  apply negb_true_iff. pose proof (digit_char_not_space d Hd) as Hs.
  destruct (Ascii.eqb_spec (digit_char d) newline) as [He|]; [|done]. by rewrite He in Hs.
Qed.

Lemma load_content io path disk pairs s :
  Forall (λ p, no_newline p.1 && no_newline p.2 = true) pairs →
  (Z.of_nat (length pairs) ≤ uint64_max)%Z → can_read io path = true →
  load_into io path (<[path := snapshot_content pairs]> disk) s = (set_all pairs s, true).
Proof.
  intros Hf Hn Hread. unfold load_into. rewrite lookup_insert_eq, Hread. cbn [negb].
  unfold snapshot_content, getline_or_empty. rewrite getline_app by done. cbn [from_option id].
  rewrite String.eqb_refl. cbn [negb]. rewrite getline_app by apply size_no_newline. cbn [from_option id].
  unfold size_to_string. rewrite extract_size_to_string by lia. f_equal.
  rewrite <-(string_app_nil_r (foldr _ _ _)). apply load_pairs_content; [done|].
  rewrite string_app_nil_r. pose proof (snapshot_body_length pairs). lia.
Qed.

(** C21: a snapshot restores: writing the storage and loading the file into an
    empty storage gives the same keys and values (without deadlines), when no key
    or value contains a newline and the number of entries fits [size_t]. *)
Theorem snapshot_roundtrip io path s disk s0 :
  st_ok s → st_ok s0 → st_view s0 = ∅ →
  map_Forall (λ k e, no_newline k && no_newline (value e) = true) (st_view s) →
  (Z.of_nat (base.size (st_view s)) ≤ uint64_max)%Z →
  can_open io path = true → can_read io path = true →
  ∃ disk' s', snapshot_write io path s disk = (disk', true) ∧
    load_into io path disk' s0 = (s', true) ∧ st_ok s' ∧ st_view s' = persisted (st_view s).
Proof.
  intros Hok Hok0 Hv0 Hc Hn Hopen Hread. unfold snapshot_write, snapshot_attempt. rewrite Hopen.
  pose proof (dump_view s Hok) as Hd. eexists _, _. split; [done|]. rewrite load_content; [| | |done].
  - destruct (set_all_spec (st_dump s) s0 Hok0) as [Ha Hv]. split_and!; [done|done|].
    rewrite Hv, Hv0. by apply restore_dump.
  - rewrite Hd. apply Forall_fmap, Forall_forall. intros [k e] Hin%elem_of_map_to_list.
    apply (Hc k e Hin).
  - rewrite Hd, length_fmap. by rewrite length_map_to_list.
Qed.

(** Deadlines do not survive a restart: whatever was written by a snapshot or
    a rewritten log comes back without its deadline, so a key that had already
    expired reads as live again, at every time. *)
Theorem restart_revives_expired io path s disk s0 k e now :
  st_ok s → st_ok s0 → st_view s0 = ∅ →
  map_Forall (λ k e, no_newline k && no_newline (value e) = true) (st_view s) →
  (Z.of_nat (base.size (st_view s)) ≤ uint64_max)%Z →
  can_open io path = true → can_read io path = true →
  st_view s !! k = Some e → expired now e = true →
  st_get now k s = None ∧
  ∀ t, st_get t k (load_into io path (snapshot_write io path s disk).1 s0).1 = Some (value e).
Proof.
  intros Hok Hok0 Hv0 Hc Hn Hopen Hread Hk Hx. rewrite get_view, Hk by done. simpl. rewrite Hx.
  split; [done|]. intros t. pose proof (dump_view s Hok) as Hd. unfold snapshot_write, snapshot_attempt. rewrite Hopen.
  cbn [negb fst]. rewrite load_content; [| |by rewrite Hd, length_fmap, length_map_to_list|done].
  - destruct (set_all_spec (st_dump s) s0 Hok0) as [Ha Hv]. cbn [fst]. rewrite get_view by done.
    rewrite Hv, Hv0, (restore_dump _ _ Hd). unfold persisted. by rewrite lookup_fmap, Hk.
  - rewrite Hd. apply Forall_fmap, Forall_forall. intros [k' e'] Hin%elem_of_map_to_list. apply (Hc k' e' Hin).
Qed.

End Persistence.

(** ** Witnesses *)

Section Witnesses.
#[local] Existing Instance HashTable.sum_hash.
#[local] Abbreviation small := StorageEngine.small.
#[local] Abbreviation timed := StorageEngine.timed.

Definition all_io : Io := mkIo (λ _, true) (λ _, true) true true.
Definition no_rename : Io := mkIo (λ _, true) (λ _, true) true false.

Lemma small_empty : st_view small = ∅.
Proof. reflexivity. Qed.

(** Two keys set, one removed, and the log rewritten. *)
Lemma hooks_durable_witness :
  ∃ s a disk,
    fold_outcome (hook_apply all_io) (small, (aof_make all_io "data" ∅).1, (aof_make all_io "data" ∅).2)
      [HookSet "a" "x y"; HookSet "b" "2"; HookRemove "b"; HookExpire 0%Z "a" 60%Z; HookRewrite all_io] ⇓ (s, a, disk) ∧
    ∃ s', replay all_io a disk small = (s', true) ∧ st_view s' = persisted (st_view s).
Proof.
  destruct (fold_outcome (hook_apply all_io) (small, (aof_make all_io "data" ∅).1, (aof_make all_io "data" ∅).2)
    [HookSet "a" "x y"; HookSet "b" "2"; HookRemove "b"; HookExpire 0%Z "a" 60%Z; HookRewrite all_io])
    as [[[s a] disk]| |] eqn:E; [|vm_compute in E; discriminate E..].
  exists s, a, disk. split; [reflexivity|].
  destruct (hooks_durable all_io "data" ∅ small
    [HookSet "a" "x y"; HookSet "b" "2"; HookRemove "b"; HookExpire 0%Z "a" 60%Z; HookRewrite all_io] s a disk)
    with (s0 := small) as (s' & Hs & _ & Hv);
    try reflexivity; try apply StorageEngine.small_ok; [by repeat constructor|exact E|].
  exists s'. split; [exact Hs|exact Hv].
Defined.

Lemma rewrite_failures_witness :
  ∃ a' disk', rewrite_from no_rename timed (mkAof "log" true) ∅ = (a', disk', false) ∧
    bytes_on_disk a' disk' = 0.
Proof.
  destruct (rewrite_failures no_rename timed (mkAof "log" true) ∅) as [_ Hf].
  destruct (Hf eq_refl eq_refl) as (a' & disk' & He & Hb & _). eauto.
Defined.

Lemma timed_clean :
  map_Forall (λ k e, no_newline k && no_newline (value e) = true) (st_view timed).
Proof.
  assert (st_view timed = {[ "k" := mkEntry "v" (Some 50%Z) ]}) as -> by reflexivity.
  by apply map_Forall_singleton.
Qed.

Lemma snapshot_roundtrip_witness :
  ∃ disk' s', snapshot_write all_io "data/snapshot.vdb" timed ∅ = (disk', true) ∧
    load_into all_io "data/snapshot.vdb" disk' small = (s', true) ∧
    st_view s' = persisted (st_view timed).
Proof.
  destruct (snapshot_roundtrip all_io "data/snapshot.vdb" timed ∅ small)
    as (disk' & s' & Hw & Hl & _ & Hv); try reflexivity;
    [apply StorageEngine.timed_ok|apply StorageEngine.small_ok|apply timed_clean|done|].
  exists disk', s'. eauto.
Defined.

Lemma restart_revives_expired_witness :
  st_get 60%Z "k" timed = None ∧
  st_get 60%Z "k" (load_into all_io "s" (snapshot_write all_io "s" timed ∅).1 small).1 = Some "v".
Proof.
  destruct (restart_revives_expired all_io "s" timed ∅ small "k" (mkEntry "v" (Some 50%Z)) 60%Z)
    as [Hg Ht]; try reflexivity;
    [apply StorageEngine.timed_ok|apply StorageEngine.small_ok|apply timed_clean|done|].
  split; [exact Hg|exact (Ht 60%Z)].
Defined.

End Witnesses.
