(* ===== verification/Pubsub.v ===== *)
(** * Publish and subscribe (src/pubsub/)

    The channel registry keeps, for each channel, its subscribers and, for each
    subscriber, its channels; it refines a set of pairs.  The broker hands a
    message to every subscriber of a channel through a delivery function; the
    session mailbox is the delivery target [wire_broker_delivery] installs: one
    first-in first-out queue per subscriber. *)

From S2P Require Import Prelude CppStd.
From stdpp Require Import sets fin_map_dom gmap.

(** [std::uint64_t]. *)
Definition SubscriberId : Type := N.

Module ChannelRegistry.

Record t := mk {
  channel_map_ : gmap string (list SubscriberId);
  subscriber_map_ : gmap SubscriberId (list string)
}.

Definition make : t := mk ∅ ∅.

(** [if (std::find(l.begin(), l.end(), x) == l.end()) l.push_back(x)]. *)
Definition push_new `{EqDecision A} (x : A) (l : list A) : list A :=
  if decide (x ∈ l) then l else l ++ [x].

(** [l.erase(std::remove(l.begin(), l.end(), x), l.end())]. *)
Definition erase_all `{EqDecision A} (x : A) (l : list A) : list A := filter (λ y, y ≠ x) l.

Definition subscribe (channel : string) (subscriber : SubscriberId) (r : t) : t :=
  mk (<[channel := push_new subscriber (default [] (channel_map_ r !! channel))]> (channel_map_ r))
     (<[subscriber := push_new channel (default [] (subscriber_map_ r !! subscriber))]>
        (subscriber_map_ r)).

(** The erasure of [subscriber] from the list of [channel], when there is one. *)
Definition drop_from (subscriber : SubscriberId) (m : gmap string (list SubscriberId))
    (channel : string) : gmap string (list SubscriberId) :=
  match m !! channel with
  | None => m
  | Some l => <[channel := erase_all subscriber l]> m
  end.

Definition unsubscribe (channel : string) (subscriber : SubscriberId) (r : t) : t :=
  mk (drop_from subscriber (channel_map_ r) channel)
     (match subscriber_map_ r !! subscriber with
      | None => subscriber_map_ r
      | Some channels => <[subscriber := erase_all channel channels]> (subscriber_map_ r)
      end).

Definition unsubscribe_all (subscriber : SubscriberId) (r : t) : t :=
  match subscriber_map_ r !! subscriber with
  | None => r
  | Some channels =>
      mk (foldl (drop_from subscriber) (channel_map_ r) channels)
         (delete subscriber (subscriber_map_ r))
  end.

Definition subscribers (channel : string) (r : t) : list SubscriberId :=
  match channel_map_ r !! channel with None => [] | Some l => l end.

Definition channels_for (subscriber : SubscriberId) (r : t) : list string :=
  match subscriber_map_ r !! subscriber with None => [] | Some l => l end.

(** ** The set of subscriptions *)

Definition represents (r : t) (g : gset (string * SubscriberId)) : Prop :=
  ∀ ch id,
    NoDup (subscribers ch r) ∧ NoDup (channels_for id r) ∧
    (id ∈ subscribers ch r ↔ (ch, id) ∈ g) ∧ (ch ∈ channels_for id r ↔ (ch, id) ∈ g).

Inductive op :=
| Subscribe (channel : string) (subscriber : SubscriberId)
| Unsubscribe (channel : string) (subscriber : SubscriberId)
| UnsubscribeAll (subscriber : SubscriberId).

Definition step (r : t) (o : op) : t :=
  match o with
  | Subscribe ch id => subscribe ch id r
  | Unsubscribe ch id => unsubscribe ch id r
  | UnsubscribeAll id => unsubscribe_all id r
  end.

Definition spec_step (g : gset (string * SubscriberId)) (o : op) : gset (string * SubscriberId) :=
  match o with
  | Subscribe ch id => {[ (ch, id) ]} ∪ g
  | Unsubscribe ch id => g ∖ {[ (ch, id) ]}
  | UnsubscribeAll id => filter (λ p, p.2 ≠ id) g
  end.

Section Lists.
Context {A : Type} `{EqDecision A}.

Lemma push_new_elem (x y : A) l : y ∈ push_new x l ↔ y = x ∨ y ∈ l.
Proof. unfold push_new. case_decide; set_solver. Qed.

Lemma push_new_NoDup (x : A) l : NoDup l → NoDup (push_new x l).
Proof.
  intros Hl. unfold push_new. case_decide; [done|].
  apply list.NoDup_app. split_and!; [done|set_solver|apply NoDup_singleton].
Qed.

Lemma erase_all_elem (x y : A) l : y ∈ erase_all x l ↔ y ≠ x ∧ y ∈ l.
Proof. unfold erase_all. by rewrite list_elem_of_filter. Qed.

Lemma erase_all_NoDup (x : A) l : NoDup l → NoDup (erase_all x l).
Proof. apply NoDup_filter. Qed.

End Lists.

Lemma subscribers_default ch r : subscribers ch r = default [] (channel_map_ r !! ch).
Proof. unfold subscribers. by destruct (channel_map_ r !! ch). Qed.

Lemma channels_default id r : channels_for id r = default [] (subscriber_map_ r !! id).
Proof. unfold channels_for. by destruct (subscriber_map_ r !! id). Qed.

Lemma drop_from_lookup id m ch ch' :
  default [] (drop_from id m ch !! ch') =
  if decide (ch = ch') then erase_all id (default [] (m !! ch')) else default [] (m !! ch').
Proof.
  unfold drop_from. case_decide as Hc.
  - subst. destruct (m !! ch') as [l|] eqn:E; [by rewrite lookup_insert_eq|by rewrite E].
  - destruct (m !! ch); [by rewrite lookup_insert_ne|done].
Qed.

Lemma drop_all_lookup id chs m ch :
  default [] (foldl (drop_from id) m chs !! ch) =
  if decide (ch ∈ chs) then erase_all id (default [] (m !! ch)) else default [] (m !! ch).
Proof.
  revert m. induction chs as [|c chs IH]; intros m; cbn [foldl].
  { by case_decide as Hc; [apply not_elem_of_nil in Hc|]. }
  rewrite IH, drop_from_lookup.
  repeat case_decide; rewrite ?elem_of_cons in *; try (subst; naive_solver).
  unfold erase_all. rewrite list_filter_filter. apply list_filter_iff. naive_solver.
Qed.

Lemma represents_subscribe r g ch id :
  represents r g → represents (subscribe ch id r) ({[ (ch, id) ]} ∪ g).
Proof.
  intros Hr ch' id'. destruct (Hr ch' id') as (N1 & N2 & S1 & S2).
  rewrite !subscribers_default, !channels_default in *. unfold subscribe. simpl.
  destruct (decide (ch = ch')) as [<-|Hc], (decide (id = id')) as [<-|Hi];
    rewrite ?lookup_insert_eq, ?lookup_insert_ne by done; cbn [from_option Datatypes.id];
    split_and!; try done; try (by apply push_new_NoDup);
    rewrite ?push_new_elem, ?S1, ?S2, ?elem_of_union, ?elem_of_singleton; naive_solver.
Qed.

Lemma represents_unsubscribe r g ch id :
  represents r g → represents (unsubscribe ch id r) (g ∖ {[ (ch, id) ]}).
Proof.
  intros Hr ch' id'. destruct (Hr ch' id') as (N1 & N2 & S1 & S2).
  rewrite !subscribers_default, !channels_default in *. unfold unsubscribe. simpl.
  rewrite drop_from_lookup.
  assert (default [] (match subscriber_map_ r !! id with
    | None => subscriber_map_ r
    | Some channels => <[id := erase_all ch channels]> (subscriber_map_ r) end !! id') =
    if decide (id = id') then erase_all ch (default [] (subscriber_map_ r !! id'))
    else default [] (subscriber_map_ r !! id')) as ->.
  { case_decide as Hi.
    - subst. destruct (subscriber_map_ r !! id') eqn:E; [by rewrite lookup_insert_eq|by rewrite E].
    - destruct (subscriber_map_ r !! id); [by rewrite lookup_insert_ne|done]. }
  repeat case_decide; subst; split_and!; try done; try (by apply erase_all_NoDup);
    rewrite ?erase_all_elem, ?S1, ?S2, ?elem_of_difference, ?elem_of_singleton; naive_solver.
Qed.

Lemma represents_unsubscribe_all r g id :
  represents r g → represents (unsubscribe_all id r) (filter (λ p, p.2 ≠ id) g).
Proof.
  intros Hr ch' id'. destruct (Hr ch' id') as (N1 & N2 & S1 & S2).
  destruct (Hr ch' id) as (_ & _ & T1 & T2).
  unfold unsubscribe_all. rewrite !subscribers_default, !channels_default in *.
  destruct (subscriber_map_ r !! id) as [chs|] eqn:E; simpl in *.
  - rewrite drop_all_lookup. assert (default [] (delete id (subscriber_map_ r) !! id') =
      if decide (id = id') then [] else default [] (subscriber_map_ r !! id')) as ->.
    { case_decide; subst; [by rewrite lookup_delete_eq|by rewrite lookup_delete_ne]. }
    rewrite elem_of_filter. simpl.
    destruct (decide (ch' ∈ chs)); destruct (decide (id = id')) as [<-|];
      split_and!; try done; try (by apply erase_all_NoDup); try constructor;
      rewrite ?erase_all_elem, ?S1, ?S2, ?elem_of_nil; naive_solver.
  - rewrite elem_of_filter. rewrite elem_of_nil in T2. simpl. split_and!; try done; destruct (decide (id = id')) as [<-|];
      rewrite ?S1, ?S2; naive_solver.
Qed.

Lemma run_represents os : represents (foldl step make os) (foldl spec_step ∅ os).
Proof.
  induction os as [|o os IH] using rev_ind.
  - intros ch id. split_and!; try constructor; set_solver.
  - rewrite !foldl_app. destruct o;
      [by apply represents_subscribe|by apply represents_unsubscribe|by apply represents_unsubscribe_all].
Qed.

(** C29: every sequence of subscriptions and unsubscriptions (of one channel or of
    all) keeps the two maps of the registry consistent: both represent the same
    set of pairs, the one the operations denote, and no list holds an element
    twice. *)
Theorem registry_refines_set os ch id :
  let r := foldl step make os in
  let g := foldl spec_step ∅ os in
  NoDup (subscribers ch r) ∧ NoDup (channels_for id r) ∧
  (id ∈ subscribers ch r ↔ (ch, id) ∈ g) ∧ (ch ∈ channels_for id r ↔ (ch, id) ∈ g).
Proof. apply run_represents. Qed.

End ChannelRegistry.

Module SessionMailbox.

Abbreviation t := (gmap SubscriberId (list string)).

(** The messages waiting for [id]. *)
Definition pending (id : SubscriberId) (m : t) : list string := default [] (m !! id).

Definition enqueue (id : SubscriberId) (message : string) (m : t) : t :=
  <[id := default [] (m !! id) ++ [message]]> m.

Definition try_dequeue (id : SubscriberId) (m : t) : t * option string :=
  match m !! id with
  | None => (m, None)
  | Some [] => (m, None)
  | Some (msg :: rest) => (<[id := rest]> m, Some msg)
  end.

Definition clear (id : SubscriberId) (m : t) : t := delete id m.

Inductive op :=
| Enqueue (id : SubscriberId) (message : string)
| TryDequeue (id : SubscriberId).

(** Run a sequence of operations, collecting what was dequeued and for whom. *)
Fixpoint run (m : t) (os : list op) : t * list (SubscriberId * string) :=
  match os with
  | [] => (m, [])
  | Enqueue id msg :: os' => run (enqueue id msg m) os'
  | TryDequeue id :: os' =>
      let '(m1, got) := try_dequeue id m in
      let '(m2, l) := run m1 os' in
      (m2, match got with Some msg => (id, msg) :: l | None => l end)
  end.

Fixpoint sent_to (id : SubscriberId) (os : list op) : list string :=
  match os with
  | [] => []
  | Enqueue id' msg :: os' => (if decide (id' = id) then [msg] else []) ++ sent_to id os'
  | TryDequeue _ :: os' => sent_to id os'
  end.

Definition received_by (id : SubscriberId) (l : list (SubscriberId * string)) : list string :=
  (filter (λ p, p.1 = id) l).*2.

Lemma pending_enqueue id id' msg m :
  pending id (enqueue id' msg m) = pending id m ++ (if decide (id' = id) then [msg] else []).
Proof.
  unfold pending, enqueue. case_decide; subst; [by rewrite lookup_insert_eq|].
  by rewrite lookup_insert_ne, app_nil_r.
Qed.

Lemma pending_dequeue id id' m :
  let '(m', got) := try_dequeue id' m in
  pending id m = (if decide (id' = id) then option_list got else []) ++ pending id m'.
Proof.
  unfold try_dequeue, pending. destruct (m !! id') as [[|msg rest]|] eqn:E.
  - by case_decide.
  - case_decide as Hi; [|by rewrite lookup_insert_ne].
    rewrite <-Hi, E. by rewrite lookup_insert_eq.
  - by case_decide.
Qed.

(** A mailbox is first-in first-out for each subscriber: in any sequence of
    operations, what a subscriber has dequeued followed by what still waits for it
    is what was waiting at first followed by what was sent to it, in order;
    nothing is lost, duplicated, reordered or delivered to someone else. *)
Theorem mailbox_fifo os m id :
  let '(m', got) := run m os in
  received_by id got ++ pending id m' = pending id m ++ sent_to id os.
Proof.
  unfold received_by. revert m. induction os as [|[id' msg|id'] os IH]; intros m; simpl.
  - by rewrite app_nil_r.
  - specialize (IH (enqueue id' msg m)). destruct (run _ os) as [m' got].
    by rewrite IH, pending_enqueue, <-(assoc_L (++)).
  - pose proof (pending_dequeue id id' m) as Hp. destruct (try_dequeue id' m) as [m1 got1].
    specialize (IH m1). destruct (run m1 os) as [m' got]. rewrite Hp, <-(assoc_L (++)), <-IH.
    destruct got1 as [msg|]; simpl; [|by case_decide].
    rewrite filter_cons. simpl. by case_decide.
Qed.

End SessionMailbox.

Module PubSubBroker.

Section Delivery.
(** The state the delivery function acts on. *)
Context {M : Type}.

(** A [std::function], possibly empty. *)
Definition DeliveryFn : Type := option (SubscriberId → string → M → M).

Definition publish (delivery_ : DeliveryFn) (registry_ : ChannelRegistry.t)
    (channel message : string) (m : M) : M * nat :=
  let targets := ChannelRegistry.subscribers channel registry_ in
  (foldl (λ m id, match delivery_ with Some deliver => deliver id message m | None => m end)
     m targets,
   length targets).

End Delivery.

Definition register_subscriber (id : SubscriberId) (channel : string) (r : ChannelRegistry.t) :=
  ChannelRegistry.subscribe channel id r.

Definition remove_subscriber (id : SubscriberId) (r : ChannelRegistry.t) :=
  ChannelRegistry.unsubscribe_all id r.

(** The delivery function [wire_broker_delivery] installs. *)
Definition wire_broker_delivery : DeliveryFn (M:=SessionMailbox.t) :=
  Some (λ id message mailbox, SessionMailbox.enqueue id message mailbox).

Lemma deliver_pending ids msg m id :
  NoDup ids →
  SessionMailbox.pending id (foldl (λ m i, SessionMailbox.enqueue i msg m) m ids) =
  SessionMailbox.pending id m ++ (if decide (id ∈ ids) then [msg] else []).
Proof.
  intros Hnd. revert m. induction Hnd as [|i ids Hi Hnd IH]; intros m; cbn [foldl].
  { by rewrite app_nil_r. }
  rewrite IH, SessionMailbox.pending_enqueue, <-(assoc_L (++)).
  repeat case_decide; simpl; set_solver.
Qed.

(** C30: with the mailbox wired, [publish] appends the message once to the queue of
    every subscriber of the channel and to no other, and returns their number;
    with no delivery function it reports the same number and delivers nothing. *)
Theorem publish_delivers os channel message m :
  let r := foldl ChannelRegistry.step ChannelRegistry.make os in
  let g := foldl ChannelRegistry.spec_step ∅ os in
  let '(m', n) := publish wire_broker_delivery r channel message m in
  n = base.size (filter (λ p, p.1 = channel) g) ∧
  (∀ id, SessionMailbox.pending id m' =
     SessionMailbox.pending id m ++ (if decide ((channel, id) ∈ g) then [message] else [])) ∧
  publish None r channel message m = (m, n).
Proof.
  intros r g. pose proof (ChannelRegistry.run_represents os : ChannelRegistry.represents r g) as Hr.
  unfold publish. split_and!.
  - destruct (Hr channel 0%N) as (Hn & _).
    assert (filter (λ p, p.1 = channel) g =
      list_to_set ((channel,.) <$> ChannelRegistry.subscribers channel r)) as ->.
    { apply set_eq. intros [ch id]. rewrite elem_of_filter, elem_of_list_to_set, list_elem_of_fmap.
      destruct (Hr channel id) as (_ & _ & He & _). simpl. split.
      - intros [-> Hg]. exists id. by rewrite He.
      - intros (? & [= -> ->] & Hi). by rewrite <-He. }
    rewrite size_list_to_set, length_fmap; [done|]. by apply NoDup_fmap_2; [intros ?? [= ]|].
  - intros id. destruct (Hr channel id) as (Hn & _ & He & _). simpl.
    rewrite deliver_pending by done. f_equal. by apply decide_ext.
  - f_equal. by induction (ChannelRegistry.subscribers channel r).
Qed.

End PubSubBroker.
