(* ===== verification/Admin.v ===== *)
(** * Configuration, security, metrics and admission

    [load_config_from_env] (src/config.cpp), the command line (src/main.cpp),
    [RuntimeConfig] (src/config/runtime_config.cpp), [AuthGate] and
    [SessionAuth] (src/security/), [MetricsCollector] (src/monitor/metrics.cpp)
    and [ConnectionPool] (src/net/connection_pool.cpp). *)

From S2P Require Import Prelude CppStd Table Engine.

Local Open Scope Z_scope.

(** ** Configuration *)

(** Port, client limit and interval are unsigned of 16, 64 and 32 bits. *)
Record ServerConfig := mkConfig {
  host : string;
  port : Z;
  max_clients : Z;
  data_dir : string;
  snapshot_interval_sec : Z;
  requirepass : string
}.

Definition default_config : ServerConfig := mkConfig "127.0.0.1" 6379 1024 "./data" 300 "".

(** [std::getenv]. *)
Definition Env : Type := string → option string.

Definition env_or (env : Env) (key fallback : string) : string :=
  match env key with
  | Some v => if (0 <? String.length v)%nat then v else fallback
  | None => fallback
  end.

(** An optional numeric variable, converted to an unsigned type of [w] bits. *)
Definition env_number (env : Env) (key : string) (parse : string → Outcome Z) (w fallback : Z)
    : Outcome Z :=
  match env key with
  | Some v => wrap w <$> parse v
  | None => Ret fallback
  end.

Definition load_config_from_env (env : Env) : Outcome ServerConfig :=
  let cfg := default_config in
  let h := env_or env "VOLTDBX_HOST" (host cfg) in
  p ← env_number env "VOLTDBX_PORT" atoi 16 (port cfg);
  m ← env_number env "VOLTDBX_MAX_CLIENTS" atol 64 (max_clients cfg);
  let d := env_or env "VOLTDBX_DATA_DIR" (data_dir cfg) in
  let r := env_or env "VOLTDBX_REQUIREPASS" "" in
  s ← env_number env "VOLTDBX_SNAPSHOT_INTERVAL_SEC" atoi 32 (snapshot_interval_sec cfg);
  Ret (mkConfig h p m d s r).

(** ** The command line *)

Inductive MainResult :=
| Health
| Help
| RunServer (cfg : ServerConfig).

Definition with_host (cfg : ServerConfig) (h : string) : ServerConfig :=
  mkConfig h (port cfg) (max_clients cfg) (data_dir cfg) (snapshot_interval_sec cfg) (requirepass cfg).
Definition with_port (cfg : ServerConfig) (p : Z) : ServerConfig :=
  mkConfig (host cfg) p (max_clients cfg) (data_dir cfg) (snapshot_interval_sec cfg) (requirepass cfg).
Definition with_data_dir (cfg : ServerConfig) (d : string) : ServerConfig :=
  mkConfig (host cfg) (port cfg) (max_clients cfg) d (snapshot_interval_sec cfg) (requirepass cfg).
Definition with_max_clients (cfg : ServerConfig) (m : Z) : ServerConfig :=
  mkConfig (host cfg) (port cfg) m (data_dir cfg) (snapshot_interval_sec cfg) (requirepass cfg).

(** The loop over [argv[1..]]. *)
Fixpoint parse_args (args : list string) (cfg : ServerConfig) : Outcome MainResult :=
  match args with
  | [] => Ret (RunServer cfg)
  | arg :: rest =>
      if (arg =? "--health")%string then Ret Health
      else if (arg =? "--help")%string then Ret Help
      else
        match rest with
        | [] => parse_args rest cfg
        | v :: rest' =>
            if (arg =? "--host")%string then parse_args rest' (with_host cfg v)
            else if (arg =? "--port")%string then
              p ← atoi v; parse_args rest' (with_port cfg (wrap 16 p))
            else if (arg =? "--data-dir")%string then parse_args rest' (with_data_dir cfg v)
            else if (arg =? "--max-clients")%string then
              m ← atol v; parse_args rest' (with_max_clients cfg (wrap 64 m))
            else parse_args rest cfg
        end
  end.

Definition main (env : Env) (args : list string) : Outcome MainResult :=
  cfg ← load_config_from_env env;
  parse_args args cfg.

(** ** RuntimeConfig *)

Module RuntimeConfig.

Record t := mk { defaults_ : ServerConfig; overrides_ : gmap string string }.

Definition make (defaults : ServerConfig) : t := mk defaults ∅.

Definition get (key : string) (r : t) : option string :=
  match overrides_ r !! key with
  | Some v => Some v
  | None =>
      if (key =? "host")%string then Some (host (defaults_ r))
      else if (key =? "port")%string then Some (to_string (port (defaults_ r)))
      else if (key =? "max_clients")%string then Some (to_string (max_clients (defaults_ r)))
      else if (key =? "data_dir")%string then Some (data_dir (defaults_ r))
      else if (key =? "snapshot_interval_sec")%string then
        Some (to_string (snapshot_interval_sec (defaults_ r)))
      else if (key =? "requirepass")%string then Some (requirepass (defaults_ r))
      else None
  end.

Definition set (key v : string) (r : t) : t * bool :=
  if (key =? "requirepass")%string || (key =? "data_dir")%string || (key =? "host")%string then
    (mk (defaults_ r) (<[key := v]> (overrides_ r)), true)
  else if (key =? "max_clients")%string || (key =? "port")%string
          || (key =? "snapshot_interval_sec")%string then
    (mk (defaults_ r) (<[key := v]> (overrides_ r)), true)
  else (r, false).

(** [*get(key)]: undefined on an empty optional. *)
Definition deref (o : option string) : Outcome string :=
  match o with Some v => Ret v | None => Undefined end.

Definition dump (r : t) : Outcome string :=
  h ← deref (get "host" r);
  p ← deref (get "port" r);
  m ← deref (get "max_clients" r);
  d ← deref (get "data_dir" r);
  s ← deref (get "snapshot_interval_sec" r);
  w ← deref (get "requirepass" r);
  Ret ("host=" +:+ h +:+ lf +:+ "port=" +:+ p +:+ lf +:+ "max_clients=" +:+ m +:+ lf +:+
       "data_dir=" +:+ d +:+ lf +:+ "snapshot_interval_sec=" +:+ s +:+ lf +:+
       "requirepass=" +:+ w +:+ lf).

Definition known_keys : list string :=
  ["host"; "port"; "max_clients"; "data_dir"; "snapshot_interval_sec"; "requirepass"].

Lemma set_known key v r :
  set key v r =
  if decide (key ∈ known_keys) then (mk (defaults_ r) (<[key := v]> (overrides_ r)), true)
  else (r, false).
Proof.
  unfold set. case_decide as Hk.
  - unfold known_keys in Hk. rewrite !elem_of_cons in Hk.
    destruct_or?; subst; try reflexivity. by apply not_elem_of_nil in Hk.
  - unfold known_keys in Hk. rewrite !not_elem_of_cons in Hk. destruct_and?.
    by rewrite !(proj2 (String.eqb_neq key _)).
Qed.

(** The configuration keys a sequence of settings leaves readable. *)
Definition only_known (r : t) : Prop := ∀ k, is_Some (overrides_ r !! k) → k ∈ known_keys.

Lemma get_known r k : only_known r → is_Some (get k r) ↔ k ∈ known_keys.
Proof.
  intros Hr. unfold get. destruct (overrides_ r !! k) eqn:E.
  { split; [intros _; apply Hr; eauto|eauto]. }
  unfold known_keys. rewrite !elem_of_cons.
  repeat (case_match; bsimp; [subst; split; [naive_solver|eauto]|]).
  split; [by intros []|]. intros Hk. destruct_or?; try done. by apply not_elem_of_nil in Hk.
Qed.

Lemma set_only_known key v r : only_known r → only_known (set key v r).1.
Proof.
  intros Hr. rewrite set_known. case_decide; [|done]. intros k. simpl.
  rewrite lookup_insert. case_decide; subst; eauto.
Qed.

Lemma dump_defined r : only_known r → ∃ d, dump r ⇓ d.
Proof.
  intros Hr. unfold dump.
  assert (∀ k, k ∈ known_keys → ∃ s, deref (get k r) ⇓ s) as Hd.
  { intros k [s Hs]%(get_known r k Hr). rewrite Hs. by exists s. }
  destruct (Hd "host") as [? H1], (Hd "port") as [? H2], (Hd "max_clients") as [? H3],
    (Hd "data_dir") as [? H4], (Hd "snapshot_interval_sec") as [? H5],
    (Hd "requirepass") as [? H6]; try (unfold known_keys; set_solver).
  rewrite H1. msimp. rewrite H2. msimp. rewrite H3. msimp. rewrite H4. msimp. rewrite H5. msimp.
  rewrite H6. msimp. eauto.
Qed.

(** The six configuration keys, and only they, can be set; a setting is read
    back, changes no other key, and [dump] never dereferences an empty value, after
    any sequence of settings. *)
Theorem config_set_get cfg settings key v :
  let r := foldl (λ r kv, (set kv.1 kv.2 r).1) (make cfg) settings in
  let '(r', ok) := set key v r in
  ok = bool_decide (key ∈ known_keys) ∧
  (∀ k, get k r' = if decide (ok = true ∧ k = key) then Some v else get k r) ∧
  (∀ k, is_Some (get k r') ↔ k ∈ known_keys) ∧
  ∃ s, dump r' ⇓ s.
Proof.
  intros r. assert (only_known r) as Hr.
  { subst r. induction settings as [|kv l IH] using rev_ind; [by intros k []|].
    rewrite foldl_app. by apply set_only_known. }
  pose proof (set_only_known key v r Hr) as Hr'. rewrite set_known in *.
  case_decide as Hk; split_and!; eauto using get_known, dump_defined.
  - by rewrite bool_decide_true.
  - intros k. unfold get. simpl. rewrite lookup_insert.
    repeat case_decide; subst; try naive_solver.
  - by rewrite bool_decide_false.
Qed.

End RuntimeConfig.

(** ** Numbers in the environment and on the command line *)

Lemma ato_to_string w z :
  - 2 ^ (w - 1) ≤ z < 2 ^ (w - 1) → ato w (to_string z) ⇓ z.
Proof.
  intros Hz. unfold ato. rewrite scan_integer_to_string, signed_abs.
  by rewrite (proj2 (Z.leb_le _ _)), (proj2 (Z.ltb_lt _ _)) by lia.
Qed.

Lemma env_number_range env key parse w d z :
  0 < w → 0 ≤ d < 2 ^ w → env_number env key parse w d ⇓ z → 0 ≤ z < 2 ^ w.
Proof.
  intros Hw Hd. unfold env_number. destruct (env key) as [v|]; [|naive_solver].
  destruct (parse v); msimp; [|done..]. intros [= <-]. apply Z.mod_pos_bound. lia.
Qed.

(** A configuration loaded from the environment is within its types (a port
    below [2^16], an interval below [2^32], a client limit below [2^64]), takes
    its defaults for what is not set, and reads back the numbers that were
    printed into the environment. *)
Theorem env_config_spec env cfg :
  load_config_from_env env ⇓ cfg →
  (0 ≤ port cfg < 2 ^ 16 ∧ 0 ≤ max_clients cfg < 2 ^ 64 ∧ 0 ≤ snapshot_interval_sec cfg < 2 ^ 32) ∧
  (env "VOLTDBX_PORT" = None → port cfg = 6379) ∧
  (∀ p, 0 ≤ p < 2 ^ 16 → env "VOLTDBX_PORT" = Some (to_string p) → port cfg = p) ∧
  (∀ m, 0 ≤ m < 2 ^ 63 → env "VOLTDBX_MAX_CLIENTS" = Some (to_string m) → max_clients cfg = m) ∧
  (∀ d, d ≠ "" → env "VOLTDBX_DATA_DIR" = Some d → data_dir cfg = d).
Proof.
  intros Hl. unfold load_config_from_env in Hl.
  apply bind_Ret in Hl as (p & Hp & Hl). apply bind_Ret in Hl as (m & Hm & Hl).
  apply bind_Ret in Hl as (s & Hs & [= <-]). cbn [port max_clients snapshot_interval_sec data_dir].
  split_and!; try (by eapply (env_number_range _ _ _ 16 6379)); try (by eapply (env_number_range _ _ _ 64 1024));
    try (by eapply (env_number_range _ _ _ 32 300)).
  - intros He. unfold env_number in Hp. rewrite He in Hp. by simplify_eq.
  - intros z Hz He. unfold env_number, atoi in Hp. rewrite He, ato_to_string in Hp by lia.
    simplify_eq/=. apply Z.mod_small. lia.
  - intros z Hz He. unfold env_number, atol in Hm. rewrite He, ato_to_string in Hm by lia.
    simplify_eq/=. apply Z.mod_small. lia.
  - intros d Hd He. unfold env_or. rewrite He. destruct d; [done|]. done.
Qed.

Definition demo_env : Env := λ k,
  if (k =? "VOLTDBX_PORT")%string then Some "7000"
  else if (k =? "VOLTDBX_DATA_DIR")%string then Some "/var/volt" else None.

Lemma env_config_spec_witness :
  load_config_from_env demo_env ⇓ mkConfig "127.0.0.1" 7000 1024 "/var/volt" 300 "" ∧ 7000 < 2 ^ 16.
Proof.
  split; [reflexivity|].
  apply (env_config_spec demo_env (mkConfig "127.0.0.1" 7000 1024 "/var/volt" 300 "")). reflexivity.
Defined.

(** Command-line options as a user writes them. *)
Inductive cli_option :=
| OptHost (h : string)
| OptPort (p : Z)
| OptDataDir (d : string)
| OptMaxClients (m : Z).

Definition cli_words (o : cli_option) : list string :=
  match o with
  | OptHost h => ["--host"; h]
  | OptPort p => ["--port"; to_string p]
  | OptDataDir d => ["--data-dir"; d]
  | OptMaxClients m => ["--max-clients"; to_string m]
  end.

Definition cli_ok (o : cli_option) : bool :=
  match o with
  | OptPort p => (0 <=? p) && (p <? 2 ^ 16)
  | OptMaxClients m => (0 <=? m) && (m <? 2 ^ 63)
  | _ => true
  end.

Definition cli_apply (cfg : ServerConfig) (o : cli_option) : ServerConfig :=
  match o with
  | OptHost h => with_host cfg h
  | OptPort p => with_port cfg p
  | OptDataDir d => with_data_dir cfg d
  | OptMaxClients m => with_max_clients cfg m
  end.

(** The command line overrides the environment: any sequence of well-formed
    options is parsed to the configuration they describe, the last one of a kind
    winning. *)
Theorem args_override_env env cfg opts :
  load_config_from_env env ⇓ cfg → forallb cli_ok opts = true →
  main env (concat (cli_words <$> opts)) ⇓ RunServer (foldl cli_apply cfg opts).
Proof.
  intros Hl Hok. unfold main. rewrite Hl. msimp. clear Hl. revert cfg Hok.
  induction opts as [|o opts IH]; intros cfg Hok; [done|]. simpl in Hok. bsimp.
  destruct o as [h|p|d|m]; simpl in H |- *; [by apply IH| |by apply IH|]; bsimp.
  - unfold atoi. rewrite ato_to_string by lia. msimp. unfold wrap. rewrite Z.mod_small by lia.
    by apply IH.
  - unfold atol. rewrite ato_to_string by lia. msimp. unfold wrap. rewrite Z.mod_small by lia.
    by apply IH.
Qed.

Lemma args_override_env_witness :
  main demo_env ["--port"; "8000"; "--host"; "::1"; "--port"; "9000"] ⇓
  RunServer (mkConfig "::1" 9000 1024 "/var/volt" 300 "").
Proof.
  apply (args_override_env demo_env (mkConfig "127.0.0.1" 7000 1024 "/var/volt" 300 "")
    [OptPort 8000; OptHost "::1"; OptPort 9000]); reflexivity.
Defined.

(** ** Security *)

Module AuthGate.

Record t := mk { password_ : string }.

Definition enabled (g : t) : bool := negb (password_ g =? "")%string.

Definition authenticate (password : string) (g : t) : bool :=
  if negb (enabled g) then true else (password_ g =? password)%string.

Definition set_password (password : string) (g : t) : t := mk password.

(** [std::string(n, '*')]. *)
Fixpoint stars (n : nat) : string :=
  match n with O => "" | S n' => String "*"%char (stars n') end.

Definition masked_password_hint (g : t) : string :=
  if (password_ g =? "")%string then "" else stars (String.length (password_ g)).

End AuthGate.

Module SessionAuth.

(** The session's connection is represented by the lines written to it. *)
Record t := mk { required_ : bool; authenticated_ : bool; written : list string }.

Definition make (gate : AuthGate.t) (required : bool) : t :=
  mk required (negb required || negb (AuthGate.enabled gate)) [].

Definition ensure_authenticated (gate : AuthGate.t) (password : string) (s : t) : t * bool :=
  if negb (required_ s) || negb (AuthGate.enabled gate) || authenticated_ s then (s, true)
  else if AuthGate.authenticate password gate then
    (mk (required_ s) true (written s), true)
  else (mk (required_ s) (authenticated_ s) (written s ++ ["-ERR invalid password"]), false).

Definition reset (gate : AuthGate.t) (s : t) : t :=
  mk (required_ s) (negb (required_ s) || negb (AuthGate.enabled gate)) (written s).

(** The attempts of a session, and their results. *)
Fixpoint attempts (gate : AuthGate.t) (passwords : list string) (s : t) : t * list bool :=
  match passwords with
  | [] => (s, [])
  | p :: ps =>
      let '(s1, ok) := ensure_authenticated gate p s in
      let '(s2, oks) := attempts gate ps s1 in (s2, ok :: oks)
  end.

Lemma authenticate_enabled gate p :
  AuthGate.enabled gate = true →
  AuthGate.authenticate p gate = bool_decide (p = AuthGate.password_ gate).
Proof.
  intros He. unfold AuthGate.authenticate. rewrite He. simpl.
  destruct (String.eqb_spec (AuthGate.password_ gate) p) as [->|Hne]; [by rewrite bool_decide_true|].
  by rewrite bool_decide_false.
Qed.

Lemma attempts_spec gate ps s :
  AuthGate.enabled gate = true → required_ s = true →
  let '(s', oks) := attempts gate ps s in
  let pw := AuthGate.password_ gate in
  authenticated_ s' = authenticated_ s || bool_decide (pw ∈ ps) ∧
  (∀ n ok, oks !! n = Some ok → ok = authenticated_ s || bool_decide (pw ∈ take (S n) ps)) ∧
  length (written s') = (length (written s) + length (filter (λ ok, ok = false) oks))%nat.
Proof.
  intros He. set (pw := AuthGate.password_ gate). revert s.
  induction ps as [|p ps IH]; intros s Hreq; cbn [attempts].
  { rewrite bool_decide_false by apply not_elem_of_nil. rewrite orb_false_r.
    split_and!; [done|by intros []|simpl; lia]. }
  unfold ensure_authenticated. rewrite Hreq, He. simpl.
  rewrite authenticate_enabled by done. fold pw.
  destruct (authenticated_ s) eqn:Ha; simpl.
  - specialize (IH s Hreq). rewrite Ha in IH. destruct (attempts gate ps s) as [s' oks].
    destruct IH as (-> & Hn & Hw). split_and!; [done| |done].
    intros [|n] ok; simpl; [naive_solver|]. intros Hok. by apply (Hn n).
  - case_bool_decide as Hp.
    + specialize (IH (mk true true (written s)) eq_refl). destruct (attempts gate ps _) as [s' oks].
      destruct IH as (-> & Hn & Hw). simpl in *. rewrite bool_decide_true by (subst; left).
      split_and!; [done| |done]. intros [|n] ok; simpl; intros Hok; simplify_eq.
      * rewrite bool_decide_true; [done|]. subst. left.
      * rewrite (Hn n ok Hok). rewrite bool_decide_true; [done|]. subst. left.
    + specialize (IH (mk true false (written s ++ ["-ERR invalid password"])) eq_refl).
      destruct (attempts gate ps _) as [s' oks]. destruct IH as (-> & Hn & Hw). simpl in *.
      split_and!.
      * apply bool_decide_ext. rewrite elem_of_cons. naive_solver.
      * intros [|n] ok; simpl; intros Hok; simplify_eq.
        -- rewrite bool_decide_false; [done|]. rewrite list_elem_of_singleton. naive_solver.
        -- rewrite (Hn n ok Hok). apply bool_decide_ext. rewrite elem_of_cons. naive_solver.
      * rewrite Hw, length_app. simpl. lia.
Qed.

(** A session that must authenticate gets in exactly when one of its attempts
    is the password: the n-th attempt succeeds if and only if an attempt up to the
    n-th was right, each failed attempt is answered with one error line, and the
    masked hint has the length of the password and no other character than [*]. *)
Theorem auth_needs_password gate passwords :
  AuthGate.enabled gate = true →
  let '(s, oks) := attempts gate passwords (make gate true) in
  authenticated_ s = bool_decide (AuthGate.password_ gate ∈ passwords) ∧
  (∀ n ok, oks !! n = Some ok →
     ok = bool_decide (AuthGate.password_ gate ∈ take (S n) passwords)) ∧
  length (written s) = length (filter (λ ok, ok = false) oks) ∧
  String.length (AuthGate.masked_password_hint gate) = String.length (AuthGate.password_ gate) ∧
  str_forallb (Ascii.eqb "*"%char) (AuthGate.masked_password_hint gate) = true.
Proof.
  intros He. pose proof (attempts_spec gate passwords (make gate true) He eq_refl) as Hgen.
  unfold make in Hgen |- *. rewrite He in Hgen |- *. simpl in Hgen |- *.
  destruct (attempts gate passwords _) as [s oks]. destruct Hgen as (Ha & Hn & Hw).
  split_and!; [done..| |].
  - unfold AuthGate.masked_password_hint. unfold AuthGate.enabled in He. bsimp.
    rewrite (proj2 (String.eqb_neq _ _)) by done.
    induction (String.length (AuthGate.password_ gate)); simpl; auto.
  - unfold AuthGate.masked_password_hint. case_match; [done|].
    induction (String.length (AuthGate.password_ gate)); simpl; auto.
Qed.

Lemma auth_needs_password_witness :
  let '(s, oks) := attempts (AuthGate.mk "pw") ["x"; "pw"; "y"] (make (AuthGate.mk "pw") true) in
  authenticated_ s = true ∧ oks = [false; true; true] ∧ length (written s) = 1%nat.
Proof.
  pose proof (auth_needs_password (AuthGate.mk "pw") ["x"; "pw"; "y"] eq_refl) as H.
  assert ((attempts (AuthGate.mk "pw") ["x"; "pw"; "y"] (make (AuthGate.mk "pw") true)).2 =
    [false; true; true]) as Ho by reflexivity.
  destruct (attempts _ _ _) as [s oks]. simpl in Ho. subst oks.
  destruct H as (Ha & _ & Hw & _). split; [exact Ha|]. split; [reflexivity|exact Hw].
Defined.

End SessionAuth.

(** ** Metrics *)

Module MetricsCollector.

(** [commands_per_sec_] is a double; it only ever holds a command count. *)
Record t := mk {
  commands_ : nat;
  active_clients_ : nat;
  keys_stored_ : nat;
  memory_bytes_ : nat;
  window_commands_ : nat;
  commands_per_sec_ : nat
}.

Definition make : t := mk 0 0 0 0 0 0.

Definition record_command (m : t) : t :=
  mk (S (commands_ m)) (active_clients_ m) (keys_stored_ m) (memory_bytes_ m)
     (S (window_commands_ m)) (commands_per_sec_ m).
Definition set_active_clients (n : nat) (m : t) : t :=
  mk (commands_ m) n (keys_stored_ m) (memory_bytes_ m) (window_commands_ m) (commands_per_sec_ m).
Definition set_keys_stored (n : nat) (m : t) : t :=
  mk (commands_ m) (active_clients_ m) n (memory_bytes_ m) (window_commands_ m) (commands_per_sec_ m).
Definition set_memory_bytes (n : nat) (m : t) : t :=
  mk (commands_ m) (active_clients_ m) (keys_stored_ m) n (window_commands_ m) (commands_per_sec_ m).
Definition tick_throughput (m : t) : t :=
  mk (commands_ m) (active_clients_ m) (keys_stored_ m) (memory_bytes_ m) 0 (window_commands_ m).

(** [ServerMetrics], and the copy of the counters that [render_info] prints. *)
Record ServerMetrics := mkMetrics {
  memory_bytes : nat;
  active_clients : nat;
  commands_processed : nat;
  keys_stored : nat;
  commands_per_sec : nat
}.

Definition snapshot (m : t) : ServerMetrics :=
  mkMetrics (memory_bytes_ m) (active_clients_ m) (commands_ m) (keys_stored_ m) (commands_per_sec_ m).

End MetricsCollector.

(** ** Admission *)

Module ConnectionPool.

Record t := mk {
  max_connections_ : nat;
  idle_timeout_ : Z;          (** seconds *)
  active_ : nat;
  rejected_ : nat;
  idle_closed_ : nat;
  last_activity_ : time_point
}.

Definition make (max_connections : nat) (idle_timeout : Z) (now : time_point) : t :=
  mk max_connections idle_timeout 0 0 0 now.

Definition admit_ (now : time_point) (p : t) : t * bool :=
  if (max_connections_ p <=? active_ p)%nat then
    (mk (max_connections_ p) (idle_timeout_ p) (active_ p) (S (rejected_ p)) (idle_closed_ p)
        (last_activity_ p), false)
  else
    (mk (max_connections_ p) (idle_timeout_ p) (S (active_ p)) (rejected_ p) (idle_closed_ p) now, true).

Definition release (now : time_point) (p : t) : t :=
  mk (max_connections_ p) (idle_timeout_ p)
     (if (0 <? active_ p)%nat then (active_ p - 1)%nat else active_ p)
     (rejected_ p) (idle_closed_ p) now.

Definition tick_idle_cleanup (now : time_point) (p : t) : t :=
  if ((active_ p =? 0)%nat && (idle_timeout_ p * nanos_per_second <? now - last_activity_ p)) then
    mk (max_connections_ p) (idle_timeout_ p) (active_ p) (rejected_ p) (S (idle_closed_ p)) now
  else p.

(** [stats]: active, rejected and idle-closed counts. *)
Definition stats (p : t) : nat * nat * nat := (active_ p, rejected_ p, idle_closed_ p).

Inductive op := Admit (now : time_point) | Release (now : time_point) | Tick (now : time_point).

Fixpoint run (os : list op) (p : t) : t * list bool :=
  match os with
  | [] => (p, [])
  | Admit now :: os' =>
      let '(p1, ok) := admit_ now p in
      let '(p2, oks) := run os' p1 in (p2, ok :: oks)
  | Release now :: os' => run os' (release now p)
  | Tick now :: os' => run os' (tick_idle_cleanup now p)
  end.

Fixpoint releases (os : list op) : nat :=
  match os with
  | [] => 0
  | Release _ :: os' => S (releases os')
  | _ :: os' => releases os'
  end.

(** Admission control: whatever the sequence of operations, the pool never
    holds more than [max_connections] connections; every refusal is counted; and
    at least as many connections are active as were admitted and not released. *)
Theorem pool_admission os p :
  (active_ p ≤ max_connections_ p)%nat →
  let '(p', oks) := run os p in
  (active_ p' ≤ max_connections_ p')%nat ∧ max_connections_ p' = max_connections_ p ∧
  rejected_ p' = (rejected_ p + length (filter (λ ok, ok = false) oks))%nat ∧
  (active_ p + length (filter (λ ok, ok = true) oks) ≤ active_ p' + releases os)%nat.
Proof.
  revert p. induction os as [|[now|now|now] os IH]; intros p Hp; cbn [run releases].
  - simpl. lia.
  - unfold admit_. destruct (Nat.leb_spec (max_connections_ p) (active_ p)) as [Hle|Hlt].
    + specialize (IH (mk (max_connections_ p) (idle_timeout_ p) (active_ p) (S (rejected_ p))
        (idle_closed_ p) (last_activity_ p)) Hp). destruct (run os _) as [p' oks].
      rewrite !filter_cons. simpl in *. lia.
    + specialize (IH (mk (max_connections_ p) (idle_timeout_ p) (S (active_ p)) (rejected_ p)
        (idle_closed_ p) now) Hlt). destruct (run os _) as [p' oks].
      rewrite !filter_cons. simpl in *. lia.
  - specialize (IH (release now p)). unfold release in *. simpl in *.
    destruct (Nat.ltb_spec 0 (active_ p)); destruct (run os _) as [p' oks]; simpl in *; lia.
  - specialize (IH (tick_idle_cleanup now p)). unfold tick_idle_cleanup in *.
    destruct (_ && _); destruct (run os _) as [p' oks]; simpl in *; lia.
Qed.

Lemma pool_admission_witness :
  let '(p', oks) := run [Admit 0; Admit 1; Admit 2; Release 3; Admit 4] (make 2 120 0) in
  oks = [true; true; false; true] ∧ (active_ p' ≤ 2)%nat.
Proof.
  pose proof (pool_admission [Admit 0; Admit 1; Admit 2; Release 3; Admit 4] (make 2 120 0)) as H.
  assert ((run [Admit 0; Admit 1; Admit 2; Release 3; Admit 4] (make 2 120 0)).2 =
    [true; true; false; true]) as Ho by reflexivity.
  destruct (run _ _) as [p' oks]. simpl in Ho. subst oks. split; [reflexivity|].
  destruct H as (Ha & Hm & _); [apply Nat.le_0_l|]. rewrite Hm in Ha. exact Ha.
Defined.

End ConnectionPool.
