(* ===== verification/Dispatcher.v ===== *)
(** * Command handlers and the dispatcher (src/protocol/)

    Every handler of [CommandDispatcher] and of the files it delegates to
    (batch, counter, scan, auth, config, flush and AOF handlers), and
    [dispatch] itself.  The components the dispatcher refers to are the fields
    of one state; handlers that parse numbers or add counters can throw or
    overflow, so a handler has an [Outcome].  [clock i] is the [i]-th reading of
    the clock a handler makes. *)

From S2P Require Import Prelude CppStd Doubles Memory Table Scanner Engine Clients Wire Persistence Pubsub Admin.

(** ** The INFO text *)

Definition render_info (m : MetricsCollector.t) : string :=
  let metrics := MetricsCollector.snapshot m in
  "+INFO voltdbx" +:+ lf +:+
  "memory_bytes:" +:+ size_to_string (MetricsCollector.memory_bytes metrics) +:+ lf +:+
  "active_clients:" +:+ size_to_string (MetricsCollector.active_clients metrics) +:+ lf +:+
  "commands_processed:" +:+ size_to_string (MetricsCollector.commands_processed metrics) +:+ lf +:+
  "keys_stored:" +:+ size_to_string (MetricsCollector.keys_stored metrics) +:+ lf +:+
  "commands_per_sec:" +:+ count_text (N.of_nat (MetricsCollector.commands_per_sec metrics)) +:+ lf.

(** ** Scan cursors on the wire *)

Definition decode_scan_cursor (token : string) : Outcome KeyScanner.ScanCursor :=
  if (token =? "")%string || (token =? "0")%string then Ret (KeyScanner.mkCursor 0 0)
  else
    match find_char ":"%char token with
    | None => b ← stoull token; Ret (KeyScanner.mkCursor (Z.to_N b) 0)
    | Some sep =>
        b ← stoull (substr 0 sep token);
        c ← stoull (str_drop (sep + 1) token);
        Ret (KeyScanner.mkCursor (Z.to_N b) (Z.to_N c))
    end.

Definition encode_scan_cursor (c : KeyScanner.ScanCursor) : string :=
  if (KeyScanner.bucket c =? 0)%N && (KeyScanner.chain c =? 0)%N then "0"
  else to_string (Z.of_N (KeyScanner.bucket c)) +:+ ":" +:+ to_string (Z.of_N (KeyScanner.chain c)).

(** The loop over the options of SCAN. *)
Fixpoint scan_options (args : list string) (count : N) (pattern : string) : Outcome (N * string) :=
  match args with
  | [] => Ret (count, pattern)
  | a :: rest =>
      match rest with
      | v :: rest' =>
          if (a =? "COUNT")%string then c ← stoull v; scan_options rest' (Z.to_N c) pattern
          else if (a =? "MATCH")%string then scan_options rest' count v
          else scan_options rest count pattern
      | [] => scan_options rest count pattern
      end
  end.

(** The value of SET and the message of PUBLISH: the words joined by a space. *)
Definition join_words (first : string) (rest : list string) : string :=
  foldl (λ acc w, acc +:+ sp +:+ w) first rest.

(** The pairs of MSET. *)
Fixpoint pairs_of (args : list string) : list BatchSetPair :=
  match args with
  | k :: v :: rest => mkPair k v :: pairs_of rest
  | _ => []
  end.

Section Dispatcher.
Context {S : Type} `{StorageLaws S}.

(** What the dispatcher refers to.  [delivery] is the broker's delivery function
    and [mailbox] the state it acts on; [disk] is where the log lives. *)
Record State := mkState {
  storage : S;
  registry : ChannelRegistry.t;
  delivery : PubSubBroker.DeliveryFn (M:=SessionMailbox.t);
  mailbox : SessionMailbox.t;
  metrics : MetricsCollector.t;
  gate : AuthGate.t;
  runtime : RuntimeConfig.t;
  aof : AofLog;
  disk : Disk
}.

Definition with_storage (s : S) (st : State) : State :=
  mkState s (registry st) (delivery st) (mailbox st) (metrics st) (gate st) (runtime st) (aof st) (disk st).
Definition with_registry (r : ChannelRegistry.t) (st : State) : State :=
  mkState (storage st) r (delivery st) (mailbox st) (metrics st) (gate st) (runtime st) (aof st) (disk st).
Definition with_mailbox (m : SessionMailbox.t) (st : State) : State :=
  mkState (storage st) (registry st) (delivery st) m (metrics st) (gate st) (runtime st) (aof st) (disk st).
Definition with_metrics (m : MetricsCollector.t) (st : State) : State :=
  mkState (storage st) (registry st) (delivery st) (mailbox st) m (gate st) (runtime st) (aof st) (disk st).
Definition with_runtime (r : RuntimeConfig.t) (st : State) : State :=
  mkState (storage st) (registry st) (delivery st) (mailbox st) (metrics st) (gate st) r (aof st) (disk st).
Definition with_aof (a : AofLog) (d : Disk) (st : State) : State :=
  mkState (storage st) (registry st) (delivery st) (mailbox st) (metrics st) (gate st) (runtime st) a d.

#[local] Abbreviation Reply := (Outcome (State * string)).
Definition reply (st : State) (r : string) : Reply := Ret (st, r).
Definition wrong_arity (st : State) (command : string) : Reply :=
  reply st (err_response ("wrong number of arguments for " +:+ command)).

Variables (io : Io) (clock : nat → time_point).

(** ** Delegated handlers *)

Definition handle_mget (args : list string) (st : State) : Reply :=
  match args with
  | [] => wrong_arity st "MGET"
  | _ =>
      let values := mget clock args (storage st) in
      reply st ("*" +:+ size_to_string (length values) +:+ crlf +:+ bulk_lines values)
  end.

Definition handle_mset (args : list string) (st : State) : Reply :=
  if (length args <? 2) || negb (Nat.even (length args)) then wrong_arity st "MSET"
  else reply (with_storage (mset (pairs_of args) (storage st)).1 st) ok_response.

Definition handle_incr (args : list string) (st : State) : Reply :=
  match args with
  | [key] =>
      '(s, v) ← increment (clock 0) key 1 (storage st);
      reply (with_storage s st) (integer_response v)
  | _ => wrong_arity st "INCR"
  end.

Definition handle_decr (args : list string) (st : State) : Reply :=
  match args with
  | [key] =>
      '(s, v) ← decrement (clock 0) key 1 (storage st);
      reply (with_storage s st) (integer_response v)
  | _ => wrong_arity st "DECR"
  end.

Definition handle_incrby (args : list string) (st : State) : Reply :=
  match args with
  | [key; amount] =>
      delta ← stoll amount;
      '(s, v) ← increment (clock 0) key delta (storage st);
      reply (with_storage s st) (integer_response v)
  | _ => wrong_arity st "INCRBY"
  end.

Definition scan_reply (page : KeyScanner.ScanPage) : string :=
  let next := if KeyScanner.finished page then "0" else encode_scan_cursor (KeyScanner.next page) in
  "*2" +:+ crlf +:+ bulk_string_response next +:+ crlf +:+
  "*" +:+ size_to_string (length (KeyScanner.keys page)) +:+ crlf +:+
  bulk_lines (Some <$> KeyScanner.keys page).

Definition handle_scan (args : list string) (st : State) : Reply :=
  match args with
  | [] => wrong_arity st "SCAN"
  | token :: options =>
      cursor ← decode_scan_cursor token;
      '(count, pattern) ← scan_options options 10 "*";
      reply st (scan_reply (st_scan cursor count pattern (storage st)))
  end.

Definition handle_auth (args : list string) (st : State) : Reply :=
  match args with
  | [password] =>
      if AuthGate.authenticate password (gate st) then reply st ok_response
      else reply st (err_response "invalid password")
  | _ => wrong_arity st "AUTH"
  end.

Definition handle_config (args : list string) (st : State) : Reply :=
  match args with
  | [] => d ← RuntimeConfig.dump (runtime st); reply st (bulk_string_response d)
  | sub :: rest =>
      match (sub =? "GET")%string, (sub =? "SET")%string, rest with
      | true, _, [key] =>
          match RuntimeConfig.get key (runtime st) with
          | None => reply st (err_response "unknown config key")
          | Some v => reply st (bulk_string_response v)
          end
      | _, true, [key; v] =>
          let '(r, ok) := RuntimeConfig.set key v (runtime st) in
          if negb ok then reply st (err_response "unsupported config key")
          else reply (with_runtime r st) ok_response
      | _, _, _ => reply st (err_response "unsupported CONFIG subcommand")
      end
  end.

Definition handle_flushdb (st : State) : Reply :=
  reply (with_storage (st_clear (storage st)) st) ok_response.

Definition handle_dbsize (st : State) : Reply :=
  reply st (integer_response (Z.of_nat (st_count (storage st)))).

Definition handle_bgrewriteaof (st : State) : Reply :=
  let before := bytes_on_disk (aof st) (disk st) in
  let '(a, d, ok) := rewrite_from io (storage st) (aof st) (disk st) in
  let st := with_aof a d st in
  if negb ok then reply st (err_response "aof rewrite failed")
  else
    let after := bytes_on_disk a d in
    reply st ("+OK rewritten bytes_before=" +:+ size_to_string before +:+
              " bytes_after=" +:+ size_to_string after).

(** ** The handlers registered by [register_builtin_handlers] *)

Definition handle_info (st : State) : Reply :=
  let m := MetricsCollector.set_keys_stored (st_count (storage st)) (metrics st) in
  reply (with_metrics m st) (render_info m).

Definition handle_get (args : list string) (st : State) : Reply :=
  match args with
  | [key] =>
      match st_get (clock 0) key (storage st) with
      | None => reply st null_bulk_response
      | Some v => reply st (bulk_string_response v)
      end
  | _ => wrong_arity st "GET"
  end.

Definition handle_delete (args : list string) (st : State) : Reply :=
  match args with
  | [key] =>
      let '(s, removed) := st_remove key (storage st) in
      reply (with_storage s st) (integer_response (if removed : bool then 1 else 0))
  | _ => wrong_arity st "DELETE"
  end.

Definition handle_exists (args : list string) (st : State) : Reply :=
  match args with
  | [] => wrong_arity st "EXISTS"
  | _ =>
      let count := foldl (λ n key, if st_exists key (storage st) then (n + 1)%Z else n) 0%Z args in
      reply st (integer_response count)
  end.

Definition handle_subscribe (args : list string) (st : State) : Reply :=
  match args with
  | [channel] =>
      reply (with_registry (PubSubBroker.register_subscriber 1%N channel (registry st)) st)
            (ok_response +:+ " subscribed " +:+ channel)
  | _ => wrong_arity st "SUBSCRIBE"
  end.

Definition handle_publish (args : list string) (st : State) : Reply :=
  match args with
  | channel :: first :: rest =>
      let '(m, delivered) :=
        PubSubBroker.publish (delivery st) (registry st) channel (join_words first rest) (mailbox st) in
      reply (with_mailbox m st) (integer_response (Z.of_nat delivered))
  | _ => wrong_arity st "PUBLISH"
  end.

Definition handle_expire (args : list string) (st : State) : Reply :=
  match args with
  | [key; amount] =>
      seconds ← stoll amount;
      '(s, ok) ← st_set_ttl (clock 0) key seconds (storage st);
      if negb ok then reply (with_storage s st) (integer_response 0)
      else reply (with_storage s st) (integer_response 1)
  | _ => wrong_arity st "EXPIRE"
  end.

Definition handle_set (args : list string) (st : State) : Reply :=
  match args with
  | key :: first :: rest =>
      reply (with_storage (st_set key (join_words first rest) (storage st)).1 st) ok_response
  | _ => wrong_arity st "SET"
  end.

(** The handler of a command type; [None] when none is registered. *)
Definition handler_of (ty : CommandType) (args : list string) (st : State) : option Reply :=
  match ty with
  | Unknown => None
  | Ping => Some (reply st "+PONG")
  | Info => Some (handle_info st)
  | Get => Some (handle_get args st)
  | Delete => Some (handle_delete args st)
  | Exists_ => Some (handle_exists args st)
  | Subscribe => Some (handle_subscribe args st)
  | Publish => Some (handle_publish args st)
  | Expire => Some (handle_expire args st)
  | Mget => Some (handle_mget args st)
  | Mset => Some (handle_mset args st)
  | Incr => Some (handle_incr args st)
  | Decr => Some (handle_decr args st)
  | Incrby => Some (handle_incrby args st)
  | Scan => Some (handle_scan args st)
  | Auth => Some (handle_auth args st)
  | Config => Some (handle_config args st)
  | Flushdb => Some (handle_flushdb st)
  | Dbsize => Some (handle_dbsize st)
  | Bgrewriteaof => Some (handle_bgrewriteaof st)
  | Set_ => Some (handle_set args st)
  end.

Definition dispatch (cmd : ParsedCommand) (st : State) : Reply :=
  match handler_of (type cmd) (args cmd) (with_metrics (MetricsCollector.record_command (metrics st)) st) with
  | None => reply st "-ERR unknown command"
  | Some r => r
  end.

End Dispatcher.
Arguments State : clear implicits.

(** Case analysis of an equation that says what a handler returned. *)
Ltac handler_inv E :=
  unfold handle_info, handle_get, handle_set, handle_delete, handle_exists, handle_subscribe,
    handle_publish, handle_expire, handle_mget, handle_mset, handle_incr, handle_decr,
    handle_incrby, handle_scan, handle_auth, handle_config, handle_flushdb, handle_dbsize,
    handle_bgrewriteaof, wrong_arity, reply in E;
  repeat match type of E with
    | context [match ?x with _ => _ end] => destruct x eqn:?; simplify_eq/=; try done
    | (?m ≫= _) = _ => destruct m as [?| |] eqn:?; simplify_eq/=; try done
    end; simplify_eq/=.

(** ** Properties of the dispatcher *)

Section Properties.
Context {S : Type} `{StorageLaws S}.
Implicit Types (st : State S) (io : Io) (clock : nat → time_point).

(** The states the server can be in. *)
Definition server_ok (st : State S) : Prop :=
  st_ok (storage st) ∧ RuntimeConfig.only_known (runtime st).

Definition with_gate (g : AuthGate.t) (st : State S) : State S :=
  mkState (storage st) (registry st) (delivery st) (mailbox st) (metrics st) g (runtime st) (aof st)
    (disk st).

(** Commands whose handlers parse numbers or add counters. *)
Definition may_throw (ty : CommandType) : bool :=
  match ty with Expire | Incr | Decr | Incrby | Scan => true | _ => false end.
Definition may_overflow (ty : CommandType) : bool :=
  match ty with Expire | Incr | Decr | Incrby => true | _ => false end.

(** What a handler of type [ty] guarantees. *)
Definition sound (ty : CommandType) (r : Outcome (State S * string)) : Prop :=
  match r with
  | Ret (st', _) => server_ok st'
  | Throw _ => may_throw ty = true
  | Undefined => may_overflow ty = true
  end.

Lemma increment_ok now key delta (s s' : S) v :
  st_ok s → increment now key delta s ⇓ (s', v) → st_ok s'.
Proof.
  intros Hok Hi. unfold increment in Hi. apply bind_Ret in Hi as (c & _ & Hi).
  apply bind_Ret in Hi as (n & _ & [= <- <-]). by apply set_ok.
Qed.

Lemma decrement_ok now key delta (s s' : S) v :
  st_ok s → decrement now key delta s ⇓ (s', v) → st_ok s'.
Proof.
  intros Hok Hi. unfold decrement in Hi. apply bind_Ret in Hi as (d & _ & Hi). by eapply increment_ok.
Qed.

Lemma set_ttl_ok now key ttl (s s' : S) b :
  st_ok s → st_set_ttl now key ttl s ⇓ (s', b) → st_ok s'.
Proof. intros Hok Hs. by destruct (set_ttl_persisted now key ttl s s' b Hok Hs). Qed.

Lemma mset_ok pairs (s : S) : st_ok s → st_ok (mset pairs s).1.
Proof. intros Hok. pose proof (mset_fold pairs s 0 Hok) as Hm. unfold mset. case_match. by destruct Hm. Qed.

(** A counter command: what its result does to the state. *)
Lemma counter_sound ty st (r : Outcome (S * Z)) :
  server_ok st → may_throw ty = true → may_overflow ty = true →
  (∀ s v, r ⇓ (s, v) → st_ok s) →
  sound ty ('(s, v) ← r; reply (with_storage s st) (integer_response v)).
Proof.
  intros [Hok Hk] Ht Ho Hr. destruct r as [[s v]| |]; msimp; [|done..].
  split; [by eapply Hr|done].
Qed.

Lemma stoull_defined s : stoull s ≠ Undefined.
Proof. unfold stoull. by repeat case_match. Qed.

Lemma stoll_defined s : stoll s ≠ Undefined.
Proof. unfold stoll. by repeat case_match. Qed.

Lemma scan_options_defined n opts count pattern :
  length opts ≤ n → scan_options opts count pattern ≠ Undefined.
Proof.
  revert opts count pattern. induction n as [|n IH]; intros [|a [|v opts]] count pattern Hl;
    simpl in Hl; try done; try lia.
  cbn [scan_options]. case_match.
  - pose proof (stoull_defined v). destruct (stoull v); msimp; [|done..]. apply IH. lia.
  - case_match; [apply IH; lia|]. apply (IH (v :: opts)). simpl. lia.
Qed.

Lemma decode_cursor_defined token : decode_scan_cursor token ≠ Undefined.
Proof.
  unfold decode_scan_cursor. case_match; [done|]. destruct (find_char _ _) as [sep|].
  - pose proof (stoull_defined (substr 0 sep token)). destruct (stoull (substr 0 sep token)); msimp; [|done..].
    pose proof (stoull_defined (str_drop (sep + 1) token)).
    by destruct (stoull (str_drop (sep + 1) token)).
  - pose proof (stoull_defined token). by destruct (stoull token).
Qed.

(** Handlers that leave the storage and the configuration as they are. *)
Lemma sound_reply ty st r : server_ok st → sound ty (reply st r).
Proof. done. Qed.

Lemma sound_storage ty st s r : server_ok st → st_ok s → sound ty (reply (with_storage s st) r).
Proof. by intros [_ Hk] Hs. Qed.

Lemma scan_sound clock args st : server_ok st → sound Scan (handle_scan args st).
Proof.
  intros Hst. unfold handle_scan. destruct args as [|token opts]; [by apply sound_reply|].
  pose proof (decode_cursor_defined token). destruct (decode_scan_cursor token); msimp; [|done..].
  pose proof (scan_options_defined (length opts) opts 10 "*" (le_n _)).
  destruct (scan_options opts 10 "*") as [[count pattern]| |]; msimp; done.
Qed.

Lemma config_sound args st : server_ok st → sound Config (handle_config args st).
Proof.
  intros Hst. pose proof Hst as [Hok Hk]. unfold handle_config. destruct args as [|sub rest].
  - destruct (RuntimeConfig.dump_defined _ Hk) as [d ->]. done.
  - pose proof (λ k v, RuntimeConfig.set_only_known k v _ Hk) as Hset.
    repeat (case_match; try done);
      match goal with E : RuntimeConfig.set ?k ?v _ = _ |- _ =>
        specialize (Hset k v); rewrite E in Hset; by split end.
Qed.

Lemma expire_sound clock args st : server_ok st → sound Expire (handle_expire clock args st).
Proof.
  intros Hst. pose proof Hst as [Hok Hk]. unfold handle_expire. destruct args as [|k [|a []]]; try done.
  destruct (stoll a); msimp; [|done..].
  destruct (st_set_ttl _ _ _ _) as [[s b]| |] eqn:E; msimp; [|done..].
  apply set_ttl_ok in E; [|done]. by destruct b.
Qed.

Lemma handler_sound io clock ty args st r :
  server_ok st → handler_of io clock ty args st = Some r → sound ty r.
Proof.
  intros Hst. pose proof Hst as [Hok Hk].
  destruct ty; simpl; intros [= <-]; try (by apply sound_reply); try (by apply config_sound);
    try (by apply expire_sound); try (by apply (scan_sound clock)).
  - unfold handle_get. repeat case_match; done.
  - unfold handle_set. repeat (case_match; try done). by apply sound_storage, set_ok.
  - unfold handle_delete. destruct args as [|k []]; try done.
    pose proof (remove_ok k _ Hok). destruct (st_remove k _). by apply sound_storage.
  - unfold handle_exists. by case_match.
  - unfold handle_subscribe. by repeat case_match.
  - unfold handle_publish. repeat (case_match; try done).
  - unfold handle_mget. by case_match.
  - unfold handle_mset. case_match; [done|]. by apply sound_storage, mset_ok.
  - unfold handle_incr. destruct args as [|k []]; try done. apply counter_sound; try done.
    eauto using increment_ok.
  - unfold handle_decr. destruct args as [|k []]; try done. apply counter_sound; try done.
    eauto using decrement_ok.
  - unfold handle_incrby. destruct args as [|k [|a []]]; try done.
    pose proof (stoll_defined a). destruct (stoll a); msimp; [|done..].
    apply counter_sound; try done. eauto using increment_ok.
  - unfold handle_auth. repeat (case_match; try done).
  - apply sound_storage; [done|]. by apply clear_ok.
  - unfold handle_bgrewriteaof. repeat (case_match; try done).
Qed.

(** C19: the dispatcher keeps the server's invariant, and only the commands that
    parse or add numbers can fail to reply: an exception can escape only from
    EXPIRE, INCR, DECR, INCRBY and SCAN, and undefined behaviour only from the
    first four; every other command always replies. *)
Theorem dispatch_sound io clock cmd st :
  server_ok st →
  match dispatch io clock cmd st with
  | Ret (st', _) => server_ok st'
  | Throw _ => may_throw (type cmd) = true
  | Undefined => may_overflow (type cmd) = true
  end.
Proof.
  intros Hst. unfold dispatch. destruct (handler_of _ _ _ _ _) as [r|] eqn:E; [|done].
  by apply handler_sound in E.
Qed.

(** Every handler but BGREWRITEAOF leaves the log alone, and none touches the
    gate or the delivery function. *)
Lemma handler_frame io clock ty args st st' r :
  handler_of io clock ty args st = Some (Ret (st', r)) →
  gate st' = gate st ∧ delivery st' = delivery st ∧
  MetricsCollector.commands_ (metrics st') = MetricsCollector.commands_ (metrics st) ∧
  (ty ≠ Bgrewriteaof → aof st' = aof st ∧ disk st' = disk st).
Proof.
  destruct ty; simpl; intros [= E]; by handler_inv E.
Qed.

(** C35: the dispatcher's frame: each command of a registered type is counted
    exactly once and an unknown one not at all; no command changes the password
    gate or the delivery function; and no command but BGREWRITEAOF touches the
    append-only log: in particular SET and DEL are not logged. *)
Theorem dispatch_frame io clock cmd st st' r :
  dispatch io clock cmd st ⇓ (st', r) →
  MetricsCollector.commands_ (metrics st') =
    (MetricsCollector.commands_ (metrics st) + if decide (type cmd = Unknown) then 0 else 1) ∧
  gate st' = gate st ∧ delivery st' = delivery st ∧
  (type cmd ≠ Bgrewriteaof → aof st' = aof st ∧ disk st' = disk st).
Proof.
  unfold dispatch. intros E. destruct (handler_of _ _ _ _ _) as [rep|] eqn:Eh.
  - subst rep. pose proof (handler_frame _ _ _ _ _ _ _ Eh) as (Hg & Hd & Hm & Ha). simpl in *.
    rewrite Hm. split_and!; [|done..]. case_decide as Ht; [|lia]. by rewrite Ht in Eh.
  - unfold reply in E. simplify_eq. rewrite decide_True; [split_and!; [lia|done..]|].
    by destruct (type cmd).
Qed.

(** An error reply has no effect on the data: when the answer starts with
    [-ERR], the storage, the subscriptions, the mailboxes and the configuration
    are what they were. *)
Theorem error_reply_changes_nothing io clock cmd st st' r :
  dispatch io clock cmd st ⇓ (st', r) → starts_with "-ERR" r = true →
  storage st' = storage st ∧ registry st' = registry st ∧ mailbox st' = mailbox st ∧
  runtime st' = runtime st.
Proof.
  unfold dispatch. intros E Hr. destruct (handler_of _ _ _ _ _) as [rep|] eqn:Eh.
  - subst rep. destruct (type cmd); simpl in Eh; try discriminate Eh; apply (inj Some) in Eh;
      handler_inv Eh; done.
  - unfold reply in E. by simplify_eq.
Qed.

(** Authentication is not enforced: whatever the password gate holds, every
    command but AUTH gives the same reply and has the same effect. *)
Theorem auth_not_enforced io clock cmd st g :
  type cmd ≠ Auth →
  dispatch io clock cmd (with_gate g st) = prod_map (with_gate g) id <$> dispatch io clock cmd st.
Proof.
  intros Ht. unfold dispatch.
  assert (∀ st0, handler_of io clock (type cmd) (args cmd) (with_gate g st0) =
    fmap (M:=option) (fmap (M:=Outcome) (prod_map (with_gate g) id))
      (handler_of io clock (type cmd) (args cmd) st0)) as Hh.
  { intros st0. destruct (type cmd); simpl; try done; f_equal;
      unfold handle_info, handle_get, handle_set, handle_delete, handle_exists, handle_subscribe,
        handle_publish, handle_expire, handle_mget, handle_mset, handle_incr, handle_decr,
        handle_incrby, handle_scan, handle_config, handle_flushdb, handle_dbsize,
        handle_bgrewriteaof, wrong_arity, reply; simpl;
      repeat (match goal with
        | |- context [match ?x with _ => _ end] => destruct x; simpl; try done
        | |- context [mbind _ ?m] => destruct m as [?| |]; simpl; try done
        end); done. }
  change (with_metrics ?m (with_gate g st)) with (with_gate g (with_metrics m st)).
  cbn [metrics with_gate]. rewrite Hh. by destruct (handler_of _ _ _ _ _).
Qed.

(** ** Reading back what was written *)

(** A value written with SET is what GET replies, byte for byte, at any time
    and through any password gate: the words of the value joined by single
    spaces, as a bulk string that reads back as them. *)
Theorem set_then_get io clock nm key first rest st io' clock' nm' :
  server_ok st →
  ∃ st1 st2 r, dispatch io clock (mkCommand Set_ nm (key :: first :: rest)) st ⇓ (st1, ok_response) ∧
    dispatch io' clock' (mkCommand Get nm' [key]) st1 ⇓ (st2, r) ∧
    read_bulk r = Some (Some (join_words first rest), "") ∧ server_ok st1 ∧ server_ok st2.
Proof.
  intros [Hok Hk]. unfold dispatch, handler_of, handle_set, handle_get, reply. cbn [type args].
  eexists _, _, _. split; [done|]. simpl.
  pose proof (set_ok key (join_words first rest) _ Hok) as Hok1.
  rewrite get_view, set_view, lookup_insert_eq by done. simpl. split; [done|].
  split; [|done]. rewrite <-(string_app_nil_r (bulk_string_response _)). apply read_bulk_response.
Qed.

(** The reply of MGET is an array that reads back as the values of the keys
    asked for, in order, an absent or expired key as no value. *)
Theorem mget_reply_reads_back io clock nm k ks st :
  server_ok st →
  ∃ st' r, dispatch io clock (mkCommand Mget nm (k :: ks)) st ⇓ (st', r) ∧
    storage st' = storage st ∧
    read_array r =
      Some (imap (λ i key, live (clock i) (st_view (storage st) !! key)) (k :: ks), "").
Proof.
  intros [Hok Hk]. unfold dispatch, handler_of, handle_mget, reply. cbn [type args].
  eexists _, _. split; [done|]. split; [done|]. cbn [storage with_metrics].
  rewrite <-(string_app_nil_r (bulk_lines _)), read_array_lines. do 2 f_equal.
  unfold mget. apply imap_ext. intros i key _. simpl. by apply get_view.
Qed.

End Properties.

(** ** Scanning over the wire *)

Lemma number_no_colon z : str_forallb (λ b, negb (Ascii.eqb b ":"%char)) (to_string z) = true.
Proof.
  apply to_string_forallb; [|done]. intros d Hd. apply negb_true_iff.
  destruct (Ascii.eqb_spec (digit_char d) ":"%char) as [He|]; [|done].
  apply (f_equal digit_val) in He. by rewrite digit_val_char in He.
Qed.

Definition cursor_fits (c : KeyScanner.ScanCursor) : Prop :=
  (Z.of_N (KeyScanner.bucket c) ≤ uint64_max)%Z ∧ (Z.of_N (KeyScanner.chain c) ≤ uint64_max)%Z.

Lemma decode_encode_cursor c : cursor_fits c → decode_scan_cursor (encode_scan_cursor c) ⇓ c.
Proof.
  intros [Hb Hc]. unfold encode_scan_cursor. destruct c as [b ch]. simpl in *.
  destruct ((b =? 0)%N && (ch =? 0)%N) eqn:E.
  { apply andb_true_iff in E as [->%N.eqb_eq ->%N.eqb_eq]. done. }
  unfold decode_scan_cursor. set (token := to_string (Z.of_N b) +:+ ":" +:+ to_string (Z.of_N ch)).
  assert (find_char ":"%char token = Some (String.length (to_string (Z.of_N b)))) as Hf
    by apply find_char_app, number_no_colon.
  assert ((token =? "")%string || (token =? "0")%string = false) as ->.
  { apply orb_false_iff. split; apply String.eqb_neq; intros Ht; by rewrite Ht in Hf. }
  rewrite Hf. unfold substr. subst token.
  change (str_drop 0 ?x) with x. rewrite str_take_app, stoull_to_string by lia. msimp.
  change (":" +:+ to_string (Z.of_N ch)) with (String ":" (to_string (Z.of_N ch))).
  rewrite str_drop_sep, stoull_to_string by lia. msimp. by rewrite !N2Z.id.
Qed.

(** Scan cursors survive the wire: decoding the token of a cursor gives the
    cursor back, for all 64-bit components; the token [0] is only that of the
    start. *)
Theorem scan_cursor_roundtrip c :
  cursor_fits c →
  decode_scan_cursor (encode_scan_cursor c) ⇓ c ∧
  (encode_scan_cursor c = "0" ↔ c = KeyScanner.mkCursor 0 0).
Proof.
  intros Hc. split; [by apply decode_encode_cursor|]. split; [|by intros ->].
  intros He. pose proof (decode_encode_cursor c Hc) as Hd. rewrite He in Hd. by injection Hd.
Qed.

Lemma scan_cursor_roundtrip_witness :
  decode_scan_cursor "12:3" ⇓ KeyScanner.mkCursor 12 3.
Proof.
  apply (scan_cursor_roundtrip (KeyScanner.mkCursor 12 3)). split; vm_compute; intros [=].
Defined.

(** What a client reads in the reply of SCAN: the next cursor and the keys. *)
Definition read_scan (r : string) : option (string * list (option string)) :=
  r ← expect "*2" r;
  r ← expect crlf r;
  '(token, r) ← read_bulk r;
  r ← expect crlf r;
  '(keys, _) ← read_array r;
  (λ t, (t, keys)) <$> token.

Lemma read_scan_reply page :
  read_scan (scan_reply page) =
  Some (if KeyScanner.finished page then "0" else encode_scan_cursor (KeyScanner.next page),
        Some <$> KeyScanner.keys page).
Proof.
  unfold read_scan, scan_reply. rewrite !expect_app. cbn [mbind option_bind].
  rewrite expect_app. cbn [mbind option_bind]. rewrite read_bulk_response. cbn [mbind option_bind].
  rewrite expect_app. cbn [mbind option_bind].
  rewrite <-(string_app_nil_r (bulk_lines _)), <-(length_fmap Some (KeyScanner.keys page)).
  by rewrite read_array_lines.
Qed.

Section WireScan.
Context `{StdHash}.

(** A client iterating SCAN with the same options until the cursor is [0]. *)
Fixpoint wire_scan (fuel : nat) (io : Io) (clock : nat → time_point) (token : string)
    (options : list string) (st : State StorageEngine.t) : option (list (option string)) :=
  match fuel with
  | O => None
  | S fuel' =>
      match dispatch io clock (mkCommand Scan "SCAN" (token :: options)) st with
      | Ret (st', r) =>
          '(next, keys) ← read_scan r;
          if (next =? "0")%string then Some keys
          else (keys ++.) <$> wire_scan fuel' io clock next options st'
      | _ => None
      end
  end.

Lemma dispatch_scan io clock c options count pattern (st : State StorageEngine.t) :
  cursor_fits c → scan_options options 10 "*" ⇓ (count, pattern) →
  ∃ st', dispatch io clock (mkCommand Scan "SCAN" (encode_scan_cursor c :: options)) st ⇓
    (st', scan_reply (KeyScanner.scan (StorageEngine.table (storage st)) c count pattern)) ∧
    storage st' = storage st.
Proof.
  intros Hc Ho. unfold dispatch, handler_of, handle_scan. cbn [type args].
  rewrite decode_encode_cursor by done. msimp. rewrite Ho. msimp. unfold reply.
  eexists. split; [done|done].
Qed.

Lemma wire_scan_all fuel io clock c options count pattern (st : State StorageEngine.t) :
  (0 < count)%N → scan_options options 10 "*" ⇓ (count, pattern) →
  (Z.of_nat (HashTable.bucket_count (StorageEngine.table (storage st))) ≤ uint64_max)%Z →
  (Z.of_nat (length (HashTable.nodes (StorageEngine.table (storage st)))) ≤ uint64_max)%Z →
  KeyScanner.cursor_bound (StorageEngine.table (storage st)) c →
  wire_scan fuel io clock (encode_scan_cursor c) options st =
  fmap (M:=option) (fmap (M:=list) Some) (KeyScanner.scan_all fuel (StorageEngine.table (storage st)) c count pattern).
Proof.
  intros Hc Hn Hbk Hnd. revert c st Hbk Hnd.
  induction fuel as [|fuel IH]; intros c st Hbk Hnd Hcb; [done|]. cbn [wire_scan KeyScanner.scan_all].
  destruct (dispatch_scan io clock c options count pattern st) as (st' & -> & Hs);
    [destruct Hcb; split; lia|done|].
  rewrite read_scan_reply. cbn [mbind option_bind].
  destruct (KeyScanner.finished _) eqn:Hf; [done|].
  pose proof (KeyScanner.scan_next_bound _ c count pattern Hcb) as Hb.
  destruct (String.eqb_spec (encode_scan_cursor (KeyScanner.next
    (KeyScanner.scan (StorageEngine.table (storage st)) c count pattern))) "0") as [He|_].
  { exfalso. apply (KeyScanner.scan_next_nonzero _ c count pattern Hc Hf).
    assert (decode_scan_cursor "0" ⇓ KeyScanner.mkCursor 0 0) as H0 by done.
    rewrite <-He, decode_encode_cursor in H0 by (destruct Hb; split; lia). by injection H0. }
  rewrite IH by (by rewrite ?Hs). rewrite Hs.
  destruct (KeyScanner.scan_all _ _ _ _ _); [|done]. simpl. by rewrite fmap_app.
Qed.

(** C16: iterating SCAN over the wire.  Whatever options a client sends (COUNT and MATCH
    or none, when the defaults 10 and [*] hold), provided that their numbers parse, and
    while the keys do not change: with a positive count, a client that starts at cursor
    [0] and sends back the token of each reply ends after at most one page more than
    there are keys, and has received every key that matches its pattern exactly once;
    with COUNT 0 it ends after one page that has no keys, whatever is stored. *)
Theorem wire_scan_complete io clock options count pattern (st : State StorageEngine.t) :
  StorageEngine.wf (storage st) → scan_options options 10 "*" ⇓ (count, pattern) →
  (Z.of_nat (HashTable.bucket_count (StorageEngine.table (storage st))) ≤ uint64_max)%Z →
  (Z.of_nat (StorageEngine.entry_count (storage st)) ≤ uint64_max)%Z →
  if (count =? 0)%N then wire_scan 1 io clock "0" options st = Some []
  else
    ∃ l, wire_scan (S (StorageEngine.entry_count (storage st))) io clock "0" options st =
      Some (Some <$> l) ∧ NoDup l ∧
      ∀ k, k ∈ l ↔ StorageEngine.exists_ k (storage st) = true ∧ KeyScanner.matches k pattern = true.
Proof.
  intros Hwf Ho Hbk Hsz. set (h := StorageEngine.table (storage st)).
  assert (StorageEngine.entry_count (storage st) = length (HashTable.nodes h)) as Hlen
    by apply (HashTable.wf_size h Hwf).
  change "0" with (encode_scan_cursor (KeyScanner.mkCursor 0 0)). destruct (N.eqb_spec count 0) as [->|Hc].
  { cbn [wire_scan]. destruct (dispatch_scan io clock (KeyScanner.mkCursor 0 0) options 0 pattern st) as (st' & -> & _);
      [by split|done|]. by rewrite read_scan_reply. }
  exists (KeyScanner.matching pattern (KeyScanner.remaining h (KeyScanner.mkCursor 0 0))).
  split_and!.
  - rewrite (wire_scan_all _ _ _ _ _ count pattern); [|lia|done|done|by fold h; rewrite <-Hlen|split; simpl; lia]. fold h.
    rewrite KeyScanner.scan_all_remaining; [done|lia|].
    rewrite KeyScanner.remaining_0, length_fmap, Hlen. lia.
  - by apply KeyScanner.scan_keys_NoDup.
  - intros k. rewrite (KeyScanner.scan_keys_elem h) by done. by rewrite StorageEngine.exists_spec.
Qed.

End WireScan.

(** ** Witnesses *)

Section Witnesses.
#[local] Existing Instance HashTable.sum_hash.

(** A server over a small engine whose key [k] expires at time 50. *)
Definition demo_server (e : StorageEngine.t) : State StorageEngine.t :=
  mkState e ChannelRegistry.make None ∅ MetricsCollector.make (AuthGate.mk "secret")
    (RuntimeConfig.make default_config) (mkAof "log" true) ∅.

Lemma demo_server_ok e : st_ok e → server_ok (demo_server e).
Proof. intros He. split; [done|]. by intros k []. Qed.

Definition timed_ok : server_ok (demo_server StorageEngine.timed) :=
  demo_server_ok _ StorageEngine.timed_ok.

#[local] Abbreviation timed := (demo_server StorageEngine.timed).

Lemma dispatch_sound_witness :
  match dispatch all_io (λ _, 60%Z) (mkCommand Incrby "incrby" ["k"; "x"]) timed with
  | Ret (st', _) => server_ok st'
  | Throw _ => may_throw Incrby = true
  | Undefined => may_overflow Incrby = true
  end ∧ dispatch all_io (λ _, 60%Z) (mkCommand Incrby "incrby" ["k"; "x"]) timed = Throw invalid_argument.
Proof.
  split; [|reflexivity].
  exact (dispatch_sound all_io (λ _, 60%Z) (mkCommand Incrby "incrby" ["k"; "x"]) timed timed_ok).
Defined.

Lemma dispatch_frame_witness :
  ∃ st', dispatch all_io (λ _, 0%Z) (mkCommand Set_ "SET" ["a"; "1"]) timed ⇓ (st', "+OK") ∧
    MetricsCollector.commands_ (metrics st') = 1 ∧ disk st' = disk timed.
Proof.
  destruct (dispatch all_io (λ _, 0%Z) (mkCommand Set_ "SET" ["a"; "1"]) timed) as [[st' r]| |] eqn:E;
    [|discriminate E..].
  exists st'. pose proof (dispatch_frame _ _ _ _ _ _ E) as (Hm & _ & _ & Hd).
  split; [injection E as <- <-; reflexivity|]. split; [exact Hm|]. by apply Hd.
Defined.

Lemma error_reply_changes_nothing_witness :
  ∃ st' r, dispatch all_io (λ _, 0%Z) (mkCommand Set_ "SET" ["a"]) timed ⇓ (st', r) ∧
    starts_with "-ERR" r = true ∧ storage st' = storage timed.
Proof.
  destruct (dispatch all_io (λ _, 0%Z) (mkCommand Set_ "SET" ["a"]) timed) as [[st' r]| |] eqn:E;
    [|discriminate E..].
  assert (starts_with "-ERR" r = true) as Hr by (injection E as <- <-; reflexivity).
  exists st', r. split; [done|]. split; [exact Hr|].
  by apply (error_reply_changes_nothing _ _ _ _ _ _ E Hr).
Defined.

Lemma auth_not_enforced_witness :
  dispatch all_io (λ _, 0%Z) (mkCommand Flushdb "FLUSHDB" []) (with_gate (AuthGate.mk "other") timed) =
  prod_map (with_gate (AuthGate.mk "other")) id <$>
    dispatch all_io (λ _, 0%Z) (mkCommand Flushdb "FLUSHDB" []) timed.
Proof. apply auth_not_enforced. discriminate. Defined.

Lemma set_then_get_witness :
  ∃ st1 st2 r, dispatch all_io (λ _, 0%Z) (mkCommand Set_ "set" ["a"; "x"; "y"]) timed ⇓ (st1, "+OK") ∧
    dispatch all_io (λ _, 9%Z) (mkCommand Get "get" ["a"]) st1 ⇓ (st2, r) ∧
    read_bulk r = Some (Some "x y", "").
Proof.
  destruct (set_then_get all_io (λ _, 0%Z) "set" "a" "x" ["y"] timed all_io (λ _, 9%Z) "get" timed_ok)
    as (st1 & st2 & r & H1 & H2 & H3 & _).
  exists st1, st2, r. split; [exact H1|]. split; [exact H2|exact H3].
Defined.

Lemma mget_reply_reads_back_witness :
  ∃ st' r, dispatch all_io (λ i, 49 + Z.of_nat i)%Z (mkCommand Mget "MGET" ["k"; "k"; "z"]) timed ⇓ (st', r) ∧
    read_array r = Some ([Some "v"; None; None], "").
Proof.
  destruct (mget_reply_reads_back all_io (λ i, 49 + Z.of_nat i)%Z "MGET" "k" ["k"; "z"] timed timed_ok)
    as (st' & r & H1 & _ & H2).
  exists st', r. split; [exact H1|]. rewrite H2. reflexivity.
Defined.

Lemma wire_scan_complete_witness :
  wire_scan 1 all_io (λ _, 0%Z) "0" ["COUNT"; "0"] timed = Some [] ∧
  ∃ l, wire_scan 2 all_io (λ _, 0%Z) "0" ["COUNT"; "1"] timed = Some (Some <$> l) ∧ NoDup l ∧
    ∀ k, k ∈ l ↔ StorageEngine.exists_ k (storage timed) = true ∧ KeyScanner.matches k "*" = true.
Proof.
  split.
  - apply (wire_scan_complete all_io (λ _, 0%Z) ["COUNT"; "0"] 0 "*" timed);
      [apply StorageEngine.timed_ok|reflexivity|vm_compute; intros [=]..].
  - apply (wire_scan_complete all_io (λ _, 0%Z) ["COUNT"; "1"] 1 "*" timed);
      [apply StorageEngine.timed_ok|reflexivity|vm_compute; intros [=]..].
Defined.

End Witnesses.
