(* ===== verification/Calls.v ===== *)
(** * Requests as sequences of table calls

    A request is not one step of the server: [StorageEngine] (src/storage/
    storage_engine.cpp) makes one or more calls of its hash table for each operation,
    the batch, counter and command handlers make several operations, and other
    threads may run between any two calls.  Here the operations are trees of table
    calls ([prog]): the calls they make, and how they go on with each answer.  Run
    without interruption they are the operations of [Engine.v] and the handlers of
    [Dispatcher.v].  (That a call is not one step either is the subject of
    [Races.v]; a walk over the whole table is one call here.  The copies that [set]
    makes through the string pool return their argument and do not touch the
    table.) *)

From S2P Require Import Prelude CppStd Memory Table Scanner Engine Clients Wire Persistence Pubsub Admin Dispatcher.

Module Calls.

(** A call of the table and what follows, [for_each] with the pairs it visits, a
    scanner's page, or the end. *)
Inductive prog (A : Type) : Type :=
| Done (o : Outcome A)
| Do (o : HashTable.op) (next : HashTable.answer → prog A)
| Walk (next : list (string * StorageEntry) → prog A)
| Page (cursor : KeyScanner.ScanCursor) (count : N) (pattern : string) (next : KeyScanner.ScanPage → prog A).
Arguments Done {A}.
Arguments Do {A}.
Arguments Walk {A}.
Arguments Page {A}.

Fixpoint bind {A B} (f : A → prog B) (p : prog A) : prog B :=
  match p with
  | Done (Ret a) => f a
  | Done (Throw e) => Done (Throw e)
  | Done Undefined => Done Undefined
  | Do o next => Do o (λ a, bind f (next a))
  | Walk next => Walk (λ l, bind f (next l))
  | Page c n pat next => Page c n pat (λ page, bind f (next page))
  end.

#[global] Instance prog_ret : MRet prog := λ A a, Done (Ret a).
#[global] Instance prog_bind : MBind prog := λ A B f p, bind f p.

(** ** Table calls *)

Definition find (k : string) : prog (option StorageEntry) :=
  Do (HashTable.Find k) (λ a, Done (match a with HashTable.AEntry r => Ret r | _ => Undefined end)).
Definition truth (a : HashTable.answer) : Outcome bool :=
  match a with HashTable.ABool b => Ret b | _ => Undefined end.
Definition insert (k : string) (e : StorageEntry) : prog bool := Do (HashTable.Insert k e) (λ a, Done (truth a)).
Definition erase (k : string) : prog bool := Do (HashTable.Erase k) (λ a, Done (truth a)).
Definition contains (k : string) : prog bool := Do (HashTable.Contains k) (λ a, Done (truth a)).
Definition size : prog nat :=
  Do HashTable.Size (λ a, Done (match a with HashTable.ACount n => Ret n | _ => Undefined end)).
Definition clear : prog () := Do HashTable.Clear (λ _, mret ()).
Definition for_each : prog (list (string * StorageEntry)) := Walk mret.

(** ** StorageEngine *)

Definition set (k v : string) : prog bool := _ ← insert k (mkEntry v None); mret true.

Definition is_expired (now : time_point) (k : string) : prog bool :=
  found ← find k; mret (match found with Some e => expired now e | None => false end).

Definition get (now : time_point) (k : string) : prog (option string) :=
  e ← is_expired now k;
  if e : bool then mret None else found ← find k; mret (value <$> found).

Definition remove (k : string) : prog bool := erase k.
Definition exists_ (k : string) : prog bool := contains k.
Definition entry_count : prog nat := size.

Definition set_ttl (now : time_point) (k : string) (ttl : Z) : prog bool :=
  found ← find k;
  match found with
  | None => mret false
  | Some e =>
      at_ ← Done (deadline now ttl);
      _ ← insert k (mkEntry (value e) (Some at_));
      mret true
  end.

Definition touch (now1 now2 : time_point) (k : string) : prog () :=
  found ← find k;
  match found with
  | Some (mkEntry v (Some at_)) =>
      at' ← Done (extended now1 now2 at_);
      _ ← insert k (mkEntry v (Some at'));
      mret ()
  | _ => mret ()
  end.

Definition ttl_key_count : prog nat :=
  l ← for_each; mret (foldl (λ n b, match expires_at b.2 with Some _ => S n | None => n end) 0 l).

Fixpoint erase_all (ks : list string) : prog () :=
  match ks with [] => mret () | k :: ks' => _ ← erase k; erase_all ks' end.

Definition purge_expired (clock : nat → time_point) : prog () :=
  l ← for_each; erase_all (StorageEngine.sweep clock 0 l).

Definition scan_keys (c : KeyScanner.ScanCursor) (count : N) (pattern : string) : prog KeyScanner.ScanPage :=
  Page c count pattern mret.

Definition clear_all : prog () := clear.

Definition dump_entries : prog (list (string * string)) := for_each ≫= λ l : list (string * StorageEntry), mret (prod_map id value <$> l).

(** ** BatchOperations and CounterStore *)

Fixpoint mget (clock : nat → time_point) (i : nat) (ks : list string) : prog (list (option string)) :=
  match ks with
  | [] => mret []
  | k :: ks' => v ← get (clock i) k; vs ← mget clock (S i) ks'; mret (v :: vs)
  end.

(** The pairs from the next one on; [written] counts those stored. *)
Fixpoint mset (pairs : list BatchSetPair) (written : nat) : prog nat :=
  match pairs with
  | [] => mret written
  | p :: ps => ok ← set (pair_key p) (pair_value p); mset ps (if ok : bool then S written else written)
  end.

Definition increment (now : time_point) (key : string) (delta : Z) : prog Z :=
  raw ← get now key;
  current ← Done (parse_value raw);
  next ← Done (checked64 (current + delta));
  _ ← set key (format_value next);
  mret next.

Definition decrement (now : time_point) (key : string) (delta : Z) : prog Z :=
  d ← Done (checked64 (- delta)); increment now key d.

(** ** Command handlers *)

Fixpoint count_existing (ks : list string) (n : Z) : prog Z :=
  match ks with [] => mret n | k :: ks' => b ← exists_ k; count_existing ks' (if b : bool then n + 1 else n)%Z end.

Definition arity (command : string) : prog string :=
  mret (err_response ("wrong number of arguments for " +:+ command)).

(** The handlers of the commands that use the storage and nothing else. *)
Definition request (clock : nat → time_point) (ty : CommandType) (args : list string) : option (prog string) :=
  match ty, args with
  | Get, [key] => Some (v ← get (clock 0) key;
      mret (match v with None => null_bulk_response | Some v => bulk_string_response v end))
  | Get, _ => Some (arity "GET")
  | Set_, key :: first :: rest => Some (_ ← set key (join_words first rest); mret ok_response)
  | Set_, _ => Some (arity "SET")
  | Delete, [key] => Some (b ← remove key; mret (integer_response (if b : bool then 1 else 0)))
  | Delete, _ => Some (arity "DELETE")
  | Exists_, [] => Some (arity "EXISTS")
  | Exists_, _ => Some (n ← count_existing args 0; mret (integer_response n))
  | Expire, [key; amount] => Some (seconds ← Done (stoll amount);
      b ← set_ttl (clock 0) key seconds; mret (integer_response (if b : bool then 1 else 0)))
  | Expire, _ => Some (arity "EXPIRE")
  | Mget, [] => Some (arity "MGET")
  | Mget, _ => Some (vs ← mget clock 0 args;
      mret ("*" +:+ size_to_string (length vs) +:+ crlf +:+ bulk_lines vs))
  | Mset, _ => Some (if (length args <? 2) || negb (Nat.even (length args)) then arity "MSET"
      else _ ← mset (pairs_of args) 0; mret ok_response)
  | Incr, [key] => Some (v ← increment (clock 0) key 1; mret (integer_response v))
  | Incr, _ => Some (arity "INCR")
  | Decr, [key] => Some (v ← decrement (clock 0) key 1; mret (integer_response v))
  | Decr, _ => Some (arity "DECR")
  | Incrby, [key; amount] => Some (delta ← Done (stoll amount);
      v ← increment (clock 0) key delta; mret (integer_response v))
  | Incrby, _ => Some (arity "INCRBY")
  | Scan, [] => Some (arity "SCAN")
  | Scan, token :: options => Some (cursor ← Done (decode_scan_cursor token);
      '(count, pattern) ← Done (scan_options options 10 "*");
      page ← scan_keys cursor count pattern; mret (scan_reply page))
  | Flushdb, _ => Some (_ ← clear_all; mret ok_response)
  | Dbsize, _ => Some (n ← entry_count; mret (integer_response (Z.of_nat n)))
  | _, _ => None
  end.

(** ** Without interruption *)

Section Alone.
Context `{StdHash}.

(** The calls one after the other: the table, and the result. *)
Fixpoint alone {A} (p : prog A) (h : HashTable.t) : HashTable.t * Outcome A :=
  match p with
  | Done o => (h, o)
  | Do o next => let '(h', a) := HashTable.step h o in alone (next a) h'
  | Walk next => alone (next (HashTable.binding <$> HashTable.nodes h)) h
  | Page c n pat next => alone (next (KeyScanner.scan h c n pat)) h
  end.

Lemma alone_bind {A B} (f : A → prog B) p h :
  alone (p ≫= f) h =
  let '(h', o) := alone p h in
  match o with Ret a => alone (f a) h' | Throw e => (h', Throw e) | Undefined => (h', Undefined) end.
Proof.
  unfold mbind, prog_bind. revert h. induction p as [[a|e|]|o next IH|next IH|c n pat next IH]; intros h; simpl; try done.
  destruct (HashTable.step h o) as [h' a]. apply IH.
Qed.

(** *** The engine *)

Lemma find_alone k h : alone (find k) h = (h, Ret (HashTable.find k h)).
Proof. done. Qed.

Lemma insert_alone k e h : alone (insert k e) h = ((HashTable.insert h k e).1, Ret (HashTable.insert h k e).2).
Proof. unfold insert. cbn [alone HashTable.step]. by destruct (HashTable.insert h k e). Qed.

Lemma erase_alone k h : alone (erase k) h = ((HashTable.erase k h).1, Ret (HashTable.erase k h).2).
Proof. unfold erase. cbn [alone HashTable.step]. by destruct (HashTable.erase k h). Qed.

Lemma set_alone k v h : alone (set k v) h = ((HashTable.insert h k (mkEntry v None)).1, Ret true).
Proof. unfold set. by rewrite alone_bind, insert_alone. Qed.

Lemma get_alone now k h : alone (get now k) h = (h, Ret (live now (HashTable.find k h))).
Proof.
  unfold get, is_expired. rewrite !alone_bind, find_alone. cbn [alone]. unfold live.
  destruct (HashTable.find k h) as [e|] eqn:E; cbn [alone mret prog_ret].
  - destruct (expired now e); [done|]. rewrite alone_bind, find_alone, E. done.
  - rewrite alone_bind, find_alone, E. done.
Qed.

Lemma erase_all_alone ks h : alone (erase_all ks) h = (foldl (λ h k, (HashTable.erase k h).1) h ks, Ret ()).
Proof.
  revert h. induction ks as [|k ks IH]; intros h; [done|]. cbn [erase_all foldl]. rewrite alone_bind, erase_alone. apply IH.
Qed.

(** What an engine operation returns, as the end of its calls. *)
Definition ends_as {A} (o : Outcome (StorageEngine.t * A)) (h : HashTable.t) : HashTable.t * Outcome A → Prop := λ r,
  match o with
  | Ret (e, a) => r = (StorageEngine.table e, Ret a)
  | Throw x => r = (h, Throw x)
  | Undefined => r = (h, Undefined)
  end.

Lemma set_ttl_alone now k ttl e :
  ends_as (StorageEngine.set_ttl now k ttl e) (StorageEngine.table e) (alone (set_ttl now k ttl) (StorageEngine.table e)).
Proof.
  unfold set_ttl, StorageEngine.set_ttl. rewrite alone_bind, find_alone.
  destruct (HashTable.find k (StorageEngine.table e)) as [f|]; [|done]. rewrite alone_bind. cbn [alone].
  destruct (deadline now ttl) as [at_| |]; [|done..]. rewrite alone_bind, insert_alone. done.
Qed.

Lemma touch_alone now1 now2 k e :
  ends_as ((., ()) <$> StorageEngine.touch now1 now2 k e) (StorageEngine.table e)
    (alone (touch now1 now2 k) (StorageEngine.table e)).
Proof.
  unfold touch, StorageEngine.touch. rewrite alone_bind, find_alone.
  destruct (HashTable.find k (StorageEngine.table e)) as [[v [at_|]]|]; [|done..]. rewrite alone_bind.
  cbn [alone expires_at]. destruct (extended now1 now2 at_) as [at'| |]; [|done..]. rewrite alone_bind, insert_alone. done.
Qed.

(** The operations of the engine are the calls made without interruption. *)
Lemma engine_calls e :
  let h := StorageEngine.table e in
  (∀ k v, ends_as (Ret (StorageEngine.set k v e)) h (alone (set k v) h)) ∧
  (∀ now k, alone (get now k) h = (h, Ret (StorageEngine.get now k e))) ∧
  (∀ k, ends_as (Ret (StorageEngine.remove k e)) h (alone (remove k) h)) ∧
  (∀ k, alone (exists_ k) h = (h, Ret (StorageEngine.exists_ k e))) ∧
  (∀ now k, alone (is_expired now k) h = (h, Ret (StorageEngine.is_expired now k e))) ∧
  (∀ now k ttl, ends_as (StorageEngine.set_ttl now k ttl e) h (alone (set_ttl now k ttl) h)) ∧
  (∀ now1 now2 k, ends_as ((., ()) <$> StorageEngine.touch now1 now2 k e) h (alone (touch now1 now2 k) h)) ∧
  (∀ clock, alone (purge_expired clock) h = (StorageEngine.table (StorageEngine.purge_expired clock e), Ret ())) ∧
  (∀ c n pat, alone (scan_keys c n pat) h = (h, Ret (StorageEngine.scan_keys c n pat e))) ∧
  alone entry_count h = (h, Ret (StorageEngine.entry_count e)) ∧
  alone ttl_key_count h = (h, Ret (StorageEngine.ttl_key_count e)) ∧
  alone dump_entries h = (h, Ret (StorageEngine.dump_entries e)) ∧
  alone clear_all h = (StorageEngine.table (StorageEngine.clear_all e), Ret ()).
Proof.
  cbv zeta. split_and!; try done.
  - intros k v. pose proof (StorageEngine.set_table k v e) as Ht.
    assert ((StorageEngine.set k v e).2 = true) as Hb
      by (unfold StorageEngine.set; by destruct (StorageEngine.copy v e), (StorageEngine.copy k _)).
    unfold ends_as. rewrite set_alone. destruct (StorageEngine.set k v e) as [e' b]. simpl in Ht, Hb. subst b. by rewrite Ht.
  - intros now k. by rewrite get_alone, StorageEngine.get_spec.
  - intros k. unfold remove, StorageEngine.remove. rewrite erase_alone. unfold ends_as.
    by destruct (HashTable.erase k (StorageEngine.table e)).
  - intros. apply set_ttl_alone.
  - intros. apply touch_alone.
  - intros clock. unfold purge_expired, for_each. rewrite alone_bind. cbn [alone mret prog_ret].
    rewrite erase_all_alone. unfold StorageEngine.purge_expired. cbn [StorageEngine.table StorageEngine.with_table].
    by rewrite StorageEngine.expired_keys_sweep.
  - unfold ttl_key_count. rewrite alone_bind. cbn [alone for_each mret prog_ret]. unfold StorageEngine.ttl_key_count.
    by rewrite HashTable.for_each_bindings.
  - unfold dump_entries. rewrite alone_bind. cbn [alone for_each mret prog_ret]. by rewrite StorageEngine.dump_bindings.
Qed.

(** *** Batches and counters *)

Lemma mget_alone clock i ks e :
  alone (mget clock i ks) (StorageEngine.table e) =
  (StorageEngine.table e, Ret (imap (λ j k, StorageEngine.get (clock (i + j)) k e) ks)).
Proof.
  revert i. induction ks as [|k ks IH]; intros i; [done|]. cbn [mget]. rewrite alone_bind, get_alone.
  rewrite alone_bind, IH. cbn [alone mret prog_ret imap]. rewrite Nat.add_0_r, <-StorageEngine.get_spec.
  do 3 f_equal. apply imap_ext. intros j k' _. simpl. by rewrite Nat.add_succ_r.
Qed.

Lemma mset_alone pairs e n :
  alone (mset pairs n) (StorageEngine.table e) =
  let '(e', written) := foldl (λ '(s, written) pair,
     let '(s, ok) := st_set (pair_key pair) (pair_value pair) s in
     (s, if ok : bool then S written else written)) (e, n) pairs in
  (StorageEngine.table e', Ret written).
Proof.
  revert e n. induction pairs as [|[k v] pairs IH]; intros e n; [done|]. cbn [mset foldl]. rewrite alone_bind, set_alone.
  pose proof (StorageEngine.set_table k v e) as Ht. cbn [st_set StorageEngine.engine_storage pair_key pair_value].
  assert ((StorageEngine.set k v e).2 = true) as Hb by (unfold StorageEngine.set; by do 2 case_match).
  destruct (StorageEngine.set k v e) as [e' b]. cbn [fst snd] in Ht, Hb. rewrite <-Ht, Hb. apply IH.
Qed.

Lemma increment_alone now key d e :
  ends_as (Clients.increment now key d e) (StorageEngine.table e) (alone (increment now key d) (StorageEngine.table e)).
Proof.
  unfold increment, Clients.increment. rewrite alone_bind, get_alone, <-StorageEngine.get_spec.
  cbn [st_get StorageEngine.engine_storage]. rewrite alone_bind. cbn [alone].
  destruct (parse_value _) as [c| |]; [|done..]. msimp. rewrite alone_bind. cbn [alone].
  destruct (checked64 _) as [n| |]; [|done..]. msimp. rewrite alone_bind, set_alone. cbn [alone mret prog_ret ends_as].
  by rewrite <-StorageEngine.set_table.
Qed.

Lemma decrement_alone now key d e :
  ends_as (Clients.decrement now key d e) (StorageEngine.table e) (alone (decrement now key d) (StorageEngine.table e)).
Proof.
  unfold decrement, Clients.decrement. rewrite alone_bind. cbn [alone].
  destruct (checked64 _) as [n| |]; [|done..]. apply increment_alone.
Qed.

Lemma count_existing_alone ks n e :
  alone (count_existing ks n) (StorageEngine.table e) =
  (StorageEngine.table e, Ret (foldl (λ n k, if StorageEngine.exists_ k e then (n + 1)%Z else n) n ks)).
Proof.
  revert n. induction ks as [|k ks IH]; intros n; [done|]. cbn [count_existing foldl]. rewrite alone_bind.
  destruct (engine_calls e) as (_ & _ & _ & -> & _). apply IH.
Qed.

(** A reply made of the result of an operation. *)
Lemma ends_as_reply {A} o h (p : prog A) (f : A → string) :
  ends_as o h (alone p h) →
  ends_as (prod_map id f <$> o) h (alone (a ← p; mret (f a)) h).
Proof.
  intros Ho. rewrite alone_bind. destruct o as [[e a]|x|]; simpl in Ho; rewrite Ho; done.
Qed.

(** *** The handlers *)

(** The part of a reply's state that a request of this file changes. *)
Definition stored (o : Outcome (State StorageEngine.t * string)) : Outcome (StorageEngine.t * string) :=
  prod_map storage id <$> o.

Section Handlers.
Variables (io : Io) (clock : nat → time_point) (st : State StorageEngine.t).
Let e := storage st.
Let h := StorageEngine.table e.

Lemma read_handlers key :
  ends_as (stored (handle_get clock [key] st)) h (alone (v ← get (clock 0) key;
    mret (match v with None => null_bulk_response | Some v => bulk_string_response v end)) h) ∧
  (∀ ks, ks ≠ [] → ends_as (stored (handle_exists ks st)) h
     (alone (n ← count_existing ks 0; mret (integer_response n)) h)) ∧
  (∀ ks, ks ≠ [] → ends_as (stored (handle_mget clock ks st)) h
     (alone (vs ← mget clock 0 ks; mret ("*" +:+ size_to_string (length vs) +:+ crlf +:+ bulk_lines vs)) h)).
Proof.
  split_and!.
  - rewrite alone_bind. destruct (engine_calls e) as (_ & Hget & _). rewrite Hget. unfold handle_get.
    cbn [st_get StorageEngine.engine_storage]. fold e. by destruct (StorageEngine.get (clock 0) key e).
  - intros [|k ks] Hks; [done|]. unfold h. rewrite alone_bind, count_existing_alone. done.
  - intros [|k ks] Hks; [done|]. unfold h. rewrite alone_bind, mget_alone. done.
Qed.

Lemma write_handlers key :
  (∀ first rest, ends_as (stored (handle_set (key :: first :: rest) st)) h
     (alone (_ ← set key (join_words first rest); mret ok_response) h)) ∧
  ends_as (stored (handle_delete [key] st)) h
    (alone (b ← remove key; mret (integer_response (if b : bool then 1 else 0))) h) ∧
  (∀ l, ends_as (stored (handle_mset l st)) h
     (alone (if (length l <? 2) || negb (Nat.even (length l)) then arity "MSET"
             else _ ← mset (pairs_of l) 0; mret ok_response) h)).
Proof.
  destruct (engine_calls e) as (_ & _ & Hrem & _). split_and!.
  - intros first rest. rewrite alone_bind, set_alone. unfold h. rewrite <-StorageEngine.set_table. done.
  - specialize (Hrem key). rewrite alone_bind. unfold handle_delete. cbn [st_remove StorageEngine.engine_storage]. fold e.
    destruct (StorageEngine.remove key e) as [e' b].
    change (alone (remove key) h = (StorageEngine.table e', Ret b)) in Hrem. by rewrite Hrem.
  - intros l. unfold handle_mset. destruct (_ || _); [done|]. rewrite alone_bind. unfold h.
    rewrite (mset_alone (pairs_of l) e 0). unfold Clients.mset. fold e. by destruct (foldl _ _ _).
Qed.

(** The handlers that end with the result of an operation that may fail. *)
Lemma outcome_handlers key amount :
  ends_as (stored (handle_expire clock [key; amount] st)) h
    (alone (seconds ← Done (stoll amount); b ← set_ttl (clock 0) key seconds;
            mret (integer_response (if b : bool then 1 else 0))) h) ∧
  ends_as (stored (handle_incr clock [key] st)) h
    (alone (v ← increment (clock 0) key 1; mret (integer_response v)) h) ∧
  ends_as (stored (handle_decr clock [key] st)) h
    (alone (v ← decrement (clock 0) key 1; mret (integer_response v)) h) ∧
  ends_as (stored (handle_incrby clock [key; amount] st)) h
    (alone (delta ← Done (stoll amount); v ← increment (clock 0) key delta; mret (integer_response v)) h).
Proof.
  split_and!.
  - rewrite alone_bind. cbn [alone]. unfold handle_expire. destruct (stoll amount) as [n| |]; [|done..]. msimp.
    pose proof (ends_as_reply _ h _ (λ b : bool, integer_response (if b then 1 else 0)) (set_ttl_alone (clock 0) key n e)) as Hr.
    cbn [st_set_ttl StorageEngine.engine_storage]. fold e.
    destruct (StorageEngine.set_ttl (clock 0) key n e) as [[e' []]| |]; exact Hr.
  - pose proof (ends_as_reply _ h _ integer_response (increment_alone (clock 0) key 1 e)) as Hr.
    unfold handle_incr. fold e. destruct (Clients.increment (clock 0) key 1 e) as [[e' v]| |]; exact Hr.
  - pose proof (ends_as_reply _ h _ integer_response (decrement_alone (clock 0) key 1 e)) as Hr.
    unfold handle_decr. fold e. destruct (Clients.decrement (clock 0) key 1 e) as [[e' v]| |]; exact Hr.
  - rewrite alone_bind. cbn [alone]. unfold handle_incrby. destruct (stoll amount) as [n| |]; [|done..]. msimp.
    pose proof (ends_as_reply _ h _ integer_response (increment_alone (clock 0) key n e)) as Hr.
    fold e. destruct (Clients.increment (clock 0) key n e) as [[e' v]| |]; exact Hr.
Qed.

Lemma scan_handler token options :
  ends_as (stored (handle_scan (token :: options) st)) h
    (alone (cursor ← Done (decode_scan_cursor token); '(count, pattern) ← Done (scan_options options 10 "*");
            page ← scan_keys cursor count pattern; mret (scan_reply page)) h).
Proof.
  rewrite alone_bind. cbn [alone]. unfold handle_scan. destruct (decode_scan_cursor token) as [c| |]; [|done..]. msimp.
  rewrite alone_bind. cbn [alone]. by destruct (scan_options options 10 "*") as [[n pat]| |].
Qed.

End Handlers.

(** Run without interruption the requests are the handlers: for each command on keys,
    counters, batches and scans, and for FLUSHDB and DBSIZE, the calls end with the
    table and the reply of [dispatch], or with its exception or undefined behaviour and
    the table as it was. *)
Lemma dispatch_alone io clock cmd (st : State StorageEngine.t) p :
  request clock (type cmd) (args cmd) = Some p →
  let h := StorageEngine.table (storage st) in
  ends_as (stored (dispatch io clock cmd st)) h (alone p h).
Proof.
  intros Hp h. unfold dispatch. set (st1 := with_metrics _ st). change h with (StorageEngine.table (storage st1)).
  clearbody st1. clear h. revert Hp. generalize (args cmd). intros l.
  destruct (type cmd); cbn [request handler_of]; try discriminate.
  - destruct l as [|k []]; intros [= <-]; [reflexivity|apply (read_handlers clock st1 k)|reflexivity].
  - destruct l as [|k [|v l]]; intros [= <-]; [reflexivity..|apply (write_handlers st1 k)].
  - destruct l as [|k []]; intros [= <-]; [reflexivity|apply (write_handlers st1 k)|reflexivity].
  - destruct l as [|k l]; intros [= <-]; [reflexivity|by apply (read_handlers clock st1 k)].
  - destruct l as [|k [|v []]]; intros [= <-]; [reflexivity..|apply (outcome_handlers clock st1 k v)|reflexivity].
  - destruct l as [|k l]; intros [= <-]; [reflexivity|by apply (read_handlers clock st1 k)].
  - intros [= <-]. apply (write_handlers st1 "").
  - destruct l as [|k []]; intros [= <-]; [reflexivity|apply (outcome_handlers clock st1 k "")|reflexivity].
  - destruct l as [|k []]; intros [= <-]; [reflexivity|apply (outcome_handlers clock st1 k "")|reflexivity].
  - destruct l as [|k [|v []]]; intros [= <-]; [reflexivity..|apply (outcome_handlers clock st1 k v)|reflexivity].
  - destruct l as [|token options]; intros [= <-]; [reflexivity|apply scan_handler].
  - intros Hp. destruct l; injection Hp as <-; reflexivity.
  - intros Hp. destruct l; injection Hp as <-; reflexivity.
Qed.

End Alone.
End Calls.
