(* ===== verification/Atomicity.v ===== *)
(** * Requests that interleave

    The workers of the server run their requests on one table, and a table call of one
    may fall between two calls of another.  Requests on different keys do not notice:
    each replies as if it had the server to itself, and the keys end as it leaves
    them.  Requests on one key may notice: two INCR can count as one, and a sweep can
    delete a value that was stored after the one that expired. *)

From S2P Require Import Prelude CppStd Memory Table Scanner Engine Clients Wire Persistence Pubsub Admin Dispatcher Calls.

Module Atomicity.
Import Calls.

Section Interleave.
Context `{StdHash} {A : Type}.
Implicit Types (p : prog A) (h : HashTable.t) (K : gset string).

(** One call of a request. *)
Definition turn p h : prog A * HashTable.t :=
  match p with
  | Done o => (Done o, h)
  | Do o next => let '(h', a) := HashTable.step h o in (next a, h')
  | Walk next => (next (HashTable.binding <$> HashTable.nodes h), h)
  | Page c n pat next => (next (KeyScanner.scan h c n pat), h)
  end.

(** The schedule says whose turn it is. *)
Fixpoint interleave (schedule : list nat) (ps : list (prog A)) h : list (prog A) * HashTable.t :=
  match schedule with
  | [] => (ps, h)
  | i :: schedule' =>
      match ps !! i with
      | Some p => let '(p', h') := turn p h in interleave schedule' (<[i := p']> ps) h'
      | None => interleave schedule' ps h
      end
  end.

(** A request that makes [n] calls alone, and the calls it needs to end. *)
Fixpoint solo (n : nat) p h : prog A * HashTable.t :=
  match n with
  | O => (p, h)
  | S n' => let '(p', h') := turn p h in solo n' p' h'
  end.

Fixpoint turns p h : nat :=
  match p with
  | Done _ => 0
  | Do o next => let '(h', a) := HashTable.step h o in S (turns (next a) h')
  | Walk next => S (turns (next (HashTable.binding <$> HashTable.nodes h)) h)
  | Page c n pat next => S (turns (next (KeyScanner.scan h c n pat)) h)
  end.

Lemma solo_done n o h : solo n (Done o) h = (Done o, h).
Proof. induction n; [done|]. simpl. done. Qed.

Lemma solo_alone n p h : turns p h ≤ n → solo n p h = (Done (alone p h).2, (alone p h).1).
Proof.
  revert p h. induction n as [|n IH]; intros [o|o next|next|c m pat next] h; simpl; try (by rewrite ?solo_done);
    try (destruct (HashTable.step h o)); intros Hn; try lia; apply IH; lia.
Qed.

Lemma solo_S n p h : solo (S n) p h = let '(p', h') := solo n p h in turn p' h'.
Proof.
  revert p h. induction n as [|n IH]; intros p h; [simpl; by destruct (turn p h)|].
  cbn [solo] in *. destruct (turn p h) as [p1 h1]. apply IH.
Qed.

(** Several turns of one request in a row. *)
Lemma interleave_run n i schedule ps p h :
  ps !! i = Some p →
  interleave (replicate n i ++ schedule) ps h =
  let '(p', h') := solo n p h in interleave schedule (<[i := p']> ps) h'.
Proof.
  revert ps p h. induction n as [|n IH]; intros ps p h Hp; cbn [replicate app interleave solo];
    [by rewrite list_insert_id|].
  rewrite Hp. destruct (turn p h) as [p1 h1]. rewrite (IH _ p1) by (apply list_lookup_insert_eq; by eapply lookup_lt_Some).
  destruct (solo n p1 h1). by rewrite list_insert_insert_eq.
Qed.

(** ** Requests on keys *)

(** The key a call is about. *)
Definition op_key (o : HashTable.op) : option string :=
  match o with
  | HashTable.Insert k _ | HashTable.Find k | HashTable.Erase k | HashTable.Contains k => Some k
  | HashTable.Size | HashTable.Clear => None
  end.

(** A request whose calls are all about keys in [K]. *)
Inductive within K : prog A → Prop :=
| within_done o : within K (Done o)
| within_do o k next : op_key o = Some k → k ∈ K → (∀ a, within K (next a)) → within K (Do o next).

(** Two tables that hold the same entries for the keys in [K]. *)
Definition agree K h g : Prop := ∀ k, k ∈ K → HashTable.to_map h !! k = HashTable.to_map g !! k.

Lemma spec_step_key o k (m1 m2 : gmap string StorageEntry) :
  op_key o = Some k → m1 !! k = m2 !! k →
  (HashTable.spec_step m1 o).2 = (HashTable.spec_step m2 o).2 ∧
  (HashTable.spec_step m1 o).1 !! k = (HashTable.spec_step m2 o).1 !! k.
Proof.
  intros Hk Hm. destruct o; simplify_eq/=; rewrite ?Hm, ?lookup_insert_eq, ?lookup_delete_eq; done.
Qed.

Lemma spec_step_other o k k' (m : gmap string StorageEntry) :
  op_key o = Some k → k' ≠ k → (HashTable.spec_step m o).1 !! k' = m !! k'.
Proof. intros Hk Hne. destruct o; simplify_eq/=; rewrite ?lookup_insert_ne, ?lookup_delete_ne by done; done. Qed.

(** A call on tables that agree. *)
Lemma turn_agree K p h g :
  HashTable.wf h → HashTable.wf g → within K p → agree K h g →
  (turn p h).1 = (turn p g).1 ∧ within K (turn p h).1 ∧ HashTable.wf (turn p h).2 ∧ HashTable.wf (turn p g).2 ∧
  agree K (turn p h).2 (turn p g).2.
Proof.
  intros Hh Hg Hw Ha. destruct Hw as [o|o k next Hk HK Hn]; [cbn [turn fst snd]; split_and!; try done; constructor|]. cbn [turn].
  destruct (HashTable.step_simulates h o Hh) as (Hwh & Hmh & Hah), (HashTable.step_simulates g o Hg) as (Hwg & Hmg & Hag).
  destruct (spec_step_key o k _ _ Hk (Ha k HK)) as [Hans Hval]. rewrite <-Hah, <-Hag in Hans.
  destruct (HashTable.step h o) as [h1 a], (HashTable.step g o) as [g1 b]. cbn [fst snd] in *.
  clear Hah Hag. subst b.
  split_and!; [done|apply Hn|done|done|]. intros k' HK'. rewrite Hmh, Hmg. destruct (decide (k' = k)) as [->|Hne]; [done|].
  rewrite !(spec_step_other o k) by done. by apply Ha.
Qed.

(** A call leaves the other keys alone. *)
Lemma turn_frame K p h k :
  HashTable.wf h → within K p → k ∉ K →
  HashTable.wf (turn p h).2 ∧ HashTable.to_map (turn p h).2 !! k = HashTable.to_map h !! k.
Proof.
  intros Hh Hw HK. destruct Hw as [o|o k' next Hk HK' Hn]; [done|]. cbn [turn].
  destruct (HashTable.step_simulates h o Hh) as (Hwh & Hmh & _). destruct (HashTable.step h o) as [h1 a].
  cbn [fst snd] in *. split; [done|]. rewrite Hmh. apply (spec_step_other o k'); [done|]. by intros ->.
Qed.

(** ** Interleaving requests on different keys *)

Definition separate (Ks : list (gset string)) : Prop :=
  ∀ i j K L, Ks !! i = Some K → Ks !! j = Some L → i ≠ j → K ## L.

(** How often it is the turn of [i]. *)
Definition occurrences (i : nat) (schedule : list nat) : nat := length (filter (λ j, j = i) schedule).

Lemma separate_agree Ks i j K L p h g :
  separate Ks → Ks !! i = Some K → Ks !! j = Some L → i ≠ j → HashTable.wf h → within L p → agree K h g →
  agree K (turn p h).2 g.
Proof.
  intros Hs Hi Hj Hne Hh Hw Ha k HK. rewrite (proj2 (turn_frame L p h k Hh Hw ltac:(specialize (Hs i j K L Hi Hj Hne); set_solver))).
  by apply Ha.
Qed.

(** Each request goes through the states it would go through on a table of its own
    that starts with the same entries for its keys. *)
Lemma interleave_solo schedule ps Ks h :
  HashTable.wf h → separate Ks → Forall2 within Ks ps →
  let '(ps', h') := interleave schedule ps h in
  HashTable.wf h' ∧ length ps' = length ps ∧
  (∀ i K p g, Ks !! i = Some K → ps !! i = Some p → HashTable.wf g → agree K h g →
     ps' !! i = Some (solo (occurrences i schedule) p g).1 ∧ agree K h' (solo (occurrences i schedule) p g).2) ∧
  (∀ k, (∀ K, K ∈ Ks → k ∉ K) → HashTable.to_map h' !! k = HashTable.to_map h !! k).
Proof.
  intros Hh Hsep Hw. revert ps h Hh Hw. induction schedule as [|j schedule IH]; intros ps h Hh Hw; cbn [interleave].
  { split_and!; [done|done| |done]. intros i K p g _ Hp _ Ha. by split. }
  destruct (ps !! j) as [pj|] eqn:Ej.
  2: { specialize (IH ps h Hh Hw). destruct (interleave schedule ps h) as [ps' h']. destruct IH as (H1 & H2 & H3 & H4).
    split_and!; [done|done| |done]. intros i K p g Hi Hp Hg Ha. unfold occurrences. rewrite filter_cons_False by congruence.
    by apply (H3 i K p g). }
  destruct (Forall2_lookup_r _ _ _ _ _ Hw Ej) as (Kj & HKj & Hwj).
  destruct (turn_agree Kj pj h h Hh Hh Hwj ltac:(done)) as (_ & Hwj' & Hh1 & _).
  pose proof (λ i K g, separate_agree Ks i j K Kj pj h g Hsep) as Hother.
  pose proof (λ g, turn_agree Kj pj h g Hh) as Hown. pose proof (λ k, turn_frame Kj pj h k Hh Hwj) as Hframe.
  destruct (turn pj h) as [pj' h1] eqn:Et. cbn [fst snd] in *.
  assert (Forall2 within Ks (<[j := pj']> ps)) as Hw1.
  { rewrite <-(list_insert_id Ks j Kj) by done. by apply Forall2_insert. }
  specialize (IH (<[j := pj']> ps) h1 Hh1 Hw1). destruct (interleave schedule (<[j := pj']> ps) h1) as [ps' h'].
  destruct IH as (H1 & H2 & H3 & H4). split_and!; [done|by rewrite H2, length_insert| |].
  - intros i K p g Hi Hp Hg Ha. unfold occurrences. destruct (decide (j = i)) as [->|Hne].
    + simplify_eq. rewrite filter_cons_True by done. cbn [length solo].
      destruct (Hown g Hg Hwj Ha) as (Hp1 & _ & _ & Hg1 & Ha1). destruct (turn pj g) as [q g1]. cbn [fst snd] in *. subst q.
      apply (H3 i Kj pj' g1); [done| |done|done]. apply list_lookup_insert_eq. by eapply lookup_lt_Some.
    + rewrite filter_cons_False by done. apply (H3 i K p g); [done|by rewrite list_lookup_insert_ne|done|].
      by apply (Hother i).
  - intros k Hk. rewrite H4 by done. apply Hframe. apply Hk. by eapply list_elem_of_lookup_2.
Qed.

(** Requests on different keys, when each has had its turns. *)
Lemma disjoint_requests schedule ps Ks h :
  HashTable.wf h → separate Ks → Forall2 within Ks ps →
  (∀ i p, ps !! i = Some p → turns p h ≤ occurrences i schedule) →
  let '(ps', h') := interleave schedule ps h in
  HashTable.wf h' ∧ ps' = (λ p, Done (alone p h).2) <$> ps ∧
  (∀ i K p k, Ks !! i = Some K → ps !! i = Some p → k ∈ K →
     HashTable.to_map h' !! k = HashTable.to_map (alone p h).1 !! k) ∧
  (∀ k, (∀ K, K ∈ Ks → k ∉ K) → HashTable.to_map h' !! k = HashTable.to_map h !! k).
Proof.
  intros Hh Hs Hw Ht. pose proof (interleave_solo schedule ps Ks h Hh Hs Hw) as Hi.
  destruct (interleave schedule ps h) as [ps' h']. destruct Hi as (H1 & H2 & H3 & H4).
  split_and!; [done| | |done].
  - apply list_eq. intros i. rewrite list_lookup_fmap. destruct (ps !! i) as [p|] eqn:Ei.
    + destruct (Forall2_lookup_r _ _ _ _ _ Hw Ei) as (K & HK & _). destruct (H3 i K p h HK Ei Hh ltac:(done)) as [-> _].
      by rewrite solo_alone by (by apply Ht).
    + apply lookup_ge_None. apply lookup_ge_None in Ei. lia.
  - intros i K p k HK Hp Hk. destruct (H3 i K p h HK Hp Hh ltac:(done)) as [_ Ha].
    rewrite solo_alone in Ha by (by apply Ht). by apply Ha.
Qed.

End Interleave.
(** ** The keys of a command *)

Definition keys_of (ty : CommandType) (args : list string) : option (gset string) :=
  match ty with
  | Get | Set_ | Delete | Expire | Incr | Decr | Incrby => Some (match args with k :: _ => {[ k ]} | [] => ∅ end)
  | Exists_ | Mget => Some (list_to_set args)
  | Mset => Some (list_to_set (pair_key <$> pairs_of args))
  | _ => None
  end.

Section Within.
Variable K : gset string.

Lemma within_ret {A} (a : A) : within K (mret a).
Proof. constructor. Qed.

Lemma within_bind {A B} (p : prog A) (f : A → prog B) : within K p → (∀ a, within K (f a)) → within K (p ≫= f).
Proof.
  intros Hp Hf. unfold mbind, prog_bind. induction Hp as [[a|e|]|o k next Hk HK _ IH]; simpl; try constructor; [apply Hf|].
  by apply (within_do K o k).
Qed.

Lemma within_reply {A B} (p : prog A) (f : A → B) : within K p → within K (a ← p; mret (f a)).
Proof. intros Hp. apply within_bind; [done|]. intros a. apply within_ret. Qed.

Lemma within_call {A} o k (f : HashTable.answer → Outcome A) : op_key o = Some k → k ∈ K → within K (Do o (λ a, Done (f a))).
Proof. intros Hk HK. apply (within_do K o k); [done|done|]. constructor. Qed.

#[local] Hint Resolve within_ret within_bind within_done : core.

Lemma get_within now k : k ∈ K → within K (get now k).
Proof.
  intros HK. unfold get, is_expired. apply within_bind.
  - apply within_bind; [by eapply within_call|]. eauto.
  - intros []; [eauto|]. apply within_bind; [by eapply within_call|eauto].
Qed.

Lemma set_within k v : k ∈ K → within K (set k v).
Proof. intros HK. apply within_bind; [by eapply within_call|eauto]. Qed.

Lemma set_ttl_within now k ttl : k ∈ K → within K (set_ttl now k ttl).
Proof.
  intros HK. apply within_bind; [by eapply within_call|]. intros [e|]; [|eauto].
  apply within_bind; [eauto|]. intros at_. apply within_bind; [by eapply within_call|eauto].
Qed.

Lemma increment_within now k d : k ∈ K → within K (increment now k d).
Proof.
  intros HK. apply within_bind; [by apply get_within|]. intros raw. do 2 (apply within_bind; [eauto|]; intros ?).
  apply within_bind; [by apply set_within|eauto].
Qed.

Lemma mget_within clock i ks : (∀ k, k ∈ ks → k ∈ K) → within K (mget clock i ks).
Proof.
  revert i. induction ks as [|k ks IH]; intros i HK; [apply within_ret|]. cbn [mget].
  apply within_bind; [apply get_within, HK; by left|]. intros v. apply within_bind; [apply IH; intros; apply HK; by right|eauto].
Qed.

Lemma mset_within pairs n : (∀ k, k ∈ (pair_key <$> pairs) → k ∈ K) → within K (mset pairs n).
Proof.
  revert n. induction pairs as [|q pairs IH]; intros n HK; [apply within_ret|]. cbn [mset].
  apply within_bind; [apply set_within, HK; by left|]. intros ok. apply IH. intros; apply HK. by right.
Qed.

Lemma count_within ks n : (∀ k, k ∈ ks → k ∈ K) → within K (count_existing ks n).
Proof.
  revert n. induction ks as [|k ks IH]; intros n HK; [apply within_ret|]. cbn [count_existing].
  apply within_bind; [eapply within_call; [done|]; apply HK; by left|]. intros b. apply IH. intros; apply HK. by right.
Qed.

End Within.

(** A request makes calls about the keys of its command only. *)
Lemma request_within clock ty l p K : request clock ty l = Some p → keys_of ty l = Some K → within K p.
Proof.
  intros Hp HK. destruct ty; cbn [keys_of] in HK; try discriminate; apply (inj Some) in HK as <-.
  - destruct l as [|k []]; cbn [request] in Hp; apply (inj Some) in Hp as <-; [constructor| |constructor].
    apply within_reply. apply get_within; set_solver.
  - destruct l as [|k [|v l]]; cbn [request] in Hp; apply (inj Some) in Hp as <-; [constructor..|].
    apply within_reply. apply set_within; set_solver.
  - destruct l as [|k []]; cbn [request] in Hp; apply (inj Some) in Hp as <-; [constructor| |constructor].
    apply within_reply. eapply within_call; [done|set_solver].
  - destruct l as [|k l]; cbn [request] in Hp; apply (inj Some) in Hp as <-; [constructor|].
    apply within_reply. apply count_within; set_solver.
  - destruct l as [|k [|v []]]; cbn [request] in Hp; apply (inj Some) in Hp as <-; [constructor..| |constructor].
    apply within_bind; [constructor|]. intros ?. apply within_reply. apply set_ttl_within; set_solver.
  - destruct l as [|k l]; cbn [request] in Hp; apply (inj Some) in Hp as <-; [constructor|].
    apply within_reply. apply mget_within; set_solver.
  - cbn [request] in Hp; apply (inj Some) in Hp as <-. destruct (_ || _); [constructor|].
    apply within_reply. apply mset_within; set_solver.
  - destruct l as [|k []]; cbn [request] in Hp; apply (inj Some) in Hp as <-; [constructor| |constructor].
    apply within_reply. apply increment_within; set_solver.
  - destruct l as [|k []]; cbn [request] in Hp; apply (inj Some) in Hp as <-; [constructor| |constructor].
    apply within_reply, within_bind; [constructor|].
    intros ?. apply increment_within. set_solver.
  - destruct l as [|k [|v []]]; cbn [request] in Hp; apply (inj Some) in Hp as <-; [constructor..| |constructor].
    apply within_bind; [constructor|]. intros ?. apply within_reply. apply increment_within; set_solver.
Qed.

(** ** Requests on different keys *)

Section Requests.
Context `{StdHash}.

(** What a request leaves in the storage: what its handler stores, and nothing when it
    does not return. *)
Definition left_by (st : State StorageEngine.t) (o : Outcome (State StorageEngine.t * string)) : gmap string StorageEntry :=
  match o with Ret (st', _) => st_view (storage st') | _ => st_view (storage st) end.

Lemma ends_alone io clock cmd (st : State StorageEngine.t) p :
  request clock (type cmd) (args cmd) = Some p →
  (alone p (StorageEngine.table (storage st))).2 = snd <$> dispatch io clock cmd st ∧
  HashTable.to_map (alone p (StorageEngine.table (storage st))).1 = left_by st (dispatch io clock cmd st).
Proof.
  intros Hp. pose proof (dispatch_alone io clock cmd st p Hp) as He. unfold stored, left_by in *.
  destruct (dispatch io clock cmd st) as [[st' r]| |]; cbn in He; rewrite He; done.
Qed.

(** C15: requests on different keys are atomic: let any number of GET, SET, DEL, EXISTS,
    EXPIRE, MGET, MSET, INCR, DECR and INCRBY requests, no two of them with a key in
    common, take turns table call by table call in any order that lets each finish.
    Then each has exactly the reply (or the exception) that [dispatch] gives it on the
    initial state, each of its keys is as [dispatch] leaves it, and every other key is
    untouched. *)
Theorem requests_on_different_keys io schedule cmds ps Ks (st : State StorageEngine.t) :
  st_ok (storage st) →
  Forall2 (λ c p, request c.1 (type c.2) (args c.2) = Some p) cmds ps →
  Forall2 (λ c K, keys_of (type c.2) (args c.2) = Some K) cmds Ks → separate Ks →
  (∀ i p, ps !! i = Some p → turns p (StorageEngine.table (storage st)) ≤ occurrences i schedule) →
  let '(ps', h') := interleave schedule ps (StorageEngine.table (storage st)) in
  HashTable.wf h' ∧ ps' = (λ c, Done (snd <$> dispatch io c.1 c.2 st)) <$> cmds ∧
  (∀ i c K k, cmds !! i = Some c → Ks !! i = Some K → k ∈ K →
     HashTable.to_map h' !! k = left_by st (dispatch io c.1 c.2 st) !! k) ∧
  (∀ k, (∀ K, K ∈ Ks → k ∉ K) → HashTable.to_map h' !! k = st_view (storage st) !! k).
Proof.
  intros Hok Hp HK Hs Ht.
  assert (Forall2 within Ks ps) as Hw.
  { apply Forall2_same_length_lookup_2; [by rewrite <-(Forall2_length _ _ _ HK), (Forall2_length _ _ _ Hp)|].
    intros i K p Hi Hpi. destruct (Forall2_lookup_r _ _ _ _ _ HK Hi) as (c & Hc & Hk).
    pose proof (Forall2_lookup_lr _ _ _ _ _ _ Hp Hc Hpi) as Hreq. exact (request_within _ _ _ _ _ Hreq Hk). }
  pose proof (disjoint_requests schedule ps Ks (StorageEngine.table (storage st)) Hok Hs Hw Ht) as Hd.
  destruct (interleave schedule ps _) as [ps' h']. destruct Hd as (H1 & -> & H3 & H4). split_and!; [done| | |exact H4].
  - clear -Hp. induction Hp as [|c p cmds ps Hc _ IH]; [done|]. csimpl. rewrite IH. do 2 f_equal.
    by apply (ends_alone io).
  - intros i c K k Hc HKi Hk. destruct (Forall2_lookup_l _ _ _ _ _ Hp Hc) as (p & Hpi & Hreq).
    rewrite (H3 i K p k HKi Hpi Hk). by rewrite (proj2 (ends_alone io _ _ st p Hreq)).
Qed.

(** ** Requests on one key *)

(** The calls of [increment] on a counter: two reads, then the write of the sum. *)
Lemma increment_reads now k d v h :
  HashTable.find k h = Some (mkEntry (to_string v) None) → in_int64 v = true → in_int64 (v + d) = true →
  solo 2 (increment now k d) h = ((_ ← set k (format_value (v + d)); mret (v + d)%Z), h).
Proof.
  intros Hf Hv Hs. cbn [solo turn increment get is_expired find mbind prog_bind bind HashTable.step]. rewrite Hf.
  cbn [turn bind mret prog_ret expired expires_at find HashTable.step]. rewrite Hf. cbn [fmap option_fmap option_map value].
  cbn [bind mret prog_ret].
  rewrite (parse_value_format v Hv). unfold checked64. cbn [bind]. by rewrite Hs.
Qed.

Lemma set_turn {A} k v (a : A) h :
  turn (_ ← set k v; mret a) h = (Done (Ret a), (HashTable.insert h k (mkEntry v None)).1).
Proof.
  cbn [turn set insert mbind prog_bind bind HashTable.step]. by destruct (HashTable.insert h k (mkEntry v None)).
Qed.

(** C39: counting is not atomic: on every table and for every counter in it, two INCR
    of that counter have an interleaving of their table calls in which both reply
    with the value plus one, and the counter ends at the value plus one. *)
Theorem increments_lost now1 now2 k v h :
  HashTable.wf h → HashTable.find k h = Some (mkEntry (to_string v) None) →
  in_int64 v = true → in_int64 (v + 1) = true →
  let '(ps, h') := interleave [0; 0; 1; 1; 0; 1] [increment now1 k 1; increment now2 k 1] h in
  ps = [Done (Ret (v + 1)%Z); Done (Ret (v + 1)%Z)] ∧
  HashTable.find k h' = Some (mkEntry (to_string (v + 1)) None).
Proof.
  intros Hwf Hf Hv Hs. change [0; 0; 1; 1; 0; 1] with (replicate 2 0 ++ replicate 2 1 ++ replicate 1 0 ++ replicate 1 1 ++ []).
  rewrite (interleave_run 2 0 _ _ (increment now1 k 1)), (increment_reads _ k 1 v) by done.
  rewrite (interleave_run 2 1 _ _ (increment now2 k 1)), (increment_reads _ k 1 v) by done.
  set (w := _ ← set k _; mret _). rewrite (interleave_run 1 0 _ _ w) by done. cbn [solo]. unfold w at 1. rewrite set_turn.
  set (h1 := (HashTable.insert h k _).1). rewrite (interleave_run 1 1 _ _ w) by done. cbn [solo]. unfold w. rewrite set_turn.
  cbn [interleave]. split; [done|].
  destruct (HashTable.insert_fuel_inserts 2 h k (mkEntry (format_value (v + 1)) None) Hwf) as (Hw1 & _ & _). fold (HashTable.insert h k (mkEntry (format_value (v + 1)) None)) in Hw1.
  destruct (HashTable.insert_fuel_inserts 2 h1 k (mkEntry (format_value (v + 1)) None) Hw1) as (Hw2 & Hm2 & _).
  fold (HashTable.insert h1 k (mkEntry (format_value (v + 1)) None)) in Hw2, Hm2.
  rewrite <-HashTable.to_map_find, Hm2 by done. apply lookup_insert_eq.
Qed.

(** *** A sweep and a write *)

Lemma erase_all_turns ks h : turns (erase_all ks) h = length ks.
Proof.
  revert h. induction ks as [|k ks IH]; intros h; [done|].
  cbn [turns erase_all erase mbind prog_bind bind HashTable.step length]. destruct (HashTable.erase k h). f_equal. apply IH.
Qed.

Lemma erased ks k h :
  HashTable.wf h → k ∈ ks → HashTable.wf (foldl (λ h k, (HashTable.erase k h).1) h ks) ∧
  HashTable.to_map (foldl (λ h k, (HashTable.erase k h).1) h ks) !! k = None.
Proof.
  assert (∀ h, HashTable.wf h → HashTable.to_map h !! k = None ∨ k ∈ ks →
    HashTable.wf (foldl (λ h k, (HashTable.erase k h).1) h ks) ∧
    HashTable.to_map (foldl (λ h k, (HashTable.erase k h).1) h ks) !! k = None) as Hall; [|eauto].
  induction ks as [|k' ks IH]; intros g Hg Hk; cbn [foldl]; [destruct Hk as [|Hk]; [done|by apply not_elem_of_nil in Hk]|].
  destruct (HashTable.erase_wf g k' Hg) as (Hw & Hm & _). apply IH; [done|]. rewrite Hm, lookup_delete.
  case_decide; [by left|]. destruct Hk as [|[->|]%elem_of_cons]; [by left|done|by right].
Qed.

(** C40: a sweep may delete what it should keep: on every table with an expired entry, a
    sweep and a SET of its key have an interleaving in which the SET returns, the
    sweep then erases the key, and the value just stored, which has no deadline, is
    gone. *)
Theorem sweep_deletes_new_value clock k v e h :
  HashTable.wf h → HashTable.find k h = Some e → always_expired clock e →
  ∃ n, let '(ps, h') := interleave (0 :: 1 :: replicate n 0) [purge_expired clock; (_ ← set k v; mret ())] h in
    ps = [Done (Ret ()); Done (Ret ())] ∧ HashTable.find k h' = None.
Proof.
  intros Hwf Hf He. set (ks := StorageEngine.sweep clock 0 (HashTable.binding <$> HashTable.nodes h)).
  assert (k ∈ ks) as Hk.
  { eapply StorageEngine.elem_sweep; [|done]. apply HashTable.find_elem in Hf; [|done].
    apply list_elem_of_fmap. by exists (HashTable.mkNode k e). }
  exists (length ks). set (w := _ ← set k v; mret ()).
  change (0 :: 1 :: replicate (length ks) 0) with (replicate 1 0 ++ replicate 1 1 ++ replicate (length ks) 0).
  rewrite (interleave_run 1 0 _ _ (purge_expired clock)) by done. cbn [solo].
  change (turn (purge_expired clock) h) with (erase_all ks, h). cbv iota.
  rewrite (interleave_run 1 1 _ _ w) by done. cbn [solo]. unfold w. rewrite set_turn. cbv iota.
  set (h1 := (HashTable.insert h k _).1). rewrite <-(app_nil_r (replicate (length ks) 0)).
  rewrite (interleave_run (length ks) 0 [] _ (erase_all ks)) by done.
  rewrite solo_alone by (by rewrite erase_all_turns). rewrite erase_all_alone. cbn [interleave fst snd]. split; [done|].
  destruct (HashTable.insert_fuel_inserts 2 h k (mkEntry v None) Hwf) as (Hw1 & _ & _).
  fold (HashTable.insert h k (mkEntry v None)) in Hw1. fold h1 in Hw1.
  destruct (erased ks k h1 Hw1 Hk) as [Hw2 Hm2]. by rewrite <-HashTable.to_map_find.
Qed.

End Requests.

(** ** Witnesses *)

Section Witnesses.
#[local] Existing Instance HashTable.sum_hash.
#[local] Abbreviation clock0 := (λ _ : nat, 0%Z).

Definition two_requests : list ((nat → time_point) * ParsedCommand) :=
  [(clock0, mkCommand Incr "INCR" ["n"]); (clock0, mkCommand Set_ "SET" ["x"; "1"])].
Definition two_programs : list (prog string) :=
  omap (λ c, request c.1 (type c.2) (args c.2)) two_requests.

(** The SET falls between the reads and the write of the INCR. *)
Lemma requests_on_different_keys_witness :
  let st := demo_server StorageEngine.small in
  let '(ps', h') := interleave [0; 1; 0; 0; 1; 0] two_programs (StorageEngine.table (storage st)) in
  ps' = [Done (Ret ":1"); Done (Ret "+OK")] ∧
  HashTable.to_map h' !! "n" = left_by st (dispatch all_io clock0 (mkCommand Incr "INCR" ["n"]) st) !! "n".
Proof.
  intros st.
  pose proof (requests_on_different_keys all_io [0; 1; 0; 0; 1; 0] two_requests two_programs [{[ "n" ]}; {[ "x" ]}] st
    StorageEngine.small_ok) as Hr.
  destruct (interleave _ two_programs _) as [ps' h'].
  destruct Hr as (_ & Hps & Hk & _).
  - repeat constructor.
  - repeat constructor.
  - intros [|[|i]] [|[|j]] K L HK HL Hne; simplify_eq/=; set_solver.
  - intros [|[|i]] p Hp; simplify_eq/=; vm_compute; lia.
  - split; [rewrite Hps; vm_compute; reflexivity|]. by apply (Hk 0 (clock0, mkCommand Incr "INCR" ["n"]) {[ "n" ]} "n"); [| |set_solver].
Defined.

(** A table with one counter, and one with an entry that has expired. *)
Definition counter_table : HashTable.t := (HashTable.insert (HashTable.make 16) "n" (mkEntry (to_string 5) None)).1.
Definition stale_table : HashTable.t := (HashTable.insert (HashTable.make 16) "k" (mkEntry "old" (Some 3%Z))).1.

Lemma inserted_wf k e : HashTable.wf (HashTable.insert (HashTable.make 16) k e).1.
Proof. apply (HashTable.insert_fuel_inserts 2), HashTable.make_wf. Qed.

Lemma increments_lost_witness :
  let '(ps, h') := interleave [0; 0; 1; 1; 0; 1] [increment 0%Z "n" 1%Z; increment 0%Z "n" 1%Z] counter_table in
  ps = [Done (Ret 6%Z); Done (Ret 6%Z)] ∧ HashTable.find "n" h' = Some (mkEntry (to_string 6) None).
Proof. apply (increments_lost 0%Z 0%Z "n" 5%Z counter_table); [apply inserted_wf|reflexivity..]. Defined.

Lemma sweep_deletes_new_value_witness :
  ∃ n, let '(ps, h') := interleave (0 :: 1 :: replicate n 0) [purge_expired (λ _, 9%Z); (_ ← set "k" "new"; mret ())] stale_table in
    ps = [Done (Ret ()); Done (Ret ())] ∧ HashTable.find "k" h' = None.
Proof.
  apply (sweep_deletes_new_value (λ _, 9%Z) "k" "new" (mkEntry "old" (Some 3%Z)) stale_table);
    [apply inserted_wf|reflexivity|intros i; reflexivity].
Defined.

End Witnesses.
End Atomicity.
