(* ===== verification/Session.v ===== *)
(** * Client sessions (src/net/client_session.cpp, src/server/command_handler.cpp)

    A session reads a connection byte by byte and writes replies to it.  What the
    operating system does is part of the session's state: the results of the
    coming calls of [::read] on one byte ([None] for a result that is not
    positive: end of file, an error, or no byte available yet) and of [::write]
    ([None] for an error, [Some n] when [n] bytes are taken; past the end of the
    list every write is complete).  [handle_session] is the request loop. *)

From S2P Require Import Prelude CppStd Memory Table Scanner Engine Clients Wire Persistence Pubsub Admin Dispatcher.

Module ClientSession.

(** The members of the class, then the operating system's side of the connection;
    [flags_set] is the argument of the call of [fcntl(F_SETFL)], if it is made, and
    [closed] the history of the calls of [::close]. *)
Record t := mk {
  fd_ : Z;
  peer_addr_ : string;
  id_ : N;
  alive_ : bool;
  input : list (option ascii);
  writes : list (option nat);
  output : string;
  flags_set : option Z;
  closed : list Z
}.

Definition with_io (input : list (option ascii)) (writes : list (option nat)) (output : string) (s : t) : t :=
  mk (fd_ s) (peer_addr_ s) (id_ s) (alive_ s) input writes output (flags_set s) (closed s).

(** [g_session_counter++] on an unsigned 64-bit counter: its value and the next one. *)
Definition next_id (g_session_counter : N) : N * N :=
  (g_session_counter, (g_session_counter + 1) mod 2 ^ 64)%N.

Definition O_NONBLOCK : Z := 2048.

(** The constructor; [flags] is the result of [fcntl(fd_, F_GETFL, 0)]. *)
Definition make (flags : Z) (input : list (option ascii)) (writes : list (option nat))
    (fd : Z) (peer_addr : string) (g_session_counter : N) : t * N :=
  let '(id, g_session_counter) := next_id g_session_counter in
  (mk fd peer_addr id true input writes ""
     (if (0 <=? flags)%Z then Some (Z.lor flags O_NONBLOCK) else None) [],
   g_session_counter).

Definition mark_closed (s : t) : t :=
  if negb (alive_ s) then s
  else
    mk (if (0 <=? fd_ s)%Z then -1 else fd_ s)%Z (peer_addr_ s) (id_ s) false
      (input s) (writes s) (output s) (flags_set s)
      (closed s ++ (if (0 <=? fd_ s)%Z then [fd_ s] else [])).

(** The destructor. *)
Definition destroy (s : t) : t := mark_closed s.

Definition max_line : N := 65536.

(** [if (!buffer.empty() && buffer.back() == '\r') buffer.pop_back()]. *)
Definition chomp (buffer : string) : string :=
  if bool_decide (back buffer = Some carriage_return)
  then str_take (String.length buffer - 1) buffer else buffer.

(** The loop of [read_line]: the line, what is left to read, and whether the
    session is still alive. *)
Fixpoint read_loop (buffer : string) (input : list (option ascii)) : string * list (option ascii) * bool :=
  match input with
  | [] => (buffer, [], false)
  | None :: rest => (buffer, rest, false)
  | Some ch :: rest =>
      if Ascii.eqb ch newline then (chomp buffer, rest, true)
      else
        let buffer := buffer +:+ String ch "" in
        if (max_line <? N.of_nat (String.length buffer))%N then (buffer, rest, false)
        else read_loop buffer rest
  end.

Definition read_line (s : t) : t * string :=
  if alive_ s then
    let '(line, rest, ok) := read_loop "" (input s) in
    let s := with_io rest (writes s) (output s) s in
    (if ok : bool then s else mark_closed s, line)
  else (s, "").

(** [write_line]'s payload: the line, ended by a newline. *)
Definition payload (line : string) : string :=
  if (line =? "")%string || negb (bool_decide (back line = Some newline)) then line +:+ lf else line.

Definition write_line (line : string) (s : t) : t * bool :=
  if negb (alive_ s) then (s, false)
  else
    match writes s with
    | [] => (with_io (input s) [] (output s +:+ payload line) s, true)
    | Some n :: ws => (with_io (input s) ws (output s +:+ str_take n (payload line)) s, true)
    | None :: ws => (mark_closed (with_io (input s) ws (output s) s), false)
    end.

(** The bytes of a string as successful reads. *)
Fixpoint bytes (s : string) : list (option ascii) :=
  match s with "" => [] | String c s' => Some c :: bytes s' end.

(** ** Reading lines *)

Lemma read_loop_line buffer line rest :
  no_newline line = true → (N.of_nat (String.length (buffer +:+ line)) ≤ max_line)%N →
  read_loop buffer (bytes line ++ Some newline :: rest) = (chomp (buffer +:+ line), rest, true).
Proof.
  revert buffer. unfold no_newline. induction line as [|c line IH]; intros buffer Hl Hn.
  - by rewrite string_app_nil_r.
  - simpl in Hl. bsimp. cbn [bytes app read_loop].
    assert (Ascii.eqb c newline = false) as -> by done.
    assert ((buffer +:+ String c "") +:+ line = buffer +:+ String c line) as Ha
      by by rewrite <-string_app_assoc.
    rewrite !string_app_length in *. simpl in *.
    rewrite (proj2 (N.ltb_ge _ _)) by lia. rewrite IH; [by rewrite Ha|done|].
    rewrite Ha, string_app_length. simpl. lia.
Qed.

Lemma read_loop_shorter buffer input line rest ok :
  read_loop buffer input = (line, rest, ok) → ok = true → length rest < length input.
Proof.
  revert buffer. induction input as [|[c|] input IH]; intros buffer; simpl; [naive_solver| |naive_solver].
  repeat case_match; intros; simplify_eq; [lia|]. apply IH in H1; [|done]. lia.
Qed.

Lemma read_loop_long buffer line rest :
  no_newline line = true → (max_line < N.of_nat (String.length (buffer +:+ line)))%N →
  (N.of_nat (String.length buffer) ≤ max_line)%N →
  (read_loop buffer (bytes line ++ rest)).2 = false.
Proof.
  revert buffer. unfold no_newline. induction line as [|c line IH]; intros buffer Hl Hn Hb.
  - rewrite string_app_nil_r in Hn. lia.
  - simpl in Hl. bsimp. cbn [bytes app read_loop].
    assert (Ascii.eqb c newline = false) as -> by done.
    destruct (N.ltb_spec max_line (N.of_nat (String.length (buffer +:+ String c "")))) as [|Hle]; [done|].
    apply IH; [done| |done]. by rewrite <-string_app_assoc.
Qed.

(** C36: a line of at most 65536 bytes is read up to its newline, without the
    carriage return before it, and what follows stays to be read; a longer line
    closes the session; and so does a read that has no byte to give, even when
    part of the line has arrived. *)
Theorem read_line_spec line rest s :
  alive_ s = true → no_newline line = true →
  ((N.of_nat (String.length line) ≤ max_line)%N → input s = bytes line ++ Some newline :: rest →
   read_line s = (with_io rest (writes s) (output s) s, chomp line)) ∧
  ((max_line < N.of_nat (String.length line))%N → input s = bytes line ++ rest →
   alive_ (read_line s).1 = false) ∧
  ((N.of_nat (String.length line) ≤ max_line)%N → input s = bytes line ++ None :: rest →
   read_line s = (mark_closed (with_io rest (writes s) (output s) s), line)).
Proof.
  intros Halive Hl. unfold read_line. rewrite Halive. split_and!.
  - intros Hn ->. by rewrite read_loop_line.
  - intros Hn ->. pose proof (read_loop_long "" line rest Hl Hn) as Hr.
    destruct (read_loop "" (bytes line ++ rest)) as [[l r] ok]. simpl in Hr. rewrite Hr; [|vm_compute; by intros].
    unfold mark_closed. simpl. by rewrite Halive.
  - intros Hn ->. assert (∀ buffer, (N.of_nat (String.length (buffer +:+ line)) ≤ max_line)%N →
      read_loop buffer (bytes line ++ None :: rest) = (buffer +:+ line, rest, false)) as Hr.
    { clear Hn. unfold no_newline in Hl. induction line as [|c line IH]; intros buffer Hn.
      - by rewrite string_app_nil_r.
      - simpl in Hl. bsimp. cbn [bytes app read_loop].
        assert (Ascii.eqb c newline = false) as -> by done.
        assert ((buffer +:+ String c "") +:+ line = buffer +:+ String c line) as Ha
          by by rewrite <-string_app_assoc.
        rewrite <-Ha in Hn. rewrite (proj2 (N.ltb_ge _ _)).
        + rewrite IH; [by rewrite Ha|done|done].
        + rewrite string_app_length in Hn. lia. }
    by rewrite (Hr "").
Qed.

(** A connection on descriptor 7 whose client has sent the given bytes. *)
Definition accepted (input : list (option ascii)) : t := (make 2 input [] 7 "10.0.0.1:5000" 1).1.

Lemma read_line_spec_witness :
  read_line (accepted (bytes ("PING" +:+ String carriage_return "") ++ [Some newline])) =
  (accepted [], "PING").
Proof.
  apply (read_line_spec ("PING" +:+ String carriage_return "") []
    (accepted (bytes ("PING" +:+ String carriage_return "") ++ [Some newline])));
    [reflexivity|reflexivity|vm_compute; intros [=]|reflexivity].
Defined.

(** A live session reads at least one byte per line. *)
Lemma read_line_shorter s s' line :
  read_line s = (s', line) → alive_ s' = true → length (input s') < length (input s).
Proof.
  unfold read_line. destruct (alive_ s) eqn:Ha.
  - destruct (read_loop "" (input s)) as [[l r] ok] eqn:E. intros [= <- <-].
    destruct ok; [intros _; by eapply read_loop_shorter|]. unfold mark_closed. simpl. by rewrite Ha.
  - intros [= <- _]. by rewrite Ha.
Qed.

(** ** The descriptor *)

Lemma mark_closed_idem s : mark_closed (mark_closed s) = mark_closed s.
Proof. unfold mark_closed. by destruct (alive_ s) eqn:E; simpl; rewrite ?E. Qed.

Lemma mark_closed_alive s : alive_ (mark_closed s) = false.
Proof. unfold mark_closed. by destruct (alive_ s) eqn:E. Qed.

(** A session for descriptor [fd]: open and not closed yet while it is alive,
    closed once and forgotten when it is not. *)
Definition owns (fd : Z) (s : t) : Prop :=
  if alive_ s then fd_ s = fd ∧ closed s = [] else fd_ s = (-1)%Z ∧ closed s = [fd].

Lemma mark_closed_owns fd s : (0 ≤ fd)%Z → owns fd s → owns fd (mark_closed s).
Proof.
  intros Hfd. unfold owns, mark_closed. destruct (alive_ s) eqn:E; simpl; rewrite ?E; [|done].
  intros [-> ->]. by rewrite (proj2 (Z.leb_le 0 fd)).
Qed.

Lemma with_io_owns fd i w o s : owns fd (with_io i w o s) ↔ owns fd s.
Proof. done. Qed.

#[local] Hint Resolve mark_closed_owns : volt.

Lemma read_line_owns fd s : (0 ≤ fd)%Z → owns fd s → owns fd (read_line s).1.
Proof. intros. unfold read_line. repeat case_match; simpl; auto with volt. Qed.

Lemma write_line_owns fd line s : (0 ≤ fd)%Z → owns fd s → owns fd (write_line line s).1.
Proof. intros. unfold write_line. repeat case_match; simpl; auto with volt. Qed.

Lemma make_owns flags i w fd peer g : owns fd (make flags i w fd peer g).1.
Proof. done. Qed.

Lemma mark_closed_id s : id_ (mark_closed s) = id_ s.
Proof. unfold mark_closed. by case_match. Qed.

Lemma read_line_id s : id_ (read_line s).1 = id_ s.
Proof. unfold read_line. repeat case_match; simpl; rewrite ?mark_closed_id; done. Qed.

Lemma write_line_id line s : id_ (write_line line s).1 = id_ s.
Proof. unfold write_line. repeat case_match; simpl; rewrite ?mark_closed_id; done. Qed.

(** The operations of the class, in any order. *)
Inductive Op :=
| ReadLine
| WriteLine (line : string)
| MarkClosed.

Definition apply_op (s : t) (o : Op) : t :=
  match o with
  | ReadLine => (read_line s).1
  | WriteLine line => (write_line line s).1
  | MarkClosed => mark_closed s
  end.

(** C32: a session closes its descriptor exactly once: whatever operations are
    performed on it and whatever the system calls answer, the descriptor is open
    as long as the session is alive, has been closed once when it is not, and
    has been closed once after the destructor; a session that is not alive
    holds no descriptor that another connection could have been given since. *)
Theorem descriptor_closed_once flags i w fd peer g ops :
  (0 ≤ fd)%Z →
  let s := foldl apply_op (make flags i w fd peer g).1 ops in
  owns fd s ∧ closed (destroy s) = [fd].
Proof.
  intros Hfd s. assert (owns fd s) as Hs.
  { unfold s. assert (owns fd (make flags i w fd peer g).1) as H0 by apply make_owns.
    revert H0. generalize (make flags i w fd peer g).1. clear s.
    induction ops as [|[|line|] ops IH]; intros s0 H0; simpl; [done|..];
      apply IH; auto using read_line_owns, write_line_owns, mark_closed_owns. }
  split; [done|]. pose proof (mark_closed_owns fd s Hfd Hs) as Hc. unfold owns in Hc.
  rewrite mark_closed_alive in Hc. apply Hc.
Qed.

Lemma descriptor_closed_once_witness :
  closed (destroy (foldl apply_op (accepted (bytes "PING")) [ReadLine; WriteLine "+PONG"; MarkClosed])) = [7%Z].
Proof.
  apply (descriptor_closed_once 2 (bytes "PING") [] 7 "10.0.0.1:5000" 1
    [ReadLine; WriteLine "+PONG"; MarkClosed]). lia.
Defined.

Lemma write_line_input line s : input (write_line line s).1 = input s.
Proof. unfold write_line, mark_closed. by repeat case_match. Qed.

End ClientSession.

(** ** The request loop *)

Section Handler.
Context {S : Type} `{StorageLaws S}.
Variables (io : Io) (clock : nat → nat → time_point).

(** [handle_session]: [n] counts the commands, whose clock readings are
    [clock n].  [None] when the fuel runs out. *)
Fixpoint handle_loop (fuel : nat) (n : nat) (session : ClientSession.t) (st : State S)
    : option (Outcome (ClientSession.t * State S)) :=
  if negb (ClientSession.alive_ session) then Some (Ret (session, st))
  else
    match fuel with
    | O => None
    | Datatypes.S fuel' =>
        let '(session, line) := ClientSession.read_line session in
        if negb (ClientSession.alive_ session) then Some (Ret (session, st))
        else if (line =? "")%string then handle_loop fuel' n session st
        else
          match parse_line line with
          | None => handle_loop fuel' n (ClientSession.write_line "-ERR empty command" session).1 st
          | Some cmd =>
              match dispatch io (clock n) cmd st with
              | Ret (st, response) =>
                  handle_loop fuel' (Datatypes.S n) (ClientSession.write_line response session).1 st
              | Throw e => Some (Throw e)
              | Undefined => Some Undefined
              end
          end
    end.

Definition handle_session (session : ClientSession.t) (st : State S)
    : option (Outcome (ClientSession.t * State S)) :=
  fmap (M:=option) (fmap (M:=Outcome) (prod_map ClientSession.mark_closed id))
    (handle_loop (Datatypes.S (length (ClientSession.input session))) 0 session st).

Lemma handle_loop_terminates fuel n session st :
  length (ClientSession.input session) < fuel → is_Some (handle_loop fuel n session st).
Proof.
  revert n session st. induction fuel as [|fuel IH]; intros n s st0 Hl; [lia|]. cbn [handle_loop].
  case_match; [eauto|]. destruct (ClientSession.read_line s) as [s1 line] eqn:E.
  destruct (ClientSession.alive_ s1) eqn:Ha; [|eauto]. cbn [negb].
  pose proof (ClientSession.read_line_shorter s s1 line E Ha).
  repeat case_match; eauto; apply IH; rewrite ?ClientSession.write_line_input; lia.
Qed.

Lemma handle_loop_owns fd fuel n session st session' st' :
  (0 ≤ fd)%Z → ClientSession.owns fd session →
  handle_loop fuel n session st = Some (Ret (session', st')) → ClientSession.owns fd session'.
Proof.
  intros Hfd. revert n session st. induction fuel as [|fuel IH]; intros n s st0 Ho; cbn [handle_loop].
  - case_match; [intros [= <- _]; exact Ho|intros [=]].
  - case_match; [intros [= <- _]; exact Ho|]. pose proof (ClientSession.read_line_owns fd s Hfd Ho) as Hr.
    destruct (ClientSession.read_line s) as [s1 line]. cbn [fst] in Hr.
    repeat case_match; try done; try (by intros [= <- _]); apply IH; auto using ClientSession.write_line_owns.
Qed.

(** C31: the request loop ends on every connection: each round reads at least one
    byte, so the bytes the connection delivers bound the number of rounds, and the
    loop finishes with the session closed, its descriptor closed exactly once,
    unless a handler throws. *)
Theorem handle_session_terminates session st :
  ∃ r, handle_session session st = Some r ∧
    ∀ session' st', r ⇓ (session', st') →
      ClientSession.alive_ session' = false ∧
      ∀ fd, (0 ≤ fd)%Z → ClientSession.owns fd session → ClientSession.closed session' = [fd].
Proof.
  unfold handle_session.
  destruct (handle_loop_terminates (Datatypes.S (length (ClientSession.input session))) 0 session st) as [r Hr];
    [lia|].
  revert Hr. generalize (Datatypes.S (length (ClientSession.input session))). intros fuel Hr. rewrite Hr. eexists. split; [done|]. intros s' st' E. destruct r as [[s1 st1]| |]; simplify_eq/=.
  split; [apply ClientSession.mark_closed_alive|]. intros fd Hfd Ho.
  assert (ClientSession.owns fd (ClientSession.mark_closed s1)) as Hc
    by (apply ClientSession.mark_closed_owns; [done|]; exact (handle_loop_owns fd _ _ _ _ _ _ Hfd Ho Hr)).
  unfold ClientSession.owns in Hc. rewrite ClientSession.mark_closed_alive in Hc. apply Hc.
Qed.

(** ** What a client sees *)

(** The replies to a sequence of requests, and the state they leave. *)
Fixpoint serve (n : nat) (lines : list string) (st : State S) : Outcome (State S * list string) :=
  match lines with
  | [] => Ret (st, [])
  | line :: lines' =>
      match parse_line line with
      | None => prod_map id (cons "-ERR empty command") <$> serve n lines' st
      | Some cmd =>
          '(st1, r) ← dispatch io (clock n) cmd st;
          prod_map id (cons r) <$> serve (Datatypes.S n) lines' st1
      end
  end.

Import ClientSession.

(** The bytes that arrive before a read fails. *)
Fixpoint received (input : list (option ascii)) : string :=
  match input with
  | Some c :: rest => String c (received rest)
  | _ => ""
  end.

(** The lines of a text that a newline ends; [line] is the beginning of the first. *)
Fixpoint ended_lines (line : string) (text : string) : list string :=
  match text with
  | "" => []
  | String c text' =>
      if Ascii.eqb c newline then line :: ended_lines "" text' else ended_lines (line +:+ String c "") text'
  end.

(** The requests among them: the lines before the first one that is too long, without
    their carriage return, that are not empty. *)
Fixpoint requests_among (ls : list string) : list string :=
  match ls with
  | [] => []
  | l :: ls' =>
      if (max_line <? N.of_nat (String.length l))%N then []
      else (if (chomp l =? "")%string then [] else [chomp l]) ++ requests_among ls'
  end.

Definition requests (input : list (option ascii)) : list string := requests_among (ended_lines "" (received input)).

(** The requests that are dispatched when the writes fare as [writes] says: up to the
    one whose reply cannot be written. *)
Fixpoint attempted (writes : list (option nat)) (rs : list string) {struct rs} : list string :=
  match rs with
  | [] => []
  | r :: rs' =>
      r :: match writes with
           | [] => rs'
           | None :: _ => []
           | Some _ :: writes' => attempted writes' rs'
           end
  end.

(** The bytes of the replies that are written. *)
Fixpoint delivered (writes : list (option nat)) (replies : list string) : string :=
  match replies with
  | [] => ""
  | r :: replies' =>
      match writes with
      | [] => payload r +:+ delivered [] replies'
      | None :: _ => ""
      | Some n :: writes' => str_take n (payload r) +:+ delivered writes' replies'
      end
  end.

Lemma attempted_all rs : attempted [] rs = rs.
Proof. by destruct rs. Qed.

(** Reading a line takes the first of the lines, or there is none. *)
Lemma read_loop_requests buffer input line rest ok :
  (N.of_nat (String.length buffer) ≤ max_line)%N → read_loop buffer input = (line, rest, ok) →
  requests_among (ended_lines buffer (received input)) =
  if ok then (if (line =? "")%string then [] else [line]) ++ requests rest else [].
Proof.
  revert buffer. induction input as [|[c|] input IH]; intros buffer Hb; cbn [read_loop received ended_lines];
    [by intros [= <- <- <-]| |by intros [= <- <- <-]].
  destruct (Ascii.eqb c newline).
  - intros [= <- <- <-]. cbn [requests_among]. by rewrite (proj2 (N.ltb_ge _ _)).
  - destruct (N.ltb_spec max_line (N.of_nat (String.length (buffer +:+ String c "")))) as [Hlt|Hle]; [|by apply IH].
    intros [= <- <- <-]. clear IH Hb. revert Hlt. generalize (buffer +:+ String c ""). intros l Hlt.
    generalize (received input). intros text. revert l Hlt.
    induction text as [|d text IH]; intros l Hlt; cbn [ended_lines]; [done|]. case_match.
    + cbn [requests_among]. by rewrite (proj2 (N.ltb_lt _ _)).
    + apply IH. rewrite string_app_length. simpl. lia.
Qed.

Lemma read_line_requests s s' line :
  alive_ s = true → read_line s = (s', line) →
  requests (input s) = (if alive_ s' then (if (line =? "")%string then [] else [line]) ++ requests (input s') else []) ∧
  (writes s' = writes s ∧ output s' = output s).
Proof.
  intros Ha. unfold read_line. rewrite Ha. destruct (read_loop "" (input s)) as [[l rest] ok] eqn:E.
  apply read_loop_requests in E; [|done]. intros [= <- <-]. unfold requests at 1. rewrite E.
  destruct ok; [by cbn [alive_ with_io]; rewrite Ha|]. rewrite mark_closed_alive. split; [done|].
  unfold mark_closed. by case_match.
Qed.

(** Writing a reply. *)
Lemma write_line_delivers r s s' ok rs replies :
  alive_ s = true → write_line r s = (s', ok) →
  input s' = input s ∧
  if ok then alive_ s' = true ∧ attempted (writes s) (r :: rs) = r :: attempted (writes s') rs ∧
    output s +:+ delivered (writes s) (r :: replies) = output s' +:+ delivered (writes s') replies
  else alive_ s' = false ∧ output s' = output s ∧ ∃ ws, writes s = None :: ws.
Proof.
  intros Ha. unfold write_line. rewrite Ha. cbn [negb]. destruct (writes s) as [|[n|] ws] eqn:E; intros [= <- <-].
  - split; [done|]. split; [done|]. split; [simpl; by destruct rs|]. simpl. by rewrite string_app_assoc.
  - split; [done|]. split; [done|]. split; [done|]. simpl. by rewrite string_app_assoc.
  - unfold mark_closed. cbn [alive_ with_io]. rewrite Ha. simpl. eauto.
Qed.

(** What the loop answers to the requests it finds. *)
Lemma handle_loop_serves fuel n s st :
  length (input s) < fuel → alive_ s = true →
  match serve n (attempted (writes s) (requests (input s))) st with
  | Ret (st', replies) =>
      ∃ s', handle_loop fuel n s st = Some (Ret (s', st')) ∧ output s' = output s +:+ delivered (writes s) replies
  | Throw e => handle_loop fuel n s st = Some (Throw e)
  | Undefined => handle_loop fuel n s st = Some Undefined
  end.
Proof.
  revert n s st. induction fuel as [|fuel IH]; intros n s st Hl Ha; [lia|]. cbn [handle_loop]. rewrite Ha. cbn [negb].
  destruct (read_line s) as [s1 line] eqn:Er. destruct (read_line_requests s s1 line Ha Er) as (-> & Hw & Ho).
  destruct (alive_ s1) eqn:Ha1; cbn [negb].
  2:{ cbn [attempted serve]. exists s1. split; [done|]. by rewrite Ho, string_app_nil_r. }
  pose proof (read_line_shorter s s1 line Er Ha1) as Hsh. rewrite <-Hw, <-Ho.
  destruct (line =? "")%string; cbn [app]; [apply IH; [lia|done]|].
  assert (∀ r m st1,
    match serve m (match writes s1 with [] => requests (input s1) | None :: _ => []
                   | Some _ :: ws => attempted ws (requests (input s1)) end) st1 with
    | Ret (st', replies) =>
        ∃ s', handle_loop fuel m (write_line r s1).1 st1 = Some (Ret (s', st')) ∧
          output s' = output s1 +:+ delivered (writes s1) (r :: replies)
    | Throw e => handle_loop fuel m (write_line r s1).1 st1 = Some (Throw e)
    | Undefined => handle_loop fuel m (write_line r s1).1 st1 = Some Undefined
    end) as Hreply.
  { intros r m st1. destruct (write_line r s1) as [s2 ok] eqn:E2.
    pose proof (λ replies, write_line_delivers r s1 s2 ok (requests (input s1)) replies Ha1 E2) as Hd. destruct ok.
    - destruct (Hd []) as (Hi & Ha2 & Hat & _). cbn [attempted] in Hat. injection Hat as ->. rewrite <-Hi.
      specialize (IH m s2 st1). rewrite Hi in IH. specialize (IH ltac:(lia) Ha2). rewrite <-Hi in IH.
      destruct (serve m _ st1) as [[st' replies]| |]; [|done..]. destruct IH as (s' & Hh & Hout). exists s'.
      split; [done|]. destruct (Hd replies) as (_ & _ & _ & ->). done.
    - destruct (Hd []) as (_ & Ha2 & Ho2 & ws & ->). cbn [serve]. exists s2.
      split; [by destruct fuel; cbn [handle_loop fst]; rewrite Ha2|]. by rewrite Ho2, string_app_nil_r. }
  cbn [attempted serve]. destruct (parse_line line) as [cmd|].
  - destruct (dispatch io (clock n) cmd st) as [[st1 r]| |]; [|done..]. msimp. specialize (Hreply r (Datatypes.S n) st1).
    destruct (serve (Datatypes.S n) _ st1) as [[st' replies]| |]; exact Hreply.
  - specialize (Hreply "-ERR empty command" n st). destruct (serve n _ st) as [[st' replies]| |]; exact Hreply.
Qed.

(** C7: a connection is served in order: whatever bytes the client sends, in whatever
    portions, and whichever reads and writes fail, the session dispatches, one after
    the other, exactly the requests it receives (the lines ended by a newline that
    arrive before a read has no byte to give and before a line of more than 65536
    bytes; without their carriage return; empty ones left out), up to the one whose
    reply cannot be written; it writes the replies in that order, each ended by a
    newline, cut only where a write takes fewer bytes; it leaves the state those
    commands leave and closes the session; and an exception in a handler ends the
    session with that exception. *)
Theorem session_serves_in_order session st :
  alive_ session = true →
  match serve 0 (attempted (writes session) (requests (input session))) st with
  | Ret (st', replies) =>
      ∃ session', handle_session session st = Some (Ret (session', st')) ∧ alive_ session' = false ∧
        output session' = output session +:+ delivered (writes session) replies
  | Throw e => handle_session session st = Some (Throw e)
  | Undefined => handle_session session st = Some Undefined
  end.
Proof.
  intros Ha. unfold handle_session. pose proof (handle_loop_serves (Datatypes.S (length (input session))) 0 session st) as Hh.
  specialize (Hh ltac:(lia) Ha). destruct (serve 0 _ st) as [[st' replies]| |]; [|by rewrite Hh..].
  destruct Hh as (s' & -> & Ho). exists (mark_closed s'). split; [done|]. split; [apply mark_closed_alive|].
  rewrite <-Ho. unfold mark_closed. by case_match.
Qed.

End Handler.

Section Witnesses.
#[local] Existing Instance HashTable.sum_hash.

(** A client sends two commands, a blank line and the beginning of a third command; the
    third write takes only five bytes. *)
Definition client_text : string :=
  "SET a 1" +:+ crlf +:+ "PING" +:+ lf +:+ crlf +:+ "  " +:+ lf +:+ "GET".
Definition demo_session : ClientSession.t :=
  ClientSession.with_io (ClientSession.bytes client_text) [Some 10; Some 10; Some 5] "" (ClientSession.accepted []).

Lemma session_serves_in_order_witness :
  ∃ s st', handle_session all_io (λ _ _, 0%Z) demo_session (demo_server StorageEngine.small) = Some (Ret (s, st')) ∧
    ClientSession.output s = "+OK" +:+ lf +:+ "+PONG" +:+ lf +:+ "-ERR ".
Proof.
  pose proof (session_serves_in_order all_io (λ _ _, 0%Z) demo_session (demo_server StorageEngine.small) eq_refl) as H.
  destruct (serve all_io (λ _ _, 0%Z) 0 _ (demo_server StorageEngine.small)) as [[st' rs]| |] eqn:E;
    [|vm_compute in E; discriminate E..].
  destruct H as (s & Hs & _ & Ho). exists s, st'. split; [exact Hs|]. rewrite Ho.
  vm_compute in E. injection E as _ <-. vm_compute. reflexivity.
Defined.

End Witnesses.
