(* ===== verification/Isolation.v ===== *)
(** * Sessions that interleave (src/server/command_handler.cpp)

    The workers serve several connections at once, and the table calls of their
    requests interleave.  A session is the calls of its requests, one request after
    the other; sessions that use no key in common do not notice each other: each
    client reads the replies it would read if it had the server to itself. *)

From S2P Require Import Prelude CppStd Memory Table Scanner Engine Clients Wire Persistence Pubsub Admin Dispatcher Calls Atomicity Session.

Module Isolation.
Import Calls Atomicity.

(** A request, then the rest of the session. *)
Definition reply_then (p : prog string) (rest : prog (list string)) : prog (list string) :=
  r ← p; rs ← rest; mret (r :: rs).

(** The table calls of a session that receives the given lines, as the loop of
    [handle_session] makes them, with its replies; [None] when one of the commands does
    not use the storage alone. *)
Fixpoint conversation (clock : nat → nat → time_point) (n : nat) (lines : list string) : option (prog (list string)) :=
  match lines with
  | [] => Some (mret [])
  | line :: lines' =>
      match parse_line line with
      | None => reply_then (mret "-ERR empty command") <$> conversation clock n lines'
      | Some cmd =>
          match request (clock n) (type cmd) (args cmd) with
          | Some p => reply_then p <$> conversation clock (S n) lines'
          | None => None
          end
      end
  end.

(** The keys of its commands. *)
Fixpoint keys_used (lines : list string) : option (gset string) :=
  match lines with
  | [] => Some ∅
  | line :: lines' =>
      match parse_line line with
      | None => keys_used lines'
      | Some cmd =>
          match keys_of (type cmd) (args cmd) with
          | Some K => union K <$> keys_used lines'
          | None => None
          end
      end
  end.

Lemma within_mono {A} K L (p : prog A) : K ⊆ L → within K p → within L p.
Proof. intros HKL. induction 1 as [|o k next Hk HK _ IH]; [constructor|]. apply (within_do L o k); auto. Qed.

Lemma conversation_within clock n lines p K :
  conversation clock n lines = Some p → keys_used lines = Some K → within K p.
Proof.
  revert n p K. induction lines as [|line lines IH]; intros n p K Hp HK; cbn [conversation keys_used] in *.
  { simplify_eq. apply within_ret. }
  destruct (parse_line line) as [cmd|].
  - destruct (request _ _ _) as [q|] eqn:Eq; [|done]. destruct (conversation _ (S n) lines) as [rest|] eqn:Er; [|done].
    destruct (keys_of _ _) as [K1|] eqn:E1; [|done]. destruct (keys_used lines) as [L|] eqn:EL; [|done]. simplify_eq/=.
    apply within_bind; [eapply within_mono; [|by eapply request_within]; set_solver|]. intros r. apply within_reply.
    eapply within_mono; [|by eapply IH]. set_solver.
  - destruct (conversation _ n lines) as [rest|] eqn:Er; [|done]. simplify_eq/=. apply within_bind; [apply within_ret|]. intros r. apply within_reply. by eapply IH.
Qed.

Section Sessions.
Context `{StdHash}.

(** A session alone: its calls are what [serve] does. *)
Lemma conversation_alone io clock n lines p (st : State StorageEngine.t) :
  conversation clock n lines = Some p →
  (alone p (StorageEngine.table (storage st))).2 = snd <$> serve io clock n lines st ∧
  ∀ st' rs, serve io clock n lines st ⇓ (st', rs) →
    (alone p (StorageEngine.table (storage st))).1 = StorageEngine.table (storage st').
Proof.
  revert n p st. induction lines as [|line lines IH]; intros n p st Hp; cbn [conversation serve] in *.
  { simplify_eq. split; [done|]. by intros st' rs [= <- <-]. }
  destruct (parse_line line) as [cmd|].
  - destruct (request _ _ _) as [q|] eqn:Eq; [|done]. destruct (conversation _ (S n) lines) as [rest|] eqn:Er; [|done].
    simplify_eq/=. unfold reply_then. rewrite alone_bind. pose proof (dispatch_alone io (clock n) cmd st q Eq) as Hd.
    unfold stored in Hd. destruct (dispatch io (clock n) cmd st) as [[st1 r]| |]; cbn in Hd; rewrite Hd; [|done..].
    rewrite alone_bind. destruct (IH (S n) rest st1 Er) as [H2 H1]. msimp.
    destruct (alone rest _) as [h2 o]. cbn [fst snd] in *. subst o.
    destruct (serve io clock (S n) lines st1) as [[st2 rs]| |]; cbn; [|done..].
    split; [done|]. intros st' rs' [= <- <-]. by eapply H1.
  - destruct (conversation _ n lines) as [rest|] eqn:Er; [|done]. simplify_eq/=. unfold reply_then. rewrite !alone_bind.
    cbn [alone mret prog_ret]. rewrite alone_bind. destruct (IH n rest st Er) as [H2 H1]. destruct (alone rest _) as [h2 o]. cbn [fst snd] in *. subst o.
    destruct (serve io clock n lines st) as [[st2 rs]| |]; cbn; [|done..].
    split; [done|]. intros st' rs' [= <- <-]. by eapply H1.
Qed.

(** C13: sessions on different keys are isolated: let any number of sessions, each with
    any number of GET, SET, DEL, EXISTS, EXPIRE, MGET, MSET, INCR, DECR and INCRBY
    requests and blank commands, no two sessions with a key in common, take turns table
    call by table call in any order that lets each finish.  Then each session has
    exactly the replies (or the exception) of serving it alone on the initial state;
    each of its keys is as that leaves it, if it returns; and the keys of no session
    are untouched. *)
Theorem sessions_isolated io schedule sessions ps Ks (st : State StorageEngine.t) :
  st_ok (storage st) →
  Forall2 (λ c p, conversation c.1 0 c.2 = Some p) sessions ps →
  Forall2 (λ c K, keys_used c.2 = Some K) sessions Ks → separate Ks →
  (∀ i p, ps !! i = Some p → turns p (StorageEngine.table (storage st)) ≤ occurrences i schedule) →
  let '(ps', h') := interleave schedule ps (StorageEngine.table (storage st)) in
  HashTable.wf h' ∧ ps' = (λ c, Done (snd <$> serve io c.1 0 c.2 st)) <$> sessions ∧
  (∀ i c K k st' rs, sessions !! i = Some c → Ks !! i = Some K → k ∈ K → serve io c.1 0 c.2 st ⇓ (st', rs) →
     HashTable.to_map h' !! k = st_view (storage st') !! k) ∧
  (∀ k, (∀ K, K ∈ Ks → k ∉ K) → HashTable.to_map h' !! k = st_view (storage st) !! k).
Proof.
  intros Hok Hp HK Hs Ht.
  assert (Forall2 within Ks ps) as Hw.
  { apply Forall2_same_length_lookup_2; [by rewrite <-(Forall2_length _ _ _ HK), (Forall2_length _ _ _ Hp)|].
    intros i K p Hi Hpi. destruct (Forall2_lookup_r _ _ _ _ _ HK Hi) as (c & Hc & Hk).
    pose proof (Forall2_lookup_lr _ _ _ _ _ _ Hp Hc Hpi) as Hreq. exact (conversation_within _ _ _ _ _ Hreq Hk). }
  pose proof (disjoint_requests schedule ps Ks (StorageEngine.table (storage st)) Hok Hs Hw Ht) as Hd.
  destruct (interleave schedule ps _) as [ps' h']. destruct Hd as (H1 & -> & H3 & H4). split_and!; [done| | |exact H4].
  - clear -Hp. induction Hp as [|c p sessions ps Hc _ IH]; [done|]. csimpl. rewrite IH. do 2 f_equal.
    by apply (conversation_alone io).
  - intros i c K k st' rs Hc HKi Hk Hserve. destruct (Forall2_lookup_l _ _ _ _ _ Hp Hc) as (p & Hpi & Hreq).
    rewrite (H3 i K p k HKi Hpi Hk). by rewrite (proj2 (conversation_alone io _ _ _ p st Hreq) st' rs Hserve).
Qed.

End Sessions.

(** ** Two clients count at the same time *)

Section Witness.
#[local] Existing Instance HashTable.sum_hash.
#[local] Abbreviation clock0 := (λ _ _ : nat, 0%Z).

Definition two_sessions : list ((nat → nat → time_point) * list string) :=
  [(clock0, ["SET a 1"; "INCR a"; "GET a"]); (clock0, ["INCR b"; "  "; "INCR b"])].
Definition two_conversations : list (prog (list string)) := omap (λ c, conversation c.1 0 c.2) two_sessions.

Lemma sessions_isolated_witness :
  let st := demo_server StorageEngine.small in
  let '(ps', h') := interleave [0; 1; 0; 1; 1; 0; 0; 1; 1; 1; 0; 0] two_conversations (StorageEngine.table (storage st)) in
  ps' = [Done (Ret ["+OK"; ":2"; bulk_string_response "2"]); Done (Ret [":1"; "-ERR empty command"; ":2"])].
Proof.
  intros st.
  pose proof (sessions_isolated all_io [0; 1; 0; 1; 1; 0; 0; 1; 1; 1; 0; 0] two_sessions two_conversations
    [{[ "a" ]} ∪ ({[ "a" ]} ∪ ({[ "a" ]} ∪ ∅)); {[ "b" ]} ∪ ({[ "b" ]} ∪ ∅)] st StorageEngine.small_ok) as Hr.
  destruct (interleave _ two_conversations _) as [ps' h'].
  destruct Hr as (_ & Hps & _).
  - repeat constructor.
  - repeat constructor.
  - intros [|[|i]] [|[|j]] K L HK HL Hne; try done; injection HK as <-; injection HL as <-; set_solver.
  - intros [|[|i]] p Hp; [injection Hp as <-; vm_compute; lia..|discriminate Hp].
  - rewrite Hps. vm_compute. reflexivity.
Defined.

End Witness.
End Isolation.
