(* ===== verification/Net.v ===== *)
(** * Listening and accepting (src/net)

    [TcpServer] with the process-wide state its signal handlers use, the epoll
    branch of [IoMultiplexer], and the two accept loops.  The results of system
    calls are arguments; descriptors that are open for listening are a set. *)

From S2P Require Import Prelude CppStd Logger Memory Table Scanner Engine Clients Wire Persistence Pubsub Admin Dispatcher Session.

(** [htons] and [ntohs] on a little-endian machine. *)
Definition htons (port : Z) : Z := (port mod 256) * 256 + port / 256.
Definition ntohs (port : Z) : Z := (port mod 256) * 256 + port / 256.

Lemma ntohs_htons port : (0 ≤ port < 2 ^ 16)%Z → ntohs (htons port) = port.
Proof.
  intros Hp. unfold ntohs, htons.
  pose proof (Z.mod_pos_bound port 256). pose proof (Z.div_mod port 256).
  set (q := (port / 256)%Z) in *. set (r := (port mod 256)%Z) in *.
  assert (0 ≤ q < 256)%Z by lia.
  rewrite <-(Z.mod_unique (r * 256 + q) 256 r q), <-(Z.div_unique (r * 256 + q) 256 r q) by lia. lia.
Qed.

Module TcpServer.

Inductive Signal := SIGINT | SIGTERM.
Definition signal_number (sig : Signal) : Z := match sig with SIGINT => 2 | SIGTERM => 15 end.

(** What the process does on a signal: the default, or the lambda that
    [setup_signals] installs. *)
Inductive Disposition := SIG_DFL | Installed.

Definition SignalHandler : Type := Z → Logger.t → Logger.t.

Record t := mk {
  host_ : string;
  port_ : Z;
  listen_fd_ : Z;
  running_ : bool;
  on_sigint_ : option SignalHandler;
  on_sigterm_ : option SignalHandler
}.

Definition make (host : string) (port : Z) : t := mk host port (-1) false None None.

Definition with_listen (fd : Z) (running : bool) (s : t) : t :=
  mk (host_ s) (port_ s) fd running (on_sigint_ s) (on_sigterm_ s).

Definition install_signal_handlers (on_sigint on_sigterm : option SignalHandler) (s : t) : t :=
  mk (host_ s) (port_ s) (listen_fd_ s) (running_ s) on_sigint on_sigterm.

(** The server and the descriptors it closes. *)
Definition close_listen (s : t) : t * list Z :=
  if (0 <=? listen_fd_ s)%Z then (with_listen (-1) (running_ s) s, [listen_fd_ s]) else (s, []).

Definition stop (s : t) : t * list Z :=
  if negb (running_ s) then (s, []) else close_listen (with_listen (listen_fd_ s) false s).

(** ** The process *)

(** The live objects by address, the global pointer, the signal dispositions, the
    open listening descriptors, the error stream, and whether the default action
    of a signal has ended the process. *)
Record Process := mkProcess {
  servers : gmap N t;
  g_active_server : option N;
  sigint : Disposition;
  sigterm : Disposition;
  listening : gset Z;
  logger : Logger.t;
  killed : bool
}.

Definition initial_process : Process := mkProcess ∅ None SIG_DFL SIG_DFL ∅ Logger.initial false.

Definition store (this : N) (s : t) (p : Process) : Process :=
  mkProcess (<[this := s]> (servers p)) (g_active_server p) (sigint p) (sigterm p) (listening p)
    (logger p) (killed p).
Definition with_active (a : option N) (p : Process) : Process :=
  mkProcess (servers p) a (sigint p) (sigterm p) (listening p) (logger p) (killed p).
Definition with_listening (fds : gset Z) (p : Process) : Process :=
  mkProcess (servers p) (g_active_server p) (sigint p) (sigterm p) fds (logger p) (killed p).
Definition with_logger (l : Logger.t) (p : Process) : Process :=
  mkProcess (servers p) (g_active_server p) (sigint p) (sigterm p) (listening p) l (killed p).
Definition free (this : N) (p : Process) : Process :=
  mkProcess (delete this (servers p)) (g_active_server p) (sigint p) (sigterm p) (listening p)
    (logger p) (killed p).

Definition disposition (sig : Signal) (p : Process) : Disposition :=
  match sig with SIGINT => sigint p | SIGTERM => sigterm p end.
(** [std::signal]. *)
Definition set_signal (sig : Signal) (d : Disposition) (p : Process) : Process :=
  match sig with
  | SIGINT => mkProcess (servers p) (g_active_server p) d (sigterm p) (listening p) (logger p) (killed p)
  | SIGTERM => mkProcess (servers p) (g_active_server p) (sigint p) d (listening p) (logger p) (killed p)
  end.
Definition kill (p : Process) : Process :=
  mkProcess (servers p) (g_active_server p) (sigint p) (sigterm p) (listening p) (logger p) true.

(** Access through a pointer; a dead object is undefined behaviour. *)
Definition deref (this : N) (p : Process) : Outcome t :=
  match servers p !! this with Some s => Ret s | None => Undefined end.

Definition close_all (fds : list Z) (p : Process) : Process :=
  with_listening (listening p ∖ list_to_set fds) p.

(** [this->stop()] on the object in memory. *)
Definition stop_at (this : N) (p : Process) : Outcome Process :=
  s ← deref this p;
  let '(s, fds) := stop s in
  Ret (close_all fds (store this s p)).

Definition setup_signals (p : Process) : Process :=
  set_signal SIGTERM Installed (set_signal SIGINT Installed p).

(** The answers of the operating system to one call of [bind_and_listen]:
    [inet_pton] gives the address when it returns 1, [bind] is asked for a port
    and an address in network order. *)
Record Answers := mkAnswers {
  socket : Z;
  setsockopt : Z;
  inet_pton : string → option Z;
  bind : Z → Z → Z;
  listen : Z;
  strerror : string
}.

Definition INADDR_ANY : Z := 0.

(** The address [bind] is given, or none when the text is not an address. *)
Definition bind_address (a : Answers) (host : string) : option Z :=
  if (host =? "0.0.0.0")%string || (host =? "")%string then Some INADDR_ANY else inet_pton a host.

(** An early return: print, close the descriptor, return false. *)
Definition bind_failed (this : N) (s : t) (msg : string) (p : Process) : Process * bool :=
  let '(s, fds) := close_listen s in
  (close_all fds (store this s (with_logger (Logger.print msg (logger p)) p)), false).

Definition bind_and_listen (a : Answers) (this : N) (p : Process) : Outcome (Process * bool) :=
  s ← deref this p;
  let s := with_listen (socket a) (running_ s) s in
  if (socket a <? 0)%Z then
    Ret (with_logger (Logger.print ("socket failed: " +:+ strerror a +:+ lf) (logger p)) (store this s p), false)
  else
    let p := with_listening ({[ socket a ]} ∪ listening p) p in
    if (setsockopt a <? 0)%Z then Ret (bind_failed this s ("setsockopt SO_REUSEADDR failed" +:+ lf) p)
    else
      match bind_address a (host_ s) with
      | None => Ret (bind_failed this s ("invalid bind address: " +:+ host_ s +:+ lf) p)
      | Some addr =>
          if (bind a (htons (port_ s)) addr <? 0)%Z then
            Ret (bind_failed this s ("bind failed on " +:+ host_ s +:+ ":" +:+ to_string (port_ s) +:+ ": " +:+
              strerror a +:+ lf) p)
          else if (listen a <? 0)%Z then Ret (bind_failed this s ("listen failed: " +:+ strerror a +:+ lf) p)
          else
            Ret (setup_signals (with_active (Some this) (store this (with_listen (socket a) true s) p)), true)
      end.

(** The destructor. *)
Definition destroy (this : N) (p : Process) : Outcome Process :=
  p ← stop_at this p;
  let p := if bool_decide (g_active_server p = Some this) then with_active None p else p in
  Ret (free this p).

Definition forward_signal (sig : Signal) (p : Process) : Outcome Process :=
  p ← match g_active_server p with Some a => stop_at a p | None => Ret p end;
  Ret (set_signal sig SIG_DFL p).

Definition on_signal (sig : Signal) (s : t) : option SignalHandler :=
  match sig with SIGINT => on_sigint_ s | SIGTERM => on_sigterm_ s end.

(** The lambda that [setup_signals] installs. *)
Definition signal_lambda (sig : Signal) (p : Process) : Outcome Process :=
  p ← forward_signal sig p;
  match g_active_server p with
  | None => Ret p
  | Some a =>
      s ← deref a p;
      match on_signal sig s with
      | Some h => Ret (with_logger (h (signal_number sig) (logger p)) p)
      | None => Ret p
      end
  end.

(** The arrival of a signal. *)
Definition deliver (sig : Signal) (p : Process) : Outcome Process :=
  match disposition sig p with SIG_DFL => Ret (kill p) | Installed => signal_lambda sig p end.

(** ** Who holds which descriptor *)

(** A server that runs holds an open descriptor of its own, one that does not holds
    none, every open listening descriptor is held, and the global pointer is null
    or points to a live object.  That is with [strict]; without it, a server that runs
    may have lost its descriptor, and an open descriptor may be held by nobody. *)
Record inv (strict : bool) (p : Process) : Prop := {
  inv_active : ∀ a, g_active_server p = Some a → is_Some (servers p !! a);
  inv_fd : ∀ a s, servers p !! a = Some s →
    if running_ s then (0 ≤ listen_fd_ s)%Z ∧ listen_fd_ s ∈ listening p ∨ strict = false ∧ (listen_fd_ s < 0)%Z
    else (listen_fd_ s < 0)%Z;
  inv_distinct : ∀ a b s s', servers p !! a = Some s → servers p !! b = Some s' →
    (0 ≤ listen_fd_ s)%Z → listen_fd_ s = listen_fd_ s' → a = b;
  inv_held : strict = true → ∀ fd, fd ∈ listening p →
    ∃ a s, servers p !! a = Some s ∧ running_ s = true ∧ listen_fd_ s = fd
}.
#[global] Arguments inv_active {_ _}.
#[global] Arguments inv_fd {_ _}.
#[global] Arguments inv_distinct {_ _}.
#[global] Arguments inv_held {_ _}.

Section Invariant.
Variable strict : bool.
#[local] Abbreviation inv := (inv strict).

(** The descriptors of a server. *)
Definition held_by (s : t) : list Z := if (0 <=? listen_fd_ s)%Z then [listen_fd_ s] else [].

Lemma held_by_elem fd s : fd ∈ held_by s ↔ fd = listen_fd_ s ∧ (0 ≤ fd)%Z.
Proof.
  unfold held_by. destruct (Z.leb_spec 0 (listen_fd_ s)); [rewrite list_elem_of_singleton|rewrite elem_of_nil]; naive_solver lia.
Qed.

(** Only the objects, the pointer and the descriptors matter. *)
Lemma inv_same p p' :
  servers p' = servers p → g_active_server p' = g_active_server p → listening p' = listening p →
  inv p → inv p'.
Proof. intros Hs Ha Hl [H1 H2 H3 H4]. split; rewrite ?Hs, ?Ha, ?Hl; done. Qed.

Lemma set_signal_same sig d p :
  servers (set_signal sig d p) = servers p ∧ g_active_server (set_signal sig d p) = g_active_server p ∧
  listening (set_signal sig d p) = listening p ∧ logger (set_signal sig d p) = logger p ∧
  killed (set_signal sig d p) = killed p.
Proof. by destruct sig. Qed.

Lemma set_signal_inv sig d p : inv p → inv (set_signal sig d p).
Proof. destruct (set_signal_same sig d p) as (? & ? & ? & _). by apply inv_same. Qed.

Lemma with_logger_inv l p : inv p → inv (with_logger l p).
Proof. by apply inv_same. Qed.

#[local] Hint Resolve set_signal_inv with_logger_inv : volt.

(** Replacing an object by one that holds nothing, while closing what the old one
    held; only without [strict] may the new one still be running. *)
Lemma store_idle_inv this s s' fds p :
  inv p → servers p !! this = Some s ∨ servers p !! this = None ∧ (listen_fd_ s < 0)%Z →
  (running_ s' = false ∨ strict = false) → (listen_fd_ s' < 0)%Z → fds = held_by s →
  inv (close_all fds (store this s' p)).
Proof.
  intros [H1 H2 H3 H4] Hs Hr Hfd ->. split; simpl.
  - intros a Ha. destruct (H1 a Ha) as [x Hx]. destruct (decide (this = a)) as [->|].
    + rewrite lookup_insert_eq. eauto.
    + rewrite lookup_insert_ne by done. eauto.
  - intros a x [[-> <-]|[Hne Hx]]%lookup_insert_Some.
    { destruct Hr as [->|Hr]; [done|]. destruct (running_ s'); [by right|done]. }
    specialize (H2 a x Hx). destruct (running_ x); [|done]. destruct H2 as [[Hp Hin]|?]; [left|by right].
    split; [done|]. apply elem_of_difference. split; [done|].
    rewrite elem_of_list_to_set, held_by_elem. intros [Heq _]. destruct Hne.
    destruct Hs as [Hs|[_ Hs]]; [|lia]. symmetry. by apply (H3 a this x s).
  - intros a b x y [[<- <-]|[Hna Hx]]%lookup_insert_Some [[<- <-]|[Hnb Hy]]%lookup_insert_Some;
      [done|lia|lia|by apply H3].
  - intros Hst fd [Hin Hn]%elem_of_difference. destruct (H4 Hst fd Hin) as (a & x & Hx & Hrx & Hfx).
    exists a, x. split; [|done]. rewrite lookup_insert_ne; [done|]. intros ->.
    destruct Hs as [Hs|[Hs _]]; [|congruence]. simplify_eq. destruct Hn.
    rewrite elem_of_list_to_set, held_by_elem. split; [done|].
    specialize (H2 a s Hs). rewrite Hrx in H2. destruct H2 as [[? _]|[? _]]; [done|congruence].
Qed.

Lemma stop_spec s :
  (running_ s = false → (listen_fd_ s < 0)%Z) →
  ∃ s', stop s = (s', held_by s) ∧ running_ s' = false ∧
    (listen_fd_ s' < 0)%Z ∧ ∀ sig, on_signal sig s' = on_signal sig s.
Proof.
  intros Hs. unfold stop, close_listen, held_by. destruct (running_ s) eqn:E; simpl.
  - destruct (Z.leb_spec 0 (listen_fd_ s)); eexists; (split; [done|]); by split_and!; [|simpl; lia|intros []].
  - rewrite (proj2 (Z.leb_gt _ _)) by auto. exists s. split_and!; auto.
Qed.

Lemma inv_fd_sign p a s :
  inv p → servers p !! a = Some s → running_ s = false → (listen_fd_ s < 0)%Z.
Proof. intros Hp Hs Hr. pose proof (inv_fd Hp a s Hs) as H. by rewrite Hr in H. Qed.

Lemma stop_at_spec p a s :
  inv p → servers p !! a = Some s →
  ∃ s', stop_at a p ⇓ close_all (held_by s) (store a s' p) ∧
    running_ s' = false ∧ (listen_fd_ s' < 0)%Z ∧ (∀ sig, on_signal sig s' = on_signal sig s) ∧
    inv (close_all (held_by s) (store a s' p)).
Proof.
  intros Hp Hs. unfold stop_at, deref. rewrite Hs. msimp.
  destruct (stop_spec s (inv_fd_sign p a s Hp Hs)) as (s' & -> & Hr & Hfd & Hsig).
  exists s'. split_and!; try done. eapply store_idle_inv; eauto.
Qed.

(** What a failed call leaves: the same descriptors, pointer and dispositions, and
    an idle server. *)
Definition unchanged_but (this : N) (p p' : Process) : Prop :=
  listening p' = listening p ∧ g_active_server p' = g_active_server p ∧
  sigint p' = sigint p ∧ sigterm p' = sigterm p ∧
  ∃ s', servers p' !! this = Some s' ∧ running_ s' = false.

(** Replacing an object by one that holds nothing, without closing anything: only without
    [strict] may the old one have held a descriptor. *)
Lemma store_quiet_inv this s s' p :
  inv p → servers p !! this = Some s → (running_ s = false ∨ strict = false) →
  (running_ s' = false ∨ strict = false) → (listen_fd_ s' < 0)%Z → inv (store this s' p).
Proof.
  intros [H1 H2 H3 H4] Hs Hr Hr' Hfd. split; simpl.
  - intros a Ha. apply lookup_insert_is_Some. destruct (decide (this = a)); [by left|right; auto].
  - intros a x [[-> <-]|[Hne Hx]]%lookup_insert_Some; [|exact (H2 a x Hx)].
    destruct Hr' as [->|Hr']; [done|]. destruct (running_ s'); [by right|done].
  - intros a b x y [[<- <-]|[Hna Hx]]%lookup_insert_Some [[<- <-]|[Hnb Hy]]%lookup_insert_Some;
      [done|lia|lia|by apply H3].
  - intros Hst fd Hin. destruct (H4 Hst fd Hin) as (a & x & Hx & Hrx & Hfx).
    exists a, x. split; [|done]. rewrite lookup_insert_ne; [done|]. intros ->. destruct Hr; congruence.
Qed.

Lemma bind_failed_inv this s fd msg p :
  inv p → servers p !! this = Some s → (running_ s = false ∨ strict = false) → (0 ≤ fd)%Z → fd ∉ listening p →
  inv (bind_failed this (with_listen fd (running_ s) s) msg (with_listening ({[ fd ]} ∪ listening p) p)).1.
Proof.
  intros Hp Hs Hr Hfd Hn. unfold bind_failed, close_listen. cbn [listen_fd_ with_listen].
  rewrite (proj2 (Z.leb_le 0 fd)) by done.
  apply (inv_same (store this (with_listen (-1) (running_ s) s) p)); simpl; [done|done|set_solver|].
  by apply (store_quiet_inv this s).
Qed.

Lemma bind_failed_spec this s fd msg p :
  inv p → servers p !! this = Some s → running_ s = false → (0 ≤ fd)%Z → fd ∉ listening p →
  ∃ p', bind_failed this (with_listen fd (running_ s) s) msg (with_listening ({[ fd ]} ∪ listening p) p) = (p', false) ∧
    inv p' ∧ unchanged_but this p p'.
Proof.
  intros Hp Hs Hr Hfd Hn. pose proof (bind_failed_inv this s fd msg p Hp Hs (or_introl Hr) Hfd Hn) as Hi.
  revert Hi. unfold bind_failed, close_listen. cbn [listen_fd_ with_listen].
  rewrite (proj2 (Z.leb_le 0 fd)) by done. intros Hi. eexists. split; [done|]. split; [exact Hi|].
  assert (({[fd]} ∪ listening p) ∖ list_to_set [fd] = listening p) as Hl by set_solver.
  split_and!; try done. eexists. split; [simpl; by rewrite lookup_insert_eq|done].
Qed.

Lemma activate_inv this s fd p :
  inv p → servers p !! this = Some s → (running_ s = false ∨ strict = false) → (0 ≤ fd)%Z → fd ∉ listening p →
  inv (with_active (Some this) (store this (with_listen fd true s) (with_listening ({[ fd ]} ∪ listening p) p))).
Proof.
  intros [H1 H2 H3 H4] Hs Hr Hfd Hn.
  assert (∀ b y, servers p !! b = Some y → listen_fd_ y ≠ fd) as Hother.
  { intros b y Hy <-. specialize (H2 b y Hy). destruct (running_ y); [|lia]. destruct H2 as [[_ ?]|[_ ?]]; [done|lia]. }
  split; simpl.
  - intros a [= <-]. rewrite lookup_insert_eq. eauto.
  - intros a x [[-> <-]|[Hne Hx]]%lookup_insert_Some; simpl; [left; set_solver|].
    specialize (H2 a x Hx). destruct (running_ x); [|done]. destruct H2 as [[? ?]|?]; [left; set_solver|by right].
  - intros a b x y [[<- <-]|[Hna Hx]]%lookup_insert_Some [[<- <-]|[Hnb Hy]]%lookup_insert_Some; simpl;
      intros Hf Hxy; [done| | |by apply (H3 a b x y)]; exfalso.
    + by eapply (Hother b y).
    + by eapply (Hother a x).
  - intros Hst fd' [->%elem_of_singleton|Hin]%elem_of_union.
    + eexists this, _. by rewrite lookup_insert_eq.
    + destruct (H4 Hst fd' Hin) as (a & x & Hx & Hrx & Hfx). exists a, x. split; [|done].
      rewrite lookup_insert_ne; [done|]. intros ->. destruct Hr; congruence.
Qed.

(** When each call of [bind_and_listen] succeeds. *)
Definition bind_succeeds (a : Answers) (s : t) : bool :=
  (0 <=? socket a)%Z && (0 <=? setsockopt a)%Z &&
  match bind_address a (host_ s) with
  | Some addr => (0 <=? bind a (htons (port_ s)) addr)%Z && (0 <=? listen a)%Z
  | None => false
  end.

Lemma bind_failed_after this s a msg p :
  inv p → servers p !! this = Some s → running_ s = false → (0 ≤ socket a)%Z → socket a ∉ listening p →
  bind_succeeds a s = false →
  ∃ p' ok, Ret (bind_failed this (with_listen (socket a) (running_ s) s) msg
      (with_listening ({[ socket a ]} ∪ listening p) p)) ⇓ (p', ok) ∧
    inv p' ∧ ok = bind_succeeds a s ∧ (ok = false → unchanged_but this p p') ∧
    (ok = true → sigint p' = Installed ∧ sigterm p' = Installed ∧ g_active_server p' = Some this ∧
      listening p' = {[ socket a ]} ∪ listening p ∧
      ∃ s', servers p' !! this = Some s' ∧ running_ s' = true ∧ listen_fd_ s' = socket a).
Proof.
  intros Hp Hs Hr H0 Hn Hb. destruct (bind_failed_spec this s (socket a) msg p) as (p' & -> & Hi & Hu); try done.
  exists p', false. by split_and!.
Qed.

Lemma bind_and_listen_spec a this s p :
  inv p → servers p !! this = Some s → running_ s = false → socket a ∉ listening p →
  ∃ p' ok, bind_and_listen a this p ⇓ (p', ok) ∧ inv p' ∧ ok = bind_succeeds a s ∧
    (ok = false → unchanged_but this p p') ∧
    (ok = true → sigint p' = Installed ∧ sigterm p' = Installed ∧ g_active_server p' = Some this ∧
      listening p' = {[ socket a ]} ∪ listening p ∧
      ∃ s', servers p' !! this = Some s' ∧ running_ s' = true ∧ listen_fd_ s' = socket a).
Proof.
  intros Hp Hs Hr Hn. unfold bind_and_listen, deref. rewrite Hs. msimp.
  destruct (Z.ltb_spec (socket a) 0) as [Hneg|Hfd].
  { assert (bind_succeeds a s = false) as Hb by (unfold bind_succeeds; by rewrite (proj2 (Z.leb_gt 0 (socket a)))).
    eexists _, false. split; [done|]. split; [|split_and!; try done].
    - apply with_logger_inv. by apply (store_quiet_inv this s); auto.
    - intros _. split_and!; try done. eexists. split; [simpl; by rewrite lookup_insert_eq|done]. }
  pose proof (bind_failed_after this s a) as Hfail. cbn [host_ port_ with_listen].
  destruct (Z.ltb_spec (setsockopt a) 0) as [Hopt|Hopt].
  { apply Hfail; try done. unfold bind_succeeds. rewrite (proj2 (Z.leb_gt 0 (setsockopt a))) by done.
    by rewrite andb_false_r. }
  destruct (bind_address a (host_ s)) as [addr|] eqn:Haddr.
  2: { apply Hfail; try done. unfold bind_succeeds. rewrite Haddr. by rewrite andb_false_r. }
  destruct (Z.ltb_spec (bind a (htons (port_ s)) addr) 0) as [Hb|Hb].
  { apply Hfail; try done. unfold bind_succeeds. rewrite Haddr, (proj2 (Z.leb_gt 0 (bind _ _ _))) by done.
    by rewrite andb_false_r. }
  destruct (Z.ltb_spec (listen a) 0) as [Hl|Hl].
  { apply Hfail; try done. unfold bind_succeeds. rewrite Haddr, (proj2 (Z.leb_gt 0 (listen a))) by done.
    by rewrite !andb_false_r. }
  eexists _, true. split; [done|]. split_and!; try done.
  - unfold setup_signals. do 2 apply set_signal_inv. by apply (activate_inv this s); auto.
  - unfold bind_succeeds. rewrite Haddr. symmetry. repeat (apply andb_true_iff; split); by apply Z.leb_le.
  - intros _. split_and!; try done. eexists. split; [simpl; by rewrite lookup_insert_eq|done].
Qed.

(** Whatever the answers are, the invariant is kept; with [strict] the server must not
    be running. *)
Lemma bind_and_listen_inv a this s p p' ok :
  inv p → servers p !! this = Some s → (running_ s = false ∨ strict = false) → socket a ∉ listening p →
  bind_and_listen a this p ⇓ (p', ok) → inv p'.
Proof.
  intros Hp Hs Hr Hn. unfold bind_and_listen, deref. rewrite Hs. msimp.
  destruct (Z.ltb_spec (socket a) 0) as [Hneg|Hfd].
  { intros [= <- <-]. apply with_logger_inv. by apply (store_quiet_inv this s). }
  assert (∀ msg, Ret (bind_failed this (with_listen (socket a) (running_ s) s) msg
      (with_listening ({[ socket a ]} ∪ listening p) p)) ⇓ (p', ok) → inv p') as Hfail.
  { intros msg [= E]. pose proof (bind_failed_inv this s (socket a) msg p Hp Hs Hr Hfd Hn) as Hi. by rewrite E in Hi. }
  repeat case_match; try apply Hfail. intros [= <- <-]. unfold setup_signals. do 2 apply set_signal_inv.
  by apply (activate_inv this s).
Qed.

(** The objects of the process, and those that run, after each operation. *)
Definition no_new_server (p p' : Process) : Prop :=
  dom (servers p') = dom (servers p) ∧
  ∀ a s', servers p' !! a = Some s' → running_ s' = true → ∃ s, servers p !! a = Some s ∧ running_ s = true.

Lemma store_no_new this s s' p :
  servers p !! this = Some s → (running_ s' = true → running_ s = true) → no_new_server p (store this s' p).
Proof.
  intros Hs Hr. split; simpl.
  - rewrite dom_insert_L. apply elem_of_dom_2 in Hs. set_solver.
  - intros a x [[<- <-]|[_ Hx]]%lookup_insert_Some; eauto.
Qed.

Lemma stop_at_no_new this p p' : stop_at this p ⇓ p' → no_new_server p p'.
Proof.
  unfold stop_at, deref. destruct (servers p !! this) as [s|] eqn:Hs; msimp; [|done].
  unfold stop, close_listen. destruct (running_ s) eqn:Er; simpl; [|intros [= <-]; by apply (store_no_new this s)].
  case_match; intros [= <-]; by apply (store_no_new this s).
Qed.

Lemma no_new_same p p' : servers p' = servers p → no_new_server p p'.
Proof. intros Hs. split; rewrite Hs; eauto. Qed.

Lemma no_new_trans p q r : no_new_server p q → no_new_server q r → no_new_server p r.
Proof.
  intros [D1 N1] [D2 N2]. split; [by rewrite D2|]. intros a s Hs Hr. destruct (N2 a s Hs Hr) as (x & Hx & Hrx). eauto.
Qed.

Lemma deliver_no_new sig p p' : deliver sig p ⇓ p' → no_new_server p p'.
Proof.
  unfold deliver. destruct (disposition sig p); [intros [= <-]; by apply no_new_same|].
  unfold signal_lambda, forward_signal. intros Hd.
  apply bind_Ret in Hd as (q & Hq & Hd). apply bind_Ret in Hq as (q0 & Hq0 & [= <-]).
  assert (no_new_server p q0) as H0.
  { destruct (g_active_server p) as [a|]; [by eapply stop_at_no_new|]. injection Hq0 as <-. by apply no_new_same. }
  assert (servers (set_signal sig SIG_DFL q0) = servers q0) as Hs by apply set_signal_same.
  destruct (g_active_server (set_signal sig SIG_DFL q0)) as [a|].
  - apply bind_Ret in Hd as (s & _ & Hd). destruct (on_signal sig s); injection Hd as <-;
      (eapply no_new_trans; [exact H0|]); by apply no_new_same.
  - injection Hd as <-. eapply no_new_trans; [exact H0|]. by apply no_new_same.
Qed.

Lemma bind_dom a this p p' ok : bind_and_listen a this p ⇓ (p', ok) → dom (servers p') = dom (servers p).
Proof.
  unfold bind_and_listen, deref. destruct (servers p !! this) as [s|] eqn:Hs; msimp; [|done].
  assert (∀ q x, servers q = servers p → dom (servers (store this x q)) = dom (servers p)) as Hstore.
  { intros q x Hq. simpl. rewrite Hq, dom_insert_L. apply elem_of_dom_2 in Hs. set_solver. }
  assert (∀ x msg q, servers q = servers p → dom (servers (bind_failed this x msg q).1) = dom (servers p)) as Hfail.
  { intros x msg q Hq. unfold bind_failed, close_listen. case_match; simpl; by apply (Hstore q). }
  assert (∀ x msg q, Ret (bind_failed this x msg q) ⇓ (p', ok) → servers q = servers p →
    dom (servers p') = dom (servers p)) as Hf.
  { intros x msg q [= E] Hq. pose proof (Hfail x msg q Hq) as Hd. by rewrite E in Hd. }
  repeat case_match; intros E; try (by eapply Hf); injection E as <- <-; by apply (Hstore p).
Qed.

(** ** Everything that can happen to the servers of a process *)

(** Objects are constructed at fresh addresses, the kernel gives a server that is bound
    a descriptor that is not open, and nothing happens after the process is killed.
    [bind_and_listen] may be called on any server; with [strict], only on one that does
    not run, as [DatabaseServer::run] does. *)
Inductive step : Process → Process → Prop :=
| step_construct this host port p :
    killed p = false → servers p !! this = None → step p (store this (make host port) p)
| step_install this s h1 h2 p :
    killed p = false → servers p !! this = Some s → step p (store this (install_signal_handlers h1 h2 s) p)
| step_bind a this s p p' ok :
    killed p = false → servers p !! this = Some s → (running_ s = false ∨ strict = false) → socket a ∉ listening p →
    bind_and_listen a this p ⇓ (p', ok) → step p p'
| step_stop this s p p' :
    killed p = false → servers p !! this = Some s → stop_at this p ⇓ p' → step p p'
| step_destroy this s p p' :
    killed p = false → servers p !! this = Some s → destroy this p ⇓ p' → step p p'
| step_signal sig p p' : killed p = false → deliver sig p ⇓ p' → step p p'.

Lemma construct_inv this host port p :
  inv p → servers p !! this = None → inv (store this (make host port) p).
Proof.
  intros Hp Hn. apply (inv_same (close_all [] (store this (make host port) p))); simpl; [done|done|set_solver|].
  apply (store_idle_inv this (make host port)); [done|by right|by left|done|done].
Qed.

Lemma install_inv this s h1 h2 p :
  inv p → servers p !! this = Some s → inv (store this (install_signal_handlers h1 h2 s) p).
Proof.
  intros [H1 H2 H3 H4] Hs. split; simpl.
  - intros a Ha. destruct (H1 a Ha) as [x Hx]. apply lookup_insert_is_Some.
    destruct (decide (this = a)); [by left|right; eauto].
  - intros a x [[-> <-]|[_ Hx]]%lookup_insert_Some; [exact (H2 a s Hs)|exact (H2 a x Hx)].
  - intros a b x y [[<- <-]|[Hna Hx]]%lookup_insert_Some [[<- <-]|[Hnb Hy]]%lookup_insert_Some; simpl;
      intros; [done|by eapply (H3 this b s y)|by eapply (H3 a this x s)|by eapply (H3 a b x y)].
  - intros Hst fd Hin. destruct (H4 Hst fd Hin) as (a & x & Hx & Hr & Hf). destruct (decide (this = a)) as [->|].
    + simplify_eq. eexists a, _. by rewrite lookup_insert_eq.
    + exists a, x. by rewrite lookup_insert_ne.
Qed.

Lemma free_inv this s p :
  inv p → servers p !! this = Some s → running_ s = false → g_active_server p ≠ Some this → inv (free this p).
Proof.
  intros [H1 H2 H3 H4] Hs Hr Ha. split; simpl.
  - intros a Hact. rewrite lookup_delete_ne by congruence. auto.
  - intros a x [_ Hx]%lookup_delete_Some. exact (H2 a x Hx).
  - intros a b x y [_ Hx]%lookup_delete_Some [_ Hy]%lookup_delete_Some. by apply H3.
  - intros Hst fd Hin. destruct (H4 Hst fd Hin) as (a & x & Hx & Hrx & Hf). exists a, x.
    rewrite lookup_delete_ne; [done|]. congruence.
Qed.

Lemma destroy_inv this s p p' : inv p → servers p !! this = Some s → destroy this p ⇓ p' → inv p'.
Proof.
  intros Hp Hs. unfold destroy. destruct (stop_at_spec p this s Hp Hs) as (s' & -> & Hr & _ & _ & Hi).
  msimp. set (q := close_all _ _) in *. intros [= <-].
  assert (servers q !! this = Some s') as Hq by apply lookup_insert_eq.
  case_bool_decide as Ha.
  - apply (free_inv this s'); [|done|done|done]. destruct Hi as [H1 H2 H3 H4]. by split.
  - by apply (free_inv this s').
Qed.

(** What delivering a signal does. *)
Lemma deliver_spec sig p :
  inv p →
  ∃ p', deliver sig p ⇓ p' ∧ inv p' ∧
    (disposition sig p = SIG_DFL → p' = kill p) ∧
    (disposition sig p = Installed →
       killed p' = killed p ∧ disposition sig p' = SIG_DFL ∧ g_active_server p' = g_active_server p ∧
       ∀ a s, g_active_server p = Some a → servers p !! a = Some s →
         listening p' = listening p ∖ list_to_set (held_by s) ∧
         logger p' = match on_signal sig s with Some h => h (signal_number sig) (logger p) | None => logger p end ∧
         ∃ s', servers p' !! a = Some s' ∧ running_ s' = false).
Proof.
  intros Hp. unfold deliver. destruct (disposition sig p) eqn:Hd.
  { exists (kill p). split_and!; try done. by apply (inv_same p). }
  unfold signal_lambda, forward_signal. destruct (g_active_server p) as [a|] eqn:Ha; msimp.
  - destruct (inv_active Hp a Ha) as [s Hs].
    destruct (stop_at_spec p a s Hp Hs) as (s' & -> & Hr & Hfd & Hsig & Hi). msimp.
    set (q := close_all _ _) in *. set (r := set_signal sig SIG_DFL q) in *.
    destruct (set_signal_same sig SIG_DFL q) as (Es & Ea & El & Eg & Ek). fold r in Es, Ea, El, Eg, Ek.
    assert (servers r !! a = Some s') as Hra by (rewrite Es; apply lookup_insert_eq).
    assert (g_active_server r = Some a) as Hact by (rewrite Ea; exact Ha). rewrite Hact.
    assert (disposition sig r = SIG_DFL) as Hdr by (by destruct sig).
    assert (inv r) as Hir by (by apply set_signal_inv).
    assert (listening r = listening p ∖ list_to_set (held_by s)) as Hlr by (by rewrite El).
    unfold deref. rewrite Hra. msimp. rewrite Hsig.
    assert (logger r = logger p) as Hlg by (by rewrite Eg). rewrite Hlg.
    assert (∀ l, disposition sig (with_logger l r) = SIG_DFL) as Hdl by (intros l; rewrite <-Hdr; by destruct sig).
    destruct (on_signal sig s) as [h|] eqn:Hh.
    + eexists. split; [done|]. split; [by apply with_logger_inv|]. split; [done|]. intros _.
      split_and!; [exact Ek|apply Hdl|done|]. intros a' s'' [= <-] Hs''. simplify_eq.
      rewrite Hh. split_and!; [done|done|]. by exists s'.
    + eexists. split; [done|]. split; [done|]. split; [done|]. intros _.
      split_and!; [exact Ek|done|done|]. intros a' s'' [= <-] Hs''. simplify_eq. rewrite Hh. eauto.
  - destruct (set_signal_same sig SIG_DFL p) as (Es & Ea & El & Eg & Ek). rewrite Ea, Ha.
    eexists. split; [done|]. split; [by apply set_signal_inv|]. split; [done|]. intros _.
    split_and!; [done|by destruct sig|by rewrite Ea|done].
Qed.

Lemma process_step_inv p p' : inv p → step p p' → inv p'.
Proof.
  intros Hp Hs. destruct Hs as [this host port p _ Hn|this s h1 h2 p _ Hs|a this s p p' ok _ Hs Hr Hn Hb
    |this s p p' _ Hs Hb|this s p p' _ Hs Hb|sig p p' _ Hd].
  - by apply construct_inv.
  - by apply install_inv.
  - by eapply bind_and_listen_inv.
  - destruct (stop_at_spec p this s Hp Hs) as (s' & Hst & _ & _ & _ & Hi).
    rewrite Hb in Hst. by injection Hst as ->.
  - by eapply destroy_inv.
  - destruct (deliver_spec sig p Hp) as (q & Hq & Hi & _). rewrite Hd in Hq. by injection Hq as ->.
Qed.

Lemma reachable_inv_process p : rtc step initial_process p → inv p.
Proof.
  intros Hr. assert (inv initial_process) as H0 by (split; simpl; set_solver).
  revert H0. induction Hr as [|p1 p2 p3 Hs _ IH]; [done|]. intros H1. apply IH. by eapply process_step_inv.
Qed.

End Invariant.

(** C23: opening the listening socket either succeeds completely or leaves nothing
    behind: [bind_and_listen] returns true exactly when every system call
    succeeds, then the server runs on the new descriptor, is the one signals stop
    and both signals are caught; on every failing branch the descriptor is closed
    again and the process has the same listening descriptors, active server and
    signal dispositions as before. *)
Theorem bind_all_or_nothing a this s p :
  rtc (step false) initial_process p → servers p !! this = Some s → running_ s = false → socket a ∉ listening p →
  ∃ p' ok, bind_and_listen a this p ⇓ (p', ok) ∧ ok = bind_succeeds a s ∧
    (ok = false → unchanged_but this p p') ∧
    (ok = true → sigint p' = Installed ∧ sigterm p' = Installed ∧ g_active_server p' = Some this ∧
      listening p' = {[ socket a ]} ∪ listening p ∧
      ∃ s', servers p' !! this = Some s' ∧ running_ s' = true ∧ listen_fd_ s' = socket a).
Proof.
  intros Hr Hs Hn Hf. destruct (bind_and_listen_spec false a this s p) as (p' & ok & Hb & _ & H); try done;
    [by apply (reachable_inv_process false)|]. eauto.
Qed.

(** C22: signals are safe and effective.  Whatever was constructed, bound (on any server,
    with any answers of the system calls), stopped and destroyed before, a signal never
    reaches a server that no longer exists, no two servers share a descriptor, and a
    signal that is caught stops the active server: it no longer runs, the descriptor it
    holds is closed, its callback has run, and the next signal of that number ends the
    process.  If moreover no server was bound again while it was running ([strict], as
    in [DatabaseServer::run], which binds once), no listening descriptor is ever leaked:
    each open one is held by a server that runs. *)
Theorem signals_stop_safely strict p sig :
  rtc (step strict) initial_process p →
  inv strict p ∧ ∃ p', deliver sig p ⇓ p' ∧
    (disposition sig p = SIG_DFL → p' = kill p) ∧
    (disposition sig p = Installed →
       disposition sig p' = SIG_DFL ∧ deliver sig p' ⇓ kill p' ∧
       ∀ a s, g_active_server p = Some a → servers p !! a = Some s →
         listening p' = listening p ∖ list_to_set (held_by s) ∧
         logger p' = match on_signal sig s with Some h => h (signal_number sig) (logger p) | None => logger p end ∧
         ∃ s', servers p' !! a = Some s' ∧ running_ s' = false).
Proof.
  intros Hr. pose proof (reachable_inv_process strict p Hr) as Hp. split; [done|].
  destruct (deliver_spec strict sig p Hp) as (p' & Hd & _ & H1 & H2). exists p'. split_and!; [done|done|].
  intros Hi. destruct (H2 Hi) as (_ & Hdf & _ & H3). split_and!; [done| |done].
  unfold deliver. by rewrite Hdf.
Qed.

(** ** A server on port 6379 *)

Definition good_answers : Answers := mkAnswers 3 0 (λ _, None) (λ _ _, 0%Z) 0 "".
Definition busy_port : Answers := mkAnswers 3 0 (λ _, None) (λ _ _, (-1)%Z) 0 "Address already in use".

Definition demo_process : Process := store 1 (make "0.0.0.0" 6379) initial_process.

Lemma demo_reachable strict : rtc (step strict) initial_process demo_process.
Proof. apply rtc_once. by constructor. Qed.

Lemma bind_all_or_nothing_witness :
  ∃ p', bind_and_listen busy_port 1 demo_process ⇓ (p', false) ∧ listening p' = ∅ ∧
    ∃ p'', bind_and_listen good_answers 1 demo_process ⇓ (p'', true) ∧ listening p'' = {[ 3%Z ]} ∪ ∅.
Proof.
  destruct (bind_all_or_nothing busy_port 1 (make "0.0.0.0" 6379) demo_process) as (p' & ok & Hb & -> & Hf & _);
    [apply demo_reachable|reflexivity|reflexivity|set_solver|].
  destruct (bind_all_or_nothing good_answers 1 (make "0.0.0.0" 6379) demo_process) as (p'' & ok & Hb' & -> & _ & Ht);
    [apply demo_reachable|reflexivity|reflexivity|set_solver|].
  exists p'. split; [exact Hb|]. split; [apply (Hf eq_refl)|]. exists p''. split; [exact Hb'|].
  apply (Ht eq_refl).
Defined.

Lemma signals_stop_safely_witness :
  ∃ p p', bind_and_listen good_answers 1 demo_process ⇓ (p, true) ∧ deliver SIGINT p ⇓ p' ∧
    listening p' = listening p ∖ {[ 3%Z ]} ∧ deliver SIGINT p' ⇓ kill p'.
Proof.
  destruct (bind_and_listen good_answers 1 demo_process) as [[p ok]| |] eqn:Hb; [|discriminate Hb..].
  assert (rtc (step true) initial_process p) as Hr.
  { eapply rtc_r; [apply demo_reachable|].
    apply (step_bind true good_answers 1 (make "0.0.0.0" 6379) demo_process p ok); try reflexivity; [by left|set_solver|exact Hb]. }
  destruct (signals_stop_safely true p SIGINT Hr) as (_ & p' & Hd & _ & Hi).
  injection Hb as <- <-. destruct (Hi eq_refl) as (_ & Hk & Ha).
  eexists _, p'. split; [reflexivity|]. split; [exact Hd|]. split; [|exact Hk].
  destruct (Ha 1%N (with_listen 3 true (make "0.0.0.0" 6379)) eq_refl) as (Hl & _); [reflexivity|].
  rewrite Hl. set_solver.
Defined.

(** The restriction is needed: a server that is bound again while it runs forgets its
    descriptor, which stays open when the server has been stopped. *)
Lemma rebind_leaks :
  ∃ p p' p'', bind_and_listen good_answers 1 demo_process ⇓ (p, true) ∧
    bind_and_listen (mkAnswers 4 0 (λ _, None) (λ _ _, 0%Z) 0 "") 1 p ⇓ (p', true) ∧
    stop_at 1 p' ⇓ p'' ∧ 3%Z ∈ listening p'' ∧
    (λ s, (running_ s, listen_fd_ s)) <$> servers p'' !! 1%N = Some (false, (-1)%Z).
Proof.
  do 3 eexists. split; [vm_compute; reflexivity|]. split; [vm_compute; reflexivity|]. split; [vm_compute; reflexivity|].
  split; [by apply (bool_decide_unpack _); vm_compute|vm_compute; reflexivity].
Qed.

End TcpServer.
