(* ===== verification/Accept.v ===== *)
(** * Accepting connections (src/net)

    The epoll branch of [IoMultiplexer] and the two accept loops, [AcceptLoop] and
    [AsyncAcceptLoop], over the answers of the operating system.  A stop of the server
    (by a signal) arrives at a system call: a flag of the answer says that it did; a
    stop between two calls is one that arrives at the next.  The answer to a call of
    [epoll_wait] depends on its timeout, and has the time the call blocks. *)

From S2P Require Import Prelude CppStd Logger Memory Table Scanner Engine Clients Wire Persistence Pubsub Admin Dispatcher Session Net.

Module IoMultiplexer.

(** The answer to a call of [epoll_wait]: the milliseconds it blocks ([None]: for ever);
    the descriptors that are ready, or [None] for an error; and whether the server was
    stopped meanwhile. *)
Record Answer := mkAnswer { blocked : option Z; ready : option (list Z); woken : bool }.

(** What the manual of [epoll_wait] promises: with a timeout that is not negative it
    blocks no longer than that. *)
Definition keeps_timeout (epoll_wait : Z → Answer) : Prop :=
  ∀ timeout_ms, (0 ≤ timeout_ms)%Z → ∃ ms, blocked (epoll_wait timeout_ms) = Some ms ∧ (0 ≤ ms ≤ timeout_ms)%Z.

Section Multiplexer.
(** What the callback acts on. *)
Context {A : Type}.

(** [interest] is the kernel's interest list of the epoll descriptor. *)
Record t := mk {
  poll_fd_ : Z;
  on_readable_ : option (Z → A → A);
  interest : gset Z
}.

(** The constructor; the argument is the result of [epoll_create1]. *)
Definition make (epoll_create1 : Z) : t := mk epoll_create1 None ∅.

(** The destructor, with the descriptors it closes. *)
Definition destroy (m : t) : t * list Z :=
  if (0 <=? poll_fd_ m)%Z then (mk (-1) (on_readable_ m) ∅, [poll_fd_ m]) else (m, []).

(** [epoll_ctl] is the result of the call; the kernel changes its list when it is 0. *)
Definition add_read (epoll_ctl : Z) (fd : Z) (m : t) : t * bool :=
  if (epoll_ctl =? 0)%Z then (mk (poll_fd_ m) (on_readable_ m) ({[ fd ]} ∪ interest m), true)
  else (m, false).

Definition remove (epoll_ctl : Z) (fd : Z) (m : t) : t * bool :=
  if (epoll_ctl =? 0)%Z then (mk (poll_fd_ m) (on_readable_ m) (interest m ∖ {[ fd ]}), true)
  else (m, false).

Definition set_readable_callback (callback : Z → A → A) (m : t) : t :=
  mk (poll_fd_ m) (Some callback) (interest m).

(** The size of the event buffer. *)
Definition max_events : nat := 64.

(** The loop of [wait] over the reported events. *)
Fixpoint report (callback : option (Z → A → A)) (events ready : list Z) (a : A) : list Z * A :=
  match events with
  | [] => (ready, a)
  | fd :: events' =>
      report callback events' (ready ++ [fd]) (match callback with Some f => f fd a | None => a end)
  end.

(** [wait], with the milliseconds it blocks; [None]: it never returns.  Of the
    descriptors that are ready, at most [max_events] are reported. *)
Definition wait (timeout_ms : Z) (epoll_wait : Z → Answer) (m : t) (a : A) : option (Z * (list Z * Z * A)) :=
  let answer := epoll_wait timeout_ms in
  ms ← blocked answer;
  Some (ms,
    match ready answer with
    | None => ([], (-1)%Z, a)
    | Some fds =>
        let events := take max_events fds in
        let count := Z.of_nat (length events) in
        if (count <=? 0)%Z then ([], count, a)
        else let '(ready, a) := report (on_readable_ m) events [] a in (ready, count, a)
    end).

Lemma report_spec f events ready a :
  report (Some f) events ready a = (ready ++ events, foldl (λ a fd, f fd a) a events).
Proof.
  revert ready a. induction events as [|fd events IH]; intros ready a; simpl; [by rewrite app_nil_r|].
  by rewrite IH, <-(assoc_L (++)).
Qed.

(** [wait] reports the first 64 ready descriptors, calls the callback once for each,
    in order, and returns their number; on a timeout or an error it reports
    nothing and calls nothing. *)
Lemma wait_spec f timeout_ms epoll_wait m a :
  on_readable_ m = Some f →
  wait timeout_ms epoll_wait m a =
  let answer := epoll_wait timeout_ms in
  let events := take max_events (default [] (ready answer)) in
  (λ ms, (ms, (events, match ready answer with None => (-1)%Z | Some _ => Z.of_nat (length events) end,
               foldl (λ a fd, f fd a) a events))) <$> blocked answer.
Proof.
  intros Hf. unfold wait. cbv zeta. destruct (epoll_wait timeout_ms) as [[ms|] [fds|] wk]; try done. simpl. do 2 f_equal.
  destruct (Z.leb_spec (Z.of_nat (length (take max_events fds))) 0) as [Hz|Hz].
  - destruct (take max_events fds) as [|x l] eqn:E; [done|]. simpl in Hz. lia.
  - by rewrite Hf, report_spec.
Qed.

End Multiplexer.
Arguments t : clear implicits.
End IoMultiplexer.

(** ** Connections *)

(** The answer to one call of [accept] and to the calls that follow it for the new
    descriptor: the peer's address text and port (in network order) as [accept]
    reports it, the same from [getpeername] if that succeeds, the descriptor's
    flags, and the connection's future.  [stopped] says that the server was stopped
    while the call was pending. *)
Record Accepted := mkAccepted {
  client_fd : Z;
  client_addr : string;
  client_port : Z;
  peername : option (string * Z);
  getfl : Z;
  conn_input : list (option ascii);
  conn_writes : list (option nat);
  stopped : bool
}.

(** [inet_ntop] text, a colon and the port. *)
Definition address_text (addr : string) (port : Z) : string := addr +:+ ":" +:+ to_string (ntohs port).

(** What both loops work on: the server, the handler with the state it acts on, the
    session counter and the error stream. *)
Section Loops.
Context {H : Type}.

Record Env := mkEnv {
  server : TcpServer.t;
  handler_ : option (ClientSession.t → H → H);
  hstate : H;
  g_session_counter : N;
  log : Logger.t
}.

Definition stop_env (e : Env) : Env :=
  mkEnv (TcpServer.stop (server e)).1 (handler_ e) (hstate e) (g_session_counter e) (log e).
Definition with_log (l : Logger.t) (e : Env) : Env :=
  mkEnv (server e) (handler_ e) (hstate e) (g_session_counter e) l.
Definition env_set_handler (h : ClientSession.t → H → H) (e : Env) : Env :=
  mkEnv (server e) (Some h) (hstate e) (g_session_counter e) (log e).

(** [std::make_unique<ClientSession>(client_fd, peer)]. *)
Definition new_session (peer : string) (a : Accepted) (e : Env) : Env * ClientSession.t :=
  let '(session, g) := ClientSession.make (getfl a) (conn_input a) (conn_writes a) (client_fd a) peer
    (g_session_counter e) in
  (mkEnv (server e) (handler_ e) (hstate e) g (log e), session).

(** The call of the handler. *)
Definition hand_over (h : ClientSession.t → H → H) (session : ClientSession.t) (e : Env) : Env :=
  mkEnv (server e) (handler_ e) (h session (hstate e)) (g_session_counter e) (log e).

End Loops.
Arguments Env : clear implicits.

Module AcceptLoop.
Section Loop.
Context {H : Type}.

(** [sessions_] keeps the sessions when there is no handler. *)
Record t := mk { env : Env H; sessions_ : list ClientSession.t }.

Definition make (e : Env H) : t := mk e [].
Definition set_handler (h : ClientSession.t → H → H) (l : t) : t :=
  mk (env_set_handler h (env l)) (sessions_ l).

Definition peer_address (a : Accepted) : string :=
  match peername a with
  | None => "unknown"
  | Some (addr, port) => address_text addr port
  end.

Definition run_once (a : Accepted) (l : t) : t :=
  if negb (TcpServer.running_ (server (env l))) then l
  else
    let e := if stopped a then stop_env (env l) else env l in
    if (client_fd a <? 0)%Z then
      mk (if TcpServer.running_ (server e) then with_log (Logger.log_warn "accept failed" (log e)) e else e)
        (sessions_ l)
    else
      let '(e, session) := new_session (peer_address a) a e in
      let e := with_log (Logger.log_info ("client connected id=" +:+ to_string (Z.of_N (ClientSession.id_ session)) +:+
        " peer=" +:+ ClientSession.peer_addr_ session) (log e)) e in
      match handler_ e with
      | Some h => mk (hand_over h session e) (sessions_ l)
      | None => mk e (sessions_ l ++ [session])
      end.

(** [sessions_.erase(std::remove_if(... !s->alive()))]; the destructors of the
    erased sessions have nothing left to close. *)
Definition erase_closed (l : t) : t :=
  mk (env l) (filter (λ s, ClientSession.alive_ s = true) (sessions_ l)).

(** The loop, over the answers to the coming calls of [accept]; the result has the
    sessions it closes at its end.  [None]: still running when the answers end. *)
Fixpoint run_until_stopped (answers : list Accepted) (l : t) : option (t * list ClientSession.t) :=
  if negb (TcpServer.running_ (server (env l))) then
    Some (mk (env l) [], ClientSession.mark_closed <$> sessions_ l)
  else
    match answers with
    | [] => None
    | a :: answers' => run_until_stopped answers' (erase_closed (run_once a l))
    end.

Definition active_sessions (l : t) : nat := length (sessions_ l).

End Loop.
Arguments t : clear implicits.
End AcceptLoop.

Module AsyncAcceptLoop.
Section Loop.
Context {H : Type}.

(** The environment and the answers to the coming calls of [accept], which the
    callback consumes. *)
Record World := mkWorld { env : Env H; answers : list Accepted }.

(** The members: the multiplexer; the server and the handler are in the world. *)
Definition t : Type := IoMultiplexer.t World.

Definition set_handler (h : ClientSession.t → H → H) (w : World) : World :=
  mkWorld (env_set_handler h (env w)) (answers w).

Definition handle_readable (w : World) : World :=
  match answers w with
  | [] => w
  | a :: rest =>
      let e := if stopped a then stop_env (env w) else env w in
      if (client_fd a <? 0)%Z then mkWorld e rest
      else
        let '(e, session) := new_session (address_text (client_addr a) (client_port a)) a e in
        match handler_ e with
        | Some h => mkWorld (hand_over h session e) rest
        | None => mkWorld e rest
        end
  end.

(** The callback that [run_until_stopped] installs. *)
Definition callback (fd : Z) (w : World) : World :=
  if (fd =? TcpServer.listen_fd_ (server (env w)))%Z then handle_readable w else w.

Definition stop_world (w : World) : World := mkWorld (stop_env (env w)) (answers w).

(** [multiplexer_.wait(ready, 250)]. *)
Definition round (epoll_wait : Z → IoMultiplexer.Answer) (m : t) (w : World) : option (Z * World) :=
  let w := if IoMultiplexer.woken (epoll_wait 250%Z) then stop_world w else w in
  '(ms, (_, _, w)) ← IoMultiplexer.wait 250 epoll_wait m w;
  Some (ms, w).

(** The [while] loop over the coming calls of [epoll_wait], with the times they block.
    [None]: a call does not return, or the loop still runs when they end. *)
Fixpoint loop (calls : list (Z → IoMultiplexer.Answer)) (m : t) (w : World) : option (list Z * World) :=
  if negb (TcpServer.running_ (server (env w))) then Some ([], w)
  else
    match calls with
    | [] => None
    | epoll_wait :: calls' =>
        '(ms, w) ← round epoll_wait m w;
        '(l, w) ← loop calls' m w;
        Some (ms :: l, w)
    end.

Definition run_until_stopped (epoll_ctl : Z) (calls : list (Z → IoMultiplexer.Answer)) (m : t) (w : World)
    : option (list Z * World) :=
  let m := (IoMultiplexer.add_read epoll_ctl (TcpServer.listen_fd_ (server (env w))) m).1 in
  let m := IoMultiplexer.set_readable_callback callback m in
  loop calls m w.

End Loop.
Arguments World : clear implicits.
End AsyncAcceptLoop.

(** ** What the loops have in common *)

Section Agreement.
Context {H : Type} (h : ClientSession.t → H → H).

(** The address that [accept] reports. *)
Definition accept_address (a : Accepted) : string := address_text (client_addr a) (client_port a).

(** The reference: one answer of [accept] handled, with a way to name the peer. *)
Definition accept_one (peer : Accepted → string) (a : Accepted) (e : Env H) : Env H :=
  let e := if stopped a then stop_env e else e in
  if (client_fd a <? 0)%Z then e
  else
    let '(e, session) := new_session (peer a) a e in
    hand_over h session e.

(** Answers handled one after the other while the server runs. *)
Fixpoint consume (peer : Accepted → string) (used : list Accepted) (e : Env H) : option (Env H) :=
  match used with
  | [] => Some e
  | a :: used' => if TcpServer.running_ (server e) then consume peer used' (accept_one peer a e) else None
  end.

(** The sessions the answers stand for, numbered from [g], with the names [peer]. *)
Fixpoint sessions_of (peer : Accepted → string) (g : N) (used : list Accepted) : list ClientSession.t :=
  match used with
  | [] => []
  | a :: used' =>
      if (client_fd a <? 0)%Z then sessions_of peer g used'
      else
        let '(s, g') := ClientSession.make (getfl a) (conn_input a) (conn_writes a) (client_fd a) (peer a) g in
        s :: sessions_of peer g' used'
  end.

Lemma consume_app peer u1 u2 e : consume peer (u1 ++ u2) e = consume peer u1 e ≫= consume peer u2.
Proof.
  revert e. induction u1 as [|a u1 IH]; intros e; simpl; [done|]. by destruct (TcpServer.running_ _).
Qed.

Lemma accept_one_handler peer a e : handler_ (accept_one peer a e) = handler_ e.
Proof. unfold accept_one, new_session. simpl. by destruct (stopped a), (client_fd a <? 0)%Z. Qed.

Lemma consume_hstate peer used e e' :
  consume peer used e = Some e' →
  hstate e' = foldl (λ st s, h s st) (hstate e) (sessions_of peer (g_session_counter e) used) ∧
  handler_ e' = handler_ e.
Proof.
  revert e. induction used as [|a used IH]; intros e; simpl; [by intros [= <-]|].
  destruct (TcpServer.running_ (server e)); [|done]. intros Hc. destruct (IH _ Hc) as [-> ->].
  rewrite accept_one_handler. split; [|done]. unfold accept_one, new_session. simpl.
  by destruct (stopped a), (client_fd a <? 0)%Z.
Qed.

(** A server that runs listens on a descriptor, one that does not has none. *)
Definition listens (s : TcpServer.t) : Prop :=
  if TcpServer.running_ s then (0 ≤ TcpServer.listen_fd_ s)%Z else (TcpServer.listen_fd_ s < 0)%Z.

Lemma stop_listens s : listens s → listens (TcpServer.stop s).1 ∧ TcpServer.running_ (TcpServer.stop s).1 = false.
Proof.
  intros Hs. destruct (TcpServer.stop_spec s) as (s' & -> & Hr & Hfd & _);
    [intros Hr; unfold listens in Hs; by rewrite Hr in Hs|]. unfold listens. simpl. by rewrite Hr.
Qed.

Lemma stop_env_stopped (e : Env H) : TcpServer.running_ (server e) = false → stop_env e = e.
Proof. intros He. unfold stop_env, TcpServer.stop. rewrite He. by destruct e. Qed.

Lemma accept_one_listens peer a e : listens (server e) → listens (server (accept_one peer a e)).
Proof.
  intros He. unfold accept_one, new_session. simpl.
  destruct (stopped a), (client_fd a <? 0)%Z; simpl; try done; by apply stop_listens.
Qed.

(** *** The asynchronous loop *)

Import AsyncAcceptLoop.

Lemma handle_readable_one a rest e :
  handler_ e = Some h → handle_readable (mkWorld e (a :: rest)) = mkWorld (accept_one accept_address a e) rest.
Proof.
  intros Hh. unfold handle_readable, accept_one, new_session. simpl.
  by destruct (stopped a), (client_fd a <? 0)%Z; simpl; rewrite ?Hh.
Qed.

(** Between two worlds, some answers were consumed while the server ran. *)
Definition served (w w' : World H) : Prop :=
  ∃ used, answers w = used ++ answers w' ∧ consume accept_address used (env w) = Some (env w').

Lemma served_refl w : served w w.
Proof. by exists []. Qed.

Lemma served_trans w1 w2 w3 : served w1 w2 → served w2 w3 → served w1 w3.
Proof.
  intros (u1 & Ha1 & Hc1) (u2 & Ha2 & Hc2). exists (u1 ++ u2).
  rewrite Ha1, Ha2, (assoc_L (++)). split; [done|]. by rewrite consume_app, Hc1.
Qed.

Definition ready_world (w : World H) : Prop := listens (server (env w)) ∧ handler_ (env w) = Some h.

Lemma callback_served fd w :
  (0 ≤ fd)%Z → ready_world w → served w (callback fd w) ∧ ready_world (callback fd w).
Proof.
  intros Hfd Hw. pose proof Hw as [Hl Hh]. unfold callback.
  destruct (Z.eqb_spec fd (TcpServer.listen_fd_ (server (env w)))) as [->|]; [|by split; [apply served_refl|]].
  destruct w as [e [|a rest]]; [by split; [apply served_refl|]|]. simpl in *.
  rewrite handle_readable_one by done. split.
  - exists [a]. split; [done|]. simpl. unfold listens in Hl.
    destruct (TcpServer.running_ (server e)); [done|lia].
  - split; simpl; [by apply accept_one_listens|by rewrite accept_one_handler].
Qed.

Lemma callbacks_served events w :
  Forall (λ fd, 0 ≤ fd)%Z events → ready_world w →
  served w (foldl (λ w fd, callback fd w) w events) ∧ ready_world (foldl (λ w fd, callback fd w) w events).
Proof.
  intros Hf. revert w. induction Hf as [|fd events Hfd _ IH]; intros w Hw; simpl; [by split; [apply served_refl|]|].
  destruct (callback_served fd w Hfd Hw) as [Hs Hw']. destruct (IH _ Hw') as [Hs' Hw''].
  split; [by eapply served_trans|done].
Qed.

(** Once stopped, a world consumes nothing. *)
Lemma served_stopped w w' : TcpServer.running_ (server (env w)) = false → served w w' → w' = w.
Proof.
  intros Hr ([|a used] & Ha & Hc); simpl in Hc; [|by rewrite Hr in Hc].
  destruct w, w'. simpl in *. by simplify_eq.
Qed.

Lemma stop_ready w :
  ready_world w → ready_world (stop_world w) ∧ TcpServer.running_ (server (env (stop_world w))) = false.
Proof. intros [Hl Hh]. destruct (stop_listens _ Hl). split; [by split|done]. Qed.

(** [epoll_wait] reports descriptors. *)
Definition reports (epoll_wait : Z → IoMultiplexer.Answer) : Prop :=
  ∀ timeout_ms, Forall (λ fd, 0 ≤ fd)%Z (default [] (IoMultiplexer.ready (epoll_wait timeout_ms))).

Lemma round_spec epoll_wait m w ms w' :
  IoMultiplexer.on_readable_ m = Some callback → reports epoll_wait → ready_world w →
  round epoll_wait m w = Some (ms, w') →
  ready_world w' ∧ IoMultiplexer.blocked (epoll_wait 250%Z) = Some ms ∧
  if IoMultiplexer.woken (epoll_wait 250%Z) then w' = stop_world w else served w w'.
Proof.
  intros Hm Hr Hw. unfold round. rewrite (IoMultiplexer.wait_spec callback) by done. cbv zeta.
  assert (Forall (λ fd, 0 ≤ fd)%Z (take IoMultiplexer.max_events (default [] (IoMultiplexer.ready (epoll_wait 250%Z))))) as Hf
    by (apply Forall_take, Hr).
  destruct (IoMultiplexer.blocked _) as [ms'|]; [|done]. simpl. intros [= -> <-]. destruct (IoMultiplexer.woken _).
  - destruct (stop_ready w Hw) as [Hw' Hst]. destruct (callbacks_served _ _ Hf Hw') as [Hs Hr'].
    split_and!; [done|done|]. by apply served_stopped.
  - by destruct (callbacks_served _ w Hf Hw).
Qed.

(** A round returns when its call does. *)
Lemma round_returns epoll_wait m (w : World H) ms :
  IoMultiplexer.on_readable_ m = Some callback → IoMultiplexer.blocked (epoll_wait 250%Z) = Some ms →
  ∃ w', round epoll_wait m w = Some (ms, w').
Proof.
  intros Hm Hb. unfold round. rewrite (IoMultiplexer.wait_spec callback) by done. cbv zeta. rewrite Hb. by eexists.
Qed.

Lemma loop_spec calls m w ms w' :
  IoMultiplexer.on_readable_ m = Some callback → Forall reports calls → ready_world w →
  loop calls m w = Some (ms, w') →
  TcpServer.running_ (server (env w')) = false ∧
  ∃ used e, answers w = used ++ answers w' ∧ consume accept_address used (env w) = Some e ∧
    (env w' = e ∨ env w' = stop_env e).
Proof.
  intros Hm Hf. revert w ms. induction Hf as [|r calls Hr _ IH]; intros w ms Hw; cbn [loop];
    destruct (TcpServer.running_ (server (env w))) eqn:Er; cbn [negb]; try done;
    try (intros [= <- <-]; split; [done|]; exists [], (env w); by auto).
  destruct (round r m w) as [[t w1]|] eqn:Eround; [|done]. cbn [mbind option_bind].
  destruct (loop calls m w1) as [[l w2]|] eqn:Eloop; [|done]. cbn [mbind option_bind]. intros [= <- <-].
  destruct (round_spec r m w t w1 Hm Hr Hw Eround) as (Hw1 & _ & Hstep).
  destruct (IH _ _ Hw1 Eloop) as (Hend & used & e & Ha & Hc & He). split; [done|].
  destruct (IoMultiplexer.woken _).
  - rewrite Hstep in Ha, Hc. destruct used as [|a used].
    + exists [], (env w). simpl in *. split_and!; [done|done|]. right. injection Hc as <-.
      destruct He as [->| ->]; [done|]. apply stop_env_stopped. by destruct (stop_ready w Hw).
    + simpl in Hc. destruct (stop_ready w Hw) as [_ Hst]. simpl in Hst. by rewrite Hst in Hc.
  - destruct Hstep as (u1 & Ha1 & Hc1). exists (u1 ++ used), e.
    rewrite Ha1, Ha, consume_app, Hc1, (assoc_L (++)). done.
Qed.

(** *** The blocking loop *)

Lemma run_once_one a e e0 :
  TcpServer.running_ (server e) = true → handler_ e = Some h →
  with_log Logger.initial e0 = with_log Logger.initial e →
  ∃ e1, AcceptLoop.run_once a (AcceptLoop.mk e0 []) = AcceptLoop.mk e1 [] ∧
    with_log Logger.initial e1 = with_log Logger.initial (accept_one AcceptLoop.peer_address a e).
Proof.
  intros Hr Hh He. destruct e0 as [s0 h0 x0 g0 l0], e as [s1 h1 x1 g1 l1]. simpl in *. simplify_eq.
  unfold AcceptLoop.run_once, accept_one, new_session. simpl. rewrite Hr. simpl.
  destruct (client_fd a <? 0)%Z.
  - eexists. split; [done|]. by destruct (stopped a); simpl; case_match.
  - destruct (stopped a); simpl; eexists; (split; [done|]); done.
Qed.

Lemma run_consume used rest e e0 e1 :
  handler_ e = Some h → consume AcceptLoop.peer_address used e = Some e1 →
  with_log Logger.initial e0 = with_log Logger.initial e →
  ∃ e1', AcceptLoop.run_until_stopped (used ++ rest) (AcceptLoop.mk e0 []) =
      AcceptLoop.run_until_stopped rest (AcceptLoop.mk e1' []) ∧
    with_log Logger.initial e1' = with_log Logger.initial e1.
Proof.
  revert e e0. induction used as [|a used IH]; intros e e0 Hh Hc He; simpl in Hc.
  { injection Hc as <-. exists e0. by split. }
  destruct (TcpServer.running_ (server e)) eqn:Er; [|done].
  destruct (run_once_one a e e0 Er Hh He) as (e2 & Hone & He2).
  destruct (IH (accept_one AcceptLoop.peer_address a e) e2) as (e3 & Hrun & He3); [by rewrite accept_one_handler|done|done|].
  exists e3. split; [|done]. rewrite <-Hrun. simpl.
  assert (server e0 = server e) as -> by (by injection He). rewrite Er. simpl. by rewrite Hone.
Qed.

(** How the peers are named changes neither the server nor the numbers. *)
Lemma consume_named p q used e e' e1 :
  server e = server e' → g_session_counter e = g_session_counter e' → consume p used e = Some e1 →
  ∃ e1', consume q used e' = Some e1' ∧ server e1 = server e1' ∧ g_session_counter e1 = g_session_counter e1'.
Proof.
  revert e e'. induction used as [|a used IH]; intros e e' Hs Hg; simpl; [intros [= <-]; by exists e'|].
  rewrite <-Hs. destruct (TcpServer.running_ _); [|done]. apply IH.
  - unfold accept_one, new_session. simpl. by destruct (stopped a), (client_fd a <? 0)%Z; simpl; rewrite ?Hs.
  - unfold accept_one, new_session. simpl. by destruct (stopped a), (client_fd a <? 0)%Z; simpl; rewrite ?Hg.
Qed.

End Agreement.

(** A call of [accept] that fails because the server has been stopped. *)
Definition interrupted : Accepted := mkAccepted (-1) "" 0 None 0 [] [] true.

(** [getpeername] reports the address that [accept] reported. *)
Definition same_peer (a : Accepted) : Prop := peername a = Some (client_addr a, client_port a).

(** Two sessions for one connection, under the number but perhaps not the name. *)
Definition same_connection (s s' : ClientSession.t) : Prop :=
  s' = ClientSession.mk (ClientSession.fd_ s) (ClientSession.peer_addr_ s') (ClientSession.id_ s) (ClientSession.alive_ s)
    (ClientSession.input s) (ClientSession.writes s) (ClientSession.output s) (ClientSession.flags_set s) (ClientSession.closed s).

Lemma sessions_same_connection p q g used : Forall2 same_connection (sessions_of p g used) (sessions_of q g used).
Proof.
  revert g. induction used as [|a used IH]; intros g; simpl; [constructor|].
  destruct (client_fd a <? 0)%Z; [done|]. by constructor.
Qed.

Lemma sessions_same_peer g used :
  Forall same_peer used → sessions_of accept_address g used = sessions_of AcceptLoop.peer_address g used.
Proof.
  intros Hf. revert g. induction Hf as [|a used Ha _ IH]; intros g; simpl; [done|].
  assert (AcceptLoop.peer_address a = accept_address a) as -> by (unfold AcceptLoop.peer_address; by rewrite Ha).
  destruct (client_fd a <? 0)%Z; [done|]. by rewrite IH.
Qed.

(** C24: the two accept loops hand over the same connections.  Whatever descriptors the
    kernel reports, call by call, to the readiness loop that the server uses, when that
    loop has ended, the blocking loop run on the answers of [accept] that it consumed
    (and then interrupted) has called the handler as often and in the same order, with
    sessions that agree in their descriptors, numbers and everything else but the
    name of the peer: one loop names it after the answer of [accept], the other after
    [getpeername], or [unknown] when that fails.  Where [getpeername] gives the
    addresses that [accept] gave, the sessions are equal. *)
Theorem accept_loops_agree {H} (h : ClientSession.t → H → H) (e : Env H) answers epoll_ctl calls m ms w' :
  handler_ e = Some h → listens (server e) → Forall reports calls →
  AsyncAcceptLoop.run_until_stopped epoll_ctl calls m (AsyncAcceptLoop.mkWorld e answers) = Some (ms, w') →
  ∃ used l', answers = used ++ AsyncAcceptLoop.answers w' ∧
    AcceptLoop.run_until_stopped (used ++ [interrupted]) (AcceptLoop.make e) = Some (l', []) ∧
    g_session_counter (AcceptLoop.env l') = g_session_counter (AsyncAcceptLoop.env w') ∧
    let sessions := sessions_of accept_address (g_session_counter e) used in
    let blocking := sessions_of AcceptLoop.peer_address (g_session_counter e) used in
    hstate (AsyncAcceptLoop.env w') = foldl (λ st s, h s st) (hstate e) sessions ∧
    hstate (AcceptLoop.env l') = foldl (λ st s, h s st) (hstate e) blocking ∧
    Forall2 same_connection sessions blocking ∧ (Forall same_peer used → sessions = blocking).
Proof.
  intros Hh Hl Hr Hrun. unfold AsyncAcceptLoop.run_until_stopped in Hrun.
  eapply (loop_spec h) in Hrun as (Hend & used & e1 & Ha & Hc & He); [|done|done|done]. simpl in Ha, Hc.
  destruct (consume_named h accept_address AcceptLoop.peer_address used e e e1 eq_refl eq_refl Hc) as (e1' & Hc' & Hs1 & Hg1).
  destruct (run_consume h used [interrupted] e e e1' Hh Hc' eq_refl) as (e2 & Hrun2 & He2).
  destruct (consume_hstate h accept_address used e e1 Hc) as [Hst _].
  destruct (consume_hstate h AcceptLoop.peer_address used e e1' Hc') as [Hst2 _].
  assert (hstate (AsyncAcceptLoop.env w') = hstate e1 ∧
    g_session_counter (AsyncAcceptLoop.env w') = g_session_counter e1) as [Hst' Hg'] by (by destruct He as [-> | ->]).
  injection He2 as Hs2 Hh2 Hx2 Hg2. cbv zeta.
  assert (∃ l', AcceptLoop.run_until_stopped [interrupted] (AcceptLoop.mk e2 []) = Some (l', []) ∧
    hstate (AcceptLoop.env l') = hstate e2 ∧ g_session_counter (AcceptLoop.env l') = g_session_counter e2) as (l' & Hl' & Hx & Hg).
  { cbn [AcceptLoop.run_until_stopped AcceptLoop.env]. destruct (TcpServer.running_ (server e2)) eqn:Er2; cbn [negb]; [|by eexists].
    unfold AcceptLoop.run_once. simpl. rewrite Er2. simpl.
    assert (TcpServer.running_ (TcpServer.stop (server e2)).1 = false) as Hst3.
    { unfold TcpServer.stop, TcpServer.close_listen. rewrite Er2. simpl. by case_match. }
    rewrite Hst3. simpl. rewrite Hst3. simpl. by eexists. }
  exists used, l'. unfold AcceptLoop.make. rewrite Hrun2.
  split_and!; [done|done|congruence|congruence|congruence|apply sessions_same_connection|apply sessions_same_peer].
Qed.

(** C25: stopping the server ends its accept loop, in time.  On a kernel whose
    [epoll_wait] keeps to its timeout, when a stop arrives while the loop waits, the
    loop returns at the end of that round without waiting again, whatever would have
    come later; no wait, the one in which the stop arrives included, has blocked for
    more than 250 milliseconds; and the server no longer listens. *)
Theorem stop_ends_accept_loop {H} (h : ClientSession.t → H → H) (w : AsyncAcceptLoop.World H)
    epoll_ctl before r after m :
  handler_ (AsyncAcceptLoop.env w) = Some h → listens (server (AsyncAcceptLoop.env w)) →
  Forall reports (before ++ [r]) → Forall IoMultiplexer.keeps_timeout (before ++ [r]) →
  (∀ timeout_ms, IoMultiplexer.woken (r timeout_ms) = true) →
  ∃ ms w', AsyncAcceptLoop.run_until_stopped epoll_ctl (before ++ r :: after) m w = Some (ms, w') ∧
    AsyncAcceptLoop.run_until_stopped epoll_ctl (before ++ [r]) m w = Some (ms, w') ∧
    length ms ≤ S (length before) ∧ Forall (λ t, 0 ≤ t ≤ 250)%Z ms ∧
    TcpServer.running_ (server (AsyncAcceptLoop.env w')) = false ∧
    (TcpServer.listen_fd_ (server (AsyncAcceptLoop.env w')) < 0)%Z.
Proof.
  intros Hh Hl Hf Ht Hwk. unfold AsyncAcceptLoop.run_until_stopped.
  set (m' := IoMultiplexer.set_readable_callback _ _).
  assert (IoMultiplexer.on_readable_ m' = Some AsyncAcceptLoop.callback) as Hm by done. clearbody m'.
  assert (ready_world h w) as Hw by done. clear Hh Hl.
  assert (∀ w, ready_world h w → TcpServer.running_ (server (AsyncAcceptLoop.env w)) = false →
    (TcpServer.listen_fd_ (server (AsyncAcceptLoop.env w)) < 0)%Z) as Hno.
  { intros w1 [Hl _] Hr1. unfold listens in Hl. by rewrite Hr1 in Hl. }
  revert w Hw. induction before as [|b before IH]; intros w Hw; cbn [app AsyncAcceptLoop.loop];
    (destruct (TcpServer.running_ (server (AsyncAcceptLoop.env w))) eqn:Er; cbn [negb];
      [|exists [], w; split_and!; simpl; auto with lia]).
  - apply Forall_cons in Hf as [Hf _], Ht as [Ht _]. destruct (Ht 250%Z) as (ms & Hb & Hms); [lia|].
    destruct (round_returns r m' w ms Hm Hb) as (w1 & Hrd).
    destruct (round_spec h r m' w ms w1 Hm Hf Hw Hrd) as (Hw1 & _ & Hst). rewrite (Hwk 250%Z) in Hst.
    assert (TcpServer.running_ (server (AsyncAcceptLoop.env w1)) = false) as Hr by (rewrite Hst; by destruct (stop_ready h w Hw)).
    rewrite Hrd. exists [ms], w1. destruct after; cbn [AsyncAcceptLoop.loop mbind option_bind]; rewrite Hr;
      (split_and!; simpl; auto using Forall_cons_2, Forall_nil_2 with lia).
  - apply Forall_cons in Hf as [Hfb Hf], Ht as [Htb Ht]. destruct (Htb 250%Z) as (ms & Hb & Hms); [lia|].
    destruct (round_returns b m' w ms Hm Hb) as (w1 & Hrd).
    destruct (round_spec h b m' w ms w1 Hm Hfb Hw Hrd) as (Hw1 & _).
    destruct (IH Hf Ht w1 Hw1) as (l & w' & H1 & H2 & Hlen & Hl & H3 & H4). rewrite Hrd.
    exists (ms :: l), w'. cbn [mbind option_bind]. rewrite H1, H2. split_and!; simpl; auto with lia.
Qed.

(** A session that has just been accepted. *)
Definition fresh_session (s : ClientSession.t) : Prop :=
  ClientSession.alive_ s = true ∧ (0 ≤ ClientSession.fd_ s)%Z ∧ ClientSession.closed s = [].

Lemma erase_fresh {H} (e : Env H) ss :
  Forall fresh_session ss → AcceptLoop.erase_closed (AcceptLoop.mk e ss) = AcceptLoop.mk e ss.
Proof.
  intros Hf. unfold AcceptLoop.erase_closed. simpl. f_equal. induction Hf as [|s ss [Ha _] _ IH]; [done|].
  by rewrite filter_cons, decide_True, IH.
Qed.

Lemma close_fresh ss :
  Forall fresh_session ss →
  concat (ClientSession.closed <$> (ClientSession.mark_closed <$> ss)) = ClientSession.fd_ <$> ss.
Proof.
  induction 1 as [|s ss (Ha & Hfd & Hc) _ IH]; [done|]. csimpl. rewrite IH.
  unfold ClientSession.mark_closed. rewrite Ha, Hc. simpl. by rewrite (proj2 (Z.leb_le _ _)).
Qed.

Lemma run_once_unhandled {H} (e : Env H) ss a :
  handler_ e = None → TcpServer.running_ (server e) = true → Forall fresh_session ss →
  ∃ e' ss', AcceptLoop.run_once a (AcceptLoop.mk e ss) = AcceptLoop.mk e' ss' ∧ handler_ e' = None ∧
    Forall fresh_session ss' ∧
    ClientSession.fd_ <$> ss' = (ClientSession.fd_ <$> ss) ++ (if (client_fd a <? 0)%Z then [] else [client_fd a]).
Proof.
  intros Hh Hr Hf. unfold AcceptLoop.run_once. simpl. rewrite Hr. simpl.
  destruct (Z.ltb_spec (client_fd a) 0) as [Hn|Hn].
  - eexists _, ss. split; [done|]. rewrite app_nil_r. split_and!; [|done|done].
    by destruct (stopped a); simpl; case_match.
  - assert (handler_ (if stopped a then stop_env e else e) = None) as Hh' by by destruct (stopped a).
    rewrite Hh'. eexists _, _. split; [done|]. split_and!; [simpl; by destruct (stopped a)| |].
    + apply Forall_app. split; [done|]. by apply Forall_singleton.
    + by rewrite fmap_app.
Qed.

(** Without a handler the blocking loop keeps the sessions it accepts, and when it
    ends it closes the descriptor of each of them exactly once. *)
Theorem unhandled_sessions_closed {H} answers (e : Env H) l' ended :
  handler_ e = None →
  AcceptLoop.run_until_stopped answers (AcceptLoop.make e) = Some (l', ended) →
  AcceptLoop.active_sessions l' = 0 ∧
  ∃ used rest, answers = used ++ rest ∧
    concat (ClientSession.closed <$> ended) = filter (λ fd, 0 ≤ fd)%Z (client_fd <$> used).
Proof.
  unfold AcceptLoop.make. intros Hh.
  assert (∀ ss, Forall fresh_session ss →
    AcceptLoop.run_until_stopped answers (AcceptLoop.mk e ss) = Some (l', ended) →
    AcceptLoop.active_sessions l' = 0 ∧
    ∃ used rest, answers = used ++ rest ∧
      concat (ClientSession.closed <$> ended) =
      (ClientSession.fd_ <$> ss) ++ filter (λ fd, 0 ≤ fd)%Z (client_fd <$> used)) as Hgen; [|by apply Hgen].
  revert e Hh. induction answers as [|a answers IH]; intros e Hh ss Hf; cbn [AcceptLoop.run_until_stopped AcceptLoop.env];
    destruct (TcpServer.running_ (server e)) eqn:Er; cbn [negb]; try done.
  - intros [= <- <-]. split; [done|]. exists [], []. split; [done|]. csimpl. rewrite app_nil_r. by apply close_fresh.
  - destruct (run_once_unhandled e ss a Hh Er Hf) as (e' & ss' & -> & Hh' & Hf' & Hfds).
    rewrite erase_fresh by done. intros Hrun. destruct (IH e' Hh' ss' Hf' Hrun) as (Hz & used & rest & -> & Hc).
    split; [done|]. exists (a :: used), rest. split; [done|]. rewrite Hc, Hfds, <-(assoc_L (++)). f_equal.
    csimpl. rewrite filter_cons. destruct (Z.ltb_spec (client_fd a) 0).
    + by rewrite decide_False by lia.
    + by rewrite decide_True.
  - intros [= <- <-]. split; [done|]. exists [], (a :: answers). split; [done|]. csimpl. rewrite app_nil_r. by apply close_fresh.
Qed.

(** ** A listener that accepts one connection and is interrupted *)

Definition demo_handler (s : ClientSession.t) (st : list (N * string)) : list (N * string) :=
  st ++ [(ClientSession.id_ s, ClientSession.peer_addr_ s)].

Definition demo_env : Env (list (N * string)) :=
  mkEnv (TcpServer.with_listen 3 true (TcpServer.make "0.0.0.0" 6379))
    (Some demo_handler) [] 1 Logger.initial.
Definition demo_accepted : Accepted :=
  mkAccepted 7 "10.0.0.1" (htons 5000) (Some ("10.0.0.1", htons 5000)) 2 [] [] false.
Definition demo_calls : list (Z → IoMultiplexer.Answer) :=
  [λ _, IoMultiplexer.mkAnswer (Some 0%Z) (Some [3%Z]) false;
   λ timeout_ms, IoMultiplexer.mkAnswer (if (timeout_ms <? 0)%Z then None else Some timeout_ms) (Some []) false;
   λ timeout_ms, IoMultiplexer.mkAnswer (Some (Z.min 7 (Z.max 0 timeout_ms))) None true].

Lemma demo_reports : Forall reports demo_calls.
Proof. unfold demo_calls. repeat constructor; simpl; lia. Qed.

Lemma demo_keeps_timeout : Forall IoMultiplexer.keeps_timeout demo_calls.
Proof.
  unfold demo_calls. repeat apply Forall_cons_2; [..|constructor]; intros t Ht; simpl.
  - exists 0%Z. split; [done|lia].
  - exists t. rewrite (proj2 (Z.ltb_ge _ _)) by done. split; [done|lia].
  - eexists. split; [done|lia].
Qed.

Lemma accept_loops_agree_witness :
  ∃ l', AcceptLoop.run_until_stopped [demo_accepted; interrupted] (AcceptLoop.make demo_env) = Some (l', []) ∧
    hstate (AcceptLoop.env l') = [(1%N, "10.0.0.1:5000")].
Proof.
  destruct (AsyncAcceptLoop.run_until_stopped 0 demo_calls (IoMultiplexer.make 4)
    (AsyncAcceptLoop.mkWorld demo_env [demo_accepted])) as [[ms w']|] eqn:E; [|discriminate E].
  destruct (accept_loops_agree demo_handler demo_env [demo_accepted] 0 demo_calls (IoMultiplexer.make 4) ms w')
    as (used & l' & Ha & Hl & _ & _ & Hs & _); [reflexivity|vm_compute; discriminate|apply demo_reports|exact E|].
  vm_compute in E. injection E as _ <-. simpl in Ha. rewrite app_nil_r in Ha. subst used.
  exists l'. split; [exact Hl|]. rewrite Hs. reflexivity.
Defined.

Lemma stop_ends_accept_loop_witness :
  ∃ ms w', AsyncAcceptLoop.run_until_stopped 0 demo_calls (IoMultiplexer.make 4)
      (AsyncAcceptLoop.mkWorld demo_env [demo_accepted]) = Some (ms, w') ∧
    Forall (λ t, 0 ≤ t ≤ 250)%Z ms ∧ TcpServer.running_ (server (AsyncAcceptLoop.env w')) = false.
Proof.
  destruct (stop_ends_accept_loop demo_handler (AsyncAcceptLoop.mkWorld demo_env [demo_accepted]) 0 (take 2 demo_calls)
    (λ timeout_ms, IoMultiplexer.mkAnswer (Some (Z.min 7 (Z.max 0 timeout_ms))) None true) [] (IoMultiplexer.make 4))
    as (ms & w' & Hw & _ & _ & Hms & Hr & _);
    [reflexivity|vm_compute; discriminate|apply demo_reports|apply demo_keeps_timeout|reflexivity|].
  exists ms, w'. split; [exact Hw|]. split; [exact Hms|exact Hr].
Defined.
