(* ===== verification/Schedulers.v ===== *)
(** * Background threads (src/ttl/scheduler.cpp, src/persistence/snapshot_scheduler.cpp)

    Both schedulers own one thread and a flag: [start] sets the flag and starts the
    thread unless the flag was set, [stop] clears the flag and joins the thread
    unless the flag was clear, and the thread runs a loop that reads the flag.
    What they share is proved once, against the interface [Program] of the
    loop that the thread runs; each scheduler is an instance. *)

From S2P Require Import Prelude CppStd Logger Memory Table Scanner Engine Clients Persistence.

(** ** The loop of a thread *)

(** A position in the loop, and one step of the thread given the value that the flag
    has when the step reads it.  [patience] bounds the steps a thread still makes
    when the flag is clear. *)
Class Program (Pc Sh : Type) := {
  entry : Pc;
  returned : Pc → bool;
  exec : bool → Pc → Sh → Pc * Sh;
  patience : Pc → nat
}.

Class ProgramLaws (Pc Sh : Type) `{!Program Pc Sh} : Prop := {
  entry_runs : returned entry = false;
  exec_runs pc sh : returned pc = false → returned (exec true pc sh).1 = false;
  exec_patience pc sh : returned pc = false → patience (exec false pc sh).1 < patience pc;
  returned_patience pc : patience pc = 0 → returned pc = true
}.

Module Scheduler.
Section Scheduler.
Context {Pc Sh : Type} `{ProgramLaws Pc Sh}.

(** The flag, the thread ([None] when [worker_] is not joinable), and whether the
    caller is inside [worker_.join()]. *)
Record t := mk { running_ : bool; worker_ : option Pc; joining : bool }.

Definition make : t := mk false None false.

(** [start]: [None] is [std::terminate], for a thread object that is overwritten
    while it is joinable. *)
Definition start (s : t) : option t :=
  if running_ s then Some s
  else
    match worker_ s with
    | None => Some (mk true (Some entry) (joining s))
    | Some _ => None
    end.

(** [stop] up to the join, and the return of the join. *)
Definition stop (s : t) : t :=
  if negb (running_ s) then s
  else mk false (worker_ s) (bool_decide (is_Some (worker_ s))).

Definition join_returns (s : t) : option t :=
  match worker_ s with
  | Some pc => if joining s && returned pc then Some (mk (running_ s) None false) else None
  | None => None
  end.

(** A step of the thread. *)
Definition worker_step (s : t) (sh : Sh) : option (t * Sh) :=
  match worker_ s with
  | Some pc =>
      if returned pc then None
      else let '(pc', sh') := exec (running_ s) pc sh in Some (mk (running_ s) (Some pc') (joining s), sh')
  | None => None
  end.

(** One caller uses the scheduler, the thread runs, and other threads change what
    it works on. *)
Inductive step : t * Sh → t * Sh → Prop :=
| step_start s s' sh : joining s = false → start s = Some s' → step (s, sh) (s', sh)
| step_stop s sh : joining s = false → step (s, sh) (stop s, sh)
| step_join s s' sh : join_returns s = Some s' → step (s, sh) (s', sh)
| step_worker s sh s' sh' : worker_step s sh = Some (s', sh') → step (s, sh) (s', sh')
| step_other s sh sh' : step (s, sh) (s, sh').

(** There is a thread exactly while the flag is set or a join is pending, and it
    has not returned while the flag is set. *)
Definition inv (s : t) : Prop :=
  match worker_ s with
  | None => running_ s = false ∧ joining s = false
  | Some pc => joining s = negb (running_ s) ∧ (running_ s = true → returned pc = false)
  end.

Lemma make_idle : inv make.
Proof. done. Qed.

Lemma start_inv s : inv s → joining s = false → ∃ s', start s = Some s' ∧ inv s' ∧ running_ s' = true.
Proof.
  intros Hs Hj. unfold start. destruct (running_ s) eqn:Er; [eauto|]. unfold inv in Hs. rewrite Er in Hs.
  destruct (worker_ s) as [pc|] eqn:Ew; [by rewrite Hj in Hs; destruct Hs|].
  eexists. split; [done|]. simpl. unfold inv. simpl. rewrite Hj. auto using entry_runs.
Qed.

Lemma stop_inv s : inv s → inv (stop s) ∧ running_ (stop s) = false.
Proof.
  unfold inv, stop. intros Hs. destruct (running_ s) eqn:Er; simpl; [|by rewrite Er].
  destruct (worker_ s) as [pc|] eqn:Ew; simpl; [|by destruct Hs]. done.
Qed.

Lemma join_returns_inv s s' : inv s → join_returns s = Some s' → s' = make ∧ ∃ pc, worker_ s = Some pc ∧ returned pc = true.
Proof.
  unfold inv, join_returns. intros Hs. destruct (worker_ s) as [pc|] eqn:Ew; [|done].
  destruct (joining s) eqn:Ej; [|done]. destruct (returned pc) eqn:Ep; [|done]. intros [= <-].
  destruct Hs as [Hr _]. destruct (running_ s); [done|]. eauto.
Qed.

Lemma loop_step_inv s sh s' sh' : inv s → worker_step s sh = Some (s', sh') → inv s' ∧ running_ s' = running_ s.
Proof.
  unfold inv, worker_step. intros Hs. destruct (worker_ s) as [pc|] eqn:Ew; [|done].
  destruct (returned pc) eqn:Ep; [done|]. destruct (exec (running_ s) pc sh) as [pc' sh1] eqn:Ee.
  intros [= <- <-]. simpl. split; [|done]. destruct Hs as [-> _]. split; [done|]. intros Hr. rewrite Hr in Ee.
  pose proof (exec_runs pc sh Ep) as Hx. by rewrite Ee in Hx.
Qed.

Lemma scheduler_step_inv x y : inv x.1 → step x y → inv y.1.
Proof.
  intros Hx Hs. destruct Hs as [s s' sh Hj Hst|s sh _|s s' sh Hj|s sh s' sh' Hw|s sh sh']; simpl in *.
  - destruct (start_inv s Hx Hj) as (s1 & E & Hi & _). by simplify_eq.
  - by apply stop_inv.
  - apply join_returns_inv in Hj as [-> _]; [apply make_idle|done].
  - by eapply loop_step_inv.
  - done.
Qed.

Lemma reachable_idle sh x : rtc step (make, sh) x → inv x.1.
Proof.
  intros Hr. assert (inv (make, sh).1) as H0 by apply make_idle. revert H0.
  induction Hr as [|x1 x2 x3 Hs _ IH]; [done|]. intros H1. apply IH. by eapply scheduler_step_inv.
Qed.

(** ** Stopping *)

(** The thread runs while other threads interfere: before each of its steps, the
    state it works on is changed by the next of the given functions. *)
Fixpoint run_worker (interference : list (Sh → Sh)) (s : t) (sh : Sh) : t * Sh :=
  match interference with
  | [] => (s, sh)
  | f :: rest =>
      match worker_step s (f sh) with
      | Some (s', sh') => run_worker rest s' sh'
      | None => run_worker rest s (f sh)
      end
  end.

Lemma run_worker_returns interference s sh pc :
  running_ s = false → worker_ s = Some pc → patience pc ≤ length interference →
  ∃ pc' sh', run_worker interference s sh = (mk false (Some pc') (joining s), sh') ∧ returned pc' = true.
Proof.
  revert s sh pc. induction interference as [|f rest IH]; intros s sh pc Hr Hw Hp; simpl in *.
  - exists pc, sh. split; [destruct s; simpl in *; by subst|]. apply returned_patience. lia.
  - unfold worker_step. rewrite Hw, Hr. destruct (returned pc) eqn:Ep.
    + destruct s as [r w j]. simpl in *. subst. clear IH Hp.
      assert (run_worker rest (mk false (Some pc) j) (f sh) = (mk false (Some pc) j, foldl (λ sh f, f sh) (f sh) rest)) as Hrest.
      { generalize (f sh). induction rest as [|g rest IH]; intros sh1; simpl; [done|].
        unfold worker_step. simpl. rewrite Ep. apply IH. }
      rewrite Hrest. eauto.
    + pose proof (exec_patience pc (f sh) Ep) as Hlt. destruct (exec false pc (f sh)) as [pc' sh1]. simpl in Hlt.
      destruct (IH (mk false (Some pc') (joining s)) sh1 pc') as (pc2 & sh2 & Hrun & Hret); [done|done|lia|].
      exists pc2, sh2. split; [exact Hrun|exact Hret].
Qed.

(** C26: a scheduler has one thread and can always be stopped: in every reachable
    state the thread exists exactly while the scheduler is running or being
    joined, so starting never overwrites a live thread; and from every state in
    which [stop] is called on a running scheduler, whatever the other threads do,
    the thread returns after a bounded number of its own steps, the join returns,
    and the scheduler is as it was before it was started, ready to start again. *)
Theorem scheduler_stops sh0 s sh interference :
  rtc step (make, sh0) (s, sh) →
  (∀ pc, worker_ s = Some pc → patience pc ≤ length interference) →
  (joining s = false → is_Some (start s)) ∧
  (running_ s = true →
    let '(s', sh') := run_worker interference (stop s) sh in join_returns s' = Some make).
Proof.
  intros Hr Hp. pose proof (reachable_idle sh0 (s, sh) Hr) as Hi. simpl in Hi. split.
  - intros Hj. destruct (start_inv s Hi Hj) as (s' & -> & _). eauto.
  - intros Hrun. destruct (stop_inv s Hi) as [His Hst]. unfold inv in Hi.
    destruct (worker_ s) as [pc|] eqn:Ew; [|destruct Hi; congruence].
    assert (stop s = mk false (Some pc) true) as Hstop by (unfold stop; by rewrite Hrun, Ew).
    rewrite Hstop.
    destruct (run_worker_returns interference (mk false (Some pc) true) sh pc) as (pc' & sh' & -> & Hret);
      [done|done|by apply Hp|]. unfold join_returns. simpl. by rewrite Hret.
Qed.

End Scheduler.
Arguments t : clear implicits.
End Scheduler.

(** ** What the threads work on *)

(** What a thread has done: a snapshot written with the given pairs, a failed
    attempt, a sweep, a sleep (of a second, or of the sweep interval). *)
Inductive Event :=
| Wrote (pairs : list (string * string))
| WriteFailed
| Swept
| Slept.

(** The storage, the file system and what it permits, the error stream, the
    readings of the clock during the next sweep, how the next snapshot's output fails,
    if it does, and the history. *)
Record Shared (S : Type) := mkShared {
  sh_storage : S;
  sh_disk : Disk;
  sh_io : Io;
  sh_log : Logger.t;
  sh_clock : nat → time_point;
  sh_failure : option (nat * bool);
  sh_events : list Event
}.
Arguments mkShared {S}.
Arguments sh_storage {S}.
Arguments sh_disk {S}.
Arguments sh_io {S}.
Arguments sh_log {S}.
Arguments sh_clock {S}.
Arguments sh_failure {S}.
Arguments sh_events {S}.

Definition happened {S} (e : Event) (sh : Shared S) : Shared S :=
  mkShared (sh_storage sh) (sh_disk sh) (sh_io sh) (sh_log sh) (sh_clock sh) (sh_failure sh) (sh_events sh ++ [e]).
Definition logged {S} (f : Logger.t → Logger.t) (sh : Shared S) : Shared S :=
  mkShared (sh_storage sh) (sh_disk sh) (sh_io sh) (f (sh_log sh)) (sh_clock sh) (sh_failure sh) (sh_events sh).
Definition change_storage {S} (f : S → S) (sh : Shared S) : Shared S :=
  mkShared (f (sh_storage sh)) (sh_disk sh) (sh_io sh) (sh_log sh) (sh_clock sh) (sh_failure sh) (sh_events sh).
Definition with_disk_of {S} (d : Disk) (sh : Shared S) : Shared S :=
  mkShared (sh_storage sh) d (sh_io sh) (sh_log sh) (sh_clock sh) (sh_failure sh) (sh_events sh).

Module SnapshotScheduler.
Section Snapshots.
Context {S : Type} `{StorageLaws S}.
(** [interval_sec_], and [latest_path()] of the writer. *)
Variables (interval_sec : N) (latest_path : string).

(** The condition of the [while] loop, the call of [write] and the branches after
    it, the condition of the [for] loop with its counter, the end. *)
Inductive Pc :=
| Test
| Write
| Sleep (i : N)
| Returned.

(** [if (writer_.write(storage_)) ... else ...]. *)
Definition write_snapshot (sh : Shared S) : Shared S :=
  let '(d, ok) := snapshot_attempt (sh_failure sh) (sh_io sh) latest_path (sh_storage sh) (sh_disk sh) in
  if ok : bool then
    logged (Logger.log_info ("snapshot written to " +:+ latest_path))
      (happened (Wrote (st_dump (sh_storage sh))) (with_disk_of d sh))
  else
    logged (Logger.log_warn "snapshot write failed") (happened WriteFailed (with_disk_of d sh)).

(** [loop], one step. *)
Definition loop_step (running : bool) (pc : Pc) (sh : Shared S) : Pc * Shared S :=
  match pc with
  | Test => (if running then Write else Returned, sh)
  | Write => (Sleep 0, write_snapshot sh)
  | Sleep i => if (i <? interval_sec)%N && running then (Sleep (i + 1), happened Slept sh) else (Test, sh)
  | Returned => (Returned, sh)
  end.

#[global] Instance program : Program Pc (Shared S) := {|
  entry := Test;
  returned pc := match pc with Returned => true | _ => false end;
  exec := loop_step;
  patience pc := match pc with Returned => 0 | Test => 1 | Sleep _ => 2 | Write => 3 end
|}.

#[global] Instance program_laws : ProgramLaws Pc (Shared S).
Proof.
  split; [done|..].
  - intros [| |i|] sh; try done. simpl. by destruct (_ && _).
  - intros [| |i|] sh; try done; simpl; rewrite ?andb_false_r; simpl; lia.
  - by intros [].
Qed.

Definition kind_write (e : Event) : bool := match e with Wrote _ | WriteFailed => true | _ => false end.

(** Other threads leave the history of this one alone. *)
Definition keeps_events (f : Shared S → Shared S) : Prop := ∀ sh, sh_events (f sh) = sh_events sh.

(** A running scheduler whose thread is at the given place. *)
Definition at_pc (pc : Pc) : Scheduler.t Pc := Scheduler.mk true (Some pc) false.

Lemma run_cons f fs pc sh :
  pc ≠ Returned →
  Scheduler.run_worker (f :: fs) (at_pc pc) sh =
  let '(pc', sh') := loop_step true pc (f sh) in Scheduler.run_worker fs (at_pc pc') sh'.
Proof.
  intros Hpc. cbn [Scheduler.run_worker]. unfold Scheduler.worker_step. simpl.
  destruct pc; try done; by destruct (loop_step _ _ _).
Qed.

Lemma run_app fs gs (s : Scheduler.t Pc) (sh : Shared S) :
  Scheduler.run_worker (fs ++ gs) s sh =
  let '(s', sh') := Scheduler.run_worker fs s sh in Scheduler.run_worker gs s' sh'.
Proof.
  revert s sh. induction fs as [|f fs IH]; intros s sh; [done|]. cbn [app Scheduler.run_worker].
  destruct (Scheduler.worker_step s (f sh)) as [[s' sh']|]; apply IH.
Qed.

Lemma write_events sh : ∃ e, kind_write e = true ∧ sh_events (write_snapshot sh) = sh_events sh ++ [e].
Proof. unfold write_snapshot. destruct (snapshot_attempt _ _ _ _ _) as [d []]; simpl; eexists; (split; [|done]); done. Qed.

Lemma sleeps fs i sh :
  Forall keeps_events fs → (i + N.of_nat (length fs) ≤ interval_sec)%N →
  ∃ sh', Scheduler.run_worker fs (at_pc (Sleep i)) sh = (at_pc (Sleep (i + N.of_nat (length fs))), sh') ∧
    sh_events sh' = sh_events sh ++ replicate (length fs) Slept.
Proof.
  intros Hf. revert i sh. induction Hf as [|f fs Hk _ IH]; intros i sh Hi; simpl length in *.
  - exists sh. simpl. by rewrite app_nil_r, N.add_0_r.
  - rewrite run_cons by done. cbn [loop_step]. rewrite (proj2 (N.ltb_lt i interval_sec)) by lia. cbn [andb].
    destruct (IH (i + 1)%N (happened Slept (f sh))) as (sh' & Hr & He); [lia|]. exists sh'. rewrite Hr.
    replace (i + 1 + N.of_nat (length fs))%N with (i + N.of_nat (Datatypes.S (length fs)))%N by lia.
    split; [done|]. rewrite He. simpl. by rewrite Hk, <-(assoc_L (++)).
Qed.

(** The steps of one turn of the outer loop. *)
Definition turn : nat := N.to_nat interval_sec + 3.

Lemma one_turn fs sh :
  Forall keeps_events fs → length fs = turn →
  ∃ sh' e, Scheduler.run_worker fs (at_pc Test) sh = (at_pc Test, sh') ∧ kind_write e = true ∧
    sh_events sh' = sh_events sh ++ e :: replicate (N.to_nat interval_sec) Slept.
Proof.
  unfold turn. intros Hf Hl. destruct fs as [|f1 [|f2 fs]]; simpl in Hl; [lia..|].
  rewrite !Forall_cons in Hf. destruct Hf as (Hf1 & Hf2 & Hf).
  rewrite !run_cons by done. cbn [loop_step]. rewrite run_cons by done. cbn [loop_step].
  destruct (write_events (f2 (f1 sh))) as (e & He & Hev).
  rewrite <-(take_drop (N.to_nat interval_sec) fs), run_app.
  destruct (sleeps (take (N.to_nat interval_sec) fs) 0 (write_snapshot (f2 (f1 sh)))) as (sh1 & -> & Hev1);
    [by apply Forall_take|rewrite length_take; lia|].
  assert (length (take (N.to_nat interval_sec) fs) = N.to_nat interval_sec) as Hlen by (rewrite length_take; lia).
  rewrite Hlen in *.
  destruct (drop (N.to_nat interval_sec) fs) as [|g [|]] eqn:Ed;
    apply (f_equal length) in Ed as Ed'; rewrite length_drop in Ed'; simpl in Ed'; [lia| |lia].
  rewrite run_cons by done. cbn [loop_step]. rewrite (proj2 (N.ltb_ge _ _)) by lia. cbn [andb Scheduler.run_worker].
  exists (g sh1), e. split_and!; [done|done|].
  assert (keeps_events g) as Hg.
  { rewrite <-(take_drop (N.to_nat interval_sec) fs), Ed, Forall_app, Forall_singleton in Hf. apply Hf. }
  by rewrite Hg, Hev1, Hev, Hf2, Hf1, <-(assoc_L (++)).
Qed.

(** Snapshots come at the configured interval: while the scheduler runs,
    whatever other threads do to the storage and the disk, every [interval_sec + 3]
    steps of its thread are one attempt to write a snapshot followed by exactly
    [interval_sec] sleeps of one second; in particular, with an interval of zero
    the thread never sleeps and writes one snapshot after the other. *)
Theorem snapshots_every_interval k fs sh :
  Forall keeps_events fs → length fs = k * turn →
  ∃ sh' es, Scheduler.run_worker fs (at_pc Test) sh = (at_pc Test, sh') ∧
    length es = k ∧ Forall (λ e, kind_write e = true) es ∧
    sh_events sh' = sh_events sh ++ concat ((λ e, e :: replicate (N.to_nat interval_sec) Slept) <$> es).
Proof.
  revert fs sh. induction k as [|k IH]; intros fs sh Hf Hl.
  - destruct fs; [|done]. exists sh, []. csimpl. by rewrite app_nil_r.
  - rewrite <-(take_drop turn fs) in *. apply Forall_app in Hf as [Hf1 Hf2].
    rewrite length_app in Hl. assert (turn ≤ length fs) as Hle.
    { rewrite length_take, length_drop in Hl. unfold turn in *. lia. }
    assert (length (take turn fs) = turn) as Ht by (rewrite length_take; lia).
    rewrite run_app. destruct (one_turn _ sh Hf1 Ht) as (sh1 & e & -> & He & Hev1).
    destruct (IH (drop turn fs) sh1 Hf2) as (sh2 & es & -> & Hlen & Hes & Hev2); [lia|].
    exists sh2, (e :: es). split_and!; [done|simpl; lia|by constructor|].
    rewrite Hev2, Hev1. csimpl. by rewrite <-(assoc_L (++)).
Qed.

(** Once its flag is clear, the thread writes at most the snapshot it is about to
    write, and does not sleep again. *)
Theorem stopped_writes_at_most_once fs pc joining sh s' sh' :
  Forall keeps_events fs →
  Scheduler.run_worker fs (Scheduler.mk false (Some pc) joining) sh = (s', sh') →
  ∃ es, sh_events sh' = sh_events sh ++ es ∧ Forall (λ e, kind_write e = true) es ∧
    length es ≤ match pc with Write => 1 | _ => 0 end.
Proof.
  intros Hf. revert pc sh. induction Hf as [|f fs Hk _ IH]; intros pc sh; cbn [Scheduler.run_worker].
  - intros [= <- <-]. exists []. rewrite app_nil_r. split_and!; [done|constructor|simpl; lia].
  - unfold Scheduler.worker_step. simpl. destruct pc as [| |i|]; simpl; rewrite ?andb_false_r; intros Hr;
      apply IH in Hr as (es & He & Hw & Hl); rewrite ?Hk in He; try (by exists es).
    destruct (write_events (f sh)) as (e & Hke & Hev). exists (e :: es).
    rewrite He, Hev, Hk, <-(assoc_L (++)). split_and!; [done|by constructor|simpl; lia].
Qed.

End Snapshots.
End SnapshotScheduler.

Module ExpirationScheduler.
Section Sweeper.
Context {S : Type} `{StorageLaws S}.

(** The places of [loop]: the condition, the two readings of [entry_count] around
    [purge_expired] (with the local variable they need), the sleep, the end. *)
Inductive Pc :=
| Test
| Before
| Purge (before : nat)
| After (before : nat)
| Sleep
| Returned.

(** [std::to_string(before - after)] on [std::size_t]. *)
Definition removed_text (before after : nat) : string :=
  "ttl sweep removed " +:+ to_string (wrap 64 (Z.of_nat before - Z.of_nat after)) +:+ " keys".

Definition loop_step (running : bool) (pc : Pc) (sh : Shared S) : Pc * Shared S :=
  match pc with
  | Test => (if running then Before else Returned, sh)
  | Before => (Purge (st_count (sh_storage sh)), sh)
  | Purge before => (After before, happened Swept (change_storage (st_purge (sh_clock sh)) sh))
  | After before =>
      let after := st_count (sh_storage sh) in
      (Sleep, if decide (before = after) then sh else logged (Logger.log_info (removed_text before after)) sh)
  | Sleep => (Test, happened Slept sh)
  | Returned => (Returned, sh)
  end.

#[global] Instance program : Program Pc (Shared S) := {|
  entry := Test;
  returned pc := match pc with Returned => true | _ => false end;
  exec := loop_step;
  patience pc :=
    match pc with Returned => 0 | Test => 1 | Sleep => 2 | After _ => 3 | Purge _ => 4 | Before => 5 end
|}.

(** The constructor, [start] and [stop] (up to its join). *)
Definition make : Scheduler.t Pc := Scheduler.make.
Definition start (s : Scheduler.t Pc) : option (Scheduler.t Pc) := Scheduler.start s.
Definition stop (s : Scheduler.t Pc) : Scheduler.t Pc := Scheduler.stop s.

#[global] Instance program_laws : ProgramLaws Pc (Shared S).
Proof. split; [done|by intros []|intros [] sh; simpl; intros; try done; lia|by intros []]. Qed.

Definition at_pc (pc : Pc) : Scheduler.t Pc := Scheduler.mk true (Some pc) false.

(** Left alone, a turn of the loop is one [sweep_iteration], logged as it says. *)
Theorem undisturbed_sweep sh s' removed :
  st_ok (sh_storage sh) → (Z.of_nat (st_count (sh_storage sh)) < 2 ^ 64)%Z →
  sweep_iteration (sh_clock sh) (sh_storage sh) = (s', removed) →
  ∃ sh', Scheduler.run_worker (replicate 5 id) (at_pc Test) sh = (at_pc Test, sh') ∧
    sh_storage sh' = s' ∧
    sh_log sh' = match removed with
                 | None => sh_log sh
                 | Some n => Logger.log_info ("ttl sweep removed " +:+ to_string (Z.of_nat n) +:+ " keys") (sh_log sh)
                 end.
Proof.
  intros Hok Hc. unfold sweep_iteration. intros [= <- <-].
  pose proof (purge_subset (sh_clock sh) (sh_storage sh) Hok) as Hsub.
  pose proof (map_subseteq_size _ _ Hsub) as Hle.
  rewrite <-!count_view in Hle by eauto with volt.
  eexists. split; [done|]. cbn [sh_storage sh_log happened logged change_storage].
  destruct (decide (_ = _)) as [Heq|Hne]; [by split|]. split; [done|]. cbn. unfold removed_text.
  do 4 f_equal. unfold wrap. rewrite Z.mod_small by lia. by rewrite Nat2Z.inj_sub.
Qed.

(** A sweep can report nonsense: the two counts are taken without a lock, so
    when another thread stores a new key between the first count and the sweep
    and nothing has expired, the unsigned difference wraps and the log claims that
    18446744073709551615 keys were removed, while none was. *)
Theorem sweep_count_wraps sh k v :
  st_ok (sh_storage sh) → st_view (sh_storage sh) !! k = None →
  map_Forall (λ _ e, expires_at e = None) (st_view (sh_storage sh)) →
  Logger.g_level (sh_log sh) = Logger.Info →
  ∃ sh', Scheduler.run_worker [id; id; change_storage (λ s, (st_set k v s).1); id; id] (at_pc Test) sh = (at_pc Test, sh') ∧
    st_view (sh_storage sh') = <[k := mkEntry v None]> (st_view (sh_storage sh)) ∧
    Logger.cerr (sh_log sh') =
      Logger.cerr (sh_log sh) +:+ "[info] ttl sweep removed 18446744073709551615 keys" +:+ lf.
Proof.
  intros Hok Hk Hf Hl.
  set (s1 := (st_set k v (sh_storage sh)).1). set (s2 := st_purge (sh_clock sh) s1).
  assert (st_ok s1) as Hok1 by (by apply set_ok).
  assert (st_view s1 = <[k := mkEntry v None]> (st_view (sh_storage sh))) as Hv1 by (by apply set_view).
  assert (st_view s2 = st_view s1) as Hv2.
  { apply map_eq. intros i. destruct (st_view s1 !! i) as [e|] eqn:E.
    - apply purge_keeps; [done|done|]. intros j. unfold expired.
      rewrite Hv1 in E. apply lookup_insert_Some in E as [[_ <-]|[_ E]]; [done|]. by rewrite (Hf i e E).
    - destruct (st_view s2 !! i) as [e|] eqn:E2; [|done].
      pose proof (purge_subset (sh_clock sh) s1 Hok1) as Hsub.
      rewrite (lookup_weaken _ _ _ _ E2 Hsub) in E. done. }
  assert (st_count s2 = Datatypes.S (st_count (sh_storage sh))) as Hc.
  { rewrite !count_view by (unfold s2; eauto with volt). rewrite Hv2, Hv1. by apply map_size_insert_None. }
  eexists. split; [done|]. cbn [sh_storage sh_log happened logged change_storage]. unfold id. cbn.
  fold s1 s2. rewrite Hc. rewrite decide_False by lia. split.
  { change (st_view s2 = <[k := mkEntry v None]> (st_view (sh_storage sh))). by rewrite Hv2. }
  cbn [logged sh_log].
  unfold Logger.log_info. simpl. rewrite Hl. simpl. unfold removed_text.
  replace (wrap 64 _) with 18446744073709551615%Z; [done|].
  unfold wrap. replace (_ - _)%Z with (-1)%Z by lia. done.
Qed.

End Sweeper.
End ExpirationScheduler.

(** ** Witnesses: the schedulers over the engine *)

Section Witnesses.
#[local] Existing Instance HashTable.sum_hash.

Definition demo_shared : Shared StorageEngine.t :=
  mkShared StorageEngine.small ∅ all_io Logger.initial (λ _, 0%Z) None [].

#[local] Instance demo_program : Program SnapshotScheduler.Pc (Shared StorageEngine.t) :=
  SnapshotScheduler.program 300 "snapshot.vdb".

Lemma scheduler_stops_witness :
  ∃ sh, rtc Scheduler.step (Scheduler.make, demo_shared) (SnapshotScheduler.at_pc SnapshotScheduler.Write, sh) ∧
    Scheduler.join_returns (Scheduler.run_worker [id; id; id]
      (Scheduler.stop (SnapshotScheduler.at_pc SnapshotScheduler.Write)) sh).1 = Some Scheduler.make.
Proof.
  assert (rtc Scheduler.step (Scheduler.make, demo_shared)
    (SnapshotScheduler.at_pc SnapshotScheduler.Write, demo_shared)) as Hr.
  { eapply rtc_l; [apply Scheduler.step_start; reflexivity|].
    eapply rtc_l; [apply Scheduler.step_worker; reflexivity|]. constructor. }
  exists demo_shared. split; [exact Hr|].
  pose proof (SnapshotScheduler.program_laws 300 "snapshot.vdb" (S := StorageEngine.t)) as Hlaws.
  pose proof (Scheduler.scheduler_stops demo_shared _ demo_shared [id; id; id] Hr) as Hst.
  destruct Hst as [_ Hst]; [intros pc [= <-]; apply le_n|].
  specialize (Hst eq_refl). destruct (Scheduler.run_worker _ _ _) as [s' sh']. exact Hst.
Defined.

Lemma snapshots_every_interval_witness :
  ∃ sh' es, Scheduler.run_worker (replicate 8 id) (SnapshotScheduler.at_pc SnapshotScheduler.Test) demo_shared
      (Program0 := SnapshotScheduler.program 1 "snapshot.vdb") =
      (SnapshotScheduler.at_pc SnapshotScheduler.Test, sh') ∧
    length es = 2 ∧ sh_events sh' = concat ((λ e, [e; Slept]) <$> es).
Proof.
  destruct (SnapshotScheduler.snapshots_every_interval 1 "snapshot.vdb" 2 (replicate 8 id) demo_shared)
    as (sh' & es & Hr & Hl & _ & He); [repeat constructor|reflexivity|].
  exists sh', es. split; [exact Hr|]. split; [exact Hl|exact He].
Defined.

Lemma sweep_count_wraps_witness :
  ∃ sh', Scheduler.run_worker [id; id; change_storage (λ s, (st_set "k" "v" s).1); id; id]
      (ExpirationScheduler.at_pc ExpirationScheduler.Test) demo_shared = (ExpirationScheduler.at_pc ExpirationScheduler.Test, sh') ∧
    Logger.cerr (sh_log sh') = "[info] ttl sweep removed 18446744073709551615 keys" +:+ lf.
Proof.
  destruct (ExpirationScheduler.sweep_count_wraps demo_shared "k" "v") as (sh' & Hr & _ & Hl);
    [apply StorageEngine.small_ok|reflexivity|intros i e [=]|reflexivity|].
  exists sh'. split; [exact Hr|exact Hl].
Defined.

End Witnesses.
