(* ===== verification/Server.v ===== *)
(** * Threads, admission and the life of the server

    [ThreadPool] (src/concurrency/thread_pool.cpp) as a transition system of
    workers, [SessionWorker] (src/concurrency/session_worker.cpp), and the parts
    of [DatabaseServer] (src/server/database_server.cpp) that decide what is
    restored at start-up, what is written at shutdown and how connections are
    admitted. *)

From S2P Require Import Prelude CppStd Memory Table Scanner Engine Clients Wire Persistence Pubsub Admin Dispatcher Session.

Module ThreadPool.
Section Pool.
Context {Task : Type}.

(** A worker is about to test the condition of its wait, with the lock; asleep on the
    condition variable, the condition having been false; running a task; or it has
    returned. *)
Inductive Worker :=
| Waiting
| Asleep
| Running (task : Task)
| Exited.

#[global] Instance asleep_dec (w : Worker) : Decision (w = Asleep).
Proof. destruct w; [by right|by left|by right..]. Defined.
#[global] Instance exited_dec (w : Worker) : Decision (w = Exited).
Proof. destruct w; [by right..|by left]. Defined.

(** [accepted], [started] and [completed] record the history. *)
Record t := mk {
  tasks_ : list Task;
  stopping_ : bool;
  workers_ : list Worker;
  accepted : list Task;
  started : list Task;
  completed : list Task
}.

Definition make (worker_count : nat) : t :=
  mk [] false (replicate (if (worker_count =? 0)%nat then 1 else worker_count) Waiting) [] [] [].

(** [cv_.notify_one()]: one sleeping worker wakes, if there is one; which one is not
    specified: [choice], or the first when that one is not asleep. *)
Definition notify_one (choice : nat) (ws : list Worker) : list Worker :=
  match ws !! choice with
  | Some Asleep => <[choice := Waiting]> ws
  | _ =>
      match list_find (λ w, w = Asleep) ws with
      | Some (i, _) => <[i := Waiting]> ws
      | None => ws
      end
  end.

(** [cv_.notify_all()]. *)
Definition wake (w : Worker) : Worker := match w with Asleep => Waiting | _ => w end.
Definition notify_all (ws : list Worker) : list Worker := wake <$> ws.

Definition enqueue (choice : nat) (task : Task) (p : t) : t :=
  if stopping_ p then p
  else mk (tasks_ p ++ [task]) (stopping_ p) (notify_one choice (workers_ p)) (accepted p ++ [task]) (started p)
         (completed p).

(** [shutdown] up to the joins; [drained] is what the joins wait for. *)
Definition shutdown (p : t) : t :=
  if stopping_ p then p
  else mk (tasks_ p) true (notify_all (workers_ p)) (accepted p) (started p) (completed p).

Definition drained (p : t) : Prop := Forall (λ w, w = Exited) (workers_ p).

Definition pending (p : t) : nat := length (tasks_ p).

(** The condition of the wait. *)
Definition may_go_on (p : t) : bool := stopping_ p || negb (bool_decide (tasks_ p = [])).

(** One step of the [i]-th worker in [worker_loop]: under the lock, return or take
    the front task when the wait's condition holds; or finish the running task.  A
    worker that is asleep does not move. *)
Definition worker_step (i : nat) (p : t) : option t :=
  match workers_ p !! i with
  | Some Waiting =>
      if may_go_on p then
        match tasks_ p with
        | [] => Some (mk [] (stopping_ p) (<[i := Exited]> (workers_ p)) (accepted p) (started p)
                         (completed p))
        | task :: rest =>
            Some (mk rest (stopping_ p) (<[i := Running task]> (workers_ p)) (accepted p)
                     (started p ++ [task]) (completed p))
        end
      else None
  | Some (Running task) =>
      Some (mk (tasks_ p) (stopping_ p) (<[i := Waiting]> (workers_ p)) (accepted p) (started p)
               (completed p ++ [task]))
  | _ => None
  end.

(** The rest of [cv_.wait]: a worker that finds the condition false goes to sleep,
    releasing the lock in the same step; and it may wake without a notification. *)
Definition sleep_step (i : nat) (p : t) : option t :=
  match workers_ p !! i with
  | Some Waiting =>
      if may_go_on p then None
      else Some (mk (tasks_ p) (stopping_ p) (<[i := Asleep]> (workers_ p)) (accepted p) (started p) (completed p))
  | Some Asleep =>
      Some (mk (tasks_ p) (stopping_ p) (<[i := Waiting]> (workers_ p)) (accepted p) (started p) (completed p))
  | _ => None
  end.

Inductive step : t → t → Prop :=
| step_enqueue choice task p : step p (enqueue choice task p)
| step_shutdown p : step p (shutdown p)
| step_worker i p p' : worker_step i p = Some p' → step p p'
| step_sleep i p p' : sleep_step i p = Some p' → step p p'.

Definition running_of (w : Worker) : list Task :=
  match w with Running task => [task] | _ => [] end.
Definition running (p : t) : list Task := concat (running_of <$> workers_ p).

(** The number of workers that are awake and have no task. *)
Definition idle_of (w : Worker) : nat := match w with Waiting => 1 | _ => 0 end.
Definition idle (p : t) : nat := sum_list (idle_of <$> workers_ p).

(** Every accepted task is in the queue, with a worker, or done, exactly once; the
    queue is in order; a worker returns only when stopping with an empty queue, and
    none sleeps then; and while a worker sleeps, every queued task has a worker that
    is awake to take it. *)
Record inv (p : t) : Prop := {
  inv_fifo : accepted p = started p ++ tasks_ p;
  inv_once : started p ≡ₚ completed p ++ running p;
  inv_workers : workers_ p ≠ [];
  inv_exit : Exited ∈ workers_ p → stopping_ p = true ∧ tasks_ p = [];
  inv_awake : stopping_ p = true → Asleep ∉ workers_ p;
  inv_idle : Asleep ∈ workers_ p → length (tasks_ p) ≤ idle p
}.

Lemma running_insert ws i w w' :
  ws !! i = Some w →
  concat (running_of <$> <[i := w']> ws) ++ running_of w ≡ₚ
  concat (running_of <$> ws) ++ running_of w'.
Proof.
  intros Hi. rewrite list_fmap_insert. apply concat_insert_perm.
  by rewrite list_lookup_fmap, Hi.
Qed.

Lemma insert_nonempty (ws : list Worker) i w : ws ≠ [] → <[i := w]> ws ≠ [].
Proof. by destruct ws, i. Qed.

Lemma insert_elem (ws : list Worker) i w v : v ∈ <[i := w]> ws → v = w ∨ v ∈ ws.
Proof.
  intros [j Hj]%list_elem_of_lookup. apply list_lookup_insert_Some in Hj as [(_ & <- & _)|[_ Hj]]; [by left|].
  right. by eapply list_elem_of_lookup_2.
Qed.

(** What replacing a worker changes, where no task starts or ends. *)
Lemma running_same ws i w w' :
  ws !! i = Some w → running_of w = [] → running_of w' = [] →
  concat (running_of <$> <[i := w']> ws) ≡ₚ concat (running_of <$> ws).
Proof.
  intros Hi Hw Hw'. pose proof (running_insert ws i w w' Hi) as Hr. by rewrite Hw, Hw', !app_nil_r in Hr.
Qed.

(** Waking a worker: it is the only one that changes. *)
Lemma notify_one_spec choice ws :
  ((Asleep ∉ ws) ∧ notify_one choice ws = ws) ∨
  ∃ i, ws !! i = Some Asleep ∧ notify_one choice ws = <[i := Waiting]> ws.
Proof.
  assert (((Asleep ∉ ws) ∧ list_find (λ w, w = Asleep) ws = None) ∨
    ∃ i, ws !! i = Some Asleep ∧ list_find (λ w, w = Asleep) ws = Some (i, Asleep)) as Hf.
  { destruct (list_find _ ws) as [[i w]|] eqn:E.
    - apply list_find_Some in E as (Hi & -> & _). right. by exists i.
    - left. apply list_find_None in E. split; [|done]. rewrite Forall_forall in E. intros Hin. by apply (E _ Hin). }
  unfold notify_one. destruct (ws !! choice) as [[| |task|]|] eqn:Hc; [|by right; exists choice|..];
    (destruct Hf as [[Hn ->]|(i & Hi & ->)]; [by left|by right; exists i]).
Qed.

Lemma notify_all_spec ws :
  running_of <$> notify_all ws = running_of <$> ws ∧ (Asleep ∉ notify_all ws) ∧ (Exited ∈ notify_all ws → Exited ∈ ws) ∧
  (ws ≠ [] → notify_all ws ≠ []).
Proof.
  unfold notify_all. split_and!.
  - rewrite <-list_fmap_compose. apply list_fmap_ext. intros _ w _. by destruct w.
  - intros ([] & ? & ?)%list_elem_of_fmap; done.
  - intros ([] & ? & ?)%list_elem_of_fmap; done.
  - by destruct ws.
Qed.

Lemma make_inv n : inv (make n).
Proof.
  split; simpl; [done| |by destruct n|by intros [? _]%elem_of_replicate|done|by intros [? _]%elem_of_replicate].
  unfold running. simpl. set (k := if (n =? 0)%nat then 1 else n). by induction k.
Qed.

Lemma worker_step_inv i p p' : inv p → worker_step i p = Some p' → inv p'.
Proof.
  intros [Hf Ho Hw Hx Ha Hd]. unfold worker_step, may_go_on.
  destruct (workers_ p !! i) as [[| |task|]|] eqn:Hi; try done.
  - destruct (stopping_ p || _) eqn:Hc; [|done]. destruct (tasks_ p) as [|task rest] eqn:Ht; intros [= <-].
    + rewrite orb_false_r in Hc. split; simpl; [done| |by apply insert_nonempty|done| |lia].
      * unfold running. simpl. by rewrite (running_same _ i Waiting Exited Hi).
      * intros _ [?|?]%insert_elem; [done|by apply Ha].
    + split; simpl; [by rewrite Hf, <-(assoc_L (++))| |by apply insert_nonempty| | |].
      * pose proof (running_insert (workers_ p) i Waiting (Running task) Hi) as Hr.
        unfold running in *. simpl in *. rewrite app_nil_r in Hr. rewrite Hr, Ho. by rewrite (assoc_L (++)).
      * intros [?|?]%insert_elem; [done|]. by destruct Hx.
      * intros Hs [?|?]%insert_elem; [done|by apply Ha].
      * intros [?|Hin]%insert_elem; [done|]. specialize (Hd Hin). unfold idle in *. simpl in *.
        pose proof (sum_list_insert idle_of _ i Waiting (Running task) Hi). simpl in *. lia.
  - intros [= <-]. split; simpl; [done| |by apply insert_nonempty| | |].
    + pose proof (running_insert (workers_ p) i (Running task) Waiting Hi) as Hr.
      unfold running in *. simpl in *. rewrite app_nil_r in Hr. rewrite Ho, <-Hr.
      rewrite <-(assoc_L (++)). f_equiv. by rewrite (comm (++)).
    + intros [?|?]%insert_elem; [done|by apply Hx].
    + intros Hs [?|?]%insert_elem; [done|by apply Ha].
    + intros [?|Hin]%insert_elem; [done|]. specialize (Hd Hin). unfold idle in *. simpl in *.
      pose proof (sum_list_insert idle_of _ i (Running task) Waiting Hi). simpl in *. lia.
Qed.

Lemma sleep_step_inv i p p' : inv p → sleep_step i p = Some p' → inv p'.
Proof.
  intros [Hf Ho Hw Hx Ha Hd]. unfold sleep_step, may_go_on.
  destruct (workers_ p !! i) as [[| |task|]|] eqn:Hi; try done.
  - destruct (stopping_ p) eqn:Hs; simpl; [done|]. destruct (bool_decide_reflect (tasks_ p = [])) as [Ht|]; [|done].
    intros [= <-]. split; simpl; try done.
    + unfold running. simpl. by rewrite (running_same _ i Waiting Asleep Hi).
    + by apply insert_nonempty.
    + intros [?|?]%insert_elem; [done|by apply Hx].
    + intros _. rewrite Ht. simpl. lia.
  - intros [= <-]. split; simpl; [done| |by apply insert_nonempty| | |].
    + unfold running. simpl. by rewrite (running_same _ i Asleep Waiting Hi).
    + intros [?|?]%insert_elem; [done|by apply Hx].
    + intros Hs. by destruct (Ha Hs (list_elem_of_lookup_2 _ _ _ Hi)).
    + intros _. specialize (Hd (list_elem_of_lookup_2 _ _ _ Hi)). unfold idle in *. simpl in *.
      pose proof (sum_list_insert idle_of _ i Asleep Waiting Hi). simpl in *. lia.
Qed.

Lemma enqueue_inv choice task p : inv p → inv (enqueue choice task p).
Proof.
  intros Hp. unfold enqueue. destruct (stopping_ p) eqn:E; [done|]. destruct Hp as [Hf Ho Hw Hx Ha Hd].
  assert (Exited ∉ workers_ p) as Hne by (intros Hin; destruct (Hx Hin); congruence).
  destruct (notify_one_spec choice (workers_ p)) as [[Hn Hws]|(i & Hi & Hws)]; rewrite Hws;
    (split; simpl; [by rewrite Hf, (assoc_L (++))| | | |done|]); try done.
  - unfold running. simpl. by rewrite (running_same _ i Asleep Waiting Hi).
  - by apply insert_nonempty.
  - by intros [?|?]%insert_elem.
  - intros _. specialize (Hd (list_elem_of_lookup_2 _ _ _ Hi)). unfold idle in *. simpl. rewrite length_app. simpl.
    pose proof (sum_list_insert idle_of _ i Asleep Waiting Hi). simpl in *. lia.
Qed.

Lemma shutdown_inv p : inv p → inv (shutdown p).
Proof.
  intros Hp. unfold shutdown. destruct (stopping_ p) eqn:E; [done|]. destruct Hp as [Hf Ho Hw Hx Ha Hd].
  destruct (notify_all_spec (workers_ p)) as (Hr & Hs & He & Hn). split; simpl; try done; [|by auto|].
  - unfold running in *. simpl. by rewrite Hr.
  - intros Hin%He%Hx. destruct Hin. congruence.
Qed.

Lemma step_inv p p' : inv p → step p p' → inv p'.
Proof.
  intros Hp Hs. destruct Hs as [choice task p|p|i p p' Hs|i p p' Hs];
    [by apply enqueue_inv|by apply shutdown_inv|by eapply worker_step_inv|by eapply sleep_step_inv].
Qed.

Lemma reachable_inv n p : rtc step (make n) p → inv p.
Proof.
  intros Hr. remember (make n) as p0 eqn:E. assert (inv p0) as H0 by (subst; apply make_inv).
  clear E. induction Hr as [|p1 p2 p3 Hs _ IH]; [done|]. apply IH. by eapply step_inv.
Qed.

Lemma drained_complete p :
  inv p → drained p → tasks_ p = [] ∧ completed p ≡ₚ accepted p.
Proof.
  intros [Hf Ho Hw Hx _ _] Hd. unfold drained in Hd. destruct (workers_ p) as [|w ws] eqn:E; [done|].
  apply Forall_cons in Hd as [-> Hd]. destruct Hx as [_ Ht]; [by left|]. split; [done|].
  rewrite Hf, Ht, app_nil_r, Ho. unfold running. rewrite E. csimpl.
  assert (concat (running_of <$> ws) = []) as ->; [|by rewrite app_nil_r].
  clear -Hd. induction Hd as [|w ws -> _ IH]; [done|]. by csimpl.
Qed.

(** C20: the thread pool neither loses, duplicates nor reorders tasks: in every
    reachable state the accepted tasks are those started, in the order they were
    accepted, followed by the queue; the started ones are done or running, each
    once; and when the joins of [shutdown] return, every accepted task has run to
    its end. *)
Theorem pool_runs_every_task n p :
  rtc step (make n) p →
  accepted p = started p ++ tasks_ p ∧ started p ≡ₚ completed p ++ running p ∧
  (drained p → tasks_ p = [] ∧ completed p ≡ₚ accepted p).
Proof.
  intros Hr. pose proof (reachable_inv n p Hr) as Hi. split_and!; [apply Hi..|]. by apply drained_complete.
Qed.

(** ** No wake-up is lost *)

Lemma idle_waiting p : 0 < idle p → ∃ i, workers_ p !! i = Some Waiting.
Proof.
  unfold idle. induction (workers_ p) as [|w ws IH]; csimpl; [lia|]. intros Hlt.
  destruct w as [| |task|]; simpl in Hlt; [by exists 0|destruct (IH Hlt) as [i Hi]; by exists (S i)..].
Qed.

Lemma awake_can_move p i w :
  may_go_on p = true → workers_ p !! i = Some w → w ≠ Asleep → w ≠ Exited → ∃ p', worker_step i p = Some p'.
Proof.
  intros Hg Hi Ha Hx. unfold worker_step. rewrite Hi. destruct w; try done; [|eauto].
  rewrite Hg. destruct (tasks_ p); eauto.
Qed.

(** C14: no wake-up is lost: in every reachable state of the pool, however its workers
    fall asleep, are notified or wake on their own, a queued task has a worker that
    can move; while any worker sleeps there are at least as many awake workers
    without a task as there are queued tasks, so that none waits behind a running
    one for want of a notification; and after [shutdown] no worker is left asleep, so
    that one can move until all have returned. *)
Theorem no_wakeup_lost n p :
  rtc step (make n) p →
  (tasks_ p ≠ [] → ∃ i p', worker_step i p = Some p') ∧
  (Asleep ∈ workers_ p → length (tasks_ p) ≤ idle p) ∧
  (stopping_ p = true → (Asleep ∉ workers_ p) ∧ (drained p ∨ ∃ i p', worker_step i p = Some p')).
Proof.
  intros Hr. destruct (reachable_inv n p Hr) as [_ _ Hw Hx Ha Hd]. split_and!; [|done|].
  - intros Ht. assert (may_go_on p = true) as Hg
      by (unfold may_go_on; rewrite bool_decide_false by done; apply orb_true_r).
    assert (∃ i w, workers_ p !! i = Some w ∧ w ≠ Asleep ∧ w ≠ Exited) as (i & w & Hi & Hna & Hne);
      [|exists i; by eapply awake_can_move].
    destruct (notify_one_spec 0 (workers_ p)) as [[Hn _]|(j & Hj & _)]; cycle 1.
    + destruct (idle_waiting p) as [i Hi]; [|by exists i, Waiting]. specialize (Hd (list_elem_of_lookup_2 _ _ _ Hj)).
      destruct (tasks_ p); simpl in *; [done|lia].
    + destruct (workers_ p) as [|w ws] eqn:E; [done|]. exists 0, w. split_and!; [done|set_solver|].
      intros ->. destruct Hx as [_ ?]; [by left|done].
  - intros Hs. split; [by apply Ha|]. unfold drained.
    destruct (decide (Exists (λ w, w ≠ Exited) (workers_ p))) as [He|Hn].
    + right. apply list.Exists_exists in He as (w & Hin & Hne). pose proof Hin as [i Hi]%list_elem_of_lookup. exists i.
      eapply awake_can_move; [unfold may_go_on; by rewrite Hs|done| |done]. intros ->. by apply Ha.
    + left. apply Forall_forall. intros w Hin. destruct (decide (w = Exited)) as [|Hne]; [done|].
      destruct Hn. apply list.Exists_exists. eauto.
Qed.

(** ** Shutdown terminates *)

Definition weight (w : Worker) : nat :=
  match w with Waiting | Asleep => 1 | Running _ => 2 | Exited => 0 end.
Definition work_left (p : t) : nat := 2 * length (tasks_ p) + sum_list (weight <$> workers_ p).

(** Every move of a worker brings the pool closer to being drained, so that the joins
    wait for finitely many moves. *)
Lemma worker_step_decreases i p p' : worker_step i p = Some p' → work_left p' < work_left p.
Proof.
  unfold worker_step, work_left. destruct (workers_ p !! i) as [[| |task|]|] eqn:Hi; try done.
  - destruct (may_go_on p); [|done]. destruct (tasks_ p) as [|task rest]; intros [= <-]; simpl.
    + pose proof (sum_list_insert weight (workers_ p) i Waiting Exited Hi). simpl in *. lia.
    + pose proof (sum_list_insert weight (workers_ p) i Waiting (Running task) Hi). simpl in *. lia.
  - intros [= <-]. simpl. pose proof (sum_list_insert weight (workers_ p) i (Running task) Waiting Hi).
    simpl in *. lia.
Qed.

End Pool.
Arguments t : clear implicits.
Arguments Worker : clear implicits.
End ThreadPool.

(** A pool of two workers that is given a task, runs it and is shut down. *)
Section PoolWitness.
Import ThreadPool.

Lemma pool_runs_every_task_witness :
  ∃ p : ThreadPool.t nat, rtc step (make 1) p ∧ drained p ∧ accepted p = [7] ∧ completed p ≡ₚ accepted p.
Proof.
  set (p := mk [] true [Exited] [7] [7] [7] : ThreadPool.t nat).
  assert (rtc step (make 1) p) as Hr.
  { eapply rtc_l; [apply (step_enqueue 0 7)|]. eapply rtc_l; [apply (step_worker 0); reflexivity|].
    eapply rtc_l; [apply step_shutdown|]. eapply rtc_l; [apply (step_worker 0); reflexivity|].
    eapply rtc_l; [apply (step_worker 0); reflexivity|]. constructor. }
  assert (drained p) as Hd by (by apply Forall_singleton).
  exists p. split; [exact Hr|]. split; [exact Hd|]. split; [reflexivity|].
  apply (pool_runs_every_task 1 p Hr). exact Hd.
Defined.

(** Both workers fall asleep; a task wakes the second one. *)
Lemma no_wakeup_lost_witness :
  ∃ p : ThreadPool.t nat, rtc step (make 2) p ∧ workers_ p = [Asleep; Waiting] ∧ length (tasks_ p) ≤ idle p ∧
    ∃ i p', worker_step i p = Some p'.
Proof.
  set (p := mk [7] false [Asleep; Waiting] [7] [] [] : ThreadPool.t nat).
  assert (rtc step (make 2) p) as Hr.
  { eapply rtc_l; [apply (step_sleep 0); reflexivity|]. eapply rtc_l; [apply (step_sleep 1); reflexivity|].
    eapply rtc_l; [apply (step_enqueue 1 7)|]. constructor. }
  exists p. split; [exact Hr|]. split; [reflexivity|]. destruct (no_wakeup_lost 2 p Hr) as (Hm & Hi & _).
  split; [apply Hi; left|apply Hm; discriminate].
Defined.

End PoolWitness.

(** ** Admission of connections *)

Module DatabaseServer.

(** What the accept handler acts on: admission, metrics, and the queue of the
    thread pool, whose tasks are sessions. *)
Record Front := mkFront {
  connections : ConnectionPool.t;
  front_metrics : MetricsCollector.t;
  pool : ThreadPool.t ClientSession.t
}.

(** The handler of an accepted connection; the result is the session when it was
    turned away.  [now1] and [now2] are the clock readings of [admit] and
    [release], [entry_count] the number of stored entries, [choice] the worker that
    is woken. *)
Definition accept_handler (choice : nat) (now1 now2 : time_point) (entry_count : nat) (session : ClientSession.t)
    (f : Front) : Front * option ClientSession.t :=
  let '(c, ok) := ConnectionPool.admit_ now1 (connections f) in
  if negb ok then
    (mkFront c (front_metrics f) (pool f),
     Some (ClientSession.mark_closed (ClientSession.write_line "-ERR max clients reached" session).1))
  else
    let m := MetricsCollector.set_active_clients (ConnectionPool.active_ c + 1) (front_metrics f) in
    let p := ThreadPool.enqueue choice session (pool f) in
    let c := ConnectionPool.release now2 c in
    let m := MetricsCollector.set_active_clients (ConnectionPool.active_ c) m in
    let m := MetricsCollector.set_keys_stored entry_count m in
    let m := MetricsCollector.set_memory_bytes (entry_count * 128) m in
    (mkFront c m p, None).

Fixpoint accept_all (l : list (nat * time_point * time_point * nat * ClientSession.t)) (f : Front)
    : Front * list ClientSession.t :=
  match l with
  | [] => (f, [])
  | (choice, now1, now2, n, session) :: l' =>
      let '(f, refused) := accept_handler choice now1 now2 n session f in
      let '(f, rs) := accept_all l' f in
      (f, option_list refused ++ rs)
  end.

(** The client limit is not enforced: the handler releases a connection as soon
    as it has queued it, so with a limit of at least one and any number of
    arriving connections, however long they stay open, none is ever refused, all
    of them are queued, and the reported number of active clients is zero. *)
Theorem client_limit_not_enforced l f :
  ConnectionPool.active_ (connections f) = 0 → 0 < ConnectionPool.max_connections_ (connections f) →
  ThreadPool.stopping_ (pool f) = false →
  let '(f', refused) := accept_all l f in
  refused = [] ∧ ThreadPool.tasks_ (pool f') = ThreadPool.tasks_ (pool f) ++ l.*2 ∧
  ConnectionPool.active_ (connections f') = 0 ∧
  (l ≠ [] → MetricsCollector.active_clients_ (front_metrics f') = 0).
Proof.
  revert f. induction l as [|[[[[choice now1] now2] n] session] l IH]; intros f Ha Hm Hs; cbn [accept_all].
  { csimpl. by rewrite app_nil_r. }
  unfold accept_handler, ConnectionPool.admit_. rewrite Ha.
  rewrite (proj2 (Nat.leb_gt _ _)) by lia. cbn [negb].
  unfold ConnectionPool.release, ThreadPool.enqueue. rewrite Hs. simpl.
  match goal with |- context [accept_all l ?g] => specialize (IH g) end. simpl in IH.
  specialize (IH eq_refl Hm eq_refl). destruct l as [|x l'].
  - by split_and!.
  - destruct (accept_all _ _) as [f' rs]. destruct IH as (-> & Ht & Ha' & Hact).
    split_and!; [done| |done|by auto]. rewrite Ht. csimpl. by rewrite <-(assoc_L (++)).
Qed.

Definition idle_front : Front :=
  mkFront (ConnectionPool.make 1 120 0%Z) MetricsCollector.make (ThreadPool.make 4).

Lemma client_limit_not_enforced_witness :
  let s := ClientSession.accepted [] in
  let '(f', refused) := accept_all [(0, 0%Z, 0%Z, 0, s); (0, 1%Z, 1%Z, 0, s); (0, 2%Z, 2%Z, 0, s)] idle_front in
  refused = [] ∧ length (ThreadPool.tasks_ (pool f')) = 3.
Proof.
  intros s. pose proof (client_limit_not_enforced
    [(0, 0%Z, 0%Z, 0, s); (0, 1%Z, 1%Z, 0, s); (0, 2%Z, 2%Z, 0, s)] idle_front) as H.
  destruct (accept_all _ idle_front) as [f' refused].
  destruct H as (Hr & Ht & _); [reflexivity|apply Nat.lt_0_1|reflexivity|].
  split; [exact Hr|]. rewrite Ht. reflexivity.
Defined.

(** ** Start-up, sessions and shutdown *)

Section Life.
Context {S : Type} `{StorageLaws S}.

(** The constructor: an empty storage, the log opened in the data directory, the
    gate with the configured password, and no delivery function. *)
Definition make (io : Io) (cfg : ServerConfig) (s : S) (d : Disk) : State S :=
  let '(a, d) := aof_make io (data_dir cfg) d in
  mkState s ChannelRegistry.make None ∅ MetricsCollector.make (AuthGate.mk (requirepass cfg))
    (RuntimeConfig.make cfg) a d.

(** What [run] restores before it serves. *)
Definition restore_data (io : Io) (cfg : ServerConfig) (st : State S) : State S :=
  let path := snapshot_path (data_dir cfg) in
  if has_snapshot path (disk st) then
    with_storage (load_into io path (disk st) (storage st)).1 st
  else with_storage (replay io (aof st) (disk st) (storage st)).1 st.

Definition start (io : Io) (cfg : ServerConfig) (s : S) (d : Disk) : State S :=
  restore_data io cfg (make io cfg s d).

(** The last step of [run]. *)
Definition shut_down (io : Io) (cfg : ServerConfig) (st : State S) : Disk * bool :=
  snapshot_write io (snapshot_path (data_dir cfg)) (storage st) (disk st).

(** The task [SessionWorker::dispatch] queues. *)
Definition session_task (io : Io) (clock : nat → nat → time_point) (session : ClientSession.t)
    (st : State S) : option (Outcome (ClientSession.t * State S)) :=
  handle_session io clock (ClientSession.write_line "+OK voltdbx ready" session).1 st.

Lemma path_join_ne dir f g : f ≠ g → path_join dir f ≠ path_join dir g.
Proof.
  unfold path_join. intros Hne Heq. apply Hne. case_match; [done|].
  assert (∀ p x y : string, p +:+ x = p +:+ y → x = y) as Hinj.
  { intros p x y. induction p as [|c p IH]; [done|]. rewrite !string_app_cons. intros [= ?]. auto. }
  case_match; [by eapply Hinj|]. by eapply (Hinj "/"), (Hinj dir).
Qed.

(** Starting on a disk whose snapshot was written from [s]. *)
Lemma start_from_snapshot io cfg (s s0 : S) d :
  st_ok s → st_ok s0 → st_view s0 = ∅ →
  map_Forall (λ k e, no_newline k && no_newline (value e) = true) (st_view s) →
  (Z.of_nat (base.size (st_view s)) ≤ uint64_max)%Z →
  can_read io (snapshot_path (data_dir cfg)) = true →
  d !! snapshot_path (data_dir cfg) = Some (snapshot_content (st_dump s)) →
  st_ok (storage (start io cfg s0 d)) ∧ st_view (storage (start io cfg s0 d)) = persisted (st_view s).
Proof.
  intros Hok Hok0 Hv0 Hc Hn Hread Hsnap. set (path := snapshot_path (data_dir cfg)) in *.
  assert (disk (make io cfg s0 d) !! path = Some (snapshot_content (st_dump s))) as Hd.
  { unfold make, aof_make. destruct (can_open io (path_join _ _)); simpl; [|done].
    unfold open_append. by rewrite lookup_insert_ne by (by apply path_join_ne). }
  assert (storage (make io cfg s0 d) = s0) as Hs by (unfold make; by destruct (aof_make _ _ _)).
  unfold start, restore_data. fold path. unfold has_snapshot. rewrite Hd, bool_decide_true by eauto.
  cbn [storage with_storage]. rewrite Hs.
  rewrite <-(insert_id _ _ _ Hd). pose proof (dump_view s Hok) as Hp.
  rewrite load_content; [| |by rewrite Hp, length_fmap, length_map_to_list|done].
  - destruct (set_all_spec (st_dump s) s0 Hok0) as [Ha Hv]. split; [done|].
    cbn [fst]. rewrite Hv, Hv0. by apply restore_dump.
  - rewrite Hp. apply Forall_fmap, Forall_forall. intros [k e] Hin%elem_of_map_to_list. apply (Hc k e Hin).
Qed.

(** A clean restart: stopping the server and starting it again on the disk it
    leaves restores exactly the keys and values it had, without their deadlines;
    nothing else of the old process is needed. *)
Theorem restart_restores io cfg st (s0 : S) :
  st_ok (storage st) → st_ok s0 → st_view s0 = ∅ →
  map_Forall (λ k e, no_newline k && no_newline (value e) = true) (st_view (storage st)) →
  (Z.of_nat (base.size (st_view (storage st))) ≤ uint64_max)%Z →
  can_open io (snapshot_path (data_dir cfg)) = true →
  can_read io (snapshot_path (data_dir cfg)) = true →
  ∃ d, shut_down io cfg st = (d, true) ∧
    let st' := start io cfg s0 d in
    st_ok (storage st') ∧ st_view (storage st') = persisted (st_view (storage st)).
Proof.
  intros Hok Hok0 Hv0 Hc Hn Hopen Hread. unfold shut_down, snapshot_write, snapshot_attempt. rewrite Hopen.
  eexists. split; [done|]. apply start_from_snapshot; try done. by rewrite lookup_insert_eq.
Qed.

(** A snapshot file that cannot be used hides the log: when the file exists but
    its first line is not the header, the server starts with the storage it was
    given, whatever the append-only log holds. *)
Theorem bad_snapshot_hides_log io cfg (s0 : S) d content :
  d !! snapshot_path (data_dir cfg) = Some content →
  (getline_or_empty content).1 ≠ "VOLTDBX_SNAPSHOT_V1" →
  storage (start io cfg s0 d) = s0.
Proof.
  intros Hd Hh. unfold start, restore_data, make.
  destruct (aof_make io (data_dir cfg) d) as [a d'] eqn:Ha.
  assert (d' !! snapshot_path (data_dir cfg) = Some content) as Hd'.
  { unfold aof_make in Ha. case_match; simplify_eq; [|done]. unfold open_append.
    by rewrite lookup_insert_ne by (by apply path_join_ne). }
  cbn [disk storage]. unfold has_snapshot. rewrite Hd', bool_decide_true by eauto. cbn [storage with_storage].
  unfold load_into. rewrite Hd'. case_match; [done|]. destruct (getline_or_empty content) as [h rest].
  simpl in Hh. by rewrite (proj2 (String.eqb_neq _ _) Hh).
Qed.

(** Subscriptions of a server that only dispatches commands. *)
Definition quiet (st : State S) : Prop :=
  delivery st = None ∧ mailbox st = ∅ ∧ ∀ ch, Forall (λ id, id = 1%N) (ChannelRegistry.subscribers ch (registry st))
    ∧ NoDup (ChannelRegistry.subscribers ch (registry st)).

Lemma publish_none (r : ChannelRegistry.t) ch msg (m : SessionMailbox.t) :
  PubSubBroker.publish None r ch msg m = (m, length (ChannelRegistry.subscribers ch r)).
Proof. unfold PubSubBroker.publish. f_equal. by induction (ChannelRegistry.subscribers ch r). Qed.

Lemma subscribe_quiet ch r :
  (∀ ch, Forall (λ id, id = 1%N) (ChannelRegistry.subscribers ch r) ∧ NoDup (ChannelRegistry.subscribers ch r)) →
  ∀ ch', Forall (λ id, id = 1%N) (ChannelRegistry.subscribers ch' (ChannelRegistry.subscribe ch 1%N r)) ∧
    NoDup (ChannelRegistry.subscribers ch' (ChannelRegistry.subscribe ch 1%N r)).
Proof.
  intros Hr ch'. destruct (Hr ch') as [Hf Hn]. rewrite ChannelRegistry.subscribers_default in *.
  unfold ChannelRegistry.subscribe. simpl. destruct (decide (ch = ch')) as [->|].
  - rewrite lookup_insert_eq. cbn [from_option]. split; [|by apply ChannelRegistry.push_new_NoDup].
    apply Forall_forall. intros id [->|Hid]%ChannelRegistry.push_new_elem; [done|].
    rewrite Forall_forall in Hf. by apply Hf.
  - by rewrite lookup_insert_ne.
Qed.

Lemma dispatch_quiet io clock cmd st st' r :
  dispatch io clock cmd st ⇓ (st', r) → quiet st → quiet st'.
Proof.
  unfold dispatch. intros E (Hd & Hm & Hr). destruct (handler_of _ _ _ _ _) as [rep|] eqn:Eh.
  - subst rep. destruct (type cmd); simpl in Eh; try discriminate Eh; apply (inj Some) in Eh;
      try (handler_inv Eh; by split_and!).
    + unfold handle_subscribe, wrong_arity, reply in Eh.
      repeat case_match; simplify_eq; split_and!; try done. by apply subscribe_quiet.
    + unfold handle_publish, wrong_arity, reply in Eh. cbn [delivery with_metrics registry mailbox] in Eh.
      rewrite Hd in Eh. destruct (args cmd) as [|ch [|first rest]]; simplify_eq; try done.
      rewrite publish_none in Eh. by simplify_eq.
  - unfold reply in E. by simplify_eq.
Qed.

Lemma serve_quiet io clock lines n st st' rs :
  serve io clock n lines st ⇓ (st', rs) → quiet st → quiet st'.
Proof.
  revert n st rs. induction lines as [|line lines IH]; intros n st rs Hs Hq; cbn [serve] in Hs; [by simplify_eq|].
  destruct (parse_line line) as [cmd|].
  - apply bind_Ret in Hs as ([st1 r] & Hd & Hs). apply dispatch_quiet in Hd; [|done].
    destruct (serve _ _ _ _ st1) as [[]| |] eqn:E; simplify_eq/=. by eapply IH.
  - destruct (serve _ _ _ _ st) as [[]| |] eqn:E; simplify_eq/=. by eapply IH.
Qed.

(** Publishing delivers nothing: the server never installs a delivery function
    and subscribes every client under the same number, so after any requests
    every mailbox is empty and PUBLISH answers at most 1, however many clients
    have subscribed. *)
Theorem published_messages_are_dropped io cfg (s0 : S) d clock lines st rs io' clock' nm ch first rest st2 r :
  serve io clock 0 lines (start io cfg s0 d) ⇓ (st, rs) →
  dispatch io' clock' (mkCommand Publish nm (ch :: first :: rest)) st ⇓ (st2, r) →
  mailbox st2 = ∅ ∧ (r = ":0" ∨ r = ":1").
Proof.
  intros Hs Hp. assert (quiet (start io cfg s0 d)) as H0.
  { unfold start, restore_data, make. destruct (aof_make io (data_dir cfg) d).
    case_match; (split_and!; [done|done|]); intros ch'; (split; constructor). }
  pose proof (serve_quiet _ _ _ _ _ _ _ Hs H0) as (Hd & Hm & Hr).
  unfold dispatch, handler_of, handle_publish, reply in Hp.
  cbn [type args delivery with_metrics registry mailbox] in Hp.
  rewrite Hd, publish_none in Hp. simplify_eq/=. split; [done|].
  destruct (Hr ch) as [Hf Hn]. destruct (ChannelRegistry.subscribers ch (registry st)) as [|a [|b l]];
    [by left|by right|].
  rewrite !Forall_cons in Hf. destruct Hf as (-> & -> & _). inversion_clear Hn as [|? ? Hx]. set_solver.
Qed.

End Life.

Section LifeWitnesses.
#[local] Existing Instance HashTable.sum_hash.
#[local] Abbreviation small := StorageEngine.small.
#[local] Abbreviation timed := StorageEngine.timed.

Lemma restart_restores_witness :
  ∃ d, shut_down all_io default_config (demo_server timed) = (d, true) ∧
    st_view (storage (start all_io default_config small d)) = persisted (st_view timed).
Proof.
  destruct (restart_restores all_io default_config (demo_server timed) small) as (d & Hd & _ & Hv);
    try reflexivity;
    [apply StorageEngine.timed_ok|apply StorageEngine.small_ok|apply timed_clean|vm_compute; intros [=]|].
  exists d. split; [exact Hd|exact Hv].
Defined.

Lemma bad_snapshot_hides_log_witness :
  storage (start all_io default_config small
    (<["./data/snapshot.vdb" := ""]> {[ "./data/append.aof" := set_line "k" "v" +:+ lf ]})) = small.
Proof.
  apply (bad_snapshot_hides_log all_io default_config small _ ""); [reflexivity|discriminate].
Defined.

Lemma published_messages_are_dropped_witness :
  ∃ st rs st2 r,
    serve all_io (λ _ _, 0%Z) 0 ["SUBSCRIBE c"; "SUBSCRIBE c"] (start all_io default_config small ∅) ⇓ (st, rs) ∧
    dispatch all_io (λ _, 0%Z) (mkCommand Publish "PUBLISH" ["c"; "hello"]) st ⇓ (st2, r) ∧
    mailbox st2 = ∅ ∧ (r = ":0" ∨ r = ":1").
Proof.
  destruct (serve all_io (λ _ _, 0%Z) 0 ["SUBSCRIBE c"; "SUBSCRIBE c"] (start all_io default_config small ∅))
    as [[st rs]| |] eqn:E; [|discriminate E..].
  destruct (dispatch all_io (λ _, 0%Z) (mkCommand Publish "PUBLISH" ["c"; "hello"]) st)
    as [[st2 r]| |] eqn:E2; [|discriminate E2..].
  exists st, rs, st2, r. split; [reflexivity|]. split; [exact E2|].
  exact (published_messages_are_dropped _ _ _ _ _ _ _ _ _ _ _ _ _ _ _ _ E E2).
Defined.

End LifeWitnesses.
End DatabaseServer.
