(* ===== verification/Lifecycle.v ===== *)
(** * The life of the server (src/server/database_server.cpp, [DatabaseServer::run])

    [run] as a whole: the main thread, which restores the data, starts the
    schedulers, binds, accepts connections until it is stopped, drains the pool,
    joins the schedulers and writes the last snapshot; the four workers of the
    pool, each serving a session request by request; the two scheduler threads;
    signals; and clients that send more while they are served.  A step is one step of
    one of these threads; a request, a sweep and the writing of a snapshot are single
    steps. *)

From S2P Require Import Prelude CppStd Logger Memory Table Scanner Engine Clients Wire Persistence Pubsub Admin Dispatcher Session Net Accept Schedulers Server.

(** ** One request *)

Section Round.
Context {S : Type} `{StorageLaws S}.

(** One turn of the loop of [CommandHandler::handle_session]. *)
Definition session_round (io : Io) (clock : nat → time_point) (session : ClientSession.t) (st : State S)
    : Outcome (ClientSession.t * State S) :=
  let '(session, line) := ClientSession.read_line session in
  if negb (ClientSession.alive_ session) then Ret (session, st)
  else if (line =? "")%string then Ret (session, st)
  else
    match parse_line line with
    | None => Ret ((ClientSession.write_line "-ERR empty command" session).1, st)
    | Some cmd =>
        '(st, response) ← dispatch io clock cmd st;
        Ret ((ClientSession.write_line response session).1, st)
    end.

(** The task of a session is a greeting and then rounds until the session is closed:
    [handle_session] is what the rounds add up to. *)
Lemma handle_loop_round io clock fuel n session st :
  ClientSession.alive_ session = true →
  ∃ n', handle_loop io clock (Datatypes.S fuel) n session st =
    match session_round io (clock n) session st with
    | Ret (session', st') => handle_loop io clock fuel n' session' st'
    | Throw e => Some (Throw e)
    | Undefined => Some Undefined
    end.
Proof.
  intros Ha. cbn [handle_loop]. rewrite Ha. cbn [negb]. unfold session_round.
  destruct (ClientSession.read_line session) as [s1 line].
  destruct (ClientSession.alive_ s1) eqn:E1; cbn [negb].
  - destruct (line =? "")%string; [by exists n|].
    destruct (parse_line line) as [cmd|]; [|by exists n]. exists (Datatypes.S n).
    by destruct (dispatch io (clock n) cmd st) as [[]| |].
  - exists n. destruct fuel; cbn [handle_loop]; by rewrite E1.
Qed.

Lemma session_round_owns io clock fd session st session' st' :
  (0 ≤ fd)%Z → ClientSession.owns fd session →
  session_round io clock session st ⇓ (session', st') → ClientSession.owns fd session'.
Proof.
  intros Hfd Ho. unfold session_round. pose proof (ClientSession.read_line_owns fd session Hfd Ho) as Hr.
  destruct (ClientSession.read_line session) as [s1 line]. cbn [fst] in Hr.
  destruct (negb _); [by intros [= <- _]|]. destruct (line =? "")%string; [by intros [= <- _]|].
  destruct (parse_line line) as [cmd|].
  - intros ([st1 r] & _ & [= <- _])%bind_Ret. by apply ClientSession.write_line_owns.
  - intros [= <- _]. by apply ClientSession.write_line_owns.
Qed.

Lemma session_round_id io clock session st session' st' :
  session_round io clock session st ⇓ (session', st') → ClientSession.id_ session' = ClientSession.id_ session.
Proof.
  unfold session_round. pose proof (ClientSession.read_line_id session) as Hr.
  destruct (ClientSession.read_line session) as [s1 line]. cbn [fst] in Hr. rewrite <-Hr.
  destruct (negb _); [by intros [= <- _]|]. destruct (line =? "")%string; [by intros [= <- _]|].
  destruct (parse_line line) as [cmd|].
  - intros ([st1 r] & _ & [= <- _])%bind_Ret. apply ClientSession.write_line_id.
  - intros [= <- _]. apply ClientSession.write_line_id.
Qed.

Lemma session_round_ok io clock session st session' st' :
  server_ok st → session_round io clock session st ⇓ (session', st') → server_ok st'.
Proof.
  intros Hst. unfold session_round. destruct (ClientSession.read_line session) as [s1 line].
  destruct (negb _); [by intros [= _ <-]|]. destruct (line =? "")%string; [by intros [= _ <-]|].
  destruct (parse_line line) as [cmd|]; [|by intros [= _ <-]].
  intros ([st1 r] & Hd & [= _ <-])%bind_Ret. unfold dispatch in Hd.
  destruct (handler_of _ _ _ _ _) as [rep|] eqn:E.
  - apply handler_sound in E; [|done]. by rewrite Hd in E.
  - unfold reply in Hd. by simplify_eq.
Qed.

(** A round that leaves the session open has read at least one byte. *)
Lemma session_round_shorter io clock session st session' st' :
  session_round io clock session st ⇓ (session', st') → ClientSession.alive_ session' = true →
  length (ClientSession.input session') < length (ClientSession.input session).
Proof.
  unfold session_round. destruct (ClientSession.read_line session) as [s1 line] eqn:E.
  pose proof (ClientSession.read_line_shorter session s1 line E) as Hs.
  destruct (ClientSession.alive_ s1) eqn:Ha; cbn [negb]; [|intros [= <- _]; congruence].
  destruct (line =? "")%string; [intros [= <- _]; auto|]. destruct (parse_line line) as [cmd|].
  - intros ([st1 r] & _ & [= <- _])%bind_Ret _. rewrite ClientSession.write_line_input. auto.
  - intros [= <- _] _. rewrite ClientSession.write_line_input. auto.
Qed.

End Round.

(** ** The threads of the server *)

Module Run.

(** Where the main thread is: before [bind_and_listen]; in the accept loop; in
    [pool.shutdown()]; in the two [stop] calls, on the failing path or not; before
    the last [writer.write]; returned with a code.  [Terminated] is the end of the
    process by an exception that no one catches, undefined behaviour or a signal's
    default action. *)
Inductive Phase :=
| Binding
| Accepting
| Draining
| JoiningSweeper (failed : bool)
| JoiningSnapshots (failed : bool)
| FinalWrite
| Finished (code : Z)
| Terminated.

Section Run.
Context {S : Type} `{StorageLaws S}.

(** [doing] holds the session each busy worker is serving; [ended] and [refused] are
    histories: the sessions served to their end and those turned away. *)
Record t := mk {
  phase : Phase;
  process : TcpServer.Process;
  state : State S;
  connections : ConnectionPool.t;
  pool : ThreadPool.t ClientSession.t;
  doing : gmap nat ClientSession.t;
  ended : list ClientSession.t;
  refused : list ClientSession.t;
  session_counter : N;
  snapshots : Scheduler.t SnapshotScheduler.Pc;
  sweeper : Scheduler.t ExpirationScheduler.Pc
}.

Definition go (ph : Phase) (r : t) : t :=
  mk ph (process r) (state r) (connections r) (pool r) (doing r) (ended r) (refused r) (session_counter r)
    (snapshots r) (sweeper r).
Definition with_process (p : TcpServer.Process) (r : t) : t :=
  mk (phase r) p (state r) (connections r) (pool r) (doing r) (ended r) (refused r) (session_counter r)
    (snapshots r) (sweeper r).
Definition with_state (st : State S) (r : t) : t :=
  mk (phase r) (process r) st (connections r) (pool r) (doing r) (ended r) (refused r) (session_counter r)
    (snapshots r) (sweeper r).
Definition with_pool (p : ThreadPool.t ClientSession.t) (r : t) : t :=
  mk (phase r) (process r) (state r) (connections r) p (doing r) (ended r) (refused r) (session_counter r)
    (snapshots r) (sweeper r).
Definition with_doing (d : gmap nat ClientSession.t) (r : t) : t :=
  mk (phase r) (process r) (state r) (connections r) (pool r) d (ended r) (refused r) (session_counter r)
    (snapshots r) (sweeper r).
Definition with_snapshots (s : Scheduler.t SnapshotScheduler.Pc) (r : t) : t :=
  mk (phase r) (process r) (state r) (connections r) (pool r) (doing r) (ended r) (refused r) (session_counter r)
    s (sweeper r).
Definition with_sweeper (s : Scheduler.t ExpirationScheduler.Pc) (r : t) : t :=
  mk (phase r) (process r) (state r) (connections r) (pool r) (doing r) (ended r) (refused r) (session_counter r)
    (snapshots r) s.
Definition finish_session (s : ClientSession.t) (r : t) : t :=
  mk (phase r) (process r) (state r) (connections r) (pool r) (doing r) (ended r ++ [s]) (refused r)
    (session_counter r) (snapshots r) (sweeper r).

Definition logs (f : Logger.t → Logger.t) (r : t) : t :=
  with_process (TcpServer.with_logger (f (TcpServer.logger (process r))) (process r)) r.

(** The local variable [tcp]. *)
Definition tcp : N := 1.

Variables (io : Io) (cfg : ServerConfig).
Let path := snapshot_path (data_dir cfg).
Let snapshot_program : Program SnapshotScheduler.Pc (Shared S) :=
  SnapshotScheduler.program (Z.to_N (snapshot_interval_sec cfg)) path.
#[local] Existing Instance snapshot_program.

(** ** The main thread *)

Definition on_sigint (sig : Z) : Logger.t → Logger.t := Logger.log_info "received SIGINT, shutting down".
Definition on_sigterm (sig : Z) : Logger.t → Logger.t := Logger.log_info "received SIGTERM, shutting down".

(** From the beginning of [run] to the start of the schedulers, on a server that was
    constructed over an empty storage [s] and the disk [d]. *)
Definition boot (s : S) (d : Disk) : t :=
  let p := TcpServer.store tcp (TcpServer.make (host cfg) (port cfg)) TcpServer.initial_process in
  let p := TcpServer.store tcp
    (TcpServer.install_signal_handlers (Some on_sigint) (Some on_sigterm) (TcpServer.make (host cfg) (port cfg))) p in
  let st := DatabaseServer.make io cfg s d in
  let message := if has_snapshot path (disk st) then "restored data from snapshot" else "replayed append-only log" in
  let st := DatabaseServer.restore_data io cfg st in
  logs (Logger.log_info message)
    (mk Binding p st (ConnectionPool.make 0 120 0%Z) (ThreadPool.make 4) ∅ [] [] 1
       (default Scheduler.make (Scheduler.start Scheduler.make))
       (default ExpirationScheduler.make (ExpirationScheduler.start ExpirationScheduler.make))).

(** [bind_and_listen] and the branch after it; [now] is the clock when the
    connection pool is constructed. *)
Definition bind_step (a : TcpServer.Answers) (now : time_point) (r : t) : Outcome t :=
  '(p, ok) ← TcpServer.bind_and_listen a tcp (process r);
  let r := with_process p r in
  if ok : bool then
    let r := logs (Logger.log_info "TCP server bound, starting accept loop") r in
    Ret (mk Accepting (process r) (state r) (ConnectionPool.make (Z.to_nat (max_clients cfg)) 120 now) (ThreadPool.make 4)
           (doing r) (ended r) (refused r) (session_counter r) (snapshots r) (sweeper r))
  else
    let r := logs (Logger.log_error "failed to start TCP listener") r in
    Ret (go (JoiningSweeper true) (with_sweeper (ExpirationScheduler.stop (sweeper r)) r)).

(** The handler of [run] on the state it captures. *)
Definition session_handler (choice : nat) (now1 now2 : time_point) (entry_count : nat) (session : ClientSession.t)
    (x : DatabaseServer.Front * list ClientSession.t) : DatabaseServer.Front * list ClientSession.t :=
  let '(f, away) := DatabaseServer.accept_handler choice now1 now2 entry_count session x.1 in
  (f, x.2 ++ option_list away).

(** A connection that the accept loop takes, through [handle_readable]; [choice] is the
    sleeping worker that it wakes. *)
Definition accept_step (choice : nat) (a : Accepted) (now1 now2 : time_point) (r : t) : Outcome t :=
  s ← TcpServer.deref tcp (process r);
  let e := mkEnv s (Some (session_handler choice now1 now2 (st_count (storage (state r)))))
    (DatabaseServer.mkFront (connections r) (metrics (state r)) (pool r), refused r)
    (session_counter r) (TcpServer.logger (process r)) in
  let e := AsyncAcceptLoop.env (AsyncAcceptLoop.handle_readable (AsyncAcceptLoop.mkWorld e [a])) in
  let f := (hstate e).1 in
  Ret (mk (phase r) (process r) (with_metrics (DatabaseServer.front_metrics f) (state r))
         (DatabaseServer.connections f) (DatabaseServer.pool f) (doing r) (ended r) (hstate e).2
         (g_session_counter e) (snapshots r) (sweeper r)).

(** [while (server_.running())] found false: [pool.shutdown()] begins. *)
Definition leave_loop (r : t) : t := go Draining (with_pool (ThreadPool.shutdown (pool r)) r).

(** The return of a join, and what the main thread does next. *)
Definition drained_dec (p : ThreadPool.t ClientSession.t) : bool :=
  forallb (λ w, match w with ThreadPool.Exited => true | _ => false end) (ThreadPool.workers_ p).

Definition join_step (r : t) : option t :=
  match phase r with
  | Draining =>
      if drained_dec (pool r) then
        Some (go (JoiningSweeper false) (with_sweeper (ExpirationScheduler.stop (sweeper r)) r))
      else None
  | JoiningSweeper failed =>
      s ← Scheduler.join_returns (sweeper r);
      Some (go (JoiningSnapshots failed) (with_snapshots (Scheduler.stop (snapshots r)) (with_sweeper s r)))
  | JoiningSnapshots failed =>
      s ← Scheduler.join_returns (snapshots r);
      let r := with_snapshots s r in
      Some (if failed : bool then go (Finished 1) r else go FinalWrite r)
  | _ => None
  end.

(** The last [writer.write(storage_)] and the return. *)
Definition final_step (r : t) : t :=
  let st := state r in
  let st := with_aof (aof st) (DatabaseServer.shut_down io cfg st).1 st in
  go (Finished 0) (logs (Logger.log_info "server stopped cleanly") (with_state st r)).

(** ** The other threads *)

(** A worker of the pool takes the session at the front of the queue and greets it,
    or returns. *)
Definition take_step (i : nat) (r : t) : option t :=
  match ThreadPool.workers_ (pool r) !! i with
  | Some ThreadPool.Waiting =>
      p ← ThreadPool.worker_step i (pool r);
      Some (match ThreadPool.workers_ p !! i with
            | Some (ThreadPool.Running session) =>
                with_doing (<[i := (ClientSession.write_line "+OK voltdbx ready" session).1]> (doing r)) (with_pool p r)
            | _ => with_pool p r
            end)
  | _ => None
  end.

(** A worker falls asleep on the empty queue, or wakes without being notified; the pool
    exists once the listener is bound, and after [shutdown] no worker sleeps. *)
Definition doze_step (i : nat) (r : t) : option t :=
  match phase r with
  | Accepting => p ← ThreadPool.sleep_step i (pool r); Some (with_pool p r)
  | _ => None
  end.

(** The client of the session that a worker serves sends more bytes. *)
Definition arrive_step (more : string) (i : nat) (r : t) : option t :=
  session ← doing r !! i;
  Some (with_doing
    (<[i := ClientSession.with_io (ClientSession.input session ++ ClientSession.bytes more) (ClientSession.writes session)
              (ClientSession.output session) session]> (doing r)) r).

(** A worker handles one request of its session; what it throws ends the process. *)
Definition request_step (clock : nat → time_point) (i : nat) (r : t) : option t :=
  session ← doing r !! i;
  if ClientSession.alive_ session then
    Some (match session_round io clock session (state r) with
          | Ret (session, st) => with_doing (<[i := session]> (doing r)) (with_state st r)
          | Throw _ | Undefined => go Terminated r
          end)
  else None.

(** The end of [handle_session] and of the task, with the session's destructor. *)
Definition finish_step (i : nat) (r : t) : option t :=
  session ← doing r !! i;
  if ClientSession.alive_ session then None
  else
    p ← ThreadPool.worker_step i (pool r);
    Some (finish_session (ClientSession.destroy (ClientSession.mark_closed session))
            (with_doing (delete i (doing r)) (with_pool p r))).

(** What the scheduler threads see, and what they leave. *)
Definition shared (clock : nat → time_point) (failure : option (nat * bool)) (r : t) : Shared S :=
  mkShared (storage (state r)) (disk (state r)) io (TcpServer.logger (process r)) clock failure [].
Definition with_shared (sh : Shared S) (r : t) : t :=
  logs (λ _, sh_log sh)
    (with_state (with_aof (aof (state r)) (sh_disk sh) (with_storage (sh_storage sh) (state r))) r).

(** [failure] is how writing the snapshot fails, if it does. *)
Definition snapshot_step (clock : nat → time_point) (failure : option (nat * bool)) (r : t) : option t :=
  '(s, sh) ← Scheduler.worker_step (snapshots r) (shared clock failure r);
  Some (with_shared sh (with_snapshots s r)).

Definition sweep_step (clock : nat → time_point) (r : t) : option t :=
  '(s, sh) ← Scheduler.worker_step (sweeper r) (shared clock None r);
  Some (with_shared sh (with_sweeper s r)).

(** The arrival of a signal. *)
Definition signal_step (sig : TcpServer.Signal) (r : t) : Outcome t :=
  p ← TcpServer.deliver sig (process r);
  let r := with_process p r in
  Ret (if TcpServer.killed p then go Terminated r else r).

(** ** Steps *)

Definition live (r : t) : Prop := match phase r with Finished _ | Terminated => False | _ => True end.

Definition loop_running (r : t) : bool :=
  match TcpServer.servers (process r) !! tcp with
  | Some s => TcpServer.running_ s
  | None => false
  end.

(** The steps of the main thread and of the workers. *)
Inductive serve_step : t → t → Prop :=
| step_bind a now r r' :
    phase r = Binding → TcpServer.socket a ∉ TcpServer.listening (process r) →
    bind_step a now r ⇓ r' → serve_step r r'
| step_accept choice a now1 now2 r r' :
    phase r = Accepting → loop_running r = true → stopped a = false →
    accept_step choice a now1 now2 r ⇓ r' → serve_step r r'
| step_leave r : phase r = Accepting → loop_running r = false → serve_step r (leave_loop r)
| step_join r r' : join_step r = Some r' → serve_step r r'
| step_final r : phase r = FinalWrite → serve_step r (final_step r)
| step_take i r r' : live r → take_step i r = Some r' → serve_step r r'
| step_request clock i r r' : live r → request_step clock i r = Some r' → serve_step r r'
| step_finish i r r' : live r → finish_step i r = Some r' → serve_step r r'.

(** All steps: also those of the schedulers, signals, workers that fall asleep or wake,
    and clients that send more. *)
Inductive step : t → t → Prop :=
| step_serve r r' : serve_step r r' → step r r'
| step_snapshot clock failure r r' : live r → snapshot_step clock failure r = Some r' → step r r'
| step_sweep clock r r' : live r → sweep_step clock r = Some r' → step r r'
| step_signal sig r r' : live r → signal_step sig r ⇓ r' → step r r'
| step_doze i r r' : doze_step i r = Some r' → step r r'
| step_arrive more i r r' : live r → arrive_step more i r = Some r' → step r r'.

(** ** The invariant *)

(** The session a worker serves stands for the task it took: the same connection,
    whose descriptor is closed exactly when the session is. *)
Definition serves (task session : ClientSession.t) : Prop :=
  ClientSession.id_ session = ClientSession.id_ task ∧ (0 ≤ ClientSession.fd_ task)%Z ∧
  ClientSession.owns (ClientSession.fd_ task) session.
Definition served_to_end (task session : ClientSession.t) : Prop :=
  ClientSession.id_ session = ClientSession.id_ task ∧ ClientSession.alive_ session = false ∧
  ClientSession.closed session = [ClientSession.fd_ task].

Definition busy (pl : ThreadPool.t ClientSession.t) (d : gmap nat ClientSession.t) : Prop :=
  ∀ i, match ThreadPool.workers_ pl !! i with
       | Some (ThreadPool.Running task) => ∃ s, d !! i = Some s ∧ serves task s
       | _ => d !! i = None
       end.

Definition on {Pc} (s : Scheduler.t Pc) : Prop := Scheduler.running_ s = true.
Definition stopping {Pc} (s : Scheduler.t Pc) : Prop :=
  Scheduler.running_ s = false ∧ is_Some (Scheduler.worker_ s).
Definition off {Pc} (s : Scheduler.t Pc) : Prop := s = Scheduler.make.

(** What holds at each place of the main thread. *)
Definition phase_ok (ph : Phase) (pl : ThreadPool.t ClientSession.t) (sn : Scheduler.t SnapshotScheduler.Pc)
    (sw : Scheduler.t ExpirationScheduler.Pc) (st : State S) (listening : bool) : Prop :=
  match ph with
  | Binding => on sn ∧ on sw ∧ pl = ThreadPool.make 4 ∧ listening = false
  | Accepting => on sn ∧ on sw ∧ ThreadPool.stopping_ pl = false
  | Draining => on sn ∧ on sw ∧ ThreadPool.stopping_ pl = true ∧ listening = false
  | JoiningSweeper failed =>
      on sn ∧ stopping sw ∧ listening = false ∧ if failed : bool then pl = ThreadPool.make 4 else ThreadPool.drained pl
  | JoiningSnapshots failed =>
      stopping sn ∧ off sw ∧ listening = false ∧ if failed : bool then pl = ThreadPool.make 4 else ThreadPool.drained pl
  | FinalWrite => off sn ∧ off sw ∧ listening = false ∧ ThreadPool.drained pl
  | Finished code =>
      off sn ∧ off sw ∧ listening = false ∧
      (code = 0%Z → ThreadPool.drained pl ∧
         (can_open io path = true → disk st !! path = Some (snapshot_content (st_dump (storage st)))))
  | Terminated => True
  end.

Record inv (r : t) : Prop := {
  inv_process : TcpServer.inv true (process r);
  inv_tcp : dom (TcpServer.servers (process r)) = {[ tcp ]};
  inv_pool : ThreadPool.inv (pool r);
  inv_tasks : Forall fresh_session (ThreadPool.accepted (pool r));
  inv_busy : busy (pool r) (doing r);
  inv_ended : Forall2 served_to_end (ThreadPool.completed (pool r)) (ended r);
  inv_snapshots : Scheduler.inv (snapshots r);
  inv_sweeper : Scheduler.inv (sweeper r);
  inv_state : server_ok (state r);
  inv_phase : phase_ok (phase r) (pool r) (snapshots r) (sweeper r) (state r) (loop_running r)
}.

Lemma worker_step_not_drained i (p p' : ThreadPool.t ClientSession.t) :
  ThreadPool.worker_step i p = Some p' → ¬ ThreadPool.drained p.
Proof.
  unfold ThreadPool.worker_step, ThreadPool.drained. intros Hw Hd. rewrite Forall_lookup in Hd.
  destruct (ThreadPool.workers_ p !! i) as [w|] eqn:E; [|done]. by rewrite (Hd i w E) in Hw.
Qed.

Lemma make_no_step i n : ThreadPool.worker_step i (ThreadPool.make n : ThreadPool.t ClientSession.t) = None.
Proof.
  unfold ThreadPool.worker_step. destruct (_ !! i) as [w|] eqn:E; [|done].
  by apply lookup_replicate in E as [-> _].
Qed.

Lemma worker_step_same i (p p' : ThreadPool.t ClientSession.t) :
  ThreadPool.worker_step i p = Some p' →
  ThreadPool.stopping_ p' = ThreadPool.stopping_ p ∧ ThreadPool.accepted p' = ThreadPool.accepted p.
Proof. unfold ThreadPool.worker_step. intros E. by repeat case_match; simplify_eq/=. Qed.

(** A worker moves only while the main thread accepts or drains. *)
Lemma worker_step_phase i ph pl pl' sn sw st l :
  phase_ok ph pl sn sw st l → ThreadPool.worker_step i pl = Some pl' → phase_ok ph pl' sn sw st l.
Proof.
  intros Hp Hw. pose proof (worker_step_same i pl pl' Hw) as [Hs _].
  pose proof (worker_step_not_drained i pl pl' Hw) as Hn.
  assert (pl ≠ ThreadPool.make 4) as Hm by (intros ->; by rewrite make_no_step in Hw).
  destruct ph as [| | |[]|[]| |code|]; simpl in *; rewrite ?Hs; try tauto.
Qed.

Lemma scheduler_step_phase {Pc Sh} `{ProgramLaws Pc Sh} (s s' : Scheduler.t Pc) (sh sh' : Sh) :
  Scheduler.worker_step s sh = Some (s', sh') →
  ¬ off s ∧ (on s → on s') ∧ (stopping s → stopping s').
Proof.
  unfold Scheduler.worker_step, off, on, stopping. destruct (Scheduler.worker_ s) as [pc|] eqn:E; [|done].
  destruct (returned pc); [done|]. destruct (exec _ _ _) as [pc' sh1]. intros [= <- <-]. simpl.
  split_and!; [by intros -> |done|]. intros [? _]. eauto.
Qed.

(** *** Workers *)

Lemma busy_insert pl pl' d i w :
  busy pl d → ThreadPool.workers_ pl' = <[i := w]> (ThreadPool.workers_ pl) → i < length (ThreadPool.workers_ pl) →
  (∀ task, w ≠ ThreadPool.Running task) → busy pl' (delete i d).
Proof.
  intros Hb Hw Hi Hn j. rewrite Hw. destruct (decide (i = j)) as [->|Hne].
  - rewrite list_lookup_insert_eq by done. rewrite lookup_delete_eq.
    destruct w as [| |task|]; [done|done|by destruct (Hn task)|done].
  - rewrite list_lookup_insert_ne, lookup_delete_ne by done. apply Hb.
Qed.

Lemma busy_start pl pl' d i task s :
  busy pl d → ThreadPool.workers_ pl' = <[i := ThreadPool.Running task]> (ThreadPool.workers_ pl) →
  i < length (ThreadPool.workers_ pl) → serves task s → busy pl' (<[i := s]> d).
Proof.
  intros Hb Hw Hi Hs j. rewrite Hw. destruct (decide (i = j)) as [->|Hne].
  - rewrite list_lookup_insert_eq by done. exists s. by rewrite lookup_insert_eq.
  - rewrite list_lookup_insert_ne, lookup_insert_ne by done. apply Hb.
Qed.

Lemma busy_update pl d i s s' :
  busy pl d → d !! i = Some s → (∀ task, serves task s → serves task s') → busy pl (<[i := s']> d).
Proof.
  intros Hb Hi Hs j. specialize (Hb j). destruct (decide (i = j)) as [->|Hne].
  - destruct (ThreadPool.workers_ pl !! j) as [[| |task|]|]; try congruence.
    destruct Hb as (s0 & Hs0 & Ht). simplify_eq. exists s'. rewrite lookup_insert_eq. auto.
  - by rewrite lookup_insert_ne by done.
Qed.

Lemma fresh_owns task : fresh_session task → (0 ≤ ClientSession.fd_ task)%Z ∧ ClientSession.owns (ClientSession.fd_ task) task.
Proof. intros (Ha & Hfd & Hc). unfold ClientSession.owns. by rewrite Ha. Qed.

Lemma take_inv i r r' : inv r → take_step i r = Some r' → inv r'.
Proof.
  intros [H1 H2 H3 H4 H5 H6 H7 H8 H9 H10]. unfold take_step.
  destruct (ThreadPool.workers_ (pool r) !! i) as [[| | |]|] eqn:Ei; try done.
  destruct (ThreadPool.worker_step i (pool r)) as [p|] eqn:Ew; [|done]. cbn [mbind option_bind]. intros [= <-].
  pose proof (ThreadPool.worker_step_inv i _ _ H3 Ew) as Hp.
  pose proof (worker_step_same i _ _ Ew) as [_ Hacc]. pose proof (lookup_lt_Some _ _ _ Ei) as Hlt.
  pose proof (worker_step_phase i _ _ _ _ _ _ _ H10 Ew) as Hph. rewrite <-Hacc in H4.
  unfold ThreadPool.worker_step in Ew. rewrite Ei in Ew. destruct (ThreadPool.may_go_on _); [|done].
  destruct (ThreadPool.tasks_ (pool r)) as [|task rest] eqn:Et; injection Ew as <-; simpl;
    rewrite list_lookup_insert_eq by done.
  - split; try done. simpl. pose proof (H5 i) as Hi. rewrite Ei in Hi.
    rewrite <-(delete_id (doing r) i) by done. by eapply busy_insert.
  - assert (fresh_session task) as Hf.
    { rewrite Forall_forall in H4. apply H4. simpl. rewrite (ThreadPool.inv_fifo _ H3), Et. set_solver. }
    destruct (fresh_owns task Hf) as [Hfd Ho]. split; try done. simpl.
    eapply busy_start; [done|done|done|]. split_and!; [apply ClientSession.write_line_id|done|].
    by apply ClientSession.write_line_owns.
Qed.

(** Before its end, the data does not matter to the place of the main thread. *)
Lemma phase_ok_state ph pl sn sw st st' l :
  match ph with Finished _ => False | _ => True end → phase_ok ph pl sn sw st l → phase_ok ph pl sn sw st' l.
Proof. by destruct ph. Qed.

Lemma live_not_finished r : live r → match phase r with Finished _ => False | _ => True end.
Proof. unfold live. by destruct (phase r). Qed.

Lemma request_inv clock i r r' : live r → inv r → request_step clock i r = Some r' → inv r'.
Proof.
  intros Hl Hr. pose proof Hr as [H1 H2 H3 H4 H5 H6 H7 H8 H9 H10]. unfold request_step.
  destruct (doing r !! i) as [s|] eqn:Ei; [|done]. cbn [mbind option_bind].
  destruct (ClientSession.alive_ s); [|done]. intros [= <-].
  destruct (session_round io clock s (state r)) as [[s' st]| |] eqn:Er; [|by split..].
  split; try done; simpl; [| |apply (phase_ok_state _ _ _ _ (state r)); [by apply live_not_finished|done]].
  - eapply busy_update; [done|done|]. intros task (Hid & Hfd & Ho).
    split_and!; [by rewrite (session_round_id _ _ _ _ _ _ Er)|done|by eapply session_round_owns].
  - by eapply session_round_ok.
Qed.

Lemma finish_inv i r r' : inv r → finish_step i r = Some r' → inv r'.
Proof.
  intros Hr. pose proof Hr as [H1 H2 H3 H4 H5 H6 H7 H8 H9 H10]. unfold finish_step.
  destruct (doing r !! i) as [s|] eqn:Ei; [|done]. cbn [mbind option_bind].
  destruct (ClientSession.alive_ s) eqn:Ea; [done|].
  destruct (ThreadPool.worker_step i (pool r)) as [p|] eqn:Ew; [|done]. cbn [mbind option_bind]. intros [= <-].
  pose proof (ThreadPool.worker_step_inv i _ _ H3 Ew) as Hp.
  pose proof (worker_step_same i _ _ Ew) as [_ Hacc]. rewrite <-Hacc in H4.
  pose proof (worker_step_phase i _ _ _ _ _ _ _ H10 Ew) as Hph.
  unfold ThreadPool.worker_step in Ew. pose proof (H5 i) as Hi.
  destruct (ThreadPool.workers_ (pool r) !! i) as [[| |task|]|] eqn:Ewi; try congruence.
  destruct Hi as (s0 & Hs0 & Hid & Hfd & Ho). simplify_eq. split; try done; simpl.
  - eapply busy_insert; [done|done|by eapply lookup_lt_Some|done].
  - apply Forall2_app; [done|]. apply Forall2_cons. split; [|constructor].
    unfold ClientSession.destroy, ClientSession.mark_closed. rewrite Ea. simpl. rewrite Ea. simpl.
    unfold ClientSession.owns in Ho. rewrite Ea in Ho. by destruct Ho.
Qed.

(** *** Schedulers and signals *)

Lemma write_snapshot_storage interval p (sh : Shared S) pc running :
  sh_storage (@exec _ _ (SnapshotScheduler.program interval p) running pc sh).2 = sh_storage sh.
Proof.
  simpl. destruct pc as [| |i|]; simpl; try done; [|by case_match].
  unfold SnapshotScheduler.write_snapshot. by destruct (snapshot_attempt _ _ _ _ _) as [d []].
Qed.

Lemma snapshot_inv clock failure r r' : live r → inv r → snapshot_step clock failure r = Some r' → inv r'.
Proof.
  intros Hl [H1 H2 H3 H4 H5 H6 H7 H8 H9 H10]. unfold snapshot_step.
  destruct (Scheduler.worker_step (snapshots r) (shared clock failure r)) as [[s sh]|] eqn:Ew; [|done].
  cbn [mbind option_bind]. intros [= <-].
  pose proof (SnapshotScheduler.program_laws (Z.to_N (snapshot_interval_sec cfg)) path (S := S)) as Hlaws.
  pose proof (Scheduler.loop_step_inv _ _ _ _ H7 Ew) as [Hs _].
  pose proof (scheduler_step_phase _ _ _ _ Ew) as (Hoff & Hon & Hst).
  split; try done; simpl.
  - by apply TcpServer.with_logger_inv.
  - split; [|apply H9]. simpl. unfold Scheduler.worker_step in Ew.
    destruct (Scheduler.worker_ (snapshots r)) as [pc|]; [|done]. destruct (returned pc); [done|].
    pose proof (write_snapshot_storage (Z.to_N (snapshot_interval_sec cfg)) path (shared clock failure r) pc
      (Scheduler.running_ (snapshots r))) as Hw.
    change (SnapshotScheduler.program _ _) with snapshot_program in Hw.
    destruct (exec _ _ _) as [pc' sh']. injection Ew as <- <-. simpl in Hw. rewrite Hw. apply H9.
  - apply (phase_ok_state _ _ _ _ (state r)); [by apply live_not_finished|]. unfold live in Hl.
    unfold loop_running in *. simpl. destruct (phase r); simpl in *; tauto.
Qed.

Lemma sweep_inv clock r r' : live r → inv r → sweep_step clock r = Some r' → inv r'.
Proof.
  intros Hl [H1 H2 H3 H4 H5 H6 H7 H8 H9 H10]. unfold sweep_step.
  destruct (Scheduler.worker_step (sweeper r) (shared clock None r)) as [[s sh]|] eqn:Ew; [|done].
  cbn [mbind option_bind]. intros [= <-].
  pose proof (Scheduler.loop_step_inv _ _ _ _ H8 Ew) as [Hs _].
  pose proof (scheduler_step_phase _ _ _ _ Ew) as (Hoff & Hon & Hst).
  split; try done; simpl.
  - by apply TcpServer.with_logger_inv.
  - split; [|apply H9]. simpl. unfold Scheduler.worker_step in Ew. destruct H9 as [H9 _].
    destruct (Scheduler.worker_ (sweeper r)) as [pc|]; [|done]. destruct (returned pc); [done|].
    simpl in Ew. destruct pc; simpl in Ew; simplify_eq; simpl; try done; [by apply purge_ok|by case_match].
  - apply (phase_ok_state _ _ _ _ (state r)); [by apply live_not_finished|]. unfold live in Hl.
    unfold loop_running in *. simpl. destruct (phase r); simpl in *; tauto.
Qed.

Lemma phase_ok_quiet ph pl sn sw st l l' :
  (l' = true → l = true) → phase_ok ph pl sn sw st l → phase_ok ph pl sn sw st l'.
Proof.
  intros Hl. destruct l', l; try done; [naive_solver|]. unfold phase_ok. destruct ph; naive_solver.
Qed.

Lemma no_new_loop p p' :
  TcpServer.no_new_server p p' →
  (match TcpServer.servers p' !! tcp with Some s => TcpServer.running_ s | None => false end) = true →
  (match TcpServer.servers p !! tcp with Some s => TcpServer.running_ s | None => false end) = true.
Proof.
  intros [_ Hn]. destruct (TcpServer.servers p' !! tcp) as [s'|] eqn:E; [|done]. intros Hr.
  destruct (Hn tcp s' E Hr) as (s & -> & Hs). done.
Qed.

Lemma signal_inv sig r r' : live r → inv r → signal_step sig r ⇓ r' → inv r'.
Proof.
  intros Hl [H1 H2 H3 H4 H5 H6 H7 H8 H9 H10]. unfold signal_step. intros (p & Hp & [= <-])%bind_Ret.
  destruct (TcpServer.deliver_spec true sig (process r) H1) as (q & Hq & Hi & _). rewrite Hp in Hq. injection Hq as <-.
  pose proof (TcpServer.deliver_no_new _ _ _ Hp) as Hn.
  assert (dom (TcpServer.servers p) = {[ tcp ]}) as Hd by (destruct Hn as [-> _]; done).
  destruct (TcpServer.killed p); [by split|]. split; try done. simpl.
  eapply phase_ok_quiet; [|exact H10]. by apply no_new_loop.
Qed.

(** *** The main thread *)

Lemma tcp_lookup r : inv r → ∃ s, TcpServer.servers (process r) !! tcp = Some s.
Proof.
  intros Hr. assert (tcp ∈ dom (TcpServer.servers (process r))) as Hd by (rewrite (inv_tcp r Hr); set_solver).
  by apply elem_of_dom in Hd as [s Hs]; exists s.
Qed.

Lemma stop_stopping {Pc Sh} `{ProgramLaws Pc Sh} (s : Scheduler.t Pc) :
  Scheduler.inv s → on s → Scheduler.inv (Scheduler.stop s) ∧ stopping (Scheduler.stop s).
Proof.
  intros Hs Hon. destruct (Scheduler.stop_inv s Hs) as [Hi Hr]. split; [done|]. split; [done|].
  unfold on in Hon. unfold Scheduler.stop. rewrite Hon. simpl. unfold Scheduler.inv in Hs.
  destruct (Scheduler.worker_ s); [eauto|]. destruct Hs. congruence.
Qed.

Lemma bind_inv a now r r' :
  inv r → phase r = Binding → TcpServer.socket a ∉ TcpServer.listening (process r) →
  bind_step a now r ⇓ r' → inv r'.
Proof.
  intros Hr Hph Hf. pose proof Hr as [H1 H2 H3 H4 H5 H6 H7 H8 H9 H10]. unfold bind_step.
  destruct (tcp_lookup r Hr) as [s Hs]. rewrite Hph in H10. destruct H10 as (Hsn & Hsw & Hpl & Hlr).
  assert (TcpServer.running_ s = false) as Hrun by (unfold loop_running in Hlr; by rewrite Hs in Hlr).
  destruct (TcpServer.bind_and_listen_spec true a tcp s (process r) H1 Hs Hrun Hf)
    as (p & ok & Hb & Hi & _ & Hno & Hyes). rewrite Hb. msimp.
  pose proof (TcpServer.bind_dom _ _ _ _ _ Hb) as Hd. rewrite H2 in Hd.
  destruct ok; intros [= <-].
  - split; try done; simpl; rewrite ?Hpl in *; try done; by apply TcpServer.with_logger_inv.
  - destruct (Hno eq_refl) as (_ & _ & _ & _ & s' & Hs' & Hr').
    destruct (stop_stopping (sweeper r) H8 Hsw) as [Hi8 Hst8].
    split; try done; simpl; [by apply TcpServer.with_logger_inv|].
    split_and!; try done. unfold loop_running. simpl. by rewrite Hs'.
Qed.

Lemma accept_handler_pool choice now1 now2 n session f :
  let f' := (DatabaseServer.accept_handler choice now1 now2 n session f).1 in
  DatabaseServer.pool f' = DatabaseServer.pool f ∨
  DatabaseServer.pool f' = ThreadPool.enqueue choice session (DatabaseServer.pool f).
Proof.
  unfold DatabaseServer.accept_handler. destruct (ConnectionPool.admit_ now1 _) as [c []]; simpl; auto.
Qed.

(** Waking workers starts and ends no task. *)
Lemma busy_notified pl pl' d :
  (∀ i task, ThreadPool.workers_ pl' !! i = Some (ThreadPool.Running task) ↔
     ThreadPool.workers_ pl !! i = Some (ThreadPool.Running task)) → busy pl d → busy pl' d.
Proof.
  intros He Hb i. specialize (Hb i). specialize (He i).
  destruct (ThreadPool.workers_ pl' !! i) as [[| |task|]|]; [..|];
    try (destruct (ThreadPool.workers_ pl !! i) as [[| |task'|]|]; [done|done| |done|done];
         by discriminate (proj2 (He task') eq_refl)).
  by rewrite (proj1 (He task) eq_refl) in Hb.
Qed.

Lemma notify_one_running choice (ws : list (ThreadPool.Worker ClientSession.t)) i task :
  ThreadPool.notify_one choice ws !! i = Some (ThreadPool.Running task) ↔ ws !! i = Some (ThreadPool.Running task).
Proof.
  destruct (ThreadPool.notify_one_spec choice ws) as [[_ ->]|(j & Hj & ->)]; [done|].
  destruct (decide (j = i)) as [->|Hne]; [|by rewrite list_lookup_insert_ne].
  rewrite list_lookup_insert_eq by (by eapply lookup_lt_Some). rewrite Hj. naive_solver.
Qed.

Lemma notify_all_running (ws : list (ThreadPool.Worker ClientSession.t)) i task :
  ThreadPool.notify_all ws !! i = Some (ThreadPool.Running task) ↔ ws !! i = Some (ThreadPool.Running task).
Proof.
  unfold ThreadPool.notify_all. rewrite list_lookup_fmap. destruct (ws !! i) as [[]|]; naive_solver.
Qed.

Lemma enqueue_same choice (task : ClientSession.t) pl d :
  ThreadPool.stopping_ (ThreadPool.enqueue choice task pl) = ThreadPool.stopping_ pl ∧
  (busy pl d → busy (ThreadPool.enqueue choice task pl) d) ∧
  ThreadPool.completed (ThreadPool.enqueue choice task pl) = ThreadPool.completed pl ∧
  (fresh_session task → Forall fresh_session (ThreadPool.accepted pl) →
   Forall fresh_session (ThreadPool.accepted (ThreadPool.enqueue choice task pl))).
Proof.
  unfold ThreadPool.enqueue. destruct (ThreadPool.stopping_ pl) eqn:E; split_and!; try done.
  - apply busy_notified. intros i x. apply notify_one_running.
  - intros. simpl. apply Forall_app. split; [done|by apply Forall_singleton].
Qed.

Lemma accept_inv choice a now1 now2 r r' :
  inv r → phase r = Accepting → stopped a = false → accept_step choice a now1 now2 r ⇓ r' → inv r'.
Proof.
  intros Hr Hph Hst. pose proof Hr as [H1 H2 H3 H4 H5 H6 H7 H8 H9 H10]. unfold accept_step.
  destruct (tcp_lookup r Hr) as [s Hs]. unfold TcpServer.deref. rewrite Hs. msimp. intros [= <-].
  rewrite Hph in H10. destruct H10 as (Hsn & Hsw & Hns).
  unfold AsyncAcceptLoop.handle_readable. simpl. rewrite Hst.
  destruct (Z.ltb_spec (client_fd a) 0) as [Hneg|Hfd]; simpl.
  { split; try done; simpl. by rewrite Hph. }
  set (session := ClientSession.mk _ _ _ _ _ _ _ _ _).
  unfold session_handler. simpl.
  pose proof (accept_handler_pool choice now1 now2 (st_count (storage (state r))) session
    (DatabaseServer.mkFront (connections r) (metrics (state r)) (pool r))) as Hp. simpl in Hp.
  destruct (DatabaseServer.accept_handler _ _ _ _ _) as [f away]. simpl in Hp |- *.
  assert (fresh_session session) as Hfr by done.
  destruct Hp as [Hp|Hp]; split; try done; simpl; rewrite ?Hp, ?Hph; try done.
  - by apply ThreadPool.enqueue_inv.
  - by apply (enqueue_same choice session (pool r) ∅).
  - by apply enqueue_same.
  - by rewrite (proj1 (proj2 (proj2 (enqueue_same choice session (pool r) ∅)))).
  - split_and!; try done. by rewrite (proj1 (enqueue_same choice session (pool r) ∅)).
Qed.

Lemma leave_inv r : inv r → phase r = Accepting → loop_running r = false → inv (leave_loop r).
Proof.
  intros [H1 H2 H3 H4 H5 H6 H7 H8 H9 H10] Hph Hl. rewrite Hph in H10. destruct H10 as (Hsn & Hsw & Hns).
  pose proof (ThreadPool.shutdown_inv _ H3) as Hp. unfold leave_loop, ThreadPool.shutdown in *. rewrite Hns in *.
  split; try done. simpl. eapply busy_notified; [|done]. intros i x. apply notify_all_running.
Qed.

Lemma doze_inv i r r' : inv r → doze_step i r = Some r' → inv r'.
Proof.
  intros [H1 H2 H3 H4 H5 H6 H7 H8 H9 H10]. unfold doze_step. destruct (phase r) eqn:Hph; try done.
  destruct (ThreadPool.sleep_step i (pool r)) as [p|] eqn:Es; [|done]. cbn [mbind option_bind]. intros [= <-].
  pose proof (ThreadPool.sleep_step_inv i _ _ H3 Es) as Hp. unfold ThreadPool.sleep_step in Es. pose proof (H5 i) as Hi.
  destruct (ThreadPool.workers_ (pool r) !! i) as [[| | |]|] eqn:Ei; try done; [destruct (ThreadPool.may_go_on _); [done|]|];
    injection Es as <-; (split; try done; [|simpl; by rewrite Hph]); simpl;
    rewrite <-(delete_id (doing r) i) by done; eapply busy_insert; try done; by eapply lookup_lt_Some.
Qed.

Lemma arrive_inv more i r r' : inv r → arrive_step more i r = Some r' → inv r'.
Proof.
  intros [H1 H2 H3 H4 H5 H6 H7 H8 H9 H10]. unfold arrive_step. destruct (doing r !! i) as [s|] eqn:Ei; [|done].
  cbn [mbind option_bind]. intros [= <-]. split; try done. simpl. by eapply busy_update.
Qed.

Lemma drained_dec_spec pl : drained_dec pl = true ↔ ThreadPool.drained pl.
Proof.
  unfold drained_dec, ThreadPool.drained. rewrite forallb_forall, Forall_forall.
  setoid_rewrite <-list_elem_of_In. split; intros Hd w Hw; specialize (Hd w Hw); by destruct w.
Qed.

Lemma join_step_inv r r' : inv r → join_step r = Some r' → inv r'.
Proof.
  intros [H1 H2 H3 H4 H5 H6 H7 H8 H9 H10]. unfold join_step.
  pose proof (SnapshotScheduler.program_laws (Z.to_N (snapshot_interval_sec cfg)) path (S := S)) as Hlaws.
  destruct (phase r) as [| | |failed|failed| |code|] eqn:Hph; try done.
  - destruct (drained_dec (pool r)) eqn:Hd; [|done]. intros [= <-]. destruct H10 as (Hsn & Hsw & Hns & Hl).
    destruct (stop_stopping (sweeper r) H8 Hsw) as [Hi Hst].
    split; try done. simpl. split_and!; try done. by apply drained_dec_spec.
  - destruct (Scheduler.join_returns (sweeper r)) as [s|] eqn:Hj; [|done]. cbn [mbind option_bind]. intros [= <-].
    destruct H10 as (Hsn & Hsw & Hl & Hp). destruct (Scheduler.join_returns_inv _ _ H8 Hj) as [-> _].
    destruct (stop_stopping (snapshots r) H7 Hsn) as [Hi Hst].
    split; try done; simpl; by split_and!.
  - destruct (Scheduler.join_returns (snapshots r)) as [s|] eqn:Hj; [|done]. cbn [mbind option_bind]. intros [= <-].
    destruct H10 as (Hsn & Hsw & Hl & Hp). destruct (Scheduler.join_returns_inv _ _ H7 Hj) as [-> _].
    destruct failed; split; try done; simpl; by split_and!.
Qed.

Lemma final_inv r : inv r → phase r = FinalWrite → inv (final_step r).
Proof.
  intros [H1 H2 H3 H4 H5 H6 H7 H8 H9 H10] Hph. rewrite Hph in H10. destruct H10 as (Hsn & Hsw & Hl & Hd).
  split; try done; simpl; [by apply TcpServer.with_logger_inv|].
  split_and!; try done. intros _. split; [done|]. intros Hopen.
  unfold DatabaseServer.shut_down, snapshot_write, snapshot_attempt. fold path. rewrite Hopen. simpl. apply lookup_insert_eq.
Qed.

Lemma run_step_inv r r' : inv r → step r r' → inv r'.
Proof.
  intros Hr Hs. destruct Hs as [r r' Hs|clock failure r r' Hl Hs|clock r r' Hl Hs|sig r r' Hl Hs|i r r' Hs|more i r r' Hl Hs];
    [|by eapply snapshot_inv|by eapply sweep_inv|by eapply signal_inv|by eapply doze_inv|by eapply arrive_inv].
  destruct Hs as [a now r r' Hp Hf Hs|choice a now1 now2 r r' Hp _ Hst Hs|r Hp Hl|r r' Hs|r Hp|i r r' Hl Hs|clock i r r' Hl Hs
    |i r r' Hl Hs].
  - by eapply bind_inv.
  - by eapply accept_inv.
  - by apply leave_inv.
  - by eapply join_step_inv.
  - by apply final_inv.
  - by eapply take_inv.
  - by eapply request_inv.
  - by eapply finish_inv.
Qed.

Lemma load_pairs_ok fuel count stream (s : S) : st_ok s → st_ok (load_pairs fuel count stream s).
Proof.
  revert count stream s. induction fuel as [|fuel IH]; intros count stream s Hs; simpl; [done|].
  repeat case_match; auto using set_ok.
Qed.

Lemma replay_line_ok (s : S) line : st_ok s → st_ok (replay_line s line).
Proof. intros Hs. unfold replay_line. repeat case_match; auto using set_ok, remove_ok. Qed.

Lemma restore_ok st : server_ok st → server_ok (DatabaseServer.restore_data io cfg st).
Proof.
  intros [Hs Hr]. unfold DatabaseServer.restore_data. case_match; (split; [|done]); simpl.
  - unfold load_into. repeat case_match; cbn [fst]; auto. by apply load_pairs_ok.
  - unfold replay. repeat case_match; simpl; auto.
    match goal with |- st_ok (foldl _ _ ?ls) => generalize ls end. intros ls. revert Hs.
    generalize (storage st). induction ls as [|l ls IH]; intros s1 Hs1; simpl; auto using replay_line_ok.
Qed.

Lemma boot_inv s d : st_ok s → inv (boot s d).
Proof.
  intros Hs. split.
  - simpl. apply TcpServer.with_logger_inv. eapply TcpServer.install_inv; [|simpl; by rewrite lookup_insert_eq].
    apply TcpServer.construct_inv; [|done]. split; simpl; set_solver.
  - simpl. rewrite !dom_insert_L. set_solver.
  - apply ThreadPool.make_inv.
  - constructor.
  - intros i. simpl. destruct (_ !! i) as [w|] eqn:E; [|done]. by destruct i as [|[|[|[|]]]]; simplify_eq/=.
  - constructor.
  - simpl. unfold Scheduler.inv. simpl. done.
  - simpl. unfold Scheduler.inv. simpl. done.
  - simpl. apply restore_ok. unfold DatabaseServer.make. destruct (aof_make _ _ _). split; simpl; [done|].
    intros k [v Hv]. simpl in Hv. by rewrite lookup_empty in Hv.
  - simpl. split_and!; try done.
Qed.

Lemma run_inv s d r : st_ok s → rtc step (boot s d) r → inv r.
Proof.
  intros Hs Hr. pose proof (boot_inv s d Hs) as H0. revert H0.
  induction Hr as [|r1 r2 r3 Hst _ IH]; [done|]. intros H1. apply IH. by eapply run_step_inv.
Qed.

(** When [run] returns 0, every accepted connection has been served to its end and
    its descriptor closed exactly once, no thread is left, nothing listens any
    more; and if the snapshot file can be written and the data has no newlines,
    starting the server again restores it. *)
Lemma finished_run s d r s0 :
  st_ok s → rtc step (boot s d) r → phase r = Finished 0 →
  ThreadPool.tasks_ (pool r) = [] ∧ ThreadPool.completed (pool r) ≡ₚ ThreadPool.accepted (pool r) ∧
  Forall2 served_to_end (ThreadPool.completed (pool r)) (ended r) ∧
  off (snapshots r) ∧ off (sweeper r) ∧ TcpServer.listening (process r) = ∅ ∧
  (can_open io path = true → can_read io path = true → st_ok s0 → st_view s0 = ∅ →
   map_Forall (λ k e, no_newline k && no_newline (value e) = true) (st_view (storage (state r))) →
   (Z.of_nat (base.size (st_view (storage (state r)))) ≤ uint64_max)%Z →
   st_view (storage (DatabaseServer.start io cfg s0 (disk (state r)))) = persisted (st_view (storage (state r)))).
Proof.
  intros Hs Hr Hph. pose proof (run_inv s d r Hs Hr) as Hi. pose proof Hi as [H1 H2 H3 H4 H5 H6 H7 H8 H9 H10].
  rewrite Hph in H10. destruct H10 as (Hsn & Hsw & Hl & Hz). destruct (Hz eq_refl) as [Hd Hdisk].
  assert (ThreadPool.tasks_ (pool r) = [] ∧ ThreadPool.completed (pool r) ≡ₚ ThreadPool.accepted (pool r)) as [Ht Hc]
    by (by apply ThreadPool.drained_complete).
  split_and!; try done.
  - apply elem_of_equiv_empty_L. intros fd Hfd. destruct (TcpServer.inv_held H1 eq_refl fd Hfd) as (a & x & Hx & Hrun & _).
    assert (a = tcp) as -> by (apply elem_of_dom_2 in Hx; rewrite H2 in Hx; set_solver).
    unfold loop_running in Hl. rewrite Hx, Hrun in Hl. done.
  - intros Ho Hrd Hs0 Hv0 Hcl Hsz. apply (DatabaseServer.start_from_snapshot io cfg (storage (state r)) s0); try done.
    + apply H9.
    + by apply Hdisk.
Qed.

(** ** Shutdown completes *)

(** The steps that shutting down waits for: those of the main thread and the workers,
    and those of the scheduler thread being joined. *)
Inductive essential : t → t → Prop :=
| essential_serve r r' : serve_step r r' → essential r r'
| essential_sweep clock failed r r' :
    phase r = JoiningSweeper failed → sweep_step clock r = Some r' → essential r r'
| essential_snapshot clock failure failed r r' :
    phase r = JoiningSnapshots failed → snapshot_step clock failure r = Some r' → essential r r'.

(** The steps that may happen in between, any number of times. *)
Inductive other : t → t → Prop :=
| other_snapshot clock failure r r' : live r → snapshot_step clock failure r = Some r' → other r r'
| other_sweep clock r r' : live r → sweep_step clock r = Some r' → other r r'
| other_signal sig r r' : live r → signal_step sig r ⇓ r' → other r r'
| other_doze i r r' : doze_step i r = Some r' → other r r'.

(** Every run from here ends: after any other steps some essential step is possible,
    and after finitely many of these, whichever they are, the process has ended. *)
Inductive ends (r : t) : Prop :=
| ends_step :
    (∀ r1, rtc other r r1 → live r1 → ∃ r2, essential r1 r2) →
    (∀ r1 r2, rtc other r r1 → live r1 → essential r1 r2 → ends r2) → ends r.

(** The server has been stopped. *)
Definition closing (r : t) : Prop := inv r ∧ loop_running r = false ∧ phase r ≠ Binding.

Definition session_work (s : ClientSession.t) : nat :=
  if ClientSession.alive_ s then length (ClientSession.input s) + 2 else 1.
Definition doing_work (d : gmap nat ClientSession.t) : nat := map_fold (λ _ s n, session_work s + n) 0 d.
Definition worker_work (w : ThreadPool.Worker ClientSession.t) : nat :=
  match w with ThreadPool.Exited => 0 | _ => 1 end.
Definition task_work (s : ClientSession.t) : nat := length (ClientSession.input s) + 3.
Definition patience_of {Pc Sh} `{Program Pc Sh} (s : Scheduler.t Pc) : nat :=
  match Scheduler.worker_ s with Some pc => patience pc | None => 0 end.

Definition phase_work (r : t) : nat :=
  match phase r with
  | Binding | Accepting => 21
  | Draining => 20
  | JoiningSweeper _ => 12 + patience_of (Sh := Shared S) (sweeper r)
  | JoiningSnapshots _ => 4 + patience_of (Sh := Shared S) (snapshots r)
  | FinalWrite => 1
  | Finished _ | Terminated => 0
  end.

(** What is left to do. *)
Definition work_left (r : t) : nat :=
  phase_work r + sum_list (task_work <$> ThreadPool.tasks_ (pool r)) +
  sum_list (worker_work <$> ThreadPool.workers_ (pool r)) + doing_work (doing r).

Lemma doing_work_insert d i s : d !! i = None → doing_work (<[i := s]> d) = session_work s + doing_work d.
Proof. intros Hi. unfold doing_work. rewrite map_fold_insert_L; [done|lia|done]. Qed.

Lemma doing_work_delete d i s : d !! i = Some s → doing_work d = session_work s + doing_work (delete i d).
Proof. intros Hi. unfold doing_work. rewrite (map_fold_delete_L _ _ i s d); [done|lia|done]. Qed.

Lemma doing_work_update d i s s' :
  d !! i = Some s → doing_work (<[i := s']> d) + session_work s = doing_work d + session_work s'.
Proof.
  intros Hi. rewrite (doing_work_delete d i s Hi), <-insert_delete_eq.
  rewrite doing_work_insert by apply lookup_delete_eq. lia.
Qed.

Lemma greeted_work s : session_work (ClientSession.write_line "+OK voltdbx ready" s).1 < task_work s.
Proof. unfold session_work, task_work. case_match; rewrite ?ClientSession.write_line_input; lia. Qed.

Lemma take_less i r r' : inv r → take_step i r = Some r' → work_left r' < work_left r.
Proof.
  intros Hr. unfold take_step. pose proof (inv_busy r Hr i) as Hb.
  destruct (ThreadPool.workers_ (pool r) !! i) as [[| | |]|] eqn:Ei; try done.
  unfold ThreadPool.worker_step. rewrite Ei. destruct (ThreadPool.may_go_on _); [|done].
  destruct (ThreadPool.tasks_ (pool r)) as [|task rest] eqn:Et; cbn [mbind option_bind];
    simpl; rewrite list_lookup_insert_eq by (by eapply lookup_lt_Some); intros [= <-];
    unfold work_left, phase_work; simpl; rewrite Et; csimpl.
  - pose proof (sum_list_insert worker_work _ i _ ThreadPool.Exited Ei). simpl in *. lia.
  - pose proof (sum_list_insert worker_work _ i _ (ThreadPool.Running task) Ei). simpl in *.
    rewrite doing_work_insert by done. pose proof (greeted_work task). lia.
Qed.

Lemma request_less clock i r r' : live r → inv r → request_step clock i r = Some r' → work_left r' < work_left r.
Proof.
  intros Hl Hr. unfold request_step. destruct (doing r !! i) as [s|] eqn:Ei; [|done]. cbn [mbind option_bind].
  destruct (ClientSession.alive_ s) eqn:Ea; [|done]. intros [= <-].
  destruct (session_round io clock s (state r)) as [[s' st]| |] eqn:Er.
  - unfold work_left, phase_work. simpl. pose proof (doing_work_update (doing r) i s s' Ei) as Hw.
    assert (session_work s' < session_work s); [|lia]. unfold session_work. rewrite Ea.
    destruct (ClientSession.alive_ s') eqn:Ea'; [|lia].
    pose proof (session_round_shorter _ _ _ _ _ _ Er Ea'). lia.
  - unfold work_left, phase_work, live in *. simpl. destruct (phase r); simpl; lia || done.
  - unfold work_left, phase_work, live in *. simpl. destruct (phase r); simpl; lia || done.
Qed.

Lemma finish_less i r r' : inv r → finish_step i r = Some r' → work_left r' < work_left r.
Proof.
  intros Hr. unfold finish_step. destruct (doing r !! i) as [s|] eqn:Ei; [|done]. cbn [mbind option_bind].
  destruct (ClientSession.alive_ s) eqn:Ea; [done|]. unfold ThreadPool.worker_step.
  pose proof (inv_busy r Hr i) as Hb.
  destruct (ThreadPool.workers_ (pool r) !! i) as [[| |task|]|] eqn:Ew; try congruence.
  cbn [mbind option_bind]. intros [= <-]. unfold work_left, phase_work. simpl.
  pose proof (sum_list_insert worker_work _ i _ ThreadPool.Waiting Ew). simpl in *.
  rewrite (doing_work_delete (doing r) i s Ei). unfold session_work. rewrite Ea. lia.
Qed.

Lemma sweeper_patience (s : Scheduler.t ExpirationScheduler.Pc) : patience_of (Sh := Shared S) s ≤ 5.
Proof. unfold patience_of. destruct (Scheduler.worker_ s) as [[]|]; simpl; lia. Qed.
Lemma snapshots_patience (s : Scheduler.t SnapshotScheduler.Pc) : patience_of (Sh := Shared S) s ≤ 3.
Proof. unfold patience_of. destruct (Scheduler.worker_ s) as [[]|]; simpl; lia. Qed.

Lemma join_less r r' : join_step r = Some r' → work_left r' < work_left r.
Proof.
  unfold join_step. destruct (phase r) as [| | |failed|failed| |code|] eqn:Hph; try done.
  - destruct (drained_dec (pool r)); [|done]. intros [= <-]. unfold work_left, phase_work. simpl. rewrite Hph.
    pose proof (sweeper_patience (ExpirationScheduler.stop (sweeper r))). simpl in *. lia.
  - destruct (Scheduler.join_returns (sweeper r)) as [s|]; [|done]. cbn [mbind option_bind]. intros [= <-].
    unfold work_left, phase_work. simpl. rewrite Hph.
    pose proof (snapshots_patience (Scheduler.stop (snapshots r))). simpl in *. lia.
  - destruct (Scheduler.join_returns (snapshots r)) as [s|]; [|done]. cbn [mbind option_bind]. intros [= <-].
    destruct failed; unfold work_left, phase_work; simpl; rewrite Hph; lia.
Qed.

Lemma join_process r r' : join_step r = Some r' → process r' = process r ∧ phase r' ≠ Binding.
Proof.
  unfold join_step. intros Hj. destruct (phase r) as [| | |failed|failed| |code|]; try done.
  - destruct (drained_dec (pool r)); simplify_eq; done.
  - destruct (Scheduler.join_returns (sweeper r)) as [s|]; [|done]. cbn [mbind option_bind] in Hj. by simplify_eq.
  - destruct (Scheduler.join_returns (snapshots r)) as [s|]; [|done]. cbn [mbind option_bind] in Hj.
    destruct failed; by simplify_eq.
Qed.

Lemma leave_less r : phase r = Accepting → work_left (leave_loop r) < work_left r.
Proof.
  intros Hp. unfold work_left, phase_work, leave_loop, ThreadPool.shutdown. simpl. rewrite Hp.
  destruct (ThreadPool.stopping_ (pool r)); simpl; [lia|]. unfold ThreadPool.notify_all. rewrite <-list_fmap_compose.
  rewrite (list_fmap_ext _ worker_work (ThreadPool.workers_ (pool r))); [lia|]. intros _ w _. by destruct w.
Qed.

(** The main thread and the workers bring the end closer. *)
Lemma serve_closing r r' : closing r → serve_step r r' → closing r' ∧ work_left r' < work_left r.
Proof.
  intros (Hi & Hl & Hb) Hs. assert (inv r') as Hi' by (eapply run_step_inv; [done|by constructor]).
  destruct Hs as [a now r r' Hp Hf Hs|choice a now1 now2 r r' Hp Hr Hst Hs|r Hp _|r r' Hs|r Hp|i r r' Hlv Hs|clock i r r' Hlv Hs
    |i r r' Hlv Hs]; try congruence.
  - split; [done|]. by apply leave_less.
  - destruct (join_process r r' Hs) as [Hpr Hph]. split; [|by apply join_less].
    unfold closing, loop_running in *. by rewrite Hpr.
  - split; [done|]. unfold work_left, phase_work. simpl. rewrite Hp. lia.
  - split; [|by eapply take_less]. unfold take_step in Hs.
    destruct (ThreadPool.workers_ (pool r) !! i) as [[| | |]|]; try done.
    destruct (ThreadPool.worker_step i (pool r)) as [p|]; [|done]. cbn [mbind option_bind] in Hs. injection Hs as <-.
    destruct (ThreadPool.workers_ p !! i) as [[]|]; done.
  - split; [|by eapply request_less]. unfold request_step in Hs. destruct (doing r !! i) as [s|]; [|done].
    cbn [mbind option_bind] in Hs. destruct (ClientSession.alive_ s); [|done]. injection Hs as <-.
    by destruct (session_round _ _ _ _) as [[]| |].
  - split; [|by eapply finish_less]. unfold finish_step in Hs. destruct (doing r !! i) as [s|]; [|done].
    cbn [mbind option_bind] in Hs. destruct (ClientSession.alive_ s); [done|].
    destruct (ThreadPool.worker_step i (pool r)) as [p|]; [|done]. cbn [mbind option_bind] in Hs. by injection Hs as <-.
Qed.

(** A step of a scheduler's thread changes its patience, and only that. *)
Lemma scheduler_patience {Pc Sh} `{ProgramLaws Pc Sh} (s s' : Scheduler.t Pc) (sh sh' : Sh) :
  Scheduler.worker_step s sh = Some (s', sh') → stopping s → patience_of (Sh := Sh) s' < patience_of (Sh := Sh) s.
Proof.
  unfold Scheduler.worker_step, patience_of. intros Hw [Hr _]. rewrite Hr in Hw.
  destruct (Scheduler.worker_ s) as [pc|]; [|done]. destruct (returned pc) eqn:Ep; [done|].
  pose proof (exec_patience pc sh Ep) as Hlt. destruct (exec false pc sh) as [pc' sh1]. by simplify_eq/=.
Qed.

Lemma sweep_closing clock r r' :
  live r → closing r → sweep_step clock r = Some r' →
  closing r' ∧ work_left r' ≤ work_left r ∧
  (∀ failed, phase r = JoiningSweeper failed → work_left r' < work_left r).
Proof.
  intros Hlv (Hi & Hl & Hb) Hs. pose proof (sweep_inv clock r r' Hlv Hi Hs) as Hi'. unfold sweep_step in Hs.
  destruct (Scheduler.worker_step (sweeper r) (shared clock None r)) as [[s sh]|] eqn:Ew; [|done].
  cbn [mbind option_bind] in Hs. injection Hs as <-. split; [done|].
  pose proof (inv_phase r Hi) as Hph. unfold work_left, phase_work. simpl.
  destruct (phase r) as [| | |failed|failed| |code|]; try (split; [lia|done]).
  destruct Hph as (_ & Hst & _). pose proof (scheduler_patience _ _ _ _ Ew Hst). split; [lia|]. intros; lia.
Qed.

Lemma snapshot_closing clock failure r r' :
  live r → closing r → snapshot_step clock failure r = Some r' →
  closing r' ∧ work_left r' ≤ work_left r ∧
  (∀ failed, phase r = JoiningSnapshots failed → work_left r' < work_left r).
Proof.
  intros Hlv (Hi & Hl & Hb) Hs. pose proof (snapshot_inv clock failure r r' Hlv Hi Hs) as Hi'. unfold snapshot_step in Hs.
  pose proof (SnapshotScheduler.program_laws (Z.to_N (snapshot_interval_sec cfg)) path (S := S)) as Hlaws.
  destruct (Scheduler.worker_step (snapshots r) (shared clock failure r)) as [[s sh]|] eqn:Ew; [|done].
  cbn [mbind option_bind] in Hs. injection Hs as <-. split; [done|].
  pose proof (inv_phase r Hi) as Hph. unfold work_left, phase_work. simpl.
  destruct (phase r) as [| | |failed|failed| |code|]; try (split; [lia|done]).
  destruct Hph as (Hst & _). pose proof (scheduler_patience _ _ _ _ Ew Hst). split; [lia|]. intros; lia.
Qed.

Lemma other_closing r r' : closing r → other r r' → closing r' ∧ work_left r' ≤ work_left r.
Proof.
  intros Hc Ho. destruct Ho as [clock failure r r' Hl Hs|clock r r' Hl Hs|sig r r' Hl Hs|i r r' Hs].
  - destruct (snapshot_closing clock failure r r' Hl Hc Hs) as (? & ? & _). done.
  - destruct (sweep_closing clock r r' Hl Hc Hs) as (? & ? & _). done.
  - destruct Hc as (Hi & Hr & Hb). pose proof (signal_inv sig r r' Hl Hi Hs) as Hi'.
    unfold signal_step in Hs. apply bind_Ret in Hs as (p & Hp & [= <-]).
    pose proof (TcpServer.deliver_no_new _ _ _ Hp) as Hn.
    pose proof (no_new_loop _ _ Hn) as Hlr. unfold loop_running in Hr. rewrite Hr in Hlr.
    destruct (TcpServer.killed p).
    + split; [|unfold work_left, phase_work; simpl; lia]. split; [done|]. split; [|done].
      apply not_true_is_false. intros E. discriminate (Hlr E).
    + split; [|unfold work_left, phase_work; simpl; lia]. split; [done|]. split; [|done].
      apply not_true_is_false. intros E. discriminate (Hlr E).
  - destruct Hc as (Hi & Hr & Hb). pose proof (doze_inv i r r' Hi Hs) as Hi'. unfold doze_step in Hs.
    destruct (phase r) eqn:Hph; try done. destruct (ThreadPool.sleep_step i (pool r)) as [p|] eqn:Es; [|done].
    cbn [mbind option_bind] in Hs. injection Hs as <-. split; [split; [done|]; split; [done|]; simpl; by rewrite Hph|].
    unfold work_left, phase_work. simpl. unfold ThreadPool.sleep_step in Es.
    destruct (ThreadPool.workers_ (pool r) !! i) as [[| | |]|] eqn:Ei; try done; [destruct (ThreadPool.may_go_on _); [done|]|];
      injection Es as <-; simpl.
    + pose proof (sum_list_insert worker_work _ i _ ThreadPool.Asleep Ei). simpl in *. lia.
    + pose proof (sum_list_insert worker_work _ i _ ThreadPool.Waiting Ei). simpl in *. lia.
Qed.

Lemma others_closing r r' : closing r → rtc other r r' → closing r' ∧ work_left r' ≤ work_left r.
Proof.
  intros Hc Hr. induction Hr as [|r1 r2 r3 Ho _ IH]; [done|].
  destruct (other_closing r1 r2 Hc Ho) as [Hc2 Hw]. destruct (IH Hc2). split; [done|lia].
Qed.

(** Some essential step is possible. *)
Lemma worker_can_move r i w :
  inv r → live r → ThreadPool.stopping_ (pool r) = true →
  ThreadPool.workers_ (pool r) !! i = Some w → w ≠ ThreadPool.Exited → ∃ r', serve_step r r'.
Proof.
  intros Hi Hl Hs Hw Hne. pose proof (inv_busy r Hi i) as Hb. rewrite Hw in Hb. destruct w as [| |task|]; [| | |done].
  - destruct (take_step i r) as [r'|] eqn:E; [by exists r'; eapply step_take|].
    unfold take_step, ThreadPool.worker_step, ThreadPool.may_go_on in E. rewrite Hw, Hs in E. simpl in E.
    by destruct (ThreadPool.tasks_ (pool r)).
  - by destruct (ThreadPool.inv_awake _ (inv_pool r Hi) Hs (list_elem_of_lookup_2 _ _ _ Hw)).
  - destruct Hb as (s & Hd & _). destruct (ClientSession.alive_ s) eqn:Ea.
    + eexists. apply (step_request (λ _, 0%Z) i); [done|]. unfold request_step. rewrite Hd. cbn [mbind option_bind].
      by rewrite Ea.
    + eexists. apply (step_finish i); [done|]. unfold finish_step. rewrite Hd. cbn [mbind option_bind]. rewrite Ea.
      unfold ThreadPool.worker_step. by rewrite Hw.
Qed.

Lemma joined_or_moves {Pc Sh} `{ProgramLaws Pc Sh} (s : Scheduler.t Pc) (sh : Sh) :
  Scheduler.inv s → stopping s →
  is_Some (Scheduler.join_returns s) ∨ is_Some (Scheduler.worker_step s sh).
Proof.
  unfold Scheduler.inv, stopping, Scheduler.join_returns, Scheduler.worker_step. intros Hi [Hr [pc Hpc]].
  rewrite Hpc in *. destruct Hi as [-> _]. rewrite Hr. simpl. destruct (returned pc); [left; eauto|right].
  destruct (exec _ _ _). eauto.
Qed.

Lemma closing_progress r : closing r → live r → ∃ r', essential r r'.
Proof.
  intros (Hi & Hl & Hb) Hlv. pose proof (inv_phase r Hi) as Hph.
  pose proof (SnapshotScheduler.program_laws (Z.to_N (snapshot_interval_sec cfg)) path (S := S)) as Hlaws.
  destruct (phase r) as [| | |failed|failed| |code|] eqn:E; try (by unfold live in Hlv; rewrite E in Hlv).
  - eexists. apply essential_serve, step_leave; done.
  - destruct Hph as (_ & _ & Hs & _). destruct (drained_dec (pool r)) eqn:Ed.
    + eexists. apply essential_serve, step_join. unfold join_step. by rewrite E, Ed.
    + assert (∃ i w, ThreadPool.workers_ (pool r) !! i = Some w ∧ w ≠ ThreadPool.Exited) as (i & w & Hw & Hne).
      { destruct (decide (Exists (λ w, w ≠ ThreadPool.Exited) (ThreadPool.workers_ (pool r)))) as [He|Hn].
        - apply list.Exists_exists in He as (w & Hin & Hw). apply list_elem_of_lookup in Hin as [i Hin]. eauto.
        - exfalso. apply not_true_iff_false in Ed. apply Ed, drained_dec_spec, Forall_forall. intros w Hin.
          destruct (decide (w = ThreadPool.Exited)) as [|Hw]; [done|]. destruct Hn. apply list.Exists_exists. eauto. }
      destruct (worker_can_move r i w) as [r' Hr']; try done. exists r'. by apply essential_serve.
  - destruct Hph as (_ & Hst & _). destruct (joined_or_moves (sweeper r) (shared (λ _, 0%Z) None r) (inv_sweeper r Hi) Hst)
      as [[s Hj]|[[s sh] Hw]].
    + eexists. apply essential_serve, step_join. unfold join_step. rewrite E, Hj. done.
    + eexists. apply (essential_sweep (λ _, 0%Z) failed); [done|]. unfold sweep_step. by rewrite Hw.
  - destruct Hph as (Hst & _). destruct (joined_or_moves (snapshots r) (shared (λ _, 0%Z) None r) (inv_snapshots r Hi) Hst)
      as [[s Hj]|[[s sh] Hw]].
    + eexists. apply essential_serve, step_join. unfold join_step. rewrite E, Hj. done.
    + eexists. apply (essential_snapshot (λ _, 0%Z) None failed); [done|]. unfold snapshot_step. by rewrite Hw.
  - eexists. by apply essential_serve, step_final.
Qed.

Lemma essential_closing r r' : closing r → live r → essential r r' → closing r' ∧ work_left r' < work_left r.
Proof.
  intros Hc Hl He. destruct He as [r r' Hs|clock failed r r' Hp Hs|clock failure failed r r' Hp Hs].
  - by apply serve_closing.
  - destruct (sweep_closing clock r r' Hl Hc Hs) as (? & _ & Hlt). eauto.
  - destruct (snapshot_closing clock failure r r' Hl Hc Hs) as (? & _ & Hlt). eauto.
Qed.

Lemma closing_ends n r : work_left r < n → closing r → ends r.
Proof.
  revert r. induction n as [|n IH]; intros r Hn Hc; [lia|]. constructor.
  { intros r1 Ho Hl. destruct (others_closing r r1 Hc Ho). by apply closing_progress. }
  intros r1 r2 Ho Hl He. destruct (others_closing r r1 Hc Ho) as [Hc1 Hw1].
  destruct (essential_closing r1 r2 Hc1 Hl He) as [Hc2 Hw2]. apply IH; [lia|done].
Qed.

(** C9: a stopped server shuts down once its clients stop sending: from every
    reachable state in which a signal has stopped the listener, whatever sessions
    are queued or being served, if their clients send no more bytes than they have
    sent (a read that finds none ends a session), then however the scheduler threads,
    further signals and workers that fall asleep interleave, the process ends: until
    then one of the threads that shutting down waits for can move, no worker being
    left asleep on the condition variable, and every sequence of their moves is
    finite.  A client that keeps sending keeps the server from ending. *)
Theorem shutdown_completes s d r :
  st_ok s → rtc step (boot s d) r → loop_running r = false → phase r ≠ Binding → ends r.
Proof.
  intros Hs Hr Hl Hb. apply (closing_ends (Datatypes.S (work_left r))); [lia|].
  split; [by eapply run_inv|done].
Qed.

(** C10: a client that keeps sending keeps the server from shutting down: the request
    loop never looks whether the server is stopping.  In every reachable state in which
    a worker serves an open session that has no bytes left to read, stopped or not, an
    empty line from its client and the turn of the loop that reads it lead back to the
    same state, and meanwhile the join of the workers cannot return: this may go on for
    ever. *)
Theorem busy_client_blocks_shutdown s d r i session :
  st_ok s → rtc step (boot s d) r → doing r !! i = Some session →
  ClientSession.alive_ session = true → ClientSession.input session = [] →
  (∃ r1, arrive_step lf i r = Some r1 ∧ ∀ clock, request_step clock i r1 = Some r) ∧
  (phase r = Draining → join_step r = None).
Proof.
  intros Hs Hr Hd Ha Hin. pose proof (run_inv s d r Hs Hr) as Hi. split.
  - unfold arrive_step. rewrite Hd. cbn [mbind option_bind]. eexists. split; [done|]. intros clock.
    unfold request_step. simpl. rewrite lookup_insert_eq. cbn [mbind option_bind]. simpl. rewrite Ha.
    unfold session_round, ClientSession.read_line. simpl. rewrite Ha, Hin. simpl. rewrite Ha. simpl.
    unfold with_state, with_doing, ClientSession.with_io. simpl.
    rewrite insert_insert_eq, insert_id; [by destruct r|]. rewrite Hd. destruct session. simpl in *. by subst.
  - intros Hph. unfold join_step. rewrite Hph. destruct (drained_dec (pool r)) eqn:E; [|done].
    apply drained_dec_spec in E. unfold ThreadPool.drained in E. rewrite Forall_lookup in E.
    pose proof (inv_busy r Hi i) as Hb. destruct (ThreadPool.workers_ (pool r) !! i) as [w|] eqn:Ew; [|congruence].
    rewrite (E i w Ew) in Hb. congruence.
Qed.

End Run.
Arguments t : clear implicits.
End Run.

(** ** A server that starts, is interrupted and stops *)

Section Witnesses.
Import Run.
#[local] Existing Instance HashTable.sum_hash.
#[local] Abbreviation small := StorageEngine.small.

#[local] Abbreviation demo_step := (step all_io default_config).

Definition loopback_answers : TcpServer.Answers :=
  TcpServer.mkAnswers 3 0 (λ _, Some 16777343%Z) (λ _ _, 0%Z) 0 "".

(** The states of the run. *)
Definition after (o : Outcome (Run.t StorageEngine.t)) (r : Run.t StorageEngine.t) : Run.t StorageEngine.t :=
  match o with Ret r' => r' | _ => r end.
Definition demo0 : Run.t StorageEngine.t := boot all_io default_config small ∅.
Definition demo1 : Run.t StorageEngine.t := after (bind_step default_config loopback_answers 0%Z demo0) demo0.
Definition demo2 : Run.t StorageEngine.t := after (signal_step TcpServer.SIGINT demo1) demo1.

Lemma demo_interrupted : rtc demo_step demo0 demo2.
Proof.
  eapply rtc_l; [|eapply rtc_l; [|constructor]].
  - apply step_serve, (step_bind _ _ loopback_answers 0%Z demo0 demo1); [reflexivity|set_solver|vm_compute; reflexivity].
  - apply (step_signal _ _ TcpServer.SIGINT demo1 demo2); [exact I|vm_compute; reflexivity].
Qed.

Lemma shutdown_completes_witness : rtc demo_step demo0 demo2 ∧ ends all_io default_config demo2.
Proof.
  split; [apply demo_interrupted|].
  apply (shutdown_completes all_io default_config small ∅ demo2);
    [apply StorageEngine.small_ok|apply demo_interrupted|vm_compute; reflexivity|vm_compute; discriminate].
Defined.

(** A connection is served, the server is interrupted, the client stays. *)
Definition quiet_client : Accepted :=
  mkAccepted 7 "10.0.0.1" (htons 5000) (Some ("10.0.0.1", htons 5000)) 2 [] [] false.
Definition served1 : Run.t StorageEngine.t :=
  after (accept_step 0 quiet_client 0%Z 0%Z (default demo1 (doze_step 0 demo1))) demo1.
Definition served2 : Run.t StorageEngine.t := default served1 (take_step 0 served1).
Definition served3 : Run.t StorageEngine.t := leave_loop (after (signal_step TcpServer.SIGINT served2) served2).

Lemma demo_served : rtc demo_step demo0 served3.
Proof.
  eapply rtc_l.
  { apply step_serve, (step_bind _ _ loopback_answers 0%Z demo0 demo1); [reflexivity|set_solver|vm_compute; reflexivity]. }
  eapply rtc_l; [apply (step_doze _ _ 0 demo1 (default demo1 (doze_step 0 demo1))); vm_compute; reflexivity|].
  eapply rtc_l; [apply step_serve, (step_accept _ _ 0 quiet_client 0%Z 0%Z _ served1); vm_compute; reflexivity|].
  eapply rtc_l; [apply step_serve, (step_take _ _ 0 _ served2); [exact I|vm_compute; reflexivity]|].
  eapply rtc_l; [apply (step_signal _ _ TcpServer.SIGINT served2); [exact I|vm_compute; reflexivity]|].
  eapply rtc_l; [apply step_serve, step_leave; vm_compute; reflexivity|]. constructor.
Qed.

Lemma busy_client_blocks_shutdown_witness :
  phase served3 = Draining ∧ join_step default_config served3 = None ∧
  ∃ r1, arrive_step lf 0 served3 = Some r1 ∧ ∀ clock, request_step all_io clock 0 r1 = Some served3.
Proof.
  destruct (doing served3 !! 0) as [session|] eqn:E; [|vm_compute in E; discriminate E].
  assert (ClientSession.alive_ session = true ∧ ClientSession.input session = []) as [Ha Hin]
    by (vm_compute in E; injection E as <-; split; reflexivity).
  destruct (busy_client_blocks_shutdown all_io default_config small ∅ served3 0 session) as [Hc Hj];
    [apply StorageEngine.small_ok|apply demo_served|exact E|exact Ha|exact Hin|].
  split; [reflexivity|]. split; [apply Hj; reflexivity|exact Hc].
Defined.

(** The rest of the run: the workers return, the schedulers are joined. *)
Definition demo3 : Run.t StorageEngine.t :=
  foldl (λ r i, default r (take_step i r)) (leave_loop demo2) [0; 1; 2; 3].
Definition demo4 : Run.t StorageEngine.t := default demo3 (join_step default_config demo3).
Definition demo5 : Run.t StorageEngine.t := default demo4 (sweep_step all_io (λ _, 0%Z) demo4).
Definition demo6 : Run.t StorageEngine.t := default demo5 (join_step default_config demo5).
Definition demo7 : Run.t StorageEngine.t := default demo6 (snapshot_step all_io default_config (λ _, 0%Z) None demo6).
Definition demo8 : Run.t StorageEngine.t := default demo7 (join_step default_config demo7).
Definition demo9 : Run.t StorageEngine.t := final_step all_io default_config demo8.

Lemma demo_drained : rtc demo_step demo2 demo3.
Proof.
  eapply rtc_l; [apply step_serve, step_leave; vm_compute; reflexivity|]. unfold demo3. cbn [foldl].
  eapply rtc_l; [apply step_serve, (step_take _ _ 0); [exact I|vm_compute; reflexivity]|].
  eapply rtc_l; [apply step_serve, (step_take _ _ 1); [exact I|vm_compute; reflexivity]|].
  eapply rtc_l; [apply step_serve, (step_take _ _ 2); [exact I|vm_compute; reflexivity]|].
  eapply rtc_l; [apply step_serve, (step_take _ _ 3); [exact I|vm_compute; reflexivity]|].
  match goal with |- rtc _ ?x ?y => replace y with x by (vm_compute; reflexivity) end. constructor.
Qed.

Lemma demo_stopped : rtc demo_step demo3 demo9.
Proof.
  eapply rtc_l; [apply step_serve, (step_join _ _ demo3 demo4); vm_compute; reflexivity|].
  eapply rtc_l; [apply (step_sweep _ _ (λ _, 0%Z) demo4 demo5); [exact I|vm_compute; reflexivity]|].
  eapply rtc_l; [apply step_serve, (step_join _ _ demo5 demo6); vm_compute; reflexivity|].
  eapply rtc_l; [apply (step_snapshot _ _ (λ _, 0%Z) None demo6 demo7); [exact I|vm_compute; reflexivity]|].
  eapply rtc_l; [apply step_serve, (step_join _ _ demo7 demo8); vm_compute; reflexivity|].
  eapply rtc_l; [apply step_serve, (step_final _ _ demo8); vm_compute; reflexivity|]. constructor.
Qed.

Lemma demo_runs : rtc demo_step demo0 demo9.
Proof. etrans; [apply demo_interrupted|]. etrans; [apply demo_drained|apply demo_stopped]. Qed.

End Witnesses.
