(* ===== verification/Crash.v ===== *)
(** * Crashes while files are written (src/persistence)

    The snapshot writer truncates the snapshot file and writes it from the beginning;
    the log is appended to.  A crash leaves a prefix of what was to be written:
    this file says what the next start makes of such a prefix, and what it makes
    of a log when there is a snapshot. *)

From S2P Require Import Prelude CppStd Memory Table Scanner Engine Clients Wire Persistence Pubsub Admin Dispatcher Session Server.

(** ** Prefixes of text files *)

Lemma str_take_le n a b : n ≤ String.length a → str_take n (a +:+ b) = str_take n a.
Proof.
  revert n. induction a as [|c a IH]; intros n Hn.
  - simpl in Hn. replace n with 0 by lia. by destruct b.
  - destruct n as [|n]; [done|]. rewrite string_app_cons. cbn [str_take]. rewrite IH; [done|]. simpl in Hn. lia.
Qed.

Lemma str_take_gt n a b : str_take (String.length a + n) (a +:+ b) = a +:+ str_take n b.
Proof. induction a as [|c a IH]; [done|]. rewrite !string_app_cons. simpl. by rewrite IH. Qed.

Lemma str_take_forallb P n s : str_forallb P s = true → str_forallb P (str_take n s) = true.
Proof.
  revert n. induction s as [|c s IH]; intros [|n] Hs; simpl in *; try done. bsimp.
  apply andb_true_iff. split; [done|by apply IH].
Qed.

Lemma getline_last line : no_newline line = true → line ≠ "" → getline line = Some (line, "").
Proof.
  intros Hl Hne. unfold getline. destruct line as [|c line]; [done|].
  rewrite <-(string_app_nil_r (String c line)) at 1.
  rewrite (str_span_app _ (String c line) ""); [done|exact Hl|done].
Qed.

(** Reading a line from a prefix: nothing, the beginning of the line, or the line. *)
Lemma getline_torn n line rest :
  no_newline line = true →
  getline (str_take n (line +:+ lf +:+ rest)) =
  if (n =? 0)%nat then None
  else if (n <=? String.length line)%nat then Some (str_take n line, "")
  else Some (line, str_take (n - String.length line - 1) rest).
Proof.
  intros Hl. destruct (Nat.eqb_spec n 0) as [->|Hn]; [done|].
  destruct (Nat.leb_spec n (String.length line)) as [Hle|Hgt].
  - rewrite str_take_le by done. apply getline_last; [by apply str_take_forallb|].
    destruct n, line; simpl in *; done || lia.
  - replace n with (String.length line + Datatypes.S (n - String.length line - 1)) at 1 by lia.
    rewrite str_take_gt. by apply getline_app.
Qed.

(** A prefix of a file of lines: complete lines, then perhaps the beginning of the
    next one. *)
Definition torn_of (ls : list string) (j : nat) (torn : option string) : Prop :=
  match torn with
  | None => True
  | Some t => ∃ l m, ls !! j = Some l ∧ 0 < m ≤ String.length l ∧ t = str_take m l
  end.

Lemma torn_lines n ls :
  Forall (λ l, no_newline l = true) ls →
  ∃ j torn, lines (str_take n (unlines ls)) = take j ls ++ option_list torn ∧ torn_of ls j torn.
Proof.
  intros Hf. revert n. induction Hf as [|l ls Hl _ IH]; intros n.
  - exists 0, None. simpl. by destruct n.
  - cbn [unlines foldr]. fold (unlines ls).
    assert (lines (str_take n (l +:+ lf +:+ unlines ls)) =
      match getline (str_take n (l +:+ lf +:+ unlines ls)) with
      | None => [] | Some (x, rest) => x :: lines rest end) as ->.
    { unfold lines at 1. cbn [lines_fuel]. destruct (getline _) as [[x rest]|] eqn:E; [|done].
      f_equal. apply lines_fuel_enough; [|lia]. by apply getline_shorter in E. }
    rewrite getline_torn by done. destruct (Nat.eqb_spec n 0); [by exists 0, None|].
    destruct (Nat.leb_spec n (String.length l)).
    + exists 0, (Some (str_take n l)). split; [done|]. exists l, n. split; [done|]. split; [lia|done].
    + destruct (IH (n - String.length l - 1)) as (j & torn & -> & Ht). by exists (Datatypes.S j), torn.
Qed.

Section Crash.
Context {S : Type} `{StorageLaws S}.

(** ** A torn snapshot *)

(** The file after a crash that leaves [n] bytes of the new snapshot. *)
Definition torn_snapshot (n : nat) (path : string) (s : S) (d : Disk) : Disk :=
  <[path := str_take n (snapshot_content (st_dump s))]> d.

(** Some pairs in order, and perhaps one more with a value that is cut short. *)
Definition torn_pairs (pairs : list (string * string)) (j : nat) (last : list (string * string)) : Prop :=
  last = [] ∨ ∃ k v m, pairs !! j = Some (k, v) ∧ 0 < m ≤ String.length v ∧ last = [(k, str_take m v)].

Definition pairs_text (pairs : list (string * string)) : string :=
  foldr (λ p out, p.1 +:+ lf +:+ p.2 +:+ lf +:+ out) "" pairs.

Lemma load_pairs_empty fuel count (s : S) : load_pairs fuel count "" s = s.
Proof. destruct fuel; simpl; [done|]. by case_match. Qed.

Lemma load_pairs_torn fuel count n pairs (s : S) :
  Forall (λ p, no_newline p.1 && no_newline p.2 = true) pairs →
  ∃ j last, load_pairs fuel count (str_take n (pairs_text pairs)) s = set_all (take j pairs ++ last) s ∧
    torn_pairs pairs j last.
Proof.
  intros Hf. revert fuel count n s. induction Hf as [|[k v] pairs Hkv _ IH]; intros fuel count n s.
  { exists 0, []. simpl. destruct n; rewrite load_pairs_empty; (split; [done|by left]). }
  assert (∃ j last, s = set_all (take j ((k, v) :: pairs) ++ last) s ∧ torn_pairs ((k, v) :: pairs) j last) as Hnone
    by (exists 0, []; split; [done|by left]).
  destruct fuel as [|fuel]; [done|]. cbn [load_pairs]. destruct (0 <? count)%Z; [|done].
  simpl in Hkv. bsimp. cbn [pairs_text foldr fst snd]. fold (pairs_text pairs).
  rewrite getline_torn by done. destruct (n =? 0)%nat; [done|].
  destruct (n <=? String.length k)%nat; [done|].
  rewrite getline_torn by done. destruct (Nat.eqb_spec (n - String.length k - 1) 0) as [|Hn]; [done|].
  destruct (Nat.leb_spec (n - String.length k - 1) (String.length v)) as [Hle|Hgt].
  - exists 0, [(k, str_take (n - String.length k - 1) v)]. rewrite load_pairs_empty. split; [done|].
    right. exists k, v, (n - String.length k - 1). split; [done|]. split; [lia|done].
  - destruct (IH fuel (count - 1)%Z (n - String.length k - 1 - String.length v - 1) (st_set k v s).1)
      as (j & last & -> & Ht). exists (Datatypes.S j), last. split; [done|]. exact Ht.
Qed.

Lemma header_length : String.length "VOLTDBX_SNAPSHOT_V1" = 19.
Proof. done. Qed.

(** A crash while a snapshot is written goes unnoticed: the file is overwritten
    in place, and loading what is left of it succeeds as soon as the first line is
    there, restoring only some of the pairs in the order they were written, the
    last of them perhaps with a value that is cut short; only a shorter file is
    rejected, and then nothing is restored. *)
Theorem torn_snapshot_loads io n path (s s0 : S) d :
  can_read io path = true →
  Forall (λ p, no_newline p.1 && no_newline p.2 = true) (st_dump s) →
  ∃ j last, load_into io path (torn_snapshot n path s d) s0 =
      (set_all (take j (st_dump s) ++ last) s0, (19 <=? n)%nat) ∧
    torn_pairs (st_dump s) j last ∧ ((n < 19)%nat → j = 0 ∧ last = []).
Proof.
  intros Hr Hf. unfold load_into, torn_snapshot. rewrite lookup_insert_eq, Hr. cbn [negb].
  unfold snapshot_content, getline_or_empty. rewrite getline_torn by done. rewrite header_length.
  fold (pairs_text (st_dump s)).
  destruct (Nat.eqb_spec n 0) as [->|Hn0].
  { exists 0, []. cbn. split; [done|]. split; [by left|done]. }
  destruct (Nat.leb_spec n 19) as [Hle|Hgt]; cbn [from_option id].
  - destruct (Nat.leb_spec 19 n) as [Hge|Hlt].
    + assert (n = 19) as -> by lia. exists 0, []. split; [reflexivity|]. split; [by left|lia].
    + exists 0, []. assert ((str_take n "VOLTDBX_SNAPSHOT_V1" =? "VOLTDBX_SNAPSHOT_V1")%string = false) as ->.
      { apply String.eqb_neq. intros E%(f_equal String.length).
        do 19 (destruct n as [|n]; [discriminate E|]). lia. }
      split; [done|]. split; [by left|done].
  - rewrite String.eqb_refl. cbn [negb]. rewrite (proj2 (Nat.leb_le 19 n)) by lia.
    rewrite getline_torn by apply size_no_newline.
    destruct (_ =? 0)%nat; cbn [from_option id].
    { exists 0, []. rewrite load_pairs_empty. split; [done|]. split; [by left|lia]. }
    destruct (_ <=? _)%nat; cbn [from_option id].
    { exists 0, []. rewrite load_pairs_empty. split; [done|]. split; [by left|lia]. }
    destruct (load_pairs_torn (Datatypes.S (String.length (str_take (n - 19 - 1 -
      String.length (size_to_string (length (st_dump s))) - 1) (pairs_text (st_dump s)))))
      (extract_size (size_to_string (length (st_dump s))))
      (n - 19 - 1 - String.length (size_to_string (length (st_dump s))) - 1) (st_dump s) s0 Hf)
      as (j & last & Hl & Ht). exists j, last. rewrite Hl. split; [done|]. split; [done|lia].
Qed.

(** ** A torn log *)

(** Replaying a prefix of the log replays the complete lines, and then the beginning
    of the next line as if it were a line. *)
Theorem torn_log_replays io n ls (a : AofLog) (s0 : S) d :
  can_read io (log_path_ a) = true → Forall (λ l, no_newline l = true) ls →
  ∃ j torn, replay io a (<[log_path_ a := str_take n (unlines ls)]> d) s0 =
      (foldl replay_line s0 (take j ls ++ option_list torn), true) ∧ torn_of ls j torn.
Proof.
  intros Hr Hf. unfold replay. rewrite lookup_insert_eq, Hr.
  destruct (torn_lines n ls Hf) as (j & torn & -> & Ht). eauto.
Qed.

Lemma unlines_snoc ls l : unlines (ls ++ [l]) = unlines ls +:+ l +:+ lf.
Proof. rewrite unlines_app. cbn [unlines foldr]. by rewrite string_app_nil_r. Qed.

(** A torn DEL removes another key: when the last line of the log is the deletion
    of a key and the crash cuts it inside the key, replaying the log deletes the
    key that is the part before the cut, which no one has deleted, and keeps the
    one that was deleted. *)
Theorem torn_delete_removes_other io ls k1 k2 (a : AofLog) (s0 : S) d :
  can_read io (log_path_ a) = true → Forall (λ l, no_newline l = true) ls →
  no_newline (k1 +:+ k2) = true → k1 ≠ "" →
  ∃ n, n < String.length (unlines (ls ++ [del_line (k1 +:+ k2)])) ∧
    replay io a (<[log_path_ a := str_take n (unlines (ls ++ [del_line (k1 +:+ k2)]))]> d) s0 =
    ((st_remove k1 (foldl replay_line s0 ls)).1, true).
Proof.
  intros Hr Hf Hk Hne. exists (String.length (unlines ls) + String.length (del_line k1)).
  assert (unlines (ls ++ [del_line (k1 +:+ k2)]) = unlines ls +:+ (del_line k1 +:+ (k2 +:+ lf))) as ->.
  { rewrite unlines_snoc. unfold del_line. by rewrite <-!string_app_assoc. }
  split; [rewrite !string_app_length; simpl; lia|].
  rewrite str_take_gt, str_take_app. unfold replay. rewrite lookup_insert_eq, Hr.
  rewrite lines_unlines by done.
  assert (no_newline (del_line k1) = true) as Hn.
  { apply del_line_no_newline. unfold no_newline in *. rewrite str_forallb_app in Hk. by bsimp. }
  assert (lines (del_line k1) = [del_line k1]) as ->.
  { unfold lines. cbn [lines_fuel]. by rewrite getline_last. }
  by rewrite foldl_app.
Qed.

(** ** Log and snapshot *)

(** When there is a snapshot file, it is all that a start reads. *)
Lemma start_reads_snapshot io cfg (s0 : S) d content :
  d !! snapshot_path (data_dir cfg) = Some content →
  storage (DatabaseServer.start io cfg s0 d) =
  (load_into io (snapshot_path (data_dir cfg)) {[ snapshot_path (data_dir cfg) := content ]} s0).1.
Proof.
  intros Hd. unfold DatabaseServer.start, DatabaseServer.restore_data, DatabaseServer.make.
  destruct (aof_make io (data_dir cfg) d) as [a d'] eqn:Ea. cbn [disk storage with_storage].
  assert (d' !! snapshot_path (data_dir cfg) = Some content) as Hd'.
  { unfold aof_make in Ea. case_match; simplify_eq; [|done].
    unfold open_append. by rewrite lookup_insert_ne by (by apply DatabaseServer.path_join_ne). }
  unfold has_snapshot. rewrite Hd', bool_decide_true by eauto. cbn [storage with_storage].
  unfold load_into. by rewrite Hd', lookup_singleton_eq.
Qed.

(** Once there is a snapshot the log is never read: the data that a start restores
    does not depend on the contents of the append-only log, even if the log is
    newer than the snapshot (as after BGREWRITEAOF and a crash). *)
Theorem snapshot_hides_log io cfg (s0 : S) d snapshot content :
  d !! snapshot_path (data_dir cfg) = Some snapshot →
  storage (DatabaseServer.start io cfg s0 (<[path_join (data_dir cfg) "append.aof" := content]> d)) =
  storage (DatabaseServer.start io cfg s0 d).
Proof.
  intros Hd. rewrite !(start_reads_snapshot _ _ _ _ snapshot); [done|done|].
  by rewrite lookup_insert_ne by (by apply DatabaseServer.path_join_ne).
Qed.

End Crash.

Section Witnesses.
#[local] Existing Instance HashTable.sum_hash.

Lemma torn_snapshot_loads_witness :
  ∃ j last, load_into all_io "snapshot.vdb" (torn_snapshot 24 "snapshot.vdb" StorageEngine.timed ∅) StorageEngine.small =
      (set_all (take j (st_dump StorageEngine.timed) ++ last) StorageEngine.small, true).
Proof.
  destruct (torn_snapshot_loads all_io 24 "snapshot.vdb" StorageEngine.timed StorageEngine.small ∅)
    as (j & last & Hl & _); [reflexivity|vm_compute; repeat constructor|].
  exists j, last. exact Hl.
Defined.

Lemma torn_delete_removes_other_witness :
  ∃ n, replay all_io (mkAof "append.aof" true)
      (<["append.aof" := str_take n (unlines ([set_line "user:1" "a"; set_line "user:10" "b"] ++ [del_line ("user:1" +:+ "0")]))]> ∅)
      StorageEngine.small =
    ((st_remove "user:1" (foldl replay_line StorageEngine.small [set_line "user:1" "a"; set_line "user:10" "b"])).1, true).
Proof.
  destruct (torn_delete_removes_other all_io [set_line "user:1" "a"; set_line "user:10" "b"] "user:1" "0"
    (mkAof "append.aof" true) StorageEngine.small ∅) as (n & _ & Hn);
    [reflexivity|repeat constructor|reflexivity|discriminate|].
  exists n. exact Hn.
Defined.

Lemma snapshot_hides_log_witness :
  let d := {[ "./data/snapshot.vdb" := snapshot_content [] ]} in
  storage (DatabaseServer.start all_io default_config StorageEngine.small
    (<["./data/append.aof" := set_line "k" "v" +:+ lf]> d)) =
  storage (DatabaseServer.start all_io default_config StorageEngine.small d).
Proof.
  intros d. apply (snapshot_hides_log all_io default_config StorageEngine.small d (snapshot_content [])). reflexivity.
Defined.

End Witnesses.
