(* ===== verification/Durability.v ===== *)
(** * What survives the process

    Two facts about every state the server can reach, whatever the clients send:
    no key or value holds a newline (commands are cut into words, files into
    lines), and the snapshot file is the one the process found, a complete snapshot
    of an earlier moment of the run, or the beginning of one whose output failed.  With them, the guarantees of a clean
    shutdown and of a crash are about every run, without conditions on the data. *)

From S2P Require Import Prelude CppStd Logger Memory Table Scanner Engine Clients Wire Persistence Pubsub Admin Dispatcher Session Net Accept Schedulers Server Lifecycle Crash.

(** ** Text without newlines *)

Lemma token_no_newline t : is_token t = true → no_newline t = true.
Proof.
  unfold is_token, no_newline. intros Ht. bsimp.
  match goal with H : str_forallb _ t = true |- _ => revert H end.
  apply str_forallb_impl. intros c Hc. destruct (Ascii.eqb_spec c newline) as [->|]; [|done]. discriminate Hc.
Qed.

Lemma parse_line_args raw cmd : parse_line raw = Some cmd → Forall (λ a, no_newline a = true) (args cmd).
Proof.
  unfold parse_line. case_match; [done|]. pose proof (tokenize_fuel_tokens (S (String.length (trim raw))) (trim raw)) as Hf.
  fold (tokenize (trim raw)) in Hf. destruct (tokenize (trim raw)) as [|nm rest]; [done|].
  intros [= <-]. simpl. apply Forall_cons in Hf as [_ Hf].
  eapply Forall_impl; [exact Hf|]. intros t. apply token_no_newline.
Qed.

Lemma no_newline_app a b : no_newline (a +:+ b) = no_newline a && no_newline b.
Proof. apply str_forallb_app. Qed.

Lemma join_words_no_newline first rest :
  no_newline first = true → Forall (λ a, no_newline a = true) rest → no_newline (join_words first rest) = true.
Proof.
  intros Hf Hr. unfold join_words. revert first Hf. induction Hr as [|w rest Hw _ IH]; intros first Hf; [done|].
  simpl. apply IH. by rewrite !no_newline_app, Hf, Hw.
Qed.

Lemma format_value_no_newline v : no_newline (format_value v) = true.
Proof.
  apply to_string_forallb; [|done]. intros d Hd. apply negb_true_iff.
  pose proof (digit_char_not_space d Hd) as Hs. by destruct (Ascii.eqb_spec (digit_char d) newline) as [E|]; [rewrite E in Hs|].
Qed.

Lemma getline_no_newline s l r : getline s = Some (l, r) → no_newline l = true.
Proof.
  unfold getline. destruct s as [|c s]; [done|]. destruct (str_span _ (String c s)) as [a b] eqn:E.
  intros Heq. assert (l = a) as -> by congruence. by apply str_span_spec in E as (_ & Ha & _).
Qed.

Lemma str_drop_forallb P n s : str_forallb P s = true → str_forallb P (str_drop n s) = true.
Proof.
  revert n. induction s as [|c s IH]; intros [|n] Hs; simpl in *; try done. bsimp. by apply IH.
Qed.

(** ** Storages without newlines *)

Definition one_line (m : gmap string StorageEntry) : Prop :=
  map_Forall (λ k e, no_newline k && no_newline (value e) = true) m.

Lemma one_line_insert k v m :
  no_newline k = true → no_newline v = true → one_line m → one_line (<[k := mkEntry v None]> m).
Proof. intros Hk Hv Hm. apply map_Forall_insert_2; [|done]. simpl. by rewrite Hk, Hv. Qed.

Lemma one_line_delete k m : one_line m → one_line (delete k m).
Proof. apply map_Forall_delete. Qed.

Lemma one_line_retimed k at_ m : one_line m → one_line (retimed k at_ m).
Proof.
  intros Hm j e. unfold retimed. rewrite lookup_alter. case_decide as Hj; [|apply Hm].
  subst. destruct (m !! j) as [e0|] eqn:E; simpl; [|done]. intros [= <-]. apply (Hm j e0 E).
Qed.

Lemma one_line_subset m m' : m' ⊆ m → one_line m → one_line m'.
Proof. intros Hs Hm k e Hk. apply Hm. by eapply lookup_weaken. Qed.

Section Lines.
Context {S : Type} `{StorageLaws S}.

(** A storage in a good state without newlines, and what keeps it so. *)
Definition text_ok (s : S) : Prop := st_ok s ∧ one_line (st_view s).

Lemma text_set k v s : no_newline k = true → no_newline v = true → text_ok s → text_ok (st_set k v s).1.
Proof. intros Hk Hv [Hs Hl]. split; [by apply set_ok|]. rewrite set_view by done. by apply one_line_insert. Qed.

Lemma text_remove k s : text_ok s → text_ok (st_remove k s).1.
Proof. intros [Hs Hl]. split; [by apply remove_ok|]. rewrite remove_view by done. by apply one_line_delete. Qed.

Lemma text_clear s : text_ok s → text_ok (st_clear s).
Proof. intros [Hs Hl]. split; [by apply clear_ok|]. rewrite clear_view by done. apply map_Forall_empty. Qed.

Lemma text_purge clock s : text_ok s → text_ok (st_purge clock s).
Proof.
  intros [Hs Hl]. split; [by apply purge_ok|]. eapply one_line_subset; [by apply purge_subset|done].
Qed.

Lemma text_set_ttl now k ttl s s' b : text_ok s → st_set_ttl now k ttl s ⇓ (s', b) → text_ok s'.
Proof.
  intros [Hs Hl]. destruct (st_view s !! k) as [e|] eqn:Ek.
  - destruct (set_ttl_present now k ttl s e Hs Ek) as (f & -> & Hf).
    intros (at_ & _ & [= <- _])%bind_Ret. destruct (Hf at_) as [Hok Hv]. split; [done|].
    rewrite Hv. by apply one_line_retimed.
  - rewrite set_ttl_absent by done. by intros [= <- _].
Qed.

Lemma text_increment now k delta s s' v :
  no_newline k = true → text_ok s → increment now k delta s ⇓ (s', v) → text_ok s'.
Proof.
  intros Hk Hs. unfold increment. intros (c & _ & (n & _ & [= <- _])%bind_Ret)%bind_Ret.
  apply text_set; [done|apply format_value_no_newline|done].
Qed.

Lemma text_decrement now k delta s s' v :
  no_newline k = true → text_ok s → decrement now k delta s ⇓ (s', v) → text_ok s'.
Proof. intros Hk Hs. unfold decrement. intros (d & _ & Hi)%bind_Ret. by eapply text_increment. Qed.

Lemma text_mset pairs n s :
  Forall (λ p, no_newline (pair_key p) && no_newline (pair_value p) = true) pairs → text_ok s →
  text_ok (foldl (λ '(s, written) pair,
    let '(s, ok) := st_set (pair_key pair) (pair_value pair) s in
    (s, if ok : bool then Datatypes.S written else written)) (s, n) pairs).1.
Proof.
  intros Hf. revert n s. induction Hf as [|[k v] pairs Hp _ IH]; intros n s Hs; [done|]. simpl in Hp |- *. bsimp.
  pose proof (text_set k v s) as Hset. destruct (st_set k v s) as [s1 ok]. apply IH. by apply Hset.
Qed.

Lemma pairs_of_no_newline n l :
  length l ≤ n → Forall (λ a, no_newline a = true) l →
  Forall (λ p, no_newline (pair_key p) && no_newline (pair_value p) = true) (pairs_of l).
Proof.
  revert l. induction n as [|n IH]; intros [|k [|v l]] Hn Hf; simpl in *; try (by constructor); [lia|].
  apply Forall_cons in Hf as [Hk Hf]. apply Forall_cons in Hf as [Hv Hf].
  constructor; [simpl; by rewrite Hk, Hv|]. apply IH; [lia|done].
Qed.

(** Every command whose words have no newline keeps the storage so. *)
Lemma dispatch_text io clock cmd (st st' : State S) r :
  Forall (λ a, no_newline a = true) (args cmd) → text_ok (storage st) →
  dispatch io clock cmd st ⇓ (st', r) → text_ok (storage st').
Proof.
  intros Ha Hs E. unfold dispatch in E. destruct (handler_of _ _ _ _ _) as [rep|] eqn:Eh.
  - subst rep. revert Eh. generalize dependent (args cmd). intros l Ha Eh.
    destruct (type cmd); simpl in Eh; try discriminate Eh; apply (inj Some) in Eh;
      try (handler_inv Eh; exact Hs).
    + unfold handle_set, wrong_arity, reply in Eh. repeat case_match; simplify_eq/=; try done.
      apply Forall_cons in Ha as [Hk Ha]. apply Forall_cons in Ha as [Hv Ha].
      apply text_set; [done|by apply join_words_no_newline|done].
    + unfold handle_delete, wrong_arity, reply in Eh. destruct l as [|k []]; simplify_eq/=; try done.
      pose proof (text_remove k _ Hs) as Hr. destruct (st_remove k (storage st)). by simplify_eq/=.
    + unfold handle_expire, wrong_arity, reply in Eh. destruct l as [|k [|a []]]; simplify_eq/=; try done.
      apply bind_Ret in Eh as (n & _ & ([s b] & Ht & Eh)%bind_Ret).
      apply text_set_ttl in Ht; [|done]. by destruct b; simplify_eq/=.
    + unfold handle_mset, wrong_arity, reply in Eh. case_match; simplify_eq/=; [done|].
      apply text_mset; [by eapply pairs_of_no_newline|done].
    + unfold handle_incr, wrong_arity, reply in Eh. destruct l as [|k []]; simplify_eq/=; try done.
      apply bind_Ret in Eh as ([s v] & Hi & Eh). simplify_eq/=. apply Forall_cons in Ha as [Hk _].
      by eapply text_increment.
    + unfold handle_decr, wrong_arity, reply in Eh. destruct l as [|k []]; simplify_eq/=; try done.
      apply bind_Ret in Eh as ([s v] & Hi & Eh). simplify_eq/=. apply Forall_cons in Ha as [Hk _].
      by eapply text_decrement.
    + unfold handle_incrby, wrong_arity, reply in Eh. destruct l as [|k [|a []]]; simplify_eq/=; try done.
      apply bind_Ret in Eh as (n & _ & ([s v] & Hi & Eh)%bind_Ret). simplify_eq/=. apply Forall_cons in Ha as [Hk _].
      by eapply text_increment.
    + unfold handle_flushdb, reply in Eh. simplify_eq/=. by apply text_clear.
  - unfold reply in E. by simplify_eq.
Qed.

Lemma round_text io clock session (st : State S) session' st' :
  text_ok (storage st) → session_round io clock session st ⇓ (session', st') → text_ok (storage st').
Proof.
  intros Hs. unfold session_round. destruct (ClientSession.read_line session) as [s1 line].
  destruct (negb _); [by intros [= _ <-]|]. destruct (line =? "")%string; [by intros [= _ <-]|].
  destruct (parse_line line) as [cmd|] eqn:Ep; [|by intros [= _ <-]].
  intros ([st1 r] & Hd & [= _ <-])%bind_Ret. eapply dispatch_text; [by eapply parse_line_args|done|exact Hd].
Qed.

(** What is restored at start-up has no newlines either. *)
Lemma load_pairs_text fuel count stream (s : S) : text_ok s → text_ok (load_pairs fuel count stream s).
Proof.
  revert count stream s. induction fuel as [|fuel IH]; intros count stream s Hs; simpl; [done|].
  case_match; [|done]. destruct (getline stream) as [[k r]|] eqn:Ek; [|done].
  destruct (getline r) as [[v r']|] eqn:Ev; [|done]. apply IH, text_set; [| |done]; by eapply getline_no_newline.
Qed.

Lemma replay_line_text (s : S) line : no_newline line = true → text_ok s → text_ok (replay_line s line).
Proof.
  intros Hl Hs. unfold replay_line. case_match; [|case_match; [by apply text_remove|done]].
  case_match; [|done]. apply text_set; [|by apply str_drop_forallb|done].
  unfold substr. by apply str_take_forallb, str_drop_forallb.
Qed.

Lemma lines_fuel_no_newline fuel s : Forall (λ l, no_newline l = true) (lines_fuel fuel s).
Proof.
  revert s. induction fuel as [|fuel IH]; intros s; simpl; [constructor|].
  destruct (getline s) as [[l r]|] eqn:E; constructor; [by eapply getline_no_newline|apply IH].
Qed.

Lemma restore_text io cfg (st : State S) :
  text_ok (storage st) → text_ok (storage (DatabaseServer.restore_data io cfg st)).
Proof.
  intros Hs. unfold DatabaseServer.restore_data. case_match; simpl.
  - unfold load_into. repeat case_match; cbn [fst]; try done. by apply load_pairs_text.
  - unfold replay. repeat case_match; try done. cbn [fst].
    pose proof (lines_fuel_no_newline (Datatypes.S (String.length s)) s) as Hf. fold (lines s) in Hf.
    revert Hs. generalize (storage st). induction Hf as [|l ls Hl _ IH]; intros s1 Hs1; simpl; [done|].
    by apply IH, replay_line_text.
Qed.

End Lines.

(** ** Files *)

Lemma path_join_suffix dir f g : path_join dir f +:+ g = path_join dir (f +:+ g).
Proof. unfold path_join. repeat case_match; by rewrite ?string_app_assoc. Qed.

Section Durable.
Context {S : Type} `{StorageLaws S}.
Variables (io : Io) (cfg : ServerConfig).
Let path := snapshot_path (data_dir cfg).
Let log_file := path_join (data_dir cfg) "append.aof".
#[local] Abbreviation Server := (Run.t S).
#[local] Abbreviation step := (Run.step io cfg).
#[local] Abbreviation boot := (Run.boot io cfg).

Lemma dispatch_files clock cmd (st st' : State S) r :
  dispatch io clock cmd st ⇓ (st', r) →
  log_path_ (aof st') = log_path_ (aof st) ∧
  ∀ p, p ≠ log_path_ (aof st) → p ≠ log_path_ (aof st) +:+ ".rewrite" → disk st' !! p = disk st !! p.
Proof.
  unfold dispatch. intros E. destruct (handler_of _ _ _ _ _) as [rep|] eqn:Eh.
  - subst rep. destruct (decide (type cmd = Bgrewriteaof)) as [Ht|Ht].
    + rewrite Ht in Eh. simpl in Eh. apply (inj Some) in Eh.
      unfold handle_bgrewriteaof, rewrite_from, reply in Eh. cbn [aof disk storage with_metrics] in Eh.
      repeat (case_match; simplify_eq/=); (split; [done|]); intros p Hp1 Hp2;
        rewrite ?lookup_insert_ne, ?lookup_delete_ne, ?lookup_insert_ne by done; done.
    + destruct (handler_frame _ _ _ _ _ _ _ Eh) as (_ & _ & _ & Hf). destruct (Hf Ht) as [-> ->]. done.
  - unfold reply in E. by simplify_eq.
Qed.

Lemma round_files clock session (st : State S) session' st' :
  log_path_ (aof st) = log_file → session_round io clock session st ⇓ (session', st') →
  log_path_ (aof st') = log_file ∧ disk st' !! path = disk st !! path.
Proof.
  intros Hl. unfold session_round. destruct (ClientSession.read_line session) as [s1 line].
  destruct (negb _); [by intros [= _ <-]|]. destruct (line =? "")%string; [by intros [= _ <-]|].
  destruct (parse_line line) as [cmd|]; [|by intros [= _ <-]].
  intros ([st1 r] & Hd & [= _ <-])%bind_Ret. apply dispatch_files in Hd as [-> Hd]. split; [done|].
  rewrite Hl in Hd. apply Hd; unfold log_file; rewrite ?path_join_suffix; by apply DatabaseServer.path_join_ne.
Qed.

(** ** Every reachable state *)

(** A snapshot is being written: by the main thread at its end, or by the thread of
    the snapshot scheduler. *)
Definition writing (r : Server) : Prop :=
  can_open io path = true ∧
  (Run.phase r = Run.FinalWrite ∨
   Run.live r ∧ Scheduler.worker_ (Run.snapshots r) = Some SnapshotScheduler.Write).

Definition data_ok (r : Server) : Prop :=
  text_ok (storage (Run.state r)) ∧ log_path_ (aof (Run.state r)) = log_file.

(** What a step does to the snapshot file: nothing, one complete write, or one whose
    output fails after some bytes. *)
Definition file_step (r r' : Server) : Prop :=
  disk (Run.state r') !! path = disk (Run.state r) !! path ∨
  writing r ∧
    (disk (Run.state r') !! path = Some (snapshot_content (st_dump (storage (Run.state r)))) ∨
     ∃ n, disk (Run.state r') !! path = Some (str_take n (snapshot_content (st_dump (storage (Run.state r)))))).

(** Steps that leave the data alone. *)
Lemma same_data r r' :
  storage (Run.state r') = storage (Run.state r) → aof (Run.state r') = aof (Run.state r) →
  disk (Run.state r') = disk (Run.state r) → data_ok r → data_ok r' ∧ file_step r r'.
Proof. unfold data_ok, file_step. intros -> -> ->. auto. Qed.

Lemma serve_data r r' : Run.serve_step io cfg r r' → data_ok r → data_ok r' ∧ file_step r r'.
Proof.
  intros Hs. destruct Hs as [a now r r' Hp Hf Hs|choice a now1 now2 r r' Hp _ Hst Hs|r Hp Hl|r r' Hs|r Hp|i r r' Hl Hs
    |clock i r r' Hl Hs|i r r' Hl Hs].
  - unfold Run.bind_step in Hs. apply bind_Ret in Hs as ([p ok] & _ & Hs).
    destruct ok; injection Hs as <-; by apply same_data.
  - unfold Run.accept_step in Hs. apply bind_Ret in Hs as (s & _ & [= <-]). by apply same_data.
  - by apply same_data.
  - unfold Run.join_step in Hs. repeat (case_match; simplify_eq/=); try (by apply same_data);
      match type of Hs with (_ ← ?m; _) = _ => destruct m end; simplify_eq/=; try (by apply same_data);
      case_match; by apply same_data.
  - intros [Ht Hl]. unfold Run.final_step, DatabaseServer.shut_down, snapshot_write, snapshot_attempt, file_step, writing, data_ok.
    fold path. simpl. destruct (can_open io path); simpl; [|by auto].
    split; [done|]. right. split; [by auto|]. left. apply lookup_insert_eq.
  - unfold Run.take_step in Hs. repeat (case_match; simplify_eq/=).
    destruct (ThreadPool.worker_step i (Run.pool r)); simplify_eq/=. repeat case_match; by apply same_data.
  - unfold Run.request_step in Hs. destruct (Run.doing r !! i) as [s|]; simplify_eq/=. case_match; simplify_eq/=.
    destruct (session_round io clock s (Run.state r)) as [[s' st]| |] eqn:Er; [|by apply same_data..].
    intros [Ht Hlog]. destruct (round_files _ _ _ _ _ Hlog Er) as [Hlog' Hd].
    split; [|by left]. split; [by eapply round_text|done].
  - unfold Run.finish_step in Hs. destruct (Run.doing r !! i) as [s|]; simplify_eq/=. case_match; simplify_eq/=.
    destruct (ThreadPool.worker_step i (Run.pool r)); simplify_eq/=. by apply same_data.
Qed.

Lemma snapshot_data clock failure r r' :
  Run.live r → Run.snapshot_step io cfg clock failure r = Some r' → data_ok r → data_ok r' ∧ file_step r r'.
Proof.
  intros Hl Hs [Ht Hlog]. unfold Run.snapshot_step in Hs.
  unfold Scheduler.worker_step in Hs. destruct (Scheduler.worker_ (Run.snapshots r)) as [pc|] eqn:Ew; [|done].
  destruct (returned pc); [done|]. simpl in Hs. destruct pc as [| |i|]; simpl in Hs.
  - injection Hs as <-. by apply same_data.
  - unfold SnapshotScheduler.write_snapshot, snapshot_attempt in Hs. simpl in Hs. fold path in Hs.
    destruct (can_open io path) eqn:Eo; simpl in Hs; [|injection Hs as <-; by apply same_data].
    assert (writing r) as Hw by (split; [done|by right]).
    destruct failure as [[n []]|]; simpl in Hs; injection Hs as <-; (split; [done|]); right; (split; [done|]); simpl;
      [right; exists n|right; exists n|left]; apply lookup_insert_eq.
  - destruct (_ && _); simpl in Hs; injection Hs as <-; by apply same_data.
  - injection Hs as <-. by apply same_data.
Qed.

Lemma sweep_data clock r r' : Run.sweep_step io clock r = Some r' → data_ok r → data_ok r' ∧ file_step r r'.
Proof.
  intros Hs Hd. unfold Run.sweep_step, Scheduler.worker_step in Hs.
  destruct (Scheduler.worker_ (Run.sweeper r)) as [pc|]; [|done]. destruct (returned pc); [done|].
  simpl in Hs. destruct pc; simpl in Hs; injection Hs as <-; try (by apply same_data).
  - destruct Hd as [Ht Hlog]. split; [|by left]. split; [|done]. by apply text_purge.
  - case_match; by apply same_data.
Qed.

Lemma step_data r r' : step r r' → data_ok r → data_ok r' ∧ file_step r r'.
Proof.
  intros Hs. destruct Hs as [r r' Hs|clock failure r r' Hl Hs|clock r r' Hl Hs|sig r r' Hl Hs|i r r' Hs|more i r r' Hl Hs].
  - by apply serve_data.
  - by eapply snapshot_data.
  - by eapply sweep_data.
  - unfold Run.signal_step in Hs. apply bind_Ret in Hs as (p & _ & [= <-]). destruct (TcpServer.killed p); by apply same_data.
  - unfold Run.doze_step in Hs. destruct (Run.phase r); try done.
    destruct (ThreadPool.sleep_step i (Run.pool r)); simplify_eq/=. by apply same_data.
  - unfold Run.arrive_step in Hs. destruct (Run.doing r !! i); simplify_eq/=. by apply same_data.
Qed.

Lemma boot_data (s : S) d :
  st_ok s → st_view s = ∅ → data_ok (boot s d) ∧ disk (Run.state (boot s d)) !! path = d !! path.
Proof.
  intros Hs Hv. unfold data_ok, Run.boot. simpl.
  assert (text_ok (storage (DatabaseServer.make io cfg s d))) as Ht.
  { unfold DatabaseServer.make. destruct (aof_make _ _ _). split; simpl; [done|]. rewrite Hv. apply map_Forall_empty. }
  assert (∀ st : State S, aof (DatabaseServer.restore_data io cfg st) = aof st ∧
    disk (DatabaseServer.restore_data io cfg st) = disk st) as Hr
    by (intros st; unfold DatabaseServer.restore_data; by case_match).
  destruct (Hr (DatabaseServer.make io cfg s d)) as [-> ->].
  split_and!; [by apply restore_text| |]; unfold DatabaseServer.make, aof_make, open_append;
    destruct (can_open io _); simpl; try done.
  by rewrite lookup_insert_ne by (by apply DatabaseServer.path_join_ne).
Qed.

(** The snapshot file is the one that was found, or a snapshot of an earlier moment, or
    the beginning of one. *)
Definition last_snapshot (s : S) (d : Disk) (r : Server) : Prop :=
  disk (Run.state r) !! path = d !! path ∨
  ∃ r0, rtc step (boot s d) r0 ∧ rtc step r0 r ∧
    (disk (Run.state r) !! path = Some (snapshot_content (st_dump (storage (Run.state r0)))) ∨
     writing r0 ∧
     ∃ n, disk (Run.state r) !! path = Some (str_take n (snapshot_content (st_dump (storage (Run.state r0)))))).

Lemma run_data s d r :
  st_ok s → st_view s = ∅ → rtc step (boot s d) r → data_ok r ∧ last_snapshot s d r.
Proof.
  intros Hs Hv Hr. destruct (boot_data s d Hs Hv) as [Hb Hd].
  revert r Hr. apply (rtc_ind_r (λ r, data_ok r ∧ last_snapshot s d r)); [by split; [|left]|].
  intros r1 r2 Hrun Hst [Hr1 Hl].
  destruct (step_data r1 r2 Hst Hr1) as [Hr2 Hf]. split; [done|].
  destruct Hf as [Hf|[Hw Hf]].
  - unfold last_snapshot. rewrite Hf. destruct Hl as [Hl|(r0 & Ha & Hb' & Hl)]; [by left|].
    right. exists r0. split_and!; [done|by eapply rtc_r|done].
  - right. exists r1. split_and!; [done|by apply rtc_once|]. destruct Hf as [Hf|Hf]; auto.
Qed.

(** ** Clean shutdown and crashes *)


(** What a crash leaves on the disk: the files as they are, or, while a snapshot is
    being written, the first [n] bytes of it. *)
Inductive crashed (r : Server) : Disk → Prop :=
| crashed_between : crashed r (disk (Run.state r))
| crashed_writing n : writing r → crashed r (torn_snapshot n path (storage (Run.state r)) (disk (Run.state r))).

(** What is restored from the beginning of a snapshot of [r0]. *)
Definition cut_short (r0 : Server) (restored : S) : Prop :=
  ∃ j last, torn_pairs (st_dump (storage (Run.state r0))) j last ∧
    st_view restored = restore (take j (st_dump (storage (Run.state r0))) ++ last) ∅.

Lemma restart_cut_short r0 n d' s0 :
  data_ok r0 → can_read io path = true → st_ok s0 → st_view s0 = ∅ →
  d' !! path = Some (str_take n (snapshot_content (st_dump (storage (Run.state r0))))) →
  cut_short r0 (storage (DatabaseServer.start io cfg s0 d')).
Proof.
  intros [[Hok Hl] _] Hread Hs0 Hv0 Hd.
  destruct (torn_snapshot_loads io n path (storage (Run.state r0)) s0 ∅ Hread) as (j & last & Hload & Ht & _).
  { rewrite (dump_view _ Hok). apply Forall_fmap, Forall_forall. intros [k e] Hin%elem_of_map_to_list.
    apply (Hl k e Hin). }
  exists j, last. split; [done|]. rewrite (start_reads_snapshot io cfg s0 _ _ Hd).
  fold path. unfold torn_snapshot in Hload. rewrite insert_empty in Hload. rewrite Hload. cbn [fst].
  destruct (set_all_spec (take j (st_dump (storage (Run.state r0))) ++ last) s0 Hs0) as [_ ->]. by rewrite Hv0.
Qed.

(** C12: what a crash can cost, as long as no request changes the storage while a
    snapshot of it is dumped (both are single steps here; the code takes no lock):
    whenever the process dies, whatever was sent to it and whichever snapshots failed
    to be written before, the next start finds the data in one of three states: the
    snapshot file is still the one this process started from (and if there was one,
    the start restores exactly what it would have restored then); or the start
    restores exactly the keys and values of an earlier moment of the run; or the
    crash interrupted the last snapshot, or its output failed, and then the start
    restores only some of the pairs of the moment at which it was taken, the last of
    them perhaps with a value that is cut short. *)
Theorem crash_recovers s d r d' s0 :
  st_ok s → st_view s = ∅ → rtc step (boot s d) r → crashed r d' →
  can_read io path = true → st_ok s0 → st_view s0 = ∅ →
  let restored := storage (DatabaseServer.start io cfg s0 d') in
  (d' !! path = d !! path ∧
     (is_Some (d !! path) → restored = storage (DatabaseServer.start io cfg s0 d))) ∨
  (∃ r0, rtc step (boot s d) r0 ∧ rtc step r0 r ∧
     ((Z.of_nat (base.size (st_view (storage (Run.state r0)))) ≤ uint64_max)%Z →
      st_view restored = persisted (st_view (storage (Run.state r0))))) ∨
  (∃ r0, rtc step (boot s d) r0 ∧ rtc step r0 r ∧ writing r0 ∧ cut_short r0 restored).
Proof.
  intros Hs Hv Hr Hc Hread Hs0 Hv0 restored. destruct (run_data s d r Hs Hv Hr) as [Hdata Hlast].
  destruct Hc as [|n Hw].
  - destruct Hlast as [Hf|(r0 & Ha & Hb & [Hf|(Hw & n & Hf)])].
    + left. split; [done|]. intros [content Hd]. unfold restored.
      rewrite (start_reads_snapshot io cfg s0 (disk (Run.state r)) content) by (unfold path in *; congruence).
      by rewrite (start_reads_snapshot io cfg s0 d content).
    + right. left. exists r0. split_and!; [done|done|]. intros Hn.
      destruct (run_data s d r0 Hs Hv Ha) as [[[Hok Hl] _] _].
      by apply (DatabaseServer.start_from_snapshot io cfg (storage (Run.state r0)) s0).
    + right. right. exists r0. split_and!; [done..|]. destruct (run_data s d r0 Hs Hv Ha) as [Hd0 _].
      by eapply restart_cut_short.
  - right. right. exists r. split_and!; [done..|]. eapply restart_cut_short; try done. apply lookup_insert_eq.
Qed.

End Durable.

(** ** A server that is interrupted, and one that crashes *)

Section Witnesses.
#[local] Existing Instance HashTable.sum_hash.
#[local] Abbreviation small := StorageEngine.small.


(** A server that starts from a snapshot with two keys and dies while it writes the
    next one. *)
Definition old_disk : Disk := {[ "./data/snapshot.vdb" := snapshot_content [("a", "1"); ("b", "23")] ]}.
Definition old_boot : Run.t StorageEngine.t := Run.boot all_io default_config small old_disk.
Definition dying : Run.t StorageEngine.t :=
  default old_boot (Run.snapshot_step all_io default_config (λ _, 0%Z) None old_boot).

Lemma dying_reached : rtc (Run.step all_io default_config) old_boot dying.
Proof. apply rtc_once, (Run.step_snapshot _ _ (λ _, 0%Z) None old_boot dying); [exact I|vm_compute; reflexivity]. Qed.

Lemma crash_recovers_witness :
  let d' := torn_snapshot 29 "./data/snapshot.vdb" (storage (Run.state dying)) (disk (Run.state dying)) in
  let restored := storage (DatabaseServer.start all_io default_config small d') in
  (∃ r0, cut_short r0 restored) ∧ st_view restored !! "b" = Some (mkEntry "2" None).
Proof.
  intros d' restored.
  assert (crashed all_io default_config dying d') as Hc.
  { apply crashed_writing. split; [reflexivity|]. right. split; [exact I|vm_compute; reflexivity]. }
  split; [|vm_compute; reflexivity].
  destruct (crash_recovers all_io default_config small old_disk dying d' small)
    as [[Hd _]|[(r0 & Ha & Hb & Hv)|(r0 & _ & _ & _ & Hv)]];
    [apply StorageEngine.small_ok|reflexivity|apply dying_reached|exact Hc|reflexivity|apply StorageEngine.small_ok|reflexivity| | |].
  - exfalso. vm_compute in Hd. discriminate Hd.
  - exists dying, 1, [("b", "2")]. split; [|vm_compute; reflexivity]. right. exists "b", "23", 1.
    split; [vm_compute; reflexivity|]. split; [split; vm_compute; lia|reflexivity].
  - exists r0. exact Hv.
Defined.

End Witnesses.
