(* ===== verification/Program.v ===== *)
(** * The program (src/main.cpp)

    [main] reads the environment and the command line, prints a text and returns, or
    constructs a server and runs it.  The theorems join the command line to the runs
    of the server: every state the process can be in is well formed, a program
    that is started again after a clean end has its data back, and leaving [run]
    destroys its local variables without waiting and without a thread left. *)

From S2P Require Import Prelude CppStd Logger Memory Table Scanner Engine Clients Wire Persistence Pubsub Admin Dispatcher Session Net Accept Schedulers Server Lifecycle Crash Durability.

Definition print_health : string := "VoltDBX v0.1.0" +:+ lf +:+ "status: ok" +:+ lf.
Definition usage : string := "Usage: voltdbx [--host H] [--port P] [--data-dir D] [--health]" +:+ lf.

(** What a process is after the command line has been read: ended, with what it
    printed and its exit status, or a server at the beginning of [run]. *)
Inductive Launched (S : Type) :=
| Printed (text : string) (status : Z)
| Serving (cfg : ServerConfig) (r : Run.t S).
Arguments Printed {S}.
Arguments Serving {S}.

Section Program.
Context {S : Type} `{StorageLaws S}.
Variable io : Io.

(** [main], up to the first step of [run] that waits for the system. *)
Definition launch (env : Admin.Env) (args : list string) (s : S) (d : Disk) : Outcome (Launched S) :=
  r ← main env args;
  Ret (match r with
       | Health => Printed print_health 0
       | Help => Printed usage 0
       | RunServer cfg => Serving cfg (Run.boot io cfg s d)
       end).

(** ** Well-formed states *)

(** The members of a configuration are within their types. *)
Definition config_typed (cfg : ServerConfig) : Prop :=
  (0 ≤ port cfg < 2 ^ 16)%Z ∧ (0 ≤ max_clients cfg < 2 ^ 64)%Z ∧ (0 ≤ snapshot_interval_sec cfg < 2 ^ 32)%Z.

Lemma env_typed env cfg : load_config_from_env env ⇓ cfg → config_typed cfg.
Proof.
  intros Hl. unfold load_config_from_env in Hl.
  apply bind_Ret in Hl as (p & Hp & Hl). apply bind_Ret in Hl as (m & Hm & Hl).
  apply bind_Ret in Hl as (s & Hs & [= <-]). unfold config_typed. cbn [port max_clients snapshot_interval_sec].
  split_and!; first [by eapply (env_number_range _ _ _ 16 6379)|by eapply (env_number_range _ _ _ 64 1024)
    |by eapply (env_number_range _ _ _ 32 300)].
Qed.

Lemma wrap_in_width w z : (0 ≤ w)%Z → (0 ≤ wrap w z < 2 ^ w)%Z.
Proof. intros Hw. apply Z.mod_pos_bound. lia. Qed.

Lemma parse_args_turn arg v rest cfg :
  parse_args (arg :: v :: rest) cfg =
  if (arg =? "--health")%string then Ret Health
  else if (arg =? "--help")%string then Ret Help
  else if (arg =? "--host")%string then parse_args rest (with_host cfg v)
  else if (arg =? "--port")%string then p ← atoi v; parse_args rest (with_port cfg (wrap 16 p))
  else if (arg =? "--data-dir")%string then parse_args rest (with_data_dir cfg v)
  else if (arg =? "--max-clients")%string then m ← atol v; parse_args rest (with_max_clients cfg (wrap 64 m))
  else parse_args (v :: rest) cfg.
Proof. reflexivity. Qed.

Lemma args_typed args cfg cfg' : config_typed cfg → parse_args args cfg ⇓ RunServer cfg' → config_typed cfg'.
Proof.
  remember (length args) as n eqn:Hn. assert (length args ≤ n) as Hle by lia. clear Hn. revert args cfg Hle.
  induction n as [|n IH]; intros [|a [|v args]] cfg Hle Hc; simpl in Hle; try lia; try (by intros [= <-]).
  - cbn [parse_args]. repeat (case_match; [done|]). by intros [= <-].
  - rewrite parse_args_turn. destruct Hc as (Hp & Hm & Hi).
    repeat (case_match; try done); try (apply IH; [simpl; lia|exact (conj Hp (conj Hm Hi))]).
    + intros (p & _ & Hrest)%bind_Ret. revert Hrest. apply IH; [lia|].
      exact (conj (wrap_in_width 16 p ltac:(lia)) (conj Hm Hi)).
    + intros (m & _ & Hrest)%bind_Ret. revert Hrest. apply IH; [lia|].
      exact (conj Hp (conj (wrap_in_width 64 m ltac:(lia)) Hi)).
Qed.

Lemma main_typed env args cfg : main env args ⇓ RunServer cfg → config_typed cfg.
Proof. intros (cfg0 & Hl & Hp)%bind_Ret. eapply args_typed; [by eapply env_typed|done]. Qed.

(** The state of a process that serves, as far as a thread owns it or a lock protects it:
    its configuration is within its types, the log is the file of the data directory,
    the server object, the descriptors and the global pointer belong together, every
    accepted connection is queued, with a worker, or served to its end with its
    descriptor closed once, the workers and the sessions they serve belong together,
    and each scheduler has a thread exactly while it runs or is being joined. *)
Record well_formed (cfg : ServerConfig) (r : Run.t S) : Prop := {
  wf_config : config_typed cfg;
  wf_log : log_path_ (aof (Run.state r)) = path_join (data_dir cfg) "append.aof";
  wf_process : TcpServer.inv true (Run.process r);
  wf_pool : ThreadPool.inv (Run.pool r);
  wf_workers : Run.busy (Run.pool r) (Run.doing r);
  wf_served : Forall2 Run.served_to_end (ThreadPool.completed (Run.pool r)) (Run.ended r);
  wf_snapshots :
    let _ : Program SnapshotScheduler.Pc (Shared S) :=
      SnapshotScheduler.program (Z.to_N (snapshot_interval_sec cfg)) (snapshot_path (data_dir cfg)) in
    Scheduler.inv (Run.snapshots r);
  wf_sweeper : Scheduler.inv (Run.sweeper r)
}.

(** C5: every state of the program is well formed: whatever the environment and the
    command line, and whatever clients, clocks, threads and signals do, a process that
    serves has a configuration within its machine types, and its listener, thread
    pool, sessions and schedulers satisfy [well_formed].  It says nothing of the
    storage and the settings made at run time, which the threads share without a
    lock. *)
Theorem program_well_formed env args s d cfg r0 r :
  st_ok s → st_view s = ∅ →
  launch env args s d ⇓ Serving cfg r0 → rtc (Run.step io cfg) r0 r → well_formed cfg r.
Proof.
  intros Hs Hv (res & Hm & Hl)%bind_Ret Hr. destruct res; simplify_eq/=.
  destruct (Run.run_inv io cfg s d r Hs Hr) as [Hpr _ Hpl _ Hbusy Hend Hsn Hsw _ _].
  destruct (run_data io cfg s d r Hs Hv Hr) as [[_ Hlog] _].
  split; try done. by eapply main_typed.
Qed.

(** ** Starting again *)

(** C4: the program keeps its data: when a process ended with status 0 and its snapshot
    file could be written and read, the next start with the same environment and
    command line, on the disk it left, begins with exactly the keys and values that
    were stored, none of them with a deadline. *)
Theorem program_restarts env args s d cfg r0 r s0 :
  st_ok s → st_view s = ∅ →
  launch env args s d ⇓ Serving cfg r0 → rtc (Run.step io cfg) r0 r → Run.phase r = Run.Finished 0 →
  let path := snapshot_path (data_dir cfg) in
  can_open io path = true → can_read io path = true → st_ok s0 → st_view s0 = ∅ →
  (Z.of_nat (base.size (st_view (storage (Run.state r)))) ≤ uint64_max)%Z →
  ∃ r1, launch env args s0 (disk (Run.state r)) ⇓ Serving cfg r1 ∧ Run.phase r1 = Run.Binding ∧
    st_view (storage (Run.state r1)) = persisted (st_view (storage (Run.state r))).
Proof.
  intros Hs Hv (res & Hm & Hl)%bind_Ret Hr Hp path Ho Hrd Hs0 Hv0 Hn. destruct res as [| |cfg']; simplify_eq/=.
  destruct (run_data io cfg s d r Hs Hv Hr) as [[[_ Ht] _] _].
  destruct (Run.finished_run io cfg s d r s0 Hs Hr Hp) as (_ & _ & _ & _ & _ & _ & H7).
  eexists. unfold launch. rewrite Hm. split; [done|]. split; [done|]. by apply H7.
Qed.

(** ** Leaving [run] *)

(** The exit status of a step that ends [run]. *)
Lemma exit_status cfg r r' code :
  Run.step io cfg r r' → Run.phase r' = Run.Finished code → Run.phase r = Run.Finished code ∨ code = 0%Z ∨ code = 1%Z.
Proof.
  intros Hs. destruct Hs as [r r' Hs|clock failure r r' Hl Hs|clock r r' Hl Hs|sig r r' Hl Hs|i r r' Hs|more i r r' Hl Hs].
  - destruct Hs as [a now r r' Hp Hf Hs|choice a now1 now2 r r' Hp _ Hst Hs|r Hp Hl|r r' Hs|r Hp|i r r' Hl Hs
      |clock i r r' Hl Hs|i r r' Hl Hs].
    + unfold Run.bind_step in Hs. apply bind_Ret in Hs as ([p ok] & _ & Hs). destruct ok; by injection Hs as <-.
    + unfold Run.accept_step in Hs. apply bind_Ret in Hs as (s & _ & [= <-]). simpl. auto.
    + done.
    + unfold Run.join_step in Hs. repeat (case_match; simplify_eq/=); try done;
        match type of Hs with (_ ← ?m; _) = _ => destruct m end; simplify_eq/=; try done.
      intros [= <-]. auto.
    + simpl. intros [= <-]. auto.
    + unfold Run.take_step in Hs. repeat (case_match; simplify_eq/=).
      destruct (ThreadPool.worker_step i (Run.pool r)); simplify_eq/=. repeat case_match; simpl; auto.
    + unfold Run.request_step in Hs. destruct (Run.doing r !! i) as [s|]; simplify_eq/=. case_match; simplify_eq/=.
      destruct (session_round io clock s (Run.state r)) as [[s' st]| |]; simpl; auto; done.
    + unfold Run.finish_step in Hs. destruct (Run.doing r !! i) as [s|]; simplify_eq/=. case_match; simplify_eq/=.
      destruct (ThreadPool.worker_step i (Run.pool r)); simplify_eq/=. auto.
  - unfold Run.snapshot_step in Hs. destruct (Scheduler.worker_step _ _) as [[s sh]|]; simplify_eq/=. auto.
  - unfold Run.sweep_step in Hs. destruct (Scheduler.worker_step _ _) as [[s sh]|]; simplify_eq/=. auto.
  - unfold Run.signal_step in Hs. apply bind_Ret in Hs as (p & _ & [= <-]). destruct (TcpServer.killed p); simpl; auto; done.
  - unfold Run.doze_step in Hs. destruct (Run.phase r) eqn:E; try done.
    destruct (ThreadPool.sleep_step i (Run.pool r)); simplify_eq/=. by rewrite E.
  - unfold Run.arrive_step in Hs. destruct (Run.doing r !! i); simplify_eq/=. auto.
Qed.

Lemma exit_status_run cfg s d r code :
  rtc (Run.step io cfg) (Run.boot io cfg s d) r → Run.phase r = Run.Finished code → code = 0%Z ∨ code = 1%Z.
Proof.
  intros Hr. revert code. pattern r. revert r Hr. apply rtc_ind_r; [done|].
  intros r1 r2 _ Hs IH code Hp. destruct (exit_status cfg r1 r2 code Hs Hp) as [H1|H1]; [by apply (IH code)|done].
Qed.

(** The destructor of the pool: [shutdown], then its thread objects go.  True when no
    thread is left to be waited for. *)
Definition destroy_pool (p : ThreadPool.t ClientSession.t) : bool := Run.drained_dec (ThreadPool.shutdown p).

Lemma drained_shutdown (p : ThreadPool.t ClientSession.t) : ThreadPool.drained p → ThreadPool.drained (ThreadPool.shutdown p).
Proof.
  unfold ThreadPool.drained, ThreadPool.shutdown. destruct (ThreadPool.stopping_ p); [done|]. simpl.
  intros Hd. apply Forall_fmap. eapply Forall_impl; [exact Hd|]. by intros w ->.
Qed.

(** The destructors of the local variables of [run], in the reverse order of their
    construction, when it returns [code]: of [pool] (which exists unless binding
    failed), of the threads of the two schedulers (whose classes have no destructor
    of their own; destroying a thread that was not joined is [std::terminate]), and of
    [tcp].  [None] when one of them waits or terminates the process. *)
Definition unwind (code : Z) (r : Run.t S) : Outcome (option TcpServer.Process) :=
  if (code =? 0)%Z && negb (destroy_pool (Run.pool r)) then Ret None
  else if bool_decide (is_Some (Scheduler.worker_ (Run.sweeper r))) then Ret None
  else if bool_decide (is_Some (Scheduler.worker_ (Run.snapshots r))) then Ret None
  else p ← TcpServer.destroy Run.tcp (Run.process r); Ret (Some p).

(** Destroying the only server of a process. *)
Lemma destroy_last p :
  TcpServer.inv true p → dom (TcpServer.servers p) = {[ Run.tcp ]} →
  ∃ p', TcpServer.destroy Run.tcp p ⇓ p' ∧ TcpServer.inv true p' ∧ TcpServer.servers p' = ∅.
Proof.
  intros Hp Hd. assert (is_Some (TcpServer.servers p !! Run.tcp)) as [x Hx] by (apply elem_of_dom; set_solver).
  destruct (TcpServer.stop_at_spec true p Run.tcp x Hp Hx) as (x' & Hs & _).
  assert (∃ p', TcpServer.destroy Run.tcp p ⇓ p' ∧ TcpServer.servers p' = delete Run.tcp (TcpServer.servers p)) as (p' & Hp' & He).
  { unfold TcpServer.destroy. rewrite Hs. msimp. eexists. split; [done|].
    case_bool_decide; simpl; by rewrite delete_insert_eq. }
  exists p'. split_and!; [done|by eapply TcpServer.destroy_inv|].
  rewrite He. apply map_eq. intros b. rewrite lookup_empty. destruct (decide (Run.tcp = b)) as [<-|Hb];
    [apply lookup_delete_eq|]. rewrite lookup_delete_ne by done. apply not_elem_of_dom. set_solver.
Qed.

(** Without servers nothing is held and nothing is reached. *)
Lemma no_server p :
  TcpServer.inv true p → TcpServer.servers p = ∅ → TcpServer.listening p = ∅ ∧ TcpServer.g_active_server p = None.
Proof.
  intros [H1 _ _ H4] Hs. split.
  - apply elem_of_equiv_empty_L. intros fd Hfd. destruct (H4 eq_refl fd Hfd) as (b & x & Hx & _). by rewrite Hs, lookup_empty in Hx.
  - destruct (TcpServer.g_active_server p) as [b|]; [|done]. destruct (H1 b eq_refl) as [x Hx]. by rewrite Hs, lookup_empty in Hx.
Qed.

(** C11: the program ends in order: whenever [run] returns, its status is 0 or 1, and the
    destructors of its local variables neither wait nor destroy a thread that is
    still joinable; they leave no server object, no listening descriptor and a null
    global pointer, so that a signal that arrives during the rest of [main] finds
    nothing to follow. *)
Theorem run_unwinds env args s d cfg r0 r code :
  st_ok s → launch env args s d ⇓ Serving cfg r0 → rtc (Run.step io cfg) r0 r → Run.phase r = Run.Finished code →
  (code = 0%Z ∨ code = 1%Z) ∧
  ∃ p, unwind code r ⇓ Some p ∧ TcpServer.servers p = ∅ ∧ TcpServer.listening p = ∅ ∧
    TcpServer.g_active_server p = None ∧
    ∀ sig, ∃ p', TcpServer.deliver sig p ⇓ p' ∧ TcpServer.servers p' = ∅ ∧ TcpServer.listening p' = ∅.
Proof.
  intros Hs (res & Hm & Hl)%bind_Ret Hr Hp. destruct res as [| |cfg']; simplify_eq/=.
  split; [by eapply exit_status_run|].
  pose proof (Run.run_inv io cfg s d r Hs Hr) as [Hi Hdom _ _ _ _ _ _ _ Hph]. rewrite Hp in Hph.
  destruct Hph as (Hsn & Hsw & _ & Hz). destruct (destroy_last _ Hi Hdom) as (p & Hd & Hip & Hps).
  exists p. destruct (no_server p Hip Hps) as [Hli Hac]. split_and!; [|done..|].
  - unfold unwind, destroy_pool. rewrite Hsn, Hsw, Hd. destruct (Z.eqb_spec code 0) as [->|]; [|done].
    destruct (Hz eq_refl) as [Hdr _].
    rewrite (proj2 (Run.drained_dec_spec (ThreadPool.shutdown (Run.pool r)))); [done|by apply drained_shutdown].
  - intros sig. destruct (TcpServer.deliver_spec true sig p Hip) as (p' & Hd' & Hi' & _). exists p'.
    assert (TcpServer.servers p' = ∅) as Hs'.
    { apply dom_empty_inv_L. rewrite (proj1 (TcpServer.deliver_no_new sig p p' Hd')), Hps. apply dom_empty_L. }
    destruct (no_server p' Hi' Hs'). by split_and!.
Qed.

End Program.

(** ** Schedules *)

(** The step relation of the server, played by a list of moves: which thread goes next,
    with the answers of the system that its step meets. *)
Module Schedule.
Section Schedule.
Context {S : Type} `{StorageLaws S}.
Variables (io : Io) (cfg : ServerConfig).
Import Run.

Inductive move :=
| Bind (a : TcpServer.Answers) (now : time_point)
| Accept (choice : nat) (a : Accepted) (now1 now2 : time_point)
| Doze (i : nat)
| Arrive (more : string) (i : nat)
| Leave
| Join
| Final
| Take (i : nat)
| Request (now : time_point) (i : nat)
| Finish (i : nat)
| Snapshot (now : time_point) (failure : option (nat * bool))
| Sweep (now : time_point)
| Signalled (sig : TcpServer.Signal).

Definition ret {A} (o : Outcome A) : option A := match o with Ret a => Some a | _ => None end.

Definition is_live (r : Run.t S) : bool := match phase r with Finished _ | Terminated => false | _ => true end.

Definition play (m : move) (r : Run.t S) : option (Run.t S) :=
  match m, phase r with
  | Bind a now, Binding =>
      if decide (TcpServer.socket a ∈ TcpServer.listening (process r)) then None else ret (bind_step cfg a now r)
  | Accept choice a now1 now2, Accepting =>
      if loop_running r && negb (stopped a) then ret (accept_step choice a now1 now2 r) else None
  | Doze i, _ => doze_step i r
  | Arrive more i, _ => if is_live r then arrive_step more i r else None
  | Leave, Accepting => if loop_running r then None else Some (leave_loop r)
  | Join, _ => join_step cfg r
  | Final, FinalWrite => Some (final_step io cfg r)
  | Take i, _ => if is_live r then take_step i r else None
  | Request now i, _ => if is_live r then request_step io (λ _, now) i r else None
  | Finish i, _ => if is_live r then finish_step i r else None
  | Snapshot now failure, _ => if is_live r then snapshot_step io cfg (λ _, now) failure r else None
  | Sweep now, _ => if is_live r then sweep_step io (λ _, now) r else None
  | Signalled sig, _ => if is_live r then ret (signal_step sig r) else None
  | _, _ => None
  end.

Fixpoint play_all (ms : list move) (r : Run.t S) : option (Run.t S) :=
  match ms with [] => Some r | m :: ms' => r' ← play m r; play_all ms' r' end.

Lemma is_live_spec r : is_live r = true → live r.
Proof. unfold is_live, live. by destruct (phase r). Qed.

Lemma ret_Some {A} (o : Outcome A) a : ret o = Some a → o ⇓ a.
Proof. destruct o; simpl; congruence. Qed.

(** A move is a step. *)
Lemma play_step m r r' : play m r = Some r' → Run.step io cfg r r'.
Proof.
  intros Hp. destruct m; unfold play in Hp; repeat (case_match; simplify_eq/=); bsimp;
    repeat match goal with
    | Hl : is_live _ = true |- _ => apply is_live_spec in Hl
    | Ho : ret _ = Some _ |- _ => apply ret_Some in Ho
    | Hb : negb _ = true |- _ => apply negb_true_iff in Hb
    end; eauto using serve_step, Run.step.
Qed.

Lemma play_all_steps ms r r' : play_all ms r = Some r' → rtc (Run.step io cfg) r r'.
Proof.
  revert r. induction ms as [|m ms IH]; intros r; simpl; [by intros [= <-]; constructor|].
  destruct (play m r) as [r1|] eqn:Em; [|done]. intros Hr. eapply rtc_l; [by eapply play_step|by apply IH].
Qed.

End Schedule.
End Schedule.

(** ** A client stores a key, the operator interrupts the server *)

Section Witnesses.
#[local] Existing Instance HashTable.sum_hash.
#[local] Abbreviation small := StorageEngine.small.
Import Schedule.

Definition no_env : Admin.Env := λ _, None.

Definition set_client : Accepted :=
  mkAccepted 7 "127.0.0.1" 0 (Some ("127.0.0.1", 0%Z)) 0 (Some <$> String.list_ascii_of_string ("SET a 1" +:+ crlf))
    [] false.

Definition story : list move :=
  [Bind loopback_answers 0%Z; Doze 0; Doze 1; Accept 0 set_client 0%Z 0%Z; Take 0; Request 0%Z 0; Request 0%Z 0; Finish 0;
   Signalled TcpServer.SIGINT; Leave; Take 0; Take 1; Take 2; Take 3; Join; Sweep 0%Z; Join; Snapshot 0%Z None; Join; Final].

Definition served : Run.t StorageEngine.t := default demo0 (play_all all_io default_config story demo0).

Lemma story_plays : play_all all_io default_config story demo0 = Some served.
Proof. vm_compute. reflexivity. Qed.

Lemma served_reached : rtc (Run.step all_io default_config) demo0 served.
Proof. eapply play_all_steps, story_plays. Qed.

Lemma program_well_formed_witness :
  launch all_io no_env [] small ∅ ⇓ Serving default_config demo0 ∧ well_formed default_config served ∧
  launch all_io no_env ["--health"] small ∅ ⇓ Printed print_health 0.
Proof.
  split; [reflexivity|]. split; [|reflexivity].
  apply (program_well_formed all_io no_env [] small ∅ default_config demo0 served);
    [apply StorageEngine.small_ok|reflexivity|reflexivity|apply served_reached].
Defined.

Lemma program_restarts_witness :
  st_view (storage (Run.state served)) !! "a" = Some (mkEntry "1" None) ∧
  ∃ r1, launch all_io no_env [] small (disk (Run.state served)) ⇓ Serving default_config r1 ∧
    Run.phase r1 = Run.Binding ∧
    st_view (storage (Run.state r1)) = persisted (st_view (storage (Run.state served))).
Proof.
  split; [vm_compute; reflexivity|].
  apply (program_restarts all_io no_env [] small ∅ default_config demo0 served small);
    [apply StorageEngine.small_ok|reflexivity|reflexivity|apply served_reached|vm_compute; reflexivity|reflexivity
    |reflexivity|apply StorageEngine.small_ok|reflexivity|vm_compute; discriminate].
Defined.

Lemma run_unwinds_witness :
  Run.phase served = Run.Finished 0 ∧
  ∃ p, unwind 0 served ⇓ Some p ∧ TcpServer.servers p = ∅ ∧ TcpServer.listening p = ∅ ∧
    TcpServer.g_active_server p = None.
Proof.
  split; [vm_compute; reflexivity|].
  destruct (run_unwinds all_io no_env [] small ∅ default_config demo0 served 0) as (_ & p & H1 & H2 & H3 & H4 & _);
    [apply StorageEngine.small_ok|reflexivity|apply served_reached|vm_compute; reflexivity|].
  exists p. auto.
Defined.

End Witnesses.
