(* ===== verification/Bench.v ===== *)
(** * The benchmark (src/bench/)

    [LatencyRunner] over any storage, and the program that prints its results.
    Latencies are kept in nanoseconds, the unit of the steady clock, and converted to
    milliseconds where they are printed; the conversion keeps their order
    ([sort_then_convert]).  The readings of the steady clock are an argument, as are
    those of the storage's clock.  The index of a percentile is computed in double
    precision as the code does: a conversion, a multiplication and a truncation, on
    numbers of the form [m * 2^-53]. *)

From stdpp Require Import sorting.
From Stdlib Require Import QArith.
From S2P Require Import Prelude CppStd Doubles Memory Table Scanner Engine.

(** ** Double precision *)

(** Rounding a natural number to 53 significant bits, to nearest, ties to even. *)
Definition round53 (x : Z) : Z :=
  if (x <? 2 ^ 53)%Z then x
  else
    let e := (Z.log2 x - 52)%Z in
    let q := (x / 2 ^ e)%Z in
    let r := (x mod 2 ^ e)%Z in
    if (2 * r <? 2 ^ e)%Z || ((2 * r =? 2 ^ e)%Z && Z.even q) then (q * 2 ^ e)%Z else ((q + 1) * 2 ^ e)%Z.

(** The literals 0.50, 0.95 and 0.99, times [2^53]. *)
Definition p50 : Z := 4503599627370496.
Definition p95 : Z := 8556839292003942.
Definition p99 : Z := 8917127262193582.

(** [static_cast<std::size_t>(p * static_cast<double>(samples.size() - 1))]. *)
Definition percentile_index (p : Z) (size : Z) : Z := round53 (p * round53 (size - 1)) / 2 ^ 53.

Section Runner.
Context {S : Type} `{StorageLaws S}.

(** [percentile]: the result and the vector, which it sorts in place.  An index out
    of range is undefined behaviour. *)
Definition percentile (samples : list Z) (p : Z) : Outcome (Z * list Z) :=
  if bool_decide (samples = []) then Ret (0%Z, samples)
  else
    let samples := merge_sort Z.le samples in
    match samples !! Z.to_nat (percentile_index p (Z.of_nat (length samples))) with
    | Some v => Ret (v, samples)
    | None => Undefined
    end.

(** The percentiles are in nanoseconds; [elapsed] is the time [requests_per_sec] is
    computed from. *)
Record BenchResult := mkResult {
  operations : Z;
  elapsed : Z;
  p50_ : Z;
  p95_ : Z;
  p99_ : Z
}.

Definition bench_key (i : nat) : string := "bench:key:" +:+ to_string (Z.of_nat i).
Definition exists_key (i : nat) : string := "exists:" +:+ to_string (Z.of_nat i).

(** The loop of [run_set_get]: [ticks] are the readings of the steady clock, from the
    [k]-th on, [now] those of the storage. *)
Fixpoint set_get_loop (ticks : nat → Z) (now : nat → time_point) (i n : nat) (s : S) (latencies : list Z)
    : S * list Z :=
  match n with
  | O => (s, latencies)
  | Datatypes.S n' =>
      let op_start := ticks (2 * i + 1)%nat in
      let s := (st_set (bench_key i) "payload" s).1 in
      let _ := st_get (now i) (bench_key i) s in
      let op_end := ticks (2 * i + 2)%nat in
      set_get_loop ticks now (Datatypes.S i) n' s (latencies ++ [(op_end - op_start)%Z])
  end.

Definition run_set_get (ticks : nat → Z) (now : nat → time_point) (iterations : nat) (s : S)
    : Outcome (S * BenchResult) :=
  let '(s, latencies) := set_get_loop ticks now 0 iterations s [] in
  let elapsed := (ticks (2 * iterations + 1)%nat - ticks 0%nat)%Z in
  '(a, latencies) ← percentile latencies p50;
  '(b, latencies) ← percentile latencies p95;
  '(c, latencies) ← percentile latencies p99;
  Ret (s, mkResult (wrap 64 (Z.of_nat iterations * 2)) elapsed a b c).

Definition run_exists (ticks : nat → Z) (iterations : nat) (s : S) : S * BenchResult :=
  let s := foldl (λ s i, (st_set (exists_key i) "1" s).1) s (seq 0 iterations) in
  let _ := (λ i, st_exists (exists_key i) s) <$> seq 0 iterations in
  (s, mkResult (Z.of_nat iterations) (ticks 1%nat - ticks 0%nat)%Z 0 0 0).

(** [static_cast<double>(operations) / elapsed]. *)
Definition requests_per_sec (r : BenchResult) : option Q := rate (operations r) (elapsed r).

(** What [main] prints. *)
Definition report (set_get exists_ : BenchResult) : string :=
  "set/get rps=" +:+ rate_text (requests_per_sec set_get) +:+
  " p50=" +:+ double_text (milliseconds (p50_ set_get)) +:+
  " p95=" +:+ double_text (milliseconds (p95_ set_get)) +:+
  " p99=" +:+ double_text (milliseconds (p99_ set_get)) +:+ lf +:+
  "exists rps=" +:+ rate_text (requests_per_sec exists_) +:+ lf.

(** [main]: the storage at its end, the two results and the text on standard output. *)
Definition main (ticks ticks' : nat → Z) (now : nat → time_point) (s : S)
    : Outcome (S * BenchResult * BenchResult * string) :=
  '(s, set_get) ← run_set_get ticks now (N.to_nat 5000) s;
  let '(s, exists_) := run_exists ticks' (N.to_nat 5000) s in
  Ret (s, set_get, exists_, report set_get exists_).

End Runner.

(** ** Rounding *)

(** The binade of a large number. *)
Lemma binade x :
  (2 ^ 53 ≤ x)%Z →
  let e := (Z.log2 x - 52)%Z in
  (1 ≤ e)%Z ∧ (2 ^ 52 * 2 ^ e ≤ x < 2 ^ 53 * 2 ^ e)%Z.
Proof.
  intros Hx e. assert (53 ≤ Z.log2 x)%Z as Hl.
  { change 53%Z with (Z.log2 (2 ^ 53)). by apply Z.log2_le_mono. }
  split; [lia|]. rewrite <-!Z.pow_add_r by lia.
  replace (52 + e)%Z with (Z.log2 x) by lia. replace (53 + e)%Z with (Z.succ (Z.log2 x)) by lia.
  apply Z.log2_spec. lia.
Qed.

(** Rounding stays within the two neighbours on the grid of the binade. *)
Lemma round53_between x :
  (2 ^ 53 ≤ x)%Z →
  let e := (Z.log2 x - 52)%Z in let q := (x / 2 ^ e)%Z in
  (q * 2 ^ e ≤ x < (q + 1) * 2 ^ e)%Z ∧ (round53 x = q * 2 ^ e ∨ round53 x = (q + 1) * 2 ^ e)%Z.
Proof.
  intros Hx e q. destruct (binade x Hx) as [He _]. fold e in He.
  assert (0 < 2 ^ e)%Z as Hp by (apply Z.pow_pos_nonneg; lia).
  pose proof (Z.div_mod x (2 ^ e) ltac:(lia)). pose proof (Z.mod_pos_bound x (2 ^ e) Hp). fold q in H.
  split; [lia|]. unfold round53. rewrite (proj2 (Z.ltb_ge _ _)) by lia. fold e q. case_match; auto.
Qed.

Lemma round53_small x : (x < 2 ^ 53)%Z → round53 x = x.
Proof. intros Hx. unfold round53. by rewrite (proj2 (Z.ltb_lt _ _)). Qed.

Lemma quotient_range x :
  (2 ^ 53 ≤ x)%Z → let e := (Z.log2 x - 52)%Z in (2 ^ 52 ≤ x / 2 ^ e < 2 ^ 53)%Z ∧ (0 < 2 ^ e)%Z.
Proof.
  intros Hx e. destruct (binade x Hx) as [He Hb]. fold e in He, Hb.
  assert (0 < 2 ^ e)%Z as Hp by (apply Z.pow_pos_nonneg; lia). split; [|done]. split.
  - apply Z.div_le_lower_bound; lia.
  - apply Z.div_lt_upper_bound; lia.
Qed.

(** Two numbers with the same quotient in the same binade. *)
Lemma round53_same x y :
  (2 ^ 53 ≤ x ≤ y)%Z → Z.log2 x = Z.log2 y →
  (x / 2 ^ (Z.log2 x - 52) = y / 2 ^ (Z.log2 y - 52))%Z → (round53 x ≤ round53 y)%Z.
Proof.
  intros Hxy Hl Hq. destruct (quotient_range x) as [_ Hp]; [lia|]. unfold round53. rewrite <-Hl, <-Hq in *.
  set (e := (Z.log2 x - 52)%Z) in *. set (q := (x / 2 ^ e)%Z) in *.
  rewrite !(proj2 (Z.ltb_ge _ (2 ^ 53))) by lia.
  assert (x mod 2 ^ e ≤ y mod 2 ^ e)%Z as Hr.
  { pose proof (Z.div_mod x (2 ^ e)). pose proof (Z.div_mod y (2 ^ e)). fold q in H. rewrite <-Hq in H0. lia. }
  destruct (Z.ltb_spec (2 * (x mod 2 ^ e)) (2 ^ e)), (Z.ltb_spec (2 * (y mod 2 ^ e)) (2 ^ e)),
    (Z.eqb_spec (2 * (x mod 2 ^ e)) (2 ^ e)), (Z.eqb_spec (2 * (y mod 2 ^ e)) (2 ^ e)), (Z.even q);
    simpl; lia.
Qed.

(** Rounding is monotone. *)
Lemma round53_mono x y : (x ≤ y)%Z → (round53 x ≤ round53 y)%Z.
Proof.
  intros Hxy. destruct (Z.lt_ge_cases y (2 ^ 53)) as [Hy|Hy]; [by rewrite !round53_small by lia|].
  destruct (round53_between y Hy) as [_ Hry]. destruct (quotient_range y Hy) as [Hqy Hpy].
  destruct (Z.lt_ge_cases x (2 ^ 53)) as [Hx|Hx].
  { rewrite (round53_small x) by done. destruct (binade y Hy) as [He _].
    assert (2 ^ 1 ≤ 2 ^ (Z.log2 y - 52))%Z by (apply Z.pow_le_mono_r; lia). nia. }
  destruct (round53_between x Hx) as [_ Hrx]. destruct (quotient_range x Hx) as [Hqx Hpx].
  assert (Z.log2 x ≤ Z.log2 y)%Z as Hl by (by apply Z.log2_le_mono).
  destruct (Z.eq_dec (Z.log2 x) (Z.log2 y)) as [Heq|Hne].
  - assert (x / 2 ^ (Z.log2 x - 52) ≤ y / 2 ^ (Z.log2 y - 52))%Z as Hq by (rewrite Heq in *; apply Z.div_le_mono; lia).
    destruct (Z.eq_dec (x / 2 ^ (Z.log2 x - 52))%Z (y / 2 ^ (Z.log2 y - 52))%Z) as [Hqe|Hqn];
      [by apply round53_same|].
    rewrite Heq in *. nia.
  - assert (2 ^ 53 * 2 ^ (Z.log2 x - 52) ≤ 2 ^ 52 * 2 ^ (Z.log2 y - 52))%Z.
    { rewrite <-!Z.pow_add_r; try lia; [apply Z.pow_le_mono_r; lia|destruct (binade y Hy); lia|destruct (binade x Hx); lia]. }
    nia.
Qed.

(** Numbers with at most 53 significant bits are not changed. *)
Lemma round53_exact m k : (0 ≤ m < 2 ^ 53)%Z → (0 ≤ k)%Z → round53 (m * 2 ^ k) = (m * 2 ^ k)%Z.
Proof.
  intros Hm Hk. destruct (Z.lt_ge_cases (m * 2 ^ k) (2 ^ 53)) as [|Hl]; [by apply round53_small|].
  destruct (binade _ Hl) as [He Hb]. unfold round53. rewrite (proj2 (Z.ltb_ge _ _)) by lia.
  set (x := (m * 2 ^ k)%Z) in *. set (e := (Z.log2 x - 52)%Z) in *.
  assert (0 < 2 ^ e)%Z as Hp by (apply Z.pow_pos_nonneg; lia).
  assert (e ≤ k)%Z as Hek.
  { destruct (Z.le_gt_cases e k) as [|Hgt]; [done|]. exfalso.
    assert (2 ^ 53 * 2 ^ k ≤ 2 ^ 52 * 2 ^ e)%Z as Hpow.
    { rewrite <-!Z.pow_add_r by lia. apply Z.pow_le_mono_r; lia. }
    assert (0 < 2 ^ k)%Z by (apply Z.pow_pos_nonneg; lia). unfold x in *. nia. }
  assert (x = m * 2 ^ (k - e) * 2 ^ e)%Z as Hg.
  { unfold x. rewrite <-Z.mul_assoc, <-Z.pow_add_r by lia. do 2 f_equal. lia. }
  assert (x mod 2 ^ e = 0)%Z as -> by (rewrite Hg; apply Z.mod_mul; lia).
  rewrite (proj2 (Z.ltb_lt _ _)) by lia. cbn [orb]. rewrite Hg at 1. rewrite Z.div_mul by lia. by rewrite <-Hg.
Qed.

(** ** Percentiles *)

(** The index of a percentile is in range and grows with the percentile: for a
    vector of at most [2^53] samples and a factor between 0 and 1, the index
    computed in double precision is below the size, and a larger factor gives an
    index that is not smaller. *)
Lemma percentile_index_in_range p p' size :
  (0 ≤ p ≤ p')%Z → (p' ≤ 2 ^ 53)%Z → (1 ≤ size ≤ 2 ^ 53)%Z →
  (0 ≤ percentile_index p size ≤ percentile_index p' size)%Z ∧ (percentile_index p' size < size)%Z.
Proof.
  intros Hp Hp' Hs. unfold percentile_index. rewrite (round53_small (size - 1)) by lia.
  assert (round53 (p * (size - 1)) ≤ round53 (p' * (size - 1)))%Z as Hm by (apply round53_mono; nia).
  assert (0 ≤ round53 (p * (size - 1)))%Z as H0.
  { change 0%Z with (round53 0). apply round53_mono. nia. }
  assert (round53 (p' * (size - 1)) ≤ (size - 1) * 2 ^ 53)%Z as Hle.
  { rewrite <-(round53_exact (size - 1) 53) by lia. apply round53_mono. nia. }
  split; [split|].
  - by apply Z.div_pos.
  - by apply Z.div_le_mono.
  - apply Z.div_lt_upper_bound; lia.
Qed.

Lemma sorted_lookup_le l i j (x y : Z) :
  StronglySorted Z.le l → i ≤ j → l !! i = Some x → l !! j = Some y → (x ≤ y)%Z.
Proof.
  intros Hs. revert i j. induction Hs as [|a l _ IH Hf]; intros i j Hij Hi Hj; [done|].
  destruct i as [|i], j as [|j]; simplify_eq/=; [done| |lia|by apply (IH i j); [lia|..]].
  rewrite Forall_forall in Hf. apply Hf. by eapply list_elem_of_lookup_2.
Qed.

Lemma sort_sorted (l : list Z) : StronglySorted Z.le (merge_sort Z.le l).
Proof. apply StronglySorted_merge_sort; apply _. Qed.

Lemma sort_again (l : list Z) : merge_sort Z.le (merge_sort Z.le l) = merge_sort Z.le l.
Proof.
  apply (StronglySorted_unique Z.le); [apply sort_sorted..|]. apply merge_sort_Permutation.
Qed.

Lemma percentile_sorted l p :
  l ≠ [] → (0 ≤ p ≤ 2 ^ 53)%Z → (Z.of_nat (length l) ≤ 2 ^ 53)%Z →
  ∃ v, percentile l p ⇓ (v, merge_sort Z.le l) ∧
    merge_sort Z.le l !! Z.to_nat (percentile_index p (Z.of_nat (length l))) = Some v.
Proof.
  intros Hne Hp Hl. unfold percentile. rewrite bool_decide_false by done.
  assert (length (merge_sort Z.le l) = length l) as -> by (by rewrite merge_sort_Permutation).
  assert (0 < length l) by (destruct l; simpl; [done|lia]).
  destruct (percentile_index_in_range p p (Z.of_nat (length l))) as [Hr Hlt]; [lia..|].
  destruct (lookup_lt_is_Some_2 (merge_sort Z.le l) (Z.to_nat (percentile_index p (Z.of_nat (length l))))) as [v Hv].
  { rewrite merge_sort_Permutation. lia. }
  exists v. by rewrite Hv.
Qed.

(** Sorting the latencies in nanoseconds and converting them to milliseconds is sorting
    the converted latencies: the result is ascending and has the same elements. *)
Lemma sort_then_convert l :
  Forall (Z.le 0) l →
  StronglySorted Qle (milliseconds <$> merge_sort Z.le l) ∧ (milliseconds <$> merge_sort Z.le l) ≡ₚ (milliseconds <$> l).
Proof.
  intros Hl. split; [|by rewrite merge_sort_Permutation].
  assert (Forall (Z.le 0) (merge_sort Z.le l)) as Hm by (by rewrite merge_sort_Permutation).
  pose proof (sort_sorted l) as Hs. induction Hs as [|x m _ IH Hx]; [constructor|].
  apply Forall_cons in Hm as [H0 Hm]. constructor; [by apply IH|]. apply Forall_fmap.
  eapply Forall_impl; [exact Hx|]. intros y Hy. by apply milliseconds_mono.
Qed.

(** Three percentiles of a vector: ordered, and each one of its elements. *)
Lemma three_percentiles l a b c :
  l ≠ [] → (Z.of_nat (length l) ≤ 2 ^ 53)%Z → (0 ≤ a ≤ b)%Z → (b ≤ c ≤ 2 ^ 53)%Z →
  ∃ x y z, percentile l a ⇓ (x, merge_sort Z.le l) ∧ percentile (merge_sort Z.le l) b ⇓ (y, merge_sort Z.le l) ∧
    percentile (merge_sort Z.le l) c ⇓ (z, merge_sort Z.le l) ∧ (x ≤ y ≤ z)%Z ∧ x ∈ l ∧ y ∈ l ∧ z ∈ l.
Proof.
  intros Hne Hl Hab Hbc. set (m := merge_sort Z.le l).
  assert (m ≡ₚ l) as Hm by apply merge_sort_Permutation.
  assert (length m = length l) as Hlm by (by rewrite Hm).
  assert (m ≠ []) as Hmne by (intros E; rewrite E in Hm; by apply Permutation_nil_l in Hm).
  destruct (percentile_sorted l a) as (x & Hx & Hix); [done|lia|done|].
  destruct (percentile_sorted m b) as (y & Hy & Hiy); [done|lia|lia|].
  destruct (percentile_sorted m c) as (z & Hz & Hiz); [done|lia|lia|].
  unfold m in Hy, Hiy, Hz, Hiz. rewrite sort_again in Hy, Hiy, Hz, Hiz. fold m in Hx, Hix, Hy, Hiy, Hz, Hiz.
  rewrite Hlm in Hiy, Hiz. exists x, y, z.
  assert (0 < length l) by (destruct l; simpl; [done|lia]).
  destruct (percentile_index_in_range a b (Z.of_nat (length l))) as [Hi1 _]; [lia..|].
  destruct (percentile_index_in_range b c (Z.of_nat (length l))) as [Hi2 _]; [lia..|].
  pose proof (sort_sorted l) as Hs. fold m in Hs.
  split_and!; try done; try (rewrite <-Hm; by eapply list_elem_of_lookup_2).
  - refine (sorted_lookup_le m _ _ x y Hs _ Hix Hiy). lia.
  - refine (sorted_lookup_le m _ _ y z Hs _ Hiy Hiz). lia.
Qed.

(** ** The runs *)

Section Runs.
Context {S : Type} `{StorageLaws S}.

(** The latencies of the operations. *)
Definition latencies_of (ticks : nat → Z) (i n : nat) : list Z :=
  (λ i, (ticks (2 * i + 2)%nat - ticks (2 * i + 1)%nat)%Z) <$> seq i n.

Lemma set_get_loop_spec ticks now i n (s : S) ls :
  st_ok s →
  ∃ s', set_get_loop ticks now i n s ls = (s', ls ++ latencies_of ticks i n) ∧ st_ok s' ∧
    st_view s' = foldl (λ m j, <[bench_key j := mkEntry "payload" None]> m) (st_view s) (seq i n).
Proof.
  revert i s ls. induction n as [|n IH]; intros i s ls Hok; cbn [set_get_loop seq foldl].
  - exists s. by rewrite app_nil_r.
  - destruct (IH (Datatypes.S i) (st_set (bench_key i) "payload" s).1
      (ls ++ [(ticks (2 * i + 2)%nat - ticks (2 * i + 1)%nat)%Z])) as (s' & -> & Hok' & Hv); [by apply set_ok|].
    exists s'. unfold latencies_of. csimpl. rewrite <-(assoc_L (++)). split_and!; [done|done|].
    by rewrite Hv, set_view.
Qed.

(** The benchmark measures what it says: [run_set_get] always returns; the storage
    afterwards holds the keys it wrote and is otherwise unchanged; the three
    percentiles are latencies of operations it timed, in ascending order; and
    with no iterations they are zero. *)
Theorem run_set_get_spec ticks now n (s : S) :
  st_ok s → (Z.of_nat n ≤ 2 ^ 53)%Z →
  ∃ s' res, run_set_get ticks now n s ⇓ (s', res) ∧ st_ok s' ∧
    st_view s' = foldl (λ m j, <[bench_key j := mkEntry "payload" None]> m) (st_view s) (seq 0 n) ∧
    operations res = (2 * Z.of_nat n)%Z ∧
    (if (n =? 0)%nat then p50_ res = 0%Z ∧ p95_ res = 0%Z ∧ p99_ res = 0%Z
     else (p50_ res ≤ p95_ res ≤ p99_ res)%Z ∧
       p50_ res ∈ latencies_of ticks 0 n ∧ p95_ res ∈ latencies_of ticks 0 n ∧ p99_ res ∈ latencies_of ticks 0 n).
Proof.
  intros Hok Hn. unfold run_set_get.
  destruct (set_get_loop_spec ticks now 0 n s [] Hok) as (s' & -> & Hok' & Hv). cbn [app].
  assert (wrap 64 (Z.of_nat n * 2) = (2 * Z.of_nat n)%Z) as Hw by (unfold wrap; rewrite Z.mod_small; lia).
  destruct (Nat.eqb_spec n 0) as [->|Hn0].
  - eexists s', _. split; [done|]. by split_and!.
  - set (l := latencies_of ticks 0 n).
    assert (length l = n) as Hl by (unfold l, latencies_of; by rewrite length_fmap, length_seq).
    destruct (three_percentiles l p50 p95 p99) as (x & y & z & Hx & Hy & Hz & Hle & Hin);
      [intros E; rewrite E in Hl; done|lia|unfold p50, p95; lia|unfold p95, p99; lia|].
    rewrite Hx. msimp. rewrite Hy. msimp. rewrite Hz. msimp.
    eexists s', _. split; [done|]. split_and!; try done; apply Hle || apply Hin.
Qed.

(** [run_exists] stores its keys and then finds each of them. *)
Lemma run_exists_keys ticks n (s : S) :
  st_ok s →
  let '(s', res) := run_exists ticks n s in
  st_ok s' ∧ operations res = Z.of_nat n ∧ ∀ i, i < n → st_exists (exists_key i) s' = true.
Proof.
  intros Hok. unfold run_exists.
  assert (∀ l s, st_ok s → let s' := foldl (λ s i, (st_set (exists_key i) "1" s).1) s l in
    st_ok s' ∧ ∀ i, i ∈ l ∨ is_Some (st_view s !! exists_key i) → is_Some (st_view s' !! exists_key i)) as Hfold.
  { induction l as [|j l IH]; intros s1 Hs1; simpl; [split; [done|]; intros i [Hi|Hi]; [set_solver|done]|].
    destruct (IH (st_set (exists_key j) "1" s1).1 (set_ok _ _ _ Hs1)) as [Ho Hx]. split; [done|].
    intros i Hi. apply Hx. rewrite set_view by done.
    destruct (decide (exists_key j = exists_key i)) as [->|Hne]; [right; rewrite lookup_insert_eq; eauto|].
    rewrite lookup_insert_ne by done. destruct Hi as [[->|Hi]%elem_of_cons|Hi]; [done|by left|by right]. }
  destruct (Hfold (seq 0 n) s Hok) as [Ho Hx]. split_and!; [done|done|]. intros i Hi.
  rewrite exists_view by done. apply bool_decide_true, Hx. left. apply elem_of_seq. lia.
Qed.

(** The benchmark program always returns, counts 10000 and 5000 operations, and prints
    the report of its two results. *)
Theorem bench_main_returns ticks ticks' now (s : S) :
  st_ok s →
  ∃ s' set_get exists_, main ticks ticks' now s ⇓ (s', set_get, exists_, report set_get exists_) ∧ st_ok s' ∧
    operations set_get = 10000%Z ∧ operations exists_ = 5000%Z ∧ (p50_ set_get ≤ p95_ set_get ≤ p99_ set_get)%Z ∧
    ∀ i, i < N.to_nat 5000 → st_exists (exists_key i) s' = true.
Proof.
  intros Hok. unfold main. destruct (run_set_get_spec ticks now (N.to_nat 5000) s Hok) as (s1 & res & Hr & Hok1 & _ & Hop & Hp); [lia|].
  rewrite Hr. msimp. pose proof (run_exists_keys ticks' (N.to_nat 5000) s1 Hok1) as He.
  destruct (run_exists ticks' (N.to_nat 5000) s1) as [s2 res2]. destruct He as (Hok2 & Hop2 & Hex).
  exists s2, res, res2. split; [done|]. destruct (Nat.eqb_spec (N.to_nat 5000) 0) as [|_]; [lia|].
  split_and!; [done|lia|lia|apply Hp|apply Hp|done].
Qed.

End Runs.

Section Witness.
#[local] Existing Instance HashTable.sum_hash.

Lemma run_set_get_spec_witness :
  ∃ s' res, run_set_get (λ i, Z.of_nat (i * i)) (λ _, 0%Z) 3 StorageEngine.small ⇓ (s', res) ∧
    (p50_ res ≤ p99_ res)%Z ∧ st_view s' !! bench_key 2 = Some (mkEntry "payload" None).
Proof.
  destruct (run_set_get_spec (λ i, Z.of_nat (i * i)) (λ _, 0%Z) 3 StorageEngine.small)
    as (s' & res & Hr & _ & Hv & _ & Hp & _); [apply StorageEngine.small_ok|lia|].
  exists s', res. split; [exact Hr|]. split; [lia|]. rewrite Hv. reflexivity.
Defined.

End Witness.
